(* ===== verification/_CoqProject ===== *)
-Q . S2P
Prelude.v
Text.v
RingIndex.v
MStream.v
PackedInt.v
OrderedMap.v
PacketCollector.v
StateMachine.v
ApiProtocol.v
SafeStreamApi.v
SafeStreamTypes.v
SafeStreamSending.v
SafeStreamReceiving.v
SafeStream.v
SafeStreamFlow.v
SafeStreamLimits.v
Actions.v
Events.v
BufferGate.v
Streams.v
Crc.v
ProofOfWork.v
Crypto.v
Ptr.v
PtrGraph.v
PtrDecision.v
PtrCollect.v
PtrOps.v
SocketTransport.v
TcpTransports.v
WinTcp.v
ServerTransport.v
ObjRegistry.v
ObjDomain.v
ServerList.v
ClientConnections.v
GetClientCloud.v
Registration.v
FileSystems.v
FileSystemPaths.v
Statistics.v
WireTypes.v
ApiMessages.v
StreamStack.v
Poller.v
Dns.v
Versions.v
TeleTraps.v
CryptoProviders.v
ClientCore.v
LiteralArray.v
ActionLists.v
P2pStream.v
Adapters.v
