(* ===== verification/Prelude.v ===== *)
(** * Aether client: verification development

    The program ([src/aether/]) is the client library of the Aethernet
    messaging service.  An application writes to streams.  A stream is a chain
    of gates: a gate encrypts, buffers, adds a header or a size, splits one
    connection into several, or, in the safe stream, makes an unreliable packet
    channel reliable and ordered.  Packets are sequences of messages written by
    the serialization operators and read by the API parser.  Everything that
    takes time is an action, which a processor updates; parts tell each other
    of changes through events.  Below the streams a server is reached through
    one of its channels, and a channel through a socket.  A client registers
    with the service, and reaches other clients through the servers of their
    clouds.  The objects of the program are held by smart pointers that collect
    cycles, and a domain saves them to and loads them from one of several file
    systems.

    This file is the root of the development and its prelude: machine integers,
    byte buffers and their little-endian images, the result of code that may
    have undefined behaviour, and the shared tactics and list lemmas.

    ** Files

    - [Text]: the functions on strings the code uses, as lists of characters.
    - [RingIndex]: [ring_buffer.h], the ring arithmetic of stream offsets at its
      width; [SafeStreamRingIndex] is the 16-bit ring of the safe stream.
    - [MStream]: [mstream.h] and [mstream_buffers.h].  The class [Serial] is a
      pair of stream operators, [SerialOk] their round trip; instances for
      integers, enums, pairs, arrays, vectors, lists, maps and pointers.
    - [PackedInt]: [packed_int.h], the variable-length integers, for every base
      type, limit and depth of the template; [PackedSize] is the one used for
      sizes.
    - [OrderedMap]: maps with integer keys, their order and stream operators.
    - [PacketCollector]: [memory_buffer.h], [data_packet_collector.*] and
      [sized_packet_stream.*], packets on a byte stream.
    - [StateMachine]: [state_machine.h].
    - [ApiProtocol]: [api_protocol/], packing and parsing.  The class [ApiClass]
      is what the parser expects of an API, [ApiClassOk] that it only moves
      forward; termination and the round trip of packets are proved against
      them.
    - [SafeStreamApi], [SafeStreamTypes], [SafeStreamSending],
      [SafeStreamReceiving], [SafeStream]: [stream_api/safe_stream/] and
      [stream_api/safe_stream.*].  One file per half with its invariant;
      [SafeStream] puts two endpoints and a network between them into a world
      with a step relation.  [SafeStreamFlow] has the deterministic runs of one
      direction, round after round, [SafeStreamLimits] the behaviour outside the
      safe cases.
    - [Actions]: [actions/], the registry with its counted handles, the
      processor, the trigger of threads and the notifying action.  [ActionLists]:
      [action_list.h] and [action_view.h].
    - [Events]: [events/], handlers, subscriptions and nested emission,
      [MultiSubscription] and [BarrierEvent].
    - [BufferGate]: [stream_api/buffer_gate.*], [stream_write_action.*] and
      [StreamInfo] of [istream.h].
    - [Streams]: [stream_api.*], [splitter_gate.*], [header_gate.*] and
      [unidirectional_gate.*].
    - [Crc]: [crc.h].  [ProofOfWork]: [proof_of_work.*].
    - [Crypto]: [crypto/crypto_nonce.*], [server_keys.*],
      [crypto/sodium/sodium_sync_crypto_provider.cpp] and
      [stream_api/crypto_stream.*].  [CryptoProviders]: the other files of
      [crypto/], the derivation of keys and the encryption of both libraries.  The
      class [Libraries] has the functions of the libraries, [LibrariesOk] what
      their documentation promises; [ISyncKeyProvider] and [IAsyncKeyProvider] are
      the interfaces to the keys, [ISyncKeyProviderOk] what encryption expects of
      them.
    - [Ptr]: [obj/ptr_management.*], [ptr.h], [ptr_view.h], [domain_tree.h] and
      the creation of objects of [obj_ptr.h]: counters, the walk over the
      pointers of an object and the search of the graph before a deletion.
      [PtrGraph] proves the walk and the search, [PtrDecision] the decision to
      delete, [PtrCollect] the invariant and the collection, [PtrOps] the
      operations and programs.
    - [SocketTransport]: [transport/actions/packet_send_action.h],
      [socket_packet_send_action.*] and [socket_packet_queue_manager.h].  The
      class [SocketAction] is what the queue expects of a packet,
      [SocketActionOk] that sending takes its bytes in order.
      [TcpTransports]: [unix_tcp.*] and [lwip_tcp.*]; [WinTcp]: [win_tcp.*],
      whose packets implement the same classes with overlapped writes.
    - [ServerTransport]: [transport/server/] and the connection actions of
      [transport/actions/].
    - [ObjRegistry]: [obj/registry.*] and the choice of a factory of
      [obj/domain.cpp].  [ObjDomain]: saving and loading of [obj/domain.h].
    - [ServerList]: servers, clouds, [server_list/] and the selector of servers.
      [ClientConnections]: [client_connections/], the connections to the servers
      of a cloud and the message streams over them.  [GetClientCloud]: the
      actions that find the cloud of a client and connect to it.
      [Registration]: [ae_actions/registration/].  [ClientCore]: [client.*] with the
      keys of its servers, [registration_cloud.*].  [P2pStream]:
      [client_messages/p2p_message_stream.*], the stream to another client.
    - [FileSystems], [FileSystemPaths]: [port/file_systems/].  The class
      [DomainFacility] is what the domain expects of a file system, [FacilityOk]
      that it behaves as a map from objects, classes and versions to bytes.
    - [Statistics]: [tele/traps/statistics_trap.*] and [tele/collectors.h].
      [TeleTraps]: [tele/ios.h], the texts of levels and modules, and the traps
      behind the class [Trap]: the statistics, a text stream and the proxy of two.
    - [WireTypes]: [variant_type.h], [crypto/key.h], [crypto/sign.h],
      [address.*], [uid.h] and [methods/server_descriptor.h].
      [ApiMessages]: [methods/], the APIs of the servers and of the client.
    - [StreamStack]: the gates of [stream_api/] behind the class [IGate], chains of
      them, the stream to a server ([client_to_server_stream.cpp]) and the streams of
      messages over it.
    - [Poller]: [poller/].  The class [PollWorker] is what the four pollers have in
      common, [PollWorkerOk] that they keep a list of registrations.  [Dns]: [dns/],
      on any poller.
    - [Versions]: [obj/version_iterator.h] and the versioned classes of
      [obj/domain.h].
    - [LiteralArray]: [literal_array.h].
    - [Adapters]: [adapters/].  The class [IAdapter] is what makes transports,
      [IAdapterOk] that every request gets its own; the network of the ESP32 is a
      sequence of events.

    ** How the code is modelled

    A class is a record with the names of its members, an operation a function
    from the old to the new state together with what it hands to other parts:
    messages, deliveries, emitted events.  An unsigned integer is a [Z] with its
    reduction written out where the code can leave the range.  A failed
    assertion, a null or dangling access and an out-of-range access are
    [Undefined]; so is locking a mutex twice.  What the operating system answers
    is an argument of the operation that asks, so a theorem for all arguments is
    one for every behaviour of the system.  Code outside [src/] (libsodium, bcrypt)
    and code of the user (callbacks, updates of actions, allocation) is a parameter;
    documented behaviour a theorem relies on is a named hypothesis, with an instance
    in the witness.

    Loops without a structural measure take fuel, and running out of it is a
    value of its own.  [ApiProtocol.Parse] has the length of the packet as fuel,
    which is enough since every message takes a byte.  The loop of the packet
    collector is proved to end when memory is available and not to end when it
    is not.  [SafeStreamFlow] states the number of updates that is enough.
    [Events.run] bounds the depth of nested emissions, and a stratification of
    the callbacks gives a bound that is enough.  [ProofOfWork] states the number
    of tries that is enough.  The walk of a smart pointer and the deletion have
    the number of objects as fuel, since each object is entered once; the search
    of [ObjRegistry] the number of classes with derived ones; saving and loading
    the number of parts of the saved objects.  The fuel of the proof of work in
    [Registration] is an argument; that a registration completes is stated for
    fuel that reaches as many accepted numbers as the pool needs.

    ** What is proved

    - Safe stream: whatever the network does, what is delivered is a prefix of
      what was written, in both directions ([SafeStream]); without loss all of
      it is delivered and confirmed, over any number of windows and in any order of
      arrival within one ([SafeStreamFlow]); the send buffer is accounted for.  The
      theorems hold while the offsets have not wrapped; [SafeStreamLimits] shows what happens past the wrap point and in
      other cases the code does not handle.
    - Round trips: packed integers, sized packets under any segmentation,
      packets of messages, streams over one connection, encryption.
    - Events: order, uniqueness and survival of calls under arbitrary callbacks,
      clean-up, termination.  Actions: no dangling handle, exact counting, the
      update of all actions; a trigger is seen by the next wait that ends, which can
      always end.
    - Buffer gate: order, bound and progress.  Checksums: all versions are the
      bitwise division, and detect a changed byte.  Proof of work: the result is
      the first accepted numbers.
    - Smart pointers: destroying one deletes exactly the objects no other
      pointer leads to, cycles included, and programs over them never touch a
      deleted object; both for classes that show all their pointers and while the
      keys of the cycle detector differ.  Objects: a graph that is saved is loaded
      again, and the load methods of a class get what the save methods of another
      program with other versions wrote; the registry answers the distances of the
      declared classes, in whatever order they register, and the factory found is
      final and most derived.
    - Transports: the queues of all sockets refine a pipe of bytes; two sockets
      transfer the packets end to end; the queue of a server gives its packets
      to the channel in order, one at a time, and is drained; connecting tries
      the channels in order.
    - Client: a registration only uses keys that were signed, and ends with the
      identity the server confirmed when all requests are answered and the proof of
      work can be done; there is one
      connection per server; the streams to a client are restored on a new
      connection; the action that connects to a cloud ends with a connection or
      an error after it tried the servers.  A configured client and the servers of
      its cloud decrypt each other's packets in every configuration; the stream to
      another client keeps its writes until the destination is connected and sends
      them in order.
    - Streams: what is written to a stream of messages reaches the server packet by
      packet and fits its limits, what the server sends is delivered, and every end
      of a write is reported.
    - Pollers and names: all four pollers call the oldest registration of an entry
      that was not removed; the epoll poller loses no event of clients that keep its
      rules; an answered query
      answers its action and no other.
    - Adapters: every request for a transport is answered once; those that wait for
      a wireless network are answered when it is up or given up, and written to after
      they are erased.
    - File systems: all five are the same map, each for the programs and tables it
      supports; what is exported as a header is read back.  Telemetry: the most
      recent entries are kept, the size that is counted is known, with what nested
      objects count again, and statistics are saved and loaded; the proxy
      gives both its traps what it is given.
    - Messages: every message of the APIs is read back in every configuration of
      the crypto libraries, and answers find their requests in any order.
    - Places where the code does not do what it means to, each as a theorem on
      the same definitions.

    ** What is not modelled

    The system calls of sockets, pollers, name resolution and disks are input and
    output; the threads of the pollers are modelled as what they do in between,
    not as how they are started and joined.  The compile-time configuration, the
    visitor templates and the wiring of the application object ([aether.*]) are
    machinery around the logic; [fixed_point.h] is floating point computed by a
    third-party library, and [Merge] of two triggers is not used.
    [ae_actions/pull.*] is left out by the preprocessor.  Not modelled of the
    domain are [LoadCopy], which loads an object under another identifier, and the
    updates of objects.  [P2pSafeStream] ties a sized packet gate and a safe
    stream to a [P2pStream], which are modelled each on its own.  In [BufferGate]
    and [Streams] the reaction of a subscriber happens after the operation that
    emitted the event, not in its middle; [Events] models the nesting itself. *)

From stdpp Require Export base tactics option list numbers.
From Stdlib Require Export ZArith Lia Bool.

#[global] Open Scope Z_scope.

(** ** Machine integers

    An unsigned [w]-bit integer of the C++ code is a [Z]; [in_width w] is its
    range and [wrap w] the reduction a conversion to that type performs. *)

Definition in_width (w x : Z) : Prop := 0 <= x < 2 ^ w.

Definition wrap (w x : Z) : Z := x mod 2 ^ w.

(** Length of a container as the code sees it ([std::size_t]). *)
Definition zlen {A} (l : list A) : Z := Z.of_nat (length l).

(** A byte buffer ([DataBuffer], [std::vector<std::uint8_t>]). *)
Abbreviation bytes := (list Z).

Definition byte_list (bs : bytes) : Prop := Forall (in_width 8) bs.

(** Time points and durations: [std::chrono] values in clock ticks. *)
Abbreviation TimePoint := Z.
Abbreviation Duration := Z.

(** Little-endian object representation of an [n]-byte integer, the image
    [memcpy] copies on the supported targets. *)
Fixpoint le_bytes (n : nat) (x : Z) : bytes :=
  match n with
  | O => []
  | S m => x mod 256 :: le_bytes m (x / 256)
  end.

Fixpoint le_val (bs : bytes) : Z :=
  match bs with
  | [] => 0
  | b :: r => b + 256 * le_val r
  end.

(** The sub-buffer of [n] elements that starts at [a]. *)
Definition sub {A} (a n : nat) (l : list A) : list A := take n (drop a l).

(** The result of code that may have undefined behaviour. *)
Inductive outcome (A : Type) :=
  | Defined (a : A)
  | Undefined.
Arguments Defined {A} a.
Arguments Undefined {A}.

Declare Scope outcome_scope.
Delimit Scope outcome_scope with outcome.

Notation "'let*' p := c 'in' k" :=
  (match c with Defined p => k | Undefined => Undefined end)
  (at level 10, p pattern, c at level 100, k at level 200) : outcome_scope.

#[global] Open Scope outcome_scope.

(** The last element of a container ([back()]). *)
Fixpoint back {A} (l : list A) : option A :=
  match l with
  | [] => None
  | [x] => Some x
  | _ :: r => back r
  end.

(** ** Automation *)

Create HintDb aether.
Create Rewrite HintDb aether.

#[export] Hint Unfold in_width wrap zlen : aether.

(** Turn the boolean comparisons of the code into arithmetic hypotheses. *)
Ltac zbool :=
  repeat match goal with
  | H : _ && _ = true |- _ => apply andb_true_iff in H as [? ?]
  | H : _ || _ = false |- _ => apply orb_false_iff in H as [? ?]
  | H : negb _ = true |- _ => apply negb_true_iff in H
  | H : negb _ = false |- _ => apply negb_false_iff in H
  | H : (_ <? _) = true |- _ => apply Z.ltb_lt in H
  | H : (_ <? _) = false |- _ => apply Z.ltb_ge in H
  | H : (_ <=? _) = true |- _ => apply Z.leb_le in H
  | H : (_ <=? _) = false |- _ => apply Z.leb_gt in H
  | H : (_ =? _) = true |- _ => apply Z.eqb_eq in H
  | H : (_ =? _) = false |- _ => apply Z.eqb_neq in H
  end.

(** Case analysis on the integer comparison a conditional tests. *)
Ltac zcase :=
  match goal with
  | |- context [if ?b then _ else _] => destruct b eqn:?; zbool
  | H : context [if ?b then _ else _] |- _ => destruct b eqn:?; zbool
  end.

Ltac zsolve := unfold in_width, wrap, zlen in *; repeat zcase; try lia.

(** Closed side conditions. *)
Ltac zeval := solve [lia | vm_compute; first [reflexivity | discriminate]
                     | repeat constructor; first [discriminate | lia]].

(** ** Integers *)

Lemma in_width_wrap w x : 0 <= w -> in_width w (wrap w x).
Proof. intros; apply Z.mod_pos_bound, Z.pow_pos_nonneg; lia. Qed.

Lemma wrap_small w x : in_width w x -> wrap w x = x.
Proof. apply Z.mod_small. Qed.

Lemma zlen_nonneg {A} (l : list A) : 0 <= zlen l.
Proof. unfold zlen; lia. Qed.

Lemma zlen_app {A} (l k : list A) : zlen (l ++ k) = zlen l + zlen k.
Proof. unfold zlen; rewrite length_app; lia. Qed.

Lemma zlen_cons {A} (x : A) l : zlen (x :: l) = 1 + zlen l.
Proof. unfold zlen; simpl; lia. Qed.

Lemma zlen_nil_iff {A} (l : list A) : zlen l = 0 <-> l = [].
Proof. unfold zlen; destruct l; simpl; split; intros; try done; lia. Qed.

#[export] Hint Resolve in_width_wrap zlen_nonneg : aether.
#[export] Hint Rewrite @zlen_app @zlen_cons : aether.

(** ** Little-endian images *)

Lemma length_le_bytes n x : length (le_bytes n x) = n.
Proof. revert x; induction n; intros; simpl; auto. Qed.

Lemma le_bytes_range n x : byte_list (le_bytes n x).
Proof.
  unfold byte_list; revert x; induction n; intros; simpl; constructor; auto.
  unfold in_width. change (2 ^ 8) with 256. apply Z.mod_pos_bound; lia.
Qed.

Lemma pow256_succ n : 2 ^ (8 * Z.of_nat (S n)) = 256 * 2 ^ (8 * Z.of_nat n).
Proof.
  replace (8 * Z.of_nat (S n)) with (8 + 8 * Z.of_nat n) by lia.
  rewrite Z.pow_add_r by lia; reflexivity.
Qed.

Lemma le_val_bytes n x : le_val (le_bytes n x) = wrap (8 * Z.of_nat n) x.
Proof.
  unfold wrap; revert x; induction n; intros; [simpl; by rewrite Z.mod_1_r|].
  cbn [le_bytes le_val]. rewrite IHn, pow256_succ.
  assert (0 < 2 ^ (8 * Z.of_nat n)) by (apply Z.pow_pos_nonneg; lia).
  rewrite (Z.rem_mul_r x 256) by lia. reflexivity.
Qed.

Lemma le_val_range bs : byte_list bs -> in_width (8 * zlen bs) (le_val bs).
Proof.
  unfold in_width, zlen; induction 1 as [|b r Hb Hr IH]; simpl length.
  - simpl; lia.
  - rewrite pow256_succ. cbn [le_val]. unfold in_width in Hb.
    change (2 ^ 8) with 256 in Hb. lia.
Qed.

Lemma le_bytes_val bs : byte_list bs -> le_bytes (length bs) (le_val bs) = bs.
Proof.
  induction 1 as [|b r Hb Hr IH]; cbn [length le_bytes le_val]; [done|].
  unfold in_width in Hb; change (2 ^ 8) with 256 in Hb.
  replace ((b + 256 * le_val r) mod 256) with b
    by (rewrite Z.mul_comm, Z.mod_add, Z.mod_small; lia).
  replace ((b + 256 * le_val r) / 256) with (le_val r)
    by (rewrite Z.mul_comm, Z.div_add, Z.div_small; lia).
  by rewrite IH.
Qed.

(** ** Sub-buffers *)

Lemma sub_nil {A} a (l : list A) : sub a 0 l = [].
Proof. unfold sub; by rewrite take_0. Qed.

Lemma length_sub {A} a n (l : list A) :
  (a + n <= length l)%nat -> length (sub a n l) = n.
Proof. intros; unfold sub; rewrite length_take, length_drop; lia. Qed.

Lemma sub_app_split {A} a n m (l : list A) :
  sub a n l ++ sub (a + n) m l = sub a (n + m) l.
Proof.
  unfold sub. rewrite <- drop_drop. apply take_take_drop.
Qed.

Lemma sub_take {A} a n k (l : list A) :
  (k <= n)%nat -> take k (sub a n l) = sub a k l.
Proof. intros; unfold sub; rewrite take_take, Nat.min_l; auto. Qed.

Lemma sub_drop {A} a n k (l : list A) :
  drop k (sub a n l) = sub (a + k) (n - k) l.
Proof. unfold sub. by rewrite skipn_firstn_comm, drop_drop. Qed.

Lemma sub_prefix {A} n (l k : list A) :
  (n <= length l)%nat -> sub 0 n (l ++ k) = sub 0 n l.
Proof. intros; unfold sub; rewrite !drop_0. by rewrite take_app_le. Qed.

Lemma sub_app_inside {A} a n (l k : list A) :
  (a + n <= length l)%nat -> sub a n (l ++ k) = sub a n l.
Proof.
  intros; unfold sub. rewrite drop_app_le by lia.
  rewrite take_app_le; [done | rewrite length_drop; lia].
Qed.

Lemma sub_at_length {A} (l k m : list A) :
  sub (length l) (length k) (l ++ k ++ m) = k.
Proof. unfold sub. by rewrite drop_app_length, take_app_length. Qed.

(** ** Last elements *)

Lemma back_snoc {A} (l : list A) x : back (l ++ [x]) = Some x.
Proof.
  induction l as [|y l IH]; [done|]. simpl. destruct (l ++ [x]) eqn:E; [|done].
  by destruct l.
Qed.
