(* ===== verification/Text.v ===== *)
(** * Text: the parts of the standard library the code uses on strings

    A string is the list of its characters' codes.  [std::to_string] and
    [std::stoul] with its exceptions, the search in a string, hexadecimal output
    of a byte, and the lines of an input stream. *)

From Stdlib Require Import Ascii String.
From S2P Require Import Prelude.

Module Text.

(** A literal. *)
Definition lit (s : string) : bytes :=
  List.map (fun a => Z.of_N (N_of_ascii a)) (list_ascii_of_string s).

(** ** Numbers *)

(** [std::to_string], ten digits at most. *)
Fixpoint digits (n : nat) (v : Z) (acc : bytes) : bytes :=
  match n with
  | O => acc
  | S n => let acc := (48 + v mod 10) :: acc in if v <? 10 then acc else digits n (v / 10) acc
  end.

Definition to_string (v : Z) : bytes := digits 10 v [].

(** The value of a digit in a base. *)
Definition digit (base c : Z) : option Z :=
  let v := if (48 <=? c) && (c <=? 57) then c - 48
           else if (97 <=? c) && (c <=? 122) then c - 87
           else if (65 <=? c) && (c <=? 90) then c - 55
           else base in
  if v <? base then Some v else None.

Fixpoint read_digits (base acc : Z) (s : bytes) : Z :=
  match s with
  | [] => acc
  | c :: s => match digit base c with Some d => read_digits base (acc * base + d) s | None => acc end
  end.

Fixpoint skip_spaces (s : bytes) : bytes :=
  match s with
  | c :: s' => if (c =? 32) || ((9 <=? c) && (c <=? 13)) then skip_spaces s' else s
  | [] => []
  end.

Definition read_sign (s : bytes) : bool * bytes :=
  match s with
  | c :: s' => if c =? 45 then (true, s') else if c =? 43 then (false, s') else (false, s)
  | [] => (false, [])
  end.

(** The prefix [0x] of base sixteen, when a digit follows it. *)
Definition skip_prefix (base : Z) (s : bytes) : bytes :=
  match s with
  | z :: x :: d :: _ =>
      if (base =? 16) && (z =? 48) && ((x =? 120) || (x =? 88)) &&
         (match digit base d with Some _ => true | None => false end)
      then tail (tail s) else s
  | _ => s
  end.

(** [std::stoul] of a 64-bit [unsigned long]; its exceptions are [Undefined]. *)
Definition stoul (base : Z) (s : bytes) : outcome Z :=
  let '(neg, s) := read_sign (skip_spaces s) in
  let s := skip_prefix base s in
  match s with
  | [] => Undefined
  | c :: _ =>
      match digit base c with
      | None => Undefined
      | Some _ =>
          let v := read_digits base 0 s in
          if v <? 2 ^ 64 then Defined (if neg then wrap 64 (- v) else v) else Undefined
      end
  end.

(** A byte with [std::hex], [std::setw(2)] and [std::setfill('0')]. *)
Definition hex_digit (v : Z) : Z := if v <? 10 then 48 + v else 87 + v.

Definition hex2 (b : Z) : bytes := [hex_digit (b / 16); hex_digit (b mod 16)].

(** ** Search *)

Fixpoint starts (p s : bytes) : bool :=
  match p, s with
  | [], _ => true
  | _, [] => false
  | a :: p, b :: s => (a =? b) && starts p s
  end.

(** [std::string::find] *)
Fixpoint find (p s : bytes) : option nat :=
  if starts p s then Some 0%nat
  else match s with [] => None | _ :: s => S <$> find p s end.

(** [std::string::rfind] of a character. *)
Fixpoint rfind (c : Z) (s : bytes) : option nat :=
  match s with
  | [] => None
  | x :: s => match rfind c s with
              | Some i => Some (S i)
              | None => if x =? c then Some 0%nat else None
              end
  end.

(** [std::string::substr]; a start behind the end is an exception. *)
Definition substr (pos n : nat) (s : bytes) : outcome bytes :=
  if (pos <=? length s)%nat then Defined (take n (drop pos s)) else Undefined.

(** ** Lines *)

(** An input stream: what is left of it, and whether its end was met. *)
Record ifstream := { rest : bytes; eof : bool }.

Definition newline : Z := 10.

Fixpoint split_line (s : bytes) : option (bytes * bytes) :=
  match s with
  | [] => None
  | c :: s => if c =? newline then Some ([], s)
              else match split_line s with Some (l, r) => Some (c :: l, r) | None => None end
  end.

(** [std::getline] into a string that holds [line]; whether it succeeded. *)
Definition getline (line : bytes) (f : ifstream) : bool * bytes * ifstream :=
  if eof f then (false, line, f)
  else match split_line (rest f) with
       | Some (l, r) => (true, l, {| rest := r; eof := false |})
       | None => match rest f with
                 | [] => (false, [], {| rest := []; eof := true |})
                 | l => (true, l, {| rest := []; eof := true |})
                 end
       end.

(** ** Lemmas *)

Lemma length_digits n : forall v acc, (length (digits n v acc) <= n + length acc)%nat.
Proof.
  induction n as [|n IH]; intros v acc; cbn [digits]; [lia|].
  zcase; simpl; [lia|]. specialize (IH (v / 10) ((48 + v mod 10) :: acc)). simpl in IH. lia.
Qed.

Definition is_digit (c : Z) : Prop := 48 <= c <= 57.

Lemma digit_decimal c : is_digit c -> digit 10 c = Some (c - 48).
Proof. intros [? ?]. unfold digit. repeat (zcase; try lia). done. Qed.

Lemma mod10_digit v : is_digit (48 + v mod 10).
Proof. unfold is_digit. pose proof (Z.mod_pos_bound v 10). lia. Qed.

Lemma digits_are_digits n : forall v acc, Forall is_digit acc -> Forall is_digit (digits n v acc).
Proof.
  induction n as [|n IH]; intros v acc Ha; cbn [digits]; [done|].
  assert (Forall is_digit ((48 + v mod 10) :: acc)) by (constructor; [apply mod10_digit|done]).
  zcase; auto.
Qed.

Lemma digits_nonempty n v acc : digits (S n) v acc <> [].
Proof.
  revert v acc. induction n as [|n IH]; intros v acc; cbn [digits]; zcase; try done. apply IH.
Qed.

Lemma read_digits_app base acc s t :
  Forall (fun c => is_Some (digit base c)) s ->
  read_digits base acc (s ++ t) = read_digits base (read_digits base acc s) t.
Proof.
  intros F. revert acc. induction F as [|c s [d Hd] _ IH]; intros acc; [done|].
  cbn [read_digits app]. rewrite Hd. apply IH.
Qed.

(** The digits written in front of [acc] are read as the number. *)
Lemma read_digits_digits n : forall v acc a,
  0 <= v < 10 ^ Z.of_nat n ->
  exists k, digits n v acc = k ++ acc /\ Forall is_digit k /\
    read_digits 10 a k = a * 10 ^ zlen k + v.
Proof.
  induction n as [|n IH]; intros v acc a Hv.
  - exists []. simpl in *. split_and!; [done|constructor|unfold zlen; simpl; lia].
  - cbn [digits]. destruct (Z.ltb_spec v 10).
    + exists [48 + v mod 10]. split_and!; [done|repeat constructor; apply mod10_digit|].
      cbn [read_digits]. rewrite digit_decimal by apply mod10_digit.
      rewrite Z.mod_small by lia. unfold zlen; simpl length. lia.
    + destruct (IH (v / 10) ((48 + v mod 10) :: acc) a) as (k & E & F & R).
      { rewrite Nat2Z.inj_succ, Z.pow_succ_r in Hv by lia.
        split; [apply Z.div_pos; lia|]. apply Z.div_lt_upper_bound; lia. }
      exists (k ++ [48 + v mod 10]). split_and!.
      * by rewrite E, <- app_assoc.
      * apply Forall_app. split; [done|repeat constructor; apply mod10_digit].
      * rewrite read_digits_app by (eapply Forall_impl; [|exact F]; intros c Hc;
          simpl in Hc; rewrite digit_decimal by done; eauto).
        rewrite R. cbn [read_digits]. rewrite digit_decimal by apply mod10_digit.
        rewrite zlen_app, Z.pow_add_r by (pose proof (zlen_nonneg k); unfold zlen; simpl; lia).
        change (zlen [_]) with 1. rewrite (Z.div_mod v 10) at 3 by lia. ring.
Qed.

Definition small (v : Z) : Prop := 0 <= v < 2 ^ 32.

Lemma to_string_digits v : Forall is_digit (to_string v).
Proof. apply digits_are_digits. constructor. Qed.

Lemma to_string_nonempty v : to_string v <> [].
Proof. apply digits_nonempty. Qed.

Lemma read_to_string v : small v -> read_digits 10 0 (to_string v) = v.
Proof.
  intros [? ?]. destruct (read_digits_digits 10 v [] 0) as (k & E & _ & R).
  { split; [done|]. transitivity (2 ^ 32); [done|]. vm_compute. done. }
  unfold to_string. rewrite E, app_nil_r, R. lia.
Qed.

(** A text of digits only is read from its start. *)
Lemma stoul_digits s :
  Forall is_digit s -> s <> [] -> read_digits 10 0 s < 2 ^ 64 -> stoul 10 s = Defined (read_digits 10 0 s).
Proof.
  intros F N L. destruct s as [|c s]; [done|]. inversion F as [|? ? Hc Fs]; subst.
  assert (skip_spaces (c :: s) = c :: s) as Es.
  { cbn [skip_spaces]. unfold is_digit in Hc. repeat (zcase; try lia); done. }
  assert (read_sign (c :: s) = (false, c :: s)) as Er.
  { cbn [read_sign]. unfold is_digit in Hc. repeat (zcase; try lia). done. }
  assert (skip_prefix 10 (c :: s) = c :: s) as Ep by (cbn [skip_prefix]; by destruct s as [|? [|? ?]]).
  unfold stoul. rewrite Es, Er, Ep, digit_decimal by done.
  destruct (Z.ltb_spec (read_digits 10 0 (c :: s)) (2 ^ 64)); [done|lia].
Qed.

(** A number that is printed is read again. *)
Lemma stoul_to_string v : small v -> stoul 10 (to_string v) = Defined v.
Proof.
  intros Hv. pose proof (read_to_string v Hv) as R. unfold small in Hv.
  rewrite stoul_digits; rewrite ?R; auto using to_string_digits, to_string_nonempty. lia.
Qed.

Lemma to_string_inj v w : small v -> small w -> to_string v = to_string w -> v = w.
Proof. intros Hv Hw E. rewrite <- (read_to_string v Hv), <- (read_to_string w Hw). by rewrite E. Qed.

Lemma stoul_hex2_all :
  forallb (fun n => match stoul 16 (hex2 (Z.of_nat n)) with
                    | Defined v => v =? Z.of_nat n | Undefined => false end) (seq 0 256) = true.
Proof. vm_compute. reflexivity. Qed.

(** A byte that is printed in base sixteen is read again. *)
Lemma stoul_hex2 b : in_width 8 b -> stoul 16 (hex2 b) = Defined b.
Proof.
  intros [? Hb]. change (2 ^ 8) with 256 in Hb.
  pose proof (proj1 (forallb_forall _ _) stoul_hex2_all (Z.to_nat b)) as A.
  rewrite in_seq, Z2Nat.id in A by done. specialize (A ltac:(lia)).
  destruct (stoul 16 (hex2 b)); [|done]. by apply Z.eqb_eq in A as ->.
Qed.

(** *** Search *)

Lemma starts_app p s t : starts p s = true -> starts p (s ++ t) = true.
Proof.
  revert s. induction p as [|a p IH]; intros s; [done|]. destruct s as [|b s]; [done|]. simpl.
  intros [? ?]%andb_true_iff. apply andb_true_iff. auto.
Qed.

Lemma starts_iff p s : starts p s = true <-> exists t, s = p ++ t.
Proof.
  revert s. induction p as [|a p IH]; intros s; simpl; [split; eauto|].
  destruct s as [|b s]; [split; [done|by intros [? ?]]|].
  rewrite andb_true_iff, Z.eqb_eq, IH. split.
  - intros [-> [t ->]]. eauto.
  - intros [t Et]. simplify_eq. eauto.
Qed.

Lemma find_iff p s : is_Some (find p s) <-> exists a b, s = a ++ p ++ b.
Proof.
  induction s as [|c s IH]; cbn [find].
  - destruct (starts p []) eqn:E.
    + apply starts_iff in E as [t Et]. split; [|eauto]. intros _. by exists [], t.
    + split; [by intros [? ?]|]. intros (a & b & Hab). symmetry in Hab.
      apply app_nil in Hab as [-> Hp]. assert (starts p [] = true); [|congruence].
      apply starts_iff. by exists b.
  - destruct (starts p (c :: s)) eqn:E.
    + apply starts_iff in E as [t Et]. split; [|eauto]. intros _. by exists [], t.
    + rewrite fmap_is_Some, IH. split.
      * intros (a & b & ->). by exists (c :: a), b.
      * intros ([|x a] & b & Hab); simplify_eq/=; [|eauto].
        assert (starts p (p ++ b) = true) by (apply starts_iff; eauto). congruence.
Qed.

Lemma rfind_None c s : c ∉ s -> rfind c s = None.
Proof.
  induction s as [|x s IH]; [done|]. cbn [rfind]. intros [? ?]%not_elem_of_cons.
  rewrite IH by done. zcase; [congruence|done].
Qed.

Lemma rfind_last c a b : c ∉ b -> rfind c (a ++ c :: b) = Some (length a).
Proof.
  intros Hb. induction a as [|x a IH]; cbn [rfind app].
  - by rewrite rfind_None, Z.eqb_refl.
  - by rewrite IH.
Qed.

(** *** Lines *)

Lemma split_line_app l r : newline ∉ l -> split_line (l ++ newline :: r) = Some (l, r).
Proof.
  induction l as [|c l IH]; cbn [split_line app]; [done|].
  intros [? ?]%not_elem_of_cons. zcase; [congruence|]. by rewrite IH.
Qed.

Lemma no_newline l : forallb (fun c => negb (c =? newline)) l = true -> newline ∉ l.
Proof.
  intros F Hn. apply list_elem_of_In, (proj1 (forallb_forall _ l) F) in Hn. by rewrite Z.eqb_refl in Hn.
Qed.

Lemma getline_line line l r :
  newline ∉ l -> getline line {| rest := l ++ newline :: r; eof := false |}
                 = (true, l, {| rest := r; eof := false |}).
Proof. intros H. unfold getline. cbn [eof rest]. by rewrite split_line_app. Qed.

End Text.
