(* ===== verification/RingIndex.v ===== *)
(** * Ring indices ([aether/ring_buffer.h])

    [RingIndex<T, Max>] is the offset type of the safe stream.  An index is
    its [value_]; the section is parameterized by the width of the unsigned
    [T] and by the template argument [Max].  The code is instantiated only
    with unsigned types, so the [if constexpr (std::is_signed_v<T>)] branches
    are not taken. *)

From S2P Require Import Prelude.

Module Ring.
Section Ring.
Context (w Max : Z).

(** The explicit constructor. *)
Definition of_val (val : Z) : Z := val mod Max.

Definition Clockwise (value val : Z) : Z :=
  let val := val mod Max in
  if Max - val <? value
  then wrap w (val - (Max - value) - 1)
  else wrap w (value + val).

Definition CounterClockwise (value val : Z) : Z :=
  let val := val mod Max in
  if value <? val
  then wrap w (Max - (val - value))
  else wrap w (value - val).

Definition Distance (value other : Z) : Z :=
  let a := Max - value in
  let b := Max - other in
  if b <=? a then wrap w (a - b) else wrap w (a + other).

(** [operator+], [operator+=] and [operator++]. *)
Definition add (index val : Z) : Z :=
  if 0 <? val then Clockwise index val else index.

(** [operator-], [operator-=] and [operator--]. *)
Definition sub (index val : Z) : Z :=
  if 0 <? val then CounterClockwise index val else index.

Definition inc (index : Z) : Z := Clockwise index 1.
Definition dec (index : Z) : Z := CounterClockwise index 1.

(** [operator==]. *)
Definition eqb (value other : Z) : bool := value =? other.

(** The values an index takes. *)
Definition ring_ok (v : Z) : Prop := 0 <= v <= Max.

Hypothesis Max_range : 0 < Max < 2 ^ w.

Lemma mod_Max_range v : 0 <= v mod Max < Max.
Proof. apply Z.mod_pos_bound; lia. Qed.

Lemma of_val_ok v : ring_ok (of_val v).
Proof. unfold ring_ok, of_val; pose proof (mod_Max_range v); lia. Qed.

Lemma of_val_small v : 0 <= v < Max -> of_val v = v.
Proof. apply Z.mod_small. Qed.

Lemma Clockwise_spec v k :
  ring_ok v -> Clockwise v k = (v + k mod Max) mod (Max + 1).
Proof.
  unfold ring_ok, Clockwise, wrap; intros Hv.
  pose proof (mod_Max_range k) as Hk; zcase.
  - rewrite Z.mod_small by lia.
    apply Z.mod_unique with 1; lia.
  - by rewrite (Z.mod_small _ (2 ^ w)), (Z.mod_small _ (Max + 1)) by lia.
Qed.

Lemma Clockwise_ok v k : ring_ok v -> ring_ok (Clockwise v k).
Proof.
  intros Hv; rewrite Clockwise_spec by done. unfold ring_ok in *.
  pose proof (Z.mod_pos_bound (v + k mod Max) (Max + 1)); lia.
Qed.

Lemma CounterClockwise_spec v k :
  ring_ok v ->
  CounterClockwise v k = if v <? k mod Max then Max + v - k mod Max else v - k mod Max.
Proof.
  unfold ring_ok, CounterClockwise, wrap; intros Hv.
  pose proof (mod_Max_range k); zcase; rewrite Z.mod_small; lia.
Qed.

Lemma CounterClockwise_ok v k : ring_ok v -> ring_ok (CounterClockwise v k).
Proof.
  intros; rewrite CounterClockwise_spec by done; unfold ring_ok in *.
  pose proof (mod_Max_range k); zcase; lia.
Qed.

Lemma Distance_spec v o :
  ring_ok v -> ring_ok o -> Distance v o = if v <=? o then o - v else Max - v + o.
Proof.
  unfold ring_ok, Distance, wrap; intros; repeat zcase; try lia;
    rewrite Z.mod_small; lia.
Qed.

Lemma Distance_ok v o : ring_ok v -> ring_ok o -> 0 <= Distance v o <= Max.
Proof. intros; rewrite Distance_spec by done; unfold ring_ok in *; zcase; lia. Qed.

(** In the part of the ring before the wrap point the operations are those
    of the integers. *)
Lemma Clockwise_linear v k :
  0 <= v -> 0 <= k < Max -> v + k <= Max -> Clockwise v k = v + k.
Proof.
  intros; rewrite Clockwise_spec by (unfold ring_ok; lia).
  rewrite (Z.mod_small k) by lia. apply Z.mod_small; lia.
Qed.

Lemma add_linear v k :
  0 <= v -> 0 <= k < Max -> v + k <= Max -> add v k = v + k.
Proof. intros; unfold add; zcase; [apply Clockwise_linear|]; lia. Qed.

Lemma sub_linear v k : 0 <= v -> 0 <= k <= v -> k < Max -> v <= Max -> sub v k = v - k.
Proof.
  intros; unfold sub; zcase; [|lia].
  rewrite CounterClockwise_spec by (unfold ring_ok; lia).
  rewrite Z.mod_small by lia; zcase; lia.
Qed.

Lemma Distance_forward v o : 0 <= v -> v <= o -> o <= Max -> Distance v o = o - v.
Proof. intros; rewrite Distance_spec by (unfold ring_ok; lia); zcase; lia. Qed.

Lemma Distance_backward v o :
  0 <= o -> o < v -> v <= Max -> Distance v o = Max - (v - o).
Proof. intros; rewrite Distance_spec by (unfold ring_ok; lia); zcase; lia. Qed.

Lemma Distance_self v : ring_ok v -> Distance v v = 0.
Proof. unfold ring_ok; intros; rewrite Distance_forward; lia. Qed.

(** Stepping forward is addition modulo [Max + 1]. *)
Lemma ring_clockwise v k :
  ring_ok v -> 0 <= k < Max ->
  ring_ok (Clockwise v k) /\ Clockwise v k = (v + k) mod (Max + 1).
Proof.
  intros; split; [by apply Clockwise_ok|].
  rewrite Clockwise_spec by done. by rewrite (Z.mod_small k) by lia.
Qed.

(** The distance to an index reached by a step of [k] is [k] before the wrap
    point and [k - 1] after it. *)
Lemma ring_distance v k :
  ring_ok v -> 0 <= k < Max ->
  Distance v (Clockwise v k) = if v + k <=? Max then k else k - 1.
Proof.
  unfold ring_ok; intros; rewrite Clockwise_spec by done.
  rewrite (Z.mod_small k) by lia. destruct (v + k <=? Max) eqn:?; zbool.
  - rewrite Z.mod_small by lia. rewrite Distance_forward; lia.
  - replace ((v + k) mod (Max + 1)) with (v + k - (Max + 1))
      by (apply Z.mod_unique with 1; lia).
    rewrite Distance_backward; lia.
Qed.

(** Stepping back and forward by the same amount. *)
Lemma ring_back_forth v k :
  ring_ok v -> 0 < k < Max ->
  Clockwise (CounterClockwise v k) k =
    if v <? k then (if v =? 0 then Max else v - 1) else v.
Proof.
  unfold ring_ok; intros Hv Hk.
  assert (ring_ok (CounterClockwise v k)) by (by apply CounterClockwise_ok).
  rewrite Clockwise_spec, CounterClockwise_spec by done.
  rewrite (Z.mod_small k) by lia. repeat zcase; try lia.
  - replace v with 0 by lia. rewrite Z.mod_small; lia.
  - symmetry; apply Z.mod_unique with 1; lia.
  - rewrite Z.mod_small; lia.
Qed.

End Ring.

Lemma ring16 : 0 < 65535 < 2 ^ 16.
Proof. lia. Qed.

End Ring.

#[export] Hint Resolve Ring.ring16 Ring.of_val_ok Ring.Clockwise_ok
  Ring.CounterClockwise_ok : aether.

(** [SafeStreamRingIndex = RingIndex<std::uint16_t>], with the default
    [Max = std::numeric_limits<std::uint16_t>::max()]. *)
Module SafeStreamRingIndex.

Definition max : Z := 65535.
Definition of_val : Z -> Z := Ring.of_val max.
Definition Clockwise : Z -> Z -> Z := Ring.Clockwise 16 max.
Definition Distance : Z -> Z -> Z := Ring.Distance 16 max.
Definition add : Z -> Z -> Z := Ring.add 16 max.
Definition sub : Z -> Z -> Z := Ring.sub 16 max.
Definition ok : Z -> Prop := Ring.ring_ok max.

End SafeStreamRingIndex.

Module RingProperties.
Import SafeStreamRingIndex.

(** Going forward is addition modulo the period, as a count of steps. *)
Theorem ring_forward_shift v k :
  ok v -> 0 <= k < max ->
  ok (Clockwise v k) /\ Clockwise v k = (v + k) mod 2 ^ 16.
Proof. intros; apply (Ring.ring_clockwise 16 max); auto with aether. Qed.

Lemma ring_forward_shift_witness :
  ok 65530 /\ Clockwise 65530 10 = 4.
Proof.
  split; [unfold ok, Ring.ring_ok, max; lia|].
  refine (eq_trans (proj2 (ring_forward_shift 65530 10 _ _)) _);
    [unfold ok, Ring.ring_ok, max; lia | unfold max; lia | reflexivity].
Defined.

End RingProperties.
