(* ===== verification/MStream.v ===== *)
(** * Binary streams ([aether/mstream.h], [aether/mstream_buffers.h])

    [omstream<VectorWriter>] appends bytes to a vector; the bytes an
    [operator<<] appends are [save v].  [imstream<VectorReader>] reads from a
    vector at an offset and keeps the result of the last read; an
    [operator>>(s, T& v)] is [load old r], which gets the old value of its
    reference argument and returns the new one with the reader.

    The overloads are instances of the class [Serial], one per overload group
    of the header, and the law the rest of the library relies on (what was
    written is read back, and nothing more is consumed) is the class
    [SerialOk], proved for every instance. *)

From S2P Require Import Prelude.

(** ** Readers *)

Inductive ReadResult := kNo | kYes.

#[export] Instance ReadResult_eq_dec : EqDecision ReadResult.
Proof. solve_decision. Defined.

Record VectorReader := Reader {
  data_ : bytes;
  offset_ : nat;
  result_ : ReadResult;
}.

(** [VectorReader::read]: the bytes copied to the destination, if any. *)
Definition read (r : VectorReader) (size : nat) : option bytes * VectorReader :=
  if (length (data_ r) <? offset_ r + size)%nat
  then (None, Reader (data_ r) (offset_ r) kNo)
  else (Some (sub (offset_ r) size (data_ r)),
        Reader (data_ r) (offset_ r + size) kYes).

Definition data_was_read (r : VectorReader) : bool :=
  match result_ r with kYes => true | kNo => false end.

Definition new_reader (d : bytes) : VectorReader := Reader d 0 kNo.

(** [VectorWriter::write]. *)
Definition vector_write (data : bytes) (bs : bytes) : bytes := data ++ bs.

(** ** The serialization interface *)

Class Serial (T : Type) := {
  dflt : T;                                     (* T{} *)
  save : T -> bytes;                            (* operator<< *)
  load : T -> VectorReader -> T * VectorReader; (* operator>> *)
}.

(** The reader in front of [bs], and the reader behind it. *)
Definition at_pos (pre bs post : bytes) (r : ReadResult) : VectorReader :=
  Reader (pre ++ bs ++ post) (length pre) r.

Definition yes_if (bs : bytes) (r : ReadResult) : ReadResult :=
  match bs with [] => r | _ => kYes end.

Definition past (pre bs post : bytes) (r : ReadResult) : VectorReader :=
  Reader (pre ++ bs ++ post) (length pre + length bs) (yes_if bs r).

Class SerialOk (T : Type) `{Serial T} := {
  valid : T -> Prop;
  load_save : forall v pre post r,
    valid v -> load dflt (at_pos pre (save v) post r) = (v, past pre (save v) post r);
}.

(** The size type of a stream ([Ob::size_type]); a size is cast to it before
    it is written and back to [std::size_t] after it is read. *)
Class SizeType := {
  size_save : Z -> bytes;
  size_load : VectorReader -> Z * VectorReader;
}.

Class SizeTypeOk `{SizeType} := {
  size_bound : Z;
  size_save_nonempty : forall n, size_save n <> [];
  size_load_save : forall n pre post r,
    0 <= n < size_bound ->
    size_load (at_pos pre (size_save n) post r) = (n, past pre (size_save n) post r);
}.

(** ** Positions *)

Lemma at_pos_app pre a b post r :
  at_pos pre (a ++ b) post r = at_pos pre a (b ++ post) r.
Proof. unfold at_pos; by rewrite <- app_assoc. Qed.

Lemma past_at_pos pre a b post r :
  past pre a (b ++ post) r = at_pos (pre ++ a) b post (yes_if a r).
Proof. unfold past, at_pos; by rewrite length_app, <- app_assoc. Qed.

Lemma past_app pre a b post r :
  past (pre ++ a) b post (yes_if a r) = past pre (a ++ b) post r.
Proof.
  unfold past. rewrite !length_app, <- !app_assoc. f_equal; [lia|].
  by destruct a, b.
Qed.

Lemma yes_if_nonempty bs r : bs <> [] -> yes_if bs r = kYes.
Proof. by destruct bs. Qed.

Lemma yes_if_yes bs : yes_if bs kYes = kYes.
Proof. by destruct bs. Qed.

Lemma past_app_yes pre a b post :
  past (pre ++ a) b post kYes = past pre (a ++ b) post kYes.
Proof. by rewrite <- past_app, yes_if_yes. Qed.

Lemma data_was_read_at_yes pre bs post : data_was_read (at_pos pre bs post kYes) = true.
Proof. done. Qed.

(** A read of exactly [bs] succeeds. *)
Lemma read_at_pos_yes pre bs post r :
  read (at_pos pre bs post r) (length bs)
  = (Some bs, Reader (pre ++ bs ++ post) (length pre + length bs) kYes).
Proof.
  unfold read, at_pos; simpl.
  destruct (Nat.ltb_spec (length (pre ++ bs ++ post)) (length pre + length bs)) as [Hlt|_].
  - rewrite !length_app in Hlt; lia.
  - by rewrite sub_at_length.
Qed.

Lemma read_at_pos pre bs post r :
  bs <> [] \/ r = kYes ->
  read (at_pos pre bs post r) (length bs) = (Some bs, past pre bs post r).
Proof. rewrite read_at_pos_yes; unfold past; by destruct bs; intros [?| ->]. Qed.

Lemma read_byte pre b post r :
  read (at_pos pre [b] post r) 1 = (Some [b], past pre [b] post r).
Proof. exact (read_at_pos_yes pre [b] post r). Qed.

(** A read beyond the end changes nothing but the result. *)
Lemma read_short r size :
  (length (data_ r) < offset_ r + size)%nat ->
  read r size = (None, Reader (data_ r) (offset_ r) kNo).
Proof. intros; unfold read; by rewrite (proj2 (Nat.ltb_lt _ _)). Qed.

#[export] Hint Rewrite at_pos_app past_at_pos yes_if_yes : aether.

(** ** Arithmetic types, enumerations and bool *)

(** An unsigned integer type of [n] bytes. *)
Definition uint (n : nat) : Type := Z.

Definition load_uint (n : nat) (old : uint n) (r : VectorReader) : uint n * VectorReader :=
  match read r n with
  | (Some bs, r') => (le_val bs, r')
  | (None, r') => (old, r')
  end.

#[export] Instance serial_uint n : Serial (uint n) := {
  dflt := (0 : Z);
  save v := le_bytes n v;
  load := load_uint n;
}.

Lemma le_bytes_nonempty n v : n <> O -> le_bytes n v <> [].
Proof. by destruct n. Qed.

Lemma load_uint_at n old v pre post r :
  n <> O -> in_width (8 * Z.of_nat n) v ->
  load_uint n old (at_pos pre (le_bytes n v) post r) = (v, past pre (le_bytes n v) post r).
Proof.
  intros Hn Hv; unfold load_uint.
  pose proof (read_at_pos pre (le_bytes n v) post r
    (or_introl (le_bytes_nonempty n v Hn))) as E.
  rewrite length_le_bytes in E. rewrite E. by rewrite le_val_bytes, wrap_small.
Qed.

#[export] Program Instance serial_uint_ok n : SerialOk (uint (S n)) := {
  valid v := in_width (8 * Z.of_nat (S n)) v;
}.
Next Obligation. intros; by apply load_uint_at. Qed.

(** [bool] is stored as one byte. *)
Definition load_bool (old : bool) (r : VectorReader) : bool * VectorReader :=
  match read r 1 with
  | (Some bs, r') => (negb (le_val bs =? 0), r')
  | (None, r') => (old, r')
  end.

#[export] Instance serial_bool : Serial bool := {
  dflt := false;
  save b := [if b then 1 else 0];
  load := load_bool;
}.

Lemma load_bool_at old b pre post r :
  load_bool old (at_pos pre (save b) post r) = (b, past pre (save b) post r).
Proof.
  unfold load_bool; simpl save. rewrite read_byte. by destruct b.
Qed.

#[export] Program Instance serial_bool_ok : SerialOk bool := { valid _ := True }.
Next Obligation. intros; apply load_bool_at. Qed.

(** An enumeration is stored as its underlying type; a value is assigned only
    when the read succeeded. *)
Section Enum.
Context {E : Type} (n : nat) (to_underlying : E -> Z) (of_underlying : Z -> E) (e0 : E).

Definition load_enum (old : E) (r : VectorReader) : E * VectorReader :=
  let '(t, r') := load_uint n 0 r in
  match result_ r' with
  | kYes => (of_underlying t, r')
  | kNo => (old, r')
  end.

Definition serial_enum : Serial E := {|
  dflt := e0;
  save e := save (to_underlying e : uint n);
  load := load_enum;
|}.

Lemma load_enum_at old e pre post r :
  n <> O -> in_width (8 * Z.of_nat n) (to_underlying e) ->
  of_underlying (to_underlying e) = e ->
  load_enum old (at_pos pre (le_bytes n (to_underlying e)) post r)
  = (e, past pre (le_bytes n (to_underlying e)) post r).
Proof.
  intros Hn Hw He; unfold load_enum. rewrite load_uint_at by done. simpl.
  by rewrite yes_if_nonempty, He by (by apply le_bytes_nonempty).
Qed.
End Enum.

(** ** Pairs and structures

    [operator>>] of a pair reads both components without a test in between;
    [Serializator] bodies ([s & a & b]) have the same shape. *)
Section Pair.
Context {A B : Type} `{Serial A} `{Serial B}.

Definition load_pair (old : A * B) (r : VectorReader) : (A * B) * VectorReader :=
  let '(a, r1) := load old.1 r in
  let '(b, r2) := load old.2 r1 in
  ((a, b), r2).

#[export] Instance serial_pair : Serial (A * B) := {
  dflt := (dflt, dflt);
  save v := save v.1 ++ save v.2;
  load := load_pair;
}.

#[export] Program Instance serial_pair_ok `{!SerialOk A} `{!SerialOk B} :
  SerialOk (A * B) := { valid v := valid v.1 /\ valid v.2 }.
Next Obligation.
  intros ?? [a b] pre post r [Ha Hb]; simpl in *. unfold load_pair; simpl.
  rewrite at_pos_app, (load_save a pre (save b ++ post) r Ha).
  rewrite past_at_pos, (load_save b _ post _ Hb). by rewrite past_app.
Qed.
End Pair.

(** A structure whose fields, in the order of its operators, are the tuple
    [to]. *)
Section Structure.
Context {A B : Type} `{Serial B} (to : A -> B) (make : B -> A) (make_to : forall a, make (to a) = a).

Definition serial_via : Serial A := {|
  dflt := make dflt;
  save a := save (to a);
  load old r := let '(b, r) := load (to old) r in (make b, r);
|}.

Context `{!SerialOk B} (to_dflt : to (make dflt) = dflt).

Program Definition serial_via_ok : @SerialOk A serial_via := {| valid a := valid (to a) |}.
Next Obligation. intros a pre post r Ha. cbn. by rewrite to_dflt, load_save, make_to. Qed.
End Structure.

(** A structure without fields writes and reads nothing. *)
#[export] Instance serial_unit : Serial unit := {
  dflt := tt; save _ := []; load old r := (old, r);
}.

#[export] Program Instance serial_unit_ok : SerialOk unit := { valid _ := True }.
Next Obligation.
  intros [] ? ? ? _; simpl. unfold at_pos, past; simpl. by rewrite Nat.add_0_r.
Qed.

(** ** Fixed-size arrays

    [T[N]] and [std::array<T, N>] have no size prefix; a scalar array is read
    in one piece, any other array element by element up to the first failure. *)

(** The [k] little-endian integers of [n] bytes in a buffer. *)
Fixpoint le_vals (k n : nat) (bs : bytes) : list Z :=
  match k with
  | O => []
  | S k' => le_val (take n bs) :: le_vals k' n (drop n bs)
  end.

Definition scalar_image (n : nat) (vs : list Z) : bytes := vs ≫= le_bytes n.

Definition load_scalar_array (n : nat) (old : list Z) (r : VectorReader)
  : list Z * VectorReader :=
  match read r (length old * n) with
  | (Some bs, r') => (le_vals (length old) n bs, r')
  | (None, r') => (old, r')
  end.

(** The element loop of vectors, deques and arrays of non-scalar type. *)
Fixpoint load_each {T} `{Serial T} (ts : list T) (r : VectorReader)
  : list T * VectorReader :=
  match ts with
  | [] => ([], r)
  | t :: ts' =>
      let '(t1, r1) := load t r in
      if data_was_read r1
      then let '(ts1, r2) := load_each ts' r1 in (t1 :: ts1, r2)
      else (t1 :: ts', r1)
  end.

Definition save_each {T} `{Serial T} (ts : list T) : bytes := ts ≫= save.

Lemma length_scalar_image n vs : length (scalar_image n vs) = (length vs * n)%nat.
Proof.
  unfold scalar_image; induction vs as [|v vs IH]; [done|].
  rewrite bind_cons, length_app, IH, length_le_bytes. done.
Qed.

Lemma scalar_image_bytes n vs : byte_list (scalar_image n vs).
Proof.
  unfold scalar_image. induction vs as [|v vs IH]; [apply Forall_nil_2|]. rewrite bind_cons.
  apply Forall_app_2; [apply le_bytes_range|done].
Qed.

Lemma le_vals_image n vs :
  Forall (in_width (8 * Z.of_nat n)) vs -> le_vals (length vs) n (scalar_image n vs) = vs.
Proof.
  unfold scalar_image; induction 1 as [|v vs Hv _ IH]; [done|].
  cbn [length le_vals]. rewrite bind_cons.
  rewrite take_app_length', drop_app_length' by (by rewrite length_le_bytes).
  by rewrite le_val_bytes, wrap_small, IH.
Qed.

Lemma load_scalar_array_at n old vs pre post r :
  length old = length vs -> scalar_image n vs <> [] \/ r = kYes ->
  Forall (in_width (8 * Z.of_nat n)) vs ->
  load_scalar_array n old (at_pos pre (scalar_image n vs) post r)
  = (vs, past pre (scalar_image n vs) post r).
Proof.
  intros Hl Hr Hv; unfold load_scalar_array.
  rewrite Hl, <- length_scalar_image, read_at_pos by done.
  by rewrite le_vals_image.
Qed.

Lemma load_each_at {T} `{SerialOk T} (vs : list T) pre post :
  Forall valid vs ->
  load_each (replicate (length vs) dflt) (at_pos pre (save_each vs) post kYes)
  = (vs, past pre (save_each vs) post kYes).
Proof.
  intros Hv; revert pre; unfold save_each; induction Hv as [|v vs Hv _ IH]; intros pre.
  - simpl. unfold at_pos, past; simpl. by rewrite Nat.add_0_r.
  - cbn [length replicate load_each]. rewrite bind_cons, at_pos_app.
    rewrite (load_save v pre _ kYes Hv), past_at_pos, yes_if_yes.
    rewrite data_was_read_at_yes, IH.
    by rewrite past_app_yes.
Qed.

(** ** Containers with a size prefix *)
Section Containers.
Context `{SizeType}.

Definition resize {T} (d : T) (n : nat) (l : list T) : list T :=
  take n l ++ replicate (n - length l) d.

(** [std::vector] of a scalar type, [std::string] and C strings: the size,
    then the elements in one piece.  The vector is resized to the announced
    size before the elements are read. *)
Definition save_scalars (n : nat) (t : list Z) : bytes :=
  size_save (zlen t) ++ scalar_image n t.

Definition load_scalars (n : nat) (old : list Z) (r : VectorReader)
  : list Z * VectorReader :=
  let '(size, r1) := size_load r in
  if data_was_read r1
  then load_scalar_array n (resize 0 (Z.to_nat size) old) r1
  else (old, r1).

#[export] Instance serial_scalars n : Serial (list (uint n)) := {
  dflt := ([] : list Z); save := save_scalars n; load := load_scalars n;
}.

(** [std::vector] and [std::deque] of a non-scalar type. *)
Definition save_vector {T} `{Serial T} (t : list T) : bytes :=
  size_save (zlen t) ++ save_each t.

Definition load_vector {T} `{Serial T} (old : list T) (r : VectorReader)
  : list T * VectorReader :=
  let '(size, r1) := size_load r in
  if data_was_read r1
  then load_each (resize dflt (Z.to_nat size) old) r1
  else (old, r1).

(** [std::list]: cleared, then filled; an element whose read failed is not
    added. *)
Fixpoint load_push {T} `{Serial T} (k : nat) (acc : list T) (r : VectorReader)
  : list T * VectorReader :=
  match k with
  | O => (acc, r)
  | S k' =>
      let '(v, r1) := load dflt r in
      if data_was_read r1 then load_push k' (acc ++ [v]) r1 else (acc, r1)
  end.

Definition load_list {T} `{Serial T} (old : list T) (r : VectorReader)
  : list T * VectorReader :=
  let '(size, r1) := size_load r in
  if data_was_read r1 then load_push (Z.to_nat size) [] r1 else (old, r1).

(** [std::map] in key order; [emplace] keeps the entry already present. *)
Fixpoint emplace {K V} (ltb : K -> K -> bool) (kv : K * V) (m : list (K * V))
  : list (K * V) :=
  match m with
  | [] => [kv]
  | e :: m' =>
      if ltb kv.1 e.1 then kv :: m
      else if ltb e.1 kv.1 then e :: emplace ltb kv m' else m
  end.

Fixpoint load_entries {K V} `{Serial K} `{Serial V} (ltb : K -> K -> bool) (k : nat)
  (m : list (K * V)) (r : VectorReader) : list (K * V) * VectorReader :=
  match k with
  | O => (m, r)
  | S k' =>
      let '(kv, r1) := load dflt r in
      if data_was_read r1 then load_entries ltb k' (emplace ltb kv m) r1 else (m, r1)
  end.

Definition load_map {K V} `{Serial K} `{Serial V} (ltb : K -> K -> bool)
  (old : list (K * V)) (r : VectorReader) : list (K * V) * VectorReader :=
  let '(size, r1) := size_load r in
  if data_was_read r1 then load_entries ltb (Z.to_nat size) [] r1 else (old, r1).

Context `{!SizeTypeOk}.

(** The prefix is read back and leaves a reader in front of the elements. *)
Lemma size_prefix n body pre post r :
  0 <= n < size_bound ->
  size_load (at_pos pre (size_save n ++ body) post r)
  = (n, at_pos (pre ++ size_save n) body post kYes).
Proof.
  intros; rewrite at_pos_app, size_load_save, past_at_pos by done.
  by rewrite yes_if_nonempty by apply size_save_nonempty.
Qed.

Lemma past_prefix n body pre post r :
  past (pre ++ size_save n) body post kYes = past pre (size_save n ++ body) post r.
Proof.
  rewrite <- (yes_if_nonempty (size_save n) r) by apply size_save_nonempty.
  apply past_app.
Qed.

Lemma resize_nil {T} (d : T) n : resize d n [] = replicate n d.
Proof. unfold resize; by rewrite take_nil, Nat.sub_0_r. Qed.

Lemma load_scalars_at n vs pre post r :
  zlen vs < size_bound -> Forall (in_width (8 * Z.of_nat n)) vs ->
  load_scalars n [] (at_pos pre (save_scalars n vs) post r)
  = (vs, past pre (save_scalars n vs) post r).
Proof.
  intros Hs Hv; unfold load_scalars, save_scalars.
  rewrite size_prefix by (pose proof (zlen_nonneg vs); lia).
  rewrite data_was_read_at_yes, resize_nil. unfold zlen at 1; rewrite Nat2Z.id.
  rewrite load_scalar_array_at by (rewrite ?length_replicate; auto).
  f_equal; apply past_prefix.
Qed.

#[export] Program Instance serial_scalars_ok n : SerialOk (list (uint n)) := {
  valid v := zlen v < size_bound /\ Forall (in_width (8 * Z.of_nat n)) v;
}.
Next Obligation. intros n v ? ? ? [? ?]; by apply load_scalars_at. Qed.

Section Elements.
Context {T : Type} `{SerialOk T}.

Lemma load_vector_at (vs : list T) pre post r :
  zlen vs < size_bound -> Forall valid vs ->
  load_vector [] (at_pos pre (save_vector vs) post r)
  = (vs, past pre (save_vector vs) post r).
Proof.
  intros Hs Hv; unfold load_vector, save_vector.
  rewrite size_prefix by (pose proof (zlen_nonneg vs); lia).
  rewrite data_was_read_at_yes, resize_nil. unfold zlen at 1; rewrite Nat2Z.id.
  rewrite load_each_at by done. f_equal; apply past_prefix.
Qed.

Lemma load_push_at (vs acc : list T) pre post :
  Forall valid vs ->
  load_push (length vs) acc (at_pos pre (save_each vs) post kYes)
  = (acc ++ vs, past pre (save_each vs) post kYes).
Proof.
  intros Hv; revert pre acc; unfold save_each.
  induction Hv as [|v vs Hv _ IH]; intros pre acc.
  - simpl. unfold at_pos, past; simpl. by rewrite Nat.add_0_r, app_nil_r.
  - cbn [length load_push]. rewrite bind_cons, at_pos_app.
    rewrite (load_save v pre _ kYes Hv), past_at_pos, yes_if_yes.
    rewrite data_was_read_at_yes, IH, <- app_assoc.
    by rewrite past_app_yes.
Qed.

Lemma load_list_at (vs old : list T) pre post r :
  zlen vs < size_bound -> Forall valid vs ->
  load_list old (at_pos pre (save_vector vs) post r)
  = (vs, past pre (save_vector vs) post r).
Proof.
  intros Hs Hv; unfold load_list, save_vector.
  rewrite size_prefix by (pose proof (zlen_nonneg vs); lia).
  rewrite data_was_read_at_yes. unfold zlen at 1; rewrite Nat2Z.id.
  rewrite load_push_at by done. f_equal; apply past_prefix.
Qed.
End Elements.

Section Maps.
Context {K V : Type} `{SerialOk K} `{SerialOk V}.
Context (ltb : K -> K -> bool).

Fixpoint map_sorted (m : list (K * V)) : Prop :=
  match m with
  | [] => True
  | e :: m' => Forall (fun e' => ltb e.1 e'.1 = true) m' /\ map_sorted m'
  end.

Hypothesis ltb_asym : forall a b, ltb a b = true -> ltb b a = false.

(** Entries that arrive in key order are appended. *)
Lemma emplace_greatest (kv : K * V) m :
  Forall (fun e => ltb e.1 kv.1 = true) m -> emplace ltb kv m = m ++ [kv].
Proof.
  induction 1 as [|e m He _ IH]; [done|]. cbn [emplace app].
  by rewrite (ltb_asym _ _ He), He, IH.
Qed.

Lemma load_entries_at (vs m : list (K * V)) pre post :
  Forall valid vs -> map_sorted (m ++ vs) ->
  load_entries ltb (length vs) m (at_pos pre (save_each vs) post kYes)
  = (m ++ vs, past pre (save_each vs) post kYes).
Proof.
  intros Hv; revert pre m; unfold save_each.
  induction Hv as [|v vs Hv _ IH]; intros pre m Hm.
  - simpl. unfold at_pos, past; simpl. by rewrite Nat.add_0_r, app_nil_r.
  - cbn [length load_entries]. rewrite bind_cons, at_pos_app.
    rewrite (load_save v pre _ kYes Hv), past_at_pos, yes_if_yes, data_was_read_at_yes.
    assert (emplace ltb v m = m ++ [v]) as ->.
    { apply emplace_greatest. clear -Hm. induction m as [|e m IHm]; [constructor|].
      simpl in Hm; destruct Hm as [Hf Hm]. constructor; [|auto].
      apply Forall_app in Hf as [_ Hf]. by inversion Hf. }
    rewrite IH by (by rewrite <- app_assoc). rewrite <- app_assoc.
    by rewrite past_app_yes.
Qed.

Lemma load_map_at (vs old : list (K * V)) pre post r :
  zlen vs < size_bound -> Forall valid vs -> map_sorted vs ->
  load_map ltb old (at_pos pre (save_vector vs) post r)
  = (vs, past pre (save_vector vs) post r).
Proof.
  intros Hs Hv Hm; unfold load_map, save_vector.
  rewrite size_prefix by (pose proof (zlen_nonneg vs); lia).
  rewrite data_was_read_at_yes. unfold zlen at 1; rewrite Nat2Z.id.
  rewrite load_entries_at by done. f_equal; apply past_prefix.
Qed.
End Maps.
End Containers.

(** ** Owning pointers and time points *)

(** [std::unique_ptr] and [std::shared_ptr]: a flag, then the value.  A null
    pointer on the wire leaves the destination as it was. *)
Section Pointer.
Context {T : Type} `{Serial T}.

Definition save_ptr (v : option T) : bytes :=
  match v with
  | Some x => save true ++ save x
  | None => save false
  end.

Definition load_ptr (old : option T) (r : VectorReader) : option T * VectorReader :=
  let '(has_value, r1) := load_bool false r in
  if data_was_read r1
  then if has_value
       then let '(temp, r2) := load dflt r1 in
            if data_was_read r2 then (Some temp, r2) else (old, r2)
       else (old, r1)
  else (old, r1).

Lemma load_ptr_at `{!SerialOk T} (v : option T) pre post r :
  (forall x, v = Some x -> valid x) ->
  load_ptr None (at_pos pre (save_ptr v) post r) = (v, past pre (save_ptr v) post r).
Proof.
  intros Hv; unfold load_ptr, save_ptr; destruct v as [x|].
  - rewrite at_pos_app, load_bool_at, past_at_pos. simpl yes_if.
    rewrite data_was_read_at_yes, (load_save x _ _ kYes (Hv x eq_refl)).
    unfold past at 1; simpl data_was_read. rewrite yes_if_yes.
    by rewrite <- (past_app pre (save true) (save x) post r).
  - by rewrite load_bool_at.
Qed.
End Pointer.

(** [std::chrono::time_point]: microseconds as a 64-bit integer. *)
Definition save_time (us : Z) : bytes := save (wrap 64 us : uint 8).

Definition load_time (old : Z) (r : VectorReader) : Z * VectorReader :=
  let '(tp, r1) := load_uint 8 0 r in
  if data_was_read r1 then (tp, r1) else (old, r1).

(** ** [std::uint32_t] as size type (the default of the buffers) *)
Definition size_u32 : SizeType := {|
  size_save n := le_bytes 4 (wrap 32 n);
  size_load r := load_uint 4 0 r;
|}.

Program Definition size_u32_ok : @SizeTypeOk size_u32 := {| size_bound := 2 ^ 32 |}.
Next Obligation. intros; by apply le_bytes_nonempty. Qed.
Next Obligation.
  intros n pre post r Hn; cbn [size_load size_save size_u32].
  rewrite wrap_small by done. by apply load_uint_at.
Qed.
