(* ===== verification/PackedInt.v ===== *)
(** * Variable length integers ([aether/packed_int.h])

    [Packed<MaxStored, MinStored, MinMaxStoredValue>] stores an unsigned
    integer in one, two, four or eight bytes without continuation bits.  The
    types of [RangeTypeList] are numbered [0..3]; a configuration is the
    number [b] of [MinStored], the number [n] of ranges above it and
    [MinMaxStoredValue].  [limit] computes the constants of [Limit] in the
    arithmetic of the C++ types, and [Serialize] and [Deserialize] recurse on
    the range as the templates do. *)

From S2P Require Import Prelude MStream.

Module Packed.

(** Width and size of the [i]-th type of [RangeTypeList]. *)
Definition range_width (i : nat) : Z := 8 * 2 ^ Z.of_nat i.
Definition range_bytes (i : nat) : nat := 2 ^ i.

(** Arithmetic on a [w]-bit type is done at its width, or at that of [int]
    when it is narrower. *)
Definition arith (w x : Z) : Z := wrap (Z.max w 32) x.

Record Limit := {
  kAbsoluteMaxValue : Z;
  kBorrowCount : Z;
  kMaxStored : Z;
  kUpper : Z;
  kP : Z;
}.

Inductive PackedDeserializeRes := kNotRead | kFinished | kNext.

Section Packed.
Context (b : nat) (MinMaxStoredValue : Z).

(** The specialization for the first range. *)
Definition limit_first : Limit :=
  let w := range_width b in
  let mx := 2 ^ w - 1 in
  let borrow := arith w (mx - MinMaxStoredValue) in
  {| kAbsoluteMaxValue := mx;
     kBorrowCount := borrow;
     kMaxStored := arith w (mx + 1);
     kUpper := wrap w (arith w (mx - borrow + 1));
     kP := arith w (2 ^ (w / 2)) |}.

(** The general case, from the limit of the previous range. *)
Definition limit_next (i : nat) (prev : Limit) : Limit :=
  let w := range_width i in
  let stored :=
    arith w (wrap w (kMaxStored prev) - kBorrowCount prev
             + kBorrowCount prev * (wrap w (kAbsoluteMaxValue prev) + 1)) in
  {| kAbsoluteMaxValue := 2 ^ w - 1;
     kBorrowCount := kP prev;
     kMaxStored := stored;
     kUpper := wrap w (arith w (stored - wrap w (kP prev)));
     kP := arith w (2 ^ (w / 2)) |}.

Fixpoint limit (n : nat) : Limit :=
  match n with
  | O => limit_first
  | S m => limit_next (b + n) (limit m)
  end.

(** [Packed::Serialize]: the bytes written for the stored value. *)
Fixpoint Serialize (n : nat) (value : Z) : bytes :=
  match n with
  | O => le_bytes (range_bytes b) value
  | S m =>
      let w := range_width (b + m) in
      let prev_upper := kUpper (limit m) in
      if prev_upper <=? value
      then
        let modified := wrap (range_width (b + n)) (value - prev_upper) in
        let low := modified mod 2 ^ w in
        let high := modified / 2 ^ w in
        Serialize m (wrap w (high + prev_upper)) ++ le_bytes (range_bytes (b + m)) low
      else Serialize m (value mod 2 ^ w)
  end.

(** [Packed::Deserialize]: result, stored value and reader. *)
Fixpoint Deserialize (n : nat) (value : Z) (s : VectorReader)
  : PackedDeserializeRes * Z * VectorReader :=
  match n with
  | O =>
      let '(v, s) := load_uint (range_bytes b) value s in
      if data_was_read s
      then if kUpper (limit 0) <=? v
           then (kNext, wrap (range_width b) (v - kUpper (limit 0)), s)
           else (kFinished, v, s)
      else (kNotRead, v, s)
  | S m =>
      let w := range_width (b + m) in
      let prev_upper := kUpper (limit m) in
      let '(res, high, s) := Deserialize m 0 s in
      match res with
      | kNotRead => (kNotRead, value, s)
      | kFinished => (kFinished, high, s)
      | kNext =>
          let '(low, s) := load_uint (range_bytes (b + m)) (value mod 2 ^ w) s in
          let v := low + 2 ^ w * high in
          if data_was_read s
          then
            let v := wrap (range_width (b + n)) (v + prev_upper) in
            if kUpper (limit n) <=? v
            then (kNext, wrap (range_width (b + n)) (v - kUpper (limit n)), s)
            else (kFinished, v, s)
          else (kNotRead, v, s)
      end
  end.

(** Number of values a range can tell apart. *)
Definition capacity (n : nat) : Z :=
  match n with
  | O => 2 ^ range_width b
  | S _ => kMaxStored (limit n)
  end.

(** The configurations whose constants are computed without wrap-around. *)
Definition config_ok (n : nat) : Prop :=
  (b + n <= 3)%nat /\ 0 <= MinMaxStoredValue /\
  MinMaxStoredValue + (if Nat.eqb b 2 then 2 else 1) < 2 ^ range_width b.

(** What the codec needs to know of two neighbouring ranges. *)
Record limit_ok (m : nat) : Prop := {
  lo_upper : 0 < kUpper (limit m) <= kUpper (limit (S m));
  lo_borrow : 0 < kBorrowCount (limit m);
  lo_capacity : capacity m = kUpper (limit m) + kBorrowCount (limit m);
  lo_next : capacity (S m) <= kUpper (limit m)
              + kBorrowCount (limit m) * 2 ^ range_width (b + m);
  lo_prev_fits : capacity m <= 2 ^ range_width (b + m);
  lo_fits : capacity (S m) + kUpper (limit m) < 2 ^ range_width (b + S m);
  lo_upper_cap : kUpper (limit (S m)) <= capacity (S m);
}.
End Packed.

Arguments limit_ok : clear implicits.

Ltac wsmall :=
  repeat match goal with
  | |- context [?x mod ?y] => rewrite (Z.mod_small x y) by lia
  end.

Ltac limit_step :=
  unfold arith, wrap, range_width;
  repeat match goal with
  | |- context [8 * 2 ^ Z.of_nat ?i] =>
      let c := eval vm_compute in (8 * 2 ^ Z.of_nat i) in
      change (8 * 2 ^ Z.of_nat i) with c
  | |- context [2 ^ ?k] => let c := eval vm_compute in (2 ^ k) in change (2 ^ k) with c
  | |- context [2 ^ (?a / 2)] =>
      let c := eval vm_compute in (2 ^ (a / 2)) in change (2 ^ (a / 2)) with c
  end;
  repeat match goal with
  | |- context [Z.max ?a 32] => let c := eval vm_compute in (Z.max a 32) in change (Z.max a 32) with c
  end.

Ltac limit_calc :=
  unfold limit_first, limit_next; cbn [kAbsoluteMaxValue kBorrowCount kMaxStored kUpper kP];
  limit_step; wsmall; f_equal; lia.

Lemma limit_S b M m : limit b M (S m) = limit_next (b + S m) (limit b M m).
Proof. done. Qed.

(** The constants of the ranges over [std::uint8_t]. *)
Lemma limit8_0 M : 0 <= M < 255 -> limit 0 M 0 = Build_Limit 255 (255 - M) 256 (M + 1) 16.
Proof. intros; cbn [limit]; limit_calc. Qed.

Lemma limit8_1 M : 0 <= M < 255 ->
  limit 0 M 1 = Build_Limit 65535 16 (65281 - 255 * M) (65265 - 255 * M) 256.
Proof. intros; rewrite limit_S, limit8_0 by done; limit_calc. Qed.

Lemma limit8_2 M : 0 <= M < 255 ->
  limit 0 M 2 = Build_Limit 4294967295 256 (1113841 - 255 * M) (1113585 - 255 * M) 65536.
Proof. intros; rewrite limit_S, limit8_1 by done; limit_calc. Qed.

Lemma limit8_3 M : 0 <= M < 255 ->
  limit 0 M 3 = Build_Limit 18446744073709551615 65536
    (1099512741361 - 255 * M) (1099512675825 - 255 * M) 4294967296.
Proof. intros; rewrite limit_S, limit8_2 by done; limit_calc. Qed.

(** Over [std::uint16_t] and [std::uint32_t]. *)
Lemma limit16_0 M : 0 <= M < 65535 ->
  limit 1 M 0 = Build_Limit 65535 (65535 - M) 65536 (M + 1) 256.
Proof. intros; cbn [limit]; limit_calc. Qed.

Lemma limit16_1 M : 0 <= M < 65535 ->
  limit 1 M 1 = Build_Limit 4294967295 256
    (4294901761 - 65535 * M) (4294901505 - 65535 * M) 65536.
Proof. intros; rewrite limit_S, limit16_0 by done; limit_calc. Qed.

Lemma limit16_2 M : 0 <= M < 65535 ->
  limit 1 M 2 = Build_Limit 18446744073709551615 65536
    (1103806529281 - 65535 * M) (1103806463745 - 65535 * M) 4294967296.
Proof. intros; rewrite limit_S, limit16_1 by done; limit_calc. Qed.

Lemma limit32_0 M : 0 <= M < 4294967294 ->
  limit 2 M 0 = Build_Limit 4294967295 (4294967295 - M) 0 (M + 1) 65536.
Proof. intros; cbn [limit]. limit_calc. Qed.

Lemma limit32_1 M : 0 <= M < 4294967294 ->
  limit 2 M 1 = Build_Limit 18446744073709551615 65536
    (4294967295 * (4294967295 - M)) (4294967295 * (4294967295 - M) - 65536) 4294967296.
Proof. intros; rewrite limit_S, limit32_0 by done; limit_calc. Qed.

(** Every configuration of the repository satisfies what the codec needs. *)
Lemma limit_ok_all b M m : config_ok b M (S m) -> limit_ok b M m.
Proof.
  intros (Hb & H0 & HM).
  assert (Hcases : (b = 0 /\ m = 0 \/ b = 0 /\ m = 1 \/ b = 0 /\ m = 2 \/
           b = 1 /\ m = 0 \/ b = 1 /\ m = 1 \/ b = 2 /\ m = 0)%nat) by lia.
  destruct Hcases as [[-> ->]|[[-> ->]|[[-> ->]|[[-> ->]|[[-> ->]|[-> ->]]]]]];
    cbn [Nat.eqb] in HM; unfold range_width in HM; cbn in HM;
    constructor; unfold capacity;
    rewrite ?limit8_0, ?limit8_1, ?limit8_2, ?limit8_3, ?limit16_0, ?limit16_1,
      ?limit16_2, ?limit32_0, ?limit32_1 by lia;
    cbn [kAbsoluteMaxValue kBorrowCount kMaxStored kUpper kP]; limit_step; lia.
Qed.

(** ** The codec *)

Lemma range_bytes_width i : 8 * Z.of_nat (range_bytes i) = range_width i.
Proof. unfold range_bytes, range_width. rewrite Nat2Z.inj_pow. done. Qed.

Lemma range_bytes_pos i : range_bytes i <> O.
Proof. unfold range_bytes. apply Nat.pow_nonzero. lia. Qed.

Lemma range_width_S i : 2 ^ range_width (S i) = 2 ^ range_width i * 2 ^ range_width i.
Proof.
  unfold range_width. rewrite <- Z.pow_add_r by lia. f_equal.
  rewrite Nat2Z.inj_succ, Z.pow_succ_r; lia.
Qed.

Lemma range_pow_pos i : 0 < 2 ^ range_width i.
Proof. unfold range_width. apply Z.pow_pos_nonneg; lia. Qed.

Lemma config_ok_pred b M n : config_ok b M (S n) -> config_ok b M n.
Proof. unfold config_ok; intuition lia. Qed.

(** What a range returns for a value below its capacity. *)
Definition decoded (b : nat) (M : Z) (n : nat) (x : Z) : PackedDeserializeRes * Z :=
  if x <? kUpper (limit b M n) then (kFinished, x)
  else (kNext, x - kUpper (limit b M n)).

Lemma first_upper b M : config_ok b M 0 -> 0 < kUpper (limit b M 0) < 2 ^ range_width b.
Proof.
  intros (Hb & H0 & HM).
  assert (Hc : (b = 0 \/ b = 1 \/ b = 2 \/ b = 3)%nat) by lia.
  destruct Hc as [ -> |[ -> |[ -> | -> ]]]; cbn [Nat.eqb] in HM; unfold range_width in *;
    cbn in HM; cbn [limit]; unfold limit_first; cbn [kUpper]; limit_step; wsmall; lia.
Qed.

(** Decoding what was encoded, on every range of a configuration. *)
Lemma Deserialize_Serialize b M n : config_ok b M n ->
  forall x old pre post r, 0 <= x < capacity b M n ->
  Deserialize b M n old (at_pos pre (Serialize b M n x) post r)
  = (decoded b M n x, past pre (Serialize b M n x) post r).
Proof.
  induction n as [|m IH]; intros Hc x old pre post r Hx.
  - cbn [Deserialize Serialize]. simpl capacity in Hx.
    rewrite load_uint_at
      by (try apply range_bytes_pos; rewrite range_bytes_width; done).
    unfold data_was_read; simpl result_.
    rewrite yes_if_nonempty by apply le_bytes_nonempty, range_bytes_pos.
    pose proof (first_upper b M Hc). unfold decoded, wrap.
    repeat zcase; try lia; [|done]. by rewrite Z.mod_small by lia.
  - pose proof (limit_ok_all b M m Hc) as [Hu Hb Hcap Hnext Hpf Hf Huc].
    pose proof (config_ok_pred _ _ _ Hc) as Hc'. specialize (IH Hc').
    cbn [Deserialize Serialize]. unfold decoded.
    set (U := kUpper (limit b M m)) in *. set (U' := kUpper (limit b M (S m))) in *.
    set (P := 2 ^ range_width (b + m)) in *.
    assert (0 < P) by apply range_pow_pos.
    destruct (U <=? x) eqn:HU; zbool.
    + rewrite (wrap_small _ (x - U)) by (unfold in_width; lia).
      pose proof (Z.div_mod (x - U) P ltac:(lia)) as Hdm.
      pose proof (Z.mod_pos_bound (x - U) P ltac:(lia)) as Hlow.
      assert (Hhigh : 0 <= (x - U) / P < kBorrowCount (limit b M m)).
      { split; [apply Z.div_pos; lia|]. apply Z.div_lt_upper_bound; lia. }
      rewrite (wrap_small _ ((x - U) / P + U)) by (unfold in_width; fold P; lia).
      rewrite at_pos_app, IH by lia. unfold decoded; fold U.
      rewrite (proj2 (Z.ltb_ge _ _)) by lia.
      rewrite past_at_pos, load_uint_at
        by (try apply range_bytes_pos; rewrite range_bytes_width; unfold in_width; fold P; lia).
      rewrite past_app. unfold data_was_read; simpl result_.
      replace ((x - U) mod P + P * ((x - U) / P + U - U)) with (x - U) by lia.
      replace (x - U + U) with x by lia.
      rewrite (wrap_small _ x) by (unfold in_width; lia).
      rewrite yes_if_nonempty
        by (intros [_ E]%app_nil; by apply (le_bytes_nonempty _ _ (range_bytes_pos _)) in E).
      repeat zcase; try lia; [|done].
      by rewrite wrap_small by (unfold in_width; lia).
    + rewrite (Z.mod_small x P) by lia. rewrite IH by lia.
      unfold decoded; fold U. rewrite (proj2 (Z.ltb_lt _ _)) by lia.
      rewrite (proj2 (Z.ltb_lt _ _)) by lia. done.
Qed.

Lemma Serialize_nonempty b M n x : Serialize b M n x <> [].
Proof.
  revert x; induction n as [|m IH]; intros x; cbn [Serialize].
  - apply le_bytes_nonempty, range_bytes_pos.
  - zcase; [|done]. intros [E _]%app_nil. by apply IH in E.
Qed.

(** A truncated encoding is not read. *)
Lemma Serialize_bytes b M n x : byte_list (Serialize b M n x).
Proof.
  revert x. induction n as [|m IH]; intros x; cbn [Serialize]; [apply le_bytes_range|].
  cbv zeta. destruct (_ <=? x); [|apply IH]. apply Forall_app_2; [apply IH|apply le_bytes_range].
Qed.

Lemma load_uint_short n old pre bs r :
  (length bs < n)%nat ->
  load_uint n old (at_pos pre bs [] r) = (old, Reader (pre ++ bs) (length pre) kNo).
Proof.
  intros; unfold load_uint, at_pos. rewrite app_nil_r.
  rewrite read_short; [done|]. simpl. rewrite length_app. lia.
Qed.

Lemma Deserialize_truncated b M n : config_ok b M n ->
  forall x old pre j r, 0 <= x < capacity b M n ->
  (j < length (Serialize b M n x))%nat ->
  exists v s, Deserialize b M n old (at_pos pre (take j (Serialize b M n x)) [] r)
              = (kNotRead, v, s) /\ data_was_read s = false.
Proof.
  induction n as [|m IH]; intros Hc x old pre j r Hx Hj.
  - cbn [Deserialize Serialize] in *. rewrite length_le_bytes in Hj.
    rewrite load_uint_short by (rewrite length_take, length_le_bytes; lia).
    simpl. eauto.
  - pose proof (limit_ok_all b M m Hc) as [Hu Hb Hcap Hnext Hpf Hf Huc].
    pose proof (config_ok_pred _ _ _ Hc) as Hc'.
    cbn [Deserialize Serialize] in *.
    set (U := kUpper (limit b M m)) in *.
    set (P := 2 ^ range_width (b + m)) in *. assert (0 < P) by apply range_pow_pos.
    destruct (U <=? x) eqn:HU; zbool.
    + rewrite (wrap_small _ (x - U)) in * by (unfold in_width; lia).
      assert (Hhigh : 0 <= (x - U) / P < kBorrowCount (limit b M m)).
      { split; [apply Z.div_pos; lia|]. apply Z.div_lt_upper_bound; lia. }
      rewrite (wrap_small _ ((x - U) / P + U)) in * by (unfold in_width; fold P; lia).
      set (hi := Serialize b M m ((x - U) / P + U)) in *.
      set (lo := le_bytes (range_bytes (b + m)) ((x - U) mod P)) in *.
      rewrite length_app in Hj.
      assert (Hlo : length lo = range_bytes (b + m)) by apply length_le_bytes.
      rewrite take_app. destruct (decide (length hi <= j)%nat) as [Hge|Hlt].
      * rewrite (take_ge hi) by lia.
        rewrite at_pos_app. subst hi. rewrite Deserialize_Serialize by (done || lia).
        unfold decoded; fold U. rewrite (proj2 (Z.ltb_ge _ _)) by lia.
        rewrite app_nil_r.
        rewrite <- (app_nil_r (take _ lo)), past_at_pos, load_uint_short
          by (rewrite length_take; lia).
        simpl. eauto.
      * replace (j - length hi)%nat with O by lia. rewrite take_0, app_nil_r.
        subst hi. destruct (IH Hc' ((x - U) / P + U) 0 pre j r ltac:(lia) ltac:(lia))
          as (v & s & -> & Hs). eauto.
    + rewrite (Z.mod_small x P) in * by lia.
      destruct (IH Hc' x 0 pre j r ltac:(lia) Hj) as (v & s & -> & Hs). eauto.
Qed.

(** ** Length of an encoding *)

Lemma Serialize_below b M m x :
  config_ok b M (S m) -> 0 <= x < kUpper (limit b M m) ->
  Serialize b M (S m) x = Serialize b M m x.
Proof.
  intros Hc Hx; cbn [Serialize]. rewrite (proj2 (Z.leb_gt _ _)) by lia.
  pose proof (limit_ok_all b M m Hc) as [_ Hb Hcap _ Hpf _ _].
  by rewrite Z.mod_small by lia.
Qed.

Lemma length_Serialize_first b M x : length (Serialize b M 0 x) = range_bytes b.
Proof. apply length_le_bytes. Qed.

(** A value that does not fit the previous range takes the whole type. *)
Lemma length_Serialize_full b M m x :
  config_ok b M (S m) -> kUpper (limit b M m) <= x < capacity b M (S m) ->
  length (Serialize b M (S m) x) = range_bytes (b + S m).
Proof.
  revert x; induction m as [|m IH]; intros x Hc Hx;
    pose proof (limit_ok_all b M _ Hc) as [Hu Hb Hcap Hnext Hpf Hf Huc];
    cbn [Serialize]; rewrite (proj2 (Z.leb_le _ _)) by lia;
    rewrite length_app, length_le_bytes.
  - change (length (Serialize b M 0 ?y)) with (length (le_bytes (range_bytes b) y)).
    rewrite length_le_bytes. unfold range_bytes.
    rewrite Nat.add_0_r, Nat.add_1_r, Nat.pow_succ_r'. lia.
  - pose proof (limit_ok_all b M _ (config_ok_pred _ _ _ Hc)) as [Hu0 _ _ _ _ _ _].
    set (P := 2 ^ range_width (b + S m)) in *.
    assert (0 < P) by apply range_pow_pos.
    rewrite (wrap_small _ (x - _)) by (unfold in_width; lia).
    assert (Hh : 0 <= (x - kUpper (limit b M (S m))) / P < kBorrowCount (limit b M (S m))).
    { split; [apply Z.div_pos; lia|]. apply Z.div_lt_upper_bound; lia. }
    rewrite (wrap_small _ (_ + _)) by (unfold in_width; fold P; lia).
    change (if kUpper (limit b M m) <=? ?y then ?t else ?e)
      with (Serialize b M (S m) y).
    rewrite IH by (try lia; by apply config_ok_pred).
    unfold range_bytes. rewrite (Nat.add_succ_r b (S m)), Nat.pow_succ_r'. lia.
Qed.

(** ** Canonicity *)

Lemma lo_next_eq b M m : (b <= 1)%nat -> config_ok b M (S m) ->
  capacity b M (S m)
  = kUpper (limit b M m) + kBorrowCount (limit b M m) * 2 ^ range_width (b + m).
Proof.
  intros Hb1 (Hb & H0 & HM).
  assert (Hcases : (b = 0 /\ m = 0 \/ b = 0 /\ m = 1 \/ b = 0 /\ m = 2 \/
           b = 1 /\ m = 0 \/ b = 1 /\ m = 1)%nat) by lia.
  destruct Hcases as [[-> ->]|[[-> ->]|[[-> ->]|[[-> ->]|[-> ->]]]]];
    cbn [Nat.eqb] in HM; unfold range_width in HM; cbn in HM; unfold capacity;
    rewrite ?limit8_0, ?limit8_1, ?limit8_2, ?limit8_3, ?limit16_0, ?limit16_1,
      ?limit16_2 by lia;
    cbn [kAbsoluteMaxValue kBorrowCount kMaxStored kUpper kP]; limit_step; lia.
Qed.

(** The value an answer of a range stands for. *)
Definition encoded (b : nat) (M : Z) (n : nat) (res : PackedDeserializeRes) (v : Z) : Z :=
  match res with
  | kNext => v + kUpper (limit b M n)
  | _ => v
  end.

Definition answer_ok (b : nat) (M : Z) (n : nat) (res : PackedDeserializeRes) (v : Z) : Prop :=
  match res with
  | kNotRead => True
  | kFinished => 0 <= v < kUpper (limit b M n)
  | kNext => 0 <= v < capacity b M n - kUpper (limit b M n)
  end.

Lemma load_uint_Some n old d o r v s :
  load_uint n old (Reader d o r) = (v, s) -> data_was_read s = true ->
  (o + n <= length d)%nat /\ v = le_val (sub o n d) /\ s = Reader d (o + n) kYes.
Proof.
  unfold load_uint, read; simpl.
  destruct (Nat.ltb_spec (length d) (o + n)); intros [= <- <-]; [done|]. auto.
Qed.

Lemma byte_list_sub o n d : byte_list d -> byte_list (sub o n d).
Proof. intros; unfold sub, byte_list. by apply Forall_take, Forall_drop. Qed.

(** An integer read from [d] is in its range, and its image is what was
    read. *)
Lemma le_val_sub i o d :
  byte_list d -> (o + range_bytes i <= length d)%nat ->
  in_width (range_width i) (le_val (sub o (range_bytes i) d)) /\
  le_bytes (range_bytes i) (le_val (sub o (range_bytes i) d)) = sub o (range_bytes i) d.
Proof.
  intros Hd Hlen. pose proof (byte_list_sub o (range_bytes i) d Hd) as B.
  assert (L : length (sub o (range_bytes i) d) = range_bytes i) by (by apply length_sub).
  split.
  - pose proof (le_val_range _ B) as R. unfold zlen in R. by rewrite L, range_bytes_width in R.
  - rewrite <- L at 1. by apply le_bytes_val.
Qed.

Lemma Serialize_Deserialize_first b M old d o r res v s :
  config_ok b M 0 -> byte_list d ->
  Deserialize b M 0 old (Reader d o r) = (res, v, s) -> res <> kNotRead ->
  exists k, (o + k <= length d)%nat /\ s = Reader d (o + k) kYes /\
    answer_ok b M 0 res v /\ sub o k d = Serialize b M 0 (encoded b M 0 res v).
Proof.
  intros Hc Hd Hdes Hres. cbn [Deserialize] in Hdes.
  destruct (load_uint _ old (Reader d o r)) as [v0 s0] eqn:Hl.
  destruct (data_was_read s0) eqn:Hw; [|by injection Hdes as <- _ _].
  apply load_uint_Some in Hl as (Hlen & Hv & ->); [|done].
  pose proof (first_upper b M Hc). destruct (le_val_sub b o d Hd Hlen) as [Hr Hse].
  rewrite <- Hv in Hr, Hse. exists (range_bytes b). unfold in_width in Hr.
  cbn [answer_ok encoded capacity]. set (U := kUpper (limit b M 0)) in *.
  zcase; injection Hdes as <- <- <-; cbn [answer_ok encoded capacity Serialize]; fold U;
    (split; [done|split; [done|split]]); rewrite ?wrap_small by (unfold in_width; lia);
    rewrite ?Z.sub_add, ?Hse; solve [lia | done].
Qed.

(** Every successful answer of the decoder re-encodes to the bytes it
    consumed. *)
Lemma Serialize_Deserialize b M n : (b <= 1)%nat -> config_ok b M n ->
  forall old d o r res v s, byte_list d ->
  Deserialize b M n old (Reader d o r) = (res, v, s) -> res <> kNotRead ->
  exists k, (o + k <= length d)%nat /\ s = Reader d (o + k) kYes /\
    answer_ok b M n res v /\ sub o k d = Serialize b M n (encoded b M n res v).
Proof.
  intros Hb1; induction n as [|m IH]; intros Hc old d o r res v s Hd Hdes Hres.
  - by apply (Serialize_Deserialize_first b M old d o r).
  - pose proof (limit_ok_all b M m Hc) as [Hu Hb Hcap Hnext Hpf Hf Huc].
    pose proof (lo_next_eq b M m Hb1 Hc) as Heq.
    pose proof (config_ok_pred _ _ _ Hc) as Hc'.
    cbn [Deserialize] in Hdes.
    destruct (Deserialize b M m 0 (Reader d o r)) as [[res0 high] s0] eqn:H0.
    assert (res0 <> kNotRead) as Hres0 by (intros ->; by injection Hdes as <- _ _).
    destruct (IH Hc' _ _ _ _ _ _ _ Hd H0 Hres0) as (k & Hk & -> & Ha & Hs).
    destruct res0; [done| |].
    + injection Hdes as <- <- <-. exists k. simpl in *.
      rewrite Hs. split_and!; try done; [lia| |].
      all: try lia. symmetry; by apply Serialize_below.
    + set (w := range_bytes (b + m)) in *.
      destruct (load_uint w _ _) as [low s1] eqn:Hl.
      destruct (data_was_read s1) eqn:Hw; [|by injection Hdes as <- _ _].
      apply load_uint_Some in Hl as (Hlen & Hlow & ->); [|done].
      destruct (le_val_sub (b + m) (o + k) d Hd Hlen) as [HP Him].
      fold w in HP, Him. rewrite <- Hlow in HP, Him.
      set (P := 2 ^ range_width (b + m)) in *. assert (0 < P) by apply range_pow_pos.
      unfold in_width in HP. fold P in HP.
      simpl in Ha. set (U := kUpper (limit b M m)) in *.
      set (x := low + P * high + U).
      assert (Hx : U <= x < capacity b M (S m)) by nia.
      rewrite (wrap_small _ (low + P * high + U)) in Hdes by (unfold in_width; lia).
      fold x in Hdes.
      assert (Hse : Serialize b M (S m) x = sub o (k + w) d).
      { rewrite <- sub_app_split, Hs. cbn [Serialize encoded]. fold U P.
        rewrite (proj2 (Z.leb_le U x)) by lia.
        rewrite (wrap_small _ (x - U)) by (unfold in_width; lia).
        replace (x - U) with (low + high * P) by lia.
        rewrite Z.mod_add, Z.mod_small, Z.div_add, Z.div_small, Z.add_0_l by lia.
        rewrite (wrap_small _ (high + U)) by (unfold in_width; fold P; lia).
        f_equal. exact Him. }
      exists (k + w)%nat. clearbody x. set (U' := kUpper (limit b M (S m))) in *.
      zcase; injection Hdes as <- <- <-; cbn [answer_ok encoded]; fold U';
        rewrite ?Nat.add_assoc; (split; [lia|split; [done|split]]);
        rewrite ?wrap_small by (unfold in_width; lia); rewrite ?Z.sub_add, ?Hse;
        solve [lia | done].
Qed.

End Packed.

(** ** [PackedSize] and [PacketSize]: [Packed<std::uint64_t, std::uint8_t, 250>] *)
Module PackedSize.
Import Packed.

Definition kUpper : Z := kUpper (limit 0 250 3).

(** [operator<<] and [operator>>] of [Packed]; the latter drops the answer. *)
Definition packed_save (v : Z) : bytes := Serialize 0 250 3 (wrap 64 v).

Definition packed_load (v : Z) (r : VectorReader) : Z * VectorReader :=
  let '(_, v', r') := Deserialize 0 250 3 v r in (v', r').

(** [PackedCompare]. *)
Definition PackedCompare (left right : Z) : Z :=
  if left <? right then -1 else if right <? left then 1 else 0.

(** [std::numeric_limits<Packed>::max()]. *)
Definition numeric_limits_max : Z := kUpper.

Lemma config_packed_size n : (n <= 3)%nat -> config_ok 0 250 n.
Proof.
  intros; split; [lia|]. split; [lia|].
  cbn [Nat.eqb]; unfold range_width; cbn; lia.
Qed.

Lemma kUpper_value : kUpper = 1099512612075.
Proof. reflexivity. Qed.

Lemma packed_save_nonempty v : packed_save v <> [].
Proof. apply Serialize_nonempty. Qed.

Lemma packed_load_save v old pre post r :
  0 <= v < kUpper ->
  packed_load old (at_pos pre (packed_save v) post r) = (v, past pre (packed_save v) post r).
Proof.
  intros Hv; unfold packed_load, packed_save.
  rewrite kUpper_value in Hv. rewrite wrap_small by (unfold in_width; lia).
  rewrite Deserialize_Serialize.
  - unfold decoded. fold kUpper. rewrite kUpper_value.
    by rewrite (proj2 (Z.ltb_lt _ _)) by lia.
  - by apply config_packed_size.
  - change (capacity 0 250 3) with 1099512677611. lia.
Qed.

Lemma packed_load_truncated v old pre j r :
  0 <= v < kUpper -> (j < length (packed_save v))%nat ->
  data_was_read (packed_load old (at_pos pre (take j (packed_save v)) [] r)).2 = false.
Proof.
  intros Hv Hj; unfold packed_load, packed_save in *. rewrite kUpper_value in Hv.
  rewrite wrap_small in * by (unfold in_width; lia).
  destruct (Deserialize_truncated 0 250 3 (config_packed_size 3 ltac:(lia))
              v old pre j r) as (v' & s & -> & Hs); [|done..].
  change (capacity 0 250 3) with 1099512677611. lia.
Qed.

#[export] Instance size_packed : SizeType := {
  size_save := packed_save;
  size_load r := packed_load 0 r;
}.

#[export] Program Instance size_packed_ok : @SizeTypeOk size_packed := {
  size_bound := kUpper;
}.
Next Obligation. intros; apply packed_save_nonempty. Qed.
Next Obligation. intros; by apply packed_load_save. Qed.

(** The ranges of the documentation. *)
Lemma length_packed_save v :
  0 <= v < kUpper ->
  length (packed_save v) =
    if v <=? 250 then 1%nat else if v <=? 1514 then 2%nat
    else if v <=? 1049834 then 4%nat else 8%nat.
Proof.
  intros Hv; unfold packed_save. rewrite kUpper_value in Hv.
  rewrite wrap_small by (unfold in_width; lia).
  assert (U0 : Packed.kUpper (limit 0 250 0) = 251) by reflexivity.
  assert (U1 : Packed.kUpper (limit 0 250 1) = 1515) by reflexivity.
  assert (U2 : Packed.kUpper (limit 0 250 2) = 1049835) by reflexivity.
  assert (C1 : capacity 0 250 1 = 1531) by reflexivity.
  assert (C2 : capacity 0 250 2 = 1050091) by reflexivity.
  assert (C3 : capacity 0 250 3 = 1099512677611) by reflexivity.
  repeat zcase;
    repeat (rewrite Serialize_below by (try (apply config_packed_size; lia); lia));
    rewrite ?length_Serialize_first, ?length_Serialize_full
      by (try (apply config_packed_size; lia); lia); reflexivity.
Qed.
End PackedSize.

(** ** Properties *)
Module PackedProperties.
Import Packed PackedSize.

(** C32: in every configuration of the template whose constants are computed
    without wrap-around, decoding the encoding of a value below [kUpper]
    finishes with that value and consumes exactly its bytes, whatever
    surrounds them. *)
Theorem packed_roundtrip b M n x old pre post r :
  config_ok b M n -> 0 <= x < Packed.kUpper (limit b M n) ->
  Deserialize b M n old (at_pos pre (Serialize b M n x) post r)
  = (kFinished, x, past pre (Serialize b M n x) post r).
Proof.
  intros Hc Hx. rewrite Deserialize_Serialize; [|done|].
  - unfold decoded. by rewrite (proj2 (Z.ltb_lt _ _)) by lia.
  - destruct n as [|m].
    + pose proof (first_upper b M Hc). simpl; lia.
    + destruct (limit_ok_all b M m Hc); lia.
Qed.

Lemma packed_roundtrip_witness :
  Deserialize 0 250 3 7 (at_pos [9] (Serialize 0 250 3 1000000) [1; 2] kNo)
  = (kFinished, 1000000, past [9] (Serialize 0 250 3 1000000) [1; 2] kNo).
Proof.
  apply packed_roundtrip.
  - repeat split; vm_compute; try discriminate; lia.
  - vm_compute; split; [discriminate | reflexivity].
Defined.

(** A size takes one byte up to 250, two up to 1514, four up to 1049834
    and eight above, the ranges the documentation of [Packed] states. *)
Theorem packed_size_ranges v :
  0 <= v < PackedSize.kUpper ->
  length (packed_save v) =
    if v <=? 250 then 1%nat else if v <=? 1514 then 2%nat
    else if v <=? 1049834 then 4%nat else 8%nat.
Proof. apply length_packed_save. Qed.

Lemma packed_size_ranges_witness : length (packed_save 1515) = 4%nat.
Proof. rewrite packed_size_ranges; vm_compute; [reflexivity | split; [discriminate|reflexivity]]. Defined.

(** The encoding is canonical: two inputs that decode to the same value
    consumed the same bytes, namely the encoding of that value. *)
Theorem packed_canonical b M n old d o r v s :
  (b <= 1)%nat -> config_ok b M n -> byte_list d ->
  Deserialize b M n old (Reader d o r) = (kFinished, v, s) ->
  exists k, s = Reader d (o + k) kYes /\ sub o k d = Serialize b M n v.
Proof.
  intros Hb Hc Hd H.
  destruct (Serialize_Deserialize b M n Hb Hc _ _ _ _ _ _ _ Hd H ltac:(done))
    as (k & _ & -> & _ & Hk). by exists k.
Qed.

Lemma packed_canonical_witness :
  exists k, Reader [251; 7] 2 kYes = Reader [251; 7] (0 + k) kYes
            /\ sub 0 k [251; 7] = Serialize 0 250 3 258.
Proof.
  apply (packed_canonical 0 250 3 0 [251; 7] 0 kNo 258 (Reader [251; 7] 2 kYes)).
  - lia.
  - repeat split; vm_compute; try discriminate; lia.
  - repeat constructor; vm_compute; try discriminate; reflexivity.
  - vm_compute; reflexivity.
Defined.

(** [std::numeric_limits<Packed>::max()] is the first value that does not
    survive a round trip: it is read back as zero. *)
Theorem packed_max_reads_zero old pre post r :
  packed_load old (at_pos pre (packed_save numeric_limits_max) post r)
  = (0, past pre (packed_save numeric_limits_max) post r).
Proof.
  unfold packed_load, packed_save.
  rewrite (wrap_small 64) by (vm_compute; split; [discriminate | reflexivity]).
  rewrite Deserialize_Serialize.
  - unfold decoded. by change (numeric_limits_max <? _) with false.
  - by apply config_packed_size.
  - vm_compute; split; [discriminate | reflexivity].
Qed.
End PackedProperties.
