(* ===== verification/OrderedMap.v ===== *)
(** * [std::map] with integer keys

    A map is a [gmap]; what the code sees of its order are the keys and entries
    from the smallest key on.  The stream operators of [mstream.h] for such maps
    are an instance of [Serial], with their round trip. *)

From stdpp Require Import gmap sorting.
From S2P Require Import Prelude MStream.

#[local] Set Warnings "-notation-overridden".

Module OrderedMap.

(** The keys and the entries of a map in their order. *)
Definition keys {A} (m : gmap Z A) : list Z := merge_sort Z.le (map_to_list m).*1.

Definition entries {A} (m : gmap Z A) : list (Z * A) := omap (fun k => pair k <$> m !! k) (keys m).

Section Lemmas.
Context {A : Type}.
Implicit Types m : gmap Z A.

Lemma elem_of_keys m k : k ∈ keys m <-> k ∈ dom m.
Proof.
  unfold keys. rewrite merge_sort_Permutation, elem_of_dom, list_elem_of_fmap. split.
  - intros ([? a] & -> & H%elem_of_map_to_list). eauto.
  - intros [a Ha]. exists (k, a). by rewrite elem_of_map_to_list.
Qed.

Lemma NoDup_keys m : NoDup (keys m).
Proof. unfold keys. rewrite merge_sort_Permutation. apply NoDup_fst_map_to_list. Qed.

Lemma keys_sorted m : StronglySorted Z.lt (keys m).
Proof.
  assert (StronglySorted Z.le (keys m)) as S
    by (apply StronglySorted_merge_sort; [intros ???; lia|intros ??; lia]).
  pose proof (NoDup_keys m) as N. revert S N. generalize (keys m).
  induction l as [|k l IH]; intros S N; constructor.
  - inversion S; inversion N; subst. auto.
  - inversion S as [|? ? _ F]; inversion N as [|? ? Hk _]; subst.
    apply Forall_forall. intros x Hx. rewrite Forall_forall in F. specialize (F x Hx).
    assert (k <> x) by (intros ->; by apply Hk, list_elem_of_In). lia.
Qed.

Lemma entries_keys m : (entries m).*1 = keys m.
Proof.
  unfold entries. assert (forall k, k ∈ keys m -> is_Some (m !! k)) as H
    by (intros k; by rewrite elem_of_keys, elem_of_dom).
  revert H. generalize (keys m). induction l as [|k l IH]; intros H; [done|].
  destruct (H k) as [a E]; [left|]. cbn [omap list_omap]. rewrite E. simpl.
  f_equal. apply IH. intros x Hx. apply H. by right.
Qed.

Lemma elem_of_entries m k a : (k, a) ∈ entries m <-> m !! k = Some a.
Proof.
  unfold entries. rewrite list_elem_of_omap. split.
  - intros (k' & _ & E). destruct (m !! k') eqn:E'; by simplify_eq/=.
  - intros E. exists k. rewrite elem_of_keys, elem_of_dom, E. eauto.
Qed.

Lemma list_to_map_entries m : list_to_map (entries m) = m.
Proof.
  apply map_eq. intros k. destruct (m !! k) as [a|] eqn:E.
  - apply elem_of_list_to_map; [rewrite entries_keys; apply NoDup_keys|by apply elem_of_entries].
  - apply not_elem_of_list_to_map. rewrite entries_keys, elem_of_keys, not_elem_of_dom. done.
Qed.

Lemma map_sorted_entries m : map_sorted Z.ltb (entries m).
Proof.
  pose proof (keys_sorted m) as S. rewrite <- entries_keys in S. revert S. generalize (entries m).
  induction l as [|e l IH]; intros S; [done|]. inversion S as [|? ? S' F]; subst. split; [|auto].
  clear -F. induction l as [|x l IH]; [constructor|]. inversion F; subst.
  constructor; [by apply Z.ltb_lt|auto].
Qed.

Lemma length_entries m : length (entries m) = size m.
Proof.
  rewrite <- (length_fmap fst), entries_keys. unfold keys.
  by rewrite merge_sort_Permutation, length_fmap, length_map_to_list.
Qed.

Lemma keys_empty : keys (∅ : gmap Z A) = [].
Proof. reflexivity. Qed.
End Lemmas.

(** ** Stream operators *)

(** [std::map] from an integer with the given stream operators. *)
Section Serial.
Context `{SizeType} (SK : Serial Z) {V : Type} `{Serial V}.

Definition save_map (m : gmap Z V) : bytes := save_vector (entries m).

Definition load_zmap (old : gmap Z V) (r : VectorReader) : gmap Z V * VectorReader :=
  let '(l, r) := load_map Z.ltb (entries old) r in (list_to_map l, r).

Definition serial_map : Serial (gmap Z V) := {| dflt := ∅; save := save_map; load := load_zmap |}.

Context `{!SizeTypeOk} `{!SerialOk Z} `{!SerialOk V}.

Definition valid_map (m : gmap Z V) : Prop :=
  Z.of_nat (size m) < size_bound /\ forall k v, m !! k = Some v -> valid k /\ valid v.

Lemma load_zmap_at (m old : gmap Z V) pre post r :
  valid_map m -> load_zmap old (at_pos pre (save_map m) post r) = (m, past pre (save_map m) post r).
Proof.
  intros [Hs Hv]. unfold load_zmap, save_map. rewrite (load_map_at Z.ltb).
  - by rewrite list_to_map_entries.
  - intros a b. rewrite Z.ltb_lt, Z.ltb_ge. lia.
  - unfold zlen. by rewrite length_entries.
  - apply Forall_forall. intros [k v] Hk%list_elem_of_In. by apply elem_of_entries, Hv in Hk.
  - apply map_sorted_entries.
Qed.
End Serial.

(** [std::map] from an unsigned integer of [n] bytes. *)
Definition zmap (n : nat) (V : Type) : Type := gmap Z V.

#[export] Instance serial_zmap `{SizeType} {n : nat} {V : Type} `{Serial V} : Serial (zmap n V) :=
  serial_map (serial_uint n).

#[export] Program Instance serial_zmap_ok `{SizeTypeOk} n V `{SerialOk V} : SerialOk (zmap (S n) V) := {
  valid := valid_map (serial_uint (S n));
}.
Next Obligation. intros ? ? n V ? ? m pre post r Hv. by apply (load_zmap_at (serial_uint (S n))). Qed.

End OrderedMap.
