(* ===== verification/PacketCollector.v ===== *)
(** * Packets over a byte stream

    [aether/memory_buffer.h] ([MemStreamBuf]),
    [aether/transport/low_level/tcp/data_packet_collector.*] and
    [aether/stream_api/sized_packet_stream.cpp].

    A TCP connection delivers bytes in arbitrary portions; the collector cuts
    them into packets by the packed size in front of each.  The allocator the
    buffers use is the parameter [alloc_ok]: [std::realloc] of a size returns
    memory or a null pointer. *)

From S2P Require Import Prelude MStream PackedInt.
Import PackedSize.

(** ** [MemStreamBuf] *)
Module MemStreamBuf.

(** The put area: the bytes between [pbase] and [pptr], and the capacity
    [epptr - pbase].  The get area starts at the same address and ends at
    [pptr]. *)
Record MemStreamBuf := {
  content : bytes;
  capacity : Z;
}.

Definition kBlockSize : Z := 1024.

Definition Size (m : MemStreamBuf) : Z := zlen (content m).
Definition AvailableCapacity (m : MemStreamBuf) : Z := capacity m - Size m.

Section Alloc.
Context (alloc_ok : Z -> bool).

(** [SetExactCapacity]: nothing changes for a size of zero or a failed
    allocation; a smaller size cuts the content. *)
Definition SetExactCapacity (new_size : Z) (m : MemStreamBuf) : MemStreamBuf :=
  if new_size <=? 0 then m
  else if alloc_ok new_size
  then {| content := take (Z.to_nat (Z.min (Size m) new_size)) (content m);
          capacity := new_size |}
  else m.

(** [SetCapacity]: rounded up to a multiple of the block size. *)
Definition SetCapacity (new_size : Z) (m : MemStreamBuf) : MemStreamBuf :=
  SetExactCapacity
    (if new_size =? 0 then 0 else ((new_size - 1) / kBlockSize + 1) * kBlockSize) m.

(** The constructor with a capacity. *)
Definition make (cap : Z) : MemStreamBuf :=
  SetExactCapacity cap {| content := []; capacity := 0 |}.

(** [xsputn]: grows the buffer when needed, then writes what fits. *)
Definition xsputn (s : bytes) (m : MemStreamBuf) : MemStreamBuf :=
  let m1 := if AvailableCapacity m <? zlen s then SetCapacity (Size m + zlen s) m else m in
  {| content := content m1 ++ take (Z.to_nat (Z.min (AvailableCapacity m1) (zlen s))) s;
     capacity := capacity m1 |}.

Lemma xsputn_fits s m :
  zlen s <= AvailableCapacity m ->
  xsputn s m = {| content := content m ++ s; capacity := capacity m |}.
Proof.
  intros; unfold xsputn. rewrite (proj2 (Z.ltb_ge _ _)) by done.
  rewrite Z.min_r by done. unfold zlen; rewrite Nat2Z.id, firstn_all. done.
Qed.

Lemma make_ok cap : 0 < cap -> alloc_ok cap = true ->
  make cap = {| content := []; capacity := cap |}.
Proof.
  intros Hc Ha; unfold make, SetExactCapacity.
  rewrite (proj2 (Z.leb_gt _ _)) by done. rewrite Ha; simpl. by rewrite take_nil.
Qed.
End Alloc.
End MemStreamBuf.

(** ** [StreamDataPacketCollector] *)
Module Collector.
Import MemStreamBuf.

Record Packet := {
  mem_buffer : MemStreamBuf;
  expected_packet_size : Z;
}.

Record StreamDataPacketCollector := {
  packets_ : list Packet;
  temp_data_buffer_ : bytes;
}.

Definition IsPacketComplete (p : Packet) : bool :=
  Size (mem_buffer p) =? expected_packet_size p.

(** [packets_.empty() || IsPacketComplete(packets_.back())]. *)
Definition need_packet (ps : list Packet) : bool :=
  match back ps with
  | None => true
  | Some p => IsPacketComplete p
  end.

(** [GetPacketSize]: the size, the bytes of [data] used, and the new
    [temp_data_buffer_]. *)
Definition GetPacketSize (temp data : bytes) : Z * nat * bytes :=
  let temp' := temp ++ take (Nat.min 8 (length data)) data in
  let '(packet_size, reader) := packed_load 0 (new_reader temp') in
  if data_was_read reader
  then (packet_size, (offset_ reader - length temp)%nat, [])
  else (0, length data, temp').

Section Alloc.
Context (alloc_ok : Z -> bool).

Definition new_packet (size : Z) : Packet :=
  {| mem_buffer := make alloc_ok size; expected_packet_size := size |}.

(** [WriteToPacket]: the packet and the number of bytes taken. *)
Definition WriteToPacket (p : Packet) (data : bytes) : Packet * nat :=
  let avail_cap := AvailableCapacity (mem_buffer p) in
  let write_size := if zlen data <? avail_cap then zlen data else avail_cap in
  let n := Z.to_nat write_size in
  ({| mem_buffer := xsputn alloc_ok (take n data) (mem_buffer p);
      expected_packet_size := expected_packet_size p |}, n).

(** [packets_.back()] receives the data. *)
Definition write_back (ps : list Packet) (data : bytes) : list Packet * nat :=
  match back ps with
  | None => (ps, O)
  | Some p => let '(p', n) := WriteToPacket p data in (removelast ps ++ [p'], n)
  end.

(** The loop of [AddData] on the bytes left; [None] when the fuel is gone. *)
Fixpoint add_loop (fuel : nat) (c : StreamDataPacketCollector) (data : bytes)
  : option StreamDataPacketCollector :=
  match fuel with
  | O => None
  | S f =>
      match data with
      | [] => Some c
      | _ =>
          if need_packet (packets_ c)
          then
            let '(size, ofst, temp') := GetPacketSize (temp_data_buffer_ c) data in
            if size =? 0
            then Some {| packets_ := packets_ c; temp_data_buffer_ := temp' |}
            else
              let data1 := drop ofst data in
              let '(ps, n) := write_back (packets_ c ++ [new_packet size]) data1 in
              add_loop f {| packets_ := ps; temp_data_buffer_ := temp' |} (drop n data1)
          else
            let '(ps, n) := write_back (packets_ c) data in
            add_loop f {| packets_ := ps; temp_data_buffer_ := temp_data_buffer_ c |}
                     (drop n data)
      end
  end.

Definition AddData (c : StreamDataPacketCollector) (data : bytes)
  : option StreamDataPacketCollector := add_loop (S (length data)) c data.

(** [PopPacket]: the packet, empty when there is none. *)
Definition PopPacket (c : StreamDataPacketCollector)
  : bytes * StreamDataPacketCollector :=
  match packets_ c with
  | p :: ps =>
      if IsPacketComplete p
      then (content (mem_buffer p),
            {| packets_ := ps; temp_data_buffer_ := temp_data_buffer_ c |})
      else ([], c)
  | [] => ([], c)
  end.

(** ** [SizedPacketGate] *)

(** [Write]: the size, then the data. *)
Definition sized_write (buffer : bytes) : bytes :=
  packed_save (zlen buffer) ++ buffer.

Definition kSizedPacketOverhead : Z := 4.

(** [stream_info]: the element size left for the writer. *)
Definition sized_max_element (out_max : Z) : Z :=
  if kSizedPacketOverhead <? out_max then out_max - kSizedPacketOverhead else 0.

(** The loop that emits the packets; it ends with the first empty one. *)
Fixpoint pop_all (fuel : nat) (c : StreamDataPacketCollector)
  : list bytes * StreamDataPacketCollector :=
  match fuel with
  | O => ([], c)
  | S f =>
      match PopPacket c with
      | ([], c') => ([], c')
      | (packet, c') => let '(out, c'') := pop_all f c' in (packet :: out, c'')
      end
  end.

(** The subscription to the data of the lower gate: emitted packets. *)
Definition sized_read (c : StreamDataPacketCollector) (buffer : bytes)
  : option (list bytes * StreamDataPacketCollector) :=
  match AddData c buffer with
  | None => None
  | Some c' => Some (pop_all (S (length (packets_ c'))) c')
  end.

Definition empty_collector : StreamDataPacketCollector :=
  {| packets_ := []; temp_data_buffer_ := [] |}.

(** Several buffers, one after the other. *)
Fixpoint sized_read_all (c : StreamDataPacketCollector) (buffers : list bytes)
  : option (list bytes * StreamDataPacketCollector) :=
  match buffers with
  | [] => Some ([], c)
  | b :: bs =>
      match sized_read c b with
      | None => None
      | Some (out, c') =>
          match sized_read_all c' bs with
          | None => None
          | Some (out', c'') => Some (out ++ out', c'')
          end
      end
  end.

(** ** Correctness of the collector

    The bytes of the packets [all], each framed by its size, are delivered in
    portions.  [at_frame c ps qs k] says that [c] holds the complete packets
    [ps] and has taken the first [k] bytes of the frame of the head of [qs]. *)

Hypothesis alloc_total : forall n, alloc_ok n = true.

Definition packet_ok (p : bytes) : Prop := 0 < zlen p < kUpper.

Definition frames (ps : list bytes) : bytes := ps ≫= sized_write.

(** A packet of the collector with [q] received of [n] bytes. *)
Definition holding (n : Z) (q : bytes) : Packet :=
  {| mem_buffer := {| content := q; capacity := n |}; expected_packet_size := n |}.

Definition full (p : bytes) : Packet := holding (zlen p) p.

Inductive at_frame : StreamDataPacketCollector -> list bytes -> list bytes -> nat -> Prop :=
  | at_end ps :
      at_frame {| packets_ := map full ps; temp_data_buffer_ := [] |} ps [] 0
  | at_header ps q qs k :
      (k < length (packed_save (zlen q)))%nat ->
      at_frame {| packets_ := map full ps;
                  temp_data_buffer_ := take k (packed_save (zlen q)) |} ps (q :: qs) k
  | at_body ps q qs j :
      (j < length q)%nat ->
      at_frame {| packets_ := map full ps ++ [holding (zlen q) (take j q)];
                  temp_data_buffer_ := [] |} ps (q :: qs)
               (length (packed_save (zlen q)) + j).

Lemma IsPacketComplete_full p : IsPacketComplete (full p) = true.
Proof. apply Z.eqb_refl. Qed.

Lemma need_packet_full ps : need_packet (map full ps) = true.
Proof.
  unfold need_packet. destruct ps as [|p ps _] using rev_ind; [done|].
  rewrite map_app; simpl map. rewrite back_snoc. apply IsPacketComplete_full.
Qed.

Lemma need_packet_holding ps n q :
  zlen q < n -> need_packet (ps ++ [holding n q]) = false.
Proof.
  intros; unfold need_packet; rewrite back_snoc.
  unfold IsPacketComplete, Size; simpl. apply Z.eqb_neq; lia.
Qed.

(** The header is complete: the size is known and the rest is body. *)
Lemma GetPacketSize_complete q k data rest :
  packet_ok q -> (k < length (packed_save (zlen q)))%nat ->
  data = drop k (packed_save (zlen q)) ++ rest ->
  GetPacketSize (take k (packed_save (zlen q))) data
  = (zlen q, (length (packed_save (zlen q)) - k)%nat, []).
Proof.
  intros [Hq0 Hq] Hk ->. set (h := packed_save (zlen q)) in *.
  assert (Hh : (length h <= 8)%nat).
  { unfold h; rewrite length_packed_save by lia; repeat zcase; lia. }
  unfold GetPacketSize.
  set (m := Nat.min 8 (length (drop k h ++ rest))).
  assert (Ht : take k h ++ take m (drop k h ++ rest)
               = [] ++ h ++ take (m - (length h - k)) rest).
  { rewrite take_app, length_drop, app_assoc, (take_ge (drop k h)), take_drop; [done|].
    unfold m; rewrite length_app, length_drop; lia. }
  rewrite Ht. change (new_reader ([] ++ h ++ ?x)) with (at_pos [] h x kNo).
  unfold h at 1 2; rewrite packed_load_save by lia. fold h.
  unfold past, data_was_read; simpl. rewrite yes_if_nonempty by apply packed_save_nonempty.
  rewrite length_take. do 2 f_equal. lia.
Qed.

(** The header is not complete: its bytes are kept. *)
Lemma GetPacketSize_partial q k data rest :
  packet_ok q -> (k + length data < length (packed_save (zlen q)))%nat ->
  data ++ rest = drop k (packed_save (zlen q)) ->
  GetPacketSize (take k (packed_save (zlen q))) data
  = (0, length data, take (k + length data) (packed_save (zlen q))).
Proof.
  intros [Hq0 Hq] Hk Hd. set (h := packed_save (zlen q)) in *.
  assert (Hh : (length h <= 8)%nat).
  { unfold h; rewrite length_packed_save by lia; repeat zcase; lia. }
  unfold GetPacketSize. rewrite Nat.min_r by lia. rewrite firstn_all.
  assert (Ht : take k h ++ data = take (k + length data) h).
  { rewrite <- take_take_drop, <- Hd, take_app_length. done. }
  rewrite Ht.
  pose proof (packed_load_truncated (zlen q) 0 [] (k + length data) kNo ltac:(lia) Hk) as Hl.
  unfold at_pos in Hl; rewrite app_nil_r in Hl; simpl in Hl. fold h in Hl.
  unfold new_reader. destruct (packed_load 0 _) as [v s]; simpl in Hl. by rewrite Hl.
Qed.

(** Writing to a packet that still has room. *)
Lemma write_back_holding ps n q data :
  zlen q <= n ->
  write_back (ps ++ [holding n q]) data
  = let m := Nat.min (length data) (Z.to_nat n - length q) in
    (ps ++ [holding n (q ++ take m data)], m).
Proof.
  intros Hq; unfold write_back. rewrite back_snoc, removelast_last.
  unfold WriteToPacket, AvailableCapacity, Size; simpl.
  set (ws := if zlen data <? n - zlen q then zlen data else n - zlen q).
  assert (Hws : Z.to_nat ws = Nat.min (length data) (Z.to_nat n - length q))
    by (unfold ws, zlen in *; zcase; lia).
  rewrite Hws. rewrite xsputn_fits; [done|].
  unfold AvailableCapacity, Size, zlen in *; simpl. rewrite length_take; lia.
Qed.

Lemma full_holding q : full q = holding (zlen q) q.
Proof. done. Qed.

Lemma frames_cons q qs :
  frames (q :: qs) = packed_save (zlen q) ++ q ++ frames qs.
Proof. unfold frames, sized_write. by rewrite bind_cons, <- app_assoc. Qed.

Lemma drop_frames_body q qs j :
  (j <= length q)%nat ->
  drop (length (packed_save (zlen q)) + j) (frames (q :: qs)) = drop j q ++ frames qs.
Proof.
  intros; rewrite frames_cons, <- drop_drop, drop_app_length. by rewrite drop_app_le.
Qed.

Lemma drop_frames_header q qs k :
  (k <= length (packed_save (zlen q)))%nat ->
  drop k (frames (q :: qs)) = drop k (packed_save (zlen q)) ++ q ++ frames qs.
Proof. intros; rewrite frames_cons. by rewrite drop_app_le. Qed.

(** All packets complete and nothing of the next one. *)
Lemma at_frame_start ps qs :
  at_frame {| packets_ := map full ps; temp_data_buffer_ := [] |} ps qs 0.
Proof.
  destruct qs as [|q qs]; [constructor|].
  apply (at_header ps q qs 0). pose proof (packed_save_nonempty (zlen q)).
  by destruct (packed_save (zlen q)); [|simpl; lia].
Qed.

(** The claim of the main induction: [data] of what is left at [(ps, qs)] is
    taken by [run]. *)
Definition takes (run : option StreamDataPacketCollector) (left data : bytes)
  (ps qs : list bytes) : Prop :=
  exists c' ps2 qs2 k',
    qs = ps2 ++ qs2 /\ run = Some c' /\ at_frame c' (ps ++ ps2) qs2 k' /\
    left = data ++ drop k' (frames qs2).

Lemma body_step f ps q qs j data :
  (forall data c ps qs k, at_frame c ps qs k -> Forall packet_ok qs ->
     data `prefix_of` drop k (frames qs) -> (length data < f)%nat ->
     takes (add_loop f c data) (drop k (frames qs)) data ps qs) ->
  Forall packet_ok (q :: qs) -> (j < length q)%nat ->
  data `prefix_of` drop j q ++ frames qs -> (length data <= f)%nat -> (0 < f)%nat ->
  takes (let '(pk, n) := write_back (map full ps ++ [holding (zlen q) (take j q)]) data in
         add_loop f {| packets_ := pk; temp_data_buffer_ := [] |} (drop n data))
        (drop j q ++ frames qs) data ps (q :: qs).
Proof.
  intros IH Hok Hj [rest Hrest] Hf Hf0. inversion Hok as [|? ? Hq Hqs]; subst.
  rewrite write_back_holding by (unfold zlen; rewrite length_take; lia).
  replace (Nat.min (length data) (Z.to_nat (zlen q) - length (take j q)))
    with (Nat.min (length data) (length q - j)) by (unfold zlen; rewrite length_take; lia).
  cbn zeta.
  destruct (decide (length data < length q - j)%nat) as [Hlt|Hge].
  - rewrite Nat.min_l, firstn_all, drop_all by lia.
    assert (Hd : take j q ++ data = take (j + length data) q).
    { rewrite <- take_take_drop. f_equal.
      apply (f_equal (take (length data))) in Hrest.
      rewrite take_app_length, take_app_le in Hrest by (rewrite length_drop; lia). done. }
    destruct f as [|f]; [lia|]. cbn [add_loop].
    eexists _, [], (q :: qs), (length (packed_save (zlen q)) + (j + length data))%nat.
    rewrite app_nil_r, Hd. split_and!; try done.
    + constructor; lia.
    + rewrite drop_frames_body by lia. rewrite Hrest. f_equal.
      apply (f_equal (drop (length data))) in Hrest.
      rewrite drop_app_length, drop_app_le, drop_drop in Hrest by (rewrite length_drop; lia).
      by rewrite Hrest.
  - rewrite Nat.min_r by lia.
    assert (Hd : take (length q - j) data = drop j q).
    { apply (f_equal (take (length q - j))) in Hrest.
      rewrite take_app_length', take_app_le in Hrest; [done|lia|by rewrite length_drop]. }
    rewrite Hd, take_drop, <- full_holding.
    replace (map full ps ++ [full q]) with (map full (ps ++ [q])) by apply map_app.
    assert (Hr : frames qs = drop (length q - j) data ++ rest).
    { apply (f_equal (drop (length q - j))) in Hrest.
      rewrite drop_app_length', drop_app_le in Hrest; [done|lia|by rewrite length_drop]. }
    destruct (IH (drop (length q - j) data) _ (ps ++ [q]) qs 0%nat (at_frame_start _ qs) Hqs)
      as (c' & ps2 & qs2 & k' & -> & Hrun & Hat & Hleft).
    + exists rest. by rewrite drop_0.
    + rewrite length_drop; lia.
    + exists c', (q :: ps2), qs2, k'. split_and!; try done.
      * by rewrite <- app_assoc in Hat.
      * rewrite drop_0 in Hleft. rewrite <- (take_drop (length q - j) data), Hd, Hleft.
        by rewrite <- app_assoc.
Qed.

Lemma new_packet_holding q : packet_ok q -> new_packet (zlen q) = holding (zlen q) (take 0 q).
Proof. intros [? _]; unfold new_packet. by rewrite make_ok. Qed.

(** [AddData] takes any portion of a framed stream. *)
Lemma add_loop_takes fuel : forall data c ps qs k,
  at_frame c ps qs k -> Forall packet_ok qs ->
  data `prefix_of` drop k (frames qs) -> (length data < fuel)%nat ->
  takes (add_loop fuel c data) (drop k (frames qs)) data ps qs.
Proof.
  induction fuel as [|f IH]; intros data c ps qs k Hat Hok Hpre Hf; [lia|].
  destruct data as [|d0 data0].
  { exists c, [], qs, k. rewrite app_nil_r. done. }
  set (data := d0 :: data0) in *. assert (Hd1 : (1 <= length data)%nat) by (simpl; lia).
  cbn [add_loop]. fold data.
  destruct Hat as [ps|ps q qs k Hk|ps q qs j Hj].
  - destruct Hpre as [? Hpre]; done.
  - cbn [packets_ temp_data_buffer_]. rewrite need_packet_full.
    rewrite drop_frames_header in * by lia. inversion Hok as [|? ? Hq Hqs]; subst.
    destruct Hpre as [rest Hrest].
    destruct (decide (k + length data < length (packed_save (zlen q)))%nat) as [Hlt|Hge].
    + assert (Hd : drop k (packed_save (zlen q))
                   = data ++ drop (k + length data) (packed_save (zlen q))).
      { apply (f_equal (take (length data))) in Hrest as Ht.
        rewrite take_app_length, take_app_le in Ht by (rewrite length_drop; lia).
        rewrite <- drop_drop. by rewrite <- Ht, take_drop at 1. }
      erewrite GetPacketSize_partial by done. rewrite Z.eqb_refl.
      eexists _, [], (q :: qs), (k + length data)%nat. rewrite app_nil_r.
      split_and!; try done; [by constructor|].
      rewrite drop_frames_header by lia. by rewrite Hd, <- !app_assoc.
    + set (m := (length (packed_save (zlen q)) - k)%nat).
      assert (Hlm : length (drop k (packed_save (zlen q))) = m) by apply length_drop.
      assert (Hd : data = drop k (packed_save (zlen q)) ++ drop m data).
      { rewrite <- (take_drop m data) at 1. f_equal.
        apply (f_equal (take m)) in Hrest.
        rewrite take_app_length', take_app_le in Hrest; [done|lia|done]. }
      rewrite (GetPacketSize_complete q k data (drop m data)) by done. fold m.
      destruct Hq as [Hq0 Hq]. rewrite (proj2 (Z.eqb_neq _ _)) by lia.
      rewrite new_packet_holding by done.
      destruct (body_step f ps q qs 0 (drop m data) IH Hok) as (c' & ps2 & qs2 & k' & H1 & H2 & H3 & H4).
      * unfold zlen in Hq0; lia.
      * rewrite drop_0. exists rest. apply (f_equal (drop m)) in Hrest.
        rewrite drop_app_length', drop_app_le in Hrest; [done|lia|done].
      * rewrite length_drop; simpl in *; lia.
      * lia.
      * exists c', ps2, qs2, k'. split_and!; try done.
        rewrite drop_0 in H4. rewrite H4, app_assoc, <- Hd. done.
  - cbn [packets_ temp_data_buffer_].
    rewrite need_packet_holding by (unfold zlen; rewrite length_take; lia).
    rewrite drop_frames_body in * by lia.
    destruct (body_step f ps q qs j data IH Hok Hj Hpre ltac:(lia) ltac:(lia))
      as (c' & ps2 & qs2 & k' & H1 & H2 & H3 & H4).
    exists c', ps2, qs2, k'. done.
Qed.

(** Popping returns the complete packets in order. *)
Lemma pop_all_frames c ps qs k fuel :
  at_frame c ps qs k -> Forall packet_ok ps -> (length ps < fuel)%nat ->
  exists c', pop_all fuel c = (ps, c') /\ at_frame c' [] qs k.
Proof.
  revert c ps; induction fuel as [|f IH]; intros c ps Hat Hok Hf; [lia|].
  cbn [pop_all]. unfold PopPacket. destruct ps as [|p ps].
  - inversion Hat; subst; cbn [packets_ map app]; eauto.
    unfold IsPacketComplete, Size; simpl.
    rewrite (proj2 (Z.eqb_neq _ _)) by (unfold zlen; rewrite length_take; lia). eauto.
  - inversion Hok as [|? ? Hp Hps]; subst. destruct Hp as [Hp _].
    destruct p as [|x p]; [by unfold zlen in Hp|].
    assert (Hc : exists c', packets_ c = full (x :: p) :: packets_ c' /\
             temp_data_buffer_ c = temp_data_buffer_ c' /\ at_frame c' ps qs k).
    { inversion Hat; subst; simpl;
        eexists (Build_StreamDataPacketCollector _ _); simpl;
        (split_and!; [done|done|by constructor]). }
    destruct Hc as ([pk tmp] & Hpk & Htmp & Hat'). cbn [packets_ temp_data_buffer_] in *.
    rewrite Hpk, Htmp, IsPacketComplete_full. cbn [content mem_buffer full holding].
    simpl length in Hf. destruct (IH _ ps Hat' Hps ltac:(lia)) as (c' & -> & Hc'). eauto.
Qed.

Lemma length_packets c ps qs k : at_frame c ps qs k -> (length ps <= length (packets_ c))%nat.
Proof. destruct 1; simpl; rewrite ?length_app, ?length_map; lia. Qed.

(** One buffer: the packets it completes are emitted. *)
Lemma sized_read_frames c qs k buffer :
  at_frame c [] qs k -> Forall packet_ok qs -> buffer `prefix_of` drop k (frames qs) ->
  exists out c' qs' k', qs = out ++ qs' /\ sized_read c buffer = Some (out, c') /\
    at_frame c' [] qs' k' /\ drop k (frames qs) = buffer ++ drop k' (frames qs').
Proof.
  intros Hat Hok Hpre; unfold sized_read, AddData.
  destruct (add_loop_takes (S (length buffer)) buffer c [] qs k Hat Hok Hpre ltac:(lia))
    as (c' & ps2 & qs2 & k' & -> & -> & Hat' & Hleft).
  apply Forall_app in Hok as [Hok _].
  pose proof (length_packets _ _ _ _ Hat').
  destruct (pop_all_frames c' ps2 qs2 k' (S (length (packets_ c'))) Hat' Hok) as (c'' & Hp & Hc'').
  { simpl in *; lia. }
  rewrite Hp. eexists _, _, _, _; split_and!; eauto.
Qed.

(** Any sequence of buffers. *)
Lemma sized_read_all_frames buffers : forall c qs k,
  at_frame c [] qs k -> Forall packet_ok qs -> concat buffers `prefix_of` drop k (frames qs) ->
  exists out c' qs' k', qs = out ++ qs' /\ sized_read_all c buffers = Some (out, c') /\
    at_frame c' [] qs' k' /\ drop k (frames qs) = concat buffers ++ drop k' (frames qs').
Proof.
  induction buffers as [|b bs IH]; intros c qs k Hat Hok [rest Hrest].
  - exists [], c, qs, k. done.
  - simpl in Hrest. rewrite <- app_assoc in Hrest.
    destruct (sized_read_frames c qs k b Hat Hok) as (out & c1 & qs1 & k1 & -> & Hr & Hat1 & Hl1).
    { by exists (concat bs ++ rest). }
    apply Forall_app in Hok as [_ Hok].
    destruct (IH c1 qs1 k1 Hat1 Hok) as (out2 & c2 & qs2 & k2 & -> & Hr2 & Hat2 & Hl2).
    { exists rest. rewrite Hl1 in Hrest. by apply app_inv_head in Hrest. }
    exists (out ++ out2), c2, qs2, k2. simpl. rewrite Hr, Hr2.
    split_and!; [by rewrite app_assoc|done|done|]. by rewrite Hl1, Hl2, <- app_assoc.
Qed.
End Alloc.
End Collector.

(** ** Properties *)
Module CollectorProperties.
Import Collector.

Lemma at_frame_start_empty qs : at_frame empty_collector [] qs 0.
Proof. apply (at_frame_start []). Qed.

Lemma at_frame_left c qs k :
  at_frame c [] qs k -> Forall packet_ok qs -> drop k (frames qs) = [] ->
  qs = [] /\ c = empty_collector.
Proof.
  intros Hat Hok Hd. destruct qs as [|q qs].
  - inversion Hat; subst. done.
  - exfalso. apply (f_equal length) in Hd. rewrite length_drop, frames_cons, !length_app in Hd.
    inversion Hok as [|? ? [Hq _] _]; subst. unfold zlen in Hq at 1.
    inversion Hat; subst; simpl in Hd; lia.
Qed.

(** C23: packets written through a [SizedPacketGate] are emitted by the gate at
    the other end exactly once, unchanged and in order, however the transport
    cuts the byte stream into buffers, and nothing is left behind.  Packets
    are not empty and shorter than the largest packed size. *)
Theorem sized_packets_delivered alloc_ok packets buffers :
  (forall n, alloc_ok n = true) -> Forall packet_ok packets ->
  concat buffers = concat (map sized_write packets) ->
  sized_read_all alloc_ok empty_collector buffers = Some (packets, empty_collector).
Proof.
  intros Ha Hok Hb.
  assert (Hf : concat (map sized_write packets) = frames packets).
  { unfold frames. clear. induction packets; simpl; [done|]. by rewrite IHpackets. }
  destruct (sized_read_all_frames alloc_ok Ha buffers empty_collector packets 0
              (at_frame_start_empty _) Hok) as (out & c' & qs' & k' & -> & Hr & Hat & Hl).
  { exists []. by rewrite drop_0, app_nil_r, Hb, Hf. }
  rewrite drop_0, Hb, Hf in Hl. rewrite <- (app_nil_r (frames _)) in Hl at 1.
  apply app_inv_head in Hl. apply Forall_app in Hok as [_ Hok].
  destruct (at_frame_left c' qs' k' Hat Hok (eq_sym Hl)) as [-> ->].
  by rewrite app_nil_r.
Qed.

Lemma sized_packets_delivered_witness :
  sized_read_all (fun _ => true) empty_collector [[3; 1]; [2; 3; 1]; [9]]
  = Some ([[1; 2; 3]; [9]], empty_collector).
Proof.
  apply sized_packets_delivered.
  - reflexivity.
  - repeat constructor; vm_compute; reflexivity.
  - vm_compute. reflexivity.
Defined.

(** At any moment the packets emitted so far are a prefix of those
    written: a truncated stream loses only its last packets. *)
Theorem sized_packets_prefix alloc_ok packets buffers :
  (forall n, alloc_ok n = true) -> Forall packet_ok packets ->
  concat buffers `prefix_of` concat (map sized_write packets) ->
  exists out c, sized_read_all alloc_ok empty_collector buffers = Some (out, c) /\
    out `prefix_of` packets.
Proof.
  intros Ha Hok Hb.
  assert (Hf : concat (map sized_write packets) = frames packets).
  { unfold frames. clear. induction packets; simpl; [done|]. by rewrite IHpackets. }
  destruct (sized_read_all_frames alloc_ok Ha buffers empty_collector packets 0
              (at_frame_start_empty _) Hok) as (out & c' & qs' & k' & -> & Hr & _).
  { by rewrite drop_0, <- Hf. }
  exists out, c'. split; [done|]. by exists qs'.
Qed.

Lemma sized_packets_prefix_witness :
  exists out c, sized_read_all (fun _ => true) empty_collector [[3; 1]; [2; 3; 1]] = Some (out, c) /\
    out `prefix_of` [[1; 2; 3]; [9]].
Proof.
  apply sized_packets_prefix.
  - reflexivity.
  - repeat constructor; vm_compute; reflexivity.
  - exists [9]. reflexivity.
Defined.

Lemma GetPacketSize_fresh n d :
  0 <= n < kUpper -> GetPacketSize [] (packed_save n ++ d) = (n, length (packed_save n), []).
Proof.
  intros Hn; unfold GetPacketSize; cbn [app].
  assert (Hh : (length (packed_save n) <= 8)%nat).
  { rewrite length_packed_save by lia; repeat zcase; lia. }
  rewrite take_app, (take_ge (packed_save n)) by (rewrite length_app; lia).
  change (new_reader (packed_save n ++ ?t)) with (at_pos [] (packed_save n) t kNo).
  rewrite packed_load_save by lia. unfold past, data_was_read; cbn [result_ offset_].
  rewrite yes_if_nonempty by apply packed_save_nonempty.
  cbn [length]. by rewrite Nat.sub_0_r.
Qed.

(** An empty packet makes the collector drop the rest of the buffer: the
    packet written after it is never emitted. *)
Theorem sized_empty_packet_drops alloc_ok p :
  sized_read alloc_ok empty_collector (sized_write [] ++ sized_write p)
  = Some ([], empty_collector).
Proof.
  assert (Hw : sized_write [] = packed_save 0) by apply app_nil_r. rewrite Hw.
  unfold sized_read, AddData. cbn [add_loop].
  destruct (packed_save 0 ++ sized_write p) as [|x l] eqn:E.
  { by apply app_nil in E as [?%packed_save_nonempty _]. }
  rewrite <- E. change (need_packet (packets_ empty_collector)) with true.
  change (temp_data_buffer_ empty_collector) with ([] : bytes).
  rewrite GetPacketSize_fresh by (vm_compute; split; [discriminate | reflexivity]).
  reflexivity.
Qed.

Lemma add_loop_stuck alloc_ok fuel n temp d :
  0 < n -> d <> [] ->
  add_loop alloc_ok fuel
    {| packets_ := [{| mem_buffer := {| MemStreamBuf.content := []; MemStreamBuf.capacity := 0 |};
                       expected_packet_size := n |}];
       temp_data_buffer_ := temp |} d = None.
Proof.
  intros Hn Hd; revert d Hd; induction fuel as [|f IH]; intros d Hd; [done|].
  cbn [add_loop packets_]. destruct d as [|x d]; [done|].
  unfold need_packet; cbn [back]. unfold IsPacketComplete; cbn [mem_buffer expected_packet_size].
  change (MemStreamBuf.Size _) with 0. rewrite (proj2 (Z.eqb_neq _ _)) by lia.
  unfold write_back; cbn [back]. unfold WriteToPacket; cbn [mem_buffer expected_packet_size].
  change (MemStreamBuf.AvailableCapacity _) with 0.
  rewrite (proj2 (Z.ltb_ge _ _)) by apply zlen_nonneg.
  cbn [Z.to_nat take drop removelast app]. by apply IH.
Qed.

(** When the buffer of an announced packet cannot be allocated, [AddData]
    never returns: the loop takes no byte and does not end, whatever fuel it
    is given. *)
Theorem add_data_hangs_without_memory alloc_ok n d fuel :
  0 < n < kUpper -> alloc_ok n = false -> d <> [] ->
  add_loop alloc_ok fuel empty_collector (packed_save n ++ d) = None.
Proof.
  intros Hn Ha Hd. destruct fuel as [|f]; [done|].
  cbn [add_loop]. destruct (packed_save n ++ d) as [|x l] eqn:E.
  { by apply app_nil in E as [?%packed_save_nonempty _]. }
  rewrite <- E. clear x l E. change (need_packet (packets_ empty_collector)) with true.
  change (temp_data_buffer_ empty_collector) with ([] : bytes).
  rewrite GetPacketSize_fresh by lia. rewrite (proj2 (Z.eqb_neq _ _)) by lia.
  rewrite drop_app_length.
  unfold new_packet, MemStreamBuf.make, MemStreamBuf.SetExactCapacity.
  rewrite (proj2 (Z.leb_gt _ _)) by lia. rewrite Ha.
  unfold write_back; cbn [packets_ empty_collector app back].
  unfold WriteToPacket; cbn [mem_buffer expected_packet_size].
  change (MemStreamBuf.AvailableCapacity _) with 0.
  rewrite (proj2 (Z.ltb_ge _ _)) by apply zlen_nonneg.
  cbn [Z.to_nat take drop removelast app]. apply add_loop_stuck; [lia | done].
Qed.

Lemma add_data_hangs_without_memory_witness :
  add_loop (fun n => n <? 1000) 50 empty_collector (packed_save 2000 ++ [1]) = None.
Proof.
  apply add_data_hangs_without_memory; [vm_compute; split; reflexivity | reflexivity | discriminate].
Defined.
End CollectorProperties.
