(* ===== verification/StateMachine.v ===== *)
(** * State machines of actions ([aether/state_machine.h])

    [StateMachine<TEnum>] is a value with a flag that tells whether it changed
    since it was acquired.  The event a change emits is returned by [Set_]. *)

From S2P Require Import Prelude.

Record StateMachine (E : Type) := {
  changed_ : bool;
  state_ : E;
}.
Arguments changed_ {E}.
Arguments state_ {E}.
Arguments Build_StateMachine {E}.

Module SM.
Section SM.
Context {E : Type} `{EqDecision E}.

(** [StateMachine()] and [StateMachine(val)]. *)
Definition default (e0 : E) : StateMachine E := {| changed_ := false; state_ := e0 |}.
Definition make (val : E) : StateMachine E := {| changed_ := true; state_ := val |}.

Definition Acquire (m : StateMachine E) : E * StateMachine E :=
  (state_ m, {| changed_ := false; state_ := state_ m |}).

(** [Set] and [operator=(TEnum)], with the values given to [changed_event]. *)
Definition Set_ (val : E) (m : StateMachine E) : StateMachine E * list E :=
  if decide (state_ m = val) then (m, [])
  else ({| changed_ := true; state_ := val |}, [val]).

Definition set (val : E) (m : StateMachine E) : StateMachine E := (Set_ val m).1.

Lemma state_set val m : state_ (set val m) = val.
Proof. unfold set, Set_; by case_decide. Qed.

(** The flag is raised exactly by a change of the value, and lowered by
    [Acquire]. *)
Lemma changed_set val m :
  changed_ (set val m) = if decide (state_ m = val) then changed_ m else true.
Proof. unfold set, Set_; by case_decide. Qed.

Lemma set_idem val m : set val (set val m) = set val m.
Proof.
  unfold set, Set_ at 1. by rewrite decide_True by apply state_set.
Qed.
End SM.
End SM.
