(* ===== verification/ApiProtocol.v ===== *)
(** * API protocol ([aether/api_protocol/])

    A packet is a sequence of messages, each an identifier byte followed by
    the fields of the message.  [ApiPacker] writes them; [ApiParser::Parse]
    reads them until the end of the packet, and every message is executed
    when it is read.  What an API class does with a message is the class
    [ApiClass]; its state type is the state the handlers change.

    A failed [assert] is [Undefined]. *)

From stdpp Require Import gmap.
From S2P Require Import Prelude MStream PackedInt.
Import PackedSize.

(** ** Packing *)

(** [ApiPacker::Pack]. *)
Definition Pack {T} `{Serial T} (message_id : Z) (msg : T) : bytes :=
  save (message_id : uint 1) ++ save msg.

(** [PacketBuilder::Pack]: the messages in the order they were pushed. *)
Definition PacketBuilder_Pack {M} (pack : M -> bytes) (pack_messages_ : list M) : bytes :=
  pack_messages_ ≫= pack.

(** ** Parsing *)

Class ApiClass (St : Type) := {
  LoadFactory : Z -> St -> VectorReader -> outcome (St * VectorReader);
}.

(** Readers only move forward. *)
Definition forward (r r' : VectorReader) : Prop :=
  data_ r' = data_ r /\ (offset_ r <= offset_ r')%nat.

Class ApiClassOk (St : Type) `{ApiClass St} := {
  LoadFactory_forward : forall id st r st' r',
    LoadFactory id st r = Defined (st', r') -> forward r r';
}.

(** [ApiParser::Parse]; [None] is a run the fuel does not cover. *)
Fixpoint Parse_loop {St} `{ApiClass St} (fuel : nat) (st : St) (r : VectorReader)
  : option (outcome (St * VectorReader)) :=
  if (offset_ r <? length (data_ r))%nat
  then
    match fuel with
    | O => None
    | S fuel =>
        let '(message_id, r1) := load_uint 1 255 r in
        match LoadFactory message_id st r1 with
        | Defined (st', r2) => Parse_loop fuel st' r2
        | Undefined => Some Undefined
        end
    end
  else Some (Defined (st, r)).

Definition Parse {St} `{ApiClass St} (st : St) (data : bytes)
  : option (outcome (St * VectorReader)) :=
  Parse_loop (length data) st (new_reader data).

(** [ApiParser::Cancel]. *)
Definition Cancel (r : VectorReader) : VectorReader :=
  Reader (data_ r) (length (data_ r)) (result_ r).

(** ** Requests ([send_result.h], [protocol_context.*]) *)

(** [RequestId::GenRequestId]: the identifier and the next static counter. *)
Definition GenRequestId (request_id : Z) : Z * Z := (request_id, wrap 16 (request_id + 1)).

Section ProtocolContext.
(** [Ptr] is [void*], [Cb] the callbacks, which are code of the clients:
    running one consumes from the parser and may use the context. *)
Context {Ptr Cb : Type}.

Record ProtocolContext := {
  user_data_stack_ : list Ptr;
  api_class_map_ : gmap Z Ptr;
  send_result_callbacks_ : gmap Z Cb;
}.

Definition new_context : ProtocolContext :=
  {| user_data_stack_ := []; api_class_map_ := ∅; send_result_callbacks_ := ∅ |}.

Definition PushApiClass (class_id : Z) (api_class : Ptr) (c : ProtocolContext) : ProtocolContext :=
  {| user_data_stack_ := user_data_stack_ c;
     api_class_map_ := <[class_id := api_class]> (api_class_map_ c);
     send_result_callbacks_ := send_result_callbacks_ c |}.

Definition PopApiClass (class_id : Z) (c : ProtocolContext) : ProtocolContext :=
  {| user_data_stack_ := user_data_stack_ c;
     api_class_map_ := delete class_id (api_class_map_ c);
     send_result_callbacks_ := send_result_callbacks_ c |}.

Definition PushUserData (data : Ptr) (c : ProtocolContext) : ProtocolContext :=
  {| user_data_stack_ := data :: user_data_stack_ c;
     api_class_map_ := api_class_map_ c;
     send_result_callbacks_ := send_result_callbacks_ c |}.

Definition PopUserData (c : ProtocolContext) : outcome ProtocolContext :=
  match user_data_stack_ c with
  | [] => Undefined
  | _ :: rest =>
      Defined {| user_data_stack_ := rest; api_class_map_ := api_class_map_ c;
                 send_result_callbacks_ := send_result_callbacks_ c |}
  end.

Definition TopUserData (c : ProtocolContext) : option Ptr :=
  match user_data_stack_ c with [] => None | p :: _ => Some p end.

Definition with_callbacks (cbs : gmap Z Cb) (c : ProtocolContext) : ProtocolContext :=
  {| user_data_stack_ := user_data_stack_ c; api_class_map_ := api_class_map_ c;
     send_result_callbacks_ := cbs |}.

(** [AddSendResultCallback]; [emplace] keeps a callback already there. *)
Definition AddSendResultCallback (request_id : Z) (callback : Cb) (c : ProtocolContext)
  : ProtocolContext :=
  match send_result_callbacks_ c !! request_id with
  | Some _ => c
  | None => with_callbacks (<[request_id := callback]> (send_result_callbacks_ c)) c
  end.

Context {St : Type}.
Context (run : Cb -> St -> ProtocolContext -> VectorReader ->
               St * ProtocolContext * VectorReader).

(** [SetSendResultResponse]; without a callback the parse is cancelled. *)
Definition SetSendResultResponse (request_id : Z) (st : St) (c : ProtocolContext)
  (r : VectorReader) : St * ProtocolContext * VectorReader :=
  match send_result_callbacks_ c !! request_id with
  | Some cb =>
      let '(st', c', r') := run cb st c r in
      (st', with_callbacks (delete request_id (send_result_callbacks_ c')) c', r')
  | None => (st, c, Cancel r)
  end.

(** [ReturnResultApi] at [this]: [SendResult] reads its identifier only,
    [SendError] is reported to [notify]; the class is known to the context
    ([ApiParser::Load]) while either is executed.  The answer is whether the
    message is one of them. *)
Context (notify : Z * Z -> St -> St).

Definition kSendResult : Z := 0.
Definition kSendError : Z := 1.
Definition kReturnResultClassId : Z := 0.

Definition LoadResult (this : Ptr) (message_id : Z) (st : St) (c : ProtocolContext) (r : VectorReader)
  : (St * ProtocolContext * VectorReader) * bool :=
  if message_id =? kSendResult
  then
    let '(request_id, r1) := load_uint 2 0 r in
    let c := PushApiClass kReturnResultClassId this c in
    let '(st, c, r2) := SetSendResultResponse request_id st c r1 in
    (st, PopApiClass kReturnResultClassId c, r2, true)
  else if message_id =? kSendError
  then
    let '(error, r1) := load_pair ((0, 0) : uint 2 * uint 4) r in
    let c := PushApiClass kReturnResultClassId this c in
    (notify error st, PopApiClass kReturnResultClassId c, r1, true)
  else (st, c, r, false).

(** [SendResult] with the data as it is. *)
Definition PackSendResult (request_id : Z) (child_data : bytes) : bytes :=
  Pack kSendResult (request_id : uint 2) ++ child_data.

Definition PackSendError (request_id error_code : Z) : bytes :=
  Pack kSendError ((request_id, error_code) : uint 2 * uint 4).

End ProtocolContext.
Arguments ProtocolContext : clear implicits.

(** ** Child data ([child_data.h])

    Data already packed, or messages to be packed when the child data is
    written; it is written and read as a byte vector. *)
Inductive ChildData (M : Type) :=
  | ChildPack (pack_message : option M)
  | ChildBytes (data : bytes).
Arguments ChildPack {M} pack_message.
Arguments ChildBytes {M} data.

(** [PackData(ProtocolContext&)]; a default constructed [ChildData] holds a
    null message. *)
Definition PackData {M} (pack : M -> bytes) (d : ChildData M) : outcome bytes :=
  match d with
  | ChildPack (Some m) => Defined (pack m)
  | ChildPack None => Undefined
  | ChildBytes data => Defined data
  end.

Definition save_child {M} `{SizeType} (pack : M -> bytes) (d : ChildData M) : outcome bytes :=
  let* data := PackData pack d in Defined (save (data : list (uint 1))).

Definition load_child {M} `{SizeType} (r : VectorReader) : ChildData M * VectorReader :=
  let '(data, r1) := load (dflt : list (uint 1)) r in (ChildBytes data, r1).

(** ** Lemmas *)

Lemma forward_refl r : forward r r.
Proof. split; done. Qed.

Lemma forward_trans a b c : forward a b -> forward b c -> forward a c.
Proof. intros [? ?] [? ?]; split; [congruence|lia]. Qed.

#[export] Instance forward_preorder : PreOrder forward.
Proof. split; [intros ?; apply forward_refl|intros ???; apply forward_trans]. Qed.

Lemma read_forward r n : forward r (read r n).2.
Proof. unfold read; destruct (_ <? _)%nat; split; simpl; try done; lia. Qed.

Lemma load_uint_forward n old r : forward r (load_uint n old r).2.
Proof.
  unfold load_uint. pose proof (read_forward r n) as H.
  by destruct (read r n) as [[bs|] r'].
Qed.

Lemma load_scalar_array_forward n old r : forward r (load_scalar_array n old r).2.
Proof.
  unfold load_scalar_array. pose proof (read_forward r (length old * n)) as H.
  by destruct (read r _) as [[bs|] r'].
Qed.

Lemma Deserialize_forward b M n : forall v r, forward r (Packed.Deserialize b M n v r).2.
Proof.
  induction n as [|m IH]; intros v r; cbn [Packed.Deserialize].
  - pose proof (load_uint_forward (Packed.range_bytes b) v r) as H.
    destruct (load_uint _ _ _) as [v' s]; simpl in H. repeat zcase; done.
  - pose proof (IH 0 r) as H. destruct (Packed.Deserialize b M m 0 r) as [[res high] s].
    simpl in H. cbv zeta. destruct res; [done|done|].
    pose proof (load_uint_forward (Packed.range_bytes (b + m))
                  (v mod 2 ^ Packed.range_width (b + m)) s) as H2.
    destruct (load_uint _ _ _) as [low s']; simpl in H2.
    repeat zcase; simpl; by etransitivity.
Qed.

Lemma load_scalars_forward n old r : forward r (load_scalars n old r).2.
Proof.
  unfold load_scalars; simpl. unfold PackedSize.packed_load.
  pose proof (Deserialize_forward 0 250 3 0 r) as H.
  destruct (Packed.Deserialize 0 250 3 0 r) as [[res v] s]; simpl in H.
  destruct (data_was_read s); [|done].
  etransitivity; [exact H|apply load_scalar_array_forward].
Qed.

Lemma pair_forward {A B} `{Serial A} `{Serial B} :
  (forall old s, forward s (load (T := A) old s).2) ->
  (forall old s, forward s (load (T := B) old s).2) ->
  forall old s, forward s (load (T := A * B) old s).2.
Proof.
  intros Ha Hb [a b] s; simpl. unfold load_pair. pose proof (Ha a s) as H1.
  simpl. destruct (load a s) as [a' s1]; simpl in H1. pose proof (Hb b s1) as H2.
  destruct (load b s1) as [b' s2]; simpl in H2 |- *. by etransitivity.
Qed.

(** The identifier byte of every message makes the parser advance, so it
    stops on any packet. *)
Lemma Parse_loop_total {St} `{ApiClassOk St} fuel : forall st r,
  (length (data_ r) - offset_ r <= fuel)%nat -> Parse_loop fuel st r <> None.
Proof.
  induction fuel as [|fuel IH]; intros st r Hf; cbn [Parse_loop];
    destruct (Nat.ltb_spec (offset_ r) (length (data_ r))) as [Hlt|]; try done; [lia|].
  unfold load_uint, read.
  destruct (Nat.ltb_spec (length (data_ r)) (offset_ r + 1)); [lia|].
  destruct (LoadFactory _ _ _) as [[st' r2]|] eqn:E; [|done].
  apply LoadFactory_forward in E as [Hd Ho]; simpl in Hd, Ho.
  apply IH. rewrite Hd. lia.
Qed.

(** ** A packet of well-formed messages

    [pack] writes messages of type [M] and the API class reads them back and
    gives them to [execute]. *)
Section Packets.
Context {St M : Type} `{ApiClass St}.
Context (message_id : M -> Z) (body : M -> bytes) (msg_valid : M -> Prop).
Context (execute : M -> St -> outcome St).

Definition pack_one (m : M) : bytes := save (message_id m : uint 1) ++ body m.

Fixpoint execute_all (ms : list M) (st : St) : outcome St :=
  match ms with
  | [] => Defined st
  | m :: ms' => let* st' := execute m st in execute_all ms' st'
  end.

Hypothesis message_id_range : forall m, in_width 8 (message_id m).
Hypothesis load_body : forall m st pre post,
  msg_valid m ->
  LoadFactory (message_id m) st (at_pos pre (body m) post kYes)
  = let* st' := execute m st in Defined (st', past pre (body m) post kYes).

Lemma Parse_loop_packed ms : forall fuel st pre r,
  Forall msg_valid ms -> (length (ms ≫= pack_one) <= fuel)%nat ->
  Parse_loop fuel st (at_pos pre (ms ≫= pack_one) [] r)
  = Some (let* st' := execute_all ms st in
          Defined (st', past pre (ms ≫= pack_one) [] r)).
Proof.
  induction ms as [|m ms IH]; intros fuel st pre r Hv Hf.
  - assert (E : forall f, Parse_loop f st (at_pos pre [] [] r)
                = Some (Defined (st, at_pos pre [] [] r))).
    { intros f; destruct f; cbn [Parse_loop]; unfold at_pos; simpl;
        rewrite app_nil_r, Nat.ltb_irrefl; done. }
    cbn [mbind list_bind]. rewrite E. simpl. unfold past, at_pos; simpl.
    by rewrite Nat.add_0_r.
  - inversion Hv as [|? ? Hm Hms]; subst.
    rewrite bind_cons in *. unfold pack_one at 1 in Hf. rewrite !length_app in Hf.
    simpl in Hf. destruct fuel as [|fuel]; [lia|]. cbn [Parse_loop].
    unfold pack_one at 1 3 5. rewrite <- app_assoc, at_pos_app.
    change (save (message_id m : uint 1)) with (le_bytes 1 (message_id m)).
    rewrite load_uint_at; [|done|apply message_id_range].
    destruct (Nat.ltb_spec (offset_ (at_pos pre (le_bytes 1 (message_id m))
      ((body m ++ (ms ≫= pack_one)) ++ []) r)) (length (data_ (at_pos pre (le_bytes 1 (message_id m))
      ((body m ++ (ms ≫= pack_one)) ++ []) r)))) as [_|Hge].
    2:{ unfold at_pos in Hge; simpl in Hge. rewrite !length_app in Hge; simpl in Hge. lia. }
    rewrite past_at_pos, at_pos_app. rewrite yes_if_nonempty by done.
    rewrite load_body by done. cbn [execute_all].
    destruct (execute m st) as [st'|]; [|done].
    rewrite past_at_pos, yes_if_yes, IH by (done || lia).
    destruct (execute_all ms st') as [st''|]; [|done].
    do 3 f_equal. unfold pack_one at 2.
    rewrite <- (app_assoc (save _)). rewrite past_app_yes. apply (past_app pre (le_bytes 1 (message_id m))).
Qed.

Lemma Parse_packed ms st :
  Forall msg_valid ms ->
  Parse st (PacketBuilder_Pack pack_one ms)
  = Some (let* st' := execute_all ms st in
          Defined (st', past [] (PacketBuilder_Pack pack_one ms) [] kNo)).
Proof.
  intros Hv; unfold Parse, PacketBuilder_Pack, new_reader.
  pose proof (Parse_loop_packed ms (length (ms ≫= pack_one)) st [] kNo Hv (Nat.le_refl _)) as E.
  unfold at_pos in E; simpl in E. by rewrite app_nil_r in E.
Qed.
End Packets.
