(* ===== verification/SafeStreamApi.v ===== *)
(** * The wire format of the safe stream ([safe_stream_api.*])

    The seven messages of [SafeStreamApi], their encoding, and the API class
    that reads them.  [execute] stands for [Execute], which hands the message
    to the subscribers of the protocol context. *)

From S2P Require Import Prelude MStream PackedInt ApiProtocol.
Import PackedSize.

Inductive SafeStreamMessage :=
  | MClose
  | MRequestReport
  | MPutReport (offset : Z)
  | MConfirm (offset : Z)
  | MRequestRepeat (offset : Z)
  | MSend (offset : Z) (data : bytes)
  | MRepeat (repeat_count offset : Z) (data : bytes).

#[export] Instance SafeStreamMessage_eq_dec : EqDecision SafeStreamMessage.
Proof. solve_decision. Defined.

Definition kMessageCode (m : SafeStreamMessage) : Z :=
  match m with
  | MClose => 2
  | MRequestReport => 3
  | MPutReport _ => 4
  | MConfirm _ => 5
  | MRequestRepeat _ => 6
  | MSend _ _ => 7
  | MRepeat _ _ _ => 8
  end.

(** The [Serializator]s. *)
Abbreviation offset_field := (uint 2).
Abbreviation send_fields := (uint 2 * list (uint 1))%type.
Abbreviation repeat_fields := (uint 2 * (uint 2 * list (uint 1)))%type.

Definition message_body (m : SafeStreamMessage) : bytes :=
  match m with
  | MClose | MRequestReport => []
  | MPutReport o | MConfirm o | MRequestRepeat o => save (o : offset_field)
  | MSend o d => save ((o, d) : send_fields)
  | MRepeat n o d => save ((n, (o, d)) : repeat_fields)
  end.

Definition pack_safe_message : SafeStreamMessage -> bytes :=
  pack_one kMessageCode message_body.

(** A packet with the messages in order. *)
Definition safe_packet : list SafeStreamMessage -> bytes :=
  PacketBuilder_Pack pack_safe_message.

Section Api.
Context {St : Type} (execute : SafeStreamMessage -> St -> outcome St).

(** [parser.Load<Message>]: the fields are read into a default constructed
    message, which is executed whether or not the read succeeded. *)
Definition Load {T} `{Serial T} (mk : T -> SafeStreamMessage) (st : St) (r : VectorReader)
  : outcome (St * VectorReader) :=
  let '(msg, r') := load dflt r in
  let* st' := execute (mk msg) st in Defined (st', r').

Definition safe_LoadFactory (message_id : Z) (st : St) (r : VectorReader)
  : outcome (St * VectorReader) :=
  if message_id =? 2 then Load (fun _ : unit => MClose) st r
  else if message_id =? 3 then Load (fun _ : unit => MRequestReport) st r
  else if message_id =? 4 then Load (T := offset_field) MPutReport st r
  else if message_id =? 5 then Load (T := offset_field) MConfirm st r
  else if message_id =? 6 then Load (T := offset_field) MRequestRepeat st r
  else if message_id =? 7 then Load (T := send_fields) (fun '(o, d) => MSend o d) st r
  else if message_id =? 8
  then Load (T := repeat_fields) (fun '(n, (o, d)) => MRepeat n o d) st r
  else Undefined.

#[export] Instance SafeStreamApi : ApiClass St := { LoadFactory := safe_LoadFactory }.

(** A class [T] whose reader moves forward. *)
Lemma Load_forward {T} `{Serial T} mk st r st' r' :
  (forall old s, forward s (load (T := T) old s).2) ->
  Load mk st r = Defined (st', r') -> forward r r'.
Proof.
  intros Hf; unfold Load. pose proof (Hf dflt r) as Hl.
  destruct (load dflt r) as [msg r1]; simpl in Hl.
  by destruct (execute (mk msg) st) as [s|]; [intros [= <- <-]|].
Qed.

#[export] Instance SafeStreamApi_ok : ApiClassOk St.
Proof.
  split; intros id st r st' r'; simpl; unfold safe_LoadFactory.
  assert (Hu : forall n (old : uint n) s, forward s (load old s).2)
    by (intros; apply load_uint_forward).
  assert (Hd : forall (old : list (uint 1)) s, forward s (load old s).2)
    by (intros; apply load_scalars_forward).
  repeat zcase; try done; apply Load_forward; intros; try done; try apply Hu;
    repeat apply pair_forward; done.
Qed.

(** Field values a message can carry. *)
Definition message_valid (m : SafeStreamMessage) : Prop :=
  match m with
  | MClose | MRequestReport => True
  | MPutReport o | MConfirm o | MRequestRepeat o => in_width 16 o
  | MSend o d => in_width 16 o /\ zlen d < kUpper /\ byte_list d
  | MRepeat n o d => in_width 16 n /\ in_width 16 o /\ zlen d < kUpper /\ byte_list d
  end.

Lemma Load_at {T} `{SerialOk T} mk (v : T) st pre post :
  valid v ->
  Load mk st (at_pos pre (save v) post kYes)
  = let* st' := execute (mk v) st in Defined (st', past pre (save v) post kYes).
Proof. intros Hv; unfold Load. by rewrite (load_save v pre post kYes Hv). Qed.

Lemma load_safe_message m st pre post :
  message_valid m ->
  LoadFactory (kMessageCode m) st (at_pos pre (message_body m) post kYes)
  = let* st' := execute m st in Defined (st', past pre (message_body m) post kYes).
Proof.
  destruct m; simpl; unfold safe_LoadFactory; simpl; intros Hv.
  - exact (Load_at (fun _ : unit => MClose) tt st pre post I).
  - exact (Load_at (fun _ : unit => MRequestReport) tt st pre post I).
  - exact (Load_at (T := offset_field) MPutReport offset st pre post Hv).
  - exact (Load_at (T := offset_field) MConfirm offset st pre post Hv).
  - exact (Load_at (T := offset_field) MRequestRepeat offset st pre post Hv).
  - exact (Load_at (T := send_fields) (fun '(o, d) => MSend o d) (offset, data) st pre post Hv).
  - refine (Load_at (T := repeat_fields) (fun '(n, (o, d)) => MRepeat n o d)
              (repeat_count, (offset, data)) st pre post Hv).
Qed.

(** The messages of a packet are executed in order. *)
Lemma Parse_safe_packet ms st :
  Forall message_valid ms ->
  Parse st (safe_packet ms)
  = Some (let* st' := execute_all execute ms st in
          Defined (st', past [] (safe_packet ms) [] kNo)).
Proof.
  intros Hv. apply (Parse_packed kMessageCode message_body message_valid execute); [| |done].
  - by destruct m.
  - intros; by apply load_safe_message.
Qed.
End Api.

Module SafeStreamApiProperties.

(** The messages packed into one packet are executed in order when the
    packet is parsed, and the whole packet is consumed. *)
Theorem safe_packet_roundtrip {St} (execute : SafeStreamMessage -> St -> outcome St) ms st :
  Forall message_valid ms ->
  Parse (H := SafeStreamApi execute) st (safe_packet ms)
  = Some (let* st' := execute_all execute ms st in
          Defined (st', Reader (safe_packet ms) (length (safe_packet ms))
                          (yes_if (safe_packet ms) kNo))).
Proof.
  intros Hv. rewrite Parse_safe_packet by done.
  destruct (execute_all execute ms st); [|done].
  unfold past; simpl. by rewrite app_nil_r.
Qed.

Lemma safe_packet_roundtrip_witness :
  exists r, Parse (H := SafeStreamApi (fun m st => Defined (st ++ [m]))) []
    (safe_packet [MConfirm 300; MRepeat 2 5 [9; 8]])
  = Some (Defined ([MConfirm 300; MRepeat 2 5 [9; 8]], r)).
Proof.
  eexists. refine (safe_packet_roundtrip (fun m st => Defined (st ++ [m]))
    [MConfirm 300; MRepeat 2 5 [9; 8]] [] _).
  repeat constructor; simpl; unfold in_width; lia.
Defined.

(** The parser of the safe stream stops on every input. *)
Theorem safe_parse_terminates {St} (execute : SafeStreamMessage -> St -> outcome St) st data :
  Parse (H := SafeStreamApi execute) st data <> None.
Proof. apply Parse_loop_total; simpl; lia. Qed.

(** A [Send] message whose data is cut short is executed all the same,
    with zeros in place of the announced number of bytes, and the bytes that
    did arrive are left to be parsed as further messages. *)
Theorem truncated_send_executed {St} (execute : SafeStreamMessage -> St -> outcome St) st o n rest :
  in_width 16 o -> 0 <= n < kUpper -> zlen rest < n ->
  let packet := le_bytes 2 o ++ packed_save n ++ rest in
  safe_LoadFactory execute 7 st (new_reader packet)
  = let* st' := execute (MSend o (replicate (Z.to_nat n) 0)) st in
    Defined (st', Reader packet (2 + length (packed_save n)) kNo).
Proof.
  intros Ho Hn Hr packet.
  assert (E1 : load_uint 2 0 (new_reader packet)
               = (o, at_pos (le_bytes 2 o) (packed_save n) rest kYes)).
  { change (new_reader packet) with (at_pos [] (le_bytes 2 o) (packed_save n ++ rest) kNo).
    rewrite load_uint_at by done. by rewrite past_at_pos. }
  assert (E2 : load_scalars 1 [] (at_pos (le_bytes 2 o) (packed_save n) rest kYes)
               = (replicate (Z.to_nat n) 0, Reader packet (2 + length (packed_save n)) kNo)).
  { unfold load_scalars. cbn [size_load size_packed]. rewrite packed_load_save by done.
    unfold data_was_read, past; cbn [result_]. rewrite yes_if_yes, resize_nil.
    unfold load_scalar_array. rewrite length_replicate, read_short; [done|].
    cbn [data_ offset_]. rewrite !length_app. unfold zlen in Hr. lia. }
  change (safe_LoadFactory execute 7 st (new_reader packet)) with
    (let '(msg, r') := (let '(a, r1) := load_uint 2 0 (new_reader packet) in
                        let '(b, r2) := load_scalars 1 [] r1 in ((a, b), r2)) in
     let* st' := execute (let '(o, d) := msg in MSend o d) st in Defined (st', r')).
  by rewrite E1, E2.
Qed.

Lemma truncated_send_executed_witness :
  safe_LoadFactory (fun m st => Defined (m :: st)) 7 [] (new_reader [16; 0; 3; 2])
  = Defined ([MSend 16 [0; 0; 0]], Reader [16; 0; 3; 2] 3 kNo).
Proof.
  refine (truncated_send_executed (fun m st => Defined (m :: st)) [] 16 3 [2] _ _ _);
    [zeval|rewrite kUpper_value; lia|zeval].
Defined.

End SafeStreamApiProperties.
