(* ===== verification/SafeStreamTypes.v ===== *)
(** * Data types of the safe stream ([aether/stream_api/safe_stream/])

    [safe_stream_types.h], [sending_data_action.*], [send_data_buffer.*] and
    [sending_chunk_list.*].  Offsets are [SafeStreamRingIndex] values.

    Reading through a reference to a destroyed list node and copying beyond
    the end of a vector are undefined behaviour in the code; the definitions
    return [Undefined] there. *)

From S2P Require Import Prelude RingIndex StateMachine.
Import SafeStreamRingIndex.

(** ** Offset ranges *)

Record OffsetRange := {
  begin : Z;
  end_ : Z;
  window_size : Z;
}.

Definition InRange (r : OffsetRange) (offset : Z) : bool :=
  (Distance (begin r) offset <=? window_size r)
  && (Distance offset (end_ r) <=? window_size r).

Definition Before (r : OffsetRange) (offset : Z) : bool :=
  window_size r <? Distance offset (end_ r).

Definition After (r : OffsetRange) (offset : Z) : bool :=
  window_size r <? Distance (begin r) offset.

Record SafeStreamConfig := {
  cfg_buffer_capacity : Z;
  cfg_window_size : Z;
  cfg_max_data_size : Z;
  cfg_wait_confirm_timeout : Duration;
  cfg_send_confirm_timeout : Duration;
  cfg_send_repeat_timeout : Duration;
  cfg_max_repeat_count : Z;
}.

(** ** Sending data actions *)

Record SendingData := {
  sd_offset : Z;
  sd_data : bytes;
}.

(** [get_offset_range]; the size of an empty buffer minus one wraps around. *)
Definition get_offset_range (d : SendingData) (window : Z) : OffsetRange :=
  {| begin := sd_offset d;
     end_ := add (sd_offset d) (wrap 16 (zlen (sd_data d) - 1));
     window_size := window |}.

Inductive SendingState := kWaiting | kSending | kDone | kStopped | kFailed.

#[export] Instance SendingState_eq_dec : EqDecision SendingState.
Proof. solve_decision. Defined.

(** [SendingDataAction]; [action_id] is the identity of the object. *)
Record SendingDataAction := {
  action_id : nat;
  sending_data : SendingData;
  sda_state : StateMachine SendingState;
}.

Definition new_sending_action (id : nat) (d : SendingData) : SendingDataAction :=
  {| action_id := id; sending_data := d; sda_state := SM.make kWaiting |}.

Definition set_sending_state (st : SendingState) (a : SendingDataAction) : SendingDataAction :=
  {| action_id := action_id a; sending_data := sending_data a;
     sda_state := SM.set st (sda_state a) |}.

Definition Sending : SendingDataAction -> SendingDataAction := set_sending_state kSending.
Definition SentConfirmed : SendingDataAction -> SendingDataAction := set_sending_state kDone.
Definition Stopped : SendingDataAction -> SendingDataAction := set_sending_state kStopped.
Definition Failed : SendingDataAction -> SendingDataAction := set_sending_state kFailed.

(** What the subscribers of a finished action see. *)
Inductive ActionOutcome := Result | Stop | Error.

(** [SendingDataAction::Update]. *)
Definition sda_update (a : SendingDataAction) : SendingDataAction * option ActionOutcome :=
  if changed_ (sda_state a)
  then
    let '(st, m) := SM.Acquire (sda_state a) in
    ({| action_id := action_id a; sending_data := sending_data a; sda_state := m |},
     match st with
     | kWaiting | kSending => None
     | kDone => Some Result
     | kStopped => Some Stop
     | kFailed => Some Error
     end)
  else (a, None).

(** [SendingDataAction::Stop]: whether [stop_event] is emitted. *)
Definition sda_stop (a : SendingDataAction) : bool :=
  match state_ (sda_state a) with
  | kSending => false
  | _ => true
  end.

(** ** Send data buffer *)

(** [send_action_views_] and [buffer_size_], with the actions that left the
    buffer and wait for their [Update]. *)
Record SendDataBuffer := {
  sdb_window_size : Z;
  send_action_views_ : list SendingDataAction;
  resolved_ : list SendingDataAction;
  buffer_size_ : Z;
  next_action_id : nat;
}.

Definition new_send_data_buffer (window : Z) : SendDataBuffer :=
  {| sdb_window_size := window; send_action_views_ := []; resolved_ := [];
     buffer_size_ := 0; next_action_id := 0 |}.

Definition AddData (d : SendingData) (b : SendDataBuffer) : SendDataBuffer * nat :=
  ({| sdb_window_size := sdb_window_size b;
      send_action_views_ :=
        send_action_views_ b ++ [new_sending_action (next_action_id b) d];
      resolved_ := resolved_ b;
      buffer_size_ := buffer_size_ b + zlen (sd_data d);
      next_action_id := S (next_action_id b) |}, next_action_id b).

(** The loop of [GetSlice] from the action found: the actions marked as
    sending and the bytes copied. *)
Fixpoint slice_loop (views : list SendingDataAction) (current_offset remaining : Z)
  : outcome (list SendingDataAction * bytes) :=
  match views with
  | [] => Defined ([], [])
  | a :: rest =>
      let a := Sending a in
      let d := sending_data a in
      let dist := Distance (sd_offset d) current_offset in
      if zlen (sd_data d) <? dist then Undefined
      else
        let data_size := Z.min (zlen (sd_data d) - dist) remaining in
        let part := take (Z.to_nat data_size) (drop (Z.to_nat dist) (sd_data d)) in
        let remaining := remaining - data_size in
        if remaining =? 0 then Defined (a :: rest, part)
        else
          let* (rest', more) :=
            slice_loop rest (Clockwise current_offset (wrap 16 data_size)) remaining in
          Defined (a :: rest', part ++ more)
  end.

Definition holds_offset (window offset : Z) (a : SendingDataAction) : bool :=
  InRange (get_offset_range (sending_data a) window) offset.

(** [std::find_if]: the elements before the first match, and those from it. *)
Fixpoint split_at {A} (p : A -> bool) (l : list A) : list A * list A :=
  match l with
  | [] => ([], [])
  | x :: r => if p x then ([], l) else let '(a, b) := split_at p r in (x :: a, b)
  end.

Definition with_views (b : SendDataBuffer) (v : list SendingDataAction) : SendDataBuffer :=
  {| sdb_window_size := sdb_window_size b; send_action_views_ := v;
     resolved_ := resolved_ b; buffer_size_ := buffer_size_ b;
     next_action_id := next_action_id b |}.

Definition GetSlice (offset max_size : Z) (b : SendDataBuffer)
  : outcome (SendDataBuffer * bytes) :=
  let '(skipped, rest) :=
    split_at (holds_offset (sdb_window_size b) offset) (send_action_views_ b) in
  let* (rest', data) := slice_loop rest offset max_size in
  Defined (with_views b (skipped ++ rest'), data).

Definition data_total (views : list SendingDataAction) : Z :=
  foldr (fun a n => zlen (sd_data (sending_data a)) + n) 0 views.

(** [remove_if] of [Confirm], [Reject] and [Stop]: the actions selected leave
    the buffer and are resolved. *)
Definition resolve_if (p : SendingDataAction -> bool)
  (done : SendingDataAction -> SendingDataAction) (b : SendDataBuffer) : SendDataBuffer :=
  let removed := List.filter p (send_action_views_ b) in
  {| sdb_window_size := sdb_window_size b;
     send_action_views_ := List.filter (fun a => negb (p a)) (send_action_views_ b);
     resolved_ := resolved_ b ++ map done removed;
     buffer_size_ := buffer_size_ b - data_total removed;
     next_action_id := next_action_id b |}.

Definition before_offset (window offset : Z) (a : SendingDataAction) : bool :=
  Before (get_offset_range (sending_data a) window) offset.

Definition upto_offset (window offset : Z) (a : SendingDataAction) : bool :=
  before_offset window offset a || holds_offset window offset a.

Definition buffer_confirm (offset : Z) (b : SendDataBuffer) : SendDataBuffer :=
  resolve_if (before_offset (sdb_window_size b) offset) SentConfirmed b.

Definition buffer_reject (offset : Z) (b : SendDataBuffer) : SendDataBuffer :=
  resolve_if (upto_offset (sdb_window_size b) offset) Failed b.

Definition buffer_stop (offset : Z) (b : SendDataBuffer) : SendDataBuffer :=
  resolve_if (upto_offset (sdb_window_size b) offset) Stopped b.

(** ** Sending chunk list *)

(** A list node of [std::list<SendingChunk>]; [node] is its address. *)
Record SendingChunk := {
  node : nat;
  begin_offset : Z;
  end_offset : Z;
  repeat_count : Z;
  send_time : TimePoint;
}.

Record SendingChunkList := {
  scl_window_size : Z;
  chunks_ : list SendingChunk;
  next_node : nat;
}.

Definition new_chunk_list (window : Z) : SendingChunkList :=
  {| scl_window_size := window; chunks_ := []; next_node := 0 |}.

(** Access through a reference to a node. *)
Definition deref (n : nat) (l : SendingChunkList) : outcome SendingChunk :=
  match List.find (fun c => Nat.eqb (node c) n) (chunks_ l) with
  | Some c => Defined c
  | None => Undefined
  end.

Definition with_chunks (l : SendingChunkList) (cs : list SendingChunk) : SendingChunkList :=
  {| scl_window_size := scl_window_size l; chunks_ := cs; next_node := next_node l |}.

(** Assignment to [repeat_count] through a reference. *)
Definition set_repeat (n : nat) (rc : Z) (l : SendingChunkList) : SendingChunkList :=
  with_chunks l (map (fun c =>
    if Nat.eqb (node c) n
    then {| node := node c; begin_offset := begin_offset c; end_offset := end_offset c;
            repeat_count := rc; send_time := send_time c |}
    else c) (chunks_ l)).

(** The [remove_if] of [Register] over the older chunks: what is left of
    them, and the [repeat_count] of the new chunk.  [sch] is a reference to the
    first chunk found; it is read for every chunk that overlaps, also ([kept] is
    false) after that chunk was removed. *)
Fixpoint trim_overlaps (r : OffsetRange) (sch : SendingChunk) (kept : bool) (rc : Z)
    (cs : list SendingChunk) : outcome (list SendingChunk * Z) :=
  match cs with
  | [] => Defined ([], rc)
  | c :: cs' =>
      if InRange r (begin_offset c)
      then
        if negb kept then Undefined else
        let rc := Z.min (repeat_count sch) (repeat_count c) in
        if InRange r (end_offset c)
        then trim_overlaps r sch (negb (Nat.eqb (node c) (node sch))) rc cs'
        else
          let* (cs'', rc') := trim_overlaps r sch kept rc cs' in
          Defined ({| node := node c; begin_offset := add (end_ r) 1; end_offset := end_offset c;
                      repeat_count := repeat_count c; send_time := send_time c |} :: cs'', rc')
      else if InRange r (end_offset c)
      then
        if negb kept then Undefined else
        let rc := Z.min (repeat_count sch) (repeat_count c) in
        let* (cs'', rc') := trim_overlaps r sch kept rc cs' in
        Defined ({| node := node c; begin_offset := begin_offset c; end_offset := sub (begin r) 1;
                    repeat_count := repeat_count c; send_time := send_time c |} :: cs'', rc')
      else
        let* (cs'', rc') := trim_overlaps r sch kept rc cs' in Defined (c :: cs'', rc')
  end.

(** [Register]: the list, and the node of the returned reference. *)
Definition Register (b e : Z) (time : TimePoint) (l : SendingChunkList)
  : outcome (SendingChunkList * nat) :=
  let r := {| begin := b; end_ := e; window_size := scl_window_size l |} in
  let fresh (rc : Z) := {| node := next_node l; begin_offset := b; end_offset := e;
                           repeat_count := rc; send_time := time |} in
  match split_at (fun c => InRange r (begin_offset c)) (chunks_ l) with
  | (_, []) =>
      Defined ({| scl_window_size := scl_window_size l; chunks_ := chunks_ l ++ [fresh 0];
                  next_node := S (next_node l) |}, next_node l)
  | (pre, sch :: post) =>
      if (b =? begin_offset sch) && (e =? end_offset sch)
      then
        Defined (with_chunks l (pre ++ post ++
           [{| node := node sch; begin_offset := begin_offset sch;
               end_offset := end_offset sch; repeat_count := repeat_count sch;
               send_time := time |}]), node sch)
      else
        let* (cs, rc) := trim_overlaps r sch true (repeat_count sch) (chunks_ l) in
        Defined ({| scl_window_size := scl_window_size l; chunks_ := cs ++ [fresh rc];
                    next_node := S (next_node l) |}, next_node l)
  end.

(** [RemoveUpTo]. *)
Fixpoint remove_upto (window offset : Z) (cs : list SendingChunk) : list SendingChunk :=
  match cs with
  | [] => []
  | c :: cs' =>
      let r := {| begin := begin_offset c; end_ := end_offset c; window_size := window |} in
      if Before r offset then remove_upto window offset cs'
      else if InRange r offset
      then
        if offset =? end_offset c then remove_upto window offset cs'
        else {| node := node c; begin_offset := offset; end_offset := end_offset c;
                repeat_count := repeat_count c; send_time := send_time c |}
             :: remove_upto window offset cs'
      else c :: remove_upto window offset cs'
  end.

Definition RemoveUpTo (offset : Z) (l : SendingChunkList) : SendingChunkList :=
  with_chunks l (remove_upto (scl_window_size l) offset (chunks_ l)).

(** ** Offsets before the wrap point

    While no offset has passed [max] the ring operations are integer
    operations; the lemmas below are the arithmetic the proofs about the safe
    stream use. *)

Lemma ok_range v : ok v <-> 0 <= v <= 65535.
Proof. done. Qed.

Lemma Distance_cases v o :
  ok v -> ok o ->
  v <= o /\ Distance v o = o - v \/ o < v /\ Distance v o = 65535 - (v - o).
Proof.
  unfold ok, Ring.ring_ok, max, Distance; intros.
  destruct (Z.le_gt_cases v o).
  - left; split; [done|]. apply Ring.Distance_forward; unfold max; lia.
  - right; split; [done|]. apply Ring.Distance_backward; unfold max; lia.
Qed.

Ltac distance v o :=
  let H := fresh "Hd" in
  let a := fresh "Ha" in let b := fresh "Hb" in
  assert (a : ok v) by (apply ok_range; lia);
  assert (b : ok o) by (apply ok_range; lia);
  pose proof (Distance_cases v o a b) as H; clear a b; cbn beta in H.

Lemma Clockwise_small v k :
  0 <= v -> 0 <= k < 65535 -> v + k <= 65535 -> Clockwise v k = v + k.
Proof. intros; apply Ring.Clockwise_linear; unfold max; lia. Qed.

Lemma add_small v k :
  0 <= v -> 0 <= k < 65535 -> v + k <= 65535 -> add v k = v + k.
Proof. intros; apply Ring.add_linear; unfold max; lia. Qed.

Lemma sub_small v k : 0 <= k <= v -> k < 65535 -> v <= 65535 -> sub v k = v - k.
Proof. intros; apply Ring.sub_linear; unfold max; lia. Qed.

Lemma add_ok v k : ok v -> ok (add v k).
Proof.
  unfold add, Ring.add, ok; intros; zcase; [|done].
  apply Ring.Clockwise_ok; [unfold max; lia | done].
Qed.

Lemma sub_ok v k : ok v -> ok (sub v k).
Proof.
  unfold sub, Ring.sub, ok; intros; zcase; [|done].
  apply Ring.CounterClockwise_ok; [unfold max; lia | done].
Qed.

(** A range whose window is less than half of the ring. *)
Record range_ok (r : OffsetRange) : Prop := {
  range_order : 0 <= begin r <= end_ r;
  range_max : end_ r <= 65535;
  range_window : 0 <= window_size r /\ 2 * window_size r < 65535;
}.

Lemma InRange_inside r o : range_ok r -> ok o -> InRange r o = true -> begin r <= o <= end_ r.
Proof.
  intros [Ho Hm Hw] Hok; unfold InRange; intros; zbool. rewrite ok_range in Hok.
  distance (begin r) o. distance o (end_ r). lia.
Qed.

(** A range no longer than the window contains exactly its offsets. *)
Lemma InRange_spec r o :
  range_ok r -> end_ r - begin r <= window_size r -> ok o ->
  InRange r o = (begin r <=? o) && (o <=? end_ r).
Proof.
  intros Hr Hs Hok. pose proof (InRange_inside r o Hr Hok) as Hin.
  destruct Hr as [Ho Hm Hw]. rewrite ok_range in Hok.
  destruct ((begin r <=? o) && (o <=? end_ r)) eqn:E; zbool.
  - unfold InRange. distance (begin r) o. distance o (end_ r).
    apply andb_true_iff; split; apply Z.leb_le; lia.
  - destruct (InRange r o) eqn:E'; [|done]. specialize (Hin eq_refl).
    rewrite (proj2 (Z.leb_le _ _)), (proj2 (Z.leb_le _ _)) in E by lia. done.
Qed.

(** [Before] also answers true for a range whose end is more than a window
    ahead of the offset. *)
Lemma Before_spec r o :
  range_ok r -> ok o -> o + window_size r < 65535 ->
  Before r o = (end_ r <? o) || (window_size r <? end_ r - o).
Proof.
  intros [Ho Hm Hw] Hok Hb; unfold Before. rewrite ok_range in Hok.
  distance o (end_ r).
  destruct (window_size r <? Distance o (end_ r)) eqn:E; zbool; symmetry.
  - apply orb_true_iff. destruct (Z.lt_ge_cases (end_ r) o); [left|right]; apply Z.ltb_lt; lia.
  - apply orb_false_iff; split; apply Z.ltb_ge; lia.
Qed.

(** ** Slices of the written stream *)

(** [d] is the part of [stream] at [off]. *)
Record slice_of (stream : bytes) (off : Z) (d : bytes) : Prop := {
  slice_off : 0 <= off;
  slice_end : off + zlen d <= zlen stream;
  slice_eq : d = Prelude.sub (Z.to_nat off) (length d) stream;
}.

Lemma slice_of_app stream more off d :
  slice_of stream off d -> slice_of (stream ++ more) off d.
Proof.
  intros [H0 He Hd]; split; [done|rewrite zlen_app; pose proof (zlen_nonneg more); lia|].
  rewrite sub_app_inside; [done|]. unfold zlen in He; lia.
Qed.

Lemma slice_of_take stream off d k :
  slice_of stream off d -> slice_of stream off (take k d).
Proof.
  intros [H0 He Hd]; split; [done|unfold zlen in *; rewrite length_take; lia|].
  rewrite Hd at 1. rewrite length_take. destruct (decide (k <= length d)%nat).
  - rewrite sub_take, Nat.min_l by lia. done.
  - rewrite Nat.min_r by lia. rewrite <- Hd, take_ge by lia. done.
Qed.

Lemma slice_of_join stream off d e :
  slice_of stream off d -> slice_of stream (off + zlen d) e -> slice_of stream off (d ++ e).
Proof.
  intros [H0 He Hd] [H0' He' Hd']; split; [done|rewrite zlen_app; lia|].
  rewrite length_app, <- sub_app_split. f_equal; [done|].
  rewrite Hd' at 1. f_equal. unfold zlen; lia.
Qed.

Lemma slice_of_inside stream off d i n :
  slice_of stream off d -> (i + n <= length d)%nat ->
  slice_of stream (off + Z.of_nat i) (take n (drop i d)).
Proof.
  intros [H0 He Hd] Hi.
  assert (Hl : length (take n (drop i d)) = n) by (rewrite length_take, length_drop; lia).
  split; [lia|unfold zlen in *; lia|]. rewrite Hl.
  rewrite Hd, sub_drop, sub_take by lia. f_equal; lia.
Qed.

Lemma slice_of_nil stream off : 0 <= off <= zlen stream -> slice_of stream off [].
Proof. intros; split; [lia|unfold zlen in *; simpl; lia|by rewrite sub_nil]. Qed.

Definition view_ok (stream : bytes) (a : SendingDataAction) : Prop :=
  slice_of stream (sd_offset (sending_data a)) (sd_data (sending_data a)) /\
  sd_data (sending_data a) <> [].

Lemma zlen_pos {A} (l : list A) : l <> [] -> 0 < zlen l.
Proof. destruct l; [done|]. unfold zlen; simpl; lia. Qed.

Lemma view_range_end stream a window :
  view_ok stream a -> zlen stream <= 65535 ->
  end_ (get_offset_range (sending_data a) window)
  = sd_offset (sending_data a) + zlen (sd_data (sending_data a)) - 1.
Proof.
  intros [[H0 He _] Hne] Hs. apply zlen_pos in Hne. simpl.
  rewrite wrap_small by (unfold in_width; lia). rewrite add_small; lia.
Qed.

(** ** [GetSlice] *)

(** The bytes copied are the part of the stream at the offset. *)
Lemma slice_loop_spec stream views : forall cur rem views' d,
  Forall (view_ok stream) views -> zlen stream <= 65535 ->
  0 <= cur <= zlen stream -> 0 <= rem <= 65535 ->
  slice_loop views cur rem = Defined (views', d) ->
  slice_of stream cur d /\ zlen d <= rem /\ map sending_data views' = map sending_data views.
Proof.
  induction views as [|a views IH]; intros cur rem views' d Hv Hs Hc Hr; cbn [slice_loop].
  { intros [= <- <-]. split; [by apply slice_of_nil|]. split; [unfold zlen; simpl; lia|done]. }
  inversion Hv as [|? ? Ha Hvs]; subst.
  set (data := sd_data (sending_data (Sending a))).
  set (off := sd_offset (sending_data (Sending a))).
  destruct (zlen data <? Distance off cur) eqn:Hlt; [done|zbool].
  destruct Ha as [Hsl Hne]. change (slice_of stream off data) in Hsl.
  pose proof Hsl as [H0 He Hd].
  set (n := Z.min (zlen data - Distance off cur) rem).
  pose proof (zlen_nonneg data).
  distance off cur.
  assert (Hn : 0 <= n <= rem) by (unfold n; lia).
  set (part := take (Z.to_nat n) (drop (Z.to_nat (Distance off cur)) data)).
  assert (Hpart : slice_of stream cur part /\ zlen part = n).
  { destruct Hd0 as [[Hle HD]|[Hgt HD]].
    - replace cur with (off + Z.of_nat (Z.to_nat (Distance off cur))) at 1 by lia.
      split; [apply slice_of_inside; [done|unfold zlen in *; lia]|].
      unfold part, zlen; rewrite length_take, length_drop. unfold n, zlen in *; lia.
    - assert (n = 0) as Hn0 by (unfold n; lia). unfold part; rewrite Hn0.
      split; [by apply slice_of_nil|done]. }
  destruct Hpart as [Hps Hpl].
  destruct (rem - n =? 0) eqn:Hz; zbool.
  - intros [= <- <-]. split; [done|]. split; [lia|done].
  - destruct (slice_loop views _ _) as [[vs more]|] eqn:Hrec; [|done].
    intros [= <- <-].
    destruct Hps as [Hp0 Hpe Hpq].
    rewrite wrap_small in Hrec by (unfold in_width; lia).
    rewrite Clockwise_small in Hrec by lia.
    apply IH in Hrec as (Hm & Hl & Hmap); [|done|done|lia|lia].
    split; [|split; [rewrite zlen_app; lia|simpl; by rewrite Hmap]].
    apply slice_of_join; [by split|]. by rewrite Hpl.
Qed.

Lemma split_at_app {A} (p : A -> bool) l a b : split_at p l = (a, b) -> l = a ++ b.
Proof.
  revert a b; induction l as [|x l IH]; simpl; intros a b; [by intros [= <- <-]|].
  destruct (p x); [by intros [= <- <-]|]. destruct (split_at p l) as [c d].
  intros [= <- <-]. simpl; f_equal; by apply IH.
Qed.

Lemma split_at_hit {A} (p : A -> bool) l a x b :
  split_at p l = (a, x :: b) -> p x = true /\ Forall (fun y => p y = false) a.
Proof.
  revert a b; induction l as [|y l IH]; simpl; intros a b; [done|].
  destruct (p y) eqn:E; [by intros [= <- <- <-]|]. destruct (split_at p l) as [c d].
  intros [= <- ->]. destruct (IH c b eq_refl); auto.
Qed.

Lemma GetSlice_spec stream off max b b' d :
  Forall (view_ok stream) (send_action_views_ b) -> zlen stream <= 65535 ->
  0 <= off <= zlen stream -> 0 <= max <= 65535 ->
  GetSlice off max b = Defined (b', d) ->
  slice_of stream off d /\ zlen d <= max /\ buffer_size_ b' = buffer_size_ b /\
  sdb_window_size b' = sdb_window_size b /\
  map sending_data (send_action_views_ b') = map sending_data (send_action_views_ b).
Proof.
  intros Hv Hs Ho Hm; unfold GetSlice.
  destruct (split_at _ _) as [pre rest] eqn:E. apply split_at_app in E.
  destruct (slice_loop rest off max) as [[rest' data]|] eqn:El; [|done].
  intros [= <- <-]. rewrite E in Hv. apply Forall_app in Hv as [_ Hv].
  destruct (slice_loop_spec stream rest off max rest' data Hv Hs Ho Hm El) as (? & ? & ?).
  simpl. rewrite E, !map_app. split_and!; congruence || done.
Qed.

(** ** Invariant of the chunk list *)

(** A chunk in flight covers bytes of a stream of [n] bytes. *)
Record chunk_ok (n : Z) (c : SendingChunk) : Prop := {
  chunk_order : 0 <= begin_offset c <= end_offset c;
  chunk_end : end_offset c < n;
  chunk_repeat : in_width 16 (repeat_count c);
}.

Definition chunk_list_ok (n : Z) (l : SendingChunkList) : Prop :=
  Forall (chunk_ok n) (chunks_ l).

Lemma chunk_ok_mono n m c : n <= m -> chunk_ok n c -> chunk_ok m c.
Proof. intros ? [? ? ?]; split; done || lia. Qed.

Lemma chunk_list_ok_mono n m l : n <= m -> chunk_list_ok n l -> chunk_list_ok m l.
Proof. intros ?; apply Forall_impl. intros c; by apply chunk_ok_mono. Qed.

Lemma trim_overlaps_ok n r sch cs : forall kept rc cs' rc',
  range_ok r -> end_ r - begin r <= window_size r -> end_ r < n -> n <= 65535 ->
  in_width 16 (repeat_count sch) -> in_width 16 rc -> Forall (chunk_ok n) cs ->
  trim_overlaps r sch kept rc cs = Defined (cs', rc') ->
  Forall (chunk_ok n) cs' /\ in_width 16 rc'.
Proof.
  induction cs as [|c cs IH]; intros kept rc cs' rc' Hr Hs He Hn Hsr Hrc Hcs; cbn [trim_overlaps];
    [by intros [= <- <-]|].
  inversion Hcs as [|? ? [Ho Hc Hw] Hcs']; subst.
  rewrite !(InRange_spec r) by (done || apply ok_range; lia).
  pose proof (range_order r Hr).
  assert (Hmin : in_width 16 (Z.min (repeat_count sch) (repeat_count c))) by (unfold in_width in *; lia).
  assert (IHs : forall k rc0 cs0 rc0', in_width 16 rc0 -> trim_overlaps r sch k rc0 cs = Defined (cs0, rc0') ->
            Forall (chunk_ok n) cs0 /\ in_width 16 rc0') by (intros; by eapply IH).
  destruct (_ && _) eqn:E1.
  - destruct (negb kept); [done|].
    destruct ((begin r <=? end_offset c) && _) eqn:E2; [by apply IHs|].
    destruct (trim_overlaps r sch _ _ cs) as [[cs'' rc'']|] eqn:E; [|done].
    apply IHs in E as [? ?]; [|done]. intros [= <- <-].
    zbool. apply andb_false_iff in E2 as [E2|E2]; zbool; [lia|].
    split; [|done]. constructor; [|done]. split; simpl; try rewrite add_small; done || lia.
  - destruct ((begin r <=? end_offset c) && _) eqn:E2; [destruct (negb kept); [done|]|];
      destruct (trim_overlaps r sch _ _ cs) as [[cs'' rc'']|] eqn:E; try done;
      apply IHs in E as [? ?]; try done; intros [= <- <-]; (split; [|done]); (constructor; [|done]);
      [|by split].
    zbool. apply andb_false_iff in E1 as [E1|E1]; zbool; [|lia].
    split; simpl; try rewrite sub_small; done || lia.
Qed.

Lemma Register_ok n b e time l l' nd :
  chunk_list_ok n l -> 0 <= b <= e -> e < n -> n <= 65535 ->
  e - b <= scl_window_size l -> 2 * scl_window_size l < 65535 ->
  Register b e time l = Defined (l', nd) -> chunk_list_ok n l'.
Proof.
  intros Hl Hb He Hn Hw Hw2; unfold Register, chunk_list_ok in *.
  set (r := {| begin := b; end_ := e; window_size := scl_window_size l |}).
  assert (Hr : range_ok r) by (split; simpl; lia).
  destruct (split_at _ _) as [pre [|sch post]] eqn:E.
  { intros [= <- <-]. apply Forall_app; split; [done|].
    apply Forall_singleton; split; simpl; done || lia. }
  apply split_at_app in E.
  assert (Hsch : chunk_ok n sch).
  { rewrite E in Hl. apply Forall_app in Hl as [_ H2]. by inversion H2. }
  destruct Hsch as [? ? ?].
  zcase.
  - intros [= <- <-]. rewrite E in Hl. apply Forall_app in Hl as [H1 H2]. inversion H2; subst.
    simpl. rewrite !Forall_app; split_and!; [done..|]. by apply Forall_singleton; split.
  - destruct (trim_overlaps _ _ _ _ _) as [[cs rc]|] eqn:Et; [|done]. intros [= <- <-].
    apply (trim_overlaps_ok n) in Et as [Ht1 Ht2]; try done.
    apply Forall_app; split; [done|]. by apply Forall_singleton; split.
Qed.

Lemma RemoveUpTo_ok n offset l :
  chunk_list_ok n l -> ok offset -> n <= 65535 ->
  0 <= scl_window_size l -> 2 * scl_window_size l < 65535 ->
  chunk_list_ok n (RemoveUpTo offset l).
Proof.
  intros Hl Hok Hn Hw Hw2; unfold RemoveUpTo, chunk_list_ok in *; simpl.
  induction Hl as [|c cs [Ho Hc Hr] Hcs IH]; cbn [remove_upto]; [done|].
  set (r := {| begin := begin_offset c; end_ := end_offset c;
               window_size := scl_window_size l |}).
  destruct (Before r offset); [done|].
  destruct (InRange r offset) eqn:E; [|by constructor; [split|]].
  apply InRange_inside in E; [|split; simpl; lia|done]. simpl in E.
  zcase; [done|]. constructor; [|done]. split; simpl; done || lia.
Qed.

(** ** Invariant of the send buffer *)

Record buffer_ok (stream : bytes) (b : SendDataBuffer) : Prop := {
  buffer_views : Forall (view_ok stream) (send_action_views_ b);
  buffer_total : buffer_size_ b = data_total (send_action_views_ b);
}.

Lemma view_ok_app stream more a : view_ok stream a -> view_ok (stream ++ more) a.
Proof. intros [? ?]; split; [by apply slice_of_app|done]. Qed.

Lemma data_total_app a b : data_total (a ++ b) = data_total a + data_total b.
Proof. unfold data_total; induction a; simpl; lia. Qed.

Lemma data_total_filter p views :
  data_total (List.filter (fun a => negb (p a)) views)
  = data_total views - data_total (List.filter p views).
Proof.
  unfold data_total; induction views as [|a views IH]; simpl; [lia|].
  destruct (p a); simpl; lia.
Qed.

Lemma data_total_nonneg views : 0 <= data_total views.
Proof.
  unfold data_total; induction views; simpl; [lia|].
  pose proof (zlen_nonneg (sd_data (sending_data a))); lia.
Qed.

Lemma data_total_map v v' : map sending_data v = map sending_data v' -> data_total v = data_total v'.
Proof.
  unfold data_total. revert v'; induction v as [|a v IH]; intros [|a' v']; try done.
  simpl; intros [= Ha Hv]. rewrite Ha, (IH v'); done.
Qed.

Lemma view_ok_map stream v v' :
  map sending_data v = map sending_data v' ->
  Forall (view_ok stream) v' -> Forall (view_ok stream) v.
Proof.
  revert v'; induction v as [|a v IH]; intros [|a' v']; try done.
  simpl; intros [= Ha Hv]; inversion 1; subst. constructor; [|by apply (IH v')].
  unfold view_ok in *; by rewrite Ha.
Qed.

Lemma resolve_if_ok stream p done b :
  buffer_ok stream b -> buffer_ok stream (resolve_if p done b).
Proof.
  intros [Hv Ht]; split; simpl.
  - rewrite List.Forall_forall in *. intros a Ha. apply List.filter_In in Ha as [Ha _]. auto.
  - rewrite data_total_filter. lia.
Qed.

Lemma GetSlice_ok stream off max b b' d :
  buffer_ok stream b -> zlen stream <= 65535 ->
  0 <= off <= zlen stream -> 0 <= max <= 65535 ->
  GetSlice off max b = Defined (b', d) ->
  buffer_ok stream b' /\ slice_of stream off d /\ zlen d <= max.
Proof.
  intros [Hv Ht] Hs Ho Hm H. destruct (GetSlice_spec _ _ _ _ _ _ Hv Hs Ho Hm H)
    as (Hd & Hl & Hb & _ & Hmap).
  split; [|done]. split; [by apply (view_ok_map _ _ _ Hmap)|].
  rewrite Hb, Ht. by rewrite (data_total_map _ _ Hmap).
Qed.
