(* ===== verification/SafeStreamSending.v ===== *)
(** * The sending half of the safe stream ([safe_stream_sending.*])

    [SafeStreamSendingAction] cuts the written data into chunks of at most
    [max_data_size_] bytes, keeps the chunks in flight inside a window and
    repeats them until they are confirmed.  What it writes to the lower gate
    is the list of [SafeStreamApi] messages its handlers return. *)

From S2P Require Import Prelude RingIndex StateMachine SafeStreamApi SafeStreamTypes.
Import SafeStreamRingIndex.

Record SafeStreamSendingAction := {
  buffer_capacity_ : Z;
  window_size_ : Z;
  max_repeat_count_ : Z;
  wait_confirm_timeout_ : Duration;
  max_data_size_ : Z;
  send_data_buffer_ : SendDataBuffer;
  sending_chunks_ : SendingChunkList;
  last_confirmed_ : Z;
  next_to_add_ : Z;
  last_sent_offset_ : Z;
}.

Definition new_sending (c : SafeStreamConfig) : SafeStreamSendingAction :=
  {| buffer_capacity_ := cfg_buffer_capacity c;
     window_size_ := cfg_window_size c;
     max_repeat_count_ := cfg_max_repeat_count c;
     wait_confirm_timeout_ := cfg_wait_confirm_timeout c;
     max_data_size_ := 0;
     send_data_buffer_ := new_send_data_buffer (cfg_window_size c);
     sending_chunks_ := new_chunk_list (cfg_window_size c);
     last_confirmed_ := 0;
     next_to_add_ := 0;
     last_sent_offset_ := 0 |}.

(** Field updates. *)
Definition upd_buffer (b : SendDataBuffer) (s : SafeStreamSendingAction) : SafeStreamSendingAction :=
  {| buffer_capacity_ := buffer_capacity_ s; window_size_ := window_size_ s;
     max_repeat_count_ := max_repeat_count_ s;
     wait_confirm_timeout_ := wait_confirm_timeout_ s; max_data_size_ := max_data_size_ s;
     send_data_buffer_ := b; sending_chunks_ := sending_chunks_ s;
     last_confirmed_ := last_confirmed_ s; next_to_add_ := next_to_add_ s;
     last_sent_offset_ := last_sent_offset_ s |}.

Definition upd_chunks (l : SendingChunkList) (s : SafeStreamSendingAction) : SafeStreamSendingAction :=
  {| buffer_capacity_ := buffer_capacity_ s; window_size_ := window_size_ s;
     max_repeat_count_ := max_repeat_count_ s;
     wait_confirm_timeout_ := wait_confirm_timeout_ s; max_data_size_ := max_data_size_ s;
     send_data_buffer_ := send_data_buffer_ s; sending_chunks_ := l;
     last_confirmed_ := last_confirmed_ s; next_to_add_ := next_to_add_ s;
     last_sent_offset_ := last_sent_offset_ s |}.

Definition upd_offsets (confirmed next sent : Z) (s : SafeStreamSendingAction)
  : SafeStreamSendingAction :=
  {| buffer_capacity_ := buffer_capacity_ s; window_size_ := window_size_ s;
     max_repeat_count_ := max_repeat_count_ s;
     wait_confirm_timeout_ := wait_confirm_timeout_ s; max_data_size_ := max_data_size_ s;
     send_data_buffer_ := send_data_buffer_ s; sending_chunks_ := sending_chunks_ s;
     last_confirmed_ := confirmed; next_to_add_ := next; last_sent_offset_ := sent |}.

Definition set_max_data_size (size : Z) (s : SafeStreamSendingAction) : SafeStreamSendingAction :=
  {| buffer_capacity_ := buffer_capacity_ s; window_size_ := window_size_ s;
     max_repeat_count_ := max_repeat_count_ s;
     wait_confirm_timeout_ := wait_confirm_timeout_ s; max_data_size_ := wrap 16 size;
     send_data_buffer_ := send_data_buffer_ s; sending_chunks_ := sending_chunks_ s;
     last_confirmed_ := last_confirmed_ s; next_to_add_ := next_to_add_ s;
     last_sent_offset_ := last_sent_offset_ s |}.

(** [SendData(DataBuffer)]: the identity of the action, or none when the
    buffer is full. *)
Definition SendData (data : bytes) (s : SafeStreamSendingAction)
  : SafeStreamSendingAction * option nat :=
  if buffer_capacity_ s <? buffer_size_ (send_data_buffer_ s) + zlen data
  then (s, None)
  else
    let d := {| sd_offset := next_to_add_ s; sd_data := data |} in
    let next := add (end_ (get_offset_range d (window_size_ s))) 1 in
    let '(b, id) := AddData d (send_data_buffer_ s) in
    (upd_offsets (last_confirmed_ s) next (last_sent_offset_ s) (upd_buffer b s), Some id).

(** [Confirm] with [ConfirmDataChunks]. *)
Definition Confirm (offset : Z) (s : SafeStreamSendingAction) : SafeStreamSendingAction :=
  if Distance (last_confirmed_ s) offset <=? window_size_ s
  then
    let s := upd_chunks (RemoveUpTo offset (sending_chunks_ s)) s in
    let s := upd_buffer (buffer_confirm offset (send_data_buffer_ s)) s in
    upd_offsets (add offset 1) (next_to_add_ s) (last_sent_offset_ s) s
  else s.

Definition RequestRepeatSend (offset : Z) (s : SafeStreamSendingAction) : SafeStreamSendingAction :=
  upd_offsets (last_confirmed_ s) (next_to_add_ s) offset s.

(** [ReportWriteStopped] and [ReportWriteError]. *)
Definition ReportWriteError (offset : Z) (s : SafeStreamSendingAction) : SafeStreamSendingAction :=
  let s := upd_chunks (RemoveUpTo offset (sending_chunks_ s)) s in
  upd_buffer (buffer_reject offset (send_data_buffer_ s)) s.

Definition StopSending (offset : Z) (s : SafeStreamSendingAction) : SafeStreamSendingAction :=
  let s := upd_chunks (RemoveUpTo offset (sending_chunks_ s)) s in
  upd_buffer (buffer_stop offset (send_data_buffer_ s)) s.

(** [SendingDataAction::Stop] of the action [id] in the buffer: the stop event
    was subscribed with the offset of its data. *)
Definition StopAction (id : nat) (s : SafeStreamSendingAction) : SafeStreamSendingAction :=
  match List.find (fun a => Nat.eqb (action_id a) id)
          (send_action_views_ (send_data_buffer_ s)) with
  | Some a => if sda_stop a then StopSending (sd_offset (sending_data a)) s else s
  | None => s
  end.

(** [HandleTimeouts]: the state and the time of the next update. *)
Definition HandleTimeouts (now : TimePoint) (s : SafeStreamSendingAction)
  : SafeStreamSendingAction * TimePoint :=
  match chunks_ (sending_chunks_ s) with
  | [] => (s, now)
  | sch :: _ =>
      if send_time sch + wait_confirm_timeout_ s <? now
      then (upd_offsets (last_confirmed_ s) (next_to_add_ s) (begin_offset sch) s, now)
      else (s, send_time sch + wait_confirm_timeout_ s)
  end.

(** [SendData(TimePoint)], with [SendFirst] and [SendRepeat]: the state and
    the messages written.  [send_chunk] is a reference to a list node. *)
Definition SendDataChunk (now : TimePoint) (s : SafeStreamSendingAction)
  : outcome (SafeStreamSendingAction * list SafeStreamMessage) :=
  if window_size_ s <? Distance (last_confirmed_ s) (add (last_sent_offset_ s) (max_data_size_ s))
  then Defined (s, [])
  else
    let offset := last_sent_offset_ s in
    let* (b, data) := GetSlice offset (max_data_size_ s) (send_data_buffer_ s) in
    let s := upd_buffer b s in
    match data with
    | [] => Defined (s, [])
    | _ =>
        let s := upd_offsets (last_confirmed_ s) (next_to_add_ s)
                   (Clockwise (last_sent_offset_ s) (wrap 16 (zlen data))) s in
        let* (l, send_chunk) :=
          Register offset (add offset (wrap 16 (zlen data - 1))) now (sending_chunks_ s) in
        let s := upd_chunks l s in
        let* ch := deref send_chunk (sending_chunks_ s) in
        if repeat_count ch =? 0
        then
          Defined (upd_chunks (set_repeat send_chunk (wrap 16 (repeat_count ch + 1))
                                 (sending_chunks_ s)) s,
                   [MSend offset data])
        else if max_repeat_count_ s <? repeat_count ch
        then
          let s := upd_chunks (RemoveUpTo (end_offset ch) (sending_chunks_ s)) s in
          let* ch' := deref send_chunk (sending_chunks_ s) in
          Defined (upd_buffer (buffer_reject (end_offset ch') (send_data_buffer_ s)) s, [])
        else
          Defined (upd_chunks (set_repeat send_chunk (wrap 16 (repeat_count ch + 1))
                                 (sending_chunks_ s)) s,
                   [MRepeat (repeat_count ch) offset data])
    end.

(** [Update]. *)
Definition sending_update (now : TimePoint) (s : SafeStreamSendingAction)
  : outcome (SafeStreamSendingAction * list SafeStreamMessage * TimePoint) :=
  let '(s, new_time) := HandleTimeouts now s in
  if negb (max_data_size_ s =? 0)
  then let* (s, out) := SendDataChunk now s in Defined (s, out, new_time)
  else Defined (s, [], new_time).

(** ** Invariant

    [stream] is the concatenation of the data accepted by [SendData]. *)

Record sender_ok (stream : bytes) (s : SafeStreamSendingAction) : Prop := {
  so_buffer : buffer_ok stream (send_data_buffer_ s);
  so_chunks : chunk_list_ok (zlen stream) (sending_chunks_ s);
  so_next : next_to_add_ s = zlen stream;
  so_last : 0 <= last_sent_offset_ s <= zlen stream;
  so_sdb_window : sdb_window_size (send_data_buffer_ s) = window_size_ s;
  so_scl_window : scl_window_size (sending_chunks_ s) = window_size_ s;
  so_window : 0 <= window_size_ s /\ 2 * window_size_ s < 65535;
  so_max : 0 <= max_data_size_ s <= window_size_ s;
  so_capacity : buffer_size_ (send_data_buffer_ s) <= buffer_capacity_ s;
}.

(** A data message carries the part of the stream at its offset. *)
Definition data_message_ok (stream : bytes) (m : SafeStreamMessage) : Prop :=
  match m with
  | MSend offset data =>
      slice_of stream offset data /\ data <> [] /\ 2 * zlen data < 65535
  | MRepeat repeat_count offset data =>
      in_width 16 repeat_count /\
      slice_of stream offset data /\ data <> [] /\ 2 * zlen data < 65535
  | _ => False
  end.

Lemma data_message_ok_app stream more m :
  data_message_ok stream m -> data_message_ok (stream ++ more) m.
Proof. destruct m; simpl; try done; intros; destruct_and!; split_and!; try done; by apply slice_of_app. Qed.

Lemma new_sending_ok c :
  0 <= cfg_window_size c -> 2 * cfg_window_size c < 65535 -> 0 <= cfg_buffer_capacity c ->
  sender_ok [] (new_sending c).
Proof.
  intros; split; simpl; try done; try (unfold zlen; simpl; lia).
  constructor.
Qed.

Lemma set_max_data_size_ok stream size s :
  0 <= size <= window_size_ s -> sender_ok stream s ->
  sender_ok stream (set_max_data_size size s).
Proof.
  intros Hs [? ? ? ? ? ? ? ? ?]; split; simpl; try done.
  rewrite wrap_small; [done|unfold in_width; lia].
Qed.

Lemma SendData_ok stream data s s' r :
  sender_ok stream s -> data <> [] -> zlen stream + zlen data <= 65535 ->
  SendData data s = (s', r) ->
  sender_ok (match r with Some _ => stream ++ data | None => stream end) s'.
Proof.
  intros Hok Hne Hlen; unfold SendData. zcase; [by intros [= <- <-]|].
  intros [= <- <-]. destruct Hok as [[Hv Ht] Hc Hn Hl Hw1 Hw2 Hw Hm Hcap].
  pose proof (zlen_pos _ Hne) as Hpos.
  set (d := {| sd_offset := next_to_add_ s; sd_data := data |}).
  assert (Hview : view_ok (stream ++ data) (new_sending_action
                     (next_action_id (send_data_buffer_ s)) d)).
  { split; [|done]. simpl. rewrite Hn. split.
    - apply zlen_nonneg.
    - rewrite zlen_app; lia.
    - unfold zlen; rewrite Nat2Z.id. rewrite <- (app_nil_r (stream ++ data)), <- app_assoc.
      by rewrite sub_at_length. }
  split; simpl; try done; try (rewrite zlen_app; lia); try lia.
  - split; simpl.
    + apply Forall_app; split; [|by apply Forall_singleton].
      eapply Forall_impl; [|exact Hv]. intros; by apply view_ok_app.
    + rewrite data_total_app, Ht. unfold data_total at 3. simpl. lia.
  - eapply chunk_list_ok_mono; [|exact Hc]. rewrite zlen_app; lia.
  - rewrite wrap_small by (unfold in_width; pose proof (zlen_nonneg stream); lia).
    pose proof (zlen_nonneg stream). rewrite Hn, zlen_app. rewrite !add_small; rewrite ?add_small; lia.
Qed.

(** The three ways data leaves the buffer keep the invariant. *)
Lemma resolve_ok stream offset p done s :
  sender_ok stream s -> ok offset -> zlen stream <= 65535 ->
  sender_ok stream (upd_buffer (resolve_if p done (send_data_buffer_ s))
                      (upd_chunks (RemoveUpTo offset (sending_chunks_ s)) s)).
Proof.
  intros [Hb Hc Hn Hl Hw1 Hw2 Hw Hm Hcap] Hok Hlen; split; simpl; try done.
  - by apply resolve_if_ok.
  - apply RemoveUpTo_ok; try done; lia.
  - pose proof (data_total_nonneg (List.filter p (send_action_views_ (send_data_buffer_ s)))). lia.
Qed.

Lemma upd_offsets_ok stream confirmed sent s :
  sender_ok stream s -> 0 <= sent <= zlen stream ->
  sender_ok stream (upd_offsets confirmed (next_to_add_ s) sent s).
Proof. intros [? ? ? ? ? ? ? ? ?] ?; by split. Qed.

Lemma Confirm_ok stream offset s :
  sender_ok stream s -> ok offset -> zlen stream <= 65535 -> sender_ok stream (Confirm offset s).
Proof.
  intros Hs Hok Hlen; unfold Confirm; zcase; [|done].
  pose proof (resolve_ok stream offset (before_offset (window_size_ s) offset) SentConfirmed s Hs Hok Hlen) as H.
  unfold buffer_confirm; simpl. rewrite (so_sdb_window _ _ Hs).
  apply (upd_offsets_ok stream (add offset 1) (last_sent_offset_ s) _ H), Hs.
Qed.

Lemma RequestRepeatSend_ok stream offset s :
  sender_ok stream s -> 0 <= offset <= zlen stream ->
  sender_ok stream (RequestRepeatSend offset s).
Proof. intros; by apply upd_offsets_ok. Qed.

Lemma ReportWriteError_ok stream offset s :
  sender_ok stream s -> ok offset -> zlen stream <= 65535 ->
  sender_ok stream (ReportWriteError offset s).
Proof.
  apply (resolve_ok stream offset
           (upto_offset (sdb_window_size (send_data_buffer_ s)) offset) Failed s).
Qed.

Lemma StopSending_ok stream offset s :
  sender_ok stream s -> ok offset -> zlen stream <= 65535 ->
  sender_ok stream (StopSending offset s).
Proof.
  apply (resolve_ok stream offset
           (upto_offset (sdb_window_size (send_data_buffer_ s)) offset) Stopped s).
Qed.

Lemma StopAction_ok stream id s :
  sender_ok stream s -> zlen stream <= 65535 -> sender_ok stream (StopAction id s).
Proof.
  intros Hs Hlen; unfold StopAction. destruct (List.find _ _) as [a|] eqn:E; [|done].
  destruct (sda_stop a); [|done]. apply List.find_some in E as [Hin _].
  pose proof (buffer_views _ _ (so_buffer _ _ Hs)) as Hv.
  rewrite List.Forall_forall in Hv. destruct (Hv a Hin) as [[H0 He _] _].
  pose proof (zlen_nonneg (sd_data (sending_data a))).
  apply StopSending_ok; try done. apply ok_range; lia.
Qed.

Lemma HandleTimeouts_ok stream now s :
  sender_ok stream s -> sender_ok stream (HandleTimeouts now s).1.
Proof.
  intros Hs; unfold HandleTimeouts. pose proof (so_chunks _ _ Hs) as Hc. unfold chunk_list_ok in Hc.
  destruct (chunks_ (sending_chunks_ s)) as [|c cs]; [done|].
  inversion Hc as [|? ? [? ? ?] ?]; subst. zcase; [|done]. simpl. apply upd_offsets_ok; [done|lia].
Qed.

Lemma upd_buffer_ok stream b s :
  sender_ok stream s -> buffer_ok stream b -> buffer_size_ b <= buffer_size_ (send_data_buffer_ s) ->
  sdb_window_size b = sdb_window_size (send_data_buffer_ s) -> sender_ok stream (upd_buffer b s).
Proof. intros [? ? ? ? ? ? ? ? ?] ? ? ?; split; simpl; try done; congruence || lia. Qed.

Lemma upd_chunks_ok stream l s :
  sender_ok stream s -> chunk_list_ok (zlen stream) l ->
  scl_window_size l = window_size_ s -> sender_ok stream (upd_chunks l s).
Proof. intros [? ? ? ? ? ? ? ? ?] ? ?; by split. Qed.

Lemma set_repeat_ok n node rc l :
  in_width 16 rc -> chunk_list_ok n l -> chunk_list_ok n (set_repeat node rc l).
Proof.
  unfold chunk_list_ok, set_repeat; simpl. intros Hrc H; apply List.Forall_map.
  eapply Forall_impl; [|exact H]. intros c [? ? ?]. by destruct (Nat.eqb _ _).
Qed.

Lemma Register_window b e time l l' nd :
  Register b e time l = Defined (l', nd) -> scl_window_size l' = scl_window_size l.
Proof.
  unfold Register. destruct (split_at _ _) as [pre [|sch post]]; [by intros [= <- <-]|].
  zcase; [by intros [= <- <-]|].
  destruct (trim_overlaps _ _ _ _ _) as [[cs rc]|]; [|done]. by intros [= <- <-].
Qed.

(** The chunk taken from the buffer is registered and sent. *)
Lemma send_chunk_ok stream now offset data s l nd :
  sender_ok stream s -> zlen stream <= 65535 -> data <> [] ->
  slice_of stream offset data -> zlen data <= max_data_size_ s ->
  Register offset (add offset (wrap 16 (zlen data - 1))) now (sending_chunks_ s) = Defined (l, nd) ->
  sender_ok stream
    (upd_chunks l
       (upd_offsets (last_confirmed_ s) (next_to_add_ s)
          (Clockwise offset (wrap 16 (zlen data))) s)).
Proof.
  intros Hs Hlen Hne [H0 He Hd] Hm. apply zlen_pos in Hne.
  destruct (so_window _ _ Hs), (so_max _ _ Hs).
  rewrite !wrap_small by (unfold in_width; lia).
  rewrite add_small by lia. rewrite Clockwise_small by lia. intros Hreg.
  apply upd_chunks_ok.
  - apply upd_offsets_ok; [done|lia].
  - apply (Register_ok _ _ _ _ _ _ _) with (7 := Hreg);
      try (by apply Hs); rewrite ?(so_scl_window _ _ Hs); lia.
  - rewrite (Register_window _ _ _ _ _ _ Hreg). by rewrite (so_scl_window _ _ Hs).
Qed.

Lemma deref_ok n node l c : chunk_list_ok n l -> deref node l = Defined c -> chunk_ok n c.
Proof.
  unfold deref, chunk_list_ok; intros H. destruct (List.find _ _) eqn:E; [|done].
  intros [= <-]. apply List.find_some in E as [E _].
  rewrite List.Forall_forall in H; auto.
Qed.

Lemma SendDataChunk_ok stream now s s' out :
  sender_ok stream s -> zlen stream <= 65535 -> SendDataChunk now s = Defined (s', out) ->
  sender_ok stream s' /\ Forall (data_message_ok stream) out.
Proof.
  intros Hs Hlen; unfold SendDataChunk. zcase; [by intros [= <- <-]|].
  destruct (GetSlice _ _ _) as [[b data]|] eqn:Eg; [|done].
  pose proof (so_last _ _ Hs) as Hlast. destruct (so_window _ _ Hs), (so_max _ _ Hs).
  pose proof (GetSlice_spec stream _ (max_data_size_ s) _ _ _ (buffer_views _ _ (so_buffer _ _ Hs)) Hlen Hlast
                ltac:(lia) Eg) as (_ & _ & Hbs & Hbw & _).
  apply (GetSlice_ok stream) in Eg as (Hb & Hsl & Hm); [|apply Hs|done|done|lia].
  assert (Hs1 : sender_ok stream (upd_buffer b s)) by (apply upd_buffer_ok; try done; lia).
  destruct data as [|x data']; [by intros [= <- <-]|].
  set (data := x :: data') in *.
  simpl. destruct (Register _ _ _ _) as [[l node]|] eqn:Er; [|done].
  pose proof (send_chunk_ok stream now (last_sent_offset_ s) data _ l node Hs1 Hlen
                ltac:(done) Hsl Hm Er) as Hreg. simpl in Hreg |- *.
  set (s2 := upd_chunks l _) in *.
  destruct (deref node l) as [ch|] eqn:Ed; [|done].
  assert (Hmsg : slice_of stream (last_sent_offset_ s) data /\ data <> [] /\ 2 * zlen data < 65535)
    by (split_and!; try done; lia).
  pose proof (deref_ok (zlen stream) node l ch (so_chunks _ _ Hreg) Ed) as [Hc1 Hc2 Hc3].
  assert (Hset : forall n rc, sender_ok stream (upd_chunks (set_repeat n (wrap 16 rc) l) s2)).
  { intros; apply upd_chunks_ok; [done| |apply (so_scl_window _ _ Hreg)].
    apply set_repeat_ok; [by apply in_width_wrap|apply (so_chunks _ _ Hreg)]. }
  zcase; [intros [= <- <-]; split; [apply Hset|by apply Forall_singleton]|].
  zcase; [|intros [= <- <-]; split; [apply Hset|by apply Forall_singleton]].
  destruct (deref node (RemoveUpTo _ l)) as [ch'|] eqn:Ed'; [|done].
  intros [= <- <-]. split; [|done].
  apply (resolve_ok stream (end_offset ch)
           (upto_offset (sdb_window_size b) (end_offset ch')) Failed s2); try done.
  apply ok_range; lia.
Qed.

Lemma sending_update_ok stream now s s' out t :
  sender_ok stream s -> zlen stream <= 65535 -> sending_update now s = Defined (s', out, t) ->
  sender_ok stream s' /\ Forall (data_message_ok stream) out.
Proof.
  intros Hs Hlen; unfold sending_update.
  pose proof (HandleTimeouts_ok stream now s Hs) as Hh.
  destruct (HandleTimeouts now s) as [s1 t1]; simpl in Hh. zcase; [|by intros [= <- <- <-]].
  destruct (SendDataChunk now s1) as [[s2 out2]|] eqn:E; [|done].
  intros [= <- <- <-]. by apply (SendDataChunk_ok stream) in E.
Qed.
