(* ===== verification/SafeStreamReceiving.v ===== *)
(** * The receiving half of the safe stream ([safe_stream_receiving.*])

    [SafeStreamReceivingAction] keeps the received chunks in offset order,
    emits the data of the chain that starts at [last_confirmed_offset_],
    confirms it and asks for the chunks that are missing. *)

From S2P Require Import Prelude RingIndex SafeStreamApi SafeStreamTypes.
Import SafeStreamRingIndex.

Record ReceivingChunk := {
  rc_offset : Z;
  rc_data : bytes;
}.

Record ExpectedChunk := {
  ex_offset : Z;
  ex_repeat_count : Z;
}.

Record SafeStreamReceivingAction := {
  rv_window_size : Z;
  rv_max_repeat_count : Z;
  send_confirm_timeout_ : Duration;
  send_repeat_timeout_ : Duration;
  last_send_confirm_time_ : TimePoint;
  oldest_repeat_time_ : TimePoint;
  last_confirmed_offset_ : Z;
  received_data_chunks_ : list ReceivingChunk;
  expected_chunks_ : list ExpectedChunk;
  repeat_queue_ : list Z;
  confirmation_queue_ : list Z;
  repeat_count_exceeded_ : bool;
}.

Definition new_receiving (c : SafeStreamConfig) : SafeStreamReceivingAction :=
  {| rv_window_size := cfg_window_size c;
     rv_max_repeat_count := cfg_max_repeat_count c;
     send_confirm_timeout_ := cfg_send_confirm_timeout c;
     send_repeat_timeout_ := cfg_send_repeat_timeout c;
     last_send_confirm_time_ := 0; oldest_repeat_time_ := 0;
     last_confirmed_offset_ := 0;
     received_data_chunks_ := []; expected_chunks_ := [];
     repeat_queue_ := []; confirmation_queue_ := [];
     repeat_count_exceeded_ := false |}.

(** Field updates. *)
Definition upd_received (cs : list ReceivingChunk) (ex : list ExpectedChunk)
  (r : SafeStreamReceivingAction) : SafeStreamReceivingAction :=
  {| rv_window_size := rv_window_size r; rv_max_repeat_count := rv_max_repeat_count r;
     send_confirm_timeout_ := send_confirm_timeout_ r;
     send_repeat_timeout_ := send_repeat_timeout_ r;
     last_send_confirm_time_ := last_send_confirm_time_ r;
     oldest_repeat_time_ := oldest_repeat_time_ r;
     last_confirmed_offset_ := last_confirmed_offset_ r;
     received_data_chunks_ := cs; expected_chunks_ := ex;
     repeat_queue_ := repeat_queue_ r; confirmation_queue_ := confirmation_queue_ r;
     repeat_count_exceeded_ := repeat_count_exceeded_ r |}.

Definition upd_queues (rep conf : list Z) (exceeded : bool)
  (r : SafeStreamReceivingAction) : SafeStreamReceivingAction :=
  {| rv_window_size := rv_window_size r; rv_max_repeat_count := rv_max_repeat_count r;
     send_confirm_timeout_ := send_confirm_timeout_ r;
     send_repeat_timeout_ := send_repeat_timeout_ r;
     last_send_confirm_time_ := last_send_confirm_time_ r;
     oldest_repeat_time_ := oldest_repeat_time_ r;
     last_confirmed_offset_ := last_confirmed_offset_ r;
     received_data_chunks_ := received_data_chunks_ r; expected_chunks_ := expected_chunks_ r;
     repeat_queue_ := rep; confirmation_queue_ := conf;
     repeat_count_exceeded_ := exceeded |}.

Definition upd_times (confirm repeat : TimePoint) (confirmed : Z)
  (r : SafeStreamReceivingAction) : SafeStreamReceivingAction :=
  {| rv_window_size := rv_window_size r; rv_max_repeat_count := rv_max_repeat_count r;
     send_confirm_timeout_ := send_confirm_timeout_ r;
     send_repeat_timeout_ := send_repeat_timeout_ r;
     last_send_confirm_time_ := confirm; oldest_repeat_time_ := repeat;
     last_confirmed_offset_ := confirmed;
     received_data_chunks_ := received_data_chunks_ r; expected_chunks_ := expected_chunks_ r;
     repeat_queue_ := repeat_queue_ r; confirmation_queue_ := confirmation_queue_ r;
     repeat_count_exceeded_ := repeat_count_exceeded_ r |}.

Definition AddToConfirmationQueue (offset : Z) (r : SafeStreamReceivingAction)
  : SafeStreamReceivingAction :=
  upd_queues (repeat_queue_ r) (confirmation_queue_ r ++ [offset])
    (repeat_count_exceeded_ r) r.

Definition AddToRepeatQueue (offset : Z) (r : SafeStreamReceivingAction)
  : SafeStreamReceivingAction :=
  upd_queues (repeat_queue_ r ++ [offset]) (confirmation_queue_ r)
    (repeat_count_exceeded_ r) r.

(** [expected_chunks_.erase] of the first entry with an offset. *)
Fixpoint erase_expected (offset : Z) (ex : list ExpectedChunk) : list ExpectedChunk :=
  match ex with
  | [] => []
  | e :: ex' => if ex_offset e =? offset then ex' else e :: erase_expected offset ex'
  end.

(** [AddDataChunk]. *)
Definition AddDataChunk (chunk : ReceivingChunk) (r : SafeStreamReceivingAction)
  : outcome SafeStreamReceivingAction :=
  let not_after ch := Distance (rc_offset chunk) (rc_offset ch) <=? rv_window_size r in
  match split_at not_after (received_data_chunks_ r) with
  | (_, []) =>
      Defined (upd_received (received_data_chunks_ r ++ [chunk]) (expected_chunks_ r) r)
  | (pre, it :: post) =>
      if rc_offset chunk =? rc_offset it then Defined r
      else
        let overlap_size :=
          Distance (rc_offset it) (add (rc_offset chunk) (wrap 16 (zlen (rc_data chunk)))) in
        let ex := erase_expected (rc_offset chunk) (expected_chunks_ r) in
        if (0 <? overlap_size) && (overlap_size <=? rv_window_size r)
        then
          let keep := Distance (rc_offset chunk) (rc_offset it) in
          if zlen (rc_data chunk) <? keep then Undefined
          else
            let cut := {| rc_offset := rc_offset chunk;
                          rc_data := take (Z.to_nat keep) (rc_data chunk) |} in
            Defined (upd_received (pre ++ cut :: it :: post) ex r)
        else Defined (upd_received (pre ++ chunk :: it :: post) ex r)
  end.

(** [ReceiveSend]. *)
Definition ReceiveSend (offset : Z) (data : bytes) (r : SafeStreamReceivingAction)
  : outcome SafeStreamReceivingAction :=
  if rv_window_size r <=? Distance (last_confirmed_offset_ r) offset
  then Defined r
  else AddDataChunk {| rc_offset := offset; rc_data := data |} r.

(** [ReceiveRepeat]: a chunk that is already confirmed is confirmed again. *)
Definition ReceiveRepeat (offset : Z) (data : bytes) (r : SafeStreamReceivingAction)
  : outcome SafeStreamReceivingAction :=
  if rv_window_size r <=? Distance (last_confirmed_offset_ r) offset
  then Defined (AddToConfirmationQueue (add offset (wrap 16 (zlen data - 1))) r)
  else AddDataChunk {| rc_offset := offset; rc_data := data |} r.

(** The chain of [CheckCompletedChains]: its chunks, the others and the
    offset after it. *)
Fixpoint chain (next : Z) (cs : list ReceivingChunk)
  : list ReceivingChunk * list ReceivingChunk * Z :=
  match cs with
  | [] => ([], [], next)
  | c :: cs' =>
      if next =? rc_offset c
      then let '(done, rest, n) := chain (add (rc_offset c) (wrap 16 (zlen (rc_data c)))) cs'
           in (c :: done, rest, n)
      else ([], cs, next)
  end.

Definition JoinChunks (cs : list ReceivingChunk) : bytes := cs ≫= rc_data.

(** [CheckCompletedChains]: the state, the data of [receive_event] if any, and
    the time returned. *)
Definition CheckCompletedChains (now : TimePoint) (r : SafeStreamReceivingAction)
  : SafeStreamReceivingAction * list bytes * TimePoint :=
  if now <? last_send_confirm_time_ r + send_confirm_timeout_ r
  then (r, [], last_send_confirm_time_ r + send_confirm_timeout_ r)
  else
    let '(done, rest, next) := chain (last_confirmed_offset_ r) (received_data_chunks_ r) in
    let data := JoinChunks done in
    let emitted := match data with [] => [] | _ => [data] end in
    let r := upd_received rest (expected_chunks_ r) r in
    if negb (next =? last_confirmed_offset_ r)
    then (upd_times now (oldest_repeat_time_ r) next (AddToConfirmationQueue (sub next 1) r),
          emitted, now)
    else (r, emitted, now).

(** Increment of [repeat_count] of the first entry with an offset. *)
Fixpoint bump_expected (offset : Z) (ex : list ExpectedChunk) : list ExpectedChunk * option Z :=
  match ex with
  | [] => ([], None)
  | e :: ex' =>
      if ex_offset e =? offset
      then
        let n := wrap 16 (ex_repeat_count e + 1) in
        ({| ex_offset := ex_offset e; ex_repeat_count := n |} :: ex', Some n)
      else let '(ex'', n) := bump_expected offset ex' in (e :: ex'', n)
  end.

Definition AddExpectedChunk (offset : Z) (r : SafeStreamReceivingAction)
  : SafeStreamReceivingAction :=
  match bump_expected offset (expected_chunks_ r) with
  | (ex, Some n) =>
      let r := upd_received (received_data_chunks_ r) ex r in
      if rv_max_repeat_count r <? n
      then upd_queues (repeat_queue_ r) (confirmation_queue_ r) true r
      else AddToRepeatQueue offset r
  | (ex, None) =>
      AddToRepeatQueue offset
        (upd_received (received_data_chunks_ r)
           (ex ++ [{| ex_offset := offset; ex_repeat_count := 0 |}]) r)
  end.

(** The loop of [CheckMissedOffset]. *)
Fixpoint missed_loop (next : Z) (cs : list ReceivingChunk) (r : SafeStreamReceivingAction)
  : SafeStreamReceivingAction :=
  match cs with
  | [] => r
  | c :: cs' =>
      let r := if negb (rc_offset c =? next) then AddExpectedChunk next r else r in
      missed_loop (add (rc_offset c) (wrap 16 (zlen (rc_data c)))) cs' r
  end.

Definition CheckMissedOffset (now : TimePoint) (r : SafeStreamReceivingAction)
  : SafeStreamReceivingAction * TimePoint :=
  if now <? oldest_repeat_time_ r + send_repeat_timeout_ r
  then (r, oldest_repeat_time_ r + send_repeat_timeout_ r)
  else
    let r := missed_loop (last_confirmed_offset_ r) (received_data_chunks_ r) r in
    (upd_times (last_send_confirm_time_ r) now (last_confirmed_offset_ r) r, now).

Definition CheckChunkChains (now : TimePoint) (r : SafeStreamReceivingAction)
  : SafeStreamReceivingAction * list bytes * TimePoint :=
  let '(r, emitted, conf_time) := CheckCompletedChains now r in
  let '(r, rep_time) := CheckMissedOffset now r in
  (r, emitted, Z.min conf_time rep_time).

(** [MakeResponse]: the messages of the packet. *)
Definition MakeResponse (r : SafeStreamReceivingAction)
  : SafeStreamReceivingAction * list SafeStreamMessage :=
  (upd_queues [] [] (repeat_count_exceeded_ r) r,
   map MConfirm (confirmation_queue_ r) ++ map MRequestRepeat (repeat_queue_ r)).

(** [Update]: the state, the data emitted, the messages written, whether the
    error event is raised, and the time of the next update. *)
Definition receiving_update (now : TimePoint) (r : SafeStreamReceivingAction)
  : SafeStreamReceivingAction * list bytes * list SafeStreamMessage * bool * TimePoint :=
  let '(r, emitted, new_time) := CheckChunkChains now r in
  if repeat_count_exceeded_ r
  then (upd_queues [] (confirmation_queue_ r) false r, emitted, [], true, new_time)
  else let '(r, out) := MakeResponse r in (r, emitted, out, false, new_time).

(** ** Invariant

    [stream] is what the other side has written, [delivered] the data given to
    [receive_event] so far. *)

Definition received_ok (stream : bytes) (c : ReceivingChunk) : Prop :=
  slice_of stream (rc_offset c) (rc_data c) /\ 2 * zlen (rc_data c) < 65535.

Record receiver_ok (stream delivered : bytes) (r : SafeStreamReceivingAction) : Prop := {
  ro_confirmed : last_confirmed_offset_ r = zlen delivered;
  ro_delivered : exists rest, stream = delivered ++ rest;
  ro_chunks : Forall (received_ok stream) (received_data_chunks_ r);
  ro_repeat : Forall (fun o => 0 <= o <= zlen stream) (repeat_queue_ r);
  ro_confirm : Forall ok (confirmation_queue_ r);
}.

Lemma new_receiving_ok stream c : receiver_ok stream [] (new_receiving c).
Proof. split; simpl; try done; [by exists stream|constructor..]. Qed.

Lemma receiver_ok_app stream more delivered r :
  receiver_ok stream delivered r -> receiver_ok (stream ++ more) delivered r.
Proof.
  intros [Hc [rest ->] Hch Hr Hcq]; split; try done.
  - exists (rest ++ more). by rewrite app_assoc.
  - eapply Forall_impl; [|exact Hch]. intros c [? ?]; split; [by apply slice_of_app|done].
  - eapply Forall_impl; [|exact Hr]. intros o; cbv beta. rewrite !zlen_app.
    pose proof (zlen_nonneg more). lia.
Qed.

Lemma confirmed_range stream delivered r :
  receiver_ok stream delivered r -> 0 <= last_confirmed_offset_ r <= zlen stream.
Proof.
  intros [-> [rest ->] _ _ _]. rewrite zlen_app.
  pose proof (zlen_nonneg delivered); pose proof (zlen_nonneg rest); lia.
Qed.

(** A chunk ends inside the stream. *)
Lemma chunk_after stream c :
  received_ok stream c -> zlen stream <= 65535 ->
  add (rc_offset c) (wrap 16 (zlen (rc_data c))) = rc_offset c + zlen (rc_data c).
Proof.
  intros [[H0 He _] Hl] Hs. pose proof (zlen_nonneg (rc_data c)).
  rewrite wrap_small by (unfold in_width; lia). apply add_small; lia.
Qed.

Lemma upd_received_ok stream delivered cs ex r :
  receiver_ok stream delivered r -> Forall (received_ok stream) cs ->
  receiver_ok stream delivered (upd_received cs ex r).
Proof. intros [? ? ? ? ?] ?; by split. Qed.

Lemma AddDataChunk_ok stream delivered c r r' :
  receiver_ok stream delivered r -> received_ok stream c ->
  AddDataChunk c r = Defined r' -> receiver_ok stream delivered r'.
Proof.
  intros Hr Hc; unfold AddDataChunk. pose proof (ro_chunks _ _ _ Hr) as Hcs.
  destruct (split_at _ _) as [pre [|it post]] eqn:E.
  - intros [= <-]. apply upd_received_ok; [done|].
    apply Forall_app; split; [done|by apply Forall_singleton].
  - zcase; [by intros [= <-]|]. apply split_at_app in E. rewrite E in Hcs.
    apply Forall_app in Hcs as [Hpre Hpost].
    zcase; [zcase; [done|]|]; intros [= <-]; (apply upd_received_ok; [done|]);
      (apply Forall_app; split; [done|]); (constructor; [|done]); [|done].
    destruct Hc as [Hc Hl]; split; simpl; [by apply slice_of_take|].
    unfold zlen in *; rewrite length_take; lia.
Qed.

Lemma upd_queues_ok stream delivered rep conf ex r :
  receiver_ok stream delivered r -> Forall (fun o => 0 <= o <= zlen stream) rep ->
  Forall ok conf -> receiver_ok stream delivered (upd_queues rep conf ex r).
Proof. intros [? ? ? ? ?] ? ?; by split. Qed.

Lemma confirm_queued stream delivered r o :
  receiver_ok stream delivered r -> ok o -> Forall ok (confirmation_queue_ r ++ [o]).
Proof. intros Hr Ho; apply Forall_app; split; [apply Hr|by apply Forall_singleton]. Qed.

Lemma Receive_ok stream delivered offset data r r' :
  receiver_ok stream delivered r -> slice_of stream offset data -> 2 * zlen data < 65535 ->
  ok offset ->
  ReceiveSend offset data r = Defined r' \/ ReceiveRepeat offset data r = Defined r' ->
  receiver_ok stream delivered r'.
Proof.
  intros Hr Hs Hl Ho. unfold ReceiveSend, ReceiveRepeat. zcase; intros [H|H].
  - by injection H as <-.
  - injection H as <-. apply upd_queues_ok; [done|apply Hr|].
    eapply confirm_queued; [done|by apply add_ok].
  - eapply AddDataChunk_ok; [done| |done]. by split.
  - eapply AddDataChunk_ok; [done| |done]. by split.
Qed.

Lemma JoinChunks_cons c cs : JoinChunks (c :: cs) = rc_data c ++ JoinChunks cs.
Proof. done. Qed.

(** The chain starting at [next] is the part of the stream from there. *)
Lemma chain_ok stream cs : forall next done rest n,
  Forall (received_ok stream) cs -> zlen stream <= 65535 -> 0 <= next <= zlen stream ->
  chain next cs = (done, rest, n) ->
  slice_of stream next (JoinChunks done) /\ n = next + zlen (JoinChunks done) /\
  Forall (received_ok stream) rest.
Proof.
  induction cs as [|c cs IH]; cbn [chain]; intros next done rest n Hcs Hs Hn.
  { intros [= <- <- <-]. split_and!; [by apply slice_of_nil|change (zlen (JoinChunks [])) with 0; lia|done]. }
  inversion Hcs as [|? ? Hc Hcs']; subst. zcase.
  - rewrite (chunk_after stream) by done.
    destruct (chain _ cs) as [[done' rest'] n'] eqn:E. intros [= <- <- <-].
    destruct Hc as [Hc Hl]. pose proof Hc as [H0 He Hd].
    pose proof (zlen_nonneg (rc_data c)).
    apply IH in E as (Hj & -> & Hrest); [|done|done|lia].
    rewrite JoinChunks_cons, zlen_app. subst next. split_and!; [|lia|done].
    by apply slice_of_join.
  - intros [= <- <- <-]. split_and!; [by apply slice_of_nil|change (zlen (JoinChunks [])) with 0; lia|done].
Qed.

Lemma slice_extends stream delivered d :
  (exists rest, stream = delivered ++ rest) -> slice_of stream (zlen delivered) d ->
  exists rest, stream = (delivered ++ d) ++ rest.
Proof.
  intros [rest ->] [H0 He Hd]. exists (drop (length d) rest). rewrite <- app_assoc. f_equal.
  unfold zlen, Prelude.sub in Hd. rewrite Nat2Z.id, drop_app_length in Hd.
  rewrite Hd at 1. by rewrite take_drop.
Qed.

Lemma JoinChunks_emitted d : concat (match d with [] => [] | _ => [d] end) = (d : bytes).
Proof. destruct d; [done|]. simpl. by rewrite app_nil_r. Qed.

Lemma CheckCompletedChains_ok stream delivered now r r' out t :
  receiver_ok stream delivered r -> zlen stream <= 65535 ->
  CheckCompletedChains now r = (r', out, t) -> receiver_ok stream (delivered ++ concat out) r'.
Proof.
  intros Hr Hs; unfold CheckCompletedChains. zcase.
  { intros [= <- <- <-]. by rewrite app_nil_r. }
  destruct (chain _ _) as [[done rest] n] eqn:E.
  pose proof (confirmed_range _ _ _ Hr) as Hc.
  apply (chain_ok stream) in E as (Hj & -> & Hrest); [|apply Hr|done|done].
  destruct Hr as [Hcf Hd Hcs Hrep Hcq]. rewrite Hcf in *.
  pose proof (slice_extends _ _ _ Hd Hj) as Hd'.
  zcase; intros [= <- <- <-]; rewrite JoinChunks_emitted; split; simpl; try done.
  - by rewrite zlen_app.
  - apply Forall_app; split; [done|]. apply Forall_singleton, sub_ok, ok_range.
    destruct Hj as [? ? _]. pose proof (zlen_nonneg (JoinChunks done)). lia.
  - simpl in *; rewrite zlen_app. lia.
Qed.

Lemma AddExpectedChunk_ok stream delivered offset r :
  receiver_ok stream delivered r -> 0 <= offset <= zlen stream ->
  receiver_ok stream delivered (AddExpectedChunk offset r).
Proof.
  intros Hr Ho; unfold AddExpectedChunk, AddToRepeatQueue.
  assert (Hq : Forall (fun o => 0 <= o <= zlen stream) (repeat_queue_ r ++ [offset]))
    by (apply Forall_app; split; [apply Hr|by apply Forall_singleton]).
  destruct (bump_expected _ _) as [ex [n|]]; [zcase|];
    (apply upd_queues_ok; [apply upd_received_ok; [done|apply Hr]| |apply Hr]); try done. apply Hr.
Qed.

Lemma missed_loop_ok stream delivered cs : forall next r,
  receiver_ok stream delivered r -> Forall (received_ok stream) cs ->
  zlen stream <= 65535 -> 0 <= next <= zlen stream ->
  receiver_ok stream delivered (missed_loop next cs r).
Proof.
  induction cs as [|c cs IH]; intros next r Hr Hcs Hs Hn; cbn [missed_loop]; [done|].
  inversion Hcs as [|? ? Hc Hcs']; subst. rewrite (chunk_after stream) by done.
  destruct Hc as [[? ? _] _]. pose proof (zlen_nonneg (rc_data c)).
  apply IH; try done; [|lia]. zcase; [by apply AddExpectedChunk_ok|done].
Qed.

Definition response_ok (stream : bytes) (m : SafeStreamMessage) : Prop :=
  match m with
  | MConfirm offset => ok offset
  | MRequestRepeat offset => 0 <= offset <= zlen stream
  | _ => False
  end.

Lemma response_ok_app stream more m : response_ok stream m -> response_ok (stream ++ more) m.
Proof. destruct m; simpl; try done. rewrite zlen_app; pose proof (zlen_nonneg more); lia. Qed.

Lemma receiving_update_ok stream delivered now r r' emitted out err t :
  receiver_ok stream delivered r -> zlen stream <= 65535 ->
  receiving_update now r = (r', emitted, out, err, t) ->
  receiver_ok stream (delivered ++ concat emitted) r' /\ Forall (response_ok stream) out.
Proof.
  intros Hr Hs; unfold receiving_update, CheckChunkChains.
  destruct (CheckCompletedChains now r) as [[r1 em] t1] eqn:E1.
  apply (CheckCompletedChains_ok stream delivered) in E1; [|done|done].
  destruct (CheckMissedOffset now r1) as [r2 t2] eqn:E2.
  assert (H2 : receiver_ok stream (delivered ++ concat em) r2).
  { revert E2; unfold CheckMissedOffset. zcase; intros [= <- <-]; [done|].
    pose proof (missed_loop_ok stream _ (received_data_chunks_ r1) (last_confirmed_offset_ r1)
                  r1 E1 (ro_chunks _ _ _ E1) Hs (confirmed_range _ _ _ E1)) as [? ? ? ? ?].
    by split. }
  zcase; intros [= <- <- <- <- <-]; 
    (split; [apply upd_queues_ok; [done|constructor|first [constructor|apply H2]]|]); [done|].
  apply Forall_app; split; apply List.Forall_map; apply H2.
Qed.
