(* ===== verification/SafeStream.v ===== *)
(** * The safe stream ([aether/stream_api/safe_stream.*])

    A [SafeStream] has a sending and a receiving half and exchanges
    [SafeStreamApi] packets with the safe stream of the peer through the
    gates below it.  [World] is two safe streams and the packets each has
    written; a packet may be delivered late, twice, in any order or never. *)

From stdpp Require Import relations.
From S2P Require Import Prelude RingIndex StateMachine MStream PackedInt.
From S2P Require Import ApiProtocol SafeStreamApi SafeStreamTypes SafeStreamSending SafeStreamReceiving.
Import SafeStreamRingIndex.

Record SafeStream := {
  safe_stream_sending_ : SafeStreamSendingAction;
  safe_stream_receiving_ : SafeStreamReceivingAction;
}.

Definition new_safe_stream (c : SafeStreamConfig) : SafeStream :=
  {| safe_stream_sending_ := new_sending c; safe_stream_receiving_ := new_receiving c |}.

Definition with_sending (s : SafeStream) (a : SafeStreamSendingAction) : SafeStream :=
  {| safe_stream_sending_ := a; safe_stream_receiving_ := safe_stream_receiving_ s |}.

Definition with_receiving (s : SafeStream) (r : SafeStreamReceivingAction) : SafeStream :=
  {| safe_stream_sending_ := safe_stream_sending_ s; safe_stream_receiving_ := r |}.

(** The subscriptions of the constructor to the messages of the protocol
    context; the other messages have no subscriber. *)
Definition on_message (m : SafeStreamMessage) (s : SafeStream) : outcome SafeStream :=
  match m with
  | MConfirm offset =>
      Defined (with_sending s (Confirm (of_val offset) (safe_stream_sending_ s)))
  | MRequestRepeat offset =>
      Defined (with_sending s (RequestRepeatSend (of_val offset) (safe_stream_sending_ s)))
  | MSend offset data =>
      let* r := ReceiveSend (of_val offset) data (safe_stream_receiving_ s) in
      Defined (with_receiving s r)
  | MRepeat _ offset data =>
      let* r := ReceiveRepeat (of_val offset) data (safe_stream_receiving_ s) in
      Defined (with_receiving s r)
  | MClose | MRequestReport | MPutReport _ => Defined s
  end.

(** [SafeStreamOutGate]: data of the lower gate is parsed as a packet. *)
Definition OnOutData (packet : bytes) (s : SafeStream) : option (outcome SafeStream) :=
  match Parse (H := SafeStreamApi on_message) s packet with
  | Some (Defined (s', _)) => Some (Defined s')
  | Some Undefined => Some Undefined
  | None => None
  end.

(** [SafeStreamInGate::Write]: the constructor of [SafeStreamWriteAction]
    uses the action, which is null when the buffer is full. *)
Definition Write (data : bytes) (s : SafeStream) : outcome (SafeStream * nat) :=
  match SendData data (safe_stream_sending_ s) with
  | (a, Some id) => Defined (with_sending s a, id)
  | (_, None) => Undefined
  end.

(** [SafeStreamInGate::LinkOut]: the element size of the lower gate. *)
Definition LinkOut (max_element_size : Z) (s : SafeStream) : SafeStream :=
  with_sending s (set_max_data_size max_element_size (safe_stream_sending_ s)).

(** [OnDataWrite] and [OnDataReaderSend]: one packet per data message, one
    packet for all the responses. *)
Definition OnDataWrite (ms : list SafeStreamMessage) : list bytes :=
  map (fun m => safe_packet [m]) ms.

Definition OnDataReaderSend (ms : list SafeStreamMessage) : list bytes :=
  match ms with [] => [] | _ => [safe_packet ms] end.

(** The update of the actions of one half. *)
Definition update_sending (now : TimePoint) (s : SafeStream) : outcome (SafeStream * list bytes) :=
  let* (a, ms, _) := sending_update now (safe_stream_sending_ s) in
  Defined (with_sending s a, OnDataWrite ms).

Definition update_receiving (now : TimePoint) (s : SafeStream)
  : SafeStream * list bytes * list bytes :=
  let '(r, emitted, ms, _, _) := receiving_update now (safe_stream_receiving_ s) in
  (with_receiving s r, emitted, OnDataReaderSend ms).

(** ** Two safe streams *)

(** A safe stream with the data written to it, the packets it has written
    below and the data it has given to the application. *)
Record Endpoint := {
  ep : SafeStream;
  written : bytes;
  packets : list bytes;
  delivered : bytes;
}.

Definition new_endpoint (c : SafeStreamConfig) : Endpoint :=
  {| ep := new_safe_stream c; written := []; packets := []; delivered := [] |}.

Definition with_ep (e : Endpoint) (s : SafeStream) : Endpoint :=
  {| ep := s; written := written e; packets := packets e; delivered := delivered e |}.

(** What happens at one endpoint; [inbox] is all the peer has written. *)
Inductive local_step (inbox : list bytes) (e : Endpoint) : Endpoint -> Prop :=
  | step_write data s id :
      data <> [] -> byte_list data -> Write data (ep e) = Defined (s, id) ->
      local_step inbox e
        {| ep := s; written := written e ++ data; packets := packets e;
           delivered := delivered e |}
  | step_link size :
      0 <= size <= window_size_ (safe_stream_sending_ (ep e)) ->
      local_step inbox e (with_ep e (LinkOut size (ep e)))
  | step_update_sending now s ps :
      update_sending now (ep e) = Defined (s, ps) ->
      local_step inbox e
        {| ep := s; written := written e; packets := packets e ++ ps;
           delivered := delivered e |}
  | step_update_receiving now s emitted ps :
      update_receiving now (ep e) = (s, emitted, ps) ->
      local_step inbox e
        {| ep := s; written := written e; packets := packets e ++ ps;
           delivered := delivered e ++ concat emitted |}
  | step_packet p s :
      p ∈ inbox -> OnOutData p (ep e) = Some (Defined s) ->
      local_step inbox e (with_ep e s)
  | step_write_failed offset :
      ok offset ->
      local_step inbox e
        (with_ep e (with_sending (ep e) (ReportWriteError offset (safe_stream_sending_ (ep e)))))
  | step_stop id :
      local_step inbox e
        (with_ep e (with_sending (ep e) (StopAction id (safe_stream_sending_ (ep e))))).

Record World := {
  left : Endpoint;
  right : Endpoint;
}.

Definition new_world (cl cr : SafeStreamConfig) : World :=
  {| left := new_endpoint cl; right := new_endpoint cr |}.

Inductive world_step : World -> World -> Prop :=
  | step_left w e :
      local_step (packets (right w)) (left w) e ->
      world_step w {| left := e; right := right w |}
  | step_right w e :
      local_step (packets (left w)) (right w) e ->
      world_step w {| left := left w; right := e |}.

(** ** Executions

    The steps as a function: a script of events is run from a world, [None]
    when an event is not enabled or its code is undefined. *)

Inductive event :=
  | EWrite (data : bytes)
  | ELink (size : Z)
  | EUpdateSending (now : TimePoint)
  | EUpdateReceiving (now : TimePoint)
  | EPacket (index : nat)
  | EWriteFailed (offset : Z)
  | EStop (id : nat).

Definition byte_listb (d : bytes) : bool := forallb (fun b => (0 <=? b) && (b <? 256)) d.

Definition local_exec (inbox : list bytes) (ev : event) (e : Endpoint) : option Endpoint :=
  match ev with
  | EWrite data =>
      if negb (zlen data =? 0) && byte_listb data
      then match Write data (ep e) with
           | Defined (s, _) =>
               Some {| ep := s; written := written e ++ data; packets := packets e;
                       delivered := delivered e |}
           | Undefined => None
           end
      else None
  | ELink size =>
      if (0 <=? size) && (size <=? window_size_ (safe_stream_sending_ (ep e)))
      then Some (with_ep e (LinkOut size (ep e))) else None
  | EUpdateSending now =>
      match update_sending now (ep e) with
      | Defined (s, ps) =>
          Some {| ep := s; written := written e; packets := packets e ++ ps;
                  delivered := delivered e |}
      | Undefined => None
      end
  | EUpdateReceiving now =>
      let '(s, emitted, ps) := update_receiving now (ep e) in
      Some {| ep := s; written := written e; packets := packets e ++ ps;
              delivered := delivered e ++ concat emitted |}
  | EPacket i =>
      match inbox !! i with
      | Some p => match OnOutData p (ep e) with
                  | Some (Defined s) => Some (with_ep e s)
                  | _ => None
                  end
      | None => None
      end
  | EWriteFailed offset =>
      if (0 <=? offset) && (offset <=? 65535)
      then Some (with_ep e (with_sending (ep e)
                   (ReportWriteError offset (safe_stream_sending_ (ep e)))))
      else None
  | EStop id =>
      Some (with_ep e (with_sending (ep e) (StopAction id (safe_stream_sending_ (ep e)))))
  end.

(** The events of a script with the side they happen at ([true] is left). *)
Fixpoint exec (script : list (bool * event)) (w : World) : option World :=
  match script with
  | [] => Some w
  | (true, ev) :: rest =>
      match local_exec (packets (right w)) ev (left w) with
      | Some e => exec rest {| left := e; right := right w |}
      | None => None
      end
  | (false, ev) :: rest =>
      match local_exec (packets (left w)) ev (right w) with
      | Some e => exec rest {| left := left w; right := e |}
      | None => None
      end
  end.

Lemma byte_listb_ok d : byte_listb d = true -> byte_list d.
Proof.
  unfold byte_listb, byte_list. rewrite forallb_forall, List.Forall_forall.
  intros H b Hb. specialize (H b Hb). zbool. unfold in_width; lia.
Qed.

Lemma local_exec_sound inbox ev e e' : local_exec inbox ev e = Some e' -> local_step inbox e e'.
Proof.
  destruct ev; simpl; intros H.
  - destruct (_ && _) eqn:E; [|done]. apply andb_true_iff in E as [E1 E2]. zbool.
    destruct (Write data (ep e)) as [[s id]|] eqn:Ew; [|done]. injection H as <-.
    eapply step_write; [by intros ->|by apply byte_listb_ok|done].
  - destruct (_ && _) eqn:E; [|done]. zbool. injection H as <-. by apply step_link.
  - destruct (update_sending now (ep e)) as [[s ps]|] eqn:E; [|done]. injection H as <-.
    by eapply step_update_sending.
  - destruct (update_receiving now (ep e)) as [[s em] ps] eqn:E. injection H as <-.
    by eapply step_update_receiving.
  - destruct (inbox !! index) as [p|] eqn:Ei; [|done].
    destruct (OnOutData p (ep e)) as [[s|]|] eqn:E; [|done..]. injection H as <-.
    eapply step_packet; [by eapply list_elem_of_lookup_2|done].
  - destruct (_ && _) eqn:E; [|done]. zbool. injection H as <-.
    apply step_write_failed. by apply ok_range.
  - injection H as <-. apply step_stop.
Qed.

Lemma exec_sound script : forall w w', exec script w = Some w' -> rtc world_step w w'.
Proof.
  induction script as [|[[|] ev] script IH]; intros w w'; simpl; [by intros [= <-]| |].
  - destruct (local_exec _ ev _) as [e|] eqn:E; [|done]. intros H.
    eapply rtc_l; [by apply step_left, (local_exec_sound _ ev)|by apply IH].
  - destruct (local_exec _ ev _) as [e|] eqn:E; [|done]. intros H.
    eapply rtc_l; [by apply step_right, (local_exec_sound _ ev)|by apply IH].
Qed.

(** ** Invariant *)

(** A message of an endpoint that has written [own] to a peer that has
    written [peer]. *)
Definition message_ok (own peer : bytes) (m : SafeStreamMessage) : Prop :=
  data_message_ok own m \/ response_ok peer m.

Definition packet_ok (own peer : bytes) (p : bytes) : Prop :=
  exists ms, p = safe_packet ms /\ Forall (message_ok own peer) ms.

Record endpoint_ok (own peer : bytes) (e : Endpoint) : Prop := {
  eo_written : written e = own;
  eo_bytes : byte_list own;
  eo_sender : sender_ok own (safe_stream_sending_ (ep e));
  eo_receiver : receiver_ok peer (delivered e) (safe_stream_receiving_ (ep e));
  eo_packets : Forall (packet_ok own peer) (packets e);
}.

Lemma message_ok_app own peer more more' m :
  message_ok own peer m -> message_ok (own ++ more) (peer ++ more') m.
Proof. intros [?|?]; [left; by apply data_message_ok_app|right; by apply response_ok_app]. Qed.

Lemma packet_ok_app own peer more more' p :
  packet_ok own peer p -> packet_ok (own ++ more) (peer ++ more') p.
Proof.
  intros (ms & -> & H); exists ms; split; [done|].
  eapply Forall_impl; [|exact H]. intros; by apply message_ok_app.
Qed.

(** The endpoint when its peer writes more. *)
Lemma endpoint_ok_peer own peer more e :
  endpoint_ok own peer e -> endpoint_ok own (peer ++ more) e.
Proof.
  intros [? ? ? ? Hp]; split; try done; [by apply receiver_ok_app|].
  eapply Forall_impl; [|exact Hp]. intros p ?.
  rewrite <- (app_nil_r own). by apply packet_ok_app.
Qed.

Lemma byte_list_slice stream off d : byte_list stream -> slice_of stream off d -> byte_list d.
Proof. intros Hb [_ _ ->]. unfold Prelude.sub, byte_list. by apply Forall_take, Forall_drop. Qed.

Lemma message_ok_valid own peer m :
  byte_list own -> zlen own <= 65535 -> zlen peer <= 65535 ->
  message_ok own peer m -> message_valid m.
Proof.
  intros Hb Ho Hp [H|H]; destruct m; simpl in *; try done; destruct_and?.
  - assert (Hs : slice_of own offset data) by done. destruct Hs as [? ? _].
    pose proof (zlen_nonneg data). unfold in_width. rewrite PackedSize.kUpper_value.
    split_and!; try lia. by eapply byte_list_slice.
  - assert (Hs : slice_of own offset data) by done. destruct Hs as [? ? _].
    pose proof (zlen_nonneg data). rewrite PackedSize.kUpper_value.
    split_and!; unfold in_width in *; try lia. by eapply byte_list_slice.
  - rewrite ok_range in H; unfold in_width; lia.
  - unfold in_width; lia.
Qed.

(** ** Preservation *)

Definition halves_ok (own peer del : bytes) (s : SafeStream) : Prop :=
  sender_ok own (safe_stream_sending_ s) /\ receiver_ok peer del (safe_stream_receiving_ s).

Lemma offset_of_val o : ok (of_val o).
Proof. apply (Ring.of_val_ok 16). unfold max; lia. Qed.

Lemma of_val_id o : 0 <= o < 65535 -> of_val o = o.
Proof. apply Ring.of_val_small. Qed.

Lemma on_message_ok own peer del m s s' :
  halves_ok own peer del s -> zlen own <= 65535 -> zlen peer <= 65535 ->
  message_ok peer own m -> on_message m s = Defined s' -> halves_ok own peer del s'.
Proof.
  intros [Hs Hr] Ho Hp Hm; destruct m; simpl; try by intros [= <-].
  - intros [= <-]. split; [|done]. apply Confirm_ok; [done|apply offset_of_val|done].
  - intros [= <-]. destruct Hm as [[]|Hm]. simpl in Hm. split; [|done].
    apply RequestRepeatSend_ok; [done|]. pose proof (zlen_nonneg own).
    unfold of_val, Ring.of_val, max.
    destruct (decide (offset = 65535)) as [->|]; [change (65535 mod 65535) with 0; lia|].
    rewrite Z.mod_small; lia.
  - destruct Hm as [Hm|[]]; destruct Hm as (Hsl & Hne & Hl). apply zlen_pos in Hne.
    pose proof Hsl as [? ? _]. rewrite of_val_id by lia.
    destruct (ReceiveSend _ _ _) as [r|] eqn:E; [|done]. intros [= <-]. split; [done|].
    eapply Receive_ok; [done|done|done|apply ok_range; lia|by left].
  - destruct Hm as [Hm|[]]; destruct Hm as (_ & Hsl & Hne & Hl). apply zlen_pos in Hne.
    pose proof Hsl as [? ? _]. rewrite of_val_id by lia.
    destruct (ReceiveRepeat _ _ _) as [r|] eqn:E; [|done]. intros [= <-]. split; [done|].
    eapply Receive_ok; [done|done|done|apply ok_range; lia|by right].
Qed.

Lemma execute_all_ok own peer del ms : forall s s',
  halves_ok own peer del s -> zlen own <= 65535 -> zlen peer <= 65535 ->
  Forall (message_ok peer own) ms -> execute_all on_message ms s = Defined s' ->
  halves_ok own peer del s'.
Proof.
  induction ms as [|m ms IH]; intros s s' Hs Ho Hp Hm; simpl; [by intros [= <-]|].
  inversion Hm; subst. destruct (on_message m s) as [s1|] eqn:E; [|done].
  apply (on_message_ok own peer del) in E; try done. by apply IH.
Qed.

(** A packet of the peer is read as the messages it was made of. *)
Lemma OnOutData_packet own peer ms s :
  Forall (message_ok own peer) ms -> byte_list own -> zlen own <= 65535 -> zlen peer <= 65535 ->
  OnOutData (safe_packet ms) s = Some (execute_all on_message ms s).
Proof.
  intros Hm Hb Ho Hp; unfold OnOutData. rewrite (Parse_safe_packet on_message).
  - by destruct (execute_all on_message ms s).
  - eapply Forall_impl; [|exact Hm]. intros; by eapply message_ok_valid.
Qed.

Lemma safe_messages_packets own peer ms :
  Forall (message_ok own peer) ms ->
  Forall (packet_ok own peer) (OnDataWrite ms) /\ Forall (packet_ok own peer) (OnDataReaderSend ms).
Proof.
  intros H; split.
  - apply List.Forall_map. eapply Forall_impl; [|exact H]. intros m Hm.
    exists [m]; split; [done|by apply Forall_singleton].
  - destruct ms; [constructor|]. apply Forall_singleton. by eexists.
Qed.

Lemma update_sending_ok own peer del now s s' ps :
  halves_ok own peer del s -> zlen own <= 65535 ->
  update_sending now s = Defined (s', ps) ->
  halves_ok own peer del s' /\ Forall (packet_ok own peer) ps.
Proof.
  intros [Hs Hr] Ho; unfold update_sending.
  destruct (sending_update now _) as [[[a ms] t]|] eqn:E; [|done]. intros [= <- <-].
  apply (sending_update_ok own) in E as [Ha Hm]; [|done|done].
  split; [by split|]. apply safe_messages_packets.
  eapply Forall_impl; [|exact Hm]. intros; by left.
Qed.

Lemma update_receiving_ok own peer del now s s' emitted ps :
  halves_ok own peer del s -> zlen peer <= 65535 ->
  update_receiving now s = (s', emitted, ps) ->
  halves_ok own peer (del ++ concat emitted) s' /\ Forall (packet_ok own peer) ps.
Proof.
  intros [Hs Hr] Hp; unfold update_receiving.
  destruct (receiving_update now _) as [[[[r em] ms] er] t] eqn:E. intros [= <- <- <-].
  apply (receiving_update_ok peer del) in E as [Ha Hm]; [|done|done].
  split; [by split|]. apply safe_messages_packets.
  eapply Forall_impl; [|exact Hm]. intros; by right.
Qed.

Lemma Write_ok own peer del data s s' id :
  halves_ok own peer del s -> data <> [] -> zlen own + zlen data <= 65535 ->
  Write data s = Defined (s', id) -> halves_ok (own ++ data) peer del s'.
Proof.
  intros [Hs Hr] Hne Hl; unfold Write.
  destruct (SendData data _) as [a [i|]] eqn:E; [|done]. intros [= <- <-].
  apply (SendData_ok own) in E; done.
Qed.

Definition bounded (e : Endpoint) : Prop := zlen (written e) <= 65535.

Lemma local_step_written inbox e e' :
  local_step inbox e e' -> exists more, written e' = written e ++ more.
Proof. destruct 1; simpl; try (exists []; by rewrite app_nil_r). by exists data. Qed.

Lemma local_step_ok peer inbox e e' :
  local_step inbox e e' -> bounded e' -> zlen peer <= 65535 -> byte_list peer ->
  Forall (packet_ok peer (written e)) inbox ->
  endpoint_ok (written e) peer e -> endpoint_ok (written e') peer e'.
Proof.
  intros Hstep Hb Hp Hpb Hin [_ Hby Hs Hr Hpk].
  assert (Hh : halves_ok (written e) peer (delivered e) (ep e)) by done.
  destruct Hstep; unfold bounded in Hb; simpl in *.
  - rewrite zlen_app in Hb.
    destruct (Write_ok _ _ _ _ _ _ _ Hh H Hb H1) as [? ?].
    split; simpl; try done; [by apply Forall_app|].
    eapply Forall_impl; [|exact Hpk]. intros p ?. rewrite <- (app_nil_r peer). by apply packet_ok_app.
  - split; simpl; try done. by apply set_max_data_size_ok.
  - apply (update_sending_ok _ _ _ _ _ _ _ Hh) in H as [[? ?] ?]; [|done].
    split; simpl; try done. by apply Forall_app.
  - apply (update_receiving_ok _ _ _ _ _ _ _ _ Hh) in H as [[? ?] ?]; [|done].
    split; simpl; try done. by apply Forall_app.
  - destruct (proj1 (list.Forall_forall _ _) Hin p H) as (ms & -> & Hms).
    rewrite (OnOutData_packet peer (written e)) in H0 by done. injection H0 as H0.
    apply (execute_all_ok _ _ _ _ _ _ Hh) in H0 as [? ?]; try done.
  - split; simpl; try done. by apply ReportWriteError_ok.
  - split; simpl; try done. by apply StopAction_ok.
Qed.

(** While at most [max] bytes were written in each direction. *)
Definition world_ok (w : World) : Prop :=
  bounded (left w) -> bounded (right w) ->
  endpoint_ok (written (left w)) (written (right w)) (left w) /\
  endpoint_ok (written (right w)) (written (left w)) (right w).

Lemma bounded_before inbox e e' : local_step inbox e e' -> bounded e' -> bounded e.
Proof.
  intros H Hb. destruct (local_step_written _ _ _ H) as [more Hm].
  unfold bounded in *. rewrite Hm, zlen_app in Hb. pose proof (zlen_nonneg more). lia.
Qed.

Lemma peer_step own inbox e e' f :
  local_step inbox e e' -> endpoint_ok own (written e) f -> endpoint_ok own (written e') f.
Proof.
  intros H Hf. destruct (local_step_written _ _ _ H) as [more ->]. by apply endpoint_ok_peer.
Qed.

Lemma world_step_ok w w' : world_step w w' -> world_ok w -> world_ok w'.
Proof.
  destruct 1 as [w e H|w e H]; intros Hw Hl Hr; simpl in *.
  - destruct (Hw (bounded_before _ _ _ H Hl) Hr) as [H1 H2].
    split; [|by eapply peer_step].
    eapply local_step_ok; try done; [apply H2|apply H2].
  - destruct (Hw Hl (bounded_before _ _ _ H Hr)) as [H1 H2].
    split; [by eapply peer_step|].
    eapply local_step_ok; try done; [apply H1|apply H1].
Qed.

Definition config_ok (c : SafeStreamConfig) : Prop :=
  0 <= cfg_window_size c /\ 2 * cfg_window_size c < 65535 /\ 0 <= cfg_buffer_capacity c.

Lemma new_world_ok cl cr : config_ok cl -> config_ok cr -> world_ok (new_world cl cr).
Proof.
  intros (? & ? & ?) (? & ? & ?) _ _; split; split; simpl; try done;
    try (by apply new_sending_ok); try apply new_receiving_ok; constructor.
Qed.

Lemma reachable_ok cl cr w :
  config_ok cl -> config_ok cr -> rtc world_step (new_world cl cr) w -> world_ok w.
Proof.
  intros Hl Hr H. pose proof (new_world_ok cl cr Hl Hr) as H0.
  induction H as [w|w w1 w2 Hs _ IH]; [done|]. by apply IH, (world_step_ok w).
Qed.

Module SafeStreamProperties.

(** A configuration as the tests use it. *)
Definition cfg : SafeStreamConfig :=
  {| cfg_buffer_capacity := 20480; cfg_window_size := 10240; cfg_max_data_size := 1024;
     cfg_wait_confirm_timeout := 150; cfg_send_confirm_timeout := 50;
     cfg_send_repeat_timeout := 75; cfg_max_repeat_count := 5 |}.

Lemma cfg_ok : config_ok cfg.
Proof. repeat split; simpl; lia. Qed.

(** A run that delivers three bytes. *)
Lemma demo_run :
  exists w, rtc world_step (new_world cfg cfg) w /\ delivered (right w) = [1; 2; 3] /\
    bounded (left w) /\ bounded (right w).
Proof.
  eexists; split; [|split; [|split]].
  - apply (exec_sound [(true, ELink 100); (true, EWrite [1; 2; 3]); (true, EUpdateSending 1);
                       (false, EPacket 0); (false, EUpdateReceiving 1000)]).
    vm_compute; reflexivity.
  - reflexivity.
  - by vm_compute.
  - by vm_compute.
Qed.

(** C1: two safe streams with windows below half of the offset range, over a
    network that may lose, duplicate, delay and reorder packets, with any
    interleaving of writes, updates, stops and write failures: as long as at most
    65535 bytes were written in each direction, so that no offset has wrapped
    around, what a side has given to its application is a prefix of what the other
    side has written, in both directions. *)
Theorem safe_stream_prefix cl cr w :
  config_ok cl -> config_ok cr -> rtc world_step (new_world cl cr) w ->
  bounded (left w) -> bounded (right w) ->
  (exists rest, written (left w) = delivered (right w) ++ rest) /\
  (exists rest, written (right w) = delivered (left w) ++ rest).
Proof.
  intros Hl Hr H Hb Hb'. destruct (reachable_ok cl cr w Hl Hr H Hb Hb') as [H1 H2].
  split; [apply (ro_delivered _ _ _ (eo_receiver _ _ _ H2))
         |apply (ro_delivered _ _ _ (eo_receiver _ _ _ H1))].
Qed.

Lemma safe_stream_prefix_witness :
  exists w, delivered (right w) = [1; 2; 3] /\
    exists rest, written (left w) = delivered (right w) ++ rest.
Proof.
  destruct demo_run as (w & Hw & Hd & Hl & Hr). exists w; split; [exact Hd|].
  exact (proj1 (safe_stream_prefix cfg cfg w cfg_ok cfg_ok Hw Hl Hr)).
Defined.



End SafeStreamProperties.
