(* ===== verification/SafeStreamFlow.v ===== *)
(** * Delivery without loss

    The two halves of the safe stream when no packet is lost: the sending
    half cuts everything that was written into consecutive chunks, and the
    receiving half rebuilds the data from the chunks in whatever order they
    arrive.  Two connected safe streams go through any number of such rounds,
    with the window moved by each confirmation. *)

From stdpp Require Import sorting.
From S2P Require Import Prelude RingIndex StateMachine MStream PackedInt ApiProtocol.
From S2P Require Import SafeStreamApi SafeStreamTypes SafeStreamSending SafeStreamReceiving SafeStream.
Import SafeStreamRingIndex.

(** ** The receiving half *)

(** [ReceiveSend] for every chunk that arrives. *)
Fixpoint receive_all (cs : list ReceivingChunk) (r : SafeStreamReceivingAction)
  : outcome SafeStreamReceivingAction :=
  match cs with
  | [] => Defined r
  | c :: cs' => let* r' := ReceiveSend (rc_offset c) (rc_data c) r in receive_all cs' r'
  end.

(** Consecutive nonempty chunks from [b] to [e]. *)
Fixpoint tiles (b e : Z) (cs : list ReceivingChunk) : Prop :=
  match cs with
  | [] => b = e
  | c :: cs' => rc_offset c = b /\ rc_data c <> [] /\ tiles (b + zlen (rc_data c)) e cs'
  end.

Definition chunk_lt (c d : ReceivingChunk) : Prop := rc_offset c < rc_offset d.

(** One of two chunks ends before the other begins. *)
Definition apart (c d : ReceivingChunk) : Prop :=
  rc_offset c + zlen (rc_data c) <= rc_offset d \/ rc_offset d + zlen (rc_data d) <= rc_offset c.

(** A receiver that has nothing to do. *)
Record idle (confirmed : Z) (r : SafeStreamReceivingAction) : Prop := {
  idle_confirmed : last_confirmed_offset_ r = confirmed;
  idle_chunks : received_data_chunks_ r = [];
  idle_repeat : repeat_queue_ r = [];
  idle_confirm : confirmation_queue_ r = [];
  idle_exceeded : repeat_count_exceeded_ r = false;
}.

Lemma tiles_inside b e cs :
  tiles b e cs ->
  b <= e /\ Forall (fun c => b <= rc_offset c /\ 0 < zlen (rc_data c) /\
                             rc_offset c + zlen (rc_data c) <= e) cs.
Proof.
  revert b; induction cs as [|c cs IH]; simpl; intros b; [intros ->; split; [lia|constructor]|].
  intros (Ho & Hne & Ht). apply zlen_pos in Hne. destruct (IH _ Ht) as [He Hf].
  split; [lia|]. constructor; [lia|]. eapply Forall_impl; [|exact Hf]. simpl; intros; lia.
Qed.

Lemma tiles_sorted b e cs : tiles b e cs -> StronglySorted chunk_lt cs.
Proof.
  revert b; induction cs as [|c cs IH]; simpl; intros b; [constructor|].
  intros (Ho & Hne & Ht). constructor; [by eapply IH|].
  apply zlen_pos in Hne. apply tiles_inside in Ht as [_ Hf].
  eapply Forall_impl; [|exact Hf]. unfold chunk_lt; simpl; intros; lia.
Qed.

Lemma tiles_apart b e cs : tiles b e cs -> ForallOrdPairs apart cs.
Proof.
  revert b; induction cs as [|c cs IH]; simpl; intros b; [constructor|].
  intros (Ho & Hne & Ht). constructor; [|by eapply IH].
  apply tiles_inside in Ht as [_ Hf]. eapply Forall_impl; [|exact Hf].
  unfold apart; simpl; intros; lia.
Qed.

Lemma apart_sym c d : apart c d -> apart d c.
Proof. unfold apart; tauto. Qed.

Lemma apart_permutation cs ds :
  Permutation cs ds -> ForallOrdPairs apart cs -> ForallOrdPairs apart ds.
Proof.
  induction 1 as [|c cs ds Hp IH|c d cs|cs ds es _ IH1 _ IH2]; intros H; [done| | |auto].
  - inversion H; subst. constructor; [by rewrite <- Hp|auto].
  - inversion H as [|? ? Hc Hd]; inversion Hd as [|? ? Hd1 Hd2]; inversion Hc; subst.
    constructor; [constructor; [by apply apart_sym|done]|by constructor].
Qed.

(** The list of the chunks received, with one more. *)
Fixpoint insert_chunk (c : ReceivingChunk) (cs : list ReceivingChunk) : list ReceivingChunk :=
  match cs with
  | [] => [c]
  | d :: ds => if rc_offset c <=? rc_offset d then c :: cs else d :: insert_chunk c ds
  end.

Lemma insert_chunk_permutation c cs : Permutation (insert_chunk c cs) (c :: cs).
Proof.
  induction cs as [|d ds IH]; simpl; [done|]. zcase; [done|].
  rewrite IH. apply Permutation_swap.
Qed.

Lemma insert_chunk_sorted c cs :
  StronglySorted chunk_lt cs -> Forall (fun d => rc_offset d <> rc_offset c) cs ->
  StronglySorted chunk_lt (insert_chunk c cs).
Proof.
  induction 1 as [|d ds Hs IH Hd]; simpl; intros Hne; [repeat constructor|].
  inversion Hne; subst. zcase.
  - constructor; [by constructor|]. unfold chunk_lt in *. constructor; [lia|].
    eapply Forall_impl; [|exact Hd]. simpl; intros; lia.
  - constructor; [auto|]. rewrite insert_chunk_permutation.
    constructor; [unfold chunk_lt; lia|done].
Qed.

(** A nonempty chunk between two offsets. *)
Definition within (lo hi : Z) (c : ReceivingChunk) : Prop :=
  lo <= rc_offset c /\ 0 < zlen (rc_data c) /\ rc_offset c + zlen (rc_data c) <= hi.

(** Without overlaps [AddDataChunk] is the insertion in offset order. *)
Lemma AddDataChunk_insert lo hi c r :
  2 * rv_window_size r < 65535 ->
  Forall (within lo hi) (c :: received_data_chunks_ r) ->
  0 <= lo -> hi <= 65535 -> hi <= lo + rv_window_size r ->
  Forall (apart c) (received_data_chunks_ r) ->
  exists ex, AddDataChunk c r
    = Defined (upd_received (insert_chunk c (received_data_chunks_ r)) ex r).
Proof.
  intros Hw Hin Hlo Hhi Hhw Hap. unfold AddDataChunk.
  inversion Hin as [|? ? Hc Hcs]; subst. unfold within in *.
  set (p := fun ch => _ <=? rv_window_size r).
  assert (Hsplit : forall cs pre post, split_at p cs = (pre, post) ->
    Forall (within lo hi) cs ->
    insert_chunk c cs = pre ++ c :: post).
  { induction cs as [|d cs IH]; simpl; intros pre post; [by intros [= <- <-]|].
    intros E Hf; inversion Hf; subst. unfold within in *. unfold p in E at 1.
    distance (rc_offset c) (rc_offset d).
    destruct (rc_offset c <=? rc_offset d) eqn:Ele; zbool.
    - rewrite (proj2 (Z.leb_le _ _)) in E by lia. by injection E as <- <-.
    - rewrite (proj2 (Z.leb_gt _ _)) in E by lia.
      destruct (split_at p cs) as [a b]. injection E as <- <-. simpl. f_equal. by apply IH. }
  destruct (split_at p (received_data_chunks_ r)) as [pre [|it post]] eqn:E.
  - rewrite (Hsplit _ _ _ E Hcs). apply split_at_app in E as ->. rewrite app_nil_r. by eexists.
  - rewrite (Hsplit _ _ _ E Hcs).
    pose proof (split_at_hit _ _ _ _ _ E) as [Hit _]. apply split_at_app in E.
    rewrite E in Hcs, Hap. apply Forall_app in Hcs as [_ Hcs], Hap as [_ Hap].
    inversion Hcs; inversion Hap as [|? ? Hcit]; subst. unfold p in Hit; zbool.
    unfold apart in Hcit. distance (rc_offset c) (rc_offset it).
    rewrite (proj2 (Z.eqb_neq _ _)) by lia.
    rewrite wrap_small by (unfold in_width; lia). rewrite add_small by lia.
    distance (rc_offset it) (rc_offset c + zlen (rc_data c)).
    destruct (_ && _) eqn:Eo; [zbool; lia|]. by eexists.
Qed.

Lemma receive_all_insert lo hi arrivals : forall r,
  last_confirmed_offset_ r = lo -> 0 <= lo -> hi <= 65535 -> hi <= lo + rv_window_size r ->
  2 * rv_window_size r < 65535 ->
  Forall (within lo hi) (arrivals ++ received_data_chunks_ r) ->
  ForallOrdPairs apart (arrivals ++ received_data_chunks_ r) ->
  StronglySorted chunk_lt (received_data_chunks_ r) ->
  exists cs ex, receive_all arrivals r = Defined (upd_received cs ex r) /\
    StronglySorted chunk_lt cs /\ Permutation cs (arrivals ++ received_data_chunks_ r).
Proof.
  induction arrivals as [|c arrivals IH]; intros r Hl Hlo Hhi Hhw Hw Hin Hap Hs; simpl.
  { exists (received_data_chunks_ r), (expected_chunks_ r). by destruct r. }
  simpl in Hin, Hap. inversion Hin as [|? ? Hc Hrest]; inversion Hap as [|? ? Hac Har]; subst.
  assert (Hcs : Forall (within (last_confirmed_offset_ r) hi)
                  (received_data_chunks_ r)) by (by apply Forall_app in Hrest as [_ ?]).
  assert (Hacs : Forall (apart c) (received_data_chunks_ r))
    by (by apply Forall_app in Hac as [_ ?]).
  destruct (AddDataChunk_insert (last_confirmed_offset_ r) hi c r) as [ex Hadd]; try done.
  { by constructor. }
  unfold ReceiveSend. destruct Hc as (Hc1 & Hc2 & Hc3).
  rewrite (proj2 (Z.leb_gt _ _)); cycle 1.
  { unfold Distance. rewrite Ring.Distance_forward; unfold max; lia. }
  replace {| rc_offset := rc_offset c; rc_data := rc_data c |} with c by (by destruct c).
  rewrite Hadd. set (r1 := upd_received _ ex r) in *.
  assert (Hp : Permutation (arrivals ++ received_data_chunks_ r1)
                 (c :: arrivals ++ received_data_chunks_ r)).
  { simpl. rewrite insert_chunk_permutation. symmetry. apply Permutation_middle. }
  destruct (IH r1) as (cs & ex' & E & Hsr & Hpm); try done.
  - rewrite Hp. by constructor.
  - eapply apart_permutation; [symmetry; exact Hp|done].
  - apply insert_chunk_sorted; [done|].
    rewrite List.Forall_forall in *. intros d Hd. specialize (Hacs d Hd). specialize (Hcs d Hd).
    unfold apart, within in *. lia.
  - exists cs, ex'. split; [exact E|]. split; [done|]. by rewrite Hpm.
Qed.

#[export] Instance chunk_lt_transitive : Transitive chunk_lt.
Proof. intros a b c; unfold chunk_lt; lia. Qed.

#[export] Instance chunk_lt_antisymm : AntiSymm (=) chunk_lt.
Proof. intros a b; unfold chunk_lt; lia. Qed.

(** Chunks that tile a range arrive in any order and end up in offset order. *)
Lemma receive_all_tiles b e cs arrivals r :
  idle b r -> 0 <= b -> e <= 65535 -> 2 * rv_window_size r < 65535 ->
  tiles b e cs -> e - b <= rv_window_size r -> Permutation cs arrivals ->
  exists ex, receive_all arrivals r = Defined (upd_received cs ex r).
Proof.
  intros [Hc Hr _ _ _] Hb Hbw Hw Ht He Hp.
  destruct (tiles_inside _ _ _ Ht) as [_ Hin].
  destruct (receive_all_insert b e arrivals r) as (ds & ex & E & Hs & Hpm); try done; try lia;
    rewrite ?Hr, ?app_nil_r.
  - rewrite <- Hp. eapply Forall_impl; [|exact Hin]. unfold within; simpl; intros; lia.
  - eapply apart_permutation; [exact Hp|]. by eapply tiles_apart.
  - constructor.
  - exists ex. rewrite E. do 2 f_equal. rewrite Hr, app_nil_r in Hpm.
    apply (StronglySorted_unique chunk_lt); [done|by eapply tiles_sorted|].
    by rewrite Hpm, Hp.
Qed.

(** The chain of consecutive chunks is complete. *)
Lemma chain_tiles cs : forall b e,
  tiles b e cs -> 0 <= b -> e <= 65535 -> e - b < 65535 -> chain b cs = (cs, [], e).
Proof.
  induction cs as [|c cs IH]; simpl; intros b e; [by intros ->|].
  intros (Ho & Hne & Ht) Hb He Hl. apply zlen_pos in Hne. subst b.
  destruct (tiles_inside _ _ _ Ht) as [Hbe _].
  rewrite Z.eqb_refl, wrap_small by (unfold in_width; lia). rewrite add_small by lia.
  rewrite (IH _ _ Ht) by lia. done.
Qed.

Lemma tiles_data b e cs : tiles b e cs -> zlen (JoinChunks cs) = e - b.
Proof.
  revert b; induction cs as [|c cs IH]; simpl; intros b; [intros ->; unfold zlen; simpl; lia|].
  intros (Ho & Hne & Ht). change (JoinChunks (c :: cs)) with (rc_data c ++ JoinChunks cs).
  rewrite zlen_app, (IH _ Ht). lia.
Qed.

(** One update after the chunks have arrived. *)
Lemma update_tiles b e cs ex now r :
  idle b r -> 0 <= b < e -> e <= 65535 -> e - b < 65535 -> tiles b e cs ->
  last_send_confirm_time_ r + send_confirm_timeout_ r <= now ->
  exists r' t, receiving_update now (upd_received cs ex r)
    = (r', [JoinChunks cs], [MConfirm (e - 1)], false, t) /\ idle e r' /\
    rv_window_size r' = rv_window_size r /\ send_confirm_timeout_ r' = send_confirm_timeout_ r /\
    last_send_confirm_time_ r' = now.
Proof.
  intros [Hc Hr Hrep Hconf Hex] Hb He Hl Ht Hnow.
  unfold receiving_update, CheckChunkChains, CheckCompletedChains; simpl.
  rewrite (proj2 (Z.ltb_ge _ _)) by lia. rewrite Hc, (chain_tiles cs b e) by (done || lia).
  pose proof (tiles_data _ _ _ Ht) as Hd.
  destruct (JoinChunks cs) as [|x d] eqn:Ej; [unfold zlen in Hd; simpl in Hd; lia|].
  rewrite (proj2 (Z.eqb_neq e b)) by lia. rewrite sub_small by lia. simpl.
  unfold CheckMissedOffset; simpl.
  destruct (_ <? _); simpl; rewrite Hex, Hrep, Hconf; simpl; by eexists _, _.
Qed.

(** ** The sending half *)

(** The buffered writes follow each other from [b] to [e]. *)
Fixpoint contiguous (b e : Z) (views : list SendingDataAction) : Prop :=
  match views with
  | [] => b = e
  | a :: views' =>
      sd_offset (sending_data a) = b /\ sd_data (sending_data a) <> [] /\
      contiguous (b + zlen (sd_data (sending_data a))) e views'
  end.

Lemma contiguous_order b e views : contiguous b e views -> b <= e.
Proof.
  revert b; induction views as [|a v IH]; simpl; intros b; [lia|].
  intros (_ & Hne & Hc). apply zlen_pos in Hne. apply IH in Hc. lia.
Qed.

Lemma contiguous_app b e views a :
  contiguous b e views -> sd_offset (sending_data a) = e -> sd_data (sending_data a) <> [] ->
  contiguous b (e + zlen (sd_data (sending_data a))) (views ++ [a]).
Proof.
  revert b; induction views as [|x v IH]; simpl; intros b; [by intros -> ->|].
  intros (? & ? & ?) ? ?; split_and!; try done. by apply IH.
Qed.

Lemma contiguous_map b e v v' :
  map sending_data v = map sending_data v' -> contiguous b e v -> contiguous b e v'.
Proof.
  revert b v'; induction v as [|a v IH]; intros b [|a' v']; try done.
  simpl; intros [= Ha Hv] (? & ? & ?). rewrite <- Ha. split_and!; try done. by apply IH.
Qed.

(** From an offset in the first view the copy loop never leaves the views. *)
Lemma slice_loop_contiguous views : forall b e cur rem,
  contiguous b e views -> 0 <= b -> e <= 65535 -> e - b < 65535 -> 0 < rem ->
  (match views with
   | [] => cur = b
   | a :: _ => b <= cur <= b + zlen (sd_data (sending_data a))
   end) ->
  exists views' d, slice_loop views cur rem = Defined (views', d) /\
    zlen d = Z.min rem (e - cur).
Proof.
  induction views as [|a views IH]; intros b e cur rem Hc Hb He Hl Hr Hcur; cbn [slice_loop].
  { exists [], []. split; [done|]. simpl in Hc. unfold zlen; simpl. lia. }
  destruct Hc as (Ho & Hne & Hc). pose proof (contiguous_order _ _ _ Hc) as Hoe.
  set (data := sd_data (sending_data (Sending a))).
  assert (Hdl : zlen (sd_data (sending_data a)) = zlen data) by done.
  assert (Hoff : sd_offset (sending_data (Sending a)) = b) by done.
  rewrite Hdl in *. pose proof (zlen_nonneg data). rewrite Hoff.
  assert (HD : Distance b cur = cur - b) by (apply Ring.Distance_forward; unfold max; lia).
  rewrite HD, (proj2 (Z.ltb_ge _ _)) by lia. fold data.
  set (n := Z.min (zlen data - (cur - b)) rem).
  assert (Hpart : zlen (take (Z.to_nat n) (drop (Z.to_nat (cur - b)) data)) = n).
  { unfold zlen in *; rewrite length_take, length_drop. unfold n, zlen in *. lia. }
  destruct (rem - n =? 0) eqn:Ez; zbool.
  - eexists _, _; split; [done|]. lia.
  - rewrite wrap_small by (unfold in_width; lia). rewrite Clockwise_small by lia.
    destruct (IH (b + zlen data) e (cur + n) (rem - n)) as (v' & d & -> & Hd); try done; try lia.
    { destruct views as [|a' v]; [lia|]. pose proof (zlen_nonneg (sd_data (sending_data a'))). lia. }
    eexists _, _; split; [done|]. rewrite zlen_app. lia.
Qed.

(** The offset searched for is found in the view that holds it. *)
Lemma split_holds stream window views : forall b e o,
  Forall (view_ok stream) views -> zlen stream <= 65535 ->
  contiguous b e views -> Forall (fun a => zlen (sd_data (sending_data a)) <= window) views ->
  0 <= b -> e <= 65535 -> 2 * window < 65535 -> b <= o <= e ->
  exists pre post, split_at (holds_offset window o) views = (pre, post) /\
    exists b', contiguous b' e post /\ b <= b' <= e /\
    match post with
    | [] => o = b'
    | a :: _ => b' <= o <= b' + zlen (sd_data (sending_data a))
    end.
Proof.
  induction views as [|a views IH]; intros b e o Hv Hs Hc Hw Hb He Hw2 Ho; cbn [split_at].
  { simpl in Hc. exists [], []. split; [done|]. exists e. simpl. lia. }
  inversion Hv as [|? ? Ha Hvs]; subst. inversion Hw as [|? ? Hwa Hws]; subst. pose proof Hc as (Hof & Hne & Hc').
  pose proof (contiguous_order _ _ _ Hc') as Hoe. apply zlen_pos in Hne.
  pose proof (view_range_end stream a window Ha Hs) as Hend.
  unfold holds_offset. rewrite InRange_spec; cycle 1.
  { split; [cbn [begin get_offset_range]; lia|lia|simpl; lia]. }
  { rewrite Hend; simpl; lia. }
  { apply ok_range; lia. }
  rewrite Hend. cbn [begin get_offset_range]. rewrite Hof.
  destruct (_ && _) eqn:E; zbool.
  - eexists _, _; split; [done|]. exists b. split; [done|]. lia.
  - apply andb_false_iff in E as [E|E]; zbool; [lia|].
    fold (holds_offset window o).
    destruct (IH (b + zlen (sd_data (sending_data a))) e o) as (pre & post & Es & b' & H1 & H2 & H3);
      try done; try lia.
    change (fun a0 => holds_offset window o a0) with (holds_offset window o) in *.
    rewrite Es. eexists _, _; split; [done|]. exists b'. split; [done|]. split; [lia|done].
Qed.

(** [GetSlice] on contiguous writes returns as much as there is. *)
Lemma GetSlice_contiguous stream b o max buf :
  buffer_ok stream buf -> zlen stream <= 65535 ->
  contiguous b (zlen stream) (send_action_views_ buf) -> 0 <= b <= o -> o <= zlen stream ->
  Forall (fun a => zlen (sd_data (sending_data a)) <= sdb_window_size buf)
    (send_action_views_ buf) ->
  zlen stream < 65535 -> 2 * sdb_window_size buf < 65535 -> 0 < max <= 65535 ->
  exists buf', GetSlice o max buf
    = Defined (buf', Prelude.sub (Z.to_nat o) (Z.to_nat (Z.min max (zlen stream - o))) stream) /\
    buffer_ok stream buf' /\
    map sending_data (send_action_views_ buf') = map sending_data (send_action_views_ buf) /\
    sdb_window_size buf' = sdb_window_size buf /\ buffer_size_ buf' = buffer_size_ buf.
Proof.
  intros Hok Hs Hc Hb Ho Hw Hlt Hw2 Hm. destruct Hok as [Hv Ht].
  destruct (split_holds stream (sdb_window_size buf) (send_action_views_ buf) b (zlen stream) o)
    as (pre & post & Es & b' & Hc' & Hb' & Hh); try done; try lia.
  destruct (slice_loop_contiguous post b' (zlen stream) o max) as (v' & d & El & Hd);
    try done; try lia.
  assert (Eg : GetSlice o max buf = Defined (with_views buf (pre ++ v'), d))
    by (unfold GetSlice; by rewrite Es, El).
  pose proof (GetSlice_ok stream o max buf _ d ltac:(by split) Hs ltac:(lia) ltac:(lia) Eg)
    as (Hok' & [_ _ Hsl] & _).
  pose proof (GetSlice_spec stream o max buf _ d Hv Hs ltac:(lia) ltac:(lia) Eg)
    as (_ & _ & _ & _ & Hmap).
  eexists; split; [|split; [exact Hok'|by split]].
  rewrite Eg. f_equal. f_equal. rewrite Hsl at 1. f_equal. unfold zlen in *. lia.
Qed.

(** The writes in the buffer follow each other up to the end of the stream,
    none is longer than the window, and none ends before the offset [b] that
    is confirmed. *)
Record buffered_writes (stream : bytes) (b window : Z) (views : list SendingDataAction) : Prop := {
  bu_views : exists b0, 0 <= b0 <= b /\ contiguous b0 (zlen stream) views;
  bu_small : Forall (fun a => zlen (sd_data (sending_data a)) <= window) views;
  bu_late : Forall (fun a => b <= sd_offset (sending_data a) + zlen (sd_data (sending_data a))) views;
}.

Lemma Forall_data (P : SendingData -> Prop) v v' :
  map sending_data v = map sending_data v' ->
  Forall (fun a => P (sending_data a)) v -> Forall (fun a => P (sending_data a)) v'.
Proof. intros E H. apply List.Forall_map in H. rewrite E in H. by apply List.Forall_map. Qed.

Lemma buffered_writes_map stream b window v v' :
  map sending_data v = map sending_data v' -> buffered_writes stream b window v -> buffered_writes stream b window v'.
Proof.
  intros E [(b0 & Hb & Hc) Hs Hl]; split.
  - exists b0. split; [done|by eapply contiguous_map].
  - by apply (Forall_data (fun d => zlen (sd_data d) <= window) v).
  - by apply (Forall_data (fun d => b <= sd_offset d + zlen (sd_data d)) v).
Qed.

(** A sender at the time [now]: [b] is confirmed, [o] is sent, the rest of the
    stream is buffered, nothing sent is overdue. *)
Record flow (stream : bytes) (now : TimePoint) (b o : Z) (s : SafeStreamSendingAction) : Prop := {
  fl_ok : sender_ok stream s;
  fl_len : zlen stream + max_data_size_ s <= 65535;
  fl_views : buffered_writes stream b (window_size_ s) (send_action_views_ (send_data_buffer_ s));
  fl_sent : last_sent_offset_ s = o;
  fl_conf : last_confirmed_ s = b;
  fl_order : 0 <= b <= o /\ o <= zlen stream;
  fl_room : zlen stream - b + max_data_size_ s <= window_size_ s;
  fl_max : 0 < max_data_size_ s;
  fl_timeout : 0 <= wait_confirm_timeout_ s;
  fl_chunks : Forall (fun c => b <= begin_offset c /\ end_offset c < o /\ send_time c = now /\
                               (node c < next_node (sending_chunks_ s))%nat)
                (chunks_ (sending_chunks_ s));
}.

Lemma HandleTimeouts_flow stream now b o s :
  flow stream now b o s -> (HandleTimeouts now s).1 = s.
Proof.
  intros H. pose proof (fl_chunks _ _ _ _ _ H) as Hc. pose proof (fl_timeout _ _ _ _ _ H).
  unfold HandleTimeouts. destruct (chunks_ _) as [|c cs]; [done|].
  inversion Hc as [|? ? (_ & _ & Ht & _) _]; subst.
  by rewrite (proj2 (Z.ltb_ge _ _)) by lia.
Qed.

(** A chunk after all the others is appended. *)
Lemma Register_new n b e time l :
  chunk_list_ok n l -> Forall (fun c => end_offset c < b) (chunks_ l) ->
  0 <= b <= e -> e < n -> n <= 65535 -> e - b <= scl_window_size l ->
  2 * scl_window_size l < 65535 ->
  Register b e time l
  = Defined ({| scl_window_size := scl_window_size l;
                chunks_ := chunks_ l ++ [{| node := next_node l; begin_offset := b; end_offset := e;
                                            repeat_count := 0; send_time := time |}];
                next_node := S (next_node l) |}, next_node l).
Proof.
  intros Hl Hb Hbe He Hn Hw Hw2; unfold Register.
  set (r := {| begin := b; end_ := e; window_size := scl_window_size l |}).
  assert (Hnone : forall cs, Forall (chunk_ok n) cs -> Forall (fun c => end_offset c < b) cs ->
            split_at (fun c => InRange r (begin_offset c)) cs = (cs, [])).
  { induction cs as [|c cs IH]; intros H1 H2; [done|].
    inversion H1 as [|? ? [? ? ?] ?]; inversion H2; subst. cbn [split_at].
    rewrite InRange_spec; [|split; simpl; lia|simpl; lia|apply ok_range; lia].
    rewrite (proj2 (Z.leb_gt _ _)) by (simpl; lia). simpl. by rewrite IH. }
  by rewrite Hnone.
Qed.

Lemma find_fresh cs n c :
  Forall (fun d => (node d < n)%nat) cs -> node c = n ->
  List.find (fun d => Nat.eqb (node d) n) (cs ++ [c]) = Some c.
Proof.
  intros H Hc; induction H as [|d cs Hd _ IH]; simpl; [by rewrite Hc, Nat.eqb_refl|].
  by rewrite (proj2 (Nat.eqb_neq _ _)) by lia.
Qed.

(** One update sends the next chunk. *)
Lemma flow_update stream now b o s :
  flow stream now b o s -> o < zlen stream ->
  let n := Z.min (max_data_size_ s) (zlen stream - o) in
  exists s' t, sending_update now s
    = Defined (s', [MSend o (Prelude.sub (Z.to_nat o) (Z.to_nat n) stream)], t) /\
    flow stream now b (o + n) s' /\ max_data_size_ s' = max_data_size_ s.
Proof.
  intros H Ho n. pose proof (HandleTimeouts_flow _ _ _ _ _ H) as Hh.
  destruct H as [Hok Hlen Hv Hsent Hconf Hord Hroom Hmax Hto Hch].
  destruct (HandleTimeouts now s) as [s0 t0] eqn:Eh; simpl in Hh; subst s0.
  destruct (so_window _ _ Hok) as [Hw0 Hw2].
  set (d := Prelude.sub (Z.to_nat o) (Z.to_nat n) stream).
  assert (Hd : zlen d = n) by (unfold d, zlen, n in *; rewrite length_sub; unfold zlen in *; lia).
  destruct (bu_views _ _ _ _ Hv) as (b0 & Hb0 & Hc0).
  destruct (GetSlice_contiguous stream b0 o (max_data_size_ s) (send_data_buffer_ s))
    as (buf & Eg & Hbok & Hmap & Hbw & Hbs);
    try done; try lia; try apply Hok; rewrite ?(so_sdb_window _ _ Hok); try lia; try apply Hv.
  fold n d in Eg.
  pose proof (Register_new (zlen stream) o (o + n - 1) now (sending_chunks_ s)) as Er.
  rewrite (so_scl_window _ _ Hok) in Er.
  specialize (Er (so_chunks _ _ Hok) ltac:(eapply Forall_impl; [|exact Hch]; by intros ? (? & ? & ? & ?))
               ltac:(lia) ltac:(lia) ltac:(lia) ltac:(lia) ltac:(lia)).
  set (fresh := Build_SendingChunk _ _ _ _ _) in Er.
  set (s1 := upd_buffer buf s).
  set (s2 := upd_offsets (last_confirmed_ s) (next_to_add_ s) (o + n) s1).
  set (l := Build_SendingChunkList _ _ _) in Er.
  set (s' := upd_chunks (set_repeat (next_node (sending_chunks_ s)) 1 l) (upd_chunks l s2)).
  assert (E : sending_update now s = Defined (s', [MSend o d], t0)).
  { unfold sending_update. rewrite Eh, (proj2 (Z.eqb_neq _ _)) by lia. simpl negb. cbv iota.
    unfold SendDataChunk. rewrite Hconf, Hsent, add_small by lia.
    unfold Distance. rewrite Ring.Distance_forward by (unfold max; lia).
    rewrite (proj2 (Z.ltb_ge _ _)) by lia. rewrite Eg.
    destruct d as [|x d'] eqn:Ed; [unfold zlen in Hd; simpl in Hd; lia|]. rewrite Hd.
    rewrite !wrap_small by (unfold in_width; lia). rewrite add_small by lia.
    replace (o + (n - 1)) with (o + n - 1) by lia.
    cbn [last_sent_offset_ sending_chunks_ upd_offsets upd_buffer upd_chunks].
    rewrite Hsent, Clockwise_small by lia. rewrite Er. unfold deref.
    cbn [upd_chunks sending_chunks_ l chunks_].
    rewrite (find_fresh _ _ fresh); [|eapply Forall_impl; [|exact Hch]; by intros ? (? & ? & ? & ?)|done].
    cbv beta iota. cbn [repeat_count fresh Z.eqb]. reflexivity. }
  exists s', t0. split; [done|]. split; [|done].
  pose proof (sending_update_ok stream now s s' _ t0 Hok ltac:(lia) E) as [Hok' _].
  split; try done; try (simpl; lia).
  { eapply buffered_writes_map; [symmetry; exact Hmap|done]. }
  simpl. apply List.Forall_map, Forall_app; split; [|].
  - eapply Forall_impl; [|exact Hch]. intros c (? & ? & ? & ?).
    destruct (Nat.eqb _ _); simpl; split_and!; try done; lia.
  - apply Forall_singleton. simpl. rewrite Nat.eqb_refl; simpl. split_and!; try done; lia.
Qed.

(** Nothing is sent when everything was sent. *)
Lemma flow_update_end stream now b s :
  flow stream now b (zlen stream) s ->
  exists s' t, sending_update now s = Defined (s', [], t) /\
    flow stream now b (zlen stream) s' /\ max_data_size_ s' = max_data_size_ s.
Proof.
  intros H. pose proof (HandleTimeouts_flow _ _ _ _ _ H) as Hh.
  destruct H as [Hok Hlen Hv Hsent Hconf Hord Hroom Hmax Hto Hch].
  destruct (HandleTimeouts now s) as [s0 t0] eqn:Eh; simpl in Hh; subst s0.
  destruct (so_window _ _ Hok) as [Hw0 Hw2].
  destruct (bu_views _ _ _ _ Hv) as (b0 & Hb0 & Hc0).
  destruct (GetSlice_contiguous stream b0 (zlen stream) (max_data_size_ s) (send_data_buffer_ s))
    as (buf & Eg & Hbok & Hmap & Hbw & Hbs);
    try done; try lia; try apply Hok; rewrite ?(so_sdb_window _ _ Hok); try lia; try apply Hv.
  rewrite Z.sub_diag, Z.min_r, sub_nil in Eg by lia.
  exists (upd_buffer buf s), t0. unfold sending_update, SendDataChunk.
  rewrite Eh, (proj2 (Z.eqb_neq _ _)) by lia. simpl negb. cbv iota.
  rewrite Hconf, Hsent, add_small by lia.
  unfold Distance. rewrite Ring.Distance_forward by (unfold max; lia).
  rewrite (proj2 (Z.ltb_ge _ _)) by lia. rewrite Eg.
  split; [done|]. split; [|done].
  split; try done; [|eapply buffered_writes_map; [symmetry; exact Hmap|done]].
  apply upd_buffer_ok; done || lia.
Qed.

(** [k] updates at the time [now], with the messages sent. *)
Fixpoint send_updates (k : nat) (now : TimePoint) (s : SafeStreamSendingAction)
  : outcome (SafeStreamSendingAction * list SafeStreamMessage) :=
  match k with
  | O => Defined (s, [])
  | S k' =>
      let* (s1, ms, _) := sending_update now s in
      let* (s2, ms') := send_updates k' now s1 in
      Defined (s2, ms ++ ms')
  end.

(** [SendData] for every buffer written. *)
Definition send_all (ws : list bytes) (s : SafeStreamSendingAction) : SafeStreamSendingAction :=
  foldl (fun s d => (SendData d s).1) s ws.

Definition to_message (c : ReceivingChunk) : SafeStreamMessage := MSend (rc_offset c) (rc_data c).

(** The number of chunks of at most [size] bytes. *)
Definition chunk_count (size n : Z) : nat := Z.to_nat ((n + size - 1) / size).

Lemma chunk_count_next size n :
  0 < size -> 0 < n -> chunk_count size n = S (chunk_count size (n - Z.min size n)).
Proof.
  intros Hs Hn; unfold chunk_count. destruct (Z.le_gt_cases n size).
  - rewrite Z.min_r, Z.sub_diag by lia. rewrite (Z.div_small (0 + size - 1)) by lia.
    replace (n + size - 1) with (n - 1 + 1 * size) by lia.
    rewrite Z.div_add, Z.div_small by lia. done.
  - rewrite Z.min_l by lia. replace (n + size - 1) with (n - size + size - 1 + 1 * size) by lia.
    rewrite Z.div_add by lia. pose proof (Z.div_pos (n - size + size - 1) size). lia.
Qed.

Lemma chunk_count_none size : 0 < size -> chunk_count size 0 = 0%nat.
Proof. intros; unfold chunk_count. by rewrite Z.div_small by lia. Qed.

Lemma flow_updates stream now b k : forall o s,
  flow stream now b o s -> zlen stream - o <= Z.of_nat k * max_data_size_ s ->
  exists s' cs, send_updates k now s = Defined (s', map to_message cs) /\
    tiles o (zlen stream) cs /\ JoinChunks cs = drop (Z.to_nat o) stream /\
    Forall (fun c => zlen (rc_data c) <= max_data_size_ s) cs /\
    flow stream now b (zlen stream) s' /\ max_data_size_ s' = max_data_size_ s /\
    length cs = chunk_count (max_data_size_ s) (zlen stream - o).
Proof.
  induction k as [|k IH]; intros o s H Hk; cbn [send_updates].
  { pose proof (fl_order _ _ _ _ _ H). assert (o = zlen stream) as -> by lia.
    exists s, []. rewrite Z.sub_diag, chunk_count_none by apply (fl_max _ _ _ _ _ H).
    split_and!; try done. unfold zlen; rewrite Nat2Z.id. by rewrite drop_ge. }
  destruct (fl_order _ _ _ _ _ H) as [Ho1 Ho2]. pose proof (fl_max _ _ _ _ _ H) as Hm.
  destruct (decide (o = zlen stream)) as [->|Hne].
  - destruct (flow_update_end _ _ _ _ H) as (s1 & t & -> & H1 & Hm1).
    destruct (IH (zlen stream) s1 H1) as (s' & cs & -> & ? & ? & ? & ? & ? & ?); [lia|].
    exists s', cs. rewrite Hm1 in *. done.
  - destruct (flow_update _ _ _ _ _ H) as (s1 & t & -> & H1 & Hm1); [lia|].
    set (n := Z.min (max_data_size_ s) (zlen stream - o)) in *.
    destruct (IH (o + n) s1 H1) as (s' & cs & -> & Ht & Hj & Hf & H2 & Hm2 & Hlen); [lia|].
    set (d := Prelude.sub (Z.to_nat o) (Z.to_nat n) stream).
    assert (Hd : zlen d = n) by (unfold d, zlen, n in *; rewrite length_sub; unfold zlen in *; lia).
    exists s', ({| rc_offset := o; rc_data := d |} :: cs). rewrite Hm1 in Hf, Hm2, Hlen.
    split; [done|]. split; [|split; [|split; [|split; [done|split; [done|]]]]].
    + simpl. rewrite Hd. split_and!; try done. intros ->; unfold zlen in Hd; simpl in Hd; lia.
    + rewrite JoinChunks_cons, Hj. simpl. unfold d, Prelude.sub.
      rewrite Z2Nat.inj_add by lia. rewrite <- drop_drop. by rewrite take_drop.
    + constructor; [simpl; lia|done].
    + cbn [length]. rewrite Hlen, (chunk_count_next _ (zlen stream - o)) by lia.
      do 2 f_equal. lia.
Qed.

(** Writes that fit keep the flow. *)
Lemma flow_write stream now b o s data :
  flow stream now b o s -> data <> [] ->
  zlen stream + zlen data - b + max_data_size_ s <= window_size_ s ->
  zlen stream + zlen data + max_data_size_ s <= 65535 ->
  buffer_size_ (send_data_buffer_ s) + zlen data <= buffer_capacity_ s ->
  let s' := (SendData data s).1 in
  (exists id, SendData data s = (s', Some id)) /\
  flow (stream ++ data) now b o s' /\ max_data_size_ s' = max_data_size_ s /\
  window_size_ s' = window_size_ s /\ buffer_capacity_ s' = buffer_capacity_ s /\
  buffer_size_ (send_data_buffer_ s') = buffer_size_ (send_data_buffer_ s) + zlen data.
Proof.
  intros H Hne Hw Hl Hcap s'. destruct H as [Hok Hlen Hv Hsent Hconf Hord Hroom Hmax Hto Hch].
  assert (E : exists id, SendData data s = (s', Some id)).
  { unfold s', SendData. rewrite (proj2 (Z.ltb_ge _ _)) by lia. by eexists. }
  split; [done|]. destruct E as [id E]. pose proof E as E2.
  apply (SendData_ok stream) in E2; [|done|done|lia].
  pose proof (zlen_nonneg data). pose proof (zlen_nonneg stream).
  unfold s', SendData in *. rewrite (proj2 (Z.ltb_ge _ _)) in * by lia.
  cbn [fst AddData] in *. split; [|done].
  split; try done; rewrite ?zlen_app; simpl; try done; try lia.
  destruct Hv as [(b0 & Hb0 & Hc) Hsm Hlate]. pose proof (so_next _ _ Hok) as Hnx. split.
  - exists b0. split; [done|]. rewrite zlen_app.
    exact (contiguous_app b0 (zlen stream) _
             (new_sending_action (next_action_id (send_data_buffer_ s))
                {| sd_offset := next_to_add_ s; sd_data := data |}) Hc Hnx Hne).
  - apply Forall_app; split; [done|]. apply Forall_singleton. simpl. lia.
  - apply Forall_app; split; [done|]. apply Forall_singleton. simpl. lia.
Qed.

Lemma flow_send_all ws : forall stream now b o s,
  flow stream now b o s -> Forall (fun d => d <> []) ws ->
  zlen stream + zlen (concat ws) - b + max_data_size_ s <= window_size_ s ->
  zlen stream + zlen (concat ws) + max_data_size_ s <= 65535 ->
  buffer_size_ (send_data_buffer_ s) + zlen (concat ws) <= buffer_capacity_ s ->
  flow (stream ++ concat ws) now b o (send_all ws s) /\
  max_data_size_ (send_all ws s) = max_data_size_ s.
Proof.
  induction ws as [|d ws IH]; intros stream now b o s H Hne Hw Hl Hc; simpl in *.
  { by rewrite app_nil_r. }
  inversion Hne; subst. rewrite zlen_app in *. pose proof (zlen_nonneg (concat ws)).
  destruct (flow_write stream now b o s d) as (_ & Hf & Hm & Hwn & Hcp & Hbs); try done; try lia.
  rewrite app_assoc. rewrite <- Hm.
  apply IH; try done; rewrite ?zlen_app, ?Hm, ?Hwn, ?Hcp, ?Hbs; lia.
Qed.

(** A sender that was linked and has written nothing yet. *)
Definition linked_sender (c : SafeStreamConfig) (max_element_size : Z) : SafeStreamSendingAction :=
  set_max_data_size max_element_size (new_sending c).

Lemma linked_sender_flow c size now :
  0 < size -> size <= cfg_window_size c -> 2 * cfg_window_size c < 65535 ->
  0 <= cfg_buffer_capacity c -> 0 <= cfg_wait_confirm_timeout c ->
  flow [] now 0 0 (linked_sender c size) /\ max_data_size_ (linked_sender c size) = size.
Proof.
  intros. assert (Hz : wrap 16 size = size) by (apply wrap_small; unfold in_width; lia).
  split; [|done]. split; simpl; rewrite ?Hz; try done; try (unfold zlen; simpl; lia).
  { apply set_max_data_size_ok; [simpl; lia|]. apply new_sending_ok; lia. }
  split; try constructor. exists 0. split; [lia|done].
Qed.

(** ** Confirmation of everything sent *)

(** Of writes that follow each other only the last one does not end before
    the end of the stream. *)
Lemma contiguous_last p e views : forall b,
  contiguous b e views ->
  Forall (fun a => p a = (sd_offset (sending_data a) + zlen (sd_data (sending_data a)) <? e)) views ->
  exists b1, b <= b1 <= e /\ contiguous b1 e (List.filter (fun a => negb (p a)) views) /\
    (length (List.filter (fun a => negb (p a)) views) <= 1)%nat.
Proof.
  induction views as [|a views IH]; intros b Hc Hp; simpl.
  { exists e. simpl in Hc. split_and!; done || lia. }
  inversion Hp as [|? ? Ha Hps]; subst. pose proof Hc as (Ho & Hne & Hc').
  pose proof (contiguous_order _ _ _ Hc'). apply zlen_pos in Hne. rewrite Ha, Ho.
  destruct views as [|a' views].
  - simpl in Hc'. rewrite (proj2 (Z.ltb_ge _ _)) by lia. exists b. simpl. split_and!; try done; try lia;
      intros E; rewrite E in Hne; unfold zlen in Hne; simpl in Hne; lia.
  - pose proof Hc' as (Ho' & Hne' & Hc2). pose proof (contiguous_order _ _ _ Hc2).
    apply zlen_pos in Hne'. rewrite (proj2 (Z.ltb_lt _ _)) by lia.
    destruct (IH (b + zlen (sd_data (sending_data a)))) as (b1 & Hb1 & H1 & H2); [done|done|].
    exists b1. split; [lia|by split].
Qed.

(** All chunks up to the confirmed offset are removed. *)
Lemma remove_upto_all window b off cs :
  0 <= b -> off < 65535 -> off - b <= window -> 2 * window < 65535 ->
  Forall (fun c => b <= begin_offset c <= end_offset c /\ end_offset c <= off) cs ->
  remove_upto window off cs = [].
Proof.
  intros Hb Ho Hw Hw2 H; induction H as [|c cs [Hc He] _ IH]; [done|]. cbn [remove_upto].
  unfold Before, InRange; cbn [begin end_ window_size].
  distance off (end_offset c). distance (begin_offset c) off.
  zcase; [done|]. rewrite (proj2 (Z.leb_le _ _)), (proj2 (Z.leb_le _ _)) by lia.
  cbn [andb]. by rewrite (proj2 (Z.eqb_eq _ _)) by lia.
Qed.

(** The confirmation of everything that was sent makes the window move: all
    chunks are removed and of the writes only the last one stays. *)
Lemma flow_confirm stream now b s :
  flow stream now b (zlen stream) s -> b < zlen stream ->
  let s' := Confirm (zlen stream - 1) s in
  (forall now', flow stream now' (zlen stream) (zlen stream) s') /\
  max_data_size_ s' = max_data_size_ s /\ window_size_ s' = window_size_ s /\
  buffer_capacity_ s' = buffer_capacity_ s /\
  buffer_size_ (send_data_buffer_ s') <= window_size_ s.
Proof.
  intros [Hok Hlen Hv Hsent Hconf Hord Hroom Hmax Hto Hch] Hlt s'.
  destruct (so_window _ _ Hok) as [Hw0 Hw2]. pose proof (so_sdb_window _ _ Hok) as Hsw.
  assert (Hok' : sender_ok stream s') by (apply Confirm_ok; [done|apply ok_range; lia|lia]).
  assert (Hrm : remove_upto (window_size_ s) (zlen stream - 1) (chunks_ (sending_chunks_ s)) = []).
  { apply (remove_upto_all _ b); try lia.
    eapply Forall_impl; [|exact (Forall_and (so_chunks _ _ Hok) Hch)].
    intros c ([? ? ?] & ? & ? & _); lia. }
  assert (Hc : chunks_ (sending_chunks_ s') = [] /\ last_confirmed_ s' = zlen stream /\
    send_action_views_ (send_data_buffer_ s')
    = List.filter (fun a => negb (before_offset (sdb_window_size (send_data_buffer_ s)) (zlen stream - 1) a))
        (send_action_views_ (send_data_buffer_ s)) /\
    last_sent_offset_ s' = zlen stream /\ wait_confirm_timeout_ s' = wait_confirm_timeout_ s /\
    max_data_size_ s' = max_data_size_ s /\ window_size_ s' = window_size_ s /\
    buffer_capacity_ s' = buffer_capacity_ s).
  { unfold s', Confirm. rewrite Hconf. unfold Distance.
    rewrite Ring.Distance_forward by (unfold max; lia). rewrite (proj2 (Z.leb_le _ _)) by lia. simpl.
    rewrite (so_scl_window _ _ Hok), Hrm.
    rewrite add_small by lia. split_and!; done || lia. }
  destruct Hc as (Hc1 & Hc2 & Hc3 & Hc4 & Hc5 & Hc6 & Hc7 & Hc8).
  destruct (bu_views _ _ _ _ Hv) as (b0 & Hb0 & Hcb).
  pose proof (buffer_views _ _ (so_buffer _ _ Hok)) as Hviews.
  destruct (contiguous_last (before_offset (sdb_window_size (send_data_buffer_ s)) (zlen stream - 1))
              (zlen stream) (send_action_views_ (send_data_buffer_ s)) b0 Hcb) as (b1 & Hb1 & Hf & Hl).
  { apply list.Forall_forall. intros a Ha.
    pose proof (proj1 (list.Forall_forall _ _) Hviews a Ha) as Hva.
    pose proof (proj1 (list.Forall_forall _ _) (bu_late _ _ _ _ Hv) a Ha) as Hla. simpl in Hla.
    unfold before_offset, Before. rewrite (view_range_end stream a _ Hva ltac:(lia)).
    destruct Hva as [[H0 He _] Hne].
    cbn [window_size get_offset_range]. rewrite Hsw. apply zlen_pos in Hne.
    set (en := sd_offset (sending_data a) + zlen (sd_data (sending_data a))) in *.
    distance (zlen stream - 1) (en - 1). destruct (en <? zlen stream) eqn:E; zbool.
    - apply Z.ltb_lt. lia.
    - apply Z.ltb_ge. lia. }
  rewrite <- Hc3 in Hf, Hl.
  assert (Hsub : Forall (fun a => zlen (sd_data (sending_data a)) <= window_size_ s)
            (send_action_views_ (send_data_buffer_ s'))).
  { rewrite Hc3. apply List.incl_Forall with (2 := bu_small _ _ _ _ Hv). apply List.incl_filter. }
  split_and!; try done.
  - intros now'. split; try done; try lia.
    + rewrite Hc7. split; [exists b1; split; [lia|done]|done|].
      rewrite Hc3. clear -Hcb Hc3 Hf Hl. rewrite <- Hc3.
      destruct (send_action_views_ (send_data_buffer_ s')) as [|a [|a' v]]; [constructor| |simpl in Hl; lia].
      simpl in Hf. apply Forall_singleton. destruct Hf as (? & ? & ?). lia.
    + rewrite Hc1. constructor.
  - rewrite (buffer_total _ _ (so_buffer _ _ Hok')).
    destruct (send_action_views_ (send_data_buffer_ s')) as [|a [|a' v]]; [simpl; lia| |simpl in Hl; lia].
    inversion Hsub; subst. simpl. lia.
Qed.

(** ** Rounds

    In a round data is written, the sending half is updated, the packets
    arrive in some order, the receiving half is updated, and its confirmation
    arrives. *)

Record Round := {
  r_writes : list bytes;
  r_time : TimePoint;         (* of the updates of the sending half *)
  r_updates : nat;
  r_arrivals : list nat;      (* the packets of the round as they arrive *)
  r_confirm : TimePoint;      (* of the update of the receiving half *)
}.

Definition round_data (rd : Round) : bytes := concat (r_writes rd).

(** The events of a round, after [sent] packets of the left side and
    [confirms] packets of the right side. *)
Definition round_script (sent confirms : nat) (rd : Round) : list (bool * event) :=
  map (fun d => (true, EWrite d)) (r_writes rd) ++
  replicate (r_updates rd) (true, EUpdateSending (r_time rd)) ++
  map (fun i => (false, EPacket (sent + i))) (r_arrivals rd) ++
  [(false, EUpdateReceiving (r_confirm rd)); (true, EPacket confirms)].

Fixpoint rounds_script (size : Z) (sent confirms : nat) (rds : list Round) : list (bool * event) :=
  match rds with
  | [] => []
  | rd :: rds' =>
      round_script sent confirms rd ++
      rounds_script size (sent + chunk_count size (zlen (round_data rd))) (S confirms) rds'
  end.

(** A round whose data fits the windows of both sides, with enough updates,
    and whose packets arrive once each, in any order. *)
Record round_fits (cl cr : SafeStreamConfig) (size : Z) (rd : Round) : Prop := {
  rf_some : r_writes rd <> [];
  rf_nonempty : Forall (fun d => d <> []) (r_writes rd);
  rf_bytes : Forall byte_list (r_writes rd);
  rf_window : zlen (round_data rd) + size <= cfg_window_size cl;
  rf_peer : zlen (round_data rd) <= cfg_window_size cr;
  rf_updates : zlen (round_data rd) <= Z.of_nat (r_updates rd) * size;
  rf_arrivals : Permutation (seq 0 (chunk_count size (zlen (round_data rd)))) (r_arrivals rd);
}.

(** The receiving half is updated not earlier than it confirms. *)
Fixpoint confirm_times (timeout : Duration) (last : TimePoint) (rds : list Round) : Prop :=
  match rds with
  | [] => True
  | rd :: rds' => last + timeout <= r_confirm rd /\ confirm_times timeout (r_confirm rd) rds'
  end.

Lemma exec_app a b w : exec (a ++ b) w = exec a w ≫= exec b.
Proof.
  revert w; induction a as [|[[|] ev] a IH]; intros w; simpl; [done| |];
    destruct (local_exec _ ev _); done || apply IH.
Qed.

(** The world with the sending half of the left side, its packets and what
    was written there, or with the receiving half of the right side. *)
Definition left_sends (w : World) (a : SafeStreamSendingAction) (wr : bytes) (ps : list bytes) : World :=
  {| left := {| ep := with_sending (ep (left w)) a; written := wr; packets := ps;
                delivered := delivered (left w) |};
     right := right w |}.

Definition right_receives (w : World) (r : SafeStreamReceivingAction) : World :=
  {| left := left w; right := with_ep (right w) (with_receiving (ep (right w)) r) |}.

Lemma byte_listb_complete d : byte_list d -> byte_listb d = true.
Proof.
  unfold byte_list, byte_listb, in_width. rewrite forallb_forall, List.Forall_forall.
  intros H b Hb. specialize (H b Hb). simpl in H.
  apply andb_true_iff; split; [apply Z.leb_le|apply Z.ltb_lt]; lia.
Qed.

Lemma exec_writes ws : forall stream now b o w,
  let s := safe_stream_sending_ (ep (left w)) in
  flow stream now b o s -> Forall (fun d => d <> []) ws -> Forall byte_list ws ->
  zlen stream + zlen (concat ws) - b + max_data_size_ s <= window_size_ s ->
  zlen stream + zlen (concat ws) + max_data_size_ s <= 65535 ->
  buffer_size_ (send_data_buffer_ s) + zlen (concat ws) <= buffer_capacity_ s ->
  exec (map (fun d => (true, EWrite d)) ws) w
  = Some (left_sends w (send_all ws s) (written (left w) ++ concat ws) (packets (left w))).
Proof.
  induction ws as [|d ws IH]; intros stream now b o w s H Hne Hby Hw Hl Hc; simpl in *.
  { rewrite app_nil_r. by destruct w as [[[] ? ? ?] ?]. }
  inversion Hne; subst. inversion Hby; subst. rewrite zlen_app in *.
  pose proof (zlen_nonneg (concat ws)).
  destruct (flow_write stream now b o s d) as ((id & E) & Hf & Hm & Hwn & Hcp & Hbs); try done; try lia.
  rewrite (proj2 (Z.eqb_neq _ _)) by (apply zlen_pos in H2; lia).
  rewrite byte_listb_complete by done. simpl. unfold Write. fold s. rewrite E.
  set (w1 := {| left := _; right := right w |}).
  rewrite (IH (stream ++ d) now b o w1); simpl; rewrite ?zlen_app, ?Hm, ?Hwn, ?Hcp, ?Hbs;
    try done; try lia.
  by rewrite <- app_assoc.
Qed.

Lemma exec_updates now k : forall w s' ms,
  send_updates k now (safe_stream_sending_ (ep (left w))) = Defined (s', ms) ->
  exec (replicate k (true, EUpdateSending now)) w
  = Some (left_sends w s' (written (left w)) (packets (left w) ++ OnDataWrite ms)).
Proof.
  induction k as [|k IH]; intros w s' ms; simpl.
  { intros [= <- <-]. rewrite app_nil_r. by destruct w as [[[] ? ? ?] ?]. }
  unfold update_sending.
  destruct (sending_update now _) as [[[s1 ms1] t]|]; [|done].
  destruct (send_updates k now s1) as [[s2 ms2]|] eqn:E; [|done]. intros [= <- <-].
  set (w1 := {| left := _; right := right w |}).
  rewrite (IH w1 s2 ms2); [|exact E]. simpl. unfold OnDataWrite. by rewrite map_app, <- app_assoc.
Qed.

Lemma OnOutData_message m s :
  message_valid m -> OnOutData (safe_packet [m]) s = Some (on_message m s).
Proof.
  intros H. unfold OnOutData. rewrite (Parse_safe_packet on_message) by (by apply Forall_singleton).
  simpl. by destruct (on_message m s).
Qed.

(** A chunk with offsets before the wrap point, made of bytes. *)
Definition chunk_valid (c : ReceivingChunk) : Prop :=
  0 <= rc_offset c < 65535 /\ zlen (rc_data c) <= 65535 /\ byte_list (rc_data c).

Lemma exec_arrivals idx : forall cs w r',
  Forall2 (fun i c => packets (left w) !! i = Some (safe_packet [to_message c])) idx cs ->
  Forall chunk_valid cs ->
  receive_all cs (safe_stream_receiving_ (ep (right w))) = Defined r' ->
  exec (map (fun i => (false, EPacket i)) idx) w = Some (right_receives w r').
Proof.
  induction idx as [|i idx IH]; intros cs w r' H Hv; inversion H as [|? c ? cs' Hi Hrest]; subst; simpl.
  { intros [= <-]. by destruct w as [? [[] ? ? ?]]. }
  inversion Hv as [|? ? (Ho & Hn & Hb) Hvs]; subst.
  destruct (ReceiveSend _ _ _) as [r1|] eqn:E; [|done]. intros Hr. rewrite Hi.
  rewrite OnOutData_message by
    (simpl; rewrite PackedSize.kUpper_value; unfold in_width; split_and!; done || lia).
  simpl. rewrite of_val_id by lia. rewrite E.
  set (w1 := {| left := left w; right := _ |}). by rewrite (IH cs' w1 r').
Qed.

Lemma map_nth_seq {A} (d : A) l : map (fun i => nth i l d) (seq 0 (length l)) = l.
Proof.
  induction l as [|x l IH]; [done|]. cbn [length seq map]. rewrite <- List.seq_shift, List.map_map.
  simpl. by rewrite IH.
Qed.

(** The limits of the sending half do not change. *)
Definition limits (s : SafeStreamSendingAction) : Z * Z := (window_size_ s, buffer_capacity_ s).

Lemma send_all_limits ws : forall s, limits (send_all ws s) = limits s.
Proof.
  induction ws as [|d ws IH]; intros s; [done|].
  change (limits (send_all ws (SendData d s).1) = limits s). rewrite IH. unfold SendData. by zcase.
Qed.

Lemma sending_update_limits now s s' ms t :
  sending_update now s = Defined (s', ms, t) -> limits s' = limits s.
Proof.
  unfold sending_update. destruct (HandleTimeouts now s) as [s0 t0] eqn:E.
  assert (H0 : limits s0 = limits s).
  { unfold HandleTimeouts in E. destruct (chunks_ _); [by injection E as <- _|].
    destruct (_ <? _); by injection E as <- _. }
  zcase; [|by intros [= <- _ _]]. unfold SendDataChunk.
  destruct (_ <? _); [by intros [= <- _ _]|].
  destruct (GetSlice _ _ _) as [[b [|x d]]|]; [by intros [= <- _ _]| |done].
  destruct (Register _ _ _ _) as [[l n]|]; [|done]. destruct (deref n _) as [ch|]; [|done].
  destruct (_ =? _); [by intros [= <- _ _]|].
  destruct (_ <? _); [|by intros [= <- _ _]].
  destruct (deref n _); [|done]. by intros [= <- _ _].
Qed.

Lemma send_updates_limits k now : forall s s' ms,
  send_updates k now s = Defined (s', ms) -> limits s' = limits s.
Proof.
  induction k as [|k IH]; intros s s' ms; simpl; [by intros [= <- _]|].
  destruct (sending_update now s) as [[[s1 m1] t]|] eqn:E; [|done].
  destruct (send_updates k now s1) as [[s2 m2]|] eqn:E2; [|done]. intros [= <- _].
  rewrite (IH _ _ _ E2). by apply sending_update_limits in E.
Qed.

(** The packets of a permutation of the indexes are a permutation of the
    chunks. *)
Lemma arrivals_chunks sent (ps : list bytes) cs arrivals :
  length ps = sent -> Permutation (seq 0 (length cs)) arrivals ->
  exists cs', Permutation cs cs' /\
    Forall2 (fun i c => (ps ++ map (fun c => safe_packet [to_message c]) cs) !! i
                        = Some (safe_packet [to_message c]))
      (map (Nat.add sent) arrivals) cs'.
Proof.
  intros Hl Hp. set (d := {| rc_offset := 0; rc_data := [] |}).
  exists (map (fun i => nth i cs d) arrivals). split.
  - rewrite <- Hp. by rewrite map_nth_seq.
  - assert (Hin : Forall (fun i => (i < length cs)%nat) arrivals).
    { rewrite <- Hp. apply List.Forall_forall. intros i Hi. apply List.in_seq in Hi. lia. }
    clear Hp. induction Hin as [|i arrivals Hi _ IH]; simpl; constructor; [|done].
    rewrite lookup_app_r by lia. replace (sent + i - length ps)%nat with i by lia.
    rewrite list_lookup_fmap. destruct (lookup_lt_is_Some_2 cs i Hi) as [c Hc].
    rewrite Hc. simpl. by rewrite (nth_lookup_Some _ _ _ _ Hc).
Qed.

(** Two safe streams between two rounds: all of [stream] was written, sent,
    delivered and confirmed. *)
Record between (cl cr : SafeStreamConfig) (size : Z) (stream : bytes) (sent confirms : nat)
    (last : TimePoint) (w : World) : Prop := {
  bt_flow : forall now, flow stream now (zlen stream) (zlen stream) (safe_stream_sending_ (ep (left w)));
  bt_max : max_data_size_ (safe_stream_sending_ (ep (left w))) = size;
  bt_window : window_size_ (safe_stream_sending_ (ep (left w))) = cfg_window_size cl;
  bt_capacity : buffer_capacity_ (safe_stream_sending_ (ep (left w))) = cfg_buffer_capacity cl;
  bt_buffer : buffer_size_ (send_data_buffer_ (safe_stream_sending_ (ep (left w)))) <= cfg_window_size cl;
  bt_idle : idle (zlen stream) (safe_stream_receiving_ (ep (right w)));
  bt_peer : rv_window_size (safe_stream_receiving_ (ep (right w))) = cfg_window_size cr;
  bt_timeout : send_confirm_timeout_ (safe_stream_receiving_ (ep (right w))) = cfg_send_confirm_timeout cr;
  bt_last : last_send_confirm_time_ (safe_stream_receiving_ (ep (right w))) = last;
  bt_written : written (left w) = stream;
  bt_delivered : delivered (right w) = stream;
  bt_bytes : byte_list stream;
  bt_sent : length (packets (left w)) = sent;
  bt_confirms : length (packets (right w)) = confirms;
}.

Lemma tiles_valid stream b e cs :
  byte_list stream -> 0 <= b -> e < 65535 -> tiles b e cs ->
  JoinChunks cs = drop (Z.to_nat b) stream -> Forall chunk_valid cs.
Proof.
  intros Hby Hb He Ht Hj. destruct (tiles_inside _ _ _ Ht) as [_ Hin].
  assert (Hbc : Forall (fun c => byte_list (rc_data c)) cs).
  { assert (H : byte_list (JoinChunks cs)) by (rewrite Hj; by apply Forall_drop).
    clear -H. induction cs as [|c cs IH]; [constructor|].
    apply Forall_app in H as [? ?]. constructor; [done|by apply IH]. }
  eapply Forall_impl; [|exact (Forall_and Hin Hbc)]. unfold chunk_valid.
  intros c [? ?]. split_and!; try done; lia.
Qed.

Lemma concat_bytes ws : Forall byte_list ws -> byte_list (concat ws).
Proof. induction 1; [constructor|]. by apply Forall_app. Qed.

Lemma round_data_pos cl cr size rd : round_fits cl cr size rd -> 0 < zlen (round_data rd).
Proof.
  intros [Hs Hne _ _ _ _ _]. unfold round_data.
  destruct (r_writes rd) as [|d ws]; [done|]. inversion Hne; subst. simpl. rewrite zlen_app.
  pose proof (zlen_pos d ltac:(done)). pose proof (zlen_nonneg (concat ws)). lia.
Qed.

(** A round goes from one such state to the next one. *)
Lemma round_between cl cr size stream sent confirms last rd w :
  between cl cr size stream sent confirms last w -> round_fits cl cr size rd ->
  2 * cfg_window_size cr < 65535 -> 2 * cfg_window_size cl <= cfg_buffer_capacity cl ->
  zlen stream + zlen (round_data rd) + size <= 65535 ->
  last + cfg_send_confirm_timeout cr <= r_confirm rd ->
  exists w', exec (round_script sent confirms rd) w = Some w' /\
    between cl cr size (stream ++ round_data rd)
      (sent + chunk_count size (zlen (round_data rd))) (S confirms) (r_confirm rd) w'.
Proof.
  intros [Hf Hm Hwn Hcp Hbs Hi Hpw Hto Hlast Hwr Hdl Hby Hsent Hcf] Hrd Hw2 Hcap Hlen Ht.
  pose proof (round_data_pos _ _ _ _ Hrd) as Hpos. pose proof (zlen_nonneg stream).
  destruct Hrd as [Hne0 Hne Hbw Hwin Hpeer Hup Harr]. specialize (Hf (r_time rd)).
  pose proof (fl_max _ _ _ _ _ Hf) as Hmax. unfold round_data in *.
  set (s := safe_stream_sending_ (ep (left w))) in *. set (ws := r_writes rd) in *.
  destruct (flow_send_all ws stream (r_time rd) (zlen stream) (zlen stream) s Hf) as [Hf1 Hm1];
    try done; try lia.
  destruct (flow_updates _ _ _ (r_updates rd) _ _ Hf1)
    as (s2 & cs & E2 & Htl & Hj & _ & Hf2 & Hm2 & Hcs); rewrite ?zlen_app; try lia.
  rewrite zlen_app, Hm1, Hm in Hcs. replace (zlen stream + _ - zlen stream)
    with (zlen (concat ws)) in Hcs by lia. rewrite <- Hcs in Harr |- *.
  rewrite zlen_app in Htl.
  destruct (arrivals_chunks sent (packets (left w)) cs (r_arrivals rd)) as (cs' & Hpm & Hfa); try done.
  destruct (receive_all_tiles (zlen stream) (zlen stream + zlen (concat ws)) cs cs'
              (safe_stream_receiving_ (ep (right w)))) as [ex E3]; try done; try lia.
  destruct (update_tiles (zlen stream) (zlen stream + zlen (concat ws)) cs ex (r_confirm rd)
              (safe_stream_receiving_ (ep (right w)))) as (r2 & t & E4 & Hi2 & Hp2 & Hto2 & Hl2);
    try done; try lia.
  destruct (flow_confirm _ _ _ _ Hf2) as (Hf3 & Hm3 & Hw3 & Hc3 & Hb3); rewrite ?zlen_app in *; try lia.
  assert (Hlim : limits s2 = limits s) by (rewrite (send_updates_limits _ _ _ _ _ E2); apply send_all_limits).
  unfold limits in Hlim. injection Hlim as Hlw Hlc.
  set (e := zlen stream + zlen (concat ws)) in *.
  set (w1 := left_sends w (send_all ws s) (written (left w) ++ concat ws) (packets (left w))).
  set (w2 := left_sends w1 s2 (written (left w1)) (packets (left w1) ++ OnDataWrite (map to_message cs))).
  set (r1 := upd_received cs ex (safe_stream_receiving_ (ep (right w)))) in *.
  set (w3 := right_receives w2 r1).
  assert (X1 : exec (map (fun d => (true, EWrite d)) ws) w = Some w1).
  { apply (exec_writes ws stream (r_time rd) (zlen stream) (zlen stream)); fold s; try done; try lia. }
  assert (X2 : exec (replicate (r_updates rd) (true, EUpdateSending (r_time rd))) w1 = Some w2)
    by (by apply exec_updates).
  assert (X3 : exec (map (fun i => (false, EPacket (sent + i)%nat)) (r_arrivals rd)) w2 = Some w3).
  { replace (map (fun i => (false, EPacket (sent + i)%nat)) (r_arrivals rd)) with
      (map (fun i => (false, EPacket i)) (map (Nat.add sent) (r_arrivals rd))) by (by rewrite List.map_map).
    apply (exec_arrivals _ cs'); [|rewrite <- Hpm|done].
    - simpl. unfold OnDataWrite. rewrite List.map_map. exact Hfa.
    - eapply (tiles_valid (stream ++ concat ws)); [| |..|exact Htl|exact Hj]; try lia.
      apply Forall_app; split; [done|by apply concat_bytes]. }
  unfold round_script. fold ws. rewrite exec_app, X1. simpl. rewrite exec_app, X2. simpl.
  rewrite exec_app, X3. simpl. unfold update_receiving. cbn [right w3 right_receives with_ep ep].
  cbn [safe_stream_receiving_ with_receiving ep with_ep]. rewrite E4. simpl. unfold OnDataReaderSend.
  change [5 mod 256; (e - 1) mod 256; ((e - 1) / 256) mod 256] with (safe_packet [MConfirm (e - 1)]).
  rewrite list_lookup_middle by (by rewrite Hcf).
  rewrite OnOutData_message by (simpl; unfold in_width; lia).
  unfold on_message. rewrite of_val_id by lia. eexists. split; [done|].
  assert (Ej : JoinChunks cs = concat ws).
  { rewrite Hj. unfold zlen; rewrite Nat2Z.id. by rewrite drop_app_length. }
  split; cbn; try done.
  - rewrite zlen_app. exact Hf3.
  - by rewrite Hm3, Hm2, Hm1.
  - by rewrite Hw3, Hlw.
  - by rewrite Hc3, Hlc.
  - by rewrite Hlw in Hb3; rewrite <- Hwn.
  - by rewrite zlen_app.
  - by rewrite Hp2.
  - by rewrite Hto2.
  - by rewrite Hwr.
  - by rewrite Hdl, Ej, app_nil_r.
  - apply Forall_app; split; [done|by apply concat_bytes].
  - unfold OnDataWrite. by rewrite length_app, !length_map, Hsent.
  - rewrite length_app, Hcf. simpl. lia.
Qed.

(** Any number of rounds. *)
Lemma rounds_between cl cr size rds : forall stream sent confirms last w,
  between cl cr size stream sent confirms last w -> Forall (round_fits cl cr size) rds ->
  2 * cfg_window_size cr < 65535 -> 2 * cfg_window_size cl <= cfg_buffer_capacity cl ->
  zlen stream + zlen (concat (map round_data rds)) + size <= 65535 ->
  confirm_times (cfg_send_confirm_timeout cr) last rds ->
  exists w' sent' confirms' last', exec (rounds_script size sent confirms rds) w = Some w' /\
    between cl cr size (stream ++ concat (map round_data rds)) sent' confirms' last' w'.
Proof.
  induction rds as [|rd rds IH]; intros stream sent confirms last w Hb Hr Hw Hc Hl Ht; simpl in *.
  { rewrite app_nil_r. eauto 10. }
  inversion Hr; subst. rewrite zlen_app in Hl. destruct Ht as [Ht Hts].
  pose proof (zlen_nonneg (concat (map round_data rds))).
  destruct (round_between cl cr size stream sent confirms last rd w) as (w1 & E1 & Hb1);
    try done; try lia.
  rewrite exec_app, E1, app_assoc. simpl. apply (IH _ _ _ _ _ Hb1); rewrite ?zlen_app; done || lia.
Qed.

Module FlowProperties.

(** Everything written to a linked sending half is sent by its next
    updates as consecutive chunks of at most the element size, the first one
    at offset 0, as long as it fits the window and the buffer. *)
Theorem sender_cuts_all c size ws now k :
  0 < size -> 2 * cfg_window_size c < 65535 -> 0 <= cfg_wait_confirm_timeout c ->
  Forall (fun d => d <> []) ws ->
  zlen (concat ws) + size <= cfg_window_size c -> zlen (concat ws) <= cfg_buffer_capacity c ->
  zlen (concat ws) <= Z.of_nat k * size ->
  exists s' cs,
    send_updates k now (send_all ws (linked_sender c size)) = Defined (s', map to_message cs) /\
    tiles 0 (zlen (concat ws)) cs /\ JoinChunks cs = concat ws /\
    Forall (fun ch => zlen (rc_data ch) <= size) cs /\
    last_sent_offset_ s' = zlen (concat ws).
Proof.
  intros Hs Hw Ht Hne Hwin Hcap Hk. pose proof (zlen_nonneg (concat ws)).
  destruct (linked_sender_flow c size now) as [Hf Hm]; try lia.
  destruct (flow_send_all ws [] now 0 0 _ Hf Hne) as [Hf2 Hm2];
    rewrite ?Hm; change (zlen ([] : bytes)) with 0; simpl; try lia.
  simpl in Hf2. rewrite Hm in Hm2.
  destruct (flow_updates _ now 0 k 0 _ Hf2) as (s' & cs & E & Htl & Hj & Hfa & Hfin & _); [lia|].
  exists s', cs. rewrite Hm2 in Hfa. split_and!; try done. apply (fl_sent _ _ _ _ _ Hfin).
Qed.

Definition small : SafeStreamConfig :=
  {| cfg_buffer_capacity := 100; cfg_window_size := 50; cfg_max_data_size := 4;
     cfg_wait_confirm_timeout := 10; cfg_send_confirm_timeout := 5;
     cfg_send_repeat_timeout := 5; cfg_max_repeat_count := 3 |}.

Lemma sender_cuts_all_witness :
  exists s' cs,
    send_updates 3 7 (send_all [[1; 2; 3]; [4; 5]] (linked_sender small 2))
    = Defined (s', map to_message cs) /\ JoinChunks cs = [1; 2; 3; 4; 5].
Proof.
  destruct (sender_cuts_all small 2 [[1; 2; 3]; [4; 5]] 7 3) as (s' & cs & E & _ & Hj & _);
    [zeval..|]. exists s', cs. split; [exact E|exact Hj].
Defined.

(** C15: chunks that cover a range up to the end of the window may arrive in
    any order: the receiving half gives the data of the whole range to the
    application in one piece, confirms its last offset and is ready for the
    next range. *)
Theorem receive_any_order b e cs arrivals now r :
  idle b r -> 0 <= b < e -> b + rv_window_size r <= 65535 -> 2 * rv_window_size r < 65535 ->
  tiles b e cs -> e - b <= rv_window_size r -> Permutation cs arrivals ->
  last_send_confirm_time_ r + send_confirm_timeout_ r <= now ->
  exists r1 r2 t, receive_all arrivals r = Defined r1 /\
    receiving_update now r1 = (r2, [JoinChunks cs], [MConfirm (e - 1)], false, t) /\ idle e r2.
Proof.
  intros Hi Hb Hbw Hw Ht He Hp Hnow.
  destruct (receive_all_tiles b e cs arrivals r) as [ex E]; try done; try lia.
  destruct (update_tiles b e cs ex now r) as (r2 & t & E2 & Hi2 & _); try done; try lia.
  by exists (upd_received cs ex r), r2, t.
Qed.

Lemma receive_any_order_witness :
  exists r1 r2 t,
    receive_all [Build_ReceivingChunk 2 [3]; Build_ReceivingChunk 0 [1; 2]] (new_receiving small)
    = Defined r1 /\
    receiving_update 9 r1 = (r2, [[1; 2; 3]], [MConfirm 2], false, t).
Proof.
  destruct (receive_any_order 0 3 [Build_ReceivingChunk 0 [1; 2]; Build_ReceivingChunk 2 [3]]
              [Build_ReceivingChunk 2 [3]; Build_ReceivingChunk 0 [1; 2]] 9 (new_receiving small))
    as (r1 & r2 & t & E1 & E2 & _); try (simpl; lia).
  - by split.
  - by repeat split.
  - apply Permutation_swap.
  - by exists r1, r2, t.
Defined.

(** C12: two connected safe streams without loss.  The left side writes data
    in any number of rounds; in each the data fits the window of the receiver and
    leaves room for an element in that of the sender,
    the sending half is updated often enough, the packets arrive once each in
    any order, the receiving half is updated when its confirmation is due and
    the confirmation arrives.  Nothing undefined happens, and everything
    written is delivered in order and confirmed, so that the window has moved
    to the end of the data.  The buffer holds two windows (a confirmation
    leaves the last write in it), and the data of all rounds ends before the
    offsets wrap around. *)
Theorem lossless_delivery cl cr size rds :
  0 < size <= cfg_window_size cl -> 0 <= cfg_wait_confirm_timeout cl ->
  2 * cfg_window_size cl < 65535 -> 2 * cfg_window_size cr < 65535 ->
  2 * cfg_window_size cl <= cfg_buffer_capacity cl ->
  Forall (round_fits cl cr size) rds ->
  confirm_times (cfg_send_confirm_timeout cr) 0 rds ->
  let data := concat (map round_data rds) in
  zlen data + size <= 65535 ->
  exists w, exec ((true, ELink size) :: rounds_script size 0 0 rds) (new_world cl cr) = Some w /\
    written (left w) = data /\ delivered (right w) = data /\
    last_confirmed_ (safe_stream_sending_ (ep (left w))) = zlen data /\
    chunks_ (sending_chunks_ (safe_stream_sending_ (ep (left w)))) = [].
Proof.
  intros Hs Hwt Hwl Hwr Hcap Hr Ht data Hlen.
  pose proof (zlen_nonneg data).
  assert (Hb : between cl cr size [] 0 0 0
    {| left := with_ep (new_endpoint cl) (LinkOut size (new_safe_stream cl)); right := new_endpoint cr |}).
  { destruct (linked_sender_flow cl size 0) as [_ Hm]; try lia.
    split; [|exact Hm|..]; try done; try lia.
    - intros now. by destruct (linked_sender_flow cl size now) as [Hf _]; try lia.
    - simpl. lia.
    - constructor. }
  destruct (rounds_between cl cr size rds _ _ _ _ _ Hb Hr Hwr Hcap) as (w & sent & confirms & last & E & Hw);
    [unfold zlen at 1; simpl; fold data; lia|done|].
  exists w. cbn [exec local_exec]. simpl.
  rewrite (proj2 (Z.leb_le 0 size)), (proj2 (Z.leb_le _ _)) by lia. simpl.
  split; [exact E|]. split; [apply (bt_written _ _ _ _ _ _ _ _ Hw)|].
  split; [apply (bt_delivered _ _ _ _ _ _ _ _ Hw)|].
  pose proof (bt_flow _ _ _ _ _ _ _ _ Hw 0) as Hf. pose proof (bt_flow _ _ _ _ _ _ _ _ Hw 1) as Hf1.
  split; [apply (fl_conf _ _ _ _ _ Hf)|].
  pose proof (fl_chunks _ _ _ _ _ Hf) as H0. pose proof (fl_chunks _ _ _ _ _ Hf1) as H1.
  destruct (chunks_ _) as [|c cs]; [done|]. inversion H0; inversion H1; subst. lia.
Qed.

(** Three rounds through a window of twelve bytes, with packets out of order. *)
Definition small_window : SafeStreamConfig :=
  {| cfg_buffer_capacity := 24; cfg_window_size := 12; cfg_max_data_size := 4;
     cfg_wait_confirm_timeout := 10; cfg_send_confirm_timeout := 5;
     cfg_send_repeat_timeout := 5; cfg_max_repeat_count := 3 |}.

Definition three_rounds : list Round :=
  [ {| r_writes := [[1; 2; 3]; [4; 5; 6; 7]]; r_time := 1; r_updates := 3;
       r_arrivals := [2; 0; 1]%nat; r_confirm := 9 |};
    {| r_writes := [[8; 9; 10; 11; 12; 13; 14; 15; 16]]; r_time := 12; r_updates := 4;
       r_arrivals := [1; 2; 0]%nat; r_confirm := 14 |};
    {| r_writes := [[17]; [18; 19]; [20]]; r_time := 40; r_updates := 2;
       r_arrivals := [1; 0]%nat; r_confirm := 50 |} ].

Lemma lossless_delivery_witness :
  exists w, exec ((true, ELink 3) :: rounds_script 3 0 0 three_rounds)
              (new_world small_window small_window) = Some w /\
    delivered (right w) = [1; 2; 3; 4; 5; 6; 7; 8; 9; 10; 11; 12; 13; 14; 15; 16; 17; 18; 19; 20].
Proof.
  assert (Hr : Forall (round_fits small_window small_window 3) three_rounds).
  { repeat apply List.Forall_cons; [| | |apply List.Forall_nil]; (split; [discriminate| | | | | |]);
      try (vm_compute; discriminate);
      try (repeat apply List.Forall_cons; try apply List.Forall_nil; discriminate || (unfold in_width; lia)).
    - apply (Permutation_app_comm [0; 1]%nat [2]%nat).
    - apply (Permutation_app_comm [0]%nat [1; 2]%nat).
    - apply (Permutation_app_comm [0]%nat [1]%nat). }
  destruct (lossless_delivery small_window small_window 3 three_rounds) as (w & E & _ & Hd & _);
    [split; [reflexivity|vm_compute; discriminate]|vm_compute; discriminate|reflexivity|reflexivity
    |vm_compute; discriminate|exact Hr|repeat split; vm_compute; discriminate|vm_compute; discriminate|].
  exists w. split; [exact E|exact Hd].
Defined.

End FlowProperties.
