(* ===== verification/SafeStreamLimits.v ===== *)
(** * Limits of the safe stream

    Behaviours of the code outside the conditions of the delivery theorems:
    what the confirmation of a repeated chunk, the wrap of the offsets, an
    empty write, a full buffer, the repeat limit and a larger element size
    really do. *)

From stdpp Require Import relations.
From S2P Require Import Prelude RingIndex StateMachine MStream PackedInt.
From S2P Require Import ApiProtocol SafeStreamApi SafeStreamTypes SafeStreamSending SafeStreamReceiving.
From S2P Require Import SafeStream.
Import SafeStreamRingIndex.

Module Limits.

(** The configuration of the tests. *)
Definition cfg : SafeStreamConfig :=
  {| cfg_buffer_capacity := 20480; cfg_window_size := 10240; cfg_max_data_size := 1024;
     cfg_wait_confirm_timeout := 150; cfg_send_confirm_timeout := 50;
     cfg_send_repeat_timeout := 75; cfg_max_repeat_count := 5 |}.

(** The data of the write was resolved as sent and confirmed. *)
Definition confirmed_write (e : Endpoint) (a : SendingDataAction) : Prop :=
  a ∈ resolved_ (send_data_buffer_ (safe_stream_sending_ (ep e))) /\
  state_ (sda_state a) = kDone.

(** A repeated chunk that begins before the confirmed offset and ends
    after it is confirmed to its end although its tail is dropped: there is a
    run in which a write is resolved as confirmed, is no longer buffered, and
    none of its bytes was delivered. *)
Theorem confirmed_not_delivered :
  exists w a, rtc world_step (new_world cfg cfg) w /\ confirmed_write (left w) a /\
    sd_data (sending_data a) = replicate 50 2 /\
    zlen (delivered (right w)) <= sd_offset (sending_data a).
Proof.
  eexists _, _; split; [|split; [split|split]].
  - apply (exec_sound
      [(true, ELink 100); (true, EWrite (replicate 10 1)); (true, EUpdateSending 1);
       (false, EPacket 0); (false, EUpdateReceiving 1000);
       (true, EWrite (replicate 50 2)); (true, EWrite (replicate 50 3));
       (true, EUpdateSending 200); (false, EPacket 1); (false, EUpdateReceiving 2000);
       (true, EPacket 1)]).
    vm_compute; reflexivity.
  - apply list_elem_of_further, list_elem_of_here.
  - reflexivity.
  - reflexivity.
  - vm_compute; discriminate.
Qed.

(** The confirmation of the last byte of a write, which is the one the
    receiving half sends when it has all of the write, leaves the write in
    the buffer: it is resolved only by a later confirmation. *)
Theorem confirm_keeps_write stream s a :
  sender_ok stream s -> zlen stream <= 65535 ->
  a ∈ send_action_views_ (send_data_buffer_ s) ->
  let last_byte := sd_offset (sending_data a) + zlen (sd_data (sending_data a)) - 1 in
  a ∈ send_action_views_ (send_data_buffer_ (Confirm last_byte s)).
Proof.
  intros Hs Hlen Ha last_byte; unfold Confirm. zcase; [|done].
  unfold buffer_confirm, resolve_if; cbn [upd_offsets upd_buffer upd_chunks send_data_buffer_
    send_action_views_]. apply list_elem_of_In, List.filter_In.
  split; [by apply list_elem_of_In|]. apply negb_true_iff.
  pose proof (proj1 (list.Forall_forall _ _) (buffer_views _ _ (so_buffer _ _ Hs)) a Ha) as Hv.
  unfold before_offset, Before.
  rewrite (view_range_end stream a _ Hv Hlen). fold last_byte.
  destruct Hv as [[H0 He _] Hne]. apply zlen_pos in Hne.
  unfold Distance. rewrite Ring.Distance_self by (unfold Ring.ring_ok, max, last_byte; lia).
  apply Z.ltb_ge. cbn [window_size get_offset_range]. rewrite (so_sdb_window _ _ Hs).
  apply (so_window _ _ Hs).
Qed.

(** A narrow window, a sender with one write of three bytes. *)
Definition narrow : SafeStreamConfig :=
  {| cfg_buffer_capacity := 40; cfg_window_size := 10; cfg_max_data_size := 4;
     cfg_wait_confirm_timeout := 150; cfg_send_confirm_timeout := 50;
     cfg_send_repeat_timeout := 75; cfg_max_repeat_count := 5 |}.

Definition one_write : SafeStreamSendingAction := (SendData [1; 2; 3] (new_sending narrow)).1.

Lemma one_write_ok : sender_ok [1; 2; 3] one_write.
Proof.
  apply (SendData_ok [] [1; 2; 3] (new_sending narrow) one_write (Some 0%nat)); try done.
  apply new_sending_ok; simpl; lia.
Qed.

Lemma confirm_keeps_write_witness :
  exists a, a ∈ send_action_views_ (send_data_buffer_ (Confirm 2 one_write)).
Proof.
  eexists. apply (confirm_keeps_write [1; 2; 3] one_write
    (new_sending_action 0 {| sd_offset := 0; sd_data := [1; 2; 3] |})).
  - exact one_write_ok.
  - unfold zlen; simpl; lia.
  - apply list_elem_of_here.
Defined.

(** A confirmation resolves as confirmed also every write that ends more
    than a window after the confirmed offset; the buffer capacity of the
    tests is twice the window, so such writes exist. *)
Theorem confirm_resolves_far_write stream s a offset :
  sender_ok stream s -> zlen stream <= 65535 ->
  a ∈ send_action_views_ (send_data_buffer_ s) ->
  0 <= offset -> Distance (last_confirmed_ s) offset <= window_size_ s ->
  offset + window_size_ s < sd_offset (sending_data a) + zlen (sd_data (sending_data a)) - 1 ->
  SentConfirmed a ∈ resolved_ (send_data_buffer_ (Confirm offset s)) /\
  a ∉ send_action_views_ (send_data_buffer_ (Confirm offset s)).
Proof.
  intros Hs Hlen Ha Ho Hd Hfar; unfold Confirm.
  rewrite (proj2 (Z.leb_le _ _)) by done.
  pose proof (proj1 (list.Forall_forall _ _) (buffer_views _ _ (so_buffer _ _ Hs)) a Ha) as Hv.
  assert (Hb : before_offset (sdb_window_size (send_data_buffer_ s)) offset a = true).
  { unfold before_offset, Before. rewrite (view_range_end stream a _ Hv Hlen).
    destruct Hv as [[H0 He _] Hne]. destruct (so_window _ _ Hs) as [Hw _]. unfold Distance.
    rewrite Ring.Distance_forward by (unfold max; lia). apply Z.ltb_lt.
    cbn [window_size get_offset_range]. rewrite (so_sdb_window _ _ Hs). lia. }
  unfold buffer_confirm, resolve_if; cbn [upd_offsets upd_buffer upd_chunks send_data_buffer_
    send_action_views_ resolved_]. split.
  - apply elem_of_app; right. apply list_elem_of_In, List.in_map, List.filter_In.
    split; [by apply list_elem_of_In|done].
  - rewrite list_elem_of_In, List.filter_In, Hb. by intros [_ ?].
Qed.

Definition far_write : SafeStreamSendingAction :=
  (SendData (replicate 30 7) one_write).1.

Lemma confirm_resolves_far_write_witness :
  let a := new_sending_action 1 {| sd_offset := 3; sd_data := replicate 30 7 |} in
  SentConfirmed a ∈ resolved_ (send_data_buffer_ (Confirm 2 far_write)).
Proof.
  intros a. refine (proj1 (confirm_resolves_far_write ([1; 2; 3] ++ replicate 30 7)
                             far_write a 2 _ _ _ _ _ _)).
  - apply (SendData_ok [1; 2; 3] (replicate 30 7) one_write far_write (Some 1%nat)).
    + exact one_write_ok.
    + discriminate.
    + vm_compute; discriminate.
    + reflexivity.
  - vm_compute; discriminate.
  - apply list_elem_of_further, list_elem_of_here.
  - lia.
  - vm_compute; discriminate.
  - vm_compute; reflexivity.
Defined.

(** The distance to an offset past the wrap point is one less than the
    number of bytes, so the slice at the [k]-th byte of a write that crosses
    the wrap point starts one byte too early. *)
Theorem wrapped_slice_shifted b a k max_size :
  send_action_views_ b = [a] ->
  let v := sd_offset (sending_data a) in
  let data := sd_data (sending_data a) in
  ok v -> 0 < k < zlen data -> max < v + k ->
  zlen data <= sdb_window_size b -> zlen data < max -> 0 < max_size ->
  exists b', GetSlice (Clockwise v k) max_size b
    = Defined (b', take (Z.to_nat max_size) (drop (Z.to_nat (k - 1)) data)).
Proof.
  intros Hv v data Hok Hk Hwrap Hw Hl Hm. rewrite ok_range in Hok. unfold max in *.
  assert (Hring : 0 < 65535 < 2 ^ 16) by lia.
  assert (Hc : forall j, 0 <= j < 65535 -> 65535 < v + j -> Clockwise v j = v + j - 65536).
  { intros j Hj Hvj. unfold Clockwise, max.
    rewrite (proj2 (Ring.ring_clockwise 16 65535 Hring v j ltac:(unfold Ring.ring_ok; lia) Hj)).
    symmetry; apply Z.mod_unique with 1; lia. }
  assert (Hd1 : Distance v (v + k - 65536) = k - 1)
    by (unfold Distance, max; rewrite Ring.Distance_backward; lia).
  unfold GetSlice. rewrite Hv, Hc by lia. cbn [split_at]. unfold holds_offset, InRange.
  cbn [get_offset_range begin end_ window_size]. fold v data.
  rewrite wrap_small by (unfold in_width; lia).
  assert (Ha : add v (zlen data - 1) = v + (zlen data - 1) - 65536).
  { unfold add, Ring.add. rewrite (proj2 (Z.ltb_lt _ _)) by lia. apply Hc; lia. }
  rewrite Ha, Hd1. assert (Hd2 : Distance (v + k - 65536) (v + (zlen data - 1) - 65536)
    = zlen data - 1 - k) by (unfold Distance, max; rewrite Ring.Distance_forward; lia).
  rewrite Hd2, !(proj2 (Z.leb_le _ _)) by lia. cbn [andb slice_loop].
  change (sending_data (Sending a)) with (sending_data a). fold v data. rewrite Hd1.
  rewrite (proj2 (Z.ltb_ge _ _)) by lia.
  set (n := Z.min (zlen data - (k - 1)) max_size).
  assert (Htake : take (Z.to_nat n) (drop (Z.to_nat (k - 1)) data)
                  = take (Z.to_nat max_size) (drop (Z.to_nat (k - 1)) data)).
  { destruct (Z.le_ge_cases (zlen data - (k - 1)) max_size).
    - rewrite !take_ge; [done|rewrite length_drop; unfold zlen in *; lia..].
    - f_equal; unfold n; lia. }
  rewrite Htake. zcase; [|rewrite app_nil_r]; by eexists.
Qed.

Lemma wrapped_slice_shifted_witness :
  let b := (AddData {| sd_offset := 65533; sd_data := [10; 11; 12; 13; 14; 15] |}
              (new_send_data_buffer 100)).1 in
  exists b', GetSlice (Clockwise 65533 4) 2 b = Defined (b', [13; 14]).
Proof.
  intros b.
  destruct (wrapped_slice_shifted b
    (new_sending_action 0 {| sd_offset := 65533; sd_data := [10; 11; 12; 13; 14; 15] |}) 4 2)
    as [b' E];
    [reflexivity|vm_compute; split; discriminate|vm_compute; split; reflexivity|reflexivity
    |vm_compute; discriminate|reflexivity|reflexivity|].
  exists b'. exact E.
Defined.

(** An empty write takes an offset without taking any byte: the next
    write leaves a hole at that offset and the update that should send it
    reads before the beginning of its data. *)
Theorem empty_write_undefined c size data now :
  0 < size <= cfg_window_size c -> 2 * cfg_window_size c < 65535 ->
  0 < zlen data < 65534 -> zlen data <= cfg_buffer_capacity c ->
  let s := (SendData [] (set_max_data_size size (new_sending c))).1 in
  sending_update now (SendData data s).1 = Undefined.
Proof.
  intros Hsz Hw Hd Hc s.
  assert (Hs : s = upd_offsets 0 1 0 (upd_buffer
     (AddData {| sd_offset := 0; sd_data := [] |} (new_send_data_buffer (cfg_window_size c))).1
     (set_max_data_size size (new_sending c)))).
  { unfold s, SendData. simpl. change (zlen ([] : bytes)) with 0.
    rewrite (proj2 (Z.ltb_ge _ _)) by lia. reflexivity. }
  unfold SendData at 1. rewrite Hs. cbn -[wrap zlen add].
  rewrite (proj2 (Z.ltb_ge _ _)) by (change (zlen ([] : bytes)) with 0; lia).
  unfold sending_update, HandleTimeouts, SendDataChunk; cbn -[wrap zlen add Distance GetSlice].
  rewrite (wrap_small 16 size) by (unfold in_width; lia).
  rewrite (proj2 (Z.eqb_neq _ _)) by lia. cbn [negb].
  rewrite (add_small 0 size) by lia.
  unfold Distance at 1. rewrite Ring.Distance_forward by (unfold max; lia).
  rewrite (proj2 (Z.ltb_ge _ _)) by lia.
  unfold GetSlice; cbn -[wrap zlen add Distance slice_loop].
  unfold holds_offset, InRange; cbn -[wrap zlen Distance slice_loop].
  change (zlen ([] : bytes)) with 0. change (Distance 0 (add 0 (wrap 16 (0 - 1)))) with 0.
  change (Distance 0 0) with 0. rewrite !(proj2 (Z.leb_le 0 _)) by lia.
  cbn -[wrap zlen Distance Clockwise Z.min Z.sub].
  change (Distance 0 0) with 0. change (zlen ([] : bytes)) with 0. change (0 <? 0) with false. cbv iota.
  rewrite Z.sub_0_r, Z.min_l, Z.sub_0_r by lia. rewrite (proj2 (Z.eqb_neq _ _)) by lia.
  change (Clockwise 0 (wrap 16 0)) with 0. change (Distance 1 0) with 65534.
  by rewrite (proj2 (Z.ltb_lt _ _)) by lia.
Qed.

Lemma empty_write_undefined_witness :
  sending_update 0 (SendData [1; 2] (SendData [] (set_max_data_size 4 (new_sending cfg))).1).1
  = Undefined.
Proof. apply (empty_write_undefined cfg 4 [1; 2] 0); zeval. Defined.

(** A write that does not fit the buffer is not refused: the write action
    of the empty view is used, which is undefined. *)
Theorem write_full_buffer data s :
  Write data s = Undefined <->
  buffer_capacity_ (safe_stream_sending_ s)
    < buffer_size_ (send_data_buffer_ (safe_stream_sending_ s)) + zlen data.
Proof.
  unfold Write, SendData. zcase; simpl; split; intros; done || lia.
Qed.

(** When a chunk was repeated as often as allowed, the next update
    removes it from the list of sent chunks and then reads its end offset:
    there is a run after which the update is undefined. *)
Theorem repeat_limit_undefined :
  exists w, rtc world_step (new_world cfg cfg) w /\
    update_sending 1400 (ep (left w)) = Undefined.
Proof.
  eexists; split.
  - apply (exec_sound
      [(true, ELink 100); (true, EWrite [1; 2; 3]); (true, EUpdateSending 1);
       (true, EUpdateSending 200); (true, EUpdateSending 400); (true, EUpdateSending 600);
       (true, EUpdateSending 800); (true, EUpdateSending 1000)]).
    vm_compute; reflexivity.
  - vm_compute; reflexivity.
Qed.

(** When the element size grows, chunks that were sent apart are sent again as
    one: [Register] removes the first of them from the list and goes on to read
    its repeat count through the reference it kept. *)
Theorem merged_chunks_undefined :
  exists w, rtc world_step (new_world cfg cfg) w /\
    update_sending 400 (ep (left w)) = Undefined.
Proof.
  eexists; split.
  - apply (exec_sound
      [(true, ELink 2); (true, EWrite [1; 2; 3; 4]); (true, EUpdateSending 1);
       (true, EUpdateSending 2); (true, ELink 100)]).
    vm_compute; reflexivity.
  - vm_compute; reflexivity.
Qed.

End Limits.
