(* ===== verification/Actions.v ===== *)
(** * Actions ([aether/actions/])

    The registry of the actions ([action_registry.*]), the handles that count
    references to its entries ([IndexShare], used by [Action] and
    [ActionView]), the processor that updates the actions
    ([action_processor.*]) and the notifying action ([action.h]).

    [action_list_] is a [std::list]: an entry keeps its address, the [node],
    until it is erased.  Access through an iterator of an erased entry, and a
    failed assertion, are [Undefined]. *)

From stdpp Require Import relations.
From S2P Require Import Prelude.

Module Registry.

(** ** Entries and handles *)

Record Index := {
  node : nat;
  counter : Z;
  action : option nat;
}.

Record ActionRegistry := {
  action_list_ : list Index;
  next_node : nat;
}.

Definition empty_registry : ActionRegistry := {| action_list_ := []; next_node := 0 |}.

(** An [IndexShare]: the node of its iterator, none when [registry_] is null. *)
Abbreviation IndexShare := (option nat).

Definition find_node (n : nat) (l : list Index) : option Index :=
  List.find (fun i => Nat.eqb (node i) n) l.

(** Update of an entry through an iterator. *)
Definition modify (n : nat) (f : Index -> Index) (g : ActionRegistry) : outcome ActionRegistry :=
  match find_node n (action_list_ g) with
  | Some _ =>
      Defined {| action_list_ := map (fun i => if Nat.eqb (node i) n then f i else i)
                                   (action_list_ g);
                 next_node := next_node g |}
  | None => Undefined
  end.

Definition incr (i : Index) : Index :=
  {| node := node i; counter := counter i + 1; action := action i |}.
Definition decr (i : Index) : Index :=
  {| node := node i; counter := counter i - 1; action := action i |}.
Definition set_action (a : option nat) (i : Index) : Index :=
  {| node := node i; counter := counter i; action := a |}.

(** The constructor from an iterator of the registry. *)
Definition share_new (n : nat) (g : ActionRegistry) : outcome (ActionRegistry * IndexShare) :=
  let* g' := modify n incr g in Defined (g', Some n).

(** The copy constructor. *)
Definition share_copy (other : IndexShare) (g : ActionRegistry)
  : outcome (ActionRegistry * IndexShare) :=
  match other with
  | Some n => let* g' := modify n incr g in Defined (g', Some n)
  | None => Defined (g, None)
  end.

(** The move constructor: the new handle and what is left of the other. *)
Definition share_move (other : IndexShare) : IndexShare * IndexShare := (other, None).

(** The destructor. *)
Definition share_destroy (s : IndexShare) (g : ActionRegistry) : outcome ActionRegistry :=
  match s with
  | Some n =>
      match find_node n (action_list_ g) with
      | Some i =>
          if counter i =? 0 then Undefined
          else if counter i - 1 =? 0
          then Defined {| action_list_ := List.filter (fun j => negb (Nat.eqb (node j) n))
                                            (action_list_ g);
                          next_node := next_node g |}
          else modify n decr g
      | None => Undefined
      end
  | None => Defined g
  end.

(** Copy assignment to another handle: its old reference is forgotten, not
    released. *)
Definition assign_copy (s other : IndexShare) (g : ActionRegistry)
  : outcome (ActionRegistry * IndexShare) :=
  match other with
  | Some n => let* g' := modify n incr g in Defined (g', Some n)
  | None => Defined (g, None)
  end.

(** Move assignment to another handle: the new value of both. *)
Definition assign_move (s other : IndexShare) : IndexShare * IndexShare := (other, None).

(** [get]. *)
Definition get (s : IndexShare) (g : ActionRegistry) : outcome (option nat) :=
  match s with
  | Some n => match find_node n (action_list_ g) with
              | Some i => Defined (action i)
              | None => Undefined
              end
  | None => Defined None
  end.

(** [Erase]. *)
Definition Erase (s : IndexShare) (g : ActionRegistry) : outcome ActionRegistry :=
  match s with
  | Some n => modify n (set_action None) g
  | None => Defined g
  end.

(** [Register]. *)
Definition Register (a : nat) (g : ActionRegistry) : outcome (ActionRegistry * IndexShare) :=
  share_new (next_node g)
    {| action_list_ := action_list_ g ++ [{| node := next_node g; counter := 0; action := Some a |}];
       next_node := S (next_node g) |}.

(** The move constructor of [Action]: the entry points to the new object. *)
Definition retarget (s : IndexShare) (a : nat) (g : ActionRegistry) : outcome ActionRegistry :=
  match s with
  | Some n => modify n (set_action (Some a)) g
  | None => Defined g
  end.

(** ** Programs

    A program holds handles in numbered slots. *)

Record Program := {
  registry : ActionRegistry;
  slots : list IndexShare;
}.

Inductive operation :=
  | ORegister (a : nat)
  | OCopy (i : nat)
  | OMove (i : nat)
  | ODestroy (i : nat)
  | OAssignCopy (i j : nat)
  | OAssignMove (i j : nat)
  | OGet (i : nat)
  | OErase (i : nat)
  | ORetarget (i a : nat).

(** A destroyed slot is empty and stays. *)
Definition run_op (op : operation) (p : Program) : outcome Program :=
  let g := registry p in
  let slot i := default None (slots p !! i) in
  match op with
  | ORegister a =>
      let* (g', s) := Register a g in Defined {| registry := g'; slots := slots p ++ [s] |}
  | OCopy i =>
      let* (g', s) := share_copy (slot i) g in
      Defined {| registry := g'; slots := slots p ++ [s] |}
  | OMove i =>
      let '(s, old) := share_move (slot i) in
      Defined {| registry := g; slots := <[i := old]> (slots p) ++ [s] |}
  | ODestroy i =>
      let* g' := share_destroy (slot i) g in
      Defined {| registry := g'; slots := <[i := None]> (slots p) |}
  | OAssignCopy i j =>
      if decide (i = j) then Defined p
      else if decide (i < length (slots p))%nat
      then let* (g', s) := assign_copy (slot i) (slot j) g in
           Defined {| registry := g'; slots := <[i := s]> (slots p) |}
      else Defined p
  | OAssignMove i j =>
      if decide (i = j) then Defined p
      else if decide (i < length (slots p))%nat
      then let '(s, old) := assign_move (slot i) (slot j) in
           Defined {| registry := g; slots := <[i := s]> (<[j := old]> (slots p)) |}
      else Defined p
  | OGet i => let* _ := get (slot i) g in Defined p
  | OErase i => let* g' := Erase (slot i) g in Defined {| registry := g'; slots := slots p |}
  | ORetarget i a =>
      let* g' := retarget (slot i) a g in Defined {| registry := g'; slots := slots p |}
  end.

Fixpoint run_ops (ops : list operation) (p : Program) : outcome Program :=
  match ops with
  | [] => Defined p
  | op :: ops' => let* p' := run_op op p in run_ops ops' p'
  end.

Definition new_program : Program := {| registry := empty_registry; slots := [] |}.

(** ** References *)

(** Number of handles to a node. *)
Definition references (n : nat) (ss : list IndexShare) : Z :=
  zlen (List.filter (fun s => match s with Some m => Nat.eqb m n | None => false end) ss).

Record program_ok (p : Program) : Prop := {
  nodes_unique : NoDup (map node (action_list_ (registry p)));
  nodes_old : Forall (fun i => (node i < next_node (registry p))%nat) (action_list_ (registry p));
  counters : Forall (fun i => 0 < counter i /\ references (node i) (slots p) <= counter i)
               (action_list_ (registry p));
  handles : Forall (fun s => forall n, s = Some n ->
                      exists i, i ∈ action_list_ (registry p) /\ node i = n) (slots p);
}.

Lemma references_app n a b : references n (a ++ b) = references n a + references n b.
Proof. unfold references. by rewrite List.filter_app, zlen_app. Qed.

Lemma references_cons n s ss :
  references n (s :: ss) = (if decide (s = Some n) then 1 else 0) + references n ss.
Proof.
  unfold references. simpl. destruct s as [m|]; [|by rewrite decide_False].
  destruct (Nat.eqb_spec m n) as [->|Hne].
  - rewrite decide_True by done. by rewrite zlen_cons.
  - rewrite decide_False by congruence. lia.
Qed.

Lemma references_nonneg n ss : 0 <= references n ss.
Proof. apply zlen_nonneg. Qed.

Lemma references_insert n i s ss :
  (i < length ss)%nat ->
  references n (<[i := s]> ss)
  = references n ss - (if decide (default None (ss !! i) = Some n) then 1 else 0)
    + (if decide (s = Some n) then 1 else 0).
Proof.
  revert i; induction ss as [|t ss IH]; intros [|i] Hi; simpl in Hi; [lia..| |];
    cbn [insert list_insert]; rewrite !references_cons; cbn [lookup list_lookup default];
    [repeat destruct (decide _); simpl in *; congruence || lia|].
  rewrite IH by lia. repeat destruct (decide _); lia.
Qed.

Lemma references_pos n i ss : ss !! i = Some (Some n) -> 0 < references n ss.
Proof.
  revert i; induction ss as [|s ss IH]; intros [|i]; simpl; try done; rewrite references_cons.
  - intros [= ->]. rewrite decide_True by done. pose proof (references_nonneg n ss). lia.
  - intros H. apply IH in H. destruct (decide _); lia.
Qed.

Lemma find_node_elem n l i :
  NoDup (map node l) -> i ∈ l -> node i = n -> find_node n l = Some i.
Proof.
  intros Hn Hi <-. unfold find_node. induction l as [|j l IH]; [by apply not_elem_of_nil in Hi|].
  simpl in *. inversion Hn as [|? ? Hj Hn']; subst.
  apply elem_of_cons in Hi as [->|Hi]; [by rewrite Nat.eqb_refl|].
  destruct (Nat.eqb_spec (node j) (node i)) as [E|]; [|auto].
  exfalso; apply Hj. rewrite E. by apply list_elem_of_fmap_2.
Qed.

Lemma find_node_some n l i : find_node n l = Some i -> i ∈ l /\ node i = n.
Proof.
  intros H; apply List.find_some in H as [H E]. split; [by apply list_elem_of_In|].
  by apply Nat.eqb_eq.
Qed.

(** References counted by an entry and held by no handle. *)
Definition slack (p : Program) (i : Index) : Z := counter i - references (node i) (slots p).

Definition exact (p : Program) : Prop :=
  Forall (fun i => slack p i = 0) (action_list_ (registry p)).

Definition live (g : ActionRegistry) (ss : list IndexShare) : Prop :=
  Forall (fun s => forall n, s = Some n -> exists i, i ∈ action_list_ g /\ node i = n) ss.

(** A surplus reference never goes away. *)
Definition keeps_surplus (p p' : Program) : Prop :=
  forall i, i ∈ action_list_ (registry p) -> 0 < slack p i ->
  exists i', i' ∈ action_list_ (registry p') /\ node i' = node i /\ slack p i <= slack p' i'.

Definition update (n : nat) (f : Index -> Index) (i : Index) : Index :=
  if Nat.eqb (node i) n then f i else i.

Definition updated (n : nat) (f : Index -> Index) (ss : list IndexShare) (p : Program) : Program :=
  {| registry := {| action_list_ := map (update n f) (action_list_ (registry p));
                    next_node := next_node (registry p) |};
     slots := ss |}.

Lemma update_node n f i : (forall j, node (f j) = node j) -> node (update n f i) = node i.
Proof. intros H; unfold update; by destruct (Nat.eqb _ _). Qed.

Lemma live_updated n f ss ss' p :
  (forall j, node (f j) = node j) -> live (registry p) ss -> live (registry (updated n f ss' p)) ss.
Proof.
  intros Hf H. eapply Forall_impl; [|exact H]. intros s Hs m E.
  destruct (Hs m E) as (i & Hi & <-). exists (update n f i).
  split; [by apply list_elem_of_fmap_2|by apply update_node].
Qed.

(** An operation that changes one entry and the handles. *)
Lemma updated_ok n f ss p :
  program_ok p -> (forall j, node (f j) = node j) -> live (registry p) ss ->
  (forall i, i ∈ action_list_ (registry p) ->
     0 < counter (update n f i) /\
     slack p i <= counter (update n f i) - references (node i) ss) ->
  program_ok (updated n f ss p) /\ keeps_surplus p (updated n f ss p).
Proof.
  intros [Hu Ho Hc Hh] Hf Hl Hs.
  assert (Hnodes : map node (map (update n f) (action_list_ (registry p)))
                   = map node (action_list_ (registry p))).
  { rewrite map_map. apply List.map_ext. intros; by apply update_node. }
  split; [split|].
  - simpl. by rewrite Hnodes.
  - simpl. apply List.Forall_map. eapply Forall_impl; [|exact Ho].
    intros i ?; cbv beta. by rewrite update_node.
  - simpl. apply List.Forall_map, List.Forall_forall. intros i Hi.
    rewrite update_node by done. rewrite <- list_elem_of_In in Hi.
    destruct (Hs i Hi) as [H0 H1]. split; [done|].
    pose proof (proj1 (list.Forall_forall _ _) Hc i Hi) as [_ H2]. unfold slack in H1. lia.
  - by apply live_updated.
  - intros i Hi _. exists (update n f i).
    split; [by apply list_elem_of_fmap_2|]. rewrite update_node by done. split; [done|].
    unfold slack at 2. rewrite update_node by done. apply Hs, Hi.
Qed.

Lemma updated_exact n f ss p :
  (forall j, node (f j) = node j) ->
  (forall i, i ∈ action_list_ (registry p) ->
     slack p i = counter (update n f i) - references (node i) ss) ->
  exact p -> exact (updated n f ss p).
Proof.
  intros Hf Hs He. apply List.Forall_map, List.Forall_forall. intros i Hi.
  rewrite <- list_elem_of_In in Hi. unfold slack. rewrite update_node by done. simpl.
  rewrite <- (Hs i Hi). exact (proj1 (list.Forall_forall _ _) He i Hi).
Qed.

Lemma modify_live n f p ss i :
  program_ok p -> slots p !! i = Some (Some n) ->
  modify n f (registry p) = Defined (registry (updated n f ss p)).
Proof.
  intros [Hu _ _ Hh] Hi. destruct (proj1 (Forall_lookup _ _) Hh i _ Hi n eq_refl) as (x & Hx & Hn).
  unfold modify. by rewrite (find_node_elem n _ x).
Qed.

Lemma updated_id n ss p : updated n (fun i => i) ss p
  = {| registry := registry p; slots := ss |}.
Proof.
  unfold updated. f_equal. destruct (registry p) as [l k]; simpl. f_equal.
  induction l as [|i l IH]; simpl; [done|]. rewrite IH. unfold update. by destruct (Nat.eqb _ _).
Qed.

Lemma slot_cases (i : nat) (p : Program) :
  default None (slots p !! i) = None \/
  exists n, slots p !! i = Some (Some n) /\ (i < length (slots p))%nat.
Proof.
  destruct (slots p !! i) as [[n|]|] eqn:E; simpl; auto. right. exists n; split; [done|].
  by apply lookup_lt_Some in E.
Qed.

Lemma live_slot g ss i n :
  live g ss -> ss !! i = Some (Some n) -> live g [Some n].
Proof.
  intros H Hi. apply Forall_singleton. intros m [= <-].
  exact (proj1 (Forall_lookup _ _) H i _ Hi n eq_refl).
Qed.

Lemma live_insert g ss i s : live g ss -> live g [s] -> live g (<[i := s]> ss).
Proof. intros H Hs. apply Forall_insert; [done|]. by inversion Hs. Qed.

Lemma live_None g : live g [None].
Proof. by apply Forall_singleton. Qed.

Lemma entry_ok p i : program_ok p -> i ∈ action_list_ (registry p) -> 0 < counter i /\ 0 <= slack p i.
Proof.
  intros H Hi. pose proof (proj1 (list.Forall_forall _ _) (counters _ H) i Hi) as [H1 H2].
  unfold slack. lia.
Qed.

Definition no_leak (op : operation) (p : Program) : Prop :=
  match op with
  | OAssignCopy i j | OAssignMove i j => i = j \/ default None (slots p !! i) = None
  | _ => True
  end.

Record op_spec (op : operation) (p p' : Program) : Prop := {
  spec_ok : program_ok p';
  spec_surplus : keeps_surplus p p';
  spec_exact : no_leak op p -> exact p -> exact p';
}.

(** The common shape: one entry changes its counter as its handles do. *)
Lemma op_updated op n f ss p :
  program_ok p -> (forall j, node (f j) = node j) -> live (registry p) ss ->
  (forall i, i ∈ action_list_ (registry p) ->
     0 < counter (update n f i) /\
     slack p i <= counter (update n f i) - references (node i) ss /\
     (no_leak op p -> slack p i = counter (update n f i) - references (node i) ss)) ->
  op_spec op p (updated n f ss p).
Proof.
  intros Hp Hf Hl Hs. destruct (updated_ok n f ss p) as [H1 H2]; try done.
  { intros i Hi; destruct (Hs i Hi) as (? & ? & ?); done. }
  split; [done..|]. intros Hn He. apply updated_exact; try done.
  intros i Hi; by apply (Hs i Hi).
Qed.

Lemma op_slots op ss p :
  program_ok p -> live (registry p) ss ->
  (forall n, references n ss <= references n (slots p) /\
     (no_leak op p -> references n ss = references n (slots p))) ->
  op_spec op p {| registry := registry p; slots := ss |}.
Proof.
  intros Hp Hl Hr. rewrite <- (updated_id 0). apply op_updated; try done.
  intros i Hi. destruct (entry_ok p i Hp Hi) as [H1 H2]. destruct (Hr (node i)) as [H3 H4].
  unfold update. destruct (Nat.eqb _ _); unfold slack in *; split_and!; try done; try lia;
    intros Hn; specialize (H4 Hn); lia.
Qed.

Lemma op_same op p : program_ok p -> op_spec op p p.
Proof. intros Hp; split; try done. intros i Hi ?; exists i; done. Qed.

Ltac counting :=
  unfold update, slack;
  repeat match goal with
  | |- context [Nat.eqb ?a ?b] => destruct (Nat.eqb_spec a b)
  | |- context [decide ?P] => destruct (decide P)
  end; simpl; split_and?; intros; simplify_eq; try lia.

(** A slot is not both empty and a handle. *)
Ltac clash :=
  destruct_or?;
  first [congruence
        | match goal with
          | H1 : _ = None, H2 : _ = Some _ |- _ =>
              exfalso; discriminate (eq_trans (eq_sym H2) H1)
          end].

Lemma copy_spec i p :
  program_ok p -> exists p', run_op (OCopy i) p = Defined p' /\ op_spec (OCopy i) p p'.
Proof.
  intros Hp; simpl. destruct (slot_cases i p) as [E|(n & E & Hi)].
  - rewrite E; simpl. eexists; split; [done|]. apply op_slots; [done| |].
    + apply Forall_app; split; [apply Hp|apply live_None].
    + intros m; rewrite references_app, references_cons; simpl. change (references m []) with 0. lia.
  - rewrite E; simpl. rewrite (modify_live n incr p (slots p ++ [Some n]) i) by done.
    eexists; split; [done|]. apply op_updated; try done.
    + apply Forall_app; split; [apply Hp|by eapply live_slot, E; apply Hp].
    + intros x Hx. destruct (entry_ok p x Hp Hx) as [H1 H2].
      rewrite references_app, references_cons. change (references (node x) []) with 0. counting.
Qed.

Lemma move_spec i p :
  program_ok p -> exists p', run_op (OMove i) p = Defined p' /\ op_spec (OMove i) p p'.
Proof.
  intros Hp; simpl. eexists; split; [done|]. destruct (slot_cases i p) as [E|(n & E & Hi)].
  - apply op_slots; [done| |].
    + apply Forall_app; split; [apply live_insert; [apply Hp|apply live_None]|rewrite E; apply live_None].
    + intros m. rewrite references_app, references_cons, E. change (references m []) with 0.
      destruct (decide (i < length (slots p))%nat) as [Hi|Hi].
      * rewrite references_insert, E by done. counting.
      * rewrite list_insert_ge by lia. counting.
  - apply op_slots; [done| |].
    + apply Forall_app; split; [apply live_insert; [apply Hp|apply live_None]|].
      rewrite E; simpl. eapply live_slot, E; apply Hp.
    + intros m. rewrite references_app, references_cons, references_insert, E by done. simpl.
      change (references m []) with 0. counting.
Qed.

Lemma assign_copy_spec i j p :
  program_ok p ->
  exists p', run_op (OAssignCopy i j) p = Defined p' /\ op_spec (OAssignCopy i j) p p'.
Proof.
  intros Hp; cbn [run_op]. destruct (decide (i = j)) as [|Hne];
    [exists p; split; [done|by apply op_same]|].
  destruct (decide _) as [Hi|]; [|exists p; split; [done|by apply op_same]].
  destruct (slot_cases j p) as [E|(n & E & Hj)]; rewrite E; simpl.
  - eexists; split; [done|]. apply op_slots; [done|apply live_insert; [apply Hp|apply live_None]|].
    intros m. rewrite references_insert by done. simpl no_leak.
    counting; clash.
  - rewrite (modify_live n incr p (<[i := Some n]> (slots p)) j) by done.
    eexists; split; [done|]. apply op_updated; try done.
    + apply live_insert; [apply Hp|eapply live_slot, E; apply Hp].
    + intros x Hx. destruct (entry_ok p x Hp Hx) as [H1 H2].
      rewrite references_insert by done. simpl no_leak.
      counting; clash.
Qed.

Lemma assign_move_spec i j p :
  program_ok p ->
  exists p', run_op (OAssignMove i j) p = Defined p' /\ op_spec (OAssignMove i j) p p'.
Proof.
  intros Hp; cbn [run_op]. destruct (decide (i = j)) as [|Hne];
    [exists p; split; [done|by apply op_same]|].
  destruct (decide _) as [Hi|]; [|exists p; split; [done|by apply op_same]].
  simpl. eexists; split; [done|]. apply op_slots; [done| |].
  - apply live_insert; [apply live_insert; [apply Hp|apply live_None]|].
    destruct (slot_cases j p) as [E|(n & E & Hj)]; rewrite E; [apply live_None|].
    simpl. eapply live_slot, E; apply Hp.
  - intros m. rewrite references_insert by (by rewrite length_insert).
    rewrite list_lookup_insert_ne by done.
    destruct (slot_cases j p) as [E|(n & E & Hj)].
    + rewrite E. destruct (decide (j < length (slots p))%nat).
      * rewrite references_insert, E by done.
        simpl no_leak. counting; clash.
      * rewrite list_insert_ge by lia.
        simpl no_leak. counting; clash.
    + rewrite references_insert, E by done. simpl no_leak. simpl.
      counting; clash.
Qed.

Lemma touch_spec op a i p :
  program_ok p ->
  op_spec op p (updated (default 0%nat (default None (slots p !! i))) (set_action a) (slots p) p).
Proof.
  intros Hp. apply op_updated; try done; [apply Hp|].
  intros x Hx. destruct (entry_ok p x Hp Hx) as [H1 H2]. counting.
Qed.

Lemma erase_spec i p :
  program_ok p -> exists p', run_op (OErase i) p = Defined p' /\ op_spec (OErase i) p p'.
Proof.
  intros Hp; simpl. destruct (slot_cases i p) as [E|(n & E & Hi)]; rewrite E; simpl.
  - exists p; split; [by destruct p|by apply op_same].
  - rewrite (modify_live n _ p (slots p) i) by done. eexists; split; [done|].
    pose proof (touch_spec (OErase i) None i p Hp) as H. by rewrite E in H.
Qed.

Lemma retarget_spec i a p :
  program_ok p -> exists p', run_op (ORetarget i a) p = Defined p' /\ op_spec (ORetarget i a) p p'.
Proof.
  intros Hp; simpl. destruct (slot_cases i p) as [E|(n & E & Hi)]; rewrite E; simpl.
  - exists p; split; [by destruct p|by apply op_same].
  - rewrite (modify_live n _ p (slots p) i) by done. eexists; split; [done|].
    pose proof (touch_spec (ORetarget i a) (Some a) i p Hp) as H. by rewrite E in H.
Qed.

Lemma get_live i p :
  program_ok p -> exists a, get (default None (slots p !! i)) (registry p) = Defined a.
Proof.
  intros Hp. destruct (slot_cases i p) as [E|(n & E & Hi)]; rewrite E; simpl; [by eexists|].
  destruct (proj1 (Forall_lookup _ _) (handles _ Hp) i _ E n eq_refl) as (x & Hx & Hn).
  rewrite (find_node_elem n _ x); [by eexists|apply Hp|done|done].
Qed.

Lemma references_old n ss g :
  live g ss -> Forall (fun i => (node i < next_node g)%nat) (action_list_ g) ->
  (next_node g <= n)%nat -> references n ss = 0.
Proof.
  intros Hl Ho Hn. induction Hl as [|s ss Hs _ IH]; [done|]. rewrite references_cons, IH.
  destruct (decide _) as [->|]; [|lia].
  destruct (Hs n eq_refl) as (i & Hi & <-).
  pose proof (proj1 (list.Forall_forall _ _) Ho i Hi). simpl in *. lia.
Qed.

(** The new entry of [Register], with the reference of the returned handle. *)
Definition registered (a : nat) (g : ActionRegistry) : Index :=
  {| node := next_node g; counter := 1; action := Some a |}.

Lemma Register_fresh a g :
  ~ In (next_node g) (map node (action_list_ g)) ->
  Register a g = Defined ({| action_list_ := action_list_ g ++ [registered a g];
                             next_node := S (next_node g) |}, Some (next_node g)).
Proof.
  intros Hfresh. unfold Register, share_new, modify; simpl.
  set (k := next_node g) in *.
  destruct (find_node _ _) eqn:Hf.
  2: { unfold find_node in Hf. eapply List.find_none in Hf; [|apply List.in_app_iff; right; left; done].
    simpl in Hf. by rewrite Nat.eqb_refl in Hf. }
  do 3 f_equal. rewrite map_app. simpl. rewrite Nat.eqb_refl. f_equal. rewrite <- List.map_id.
  apply List.map_ext_in. intros x Hx. destruct (Nat.eqb_spec (node x) k) as [E|]; [|done].
  exfalso; apply Hfresh. rewrite <- E. by apply List.in_map.
Qed.

Lemma register_spec a p :
  program_ok p -> exists p', run_op (ORegister a) p = Defined p' /\ op_spec (ORegister a) p p'.
Proof.
  intros Hp; pose proof Hp as [Hu Ho Hc Hh]. simpl.
  set (g := registry p) in *.
  assert (Hfresh : ~ In (next_node g) (map node (action_list_ g))).
  { intros Hin. apply in_map_iff in Hin as (i & Hk & Hi).
    rewrite List.Forall_forall in Ho. specialize (Ho i Hi). simpl in Ho. lia. }
  rewrite (Register_fresh a g Hfresh). set (new := registered a g). set (k := next_node g) in *.
  eexists; split; [done|].
  assert (Hnew : references k (slots p) = 0) by (by eapply references_old).
  assert (Hrefs : forall i, i ∈ action_list_ g ->
            references (node i) (slots p ++ [Some k]) = references (node i) (slots p)).
  { intros i Hi. rewrite references_app, references_cons. change (references (node i) []) with 0.
    rewrite decide_False; [lia|]. intros [= Ek]. apply Hfresh. rewrite Ek.
    by apply List.in_map, list_elem_of_In. }
  split; [split; cbn [registry slots action_list_ next_node]| |].
  - rewrite map_app. apply list.NoDup_app; split_and!; [done| |apply list.NoDup_singleton].
    intros x Hx Hin. apply list_elem_of_singleton in Hin as ->. apply Hfresh.
    by apply list_elem_of_In.
  - apply Forall_app; split; [|apply Forall_singleton; simpl; lia].
    eapply Forall_impl; [|exact Ho]. simpl; intros; unfold k; lia.
  - apply Forall_app; split; [|apply Forall_singleton].
    + rewrite list.Forall_forall in Hc |- *. intros i Hi. rewrite Hrefs by done. by apply Hc.
    + change (node new) with k. change (counter new) with 1.
      rewrite references_app, references_cons, Hnew, decide_True by done.
      change (references k []) with 0. lia.
  - apply Forall_app; split.
    + eapply Forall_impl; [|exact Hh]. intros s Hs n En. destruct (Hs n En) as (i & Hi & ?).
      exists i; split; [by apply elem_of_app; left|done].
    + apply Forall_singleton. intros n [= <-]. exists new. split; [|done].
      apply elem_of_app; right. by apply list_elem_of_singleton.
  - intros i Hi _. exists i; split; [by apply elem_of_app; left|]. split; [done|].
    unfold slack; simpl. rewrite Hrefs by done. lia.
  - intros _ He. apply Forall_app; split.
    + unfold exact in He. rewrite list.Forall_forall in He |- *. intros i Hi.
      unfold slack; simpl. rewrite Hrefs by done. by apply He.
    + apply Forall_singleton. unfold slack. change (node new) with k. change (counter new) with 1.
      cbn [slots]. rewrite references_app, references_cons, Hnew, decide_True by done.
      change (references k []) with 0. lia.
Qed.

Lemma destroy_last n i p idx :
  program_ok p -> slots p !! i = Some (Some n) -> (i < length (slots p))%nat ->
  idx ∈ action_list_ (registry p) -> node idx = n -> counter idx = 1 ->
  op_spec (ODestroy i) p
    {| registry := {| action_list_ := List.filter (fun j => negb (Nat.eqb (node j) n))
                                        (action_list_ (registry p));
                      next_node := next_node (registry p) |};
       slots := <[i := None]> (slots p) |}.
Proof.
  intros Hp E Hi Hx Hn H1. pose proof Hp as [Hu Ho Hc Hh].
  assert (Hkeep : forall j, j ∈ List.filter (fun j => negb (Nat.eqb (node j) n))
                              (action_list_ (registry p)) <->
                            j ∈ action_list_ (registry p) /\ node j <> n).
  { intros j. rewrite !list_elem_of_In, List.filter_In, negb_true_iff, Nat.eqb_neq. tauto. }
  assert (Hrefs : forall m, m <> n -> references m (<[i := None]> (slots p)) = references m (slots p)).
  { intros m Hm. rewrite references_insert, E by done. simpl. counting; congruence. }
  assert (Hnone : references n (<[i := None]> (slots p)) = 0).
  { pose proof (proj1 (list.Forall_forall _ _) Hc idx Hx) as [_ H2].
    pose proof (references_pos n i _ E). pose proof (references_nonneg n (<[i := None]> (slots p))).
    rewrite references_insert, E in * by done. simpl in *. rewrite Hn in H2.
    rewrite decide_True in * by done. destruct (decide (None = Some n)); [done|]. lia. }
  assert (Hlive : forall s, s ∈ <[i := None]> (slots p) -> s <> Some n).
  { intros s Hs ->. apply list_elem_of_lookup_1 in Hs as [j Hj]. apply references_pos in Hj. lia. }
  assert (Hsub : forall P, Forall P (action_list_ (registry p)) ->
    Forall P (List.filter (fun j => negb (Nat.eqb (node j) n)) (action_list_ (registry p)))).
  { intros P HP. apply list.Forall_forall. intros j Hj. apply Hkeep in Hj as [Hj _].
    exact (proj1 (list.Forall_forall _ _) HP j Hj). }
  split; [split; cbn [registry slots action_list_ next_node]| |].
  - clear -Hu. induction (action_list_ (registry p)) as [|j l IH]; simpl; [done|].
    simpl in Hu. apply list.NoDup_cons in Hu as [Hj Hl].
    destruct (negb _); simpl; [|auto]. apply list.NoDup_cons; split; [|auto].
    intros Hin; apply Hj. apply list_elem_of_In, in_map_iff in Hin as (x & Hx & Hin).
    apply List.filter_In in Hin as [Hin _]. rewrite <- Hx. by apply list_elem_of_In, List.in_map.
  - by apply Hsub.
  - apply list.Forall_forall. intros j Hj. apply Hkeep in Hj as [Hj Hjn].
    rewrite Hrefs by done. exact (proj1 (list.Forall_forall _ _) Hc j Hj).
  - apply list.Forall_forall. intros s Hs m Em. pose proof (Hlive s Hs) as Hne.
    assert (Hl : live (registry p) (<[i := None]> (slots p)))
      by (apply live_insert; [done|apply live_None]).
    destruct (proj1 (list.Forall_forall _ _) Hl s Hs m Em) as (j & Hj & Hjm).
    exists j; split; [|done]. apply Hkeep; split; [done|congruence].
  - intros j Hj Hs. assert (node j <> n) as Hjn.
    { intros Hjn. assert (j = idx) as ->.
      { pose proof (find_node_elem n _ j Hu Hj Hjn) as E1.
        rewrite (find_node_elem n _ idx Hu Hx Hn) in E1. congruence. }
      pose proof (references_pos n i _ E). unfold slack in Hs. rewrite Hjn in Hs. lia. }
    exists j; split; [by apply Hkeep|]. split; [done|].
    unfold slack; simpl. rewrite Hrefs by done. lia.
  - intros _ He. apply list.Forall_forall. intros j Hj. apply Hkeep in Hj as [Hj Hjn].
    unfold slack; simpl. rewrite Hrefs by done.
    exact (proj1 (list.Forall_forall _ _) He j Hj).
Qed.

Lemma destroy_spec i p :
  program_ok p -> exists p', run_op (ODestroy i) p = Defined p' /\ op_spec (ODestroy i) p p'.
Proof.
  intros Hp; simpl. destruct (slot_cases i p) as [E|(n & E & Hi)]; rewrite E; simpl.
  - eexists; split; [done|]. apply op_slots; [done|apply live_insert; [apply Hp|apply live_None]|].
    intros m. destruct (decide (i < length (slots p))%nat).
    + rewrite references_insert, E by done. counting.
    + rewrite list_insert_ge by lia. split; [lia|done].
  - destruct (proj1 (Forall_lookup _ _) (handles _ Hp) i _ E n eq_refl) as (x & Hx & Hn).
    rewrite (find_node_elem n _ x) by (done || apply Hp).
    destruct (entry_ok p x Hp Hx) as [H1 H2]. rewrite (proj2 (Z.eqb_neq _ _)) by lia.
    destruct (counter x - 1 =? 0) eqn:E1; zbool.
    + eexists; split; [done|]. apply (destroy_last n i p x); done || lia.
    + rewrite (modify_live n decr p (<[i := None]> (slots p)) i) by done.
      eexists; split; [done|]. apply op_updated; try done.
      * apply live_insert; [apply Hp|apply live_None].
      * intros y Hy. destruct (entry_ok p y Hp Hy) as [H3 H4].
        rewrite references_insert, E by done. simpl.
        assert (node y = n -> y = x) as Hyx.
        { intros Hyn. pose proof (find_node_elem n _ y (nodes_unique _ Hp) Hy Hyn) as F.
          rewrite (find_node_elem n _ x (nodes_unique _ Hp) Hx Hn) in F. congruence. }
        destruct (decide (node y = n)) as [Hyn|Hyn].
        { rewrite (Hyx Hyn) in *. counting; congruence. }
        counting; congruence.
Qed.

(** Every operation is defined on a well-formed program. *)
Lemma run_op_spec op p : program_ok p -> exists p', run_op op p = Defined p' /\ op_spec op p p'.
Proof.
  intros Hp; destruct op; auto using register_spec, copy_spec, move_spec, destroy_spec,
    assign_copy_spec, assign_move_spec, erase_spec, retarget_spec.
  destruct (get_live i p Hp) as [a E]. exists p. simpl. rewrite E.
  split; [done|by apply op_same].
Qed.

Lemma new_program_ok : program_ok new_program.
Proof. split; simpl; constructor. Qed.

Lemma keeps_surplus_trans a b c : keeps_surplus a b -> keeps_surplus b c -> keeps_surplus a c.
Proof.
  intros H1 H2 i Hi Hs. destruct (H1 i Hi Hs) as (j & Hj & Hn & Hle).
  destruct (H2 j Hj) as (k & Hk & Hn' & Hle'); [lia|]. exists k; split_and!; [done|congruence|lia].
Qed.

Lemma run_ops_spec ops : forall p,
  program_ok p -> exists p', run_ops ops p = Defined p' /\ program_ok p' /\ keeps_surplus p p'.
Proof.
  induction ops as [|op ops IH]; intros p Hp; simpl.
  { exists p; split_and!; try done. intros i Hi ?; by exists i. }
  destruct (run_op_spec op p Hp) as (p1 & -> & [Hp1 Hs1 _]).
  destruct (IH p1 Hp1) as (p2 & -> & Hp2 & Hs2). exists p2; split_and!; try done.
  by eapply keeps_surplus_trans.
Qed.

(** Programs that only assign to empty handles. *)
Fixpoint careful (ops : list operation) (p : Program) : Prop :=
  match ops with
  | [] => True
  | op :: ops' => no_leak op p /\ forall p', run_op op p = Defined p' -> careful ops' p'
  end.

Lemma run_ops_exact ops : forall p p',
  program_ok p -> exact p -> careful ops p -> run_ops ops p = Defined p' ->
  program_ok p' /\ exact p'.
Proof.
  induction ops as [|op ops IH]; intros p p' Hp He Hc; simpl; [by intros [= <-]|].
  destruct (run_op_spec op p Hp) as (p1 & E & Hs). destruct Hc as [Hn Hc]. rewrite E.
  apply IH; [apply Hs|by apply (spec_exact _ _ _ Hs)|by apply Hc].
Qed.
End Registry.

(** ** The processor *)
Module Processor.
Import Registry.

Definition SelectNextUpdate (new_time old_time current_time : TimePoint) : TimePoint :=
  if current_time <? new_time
  then if negb (old_time =? current_time) then Z.min new_time old_time else new_time
  else Z.max old_time current_time.

(** [ActionRegistryReplica]: a handle for every entry. *)
Fixpoint replicate_nodes (ns : list nat) (g : ActionRegistry)
  : outcome (ActionRegistry * list IndexShare) :=
  match ns with
  | [] => Defined (g, [])
  | n :: ns' =>
      let* (g1, s) := share_new n g in
      let* (g2, ss) := replicate_nodes ns' g1 in
      Defined (g2, s :: ss)
  end.

Definition ActionRegistryReplica (g : ActionRegistry) : outcome (ActionRegistry * list IndexShare) :=
  replicate_nodes (map node (action_list_ g)) g.

Fixpoint destroy_all (ss : list IndexShare) (g : ActionRegistry) : outcome ActionRegistry :=
  match ss with
  | [] => Defined g
  | s :: ss' => let* g1 := share_destroy s g in destroy_all ss' g1
  end.

Section Update.
(** [update a now w] is [IAction::Update] of the action [a]; [W] is the state
    the actions work on besides the registry. *)
Context {W : Type} (upd : nat -> TimePoint -> ActionRegistry * W -> (ActionRegistry * W) * TimePoint).

Fixpoint update_entries (ss : list IndexShare) (now next_update : TimePoint)
  (gw : ActionRegistry * W) : outcome ((ActionRegistry * W) * TimePoint) :=
  match ss with
  | [] => Defined (gw, next_update)
  | s :: ss' =>
      let* a := get s gw.1 in
      match a with
      | None => update_entries ss' now next_update gw
      | Some x =>
          let '(gw', new_time) := upd x now gw in
          update_entries ss' now (SelectNextUpdate new_time next_update now) gw'
      end
  end.

(** [ActionProcessor::Update]. *)
Definition processor_update (now : TimePoint) (gw : ActionRegistry * W)
  : outcome ((ActionRegistry * W) * TimePoint) :=
  let* (g1, ss) := ActionRegistryReplica gw.1 in
  let* (gw', next_update) := update_entries ss now now (g1, gw.2) in
  let* g2 := destroy_all ss gw'.1 in
  Defined ((g2, gw'.2), next_update).
End Update.

(** The earliest of the times in the future. *)
Definition earliest (now : TimePoint) (ts : list TimePoint) : TimePoint :=
  match List.filter (fun t => now <? t) ts with
  | [] => now
  | t :: ts' => fold_right Z.min t ts'
  end.

Lemma fold_min_pull l x t : Z.min x (fold_right Z.min t l) = Z.min t (fold_right Z.min x l).
Proof. induction l as [|y l IH]; simpl; lia. Qed.

Lemma select_fold now ts : forall old,
  now <= old ->
  fold_left (fun next t => SelectNextUpdate t next now) ts old
  = match List.filter (fun t => now <? t) ts with
    | [] => old
    | t :: ts' => if old =? now then fold_right Z.min t ts' else Z.min old (fold_right Z.min t ts')
    end.
Proof.
  induction ts as [|t ts IH]; intros old Ho; cbn [fold_left List.filter]; [done|].
  unfold SelectNextUpdate at 2. destruct (now <? t) eqn:Et; zbool.
  - destruct (old =? now) eqn:Eo; zbool; cbn [negb].
    + rewrite IH by lia. destruct (List.filter _ ts) as [|x xs]; cbn [fold_right]; [done|].
      rewrite (proj2 (Z.eqb_neq t now)) by lia. symmetry; apply fold_min_pull.
    + rewrite IH by lia. rewrite (proj2 (Z.eqb_neq _ now)) by lia.
      destruct (List.filter _ ts) as [|x xs]; cbn [fold_right]; [lia|].
      pose proof (fold_min_pull xs x t). lia.
  - rewrite Z.max_l by lia. apply IH; lia.
Qed.

(** The registry with the references of more handles. *)
Definition bump (ss : list IndexShare) (g : ActionRegistry) : ActionRegistry :=
  {| action_list_ := map (fun i => {| node := node i; counter := counter i + references (node i) ss;
                                      action := action i |}) (action_list_ g);
     next_node := next_node g |}.

Lemma bump_nil g : bump [] g = g.
Proof.
  destruct g as [l k]; unfold bump; simpl. f_equal. rewrite <- (List.map_id l) at 2.
  apply List.map_ext. intros [n c a]; simpl. change (references n []) with 0. by rewrite Z.add_0_r.
Qed.

Lemma bump_bump a b g : bump b (bump a g) = bump (b ++ a) g.
Proof.
  unfold bump; simpl. f_equal. rewrite map_map. apply List.map_ext. intros i; simpl.
  rewrite references_app. f_equal. lia.
Qed.

Lemma find_bump n ss l :
  find_node n (map (fun i => {| node := node i; counter := counter i + references (node i) ss;
                                action := action i |}) l)
  = option_map (fun i => {| node := node i; counter := counter i + references (node i) ss;
                            action := action i |}) (find_node n l).
Proof.
  unfold find_node; induction l as [|i l IH]; simpl; [done|]. destruct (Nat.eqb _ _); [done|apply IH].
Qed.

Lemma find_node_in n l : n ∈ map node l -> exists i, find_node n l = Some i.
Proof.
  intros H; destruct (find_node n l) as [i|] eqn:E; [by exists i|].
  apply list_elem_of_In, in_map_iff in H as (i & <- & Hi).
  apply (List.find_none _ _ E) in Hi. by rewrite Nat.eqb_refl in Hi.
Qed.

Lemma share_new_bump n g :
  n ∈ map node (action_list_ g) -> share_new n g = Defined (bump [Some n] g, Some n).
Proof.
  intros H; unfold share_new, modify. destruct (find_node_in _ _ H) as [i ->].
  do 2 f_equal. unfold bump; f_equal. apply List.map_ext. intros [m c a]; simpl.
  rewrite references_cons. change (references m []) with 0.
  destruct (Nat.eqb_spec m n) as [->|]; unfold incr; simpl.
  - rewrite decide_True by done. f_equal; lia.
  - rewrite decide_False by congruence. f_equal; lia.
Qed.

Lemma bump_nodes ss g : map node (action_list_ (bump ss g)) = map node (action_list_ g).
Proof. unfold bump; simpl. rewrite map_map. done. Qed.

Lemma replicate_nodes_bump ns : forall g,
  Forall (fun n => n ∈ map node (action_list_ g)) ns ->
  replicate_nodes ns g = Defined (bump (rev (map Some ns)) g, map Some ns).
Proof.
  induction ns as [|n ns IH]; intros g H; simpl; [by rewrite bump_nil|].
  inversion H; subst. rewrite share_new_bump by done. rewrite IH by (by rewrite bump_nodes).
  by rewrite bump_bump.
Qed.

Lemma references_rev n ss : references n (rev ss) = references n ss.
Proof.
  induction ss as [|s ss IH]; simpl; [done|]. rewrite references_app, IH, !references_cons.
  change (references n []) with 0. lia.
Qed.

Lemma bump_rev ss g : bump (rev ss) g = bump ss g.
Proof.
  unfold bump; f_equal. apply List.map_ext. intros i. by rewrite references_rev.
Qed.

Lemma destroy_bump n ss g :
  n ∈ map node (action_list_ g) -> Forall (fun i => 0 < counter i) (action_list_ g) ->
  share_destroy (Some n) (bump (Some n :: ss) g) = Defined (bump ss g).
Proof.
  intros H Hc; unfold share_destroy. cbn [bump action_list_ next_node].
  destruct (find_node_in _ _ H) as [i Hf]. rewrite find_bump, Hf. cbn [option_map counter].
  apply find_node_some in Hf as Hi. destruct Hi as [Hi <-].
  pose proof (proj1 (list.Forall_forall _ _) Hc i Hi) as Hp. cbv beta in Hp.
  rewrite references_cons, decide_True by done. pose proof (references_nonneg (node i) ss).
  rewrite !(proj2 (Z.eqb_neq _ _)) by lia. unfold modify. cbn [bump action_list_ next_node].
  rewrite find_bump, Hf. cbn [option_map]. f_equal. rewrite map_map. unfold bump; f_equal.
  apply List.map_ext. intros [m c a]; simpl. rewrite references_cons.
  destruct (Nat.eqb_spec m (node i)) as [->|]; unfold decr; simpl.
  - rewrite decide_True by done. f_equal; lia.
  - rewrite decide_False by congruence. f_equal; lia.
Qed.

Lemma destroy_all_bump ns : forall g,
  Forall (fun n => n ∈ map node (action_list_ g)) ns ->
  Forall (fun i => 0 < counter i) (action_list_ g) ->
  destroy_all (map Some ns) (bump (map Some ns) g) = Defined g.
Proof.
  induction ns as [|n ns IH]; intros g H Hc; cbn [map destroy_all]; [by rewrite bump_nil|].
  inversion H; subst. rewrite destroy_bump by done. by apply IH.
Qed.

(** The actions of a list of entries that are still there. *)
Definition actions_of (l : list Index) : list nat :=
  l ≫= (fun i => match action i with Some a => [a] | None => [] end).

Lemma actions_of_bump ss g : actions_of (action_list_ (bump ss g)) = actions_of (action_list_ g).
Proof.
  unfold actions_of, bump; simpl. induction (action_list_ g) as [|i l IH]; [done|].
  simpl. f_equal. exact IH.
Qed.

Section Pure.
(** Actions that leave the registry alone. *)
Context {W : Type} (f : nat -> TimePoint -> W -> W * TimePoint).

Definition pure_update (a : nat) (now : TimePoint) (gw : ActionRegistry * W)
  : (ActionRegistry * W) * TimePoint :=
  let '(w, t) := f a now gw.2 in ((gw.1, w), t).

(** Updating the actions one after the other, with the times they ask for. *)
Fixpoint run_actions (xs : list nat) (now : TimePoint) (w : W) : W * list TimePoint :=
  match xs with
  | [] => (w, [])
  | a :: xs' => let '(w1, t) := f a now w in let '(w2, ts) := run_actions xs' now w1 in (w2, t :: ts)
  end.

Lemma update_entries_pure l now g : forall next w,
  NoDup (map node (action_list_ g)) -> Forall (fun i => i ∈ action_list_ g) l ->
  update_entries pure_update (map Some (map node l)) now next (g, w)
  = let '(w', ts) := run_actions (actions_of l) now w in
    Defined ((g, w'), fold_left (fun next t => SelectNextUpdate t next now) ts next).
Proof.
  induction l as [|i l IH]; intros next w Hu Hl; simpl; [done|].
  inversion Hl as [|? ? Hi Hl']; subst. rewrite (find_node_elem (node i) _ i) by done.
  change (actions_of (i :: l))
    with ((match action i with Some a => [a] | None => [] end) ++ actions_of l).
  destruct (action i) as [a|]; simpl; [|by apply IH].
  unfold pure_update at 1; simpl. destruct (f a now w) as [w1 t]. rewrite IH by done.
  by destruct (run_actions (actions_of l) now w1).
Qed.

Lemma processor_update_pure now g w :
  NoDup (map node (action_list_ g)) -> Forall (fun i => 0 < counter i) (action_list_ g) ->
  processor_update pure_update now (g, w)
  = let '(w', ts) := run_actions (actions_of (action_list_ g)) now w in
    Defined ((g, w'), earliest now ts).
Proof.
  intros Hu Hc; unfold processor_update, ActionRegistryReplica; cbn [fst snd].
  assert (Hin : Forall (fun n => n ∈ map node (action_list_ g)) (map node (action_list_ g)))
    by (by apply list.Forall_forall).
  rewrite replicate_nodes_bump, bump_rev by done.
  set (ss := map Some _). set (gb := bump ss g).
  pose proof (update_entries_pure (action_list_ gb) now gb now w) as E.
  assert (Hn : map node (action_list_ gb) = map node (action_list_ g)) by apply bump_nodes.
  rewrite Hn in E. fold ss in E. rewrite E; [|done|by apply list.Forall_forall].
  unfold gb; rewrite actions_of_bump.
  destruct (run_actions (actions_of (action_list_ g)) now w) as [w' ts]. cbn [fst snd].
  unfold ss. rewrite destroy_all_bump by done. do 2 f_equal.
  rewrite select_fold by lia. unfold earliest. destruct (List.filter _ ts); [done|].
  by rewrite Z.eqb_refl.
Qed.
End Pure.
End Processor.

(** ** The trigger ([action_trigger.*])

    One thread waits, any number of threads trigger.  The steps are the
    accesses to the atomic flag and to the mutex; [Sleeping] is the thread in
    [condition_.wait], which has released the mutex. *)
Module Trigger.

Inductive Waiter :=
  | Idle
  | WantLock
  | CheckFlag
  | Sleeping
  | Leaving
  | Returned (triggered : bool).

Inductive Mutex := Free | HeldByWaiter | HeldByTrigger | FlagSet.

Record SyncObject := {
  triggered_ : bool;
  mutex_ : Mutex;
  waiter : Waiter;
}.

Definition new_sync : SyncObject := {| triggered_ := false; mutex_ := Free; waiter := Idle |}.

Definition at_waiter (w : Waiter) (s : SyncObject) : SyncObject :=
  {| triggered_ := triggered_ s; mutex_ := mutex_ s; waiter := w |}.

Inductive step (s : SyncObject) : SyncObject -> Prop :=
  (* [Wait] and [WaitUntil] *)
  | wait_fast : waiter s = Idle -> triggered_ s = true ->
      step s {| triggered_ := false; mutex_ := mutex_ s; waiter := Returned true |}
  | wait_slow : waiter s = Idle -> triggered_ s = false -> step s (at_waiter WantLock s)
  | wait_lock : waiter s = WantLock -> mutex_ s = Free ->
      step s {| triggered_ := triggered_ s; mutex_ := HeldByWaiter; waiter := CheckFlag |}
  | wait_found : waiter s = CheckFlag -> triggered_ s = true -> step s (at_waiter Leaving s)
  | wait_sleep : waiter s = CheckFlag -> triggered_ s = false ->
      step s {| triggered_ := triggered_ s; mutex_ := Free; waiter := Sleeping |}
  | wait_spurious : waiter s = Sleeping -> step s (at_waiter WantLock s)
  | wait_timeout : waiter s = CheckFlag -> triggered_ s = false ->
      step s {| triggered_ := false; mutex_ := Free; waiter := Returned false |}
  | wait_leave : waiter s = Leaving ->
      step s {| triggered_ := false; mutex_ := Free; waiter := Returned true |}
  | wait_again b : waiter s = Returned b -> step s (at_waiter Idle s)
  (* [Trigger] *)
  | trigger_lock : mutex_ s = Free ->
      step s {| triggered_ := triggered_ s; mutex_ := HeldByTrigger; waiter := waiter s |}
  | trigger_set : mutex_ s = HeldByTrigger ->
      step s {| triggered_ := true; mutex_ := FlagSet; waiter := waiter s |}
  | trigger_notify : mutex_ s = FlagSet ->
      step s {| triggered_ := triggered_ s; mutex_ := Free;
                waiter := match waiter s with Sleeping => WantLock | w => w end |}.

Inductive reachable : SyncObject -> Prop :=
  | reach_new : reachable new_sync
  | reach_step s s' : reachable s -> step s s' -> reachable s'.

Record sync_ok (s : SyncObject) : Prop := {
  sleeping_ok : waiter s = Sleeping -> triggered_ s = false \/ mutex_ s = FlagSet;
  waiter_holds : (waiter s = CheckFlag \/ waiter s = Leaving) <-> mutex_ s = HeldByWaiter;
}.

Lemma step_ok s s' : step s s' -> sync_ok s -> sync_ok s'.
Proof.
  intros H [Hs Hw]; destruct s as [t m w]; destruct H; simpl in *; subst;
    split; simpl in *; try destruct w; intuition congruence.
Qed.

Lemma reachable_sync_ok s : reachable s -> sync_ok s.
Proof.
  induction 1 as [|s s' _ IH Hs]; [split; simpl; intuition congruence|by eapply step_ok].
Qed.

Lemma reachable_run s s' : reachable s -> rtc step s s' -> reachable s'.
Proof. intros H R. induction R as [|s s1 s2 Hs _ IH]; [done|]. apply IH. by eapply reach_step. Qed.

(** [Wait] or [WaitUntil] returns [b] with this step. *)
Definition returns (b : bool) (s s' : SyncObject) : Prop :=
  step s s' /\ waiter s' = Returned b /\ forall b', waiter s <> Returned b'.

(** A step with which neither returns. *)
Definition quiet (s s' : SyncObject) : Prop := step s s' /\ forall b, ~ returns b s s'.

Lemma quiet_keeps_flag s s' : quiet s s' -> triggered_ s = true -> triggered_ s' = true.
Proof.
  intros [H Hq] Ht. destruct H; simpl in *; try done; exfalso.
  - apply (Hq true). split; [by apply wait_fast|]. split; [done|congruence].
  - congruence.
  - apply (Hq true). split; [by apply wait_leave|]. split; [done|congruence].
Qed.

Lemma quiet_run_keeps_flag s s' : rtc quiet s s' -> triggered_ s = true -> triggered_ s' = true.
Proof. induction 1 as [|s s1 s2 Hs _ IH]; [done|]. intros Ht. by eapply IH, quiet_keeps_flag. Qed.

(** The thread that triggers leaves the mutex. *)
Lemma trigger_leaves s :
  triggered_ s = true -> mutex_ s = HeldByTrigger \/ mutex_ s = FlagSet ->
  exists s', rtc step s s' /\ triggered_ s' = true /\ mutex_ s' = Free.
Proof.
  intros Ht [Hm|Hm].
  - eexists. split; [|split]; [eapply rtc_l; [by apply trigger_set|]; eapply rtc_once, trigger_notify|..]; done.
  - eexists. split; [|split]; [by eapply rtc_once, trigger_notify|..]; done.
Qed.

Lemma wait_returns_free s :
  triggered_ s = true -> mutex_ s = Free -> sync_ok s -> exists s', rtc step s s' /\ waiter s' = Returned true.
Proof.
  intros Ht Hm [Hs Hw]. destruct (waiter s) as [| | | | |b] eqn:Ew.
  - eexists. split; [by eapply rtc_once, wait_fast|done].
  - eexists. split; [eapply rtc_l; [by apply wait_lock|]; eapply rtc_l; [by apply wait_found|];
      by eapply rtc_once, wait_leave|done].
  - assert (mutex_ s = HeldByWaiter) by (apply Hw; by left). congruence.
  - destruct (Hs eq_refl); congruence.
  - assert (mutex_ s = HeldByWaiter) by (apply Hw; by right). congruence.
  - eexists. split; [eapply rtc_l; [by eapply wait_again|]; by eapply rtc_once, wait_fast|done].
Qed.

Lemma wait_returns s :
  reachable s -> triggered_ s = true -> exists s', rtc step s s' /\ waiter s' = Returned true.
Proof.
  intros Hr Ht. destruct (mutex_ s) eqn:Em.
  - by apply wait_returns_free, reachable_sync_ok.
  - destruct (waiter_holds _ (reachable_sync_ok _ Hr)) as [_ H]. destruct (H Em) as [Ew|Ew].
    + eexists. split; [eapply rtc_l; [by apply wait_found|]; by eapply rtc_once, wait_leave|done].
    + eexists. split; [by eapply rtc_once, wait_leave|done].
  - destruct (trigger_leaves s Ht) as (s1 & R1 & T1 & M1); [by left|].
    destruct (wait_returns_free s1 T1 M1) as (s2 & R2 & W2); [by eapply reachable_sync_ok, reachable_run|].
    exists s2. split; [by etrans|done].
  - destruct (trigger_leaves s Ht) as (s1 & R1 & T1 & M1); [by right|].
    destruct (wait_returns_free s1 T1 M1) as (s2 & R2 & W2); [by eapply reachable_sync_ok, reachable_run|].
    exists s2. split; [by etrans|done].
Qed.
End Trigger.

(** ** [NotifyAction] *)
Module Notify.

Record NotifyAction := {
  notify_success_ : bool;
  notify_failed_ : bool;
}.

Inductive notification := ResultRepeat | ErrorFinish.

Definition Notify (a : NotifyAction) : NotifyAction :=
  {| notify_success_ := true; notify_failed_ := notify_failed_ a |}.

Definition Failed (a : NotifyAction) : NotifyAction :=
  {| notify_success_ := notify_success_ a; notify_failed_ := true |}.

(** [Update]: the callbacks run, in order. *)
Definition notify_update (a : NotifyAction) : NotifyAction * list notification :=
  ({| notify_success_ := false; notify_failed_ := false |},
   (if notify_success_ a then [ResultRepeat] else []) ++
   (if notify_failed_ a then [ErrorFinish] else [])).

End Notify.

Module ActionProperties.
Import Registry.

(** No sequence of registrations, copies, moves, assignments and
    destructions of handles ever uses an erased registry entry or drops a
    counter below zero. *)
Theorem registry_never_dangles ops :
  exists p, run_ops ops new_program = Defined p /\ program_ok p.
Proof.
  destruct (run_ops_spec ops new_program new_program_ok) as (p & E & H & _). by exists p.
Qed.

(** As long as handles are assigned to only when they are empty, the
    counter of an entry is the number of handles to it, so an entry is in the
    registry exactly while a handle refers to it. *)
Theorem registry_counts_handles ops p :
  careful ops new_program -> run_ops ops new_program = Defined p ->
  Forall (fun i => counter i = references (node i) (slots p) /\ 0 < counter i)
    (action_list_ (registry p)).
Proof.
  intros Hc E. destruct (run_ops_exact ops new_program p new_program_ok) as [Hp He]; try done.
  { constructor. }
  rewrite list.Forall_forall. intros i Hi.
  pose proof (proj1 (list.Forall_forall _ _) He i Hi) as Hs.
  destruct (entry_ok p i Hp Hi). unfold slack in *. lia.
Qed.

Lemma registry_counts_handles_witness :
  Forall (fun i => counter i = references (node i) [None; Some 1%nat; None] /\ 0 < counter i)
    [{| node := 1; counter := 1; action := Some 8%nat |}].
Proof.
  refine (registry_counts_handles
    [ORegister 7; ORegister 8; OCopy 0; ODestroy 0; ODestroy 2]
    {| registry := {| action_list_ := [{| node := 1; counter := 1; action := Some 8%nat |}];
                      next_node := 2 |};
       slots := [None; Some 1%nat; None] |} _ _).
  - simpl. repeat (split; [exact I|]; intros ? [= <-]; simpl). exact I.
  - reflexivity.
Defined.

(** Assigning a handle over another one does not release the old
    reference: the entry stays in the registry whatever is done afterwards. *)
Theorem assignment_leaks_entry p i j n s :
  program_ok p -> i <> j -> slots p !! i = Some (Some n) -> slots p !! j = Some s ->
  s <> Some n ->
  exists p1, run_op (OAssignMove i j) p = Defined p1 /\
    forall ops p2, run_ops ops p1 = Defined p2 ->
    n ∈ map node (action_list_ (registry p2)).
Proof.
  intros Hp Hij Hi Hj Hs. destruct (run_op_spec (OAssignMove i j) p Hp) as (p1 & E & [Hp1 _ _]).
  exists p1; split; [done|]. intros ops p2 E2.
  destruct (run_ops_spec ops p1 Hp1) as (p2' & E2' & _ & Hk).
  rewrite E2 in E2'; injection E2' as <-.
  assert (Hli : (i < length (slots p))%nat) by (by apply lookup_lt_Some in Hi).
  assert (Hlj : (j < length (slots p))%nat) by (by apply lookup_lt_Some in Hj).
  cbn [run_op] in E. rewrite decide_False, decide_True in E by done.
  simpl in E. rewrite Hj in E. injection E as <-.
  destruct (proj1 (Forall_lookup _ _) (handles _ Hp) i _ Hi n eq_refl) as (x & Hx & Hn).
  destruct (entry_ok p x Hp Hx) as [Hc Hsl].
  destruct (Hk x) as (y & Hy & Hyn & _); [done| |].
  - unfold slack in *; simpl. rewrite Hn in *.
    rewrite !references_insert, list_lookup_insert_ne, Hi, Hj by (rewrite ?length_insert; done).
    simpl. counting; congruence.
  - rewrite <- Hn, <- Hyn. by apply list_elem_of_fmap_2.
Qed.

Lemma assignment_leaks_entry_witness :
  exists p p1, run_ops [ORegister 7; ORegister 8] new_program = Defined p /\
    run_op (OAssignMove 0 1) p = Defined p1 /\
    forall p2, run_ops [ODestroy 0; ODestroy 1] p1 = Defined p2 ->
    0%nat ∈ map node (action_list_ (registry p2)).
Proof.
  destruct (registry_never_dangles [ORegister 7; ORegister 8]) as (p & E & Hp).
  exists p. vm_compute in E. injection E as <-.
  destruct (assignment_leaks_entry _ 0 1 0 (Some 1%nat) Hp) as (p1 & E1 & H); try done.
  exists p1. split; [reflexivity|]. split; [exact E1|]. intros p2. apply H.
Defined.

(** The processor updates every registered action once, in the order of
    registration, leaves the reference counts as they were, and asks to be
    called again at the earliest time in the future some action asked for. *)
Theorem processor_updates_all {W} (f : nat -> TimePoint -> W -> W * TimePoint) now g w :
  NoDup (map node (action_list_ g)) -> Forall (fun i => 0 < counter i) (action_list_ g) ->
  Processor.processor_update (Processor.pure_update f) now (g, w)
  = let '(w', ts) := Processor.run_actions f (Processor.actions_of (action_list_ g)) now w in
    Defined ((g, w'), Processor.earliest now ts).
Proof. apply Processor.processor_update_pure. Qed.

Lemma processor_updates_all_witness :
  let g := {| action_list_ := [{| node := 0; counter := 1; action := Some 7%nat |};
                               {| node := 2; counter := 2; action := None |};
                               {| node := 3; counter := 1; action := Some 9%nat |}];
              next_node := 4 |} in
  Processor.processor_update
    (Processor.pure_update (fun a now log => (log ++ [a], now + Z.of_nat a))) 10 (g, [])
  = Defined ((g, [7%nat; 9%nat]), 17).
Proof.
  intros g.
  refine (processor_updates_all (fun a now log => (log ++ [a], now + Z.of_nat a)) 10 g [] _ _).
  - by apply (bool_decide_unpack (NoDup [0; 2; 3]%nat)); vm_compute.
  - by repeat constructor.
Defined.

(** C38: a trigger is never lost.  From the moment [Trigger] has set the flag until
    [Wait] or [WaitUntil] returns the flag stays set: the waiter does not sleep
    without a thread about to wake it, it cannot time out, the next return answers
    true, and that return can always be reached. *)
Theorem no_lost_wakeup s s1 s2 :
  Trigger.reachable s -> Trigger.step s s1 ->
  Trigger.mutex_ s = Trigger.HeldByTrigger -> Trigger.mutex_ s1 = Trigger.FlagSet ->
  rtc Trigger.quiet s1 s2 ->
  Trigger.triggered_ s2 = true /\
  (Trigger.waiter s2 = Trigger.Sleeping -> Trigger.mutex_ s2 = Trigger.FlagSet) /\
  (forall s3 b, Trigger.returns b s2 s3 -> b = true) /\
  exists s3, rtc Trigger.step s2 s3 /\ Trigger.waiter s3 = Trigger.Returned true.
Proof.
  intros Hr Hs Hm Hf Hq.
  assert (Trigger.triggered_ s1 = true) as H1 by (destruct Hs; simpl in *; congruence).
  pose proof (Trigger.quiet_run_keeps_flag _ _ Hq H1) as H2.
  assert (Trigger.reachable s2) as Hr2.
  { eapply Trigger.reachable_run; [by eapply Trigger.reach_step|]. clear -Hq.
    induction Hq as [|s1 s s2 [Hs _] _ IH]; [done|by eapply rtc_l]. }
  split_and!; [done| |..|by apply Trigger.wait_returns].
  - intros Hw. destruct (Trigger.sleeping_ok _ (Trigger.reachable_sync_ok _ Hr2) Hw); congruence.
  - intros s3 b (H & Hb & Hn). specialize (Hn b). destruct H; simpl in *; try congruence.
    destruct (Trigger.waiter s2); congruence.
Qed.

(** The trigger comes while the waiter sleeps, and wakes it. *)
Lemma no_lost_wakeup_witness :
  exists s2, Trigger.waiter s2 = Trigger.WantLock /\ Trigger.mutex_ s2 = Trigger.Free /\
    Trigger.triggered_ s2 = true.
Proof.
  pose (st m w f := {| Trigger.triggered_ := f; Trigger.mutex_ := m; Trigger.waiter := w |}).
  exists (st Trigger.Free Trigger.WantLock true). split; [done|]. split; [done|].
  refine (proj1 (no_lost_wakeup (st Trigger.HeldByTrigger Trigger.Sleeping false)
    (st Trigger.FlagSet Trigger.Sleeping true) (st Trigger.Free Trigger.WantLock true) _ _ eq_refl eq_refl _)).
  - eapply Trigger.reach_step; [eapply Trigger.reach_step; [eapply Trigger.reach_step;
      [eapply Trigger.reach_step; [apply Trigger.reach_new|by apply Trigger.wait_slow]|by apply Trigger.wait_lock]
      |by apply (Trigger.wait_sleep (st Trigger.HeldByWaiter Trigger.CheckFlag false))]|].
    by apply (Trigger.trigger_lock (st Trigger.Free Trigger.Sleeping false)).
  - by apply (Trigger.trigger_set (st Trigger.HeldByTrigger Trigger.Sleeping false)).
  - eapply rtc_once. split; [by apply (Trigger.trigger_notify (st Trigger.FlagSet Trigger.Sleeping true))|].
    intros b (_ & H & _). done.
Defined.

End ActionProperties.
