(* ===== verification/Events.v ===== *)
(** * Events ([aether/events/])

    Handlers ([event_handler.h]), the subscriptions that own them and the weak
    references the events keep ([event_subscription.*]), [Event::Emit]
    ([events.h]), [MultiSubscription] and [BarrierEvent].

    Handlers live in a store, each with the number of the strong references
    that keep it alive, as [std::shared_ptr] counts them; a weak reference can
    be locked while that number is positive.  The callbacks are the user's
    code: a parameter that gives, for a callback and its argument, the commands
    on events and subscriptions it performs, so that an emission may be nested
    in another.  The depth of the nesting bounds the recursion. *)

From S2P Require Import Prelude.
From stdpp Require Import gmap relations.

Module Events.

(** ** The store *)

Record EventHandler := {
  alive_ : bool;
  once_ : bool;
  cb_ : nat;
  strong : nat;
}.

(** [EventEmitter]; [owned] says that the [Event] still refers to it and
    [emitting] counts the [self_ptr] of the running calls of [Emit]. *)
Record EventEmitter := {
  subscriptions_ : list nat;
  owned : bool;
  emitting : nat;
}.

(** The user's commands. [v] is a variable of type [Subscription]. *)
Inductive command (A : Type) :=
  | CNew (e : nat)
  | CDestroy (e : nat)
  | CEmit (e : nat) (a : A)
  | CSubscribe (e v cb : nat)
  | COnce (v : nat)
  | CReset (v : nat)
  | CMove (v u : nat).
Arguments CNew {A} e.
Arguments CDestroy {A} e.
Arguments CEmit {A} e a.
Arguments CSubscribe {A} e v cb.
Arguments COnce {A} v.
Arguments CReset {A} v.
Arguments CMove {A} v u.

(** A call of a callback: the depth of the emission, the handler and the
    argument it received. *)
Record call (A : Type) := Call {
  depth : nat;
  callee : nat;
  arg : A;
}.
Arguments Call {A} depth callee arg.
Arguments depth {A} c.
Arguments callee {A} c.
Arguments arg {A} c.

Record world (A : Type) := World {
  handlers : gmap nat EventHandler;
  emitters : gmap nat EventEmitter;
  subscribers : gmap nat nat;
  next : nat;
  trace : list (call A);
}.
Arguments World {A} handlers emitters subscribers next trace.
Arguments handlers {A} w.
Arguments emitters {A} w.
Arguments subscribers {A} w.
Arguments next {A} w.
Arguments trace {A} w.

Inductive result (A : Type) :=
  | Ran (w : world A)
  | UndefinedBehaviour
  | OutOfFuel.
Arguments Ran {A} w.
Arguments UndefinedBehaviour {A}.
Arguments OutOfFuel {A}.

Definition bind {A} (r : result A) (k : world A -> result A) : result A :=
  match r with
  | Ran w => k w
  | UndefinedBehaviour => UndefinedBehaviour
  | OutOfFuel => OutOfFuel
  end.

Section operations.
Context {A : Type}.
Implicit Types w : world A.

Definition empty_world : world A := World ∅ ∅ ∅ 0 [].

Definition set_handlers (hs : gmap nat EventHandler) w : world A :=
  World hs (emitters w) (subscribers w) (next w) (trace w).
Definition set_emitters (es : gmap nat EventEmitter) w : world A :=
  World (handlers w) es (subscribers w) (next w) (trace w).
Definition set_subscribers (ss : gmap nat nat) w : world A :=
  World (handlers w) (emitters w) ss (next w) (trace w).
Definition log (c : call A) w : world A :=
  World (handlers w) (emitters w) (subscribers w) (next w) (trace w ++ [c]).

(** *** Handlers *)

Definition set_alive (b : bool) (h : EventHandler) : EventHandler :=
  {| alive_ := b; once_ := once_ h; cb_ := cb_ h; strong := strong h |}.
Definition set_dead : EventHandler -> EventHandler := set_alive false.
Definition set_once (h : EventHandler) : EventHandler :=
  {| alive_ := alive_ h; once_ := true; cb_ := cb_ h; strong := strong h |}.
Definition retain (h : EventHandler) : EventHandler :=
  {| alive_ := alive_ h; once_ := once_ h; cb_ := cb_ h; strong := S (strong h) |}.
Definition release (h : EventHandler) : EventHandler :=
  {| alive_ := alive_ h; once_ := once_ h; cb_ := cb_ h; strong := Nat.pred (strong h) |}.

Definition update (f : EventHandler -> EventHandler) (i : nat) w : world A :=
  set_handlers (alter f i (handlers w)) w.

(** [handler_.lock()] *)
Definition lock (w : world A) (i : nat) : option EventHandler :=
  match handlers w !! i with
  | Some h => if Nat.eqb (strong h) 0 then None else Some h
  | None => None
  end.

(** [EventHandlerSubscription::is_alive] *)
Definition is_alive (w : world A) (i : nat) : bool :=
  match lock w i with
  | Some h => alive_ h
  | None => false
  end.

(** [EventHandlerSubscription::~EventHandlerSubscription] *)
Definition handler_subscription_destroy (i : nat) w : world A :=
  match lock w i with
  | Some _ => update set_dead i w
  | None => w
  end.

(** *** Subscriptions *)

(** [Subscription::Reset] *)
Definition Reset (v : nat) w : world A :=
  match subscribers w !! v with
  | Some i => update release i (set_subscribers (delete v (subscribers w)) w)
  | None => w
  end.

(** [Subscription::operator=(Subscription&&)] *)
Definition move_assign (v u : nat) w : world A :=
  let w := Reset v w in
  match subscribers w !! u with
  | Some i => set_subscribers (<[v := i]> (delete u (subscribers w))) w
  | None => w
  end.

(** [Subscription::Once], on a variable that keeps the result. *)
Definition Once (v : nat) w : result A :=
  match subscribers w !! v with
  | Some i => Ran (update set_once i w)
  | None => UndefinedBehaviour
  end.

(** [Subscription::operator bool] *)
Definition subscription_bool (w : world A) (v : nat) : bool :=
  match subscribers w !! v with
  | Some i => match handlers w !! i with Some h => alive_ h | None => false end
  | None => false
  end.

(** *** Events *)

(** The constructor of [Event]. *)
Definition new_event (e : nat) w : result A :=
  match emitters w !! e with
  | Some _ => UndefinedBehaviour
  | None =>
      Ran (set_emitters
             (<[e := {| subscriptions_ := []; owned := true; emitting := 0 |}]> (emitters w)) w)
  end.

(** The [Event] a live reference names. *)
Definition find_event (w : world A) (e : nat) : option EventEmitter :=
  match emitters w !! e with
  | Some m => if owned m then Some m else None
  | None => None
  end.

(** The destructor of [EventEmitter], once nothing refers to it. *)
Definition emitter_destroy (m : EventEmitter) w : world A :=
  fold_left (fun w i => handler_subscription_destroy i w) (subscriptions_ m) w.

(** A change of the reference count of an emitter: the last one destroys it. *)
Definition settle (e : nat) (m : EventEmitter) w : world A :=
  if owned m || negb (Nat.eqb (emitting m) 0)
  then set_emitters (<[e := m]> (emitters w)) w
  else emitter_destroy m (set_emitters (delete e (emitters w)) w).

(** The destructor of [Event]. *)
Definition destroy_event (e : nat) w : result A :=
  match find_event w e with
  | Some m =>
      Ran (settle e {| subscriptions_ := subscriptions_ m; owned := false;
                       emitting := emitting m |} w)
  | None => UndefinedBehaviour
  end.

(** [Event::Add] *)
Definition Add (e i : nat) w : result A :=
  match find_event w e with
  | Some m =>
      Ran (set_emitters
             (<[e := {| subscriptions_ := subscriptions_ m ++ [i]; owned := owned m;
                        emitting := emitting m |}]> (emitters w)) w)
  | None => UndefinedBehaviour
  end.

(** [EventSubscriber::Subscribe], with the result assigned to [v]. *)
Definition Subscribe (e v cb : nat) w : result A :=
  let i := next w in
  let w := World (<[i := {| alive_ := true; once_ := false; cb_ := cb; strong := 1 |}]>
                    (handlers w))
                 (emitters w) (subscribers w) (S i) (trace w) in
  bind (Add e i w) (fun w =>
  let w := Reset v w in
  Ran (set_subscribers (<[v := i]> (subscribers w)) w)).

(** *** Emission *)

(** Value left in an argument after it was moved from. *)
Variable moved : A -> A.

(** The body of a callback. *)
Variable callback : nat -> A -> list (command A).

(** What a callback runs its commands with, and the depth of the emission. *)
Variable run_body : list (command A) -> world A -> result A.
Variable level : nat.

(** [EventHandler::invoke] *)
Definition handler_invoke (i : nat) (a : A) (h : EventHandler) w : result A :=
  bind (if alive_ h then run_body (callback (cb_ h) a) (log (Call level i a) w) else Ran w)
  (fun w =>
   match handlers w !! i with
   | Some h => Ran (if once_ h then update (set_alive false) i w else w)
   | None => UndefinedBehaviour
   end).

(** [EventHandlerSubscription::invoke]; the handler stays locked during the
    call. *)
Definition invoke (i : nat) (a : A) w : result A :=
  match lock w i with
  | Some h =>
      let w := update retain i w in
      bind (if alive_ h then handler_invoke i a h w else Ran w)
           (fun w => Ran (update release i w))
  | None => Ran w
  end.

(** The loop over [invoke_list]: the argument is forwarded to every handler, so
    a handler that is called moves it away. *)
Fixpoint invoke_all (l : list nat) (a : A) w : result A :=
  match l with
  | [] => Ran w
  | i :: l =>
      bind (invoke i a w) (invoke_all l (if is_alive w i then moved a else a))
  end.

(** The end of [Emit]: dead subscriptions are erased and [self_ptr] released. *)
Definition cleanup (e : nat) w : result A :=
  match emitters w !! e with
  | Some m =>
      Ran (settle e {| subscriptions_ := List.filter (is_alive w) (subscriptions_ m);
                       owned := owned m; emitting := Nat.pred (emitting m) |} w)
  | None => UndefinedBehaviour
  end.

(** [EventEmitter::Emit] *)
Definition Emit (e : nat) (a : A) w : result A :=
  match find_event w e with
  | Some m =>
      let w := set_emitters
                 (<[e := {| subscriptions_ := subscriptions_ m; owned := owned m;
                            emitting := S (emitting m) |}]> (emitters w)) w in
      let invoke_list := subscriptions_ m in
      bind (invoke_all invoke_list a w) (cleanup e)
  | None => UndefinedBehaviour
  end.

Definition run_command (c : command A) w : result A :=
  match c with
  | CNew e => new_event e w
  | CDestroy e => destroy_event e w
  | CEmit e a => Emit e a w
  | CSubscribe e v cb => Subscribe e v cb w
  | COnce v => Once v w
  | CReset v => Ran (Reset v w)
  | CMove v u => Ran (move_assign v u w)
  end.

Fixpoint run_commands (cs : list (command A)) w : result A :=
  match cs with
  | [] => Ran w
  | c :: cs => bind (run_command c w) (run_commands cs)
  end.

End operations.

(** A program of commands, with emissions nested at most [fuel] deep. *)
Fixpoint run {A} (moved : A -> A) (callback : nat -> A -> list (command A))
  (fuel level : nat) (cs : list (command A)) (w : world A) : result A :=
  match fuel with
  | O => OutOfFuel
  | S n => run_commands moved callback (run moved callback n (S level)) level cs w
  end.

(** ** MultiSubscription

    The subscriptions it holds: the handler of each, none for an empty one. *)
Section multi.
Context {A : Type}.

Definition MultiSubscription := list (option nat).

(** [Subscription::operator bool] of an element. *)
Definition handle_bool (w : world A) (s : option nat) : bool :=
  match s with
  | Some i => match handlers w !! i with Some h => alive_ h | None => false end
  | None => false
  end.

(** [Subscription::~Subscription] of an element. *)
Definition handle_destroy (s : option nat) (w : world A) : world A :=
  match s with Some i => update release i w | None => w end.

Definition handles_destroy (l : MultiSubscription) (w : world A) : world A :=
  fold_left (fun w s => handle_destroy s w) l w.

Definition multi_reset (m : MultiSubscription) (w : world A) : MultiSubscription * world A :=
  ([], handles_destroy m w).

Definition multi_cleanup (m : MultiSubscription) (w : world A) : MultiSubscription * world A :=
  (List.filter (handle_bool w) m,
   handles_destroy (List.filter (fun s => negb (handle_bool w s)) m) w).

(** [MultiSubscription::Push] *)
Definition multi_push (l : list (option nat)) (m : MultiSubscription) (w : world A)
  : MultiSubscription * world A :=
  let '(m, w) := multi_cleanup m w in (m ++ l, w).

End multi.

End Events.

Module Barrier.

(** ** BarrierEvent<T, Count> *)

Record BarrierEvent (T : Type) := {
  current_index_ : nat;
  set_map_ : list bool;
  values_ : list T;
}.
Arguments current_index_ {T} b.
Arguments set_map_ {T} b.
Arguments values_ {T} b.

Section barrier.
Context {T : Type}.

(** A new barrier; [d] is the default value of [T]. *)
Definition barrier (d : T) (Count : nat) : BarrierEvent T :=
  {| current_index_ := 0; set_map_ := replicate Count false; values_ := replicate Count d |}.

Definition IsFull (b : BarrierEvent T) : bool := forallb id (set_map_ b).

(** The values given to [res_event_], when it is emitted. *)
Definition emission (b : BarrierEvent T) : option (list T) :=
  if IsFull b then Some (values_ b) else None.

(** [Emit<I>] *)
Definition barrier_emit (I : nat) (t : T) (b : BarrierEvent T)
  : outcome (BarrierEvent T * option (list T)) :=
  if Nat.ltb I (length (set_map_ b))
  then let b := {| current_index_ := current_index_ b; set_map_ := <[I := true]> (set_map_ b);
                   values_ := <[I := t]> (values_ b) |} in
       Defined (b, emission b)
  else Undefined.

(** [EmitNext] *)
Definition EmitNext (t : T) (b : BarrierEvent T)
  : outcome (BarrierEvent T * option (list T)) :=
  let i := current_index_ b in
  if Nat.ltb i (length (set_map_ b))
  then let b := {| current_index_ := S i; set_map_ := <[i := true]> (set_map_ b);
                   values_ := <[i := t]> (values_ b) |} in
       Defined (b, emission b)
  else Undefined.

(** The emissions of the result event along a sequence of [EmitNext]. *)
Fixpoint emit_next_all (ts : list T) (b : BarrierEvent T)
  : outcome (BarrierEvent T * list (option (list T))) :=
  match ts with
  | [] => Defined (b, [])
  | t :: ts =>
      let* (b, o) := EmitNext t b in
      let* (b, os) := emit_next_all ts b in
      Defined (b, o :: os)
  end.

End barrier.

End Barrier.

Module EventProperties.
Import Events.

Section ext.
Context {A : Type}.
Variable moved : A -> A.
Variable callback : nat -> A -> list (command A).
Implicit Types w : world A.

(** ** Effect of code that runs inside an emission

    Subscriptions known before stay in order, only dead ones are dropped and
    only new ones are added. *)
Definition grows w w' (l l' : list nat) : Prop :=
  exists (p : nat -> bool) (added : list nat),
    l' = List.filter p l ++ added /\
    (forall i, (i < next w)%nat -> is_alive w' i = true -> p i = true) /\
    Forall (fun i => (next w <= i)%nat) added.

Definition wf w : Prop :=
  forall e m, emitters w !! e = Some m ->
    NoDup (subscriptions_ m) /\ Forall (fun i => (i < next w)%nat) (subscriptions_ m).

Definition dying w w' : Prop :=
  (next w <= next w')%nat /\
  forall i, (i < next w)%nat -> is_alive w' i = true -> is_alive w i = true.

Definition kept (E : nat -> Prop) w w' : Prop :=
  forall e m, E e -> emitters w !! e = Some m -> emitting m <> 0%nat ->
    exists m', emitters w' !! e = Some m' /\ emitting m' = emitting m /\
               grows w w' (subscriptions_ m) (subscriptions_ m').

Definition logged (d : nat) w w' : Prop :=
  exists l, trace w' = trace w ++ l /\ Forall (fun c => (d <= depth c)%nat) l.

Definition ext (d : nat) w w' : Prop :=
  dying w w' /\ logged d w w' /\ kept (fun _ => True) w w' /\ (wf w -> wf w').

Lemma filter_filter (p q : nat -> bool) l :
  List.filter p (List.filter q l) = List.filter (fun i => q i && p i) l.
Proof. induction l as [|x l IH]; [done|]. simpl. destruct (q x); simpl; destruct (p x); by rewrite ?IH. Qed.

Lemma dying_refl w : dying w w.
Proof. split; auto. Qed.

Lemma dying_trans w1 w2 w3 : dying w1 w2 -> dying w2 w3 -> dying w1 w3.
Proof. intros [? H1] [? H2]; split; [lia|]. intros i ? ?. apply H1, H2; auto; lia. Qed.

Lemma grows_trans w1 w2 w3 l1 l2 l3 :
  dying w1 w2 -> dying w2 w3 -> grows w1 w2 l1 l2 -> grows w2 w3 l2 l3 -> grows w1 w3 l1 l3.
Proof.
  intros [Hn1 H1] [Hn2 H2] (p & a & -> & Hp & Ha) (q & b & -> & Hq & Hb).
  exists (fun i => p i && q i), (List.filter q a ++ b).
  split; [by rewrite List.filter_app, filter_filter, app_assoc|]. split.
  - intros i Hi Hal. rewrite Hp, Hq; auto; [lia|]. apply H2; auto; lia.
  - apply Forall_app; split.
    + apply list.Forall_forall. intros x Hx. apply list_elem_of_In, filter_In in Hx as [Hx _].
      apply list_elem_of_In in Hx. by apply (proj1 (list.Forall_forall _ _) Ha) in Hx.
    + eapply Forall_impl; [exact Hb|]. simpl; lia.
Qed.

Lemma grows_refl w w' l : grows w w' l l.
Proof.
  exists (fun _ => true), []. rewrite app_nil_r. repeat split; auto.
  induction l as [|x l IH]; simpl; congruence.
Qed.

Lemma kept_trans E w1 w2 w3 :
  dying w1 w2 -> dying w2 w3 -> kept E w1 w2 -> kept E w2 w3 -> kept E w1 w3.
Proof.
  intros D1 D2 K1 K2 e m HE Hm Hn.
  destruct (K1 e m HE Hm Hn) as (m2 & Hm2 & Hn2 & G2).
  destruct (K2 e m2 HE Hm2) as (m3 & Hm3 & Hn3 & G3); [congruence|].
  exists m3. split; [done|]. split; [congruence|]. eapply grows_trans; eauto.
Qed.

Lemma logged_trans d w1 w2 w3 : logged d w1 w2 -> logged d w2 w3 -> logged d w1 w3.
Proof.
  intros (l & E & H) (k & E' & H'). exists (l ++ k).
  rewrite E', E, app_assoc. split; [done|]. by apply Forall_app.
Qed.

Lemma ext_trans d w1 w2 w3 : ext d w1 w2 -> ext d w2 w3 -> ext d w1 w3.
Proof.
  intros (D1 & L1 & K1 & W1) (D2 & L2 & K2 & W2). split; [eapply dying_trans; eauto|].
  split; [eapply logged_trans; eauto|]. split; [eapply kept_trans; eauto|].
  intros; by apply W2, W1.
Qed.

Lemma ext_refl d w : ext d w w.
Proof.
  split; [apply dying_refl|]. split; [exists []; by rewrite app_nil_r|]. split; [|done].
  intros e m _ Hm _. exists m. repeat split; auto using grows_refl.
Qed.

(** *** Changes of the handlers *)

(** The handler cannot be called afterwards if it could not before. *)
Definition lessens (f : EventHandler -> EventHandler) : Prop :=
  forall h, strong (f h) <> 0%nat -> alive_ (f h) = true ->
    strong h <> 0%nat /\ alive_ h = true.

Lemma is_alive_true w i :
  is_alive w i = true <->
  exists h, handlers w !! i = Some h /\ strong h <> 0%nat /\ alive_ h = true.
Proof.
  unfold is_alive, lock. destruct (handlers w !! i) as [h|].
  - destruct (Nat.eqb_spec (strong h) 0); split; try done; [|by exists h|].
    all: intros (? & [= <-] & ? & ?); done.
  - split; [done|]. by intros (? & ? & _).
Qed.

Lemma dying_handlers w w' :
  next w' = next w ->
  (forall i, is_alive w' i = true -> is_alive w i = true) -> dying w w'.
Proof. intros E H; split; [lia|auto]. Qed.

(** Only the handlers and the trace change. *)
Lemma ext_quiet d w w' :
  emitters w' = emitters w -> next w' = next w -> dying w w' -> logged d w w' -> ext d w w'.
Proof.
  intros E En D L. split; [done|]. split; [done|]. split.
  - intros e m _ Hm _. exists m. rewrite E. repeat split; auto using grows_refl.
  - intros H e m. rewrite E, En. apply H.
Qed.

Lemma logged_same d w w' : trace w' = trace w -> logged d w w'.
Proof. intros E. exists []. by rewrite app_nil_r. Qed.

Lemma update_dying f i w : lessens f -> dying w (update f i w).
Proof.
  intros Hf. apply dying_handlers; [done|]. intros j. rewrite !is_alive_true.
  intros (h & Hh & Hs & Ha). unfold update in Hh; simpl in Hh.
  apply lookup_alter_Some in Hh as [(-> & h' & Hh' & ->)|[? ?]]; [|by exists h].
  destruct (Hf h' Hs Ha). eauto.
Qed.

Lemma update_ext d f i w : lessens f -> ext d w (update f i w).
Proof. intros. apply ext_quiet; auto using update_dying. by apply logged_same. Qed.

Lemma retain_ext d i w h : lock w i = Some h -> ext d w (update retain i w).
Proof.
  intros Hl. apply ext_quiet; [done|done| |by apply logged_same].
  apply dying_handlers; [done|]. intros j. rewrite !is_alive_true.
  intros (h' & Hh & Hs & Ha). unfold update in Hh; simpl in Hh.
  apply lookup_alter_Some in Hh as [(-> & h0 & Hh0 & ->)|[? ?]]; [|by exists h'].
  unfold lock in Hl. rewrite Hh0 in Hl. destruct (Nat.eqb_spec (strong h0) 0); [done|eauto].
Qed.

Lemma lessens_dead : lessens (set_alive false).
Proof. by intros h _ [=]. Qed.
Lemma lessens_once : lessens set_once.
Proof. by intros h. Qed.
Lemma lessens_release : lessens release.
Proof. intros h Hs Ha; simpl in *. split; [lia|done]. Qed.
#[local] Hint Resolve lessens_dead lessens_once lessens_release : core.

Lemma subscribers_ext d ss w : ext d w (set_subscribers ss w).
Proof. apply ext_quiet; [done|done| |by apply logged_same]. by apply dying_handlers. Qed.

Lemma Reset_ext d v w : ext d w (Reset v w).
Proof.
  unfold Reset. destruct (subscribers w !! v); [|apply ext_refl].
  eapply ext_trans; [apply subscribers_ext|]. by apply update_ext.
Qed.

Lemma move_assign_ext d v u w : ext d w (move_assign v u w).
Proof.
  unfold move_assign. eapply ext_trans; [apply Reset_ext|].
  destruct (_ !! u); [apply subscribers_ext|apply ext_refl].
Qed.

Lemma handler_subscription_destroy_ext d i w : ext d w (handler_subscription_destroy i w).
Proof.
  unfold handler_subscription_destroy. destruct (lock w i); [by apply update_ext|apply ext_refl].
Qed.

Lemma emitter_destroy_ext d m w : ext d w (emitter_destroy m w).
Proof.
  unfold emitter_destroy. generalize (subscriptions_ m). intros l. revert w.
  induction l as [|i l IH]; intros; [apply ext_refl|]. simpl.
  eapply ext_trans; [apply handler_subscription_destroy_ext|apply IH].
Qed.

(** *** Changes of the emitters *)

Definition wf_subscriptions w (l : list nat) : Prop :=
  NoDup l /\ Forall (fun i => (i < next w)%nat) l.

(** Everything but the emitter [e]. *)
Definition ext_but (e d : nat) w w' : Prop :=
  dying w w' /\ logged d w w' /\ kept (fun x => x <> e) w w'.

Lemma ext_but_trans e d w1 w2 w3 :
  ext_but e d w1 w2 -> ext_but e d w2 w3 -> ext_but e d w1 w3.
Proof.
  intros (D1 & L1 & K1) (D2 & L2 & K2). split; [eapply dying_trans; eauto|].
  split; [eapply logged_trans; eauto|eapply kept_trans; eauto].
Qed.

Lemma ext_ext_but e d w w' : ext d w w' -> ext_but e d w w'.
Proof. intros (? & ? & K & _). split; [done|]. split; [done|]. intros x m _. by apply K. Qed.

Lemma set_emitters_but e d es w :
  (forall x, x <> e -> es !! x = emitters w !! x) -> ext_but e d w (set_emitters es w).
Proof.
  intros H. split; [by apply dying_handlers|]. split; [by apply logged_same|].
  intros x m Hx Hm _. exists m. simpl. rewrite H by done. repeat split; auto using grows_refl.
Qed.

Lemma settle_but e d m w : ext_but e d w (settle e m w).
Proof.
  unfold settle. destruct (owned m || _).
  - apply set_emitters_but. intros. by rewrite lookup_insert_ne.
  - eapply ext_but_trans.
    + apply (set_emitters_but e d (delete e (emitters w))). intros. by rewrite lookup_delete_ne.
    + apply ext_ext_but, emitter_destroy_ext.
Qed.

Lemma settle_at e m w :
  emitting m <> 0%nat -> emitters (settle e m w) !! e = Some m.
Proof.
  intros. unfold settle. destruct (Nat.eqb_spec (emitting m) 0); [done|].
  rewrite orb_true_r. simpl. by rewrite lookup_insert_eq.
Qed.

Lemma wf_insert e m w :
  wf w -> wf_subscriptions w (subscriptions_ m) -> wf (set_emitters (<[e := m]> (emitters w)) w).
Proof.
  intros W H x m'. simpl. destruct (decide (x = e)) as [->|].
  - rewrite lookup_insert_eq. by intros [= <-].
  - rewrite lookup_insert_ne by done. apply W.
Qed.

Lemma wf_settle e m w :
  wf w -> wf_subscriptions w (subscriptions_ m) -> wf (settle e m w).
Proof.
  intros W H. unfold settle. destruct (owned m || _); [by apply wf_insert|].
  apply (emitter_destroy_ext 0). intros x m'. simpl.
  rewrite lookup_delete_Some. intros [_ Hm]. exact (W x m' Hm).
Qed.

(** A change of one emitter that keeps what running emissions rely on. *)
Lemma ext_of_but e d w w' :
  ext_but e d w w' ->
  (forall m, emitters w !! e = Some m -> emitting m <> 0%nat ->
     exists m', emitters w' !! e = Some m' /\ emitting m' = emitting m /\
                grows w w' (subscriptions_ m) (subscriptions_ m')) ->
  (wf w -> wf w') -> ext d w w'.
Proof.
  intros (D & L & K) He W. split; [done|]. split; [done|]. split; [|done].
  intros x m _ Hm Hn. destruct (decide (x = e)) as [->|]; [by apply He|by apply K].
Qed.

Lemma find_event_Some w e m :
  find_event w e = Some m -> emitters w !! e = Some m /\ owned m = true.
Proof. unfold find_event. destruct (_ !! e) as [x|]; [|done]. destruct (owned x) eqn:?; [|done]. by intros [= <-]. Qed.

Lemma new_event_ext d e w w' : new_event e w = Ran w' -> ext d w w'.
Proof.
  unfold new_event. destruct (emitters w !! e) eqn:E; [done|]. intros [= <-].
  apply (ext_of_but e).
  - apply set_emitters_but. intros. by rewrite lookup_insert_ne.
  - intros m Hm. congruence.
  - intros W. apply wf_insert; [done|]. split; constructor.
Qed.

Lemma destroy_event_ext d e w w' : destroy_event e w = Ran w' -> ext d w w'.
Proof.
  unfold destroy_event. destruct (find_event w e) as [m|] eqn:E; [|done]. intros [= <-].
  apply find_event_Some in E as [E _]. apply (ext_of_but e); [apply settle_but| |].
  - intros m' [= <-]%(eq_trans (eq_sym E)) Hn. eexists. split; [by apply settle_at|].
    split; [done|apply grows_refl].
  - intros W. apply wf_settle; [done|]. apply (W e m E).
Qed.

(** The world after [make_unique<EventHandler>] in [Subscribe]. *)
Definition with_handler (cb : nat) w : world A :=
  World (<[next w := {| alive_ := true; once_ := false; cb_ := cb; strong := 1 |}]> (handlers w))
        (emitters w) (subscribers w) (S (next w)) (trace w).

Lemma with_handler_dying cb w : dying w (with_handler cb w).
Proof.
  split; [simpl; lia|]. intros i Hi. unfold is_alive, lock; simpl.
  rewrite lookup_insert_ne by lia. done.
Qed.

Lemma subscribed_wf e cb m o n w :
  wf w -> emitters w !! e = Some m ->
  wf (set_emitters (<[e := {| subscriptions_ := subscriptions_ m ++ [next w]; owned := o;
                              emitting := n |}]> (emitters w)) (with_handler cb w)).
Proof.
  intros W E. destruct (W e m E) as [HN HF]. apply (wf_insert e _ (with_handler cb w)).
  - intros x m' Hm'. destruct (W x m' Hm') as [? HF']. split; [done|].
    eapply Forall_impl; [exact HF'|]. simpl; lia.
  - simpl. split.
    + apply list.NoDup_app. split; [done|]. split; [|apply NoDup_singleton].
      intros i Hi Hn%list_elem_of_singleton. subst.
      apply (proj1 (list.Forall_forall _ _) HF) in Hi. lia.
    + apply Forall_app. split; [|repeat constructor; simpl; lia].
      eapply Forall_impl; [exact HF|]. simpl; lia.
Qed.

Lemma Subscribe_ext d e v cb w w' : Subscribe e v cb w = Ran w' -> ext d w w'.
Proof.
  unfold Subscribe. fold (with_handler cb w). unfold Add.
  destruct (find_event _ e) as [m|] eqn:E; [|done]. simpl. intros [= <-].
  apply find_event_Some in E as [E _]. simpl in E.
  eapply ext_trans; [|eapply ext_trans; [apply Reset_ext|apply subscribers_ext]].
  apply (ext_of_but e).
  - split; [by apply with_handler_dying|]. split; [by apply logged_same|].
    intros x m' Hx Hm' _. exists m'. simpl. rewrite lookup_insert_ne by done.
    repeat split; auto using grows_refl.
  - intros m' [= <-]%(eq_trans (eq_sym E)) Hn. eexists. simpl. rewrite lookup_insert_eq.
    split; [done|]. split; [done|]. exists (fun _ => true), [next w]. simpl.
    split; [|split; [done|by constructor]].
    f_equal. clear. induction (subscriptions_ m) as [|x l IH]; simpl; congruence.
  - intros W. by apply subscribed_wf.
Qed.

(** *** Emission *)

(** The calls an emission at depth [d] makes itself. *)
Definition own (d : nat) (l : list (call A)) : list (call A) :=
  List.filter (fun c => Nat.eqb (depth c) d) l.

(** The successive values of the argument. *)
Definition forwarded (a : A) (n : nat) : list A :=
  map (fun k => Nat.iter k moved a) (seq 0 n).

Lemma forwarded_S a n : forwarded a (S n) = a :: forwarded (moved a) n.
Proof.
  unfold forwarded. simpl. f_equal. rewrite <- seq_shift, map_map. apply map_ext.
  intros k. simpl. by rewrite <- Nat.iter_swap.
Qed.

Lemma own_deeper d l : Forall (fun c => (S d <= depth c)%nat) l -> own d l = [].
Proof.
  induction 1 as [|c l H _ IH]; [done|]. simpl.
  destruct (Nat.eqb_spec (depth c) d); [lia|done].
Qed.

Lemma ext_weaken d w w' : ext (S d) w w' -> ext d w w'.
Proof.
  intros (? & (l & ? & F) & ? & ?). split; [done|]. split; [|done].
  exists l. split; [done|]. eapply Forall_impl; [exact F|]. simpl; lia.
Qed.

Section emission.
Variable run_body : list (command A) -> world A -> result A.
Variable level : nat.
Hypothesis body_ext : forall cs w w', run_body cs w = Ran w' -> ext (S level) w w'.

Lemma handler_invoke_ext i a h w w' :
  handler_invoke callback run_body level i a h w = Ran w' ->
  ext (S level) (if alive_ h then log (Call level i a) w else w) w'.
Proof.
  unfold handler_invoke. intros H.
  assert (exists w1, ext (S level) (if alive_ h then log (Call level i a) w else w) w1 /\
    match handlers w1 !! i with
    | Some h => Ran (if once_ h then update (set_alive false) i w1 else w1)
    | None => UndefinedBehaviour
    end = Ran w') as (w1 & E & H1).
  { destruct (alive_ h); simpl in H; [|exists w; auto using ext_refl].
    destruct (run_body _ _) as [w1| |] eqn:R; [|done|done].
    exists w1. split; [by eapply body_ext|done]. }
  eapply ext_trans; [exact E|]. destruct (handlers w1 !! i) as [h1|]; [|done].
  injection H1 as <-. destruct (once_ h1); [by apply update_ext|apply ext_refl].
Qed.

Lemma log_ext c w : (level <= depth c)%nat -> ext level w (log c w).
Proof.
  intros. apply ext_quiet; [done|done|by apply dying_handlers|].
  exists [c]. split; [done|]. by repeat constructor.
Qed.

(** One step of the loop: the handler is called when it is alive. *)
Lemma invoke_spec i a w w' :
  invoke callback run_body level i a w = Ran w' ->
  ext level w w' /\
  exists l, trace w' = trace w ++ (if is_alive w i then [Call level i a] else []) ++ l /\
            Forall (fun c => (S level <= depth c)%nat) l.
Proof.
  unfold invoke, is_alive. destruct (lock w i) as [h|] eqn:L.
  2: { intros [= <-]. split; [apply ext_refl|]. exists []. by rewrite !app_nil_r. }
  set (w1 := update retain i w). intros H.
  pose proof (retain_ext level i w h L) as E1. fold w1 in E1.
  destruct (alive_ h) eqn:Ha.
  - destruct (handler_invoke _ _ _ _ _ _ _) as [w2| |] eqn:I; simplify_eq/=.
    apply handler_invoke_ext in I. rewrite Ha in I. split.
    + eapply ext_trans; [exact E1|]. eapply ext_trans; [by apply (log_ext (Call level i a))|].
      eapply ext_trans; [by apply ext_weaken, I|]. by apply update_ext.
    + destruct I as (_ & (l & T & F) & _). exists l. split; [|done].
      unfold update; simpl. rewrite T. unfold w1, log; simpl. by rewrite <- app_assoc.
  - simpl in H. injection H as <-. split.
    + eapply ext_trans; [exact E1|]. by apply update_ext.
    + exists []. by rewrite !app_nil_r.
Qed.

Lemma invoke_all_spec l a w w' :
  invoke_all moved callback run_body level l a w = Ran w' ->
  ext level w w' /\
  exists k, trace w' = trace w ++ k /\
    sublist (map callee (own level k)) l /\
    map arg (own level k) = forwarded a (length (own level k)) /\
    forall i, i ∈ l -> (i < next w)%nat -> is_alive w' i = true ->
      i ∈ map callee (own level k).
Proof.
  revert a w; induction l as [|i l IH]; intros a w H; simpl in H.
  { injection H as <-. split; [apply ext_refl|]. exists []. rewrite app_nil_r.
    repeat split; [constructor|]. intros i Hi. by apply elem_of_nil in Hi. }
  destruct (invoke _ _ _ _ _ _) as [w1| |] eqn:I; [|done|done]. simpl in H.
  apply invoke_spec in I as [E1 (l1 & T1 & F1)].
  apply IH in H as [E2 (k & T2 & S & G & N)].
  split; [eapply ext_trans; eauto|].
  exists ((if is_alive w i then [Call level i a] else []) ++ l1 ++ k).
  split; [by rewrite T2, T1, <- !app_assoc|].
  destruct E1 as [[Hn D1] _], E2 as [[Hn2 D2] _].
  unfold own. rewrite !List.filter_app. fold (own level l1) (own level k).
  rewrite own_deeper by done. simpl. destruct (is_alive w i) eqn:Ha; simpl.
  - rewrite Nat.eqb_refl. simpl. split; [by apply sublist_skip|].
    split; [by rewrite forwarded_S, G|]. intros j Hj Hlt Hal.
    apply list_elem_of_In in Hj as [->|Hj]; [apply list_elem_of_here|]. apply list_elem_of_In in Hj.
    apply list_elem_of_further, N; auto; lia.
  - split; [by apply sublist_cons|]. split; [done|]. intros j Hj Hlt Hal.
    apply list_elem_of_In in Hj as [->|Hj].
    + rewrite D1 in Ha; [done|done|]. apply D2; [lia|done].
    + apply list_elem_of_In in Hj. apply N; auto; lia.
Qed.

Lemma emitters_emitter_destroy m w : emitters (emitter_destroy m w) = emitters w.
Proof.
  unfold emitter_destroy. generalize (subscriptions_ m). intros l. revert w.
  induction l as [|i l IH]; intros; [done|]. simpl. rewrite IH.
  unfold handler_subscription_destroy. by destruct (lock w i).
Qed.

Lemma trace_settle e m w : trace (settle e m w) = trace w.
Proof.
  unfold settle. destruct (owned m || _); [done|]. unfold emitter_destroy.
  generalize (subscriptions_ m). intros l.
  assert (forall x : world A, trace (fold_left (fun w i => handler_subscription_destroy i w) l x)
    = trace x) as H; [|by rewrite H].
  induction l as [|i l IH]; intros x; [done|]. simpl. rewrite IH.
  unfold handler_subscription_destroy. by destruct (lock x i).
Qed.

(** What is left of an emitter that is still there after [cleanup]. *)
Lemma settle_left e m m' w :
  emitters (settle e m w) !! e = Some m' -> m' = m /\ handlers (settle e m w) = handlers w.
Proof.
  unfold settle. destruct (owned m || _).
  - simpl. rewrite lookup_insert_eq. by intros [= <-].
  - rewrite emitters_emitter_destroy. simpl. by rewrite lookup_delete_eq.
Qed.

Lemma is_alive_handlers w' w : handlers w' = handlers w -> is_alive w' = is_alive w.
Proof. intros H. unfold is_alive, lock. by rewrite H. Qed.

Lemma filter_survivors w w' (p : nat -> bool) l added :
  Forall (fun i => (i < next w)%nat) l ->
  (forall i, (i < next w)%nat -> is_alive w' i = true -> p i = true) ->
  List.filter (is_alive w') (List.filter p l ++ added) =
  List.filter (is_alive w') l ++ List.filter (is_alive w') added.
Proof.
  intros F Hp. rewrite List.filter_app. f_equal. rewrite filter_filter.
  induction F as [|i l Hi _ IH]; [done|]. simpl. rewrite IH.
  destruct (is_alive w' i) eqn:Ha; [by rewrite Hp|by rewrite andb_false_r].
Qed.

Lemma wf_filter w p l : wf_subscriptions w l -> wf_subscriptions w (List.filter p l).
Proof.
  intros [N F]. split.
  - apply NoDup_ListNoDup, List.NoDup_filter. by apply NoDup_ListNoDup.
  - apply list.Forall_forall. intros i Hi. apply list_elem_of_In, filter_In in Hi as [Hi _].
    apply list_elem_of_In in Hi. by apply (proj1 (list.Forall_forall _ _) F).
Qed.

(** The steps of [Emit]: the loop runs with the emitter retained. *)
Lemma Emit_inv e a w w' :
  Emit moved callback run_body level e a w = Ran w' ->
  exists m w1 w2 m2,
    emitters w !! e = Some m /\
    w1 = set_emitters (<[e := {| subscriptions_ := subscriptions_ m; owned := owned m;
                                 emitting := S (emitting m) |}]> (emitters w)) w /\
    invoke_all moved callback run_body level (subscriptions_ m) a w1 = Ran w2 /\
    ext level w1 w2 /\
    emitters w2 !! e = Some m2 /\ emitting m2 = S (emitting m) /\
    grows w1 w2 (subscriptions_ m) (subscriptions_ m2) /\
    w' = settle e {| subscriptions_ := List.filter (is_alive w2) (subscriptions_ m2);
                     owned := owned m2; emitting := emitting m |} w2.
Proof.
  unfold Emit. destruct (find_event w e) as [m|] eqn:E; [|done].
  apply find_event_Some in E as [E _]. set (w1 := set_emitters _ w). intros H.
  destruct (invoke_all _ _ _ _ _ _ _) as [w2| |] eqn:I; [|done|done]. simpl in H.
  pose proof (proj1 (invoke_all_spec _ _ _ _ I)) as X.
  destruct X as (D & L & K & W).
  assert (emitters w1 !! e = Some {| subscriptions_ := subscriptions_ m; owned := owned m;
                                     emitting := S (emitting m) |}) as E1
    by (simpl; by rewrite lookup_insert_eq).
  destruct (K e _ Logic.I E1) as (m2 & E2 & N2 & G); [done|]. simpl in N2, G.
  exists m, w1, w2, m2. unfold cleanup in H. rewrite E2, N2 in H. simpl in H. by injection H as <-.
Qed.

Lemma Emit_ext e a w w' :
  Emit moved callback run_body level e a w = Ran w' -> ext level w w'.
Proof.
  intros (m & w1 & w2 & m2 & E & -> & _ & X & E2 & N2 & G & ->)%Emit_inv.
  apply (ext_of_but e).
  - eapply ext_but_trans; [|eapply ext_but_trans; [by apply ext_ext_but, X|apply settle_but]].
    apply set_emitters_but. intros. by rewrite lookup_insert_ne.
  - intros m' [= <-]%(eq_trans (eq_sym E)) Hn. eexists. split; [by apply settle_at|].
    split; [done|]. simpl. eapply grows_trans; [apply X|apply (settle_but e level)|exact G|].
    exists (is_alive w2), []. rewrite app_nil_r. split; [done|]. split; [|done].
    intros i Hi Hal. apply (settle_but e level) in Hal; [done|exact Hi].
  - intros W. assert (wf w2) as W2.
    { apply X. apply wf_insert; [done|]. apply (W e m E). }
    apply wf_settle; [done|]. simpl. apply wf_filter. apply (W2 e m2 E2).
Qed.

Lemma run_command_ext c w w' :
  run_command moved callback run_body level c w = Ran w' -> ext level w w'.
Proof.
  destruct c; simpl.
  - apply new_event_ext.
  - apply destroy_event_ext.
  - apply Emit_ext.
  - apply Subscribe_ext.
  - unfold Once. destruct (_ !! v); [|done]. intros [= <-]. by apply update_ext.
  - intros [= <-]. apply Reset_ext.
  - intros [= <-]. apply move_assign_ext.
Qed.

Lemma run_commands_ext cs w w' :
  run_commands moved callback run_body level cs w = Ran w' -> ext level w w'.
Proof.
  revert w; induction cs as [|c cs IH]; intros w; simpl; [intros [= <-]; apply ext_refl|].
  destruct (run_command _ _ _ _ _ _) as [w1| |] eqn:C; [|done|done]. simpl. intros H.
  eapply ext_trans; [by eapply run_command_ext|by apply IH].
Qed.

End emission.

Lemma run_ext fuel d cs w w' : run moved callback fuel d cs w = Ran w' -> ext d w w'.
Proof.
  revert d cs w w'; induction fuel as [|n IH]; intros d cs w w'; [done|]. simpl.
  apply run_commands_ext. intros. by eapply IH.
Qed.

Lemma run_wf fuel d cs w : run moved callback fuel d cs empty_world = Ran w -> wf w.
Proof. intros H%run_ext. apply H. intros e m Hm. done. Qed.

(** ** Termination of nested emissions

    [rank] stratifies the events, [crank] the callbacks: a callback emits only
    events of a smaller rank than its own, and is subscribed only to events of
    at least its own rank. *)
Section rank.
Variable rank crank : nat -> nat.

Definition ranked (r : nat) (c : command A) : Prop :=
  match c with
  | CEmit e _ => (rank e < r)%nat
  | CSubscribe e _ cb => (crank cb <= rank e)%nat
  | _ => True
  end.

Definition ranked_world w : Prop :=
  forall e m i h, emitters w !! e = Some m -> i ∈ subscriptions_ m ->
    handlers w !! i = Some h -> (crank (cb_ h) <= rank e)%nat.

(** Known handlers keep their callback. *)
Definition stable w w' : Prop :=
  (next w <= next w')%nat /\
  forall i h', (i < next w)%nat -> handlers w' !! i = Some h' ->
    exists h, handlers w !! i = Some h /\ cb_ h = cb_ h'.

Definition inv w : Prop := wf w /\ ranked_world w.

Definition safe w w' : Prop := stable w w' /\ (inv w -> inv w').

(** The code returns or fails within the fuel. *)
Definition ends w (r : result A) : Prop :=
  match r with
  | Ran w' => safe w w'
  | UndefinedBehaviour => True
  | OutOfFuel => False
  end.

Lemma stable_trans w1 w2 w3 : stable w1 w2 -> stable w2 w3 -> stable w1 w3.
Proof.
  intros [N1 H1] [N2 H2]. split; [lia|]. intros i h3 Hi H3.
  destruct (H2 i h3) as (h2 & E2 & C2); [lia|done|].
  destruct (H1 i h2) as (h1 & E1 & C1); [lia|done|]. exists h1. split; congruence.
Qed.

Lemma safe_refl w : safe w w.
Proof. split; [|done]. split; [done|]. eauto. Qed.

Lemma safe_trans w1 w2 w3 : safe w1 w2 -> safe w2 w3 -> safe w1 w3.
Proof. intros [S1 I1] [S2 I2]. split; [by eapply stable_trans|auto]. Qed.

Lemma ends_bind w r k :
  ends w r -> (forall w', r = Ran w' -> safe w w' -> ends w' (k w')) -> ends w (bind r k).
Proof.
  destruct r as [w'| |]; simpl; [|done|done]. intros S H. specialize (H w' eq_refl S).
  destruct (k w') as [w2| |]; simpl in *; [|done|done]. by eapply safe_trans.
Qed.

Lemma ends_from w w1 r : safe w w1 -> ends w1 r -> ends w r.
Proof. destruct r; simpl; [|done|done]. apply safe_trans. Qed.

(** Subscriptions may be dropped. *)
Lemma safe_shrink w w' :
  (wf w -> wf w') -> next w' = next w ->
  (forall i h', handlers w' !! i = Some h' ->
     exists h, handlers w !! i = Some h /\ cb_ h = cb_ h') ->
  (forall e m', emitters w' !! e = Some m' ->
     subscriptions_ m' = [] \/
     exists m, emitters w !! e = Some m /\ subscriptions_ m' ⊆ subscriptions_ m) ->
  safe w w'.
Proof.
  intros W N Hh He. split; [split; [lia|eauto]|].
  intros [W1 R1]. split; [auto|]. intros e m' i h' Hm' Hi H'.
  destruct (Hh i h' H') as (h & E & <-).
  destruct (He e m' Hm') as [Z|(m & Hm & Hsub)].
  - rewrite Z in Hi. by apply elem_of_nil in Hi.
  - eapply R1; eauto.
Qed.

Definition keeps_callback (f : EventHandler -> EventHandler) : Prop :=
  forall h, cb_ (f h) = cb_ h.

Lemma update_callback f i w j h' :
  keeps_callback f -> handlers (update f i w) !! j = Some h' ->
  exists h, handlers w !! j = Some h /\ cb_ h = cb_ h'.
Proof.
  intros Hf. unfold update; simpl. rewrite lookup_alter_Some.
  intros [(-> & h & Hh & ->)|[_ Hh]]; eauto.
Qed.

Lemma same_emitters w w' :
  emitters w' = emitters w ->
  forall e m', emitters w' !! e = Some m' ->
     subscriptions_ m' = [] \/
     exists m, emitters w !! e = Some m /\ subscriptions_ m' ⊆ subscriptions_ m.
Proof. intros E e m' Hm'. right. exists m'. rewrite <- E. done. Qed.

Lemma safe_update f i w : keeps_callback f -> safe w (update f i w).
Proof.
  intros Hf. apply safe_shrink; [done|done| |by apply same_emitters].
  intros j h'. by apply update_callback.
Qed.

Lemma safe_subscribers ss w : safe w (set_subscribers ss w).
Proof. apply safe_shrink; [done|done|eauto|by apply same_emitters]. Qed.

Lemma safe_log c w : safe w (log c w).
Proof. apply safe_shrink; [done|done|eauto|by apply same_emitters]. Qed.

Lemma safe_emitter e m m' w :
  emitters w !! e = Some m -> subscriptions_ m' ⊆ subscriptions_ m ->
  (wf w -> wf_subscriptions w (subscriptions_ m')) ->
  safe w (set_emitters (<[e := m']> (emitters w)) w).
Proof.
  intros Hm Hsub Hwf. apply safe_shrink; [|done|eauto|].
  - intros W. apply wf_insert; auto.
  - intros x mx Hx. simpl in Hx. right. destruct (decide (x = e)) as [->|].
    + rewrite lookup_insert_eq in Hx. injection Hx as <-. eauto.
    + rewrite lookup_insert_ne in Hx by done. by exists mx.
Qed.

Lemma safe_handler_subscription_destroy i w : safe w (handler_subscription_destroy i w).
Proof.
  unfold handler_subscription_destroy. destruct (lock w i); [by apply safe_update|apply safe_refl].
Qed.

Lemma safe_settle e m m' w :
  emitters w !! e = Some m -> subscriptions_ m' ⊆ subscriptions_ m ->
  (wf w -> wf_subscriptions w (subscriptions_ m')) -> safe w (settle e m' w).
Proof.
  intros Hm Hsub Hwf. unfold settle. destruct (owned m' || _); [by eapply safe_emitter|].
  eapply (safe_trans _ (set_emitters (delete e (emitters w)) w)).
  - apply safe_shrink; [|done|eauto|].
    + intros W x mx. simpl. rewrite lookup_delete_Some. intros [_ Hx]. exact (W x mx Hx).
    + intros x mx. simpl. rewrite lookup_delete_Some. intros [_ Hx]. right. by exists mx.
  - unfold emitter_destroy. generalize (subscriptions_ m'). intros l.
    generalize (set_emitters (delete e (emitters w)) w). clear.
    induction l as [|i l IH]; intros w; [apply safe_refl|]. simpl.
    eapply safe_trans; [apply safe_handler_subscription_destroy|apply IH].
Qed.

Lemma safe_Reset v w : safe w (Reset v w).
Proof.
  unfold Reset. destruct (_ !! v); [|apply safe_refl].
  eapply safe_trans; [apply safe_subscribers|by apply safe_update].
Qed.

Lemma safe_Subscribe e v cb w :
  (crank cb <= rank e)%nat -> ends w (Subscribe e v cb w).
Proof.
  intros Hr. destruct (Subscribe e v cb w) as [w'| |] eqn:S; [|done|].
  2: { unfold Subscribe, Add in S. by destruct (find_event _ _). }
  unfold Subscribe in S. fold (with_handler cb w) in S. unfold Add in S.
  destruct (find_event _ e) as [m|] eqn:E; [|done]. simpl in S. injection S as S.
  apply find_event_Some in E as [E _]. simpl in E.
  set (w1 := set_emitters _ _) in S.
  assert (safe w1 w') as [S1 I1] by (rewrite <- S; eapply safe_trans;
    [apply safe_Reset|apply safe_subscribers]).
  assert (stable w w1) as S0.
  { split; [simpl; lia|]. intros i h' Hi. simpl. rewrite lookup_insert_ne by lia. eauto. }
  split; [by eapply stable_trans|]. intros [Wf R]. apply I1.
  split; [by apply subscribed_wf|]. clear - Wf R E Hr.
  assert (forall x mx i h', emitters w !! x = Some mx -> i ∈ subscriptions_ mx ->
    handlers (with_handler cb w) !! i = Some h' -> (crank (cb_ h') <= rank x)%nat) as Old.
  { intros x mx i h' Hx Hi. destruct (Wf x mx Hx) as [_ F].
    apply (proj1 (list.Forall_forall _ _) F) in Hi as Hlt. simpl.
    rewrite lookup_insert_ne by lia. by apply (R x mx). }
  intros x mx i h'. simpl. destruct (decide (x = e)) as [->|].
  - rewrite lookup_insert_eq. intros [= <-]. simpl.
    rewrite elem_of_app, list_elem_of_singleton. intros [Hi| ->]; [by apply (Old e m)|].
    rewrite lookup_insert_eq. by intros [= <-].
  - rewrite lookup_insert_ne by done. by apply Old.
Qed.

Lemma safe_move_assign v u w : safe w (move_assign v u w).
Proof.
  unfold move_assign. eapply safe_trans; [apply safe_Reset|].
  destruct (_ !! u); [apply safe_subscribers|apply safe_refl].
Qed.

(** The callbacks of the handlers in [l] have at most the rank [r]. *)
Definition low (r : nat) (l : list nat) w : Prop :=
  forall i h, i ∈ l -> handlers w !! i = Some h -> (i < next w)%nat /\ (crank (cb_ h) <= r)%nat.

Section ending.
Variable run_body : list (command A) -> world A -> result A.
Variable level n : nat.
Hypothesis body_ends : forall r cs w,
  (r < n)%nat -> Forall (ranked r) cs -> inv w -> ends w (run_body cs w).
Hypothesis ranked_callbacks : forall cb a, Forall (ranked (crank cb)) (callback cb a).

Lemma ends_handler_invoke i a h w :
  (crank (cb_ h) < n)%nat -> inv w ->
  ends w (handler_invoke callback run_body level i a h w).
Proof.
  intros Hr Hi. unfold handler_invoke. apply ends_bind.
  - destruct (alive_ h); [|apply safe_refl]. eapply ends_from; [apply safe_log|].
    apply (body_ends (crank (cb_ h))); [done|done|by apply safe_log].
  - intros w' _ _. destruct (handlers w' !! i) as [h'|]; [|done].
    destruct (once_ h'); [by apply safe_update|apply safe_refl].
Qed.

Lemma ends_invoke i a w :
  low (Nat.pred n) [i] w -> (0 < n)%nat -> inv w ->
  ends w (invoke callback run_body level i a w).
Proof.
  intros L Hn Hi. unfold invoke, lock. destruct (handlers w !! i) as [h|] eqn:E; [|apply safe_refl].
  destruct (Nat.eqb _ _); [apply safe_refl|]. destruct (L i h) as [_ Hc]; [apply list_elem_of_here|done|].
  assert (safe w (update retain i w)) as S by by apply safe_update.
  eapply ends_from; [exact S|]. apply ends_bind.
  - destruct (alive_ h); [|apply safe_refl]. apply ends_handler_invoke; [lia|by apply S].
  - intros w' _ _. by apply safe_update.
Qed.

Lemma low_stable r l w w' :
  (forall i, i ∈ l -> (i < next w)%nat) -> stable w w' -> low r l w -> low r l w'.
Proof.
  intros Hl [N S] L i h' Hi Hh. destruct (S i h') as (h & E & C); [auto|done|].
  destruct (L i h Hi E). rewrite <- C. split; [lia|done].
Qed.

Lemma ends_invoke_all l a w :
  (forall i, i ∈ l -> (i < next w)%nat) -> low (Nat.pred n) l w -> (0 < n)%nat -> inv w ->
  ends w (invoke_all moved callback run_body level l a w).
Proof.
  revert a w; induction l as [|i l IH]; intros a w Hl L Hn Hi; [apply safe_refl|]. simpl.
  apply ends_bind.
  - apply ends_invoke; [|done|done]. intros j h ->%list_elem_of_singleton. apply L, list_elem_of_here.
  - intros w' _ [S I]. apply IH; [|eapply low_stable; [|exact S|]|done|by apply I].
    + intros j Hj. destruct S as [N _]. assert (j < next w)%nat by (by apply Hl, list_elem_of_further). lia.
    + intros j Hj. by apply Hl, list_elem_of_further.
    + intros j h Hj. by apply L, list_elem_of_further.
Qed.

Lemma ends_Emit e a w :
  (rank e < n)%nat -> inv w -> ends w (Emit moved callback run_body level e a w).
Proof.
  intros Hr Hinv. unfold Emit. destruct (find_event w e) as [m|] eqn:E; [|done].
  apply find_event_Some in E as [E _]. destruct Hinv as [Wf R].
  set (w1 := set_emitters _ w).
  assert (safe w w1) as S1 by (eapply safe_emitter; [exact E|done|]; intros; exact (Wf e m E)).
  eapply ends_from; [exact S1|].
  destruct (Wf e m E) as [_ F]. apply ends_bind.
  - apply ends_invoke_all; [| |lia|by apply S1].
    + intros i Hi. by apply (proj1 (list.Forall_forall _ _) F) in Hi.
    + intros i h Hi Hh. apply (proj1 (list.Forall_forall _ _) F) in Hi as Hlt.
      split; [done|]. apply (R e m i h E Hi) in Hh. lia.
  - intros w2 _ _. unfold cleanup. destruct (emitters w2 !! e) as [m2|] eqn:E2; [|done].
    eapply safe_settle; [exact E2| |]; simpl.
    + intros i Hi. apply list_elem_of_In, filter_In in Hi as [Hi _]. by apply list_elem_of_In.
    + intros W2. apply wf_filter. exact (W2 e m2 E2).
Qed.

Lemma ends_run_command c w :
  ranked n c -> inv w -> ends w (run_command moved callback run_body level c w).
Proof.
  intros Hr Hi. destruct c; simpl.
  - unfold new_event. destruct (emitters w !! e) eqn:E; [done|].
    apply safe_shrink; [|done|eauto|].
    + intros W. apply wf_insert; [done|]. split; constructor.
    + intros x mx. simpl. destruct (decide (x = e)) as [->|].
      * rewrite lookup_insert_eq. intros [= <-]. by left.
      * rewrite lookup_insert_ne by done. intros Hx. right. by exists mx.
  - unfold destroy_event. destruct (find_event w e) as [m|] eqn:E; [|done].
    apply find_event_Some in E as [E _].
    eapply safe_settle; [exact E|done|]. intros W. exact (W e m E).
  - by apply ends_Emit.
  - by apply safe_Subscribe.
  - unfold Once. destruct (_ !! v); [|done]. by apply safe_update.
  - apply safe_Reset.
  - apply safe_move_assign.
Qed.

Lemma ends_run_commands cs w :
  Forall (ranked n) cs -> inv w -> ends w (run_commands moved callback run_body level cs w).
Proof.
  intros F; revert w; induction F as [|c cs Hc _ IH]; intros w Hi; [apply safe_refl|]. simpl.
  apply ends_bind; [by apply ends_run_command|]. intros w' _ S. by apply IH, S.
Qed.

End ending.

Lemma ranked_weaken r s c : (r <= s)%nat -> ranked r c -> ranked s c.
Proof. destruct c; simpl; auto; lia. Qed.

Lemma run_ends fuel level r cs w :
  (forall cb a, Forall (ranked (crank cb)) (callback cb a)) ->
  (r < fuel)%nat -> Forall (ranked r) cs -> inv w ->
  ends w (run moved callback fuel level cs w).
Proof.
  intros Hcb. revert level r cs w; induction fuel as [|n IH]; intros level r cs w Hr F Hi; [lia|].
  simpl. apply (ends_run_commands _ _ n); [|done| |done].
  - intros r' cs' w' Hr' F' Hi'. by eapply IH.
  - eapply Forall_impl; [exact F|]. intros c. apply ranked_weaken. lia.
Qed.

End rank.

(** *** More fuel gives the same result *)
Definition refines (r r' : result A) : Prop := r = OutOfFuel \/ r' = r.

Lemma refines_refl r : refines r r.
Proof. by right. Qed.

Lemma refines_bind r r' k k' :
  refines r r' -> (forall w, refines (k w) (k' w)) -> refines (bind r k) (bind r' k').
Proof.
  intros [-> | ->] H; [by left|]. destruct r; simpl; [apply H|apply refines_refl|by left].
Qed.

Section fuel.
Variable body body' : list (command A) -> world A -> result A.
Variable level : nat.
Hypothesis body_refines : forall cs w, refines (body cs w) (body' cs w).

Lemma invoke_refines i a w :
  refines (invoke callback body level i a w) (invoke callback body' level i a w).
Proof.
  unfold invoke. destruct (lock w i) as [h|]; [|apply refines_refl].
  apply refines_bind; [|intros; apply refines_refl].
  destruct (alive_ h) eqn:Ha; [|apply refines_refl]. unfold handler_invoke. rewrite Ha.
  apply refines_bind; [apply body_refines|intros; apply refines_refl].
Qed.

Lemma invoke_all_refines l a w :
  refines (invoke_all moved callback body level l a w)
          (invoke_all moved callback body' level l a w).
Proof.
  revert a w; induction l as [|i l IH]; intros a w; [apply refines_refl|].
  apply refines_bind; [apply invoke_refines|intros; apply IH].
Qed.

Lemma run_commands_refines cs w :
  refines (run_commands moved callback body level cs w)
          (run_commands moved callback body' level cs w).
Proof.
  revert w; induction cs as [|c cs IH]; intros w; [apply refines_refl|].
  apply refines_bind; [|intros; apply IH]. destruct c; try apply refines_refl. simpl.
  unfold Emit. destruct (find_event w e); [|apply refines_refl].
  apply refines_bind; [apply invoke_all_refines|intros; apply refines_refl].
Qed.

End fuel.

Lemma run_refines n k level cs w :
  refines (run moved callback n level cs w) (run moved callback (n + k) level cs w).
Proof.
  revert level cs w; induction n as [|n IH]; intros level cs w; [by left|].
  apply run_commands_refines. apply IH.
Qed.

End ext.

(** C20: an emission calls the handlers in the order of their subscriptions,
    each at most once, and none that was subscribed during the emission,
    whatever the callbacks do (emit again, subscribe, unsubscribe, destroy the
    event); every handler that is still alive at the end was called.  The
    argument is forwarded to each of them, so the handler number [k] receives
    what is left of the argument after it was moved from [k] times. *)
Theorem emit_calls_in_order {A} (moved : A -> A) callback setup fuel0 fuel d e a
    (w w' : world A) m :
  run moved callback fuel0 0 setup empty_world = Ran w ->
  run moved callback fuel d [CEmit e a] w = Ran w' ->
  emitters w !! e = Some m ->
  exists l, trace w' = trace w ++ l /\
    sublist (map callee (own d l)) (subscriptions_ m) /\
    NoDup (map callee (own d l)) /\
    (forall i, i ∈ subscriptions_ m -> is_alive w' i = true -> i ∈ map callee (own d l)) /\
    map arg (own d l) = forwarded moved a (length (own d l)).
Proof.
  intros W%run_wf H Hm. destruct fuel as [|n]; [done|]. simpl in H.
  destruct (Emit _ _ _ _ _ _ _) as [w3| |] eqn:E; [|done|done]. injection H as ->.
  apply Emit_inv in E as (m1 & w1 & w2 & m2 & E & -> & I & X & _ & _ & _ & ->);
    [|by intros; eapply run_ext].
  rewrite Hm in E; injection E as <-. destruct (W e m Hm) as [N F].
  apply invoke_all_spec in I as [_ (l & T & S & G & C)]; [|by intros; eapply run_ext].
  exists l. split; [by rewrite trace_settle, T|]. split; [done|].
  split; [by eapply sublist_NoDup|]. split; [|done].
  intros i Hi Hal. apply (proj1 (list.Forall_forall _ _) F) in Hi as Hlt.
  apply C; [done|done|]. apply (settle_but e d) in Hal; [done|].
  destruct X as [[Hn _] _]. simpl in Hn. lia.
Qed.

Module Witness.

(** Two handlers of event 0; the first one unsubscribes the second when the
    argument is 1, emits again with 0 when it is 2, and subscribes a third one
    when it is 3. *)
Definition cbs (cb a : nat) : list (command nat) :=
  match cb, a with
  | 0, 1 => [CReset 1]
  | 0, 2 => [CEmit 0 0]
  | 0, 3 => [CSubscribe 0 2 1]
  | _, _ => []
  end%nat.

Definition setup : list (command nat) := [CNew 0; CSubscribe 0 0 0; CSubscribe 0 1 1].

Definition emptied (a : nat) : nat := 0.

Definition ran {A} (r : result A) : world A :=
  match r with Ran w => w | _ => empty_world end.

Definition ready : world nat := ran (run emptied cbs 3 0 setup empty_world).

(** The calls and the subscriptions left after the emission of [a]. *)
Definition shot (a : nat) : list (nat * nat * nat) * option (list nat) :=
  let w := ran (run emptied cbs 5 0 [CEmit 0 a] ready) in
  (map (fun c => (depth c, callee c, arg c)) (trace w), subscriptions_ <$> (emitters w !! 0))%nat.

Example shots :
  map shot [0; 1; 2; 3]%nat =
  [([(0, 0, 0); (0, 1, 0)], Some [0; 1]);
   ([(0, 0, 1)], Some [0]);
   ([(0, 0, 2); (1, 0, 0); (1, 1, 0); (0, 1, 0)], Some [0; 1]);
   ([(0, 0, 3); (0, 1, 0)], Some [0; 1; 2])]%nat.
Proof. vm_compute. reflexivity. Qed.

End Witness.

Lemma emit_calls_in_order_witness :
  exists l, trace (Witness.ran (run Witness.emptied Witness.cbs 5 0 [CEmit 0 2]%nat Witness.ready))
    = trace Witness.ready ++ l /\
    sublist (map callee (own 0 l)) [0; 1]%nat /\ NoDup (map callee (own 0 l)) /\
    (forall i, i ∈ [0; 1]%nat ->
       is_alive (Witness.ran (run Witness.emptied Witness.cbs 5 0 [CEmit 0 2]%nat Witness.ready)) i
         = true -> i ∈ map callee (own 0 l)) /\
    map arg (own 0 l) = forwarded Witness.emptied 2%nat (length (own 0 l)).
Proof.
  apply (emit_calls_in_order Witness.emptied Witness.cbs Witness.setup 3 5 0 0 2
    Witness.ready _ {| subscriptions_ := [0; 1]%nat; owned := true; emitting := 0 |});
  vm_compute; reflexivity.
Defined.

(** After an emission the event holds, in order, the subscriptions it had
    that are still alive, followed by the live ones made during the emission:
    no dead subscription is left and no live one is lost. *)
Theorem emit_drops_the_dead {A} (moved : A -> A) callback setup fuel0 fuel d e a
    (w w' : world A) m m' :
  run moved callback fuel0 0 setup empty_world = Ran w ->
  run moved callback fuel d [CEmit e a] w = Ran w' ->
  emitters w !! e = Some m -> emitters w' !! e = Some m' ->
  exists added,
    subscriptions_ m' = List.filter (is_alive w') (subscriptions_ m) ++ added /\
    Forall (fun i => (next w <= i)%nat /\ is_alive w' i = true) added.
Proof.
  intros W%run_wf H Hm Hm'. destruct fuel as [|n]; [done|]. simpl in H.
  destruct (Emit _ _ _ _ _ _ _) as [w3| |] eqn:E; [|done|done]. injection H as ->.
  apply Emit_inv in E as (m1 & w1 & w2 & m2 & E & -> & I & X & E2 & N2 & G & ->);
    [|by intros; eapply run_ext].
  rewrite Hm in E; injection E as <-. destruct (W e m Hm) as [_ F].
  apply settle_left in Hm' as [-> Hh]. simpl.
  rewrite (is_alive_handlers _ w2 Hh).
  destruct G as (p & added & -> & Hp & Ha). exists (List.filter (is_alive w2) added).
  split; [by apply (filter_survivors w w2)|].
  apply list.Forall_forall. intros i Hi. apply list_elem_of_In, filter_In in Hi as [Hi Hal].
  split; [|exact Hal]. apply list_elem_of_In in Hi.
  by apply (proj1 (list.Forall_forall _ _) Ha) in Hi.
Qed.

Lemma emit_drops_the_dead_witness :
  exists added,
    [0; 1; 2]%nat = List.filter
      (is_alive (Witness.ran (run Witness.emptied Witness.cbs 5 0 [CEmit 0 3]%nat Witness.ready)))
      [0; 1]%nat ++ added /\
    Forall (fun i => (next Witness.ready <= i)%nat /\
      is_alive (Witness.ran (run Witness.emptied Witness.cbs 5 0 [CEmit 0 3]%nat Witness.ready)) i
        = true) added.
Proof.
  apply (emit_drops_the_dead Witness.emptied Witness.cbs Witness.setup 3 5 0 0 3
    Witness.ready _ {| subscriptions_ := [0; 1]%nat; owned := true; emitting := 0 |}
    {| subscriptions_ := [0; 1; 2]%nat; owned := true; emitting := 0 |});
  vm_compute; reflexivity.
Defined.

(** C37: when the callbacks are stratified (a callback emits only events of a
    smaller rank than its own and is subscribed only to events of at least its
    rank), a program that emits events of rank below [r] ends: its emissions
    nest at most [r] deep, and every larger bound gives the same result. *)
Theorem stratified_emissions_end {A} (moved : A -> A) callback rank crank r cs :
  (forall cb a, Forall (ranked rank crank (crank cb)) (callback cb a)) ->
  Forall (ranked rank crank r) cs ->
  exists res, res <> OutOfFuel /\
    forall fuel, (r < fuel)%nat -> run moved callback fuel 0 cs empty_world = res.
Proof.
  intros Hcb F. exists (run moved callback (S r) 0 cs empty_world).
  assert (run moved callback (S r) 0 cs empty_world <> OutOfFuel) as N.
  { assert (ends rank crank empty_world (run moved callback (S r) 0 cs empty_world)) as E.
    - apply (run_ends moved callback rank crank (S r) 0 r); [done|lia|done|]. by split; intros ? ?.
    - intros Z. by rewrite Z in E. }
  split; [done|]. intros fuel Hf. replace fuel with (S r + (fuel - S r))%nat by lia.
  by destruct (run_refines moved callback (S r) (fuel - S r) 0 cs empty_world).
Qed.

Lemma stratified_emissions_end_witness :
  exists res, res <> OutOfFuel /\
    forall fuel, (2 < fuel)%nat ->
      run id (fun cb a => if Nat.eqb cb 1 then [CEmit 0 a]%nat else []) fuel 0
        [CNew 0; CNew 1; CSubscribe 0 0 0; CSubscribe 1 1 1; CEmit 1 7]%nat empty_world = res.
Proof.
  apply (stratified_emissions_end id
    (fun cb a => if Nat.eqb cb 1 then [CEmit 0 a]%nat else []) (fun e => e) (fun cb => cb)).
  - intros cb a. destruct (Nat.eqb_spec cb 1) as [->|]; repeat constructor.
  - repeat constructor.
Defined.

(** A handler marked [Once] is called again when its callback emits the
    event: it is marked dead only after the callback returns.  Here the callback
    emits once more, and the handler is called twice. *)
Theorem once_handler_called_twice :
  exists w, run (fun a => a) (fun _ a => match a with O => [] | S b => [CEmit 0 b] end) 4 0
              [CNew 0; CSubscribe 0 0 0; COnce 0; CEmit 0 1]%nat empty_world = Ran w /\
    map callee (trace w) = [0; 0]%nat /\
    subscriptions_ <$> (emitters w !! 0%nat) = Some [].
Proof. eexists. vm_compute. repeat split; reflexivity. Qed.

(** *** MultiSubscription drops only handles of dead handlers *)

Lemma handle_destroy_dead {A} s (w : world A) :
  handle_bool w s = false ->
  (forall i, is_alive (handle_destroy s w) i = is_alive w i) /\
  (forall u, handle_bool (handle_destroy s w) u = handle_bool w u).
Proof.
  destruct s as [j|]; [|done]. simpl. intros H. split.
  - intros i. unfold is_alive, lock, update; simpl. destruct (decide (i = j)) as [->|].
    + rewrite lookup_alter_eq. destruct (handlers w !! j) as [h|]; [|done]. simpl.
      destruct (Nat.eqb (Nat.pred (strong h)) 0), (Nat.eqb (strong h) 0); simpl; congruence.
    + by rewrite lookup_alter_ne.
  - intros [i|]; [|done]. simpl. unfold update; simpl. destruct (decide (i = j)) as [->|].
    + rewrite lookup_alter_eq. by destruct (handlers w !! j).
    + by rewrite lookup_alter_ne.
Qed.

(** [Push] keeps every live subscription, drops the dead ones and changes
    nothing for the handlers that can still be called. *)
Lemma multi_push_alive {A} l m (w : world A) i :
  is_alive (snd (multi_push l m w)) i = is_alive w i.
Proof.
  unfold multi_push, multi_cleanup, handles_destroy. simpl.
  assert (Forall (fun s => handle_bool w s = false)
    (List.filter (fun s => negb (handle_bool w s)) m)) as F.
  { apply list.Forall_forall. intros s Hs. apply list_elem_of_In, filter_In in Hs as [_ Hs].
    by apply negb_true_iff. }
  revert F. generalize (List.filter (fun s => negb (handle_bool w s)) m). intros k. revert w.
  induction k as [|s k IH]; intros w F; [done|]. simpl. apply Forall_cons in F as [Hs F].
  destruct (handle_destroy_dead s w Hs) as [H1 H2]. rewrite IH, H1; [done|].
  eapply Forall_impl; [exact F|]. intros u. by rewrite H2.
Qed.

End EventProperties.

Module BarrierProperties.
Import Barrier.

Section collect.
Context {T : Type}.

(** The barrier after the values [ts], with [n] still missing. *)
Definition partial (d : T) (ts : list T) (n : nat) : BarrierEvent T :=
  {| current_index_ := length ts;
     set_map_ := replicate (length ts) true ++ replicate n false;
     values_ := ts ++ replicate n d |}.

Lemma insert_length {X} (l k : list X) x y :
  <[length l := x]> (l ++ y :: k) = l ++ x :: k.
Proof. rewrite insert_app_r_alt by lia. by rewrite Nat.sub_diag. Qed.

Lemma forallb_replicate n : forallb id (replicate n false) = Nat.eqb n 0.
Proof. by destruct n. Qed.

Lemma forallb_replicate_true n : forallb id (replicate n true) = true.
Proof. by induction n. Qed.

Lemma EmitNext_partial d ts n t :
  EmitNext t (partial d ts (S n)) =
  Defined (partial d (ts ++ [t]) n, if Nat.eqb n 0 then Some (ts ++ [t]) else None).
Proof.
  unfold EmitNext. cbn [current_index_ set_map_ values_ partial].
  rewrite length_app, !length_replicate.
  destruct (Nat.ltb_spec (length ts) (length ts + S n)); [|lia].
  cbn [replicate]. rewrite insert_length.
  pose proof (insert_length (replicate (length ts) true) (replicate n false) true false) as E.
  rewrite length_replicate in E. rewrite E.
  assert ({| current_index_ := S (length ts);
             set_map_ := replicate (length ts) true ++ true :: replicate n false;
             values_ := ts ++ t :: replicate n d |} = partial d (ts ++ [t]) n) as ->.
  { unfold partial. rewrite length_app, replicate_add, Nat.add_1_r, <- !app_assoc. done. }
  unfold emission, IsFull, partial. cbn [set_map_ values_].
  rewrite forallb_app, forallb_replicate_true, forallb_replicate. simpl.
  destruct n; simpl; [by rewrite (app_nil_r (ts ++ [t]))|done].
Qed.

Lemma emit_next_all_partial d us ts :
  us <> [] ->
  emit_next_all us (partial d ts (length us)) =
  Defined (partial d (ts ++ us) 0,
           replicate (length us - 1) None ++ [Some (ts ++ us)]).
Proof.
  revert ts; induction us as [|u us IH]; intros ts Hn; [done|].
  cbn [emit_next_all length]. rewrite EmitNext_partial.
  destruct us as [|v us]; [done|]. rewrite IH by done.
  rewrite <- app_assoc. simpl. by rewrite Nat.sub_0_r.
Qed.

End collect.

(** A barrier of [Count] slots filled by [EmitNext] emits its result event
    once, with the last value, and gives all values in their order; a further
    [EmitNext] fails the assertion on the index. *)
Theorem barrier_collects {T} (d : T) ts t :
  ts <> [] ->
  exists b,
    emit_next_all ts (barrier d (length ts)) =
      Defined (b, replicate (length ts - 1) None ++ [Some ts]) /\
    EmitNext t b = Undefined.
Proof.
  intros Hn. exists (partial d ts 0). split.
  - apply (emit_next_all_partial d ts [] Hn).
  - unfold EmitNext, partial. simpl. rewrite app_nil_r, length_replicate.
    by rewrite Nat.ltb_irrefl.
Qed.

Lemma barrier_collects_witness :
  exists b,
    emit_next_all [7; 8; 9] (barrier 0 3) = Defined (b, [None; None; Some [7; 8; 9]]) /\
    EmitNext 1 b = Undefined.
Proof. apply (barrier_collects 0 [7; 8; 9] 1). done. Defined.

End BarrierProperties.
