(* ===== verification/BufferGate.v ===== *)
(** * Buffering of writes ([aether/stream_api/buffer_gate.*])

    [StreamInfo] ([istream.h]), the states of write actions and the failed
    write ([stream_write_action.*]), and [BufferGate] with its buffered write
    actions.

    The gate behind is a parameter of the operations: what its [stream_info]
    answers is an argument of [UpdateGate], what is written to it is an effect.
    The code that reacts to [gate_update_event_] is outside: an operation
    returns the events it emits, and what they lead to are further operations.
    A null dereference is [Undefined]. *)

From S2P Require Import Prelude StateMachine.

(** ** StreamInfo *)

Record StreamInfo := {
  max_element_size : Z;
  is_linked : bool;
  is_writeble : bool;
  is_soft_writable : bool;
}.

(** [StreamInfo{}] *)
Definition no_info : StreamInfo :=
  {| max_element_size := 0; is_linked := false; is_writeble := false; is_soft_writable := false |}.

Definition info_eqb (left right : StreamInfo) : bool :=
  (max_element_size left =? max_element_size right)
  && eqb (is_linked left) (is_linked right)
  && eqb (is_soft_writable left) (is_soft_writable right)
  && eqb (is_writeble left) (is_writeble right).

(** ** Write actions *)

Module StreamWrite.

Inductive State := kQueued | kInProgress | kDone | kTimeout | kStopped | kFailed | kPanic.

#[export] Instance State_eq_dec : EqDecision State.
Proof. solve_decision. Defined.

(** How an action ends: the event it emits before it is finished. *)
Inductive ending := Result | Error | Stop.

(** The constructor of [FailedStreamWriteAction] and its [Update]. *)
Definition failed_action : StateMachine State := SM.set kFailed (SM.make kQueued).

Definition failed_update (s : StateMachine State) : StateMachine State * option ending :=
  if changed_ s
  then match SM.Acquire s with
       | (kFailed, s') => (s', Some Error)
       | (_, s') => (s', None)
       end
  else (s, None).

End StreamWrite.

Module Gate.
Import StreamWrite.

(** ** State *)

(** [BufferedWriteAction]; [node] identifies its node of the list, and
    [write_action_] tells that the action of the gate behind is set. *)
Record BufferedWriteAction := {
  node : nat;
  data_ : bytes;
  data_size_ : Z;
  current_time_ : TimePoint;
  is_sent_ : bool;
  write_action_ : bool;
  state_ : StateMachine State;
}.

Record BufferGate := {
  out_ : bool;
  buffer_max_ : Z;
  stream_info_ : StreamInfo;
  last_out_stream_info_ : StreamInfo;
  write_in_buffer_ : list BufferedWriteAction;
  next_node : nat;
}.

Inductive effect :=
  | OutWrite (data : bytes) (current_time : TimePoint)
  | GateUpdate
  | OutStop (n : nat)
  | Trigger
  | Ended (n : nat) (e : ending).

(** What [Write] returns. *)
Inductive write_view := FailedWrite | BufferedWrite (n : nat) | DirectWrite.

Definition with_buffer (l : list BufferedWriteAction) (g : BufferGate) : BufferGate :=
  {| out_ := out_ g; buffer_max_ := buffer_max_ g; stream_info_ := stream_info_ g;
     last_out_stream_info_ := last_out_stream_info_ g; write_in_buffer_ := l;
     next_node := next_node g |}.

Definition with_info (i : StreamInfo) (g : BufferGate) : BufferGate :=
  {| out_ := out_ g; buffer_max_ := buffer_max_ g; stream_info_ := i;
     last_out_stream_info_ := last_out_stream_info_ g; write_in_buffer_ := write_in_buffer_ g;
     next_node := next_node g |}.

(** The constructor. *)
Definition buffer_gate (buffer_max : Z) : BufferGate :=
  {| out_ := false; buffer_max_ := buffer_max;
     stream_info_ := {| max_element_size := 0; is_linked := false; is_writeble := false;
                        is_soft_writable := true |};
     last_out_stream_info_ := no_info; write_in_buffer_ := []; next_node := 0 |}.

(** ** Buffered write actions *)

Definition buffered (n : nat) (data : bytes) (current_time : TimePoint) : BufferedWriteAction :=
  {| node := n; data_ := data; data_size_ := zlen data; current_time_ := current_time;
     is_sent_ := false; write_action_ := false; state_ := SM.set kQueued (SM.make kQueued) |}.

Definition set_state (s : StateMachine State) (a : BufferedWriteAction) : BufferedWriteAction :=
  {| node := node a; data_ := data_ a; data_size_ := data_size_ a;
     current_time_ := current_time_ a; is_sent_ := is_sent_ a;
     write_action_ := write_action_ a; state_ := s |}.

(** [BufferedWriteAction::Send]: the data is moved to the gate behind. *)
Definition Send (a : BufferedWriteAction) : BufferedWriteAction * list effect :=
  ({| node := node a; data_ := []; data_size_ := data_size_ a;
      current_time_ := current_time_ a; is_sent_ := true; write_action_ := true;
      state_ := state_ a |},
   [OutWrite (data_ a) (current_time_ a)]).

(** [BufferedWriteAction::Stop] *)
Definition action_stop (a : BufferedWriteAction) : BufferedWriteAction * list effect :=
  if write_action_ a then (a, [OutStop (node a); Trigger])
  else (set_state (SM.set kStopped (state_ a)) a, [Trigger]).

(** [BufferedWriteAction::Update], with the event it ends the action by. *)
Definition action_update (a : BufferedWriteAction) : BufferedWriteAction * option ending :=
  if changed_ (state_ a)
  then match SM.Acquire (state_ a) with
       | (kStopped, s) => (set_state s a, Some Stop)
       | (_, s) => (set_state s a, None)
       end
  else (a, None).

(** ** The gate *)

Definition SetSoftWriteable (value : bool) (g : BufferGate) : BufferGate * list effect :=
  if eqb (is_soft_writable (stream_info_ g)) value then (g, [])
  else (with_info {| max_element_size := max_element_size (stream_info_ g);
                     is_linked := is_linked (stream_info_ g);
                     is_writeble := is_writeble (stream_info_ g);
                     is_soft_writable := value |} g, [GateUpdate]).

Fixpoint drain (writeble : bool) (l : list BufferedWriteAction)
  : list BufferedWriteAction * list effect :=
  match l with
  | [] => ([], [])
  | a :: l' =>
      if negb writeble then (l, [])
      else if is_sent_ a
      then let '(r, es) := drain writeble l' in (a :: r, es)
      else let '(a', es) := Send a in
           let '(r, es') := drain writeble l' in (a' :: r, es ++ es')
  end.

Definition DrainBuffer (g : BufferGate) : BufferGate * list effect :=
  let '(l, es) := drain (is_writeble (last_out_stream_info_ g)) (write_in_buffer_ g) in
  (with_buffer l g, es).

(** [BufferGate::Write] *)
Definition Write (data : bytes) (current_time : TimePoint) (g : BufferGate)
  : outcome (BufferGate * list effect * write_view) :=
  let add_to_buffer := negb (is_writeble (last_out_stream_info_ g))
                       || negb (is_linked (last_out_stream_info_ g)) in
  if add_to_buffer || negb (zlen (write_in_buffer_ g) =? 0)
  then
    if negb (is_soft_writable (stream_info_ g)) then Defined (g, [], FailedWrite)
    else
      let n := next_node g in
      let g := {| out_ := out_ g; buffer_max_ := buffer_max_ g; stream_info_ := stream_info_ g;
                  last_out_stream_info_ := last_out_stream_info_ g;
                  write_in_buffer_ := write_in_buffer_ g ++ [buffered n data current_time];
                  next_node := S n |} in
      let '(g, es) := if zlen (write_in_buffer_ g) =? buffer_max_ g
                      then SetSoftWriteable false g else (g, []) in
      Defined (g, es, BufferedWrite n)
  else if out_ g then Defined (g, [OutWrite data current_time], DirectWrite)
  else Undefined.

Definition LinkOut (g : BufferGate) : BufferGate * list effect :=
  ({| out_ := true; buffer_max_ := buffer_max_ g; stream_info_ := stream_info_ g;
      last_out_stream_info_ := last_out_stream_info_ g; write_in_buffer_ := write_in_buffer_ g;
      next_node := next_node g |}, [GateUpdate]).

(** [BufferGate::UpdateGate]; [out_info] is [out_->stream_info()]. *)
Definition UpdateGate (out_info : StreamInfo) (g : BufferGate)
  : outcome (BufferGate * list effect) :=
  if out_ g
  then
    let '(g, es) :=
      if negb (info_eqb (last_out_stream_info_ g) out_info)
      then ({| out_ := out_ g; buffer_max_ := buffer_max_ g;
               stream_info_ := {| max_element_size := max_element_size out_info;
                                  is_linked := is_linked out_info;
                                  is_writeble := is_writeble out_info;
                                  is_soft_writable := is_soft_writable (stream_info_ g) |};
               last_out_stream_info_ := out_info; write_in_buffer_ := write_in_buffer_ g;
               next_node := next_node g |}, [GateUpdate])
      else (g, []) in
    if is_linked (stream_info_ g)
    then let '(g, es') := DrainBuffer g in Defined (g, es ++ es')
    else Defined (g, es)
  else Undefined.

(** [remove_action] of [Write], run by the finished event of the node [n]. *)
Definition remove_action (n : nat) (g : BufferGate) : outcome (BufferGate * list effect) :=
  let g := with_buffer (List.filter (fun a => negb (Nat.eqb (node a) n)) (write_in_buffer_ g)) g in
  let '(g, es) := SetSoftWriteable true g in
  if out_ g
  then let '(g, es') := DrainBuffer g in Defined (g, es ++ es')
  else Undefined.

(** ** What happens to a buffered action *)

Definition find_action (n : nat) (g : BufferGate) : option BufferedWriteAction :=
  List.find (fun a => Nat.eqb (node a) n) (write_in_buffer_ g).

Definition put_action (a : BufferedWriteAction) (g : BufferGate) : BufferGate :=
  with_buffer (map (fun b => if Nat.eqb (node b) (node a) then a else b) (write_in_buffer_ g)) g.

Inductive operation :=
  | OpWrite (data : bytes) (current_time : TimePoint)
  | OpLinkOut
  | OpUpdateGate (out_info : StreamInfo)
  | OpStop (n : nat)                       (* the user stops the write [n] *)
  | OpUpdate (n : nat)                     (* the processor updates the write [n] *)
  | OpState (n : nat) (s : State)          (* the state of its write_action_ changes *)
  | OpEnd (n : nat) (e : ending).          (* its write_action_ ends *)

(** The end of the action [n]: its event, the trigger of [Finish], then
    [remove_action]. *)
Definition finish (n : nat) (e : ending) (g : BufferGate) : outcome (BufferGate * list effect) :=
  let* (g, es) := remove_action n g in Defined (g, Ended n e :: Trigger :: es).

(** Events of a [write_action_] are possible only once the write was sent. *)
Definition exec (op : operation) (g : BufferGate) : outcome (BufferGate * list effect) :=
  match op with
  | OpWrite data t => let* (g, es, _) := Write data t g in Defined (g, es)
  | OpLinkOut => Defined (LinkOut g)
  | OpUpdateGate i => UpdateGate i g
  | OpStop n =>
      match find_action n g with
      | Some a => let '(a, es) := action_stop a in Defined (put_action a g, es)
      | None => Defined (g, [])
      end
  | OpUpdate n =>
      match find_action n g with
      | Some a =>
          let '(a, e) := action_update a in
          match e with
          | Some e => finish n e (put_action a g)
          | None => Defined (put_action a g, [])
          end
      | None => Defined (g, [])
      end
  | OpState n s =>
      match find_action n g with
      | Some a => Defined (if is_sent_ a then put_action (set_state (SM.set s (state_ a)) a) g else g, [])
      | None => Defined (g, [])
      end
  | OpEnd n e =>
      match find_action n g with
      | Some a =>
          if is_sent_ a then finish n e (put_action (set_state (SM.Acquire (state_ a)).2 a) g)
          else Defined (g, [])
      | None => Defined (g, [])
      end
  end.

End Gate.

Module BufferGateProperties.
Import StreamWrite Gate.

(** ** Histories *)

(** The gate, the writes it accepted and the writes it passed on. *)
Record history := {
  gate : BufferGate;
  accepted : list (bytes * TimePoint);
  written : list (bytes * TimePoint);
}.

Definition out_write (e : effect) : list (bytes * TimePoint) :=
  match e with OutWrite data t => [(data, t)] | _ => [] end.

Definition out_writes (es : list effect) : list (bytes * TimePoint) := es ≫= out_write.

Definition accepts (op : operation) (g : BufferGate) : list (bytes * TimePoint) :=
  match op with
  | OpWrite data t =>
      match Write data t g with
      | Defined (_, _, FailedWrite) | Undefined => []
      | Defined _ => [(data, t)]
      end
  | _ => []
  end.

Fixpoint run (ops : list operation) (h : history) : outcome history :=
  match ops with
  | [] => Defined h
  | op :: ops =>
      let* (g, es) := exec op (gate h) in
      run ops {| gate := g; accepted := accepted h ++ accepts op (gate h);
                 written := written h ++ out_writes es |}
  end.

Definition start (buffer_max : Z) : history :=
  {| gate := buffer_gate buffer_max; accepted := []; written := [] |}.

(** The writes still waiting in the buffer. *)
Definition waiting (l : list BufferedWriteAction) : list (bytes * TimePoint) :=
  l ≫= fun a => if is_sent_ a then [] else [(data_ a, current_time_ a)].

(** ** Invariant *)

Record gate_core (g : BufferGate) : Prop := {
  ok_nodes : NoDup (map node (write_in_buffer_ g));
  ok_next : Forall (fun a => (node a < next_node g)%nat) (write_in_buffer_ g);
  ok_sent : Forall (fun a => is_sent_ a = write_action_ a) (write_in_buffer_ g);
  ok_linked : is_linked (stream_info_ g) = is_linked (last_out_stream_info_ g);
  ok_out : is_linked (last_out_stream_info_ g) = true -> out_ g = true;
  ok_size : 0 < buffer_max_ g ->
    zlen (write_in_buffer_ g) <= buffer_max_ g /\
    is_soft_writable (stream_info_ g) = negb (zlen (write_in_buffer_ g) =? buffer_max_ g);
}.

(** No write waits for nothing: while the gate behind can be written to, one of
    the buffered writes is under way, and its end drains the buffer. *)
Record gate_ok (g : BufferGate) : Prop := {
  ok_core : gate_core g;
  ok_active : is_linked (last_out_stream_info_ g) = true ->
    is_writeble (last_out_stream_info_ g) = true ->
    waiting (write_in_buffer_ g) <> [] ->
    Exists (fun a => is_sent_ a = true) (write_in_buffer_ g);
}.

(** What an operation does to the writes. *)
Definition passes (g g' : BufferGate) (op : operation) (es : list effect) : Prop :=
  sublist (out_writes es ++ waiting (write_in_buffer_ g'))
          (waiting (write_in_buffer_ g) ++ accepts op g).

(** No waiting write was stopped. *)
Definition unstopped (g : BufferGate) : Prop :=
  Forall (fun a => is_sent_ a = false -> StateMachine.state_ (state_ a) <> kStopped)
    (write_in_buffer_ g).

(** *** Lemmas on the list of the actions *)

Lemma out_writes_app a b : out_writes (a ++ b) = out_writes a ++ out_writes b.
Proof. apply bind_app. Qed.

Lemma waiting_app a b : waiting (a ++ b) = waiting a ++ waiting b.
Proof. apply bind_app. Qed.

Definition drained (a : BufferedWriteAction) : BufferedWriteAction :=
  if is_sent_ a then a else (Send a).1.

Lemma drain_true l :
  (drain true l).1 = map drained l /\ out_writes (drain true l).2 = waiting l.
Proof.
  induction l as [|a l [IH1 IH2]]; [done|]. simpl. unfold drained at 1.
  destruct (drain true l) as [r es]; simpl in *. unfold waiting in *; simpl.
  destruct (is_sent_ a); simpl; split; by rewrite ?IH1, ?IH2.
Qed.

Lemma drain_false l : drain false l = (l, []).
Proof. by destruct l. Qed.

Lemma drained_sent a : is_sent_ (drained a) = true.
Proof. unfold drained. by destruct (is_sent_ a) eqn:E. Qed.

Lemma waiting_drained l : waiting (map drained l) = [].
Proof. induction l as [|a l IH]; [done|]. unfold waiting in *; simpl. by rewrite drained_sent. Qed.

Lemma node_drained a : node (drained a) = node a.
Proof. unfold drained. by destruct (is_sent_ a). Qed.

Lemma waiting_filter p l : sublist (waiting (List.filter p l)) (waiting l).
Proof.
  induction l as [|a l IH]; [done|]. simpl. destruct (p a); unfold waiting in *; simpl.
  - by apply sublist_app.
  - by apply sublist_inserts_l.
Qed.

(** *** Operations of the gate *)

Lemma SetSoftWriteable_spec b g g' es :
  SetSoftWriteable b g = (g', es) ->
  g' = with_info {| max_element_size := max_element_size (stream_info_ g);
                    is_linked := is_linked (stream_info_ g);
                    is_writeble := is_writeble (stream_info_ g);
                    is_soft_writable := b |} g /\ out_writes es = [].
Proof.
  unfold SetSoftWriteable. destruct (eqb _ b) eqn:E; intros [= <- <-]; [|done].
  apply eqb_prop in E. split; [|done]. subst b. destruct g as [? ? [? ? ? ?] ? ? ?]. done.
Qed.

(** After a drain nothing waits, or the gate behind is not writable. *)
Lemma DrainBuffer_spec g g' es :
  DrainBuffer g = (g', es) ->
  out_writes es ++ waiting (write_in_buffer_ g') = waiting (write_in_buffer_ g) /\
  (is_writeble (last_out_stream_info_ g) = true -> waiting (write_in_buffer_ g') = []) /\
  (g' = with_buffer (map drained (write_in_buffer_ g)) g \/ g' = g).
Proof.
  unfold DrainBuffer. destruct (is_writeble _) eqn:W.
  - destruct (drain_true (write_in_buffer_ g)) as [H1 H2].
    destruct (drain true _) as [l es']; simpl in *. intros [= <- <-]. simpl. subst l.
    rewrite waiting_drained, app_nil_r. auto.
  - rewrite drain_false. intros [= <- <-]. simpl. repeat split; [done|right; by destruct g].
Qed.

(** *** Changes of the state of an action *)

Definition same (a b : BufferedWriteAction) : Prop :=
  node a = node b /\ data_ a = data_ b /\ current_time_ a = current_time_ b /\
  is_sent_ a = is_sent_ b /\ write_action_ a = write_action_ b.

Lemma same_waiting l k : Forall2 same l k -> waiting k = waiting l.
Proof.
  unfold waiting. induction 1 as [|a b l k (? & E1 & E2 & E3 & ?) _ IH]; [done|]. simpl.
  f_equal; [by rewrite E1, E2, E3|done].
Qed.

Lemma same_nodes l k : Forall2 same l k -> map node k = map node l.
Proof. induction 1 as [|a b l k (E & _) _ IH]; [done|]. simpl. by rewrite IH, E. Qed.

Lemma Forall2_transfer {X} (R : X -> X -> Prop) (P : X -> Prop) l k :
  (forall a b, R a b -> P a -> P b) -> Forall2 R l k -> Forall P l -> Forall P k.
Proof.
  intros H. induction 1 as [|a b l k Hab _ IH]; [done|].
  inversion 1; subst. constructor; eauto.
Qed.

Lemma Exists2_transfer {X} (R : X -> X -> Prop) (P : X -> Prop) l k :
  (forall a b, R a b -> P a -> P b) -> Forall2 R l k -> Exists P l -> Exists P k.
Proof.
  intros H. induction 1 as [|a b l k Hab _ IH]; [done|].
  inversion 1; subst; [left; eauto|right; auto].
Qed.

(** The buffer is replaced by one with the same nodes. *)
Lemma same_core g l :
  map node l = map node (write_in_buffer_ g) ->
  Forall (fun a => is_sent_ a = write_action_ a) l ->
  gate_core g -> gate_core (with_buffer l g).
Proof.
  intros E F [H1 H2 H3 H4 H5 H6].
  assert (zlen l = zlen (write_in_buffer_ g)) as Z
    by (unfold zlen; by rewrite <- (length_map node l), E, length_map).
  constructor; simpl; [by rewrite E| |done|done|done|by rewrite Z].
  apply list.Forall_forall. intros a Ha. apply (list_elem_of_fmap_2 node) in Ha.
  change (node <$> l) with (map node l) in Ha. rewrite E in Ha.
  apply list_elem_of_fmap in Ha as (b & -> & Hb). by apply (proj1 (list.Forall_forall _ _) H2).
Qed.

(** The buffer is replaced by one with the same writes. *)
Lemma same_ok g l :
  Forall2 same (write_in_buffer_ g) l -> gate_ok g -> gate_ok (with_buffer l g).
Proof.
  intros S [C A]. constructor.
  - apply same_core; [by apply same_nodes| |done].
    eapply Forall2_transfer; [|exact S|apply (ok_sent _ C)]. by intros a b (_ & _ & _ & <- & <-).
  - simpl. rewrite (same_waiting _ _ S). intros L W N.
    eapply Exists2_transfer; [|exact S|by apply A]. by intros a b (_ & _ & _ & <- & _).
Qed.

Lemma find_unique n g a b :
  gate_core g -> find_action n g = Some a -> b ∈ write_in_buffer_ g -> node b = n -> b = a.
Proof.
  intros [N _ _ _ _ _] F Hb <-. unfold find_action in F.
  apply find_some in F as [Fa E]. apply Nat.eqb_eq in E. apply list_elem_of_In in Fa.
  apply list_elem_of_lookup in Fa as [i Hi], Hb as [j Hj].
  assert (i = j) as ->; [|congruence].
  eapply (NoDup_lookup (map node (write_in_buffer_ g))); [done| |]; rewrite list_lookup_fmap.
  - by rewrite Hi.
  - rewrite Hj. simpl. by rewrite E.
Qed.

Lemma put_same n g a a' :
  gate_core g -> find_action n g = Some a -> same a a' ->
  Forall2 same (write_in_buffer_ g) (write_in_buffer_ (put_action a' g)).
Proof.
  intros O F S. unfold put_action. simpl.
  assert (node a = n) as En by (unfold find_action in F; apply find_some in F as [_ E];
    by apply Nat.eqb_eq in E).
  assert (forall b, b ∈ write_in_buffer_ g ->
    same b (if Nat.eqb (node b) (node a') then a' else b)) as H.
  { intros b Hb. destruct (Nat.eqb_spec (node b) (node a')) as [E|]; [|by repeat split].
    rewrite (find_unique n g a b O F Hb); [done|]. destruct S as [S _]. congruence. }
  revert H. generalize (write_in_buffer_ g). intros l.
  induction l as [|b l IH]; intros H; simpl; constructor.
  - apply H, list_elem_of_here.
  - apply IH. intros c Hc. by apply H, list_elem_of_further.
Qed.

Lemma same_set_state s a : same a (set_state s a).
Proof. by repeat split. Qed.

Lemma action_stop_same a : same a (action_stop a).1.
Proof. unfold action_stop. destruct (write_action_ a); by repeat split. Qed.

Lemma action_update_same a : same a (action_update a).1.
Proof.
  unfold action_update. destruct (changed_ (state_ a)); [|by repeat split].
  unfold SM.Acquire. by destruct (StateMachine.state_ (state_ a)).
Qed.

(** *** The operations keep the invariant *)

Lemma DrainBuffer_ok g g' es :
  DrainBuffer g = (g', es) -> gate_core g -> gate_ok g'.
Proof.
  intros D C. destruct (DrainBuffer_spec _ _ _ D) as (_ & W & B). constructor.
  - destruct B as [-> | ->]; [|done]. apply same_core; [| |done].
    + rewrite map_map. apply map_ext. intros a. by rewrite node_drained.
    + apply List.Forall_map. eapply Forall_impl; [|exact (ok_sent _ C)].
      intros a E. simpl in *. unfold drained. by destruct (is_sent_ a) eqn:S; [rewrite S|].
  - intros L W' N. destruct N. apply W. by destruct B as [-> | ->].
Qed.

Lemma length_filter_lt {X} (p : X -> bool) l x :
  x ∈ l -> p x = false -> (length (List.filter p l) < length l)%nat.
Proof.
  induction 1 as [x l|x y l _ IH]; intros E; simpl.
  - rewrite E. pose proof (List.filter_length_le p l). lia.
  - specialize (IH E). destruct (p y); simpl; lia.
Qed.

Lemma Forall_filter_sub {X} (P : X -> Prop) p l : Forall P l -> Forall P (List.filter p l).
Proof. induction 1 as [|x l H _ IH]; simpl; [done|]. destruct (p x); [by constructor|done]. Qed.

(** Removal of a node from the buffer, with [SetSoftWriteable(true)]. *)
Lemma remove_core n g a i :
  find_action n g = Some a -> gate_core g ->
  is_linked i = is_linked (stream_info_ g) -> is_soft_writable i = true ->
  gate_core (with_info i (with_buffer
    (List.filter (fun a => negb (Nat.eqb (node a) n)) (write_in_buffer_ g)) g)).
Proof.
  intros F [H1 H2 H3 H4 H5 H6] Hl Hs. constructor; simpl; [| | |congruence|done|].
  - clear - H1. induction (write_in_buffer_ g) as [|a l IH]; [constructor|]. simpl in *.
    apply list.NoDup_cons in H1 as [Ha Hl]. destruct (negb _); [|auto]. simpl. constructor; [|auto].
    intros Hin. apply Ha. apply list_elem_of_In, in_map_iff in Hin as (b & E & Hb).
    apply filter_In in Hb as [Hb _]. apply list_elem_of_In, in_map_iff. eauto.
  - by apply Forall_filter_sub.
  - by apply Forall_filter_sub.
  - intros M. destruct (H6 M) as [Z _]. apply find_some in F as [Ha E].
    apply list_elem_of_In in Ha.
    pose proof (length_filter_lt (fun a => negb (Nat.eqb (node a) n)) _ _ Ha) as L.
    cbv beta in L. rewrite E in L. specialize (L eq_refl). unfold zlen in *. split; [lia|]. rewrite Hs.
    destruct (Z.eqb_spec (Z.of_nat (length (List.filter
      (fun a => negb (Nat.eqb (node a) n)) (write_in_buffer_ g)))) (buffer_max_ g)); [lia|done].
Qed.

Lemma finish_spec n e g g' es a :
  find_action n g = Some a -> gate_core g -> finish n e g = Defined (g', es) ->
  gate_ok g' /\
  out_writes es ++ waiting (write_in_buffer_ g') =
  waiting (List.filter (fun a => negb (Nat.eqb (node a) n)) (write_in_buffer_ g)).
Proof.
  intros F C. unfold finish, remove_action.
  destruct (SetSoftWriteable true _) as [g1 es1] eqn:S.
  apply SetSoftWriteable_spec in S as [-> W1]. simpl.
  destruct (out_ g); [|done]. destruct (DrainBuffer _) as [g2 es2] eqn:D. intros [= <- <-].
  change (out_writes (Ended n e :: Trigger :: es1 ++ es2)) with (out_writes (es1 ++ es2)).
  rewrite out_writes_app, W1. simpl. split.
  - eapply DrainBuffer_ok; [exact D|]. by eapply remove_core.
  - by destruct (DrainBuffer_spec _ _ _ D) as (-> & _).
Qed.

(** What one operation does: [stops] tells that it may drop a waiting write. *)
Record step_spec (op : operation) (stops : Prop) (g g' : BufferGate) (es : list effect) : Prop := {
  st_ok : gate_ok g';
  st_passes : passes g g' op es;
  st_keeps : unstopped g -> stops \/
    (unstopped g' /\
     out_writes es ++ waiting (write_in_buffer_ g') = waiting (write_in_buffer_ g) ++ accepts op g);
}.

Lemma passes_eq g g' op es :
  out_writes es ++ waiting (write_in_buffer_ g') = waiting (write_in_buffer_ g) ++ accepts op g ->
  passes g g' op es.
Proof. unfold passes. by intros ->. Qed.

(** An operation that loses no write. *)
Lemma step_keeps op stops g g' es :
  gate_ok g' -> (unstopped g -> unstopped g') ->
  out_writes es ++ waiting (write_in_buffer_ g') = waiting (write_in_buffer_ g) ++ accepts op g ->
  step_spec op stops g g' es.
Proof. intros O U E. constructor; [done|by apply passes_eq|]. right. auto. Qed.

Lemma unstopped_drain g g' es : DrainBuffer g = (g', es) -> unstopped g -> unstopped g'.
Proof.
  intros D U. destruct (DrainBuffer_spec _ _ _ D) as (_ & _ & [-> | ->]); [|done].
  apply List.Forall_map. apply list.Forall_forall. intros a _. by rewrite drained_sent.
Qed.

Lemma all_sent l : waiting l = [] -> l <> [] -> Exists (fun a => is_sent_ a = true) l.
Proof.
  destruct l as [|a l]; [done|]. unfold waiting; simpl. intros H _. left.
  by destruct (is_sent_ a).
Qed.

(** The gate after [emplace], with its new information. *)
Definition pushed (i : StreamInfo) (data : bytes) (t : TimePoint) (g : BufferGate) : BufferGate :=
  {| out_ := out_ g; buffer_max_ := buffer_max_ g; stream_info_ := i;
     last_out_stream_info_ := last_out_stream_info_ g;
     write_in_buffer_ := write_in_buffer_ g ++ [buffered (next_node g) data t];
     next_node := S (next_node g) |}.

Lemma pushed_core i data t g :
  gate_core g -> is_soft_writable (stream_info_ g) = true ->
  is_linked i = is_linked (stream_info_ g) ->
  is_soft_writable i = negb (zlen (write_in_buffer_ g) + 1 =? buffer_max_ g) ->
  gate_core (pushed i data t g).
Proof.
  intros [H1 H2 H3 H4 H5 H6] S Hl Hs. constructor; simpl.
  - rewrite map_app. simpl. apply list.NoDup_app. split; [done|]. split; [|apply NoDup_singleton].
    intros x Hx ->%list_elem_of_singleton. apply list_elem_of_In, in_map_iff in Hx as (b & E & Hb).
    apply list_elem_of_In in Hb. apply (proj1 (list.Forall_forall _ _) H2) in Hb. lia.
  - apply Forall_app. split; [|by repeat constructor; simpl; lia].
    eapply Forall_impl; [|exact H2]. simpl; lia.
  - apply Forall_app. split; [done|by repeat constructor].
  - congruence.
  - done.
  - intros M. destruct (H6 M) as [Z E]. rewrite S in E. symmetry in E.
    apply negb_true_iff, Z.eqb_neq in E. rewrite zlen_app.
    change (zlen [buffered (next_node g) data t]) with 1. split; [lia|done].
Qed.

(** A write is buffered only behind another one, or while it cannot be sent. *)
Lemma pushed_active i data t g :
  gate_ok g ->
  (negb (is_writeble (last_out_stream_info_ g)) || negb (is_linked (last_out_stream_info_ g)))
  || negb (zlen (write_in_buffer_ g) =? 0) = true ->
  gate_core (pushed i data t g) -> gate_ok (pushed i data t g).
Proof.
  intros [_ A] B C. constructor; [done|]. simpl. intros L W _. apply Exists_app. left.
  rewrite L, W in B. simpl in B. apply negb_true_iff, Z.eqb_neq in B.
  destruct (waiting (write_in_buffer_ g)) as [|x r] eqn:Wt.
  - apply all_sent; [done|]. intros Z. apply B. by rewrite Z.
  - by apply A.
Qed.

(** The three ways of [Write]. *)
Lemma Write_cases data t g g' es v :
  Write data t g = Defined (g', es, v) ->
  (g' = g /\ es = [OutWrite data t] /\ v = DirectWrite /\ write_in_buffer_ g = []) \/
  (g' = g /\ es = [] /\ v = FailedWrite) \/
  (exists i, g' = pushed i data t g /\ out_writes es = [] /\ v = BufferedWrite (next_node g) /\
     is_soft_writable (stream_info_ g) = true /\ is_linked i = is_linked (stream_info_ g) /\
     is_soft_writable i = negb (zlen (write_in_buffer_ g) + 1 =? buffer_max_ g) /\
     (negb (is_writeble (last_out_stream_info_ g)) || negb (is_linked (last_out_stream_info_ g)))
     || negb (zlen (write_in_buffer_ g) =? 0) = true).
Proof.
  unfold Write. destruct (_ || negb (zlen _ =? 0)) eqn:B.
  2: { apply orb_false_iff in B as [_ B]. apply negb_false_iff, Z.eqb_eq, zlen_nil_iff in B.
    destruct (out_ g); [|done]. intros [= <- <- <-]. by left. }
  destruct (is_soft_writable (stream_info_ g)) eqn:S; simpl.
  2: { intros [= <- <- <-]. by right; left. }
  rewrite zlen_app. change (zlen [buffered (next_node g) data t]) with 1.
  destruct (zlen (write_in_buffer_ g) + 1 =? buffer_max_ g) eqn:Z; intros W; right; right.
  - destruct (SetSoftWriteable false _) as [g2 es2] eqn:Q.
    apply SetSoftWriteable_spec in Q as [-> Q]. injection W as <- <- <-.
    eexists; repeat split; done.
  - injection W as <- <- <-. exists (stream_info_ g). by repeat split.
Qed.

Lemma Write_spec data t g g' es v :
  gate_ok g -> Write data t g = Defined (g', es, v) ->
  step_spec (OpWrite data t) False g g' es.
Proof.
  intros O W.
  assert (accepts (OpWrite data t) g = match v with FailedWrite => [] | _ => [(data, t)] end) as Ac
    by (simpl; rewrite W; by destruct v).
  apply Write_cases in W as [(-> & -> & -> & B)|[(-> & -> & ->)|(i & -> & He & -> & S & Hl & Hs & B)]].
  - apply step_keeps; [done|done|]. by rewrite Ac, B.
  - apply step_keeps; [done|done|]. by rewrite Ac, app_nil_r.
  - apply step_keeps.
    + apply pushed_active; [done|done|]. by apply pushed_core; [apply O|..].
    + intros U. apply Forall_app. split; [done|]. repeat constructor. by intros _.
    + rewrite Ac, He. simpl. by rewrite waiting_app.
Qed.

Lemma UpdateGate_spec i g g' es :
  gate_ok g -> UpdateGate i g = Defined (g', es) -> step_spec (OpUpdateGate i) False g g' es.
Proof.
  intros [C A]. unfold UpdateGate. destruct (out_ g) eqn:O; [|done].
  destruct (if negb _ then _ else (g, [])) as [g1 es1] eqn:I.
  assert (gate_core g1 /\ write_in_buffer_ g1 = write_in_buffer_ g /\ out_writes es1 = [] /\
    (is_linked (stream_info_ g1) = true -> out_ g1 = true) /\
    (is_linked (stream_info_ g1) = false -> is_linked (last_out_stream_info_ g1) = false))
    as (C1 & B1 & W1 & L1 & L2).
  { destruct (negb _); injection I as <- <-; simpl.
    - destruct C as [H1 H2 H3 H4 H5 H6]. split; [by constructor|done].
    - split; [done|]. by rewrite (ok_linked _ C). }
  destruct (is_linked (stream_info_ g1)) eqn:L.
  - destruct (DrainBuffer g1) as [g2 es2] eqn:D. intros [= <- <-]. apply step_keeps.
    + by eapply DrainBuffer_ok.
    + unfold unstopped. rewrite <- B1. by apply (unstopped_drain g1 g2 es2).
    + destruct (DrainBuffer_spec _ _ _ D) as (E & _).
      by rewrite out_writes_app, W1, <- B1, app_nil_r.
  - intros [= <- <-]. apply step_keeps.
    + constructor; [done|]. intros X. rewrite L2 in X by done. done.
    + unfold unstopped. by rewrite B1.
    + by rewrite B1, W1, app_nil_r.
Qed.

Lemma waiting_filter_sent n l :
  (forall b, b ∈ l -> node b = n -> is_sent_ b = true) ->
  waiting (List.filter (fun a => negb (Nat.eqb (node a) n)) l) = waiting l.
Proof.
  intros H. induction l as [|b l IH]; [done|]. simpl.
  assert (waiting (List.filter (fun a => negb (Nat.eqb (node a) n)) l) = waiting l) as E
    by (apply IH; intros c Hc; by apply H, list_elem_of_further).
  destruct (Nat.eqb_spec (node b) n) as [Eb|]; simpl; unfold waiting in *; simpl; rewrite E; [|done].
  by rewrite (H b (list_elem_of_here b l) Eb).
Qed.

Lemma find_put n g a a' :
  find_action n g = Some a -> same a a' -> find_action n (put_action a' g) = Some a'.
Proof.
  unfold find_action, put_action. simpl. intros F [E _].
  assert (node a = n) as En by (apply find_some in F as [_ X]; by apply Nat.eqb_eq).
  induction (write_in_buffer_ g) as [|b l IH]; [done|]. simpl in *.
  destruct (Nat.eqb_spec (node b) n) as [Eb|Nb].
  - injection F as ->. rewrite <- E, En, Nat.eqb_refl. by rewrite <- E, En, Nat.eqb_refl.
  - destruct (Nat.eqb_spec (node b) (node a')); [congruence|].
    destruct (Nat.eqb_spec (node b) n); [done|auto].
Qed.

(** The state of an action changes, to one that is not a stop of a waiting
    write. *)
Lemma unstopped_put n g a a' :
  find_action n g = Some a ->
  (is_sent_ a' = false -> StateMachine.state_ (state_ a') <> kStopped) ->
  unstopped g -> unstopped (put_action a' g).
Proof.
  intros F H U. unfold unstopped, put_action. simpl. apply List.Forall_map.
  eapply Forall_impl; [|exact U]. intros b Hb. simpl. by destruct (Nat.eqb _ _).
Qed.

(** The end of the action [a], whose state was changed to that of [a']. *)
Lemma end_spec op n e g g' es a a' (stops : Prop) :
  gate_ok g -> find_action n g = Some a -> same a a' -> accepts op g = [] ->
  (unstopped g -> is_sent_ a = false -> stops) ->
  StateMachine.state_ (state_ a') = StateMachine.state_ (state_ a) ->
  finish n e (put_action a' g) = Defined (g', es) -> step_spec op stops g g' es.
Proof.
  intros [C A] F S Ac St Es H.
  pose proof (put_same n g a a' C F S) as P.
  pose proof (same_ok g _ P (Build_gate_ok _ C A)) as [C' _].
  destruct (finish_spec n e _ _ _ a' (find_put _ _ _ _ F S) C' H) as [O W].
  constructor; [done| |].
  - unfold passes. rewrite W, Ac, app_nil_r. etransitivity; [apply waiting_filter|].
    by rewrite (same_waiting _ _ P).
  - intros U. destruct (is_sent_ a) eqn:Sn; [right|left; by apply St].
    assert (is_sent_ a' = true) as Sn' by (destruct S as (_ & _ & _ & <- & _); done).
    rewrite W, Ac, app_nil_r, waiting_filter_sent, (same_waiting _ _ P).
    + split; [|done]. unfold finish, remove_action in H.
      destruct (SetSoftWriteable _ _) as [g1 es1] eqn:Q. apply SetSoftWriteable_spec in Q as [-> _].
      simpl in H. destruct (out_ g); [|done].
      destruct (DrainBuffer _) as [g2 es2] eqn:D. injection H as <- _.
      apply (unstopped_drain _ _ _ D). apply Forall_filter_sub.
      eapply unstopped_put; [exact F|by rewrite Sn'|done].
    + intros b Hb Eb. by rewrite (find_unique n _ a' b C' (find_put _ _ _ _ F S) Hb Eb).
Qed.

Lemma put_spec op n g a a' es :
  gate_ok g -> find_action n g = Some a -> same a a' -> accepts op g = [] -> out_writes es = [] ->
  (is_sent_ a' = false -> StateMachine.state_ (state_ a') = StateMachine.state_ (state_ a)) ->
  step_spec op False g (put_action a' g) es.
Proof.
  intros O F S Ac W St. pose proof (put_same n g a a' (ok_core _ O) F S) as P.
  apply step_keeps.
  - by apply same_ok.
  - intros U. eapply unstopped_put; [exact F| |done]. intros Sn. rewrite St by done.
    pose proof F as [Ha _]%find_some. apply list_elem_of_In in Ha.
    apply (proj1 (list.Forall_forall _ _) U _ Ha). destruct S as (_ & _ & _ & -> & _). done.
  - by rewrite W, Ac, app_nil_r, (same_waiting _ _ P).
Qed.

Definition is_stop (op : operation) : bool :=
  match op with OpStop _ => true | _ => false end.

Lemma step_weaken op stops g g' es :
  step_spec op False g g' es -> step_spec op stops g g' es.
Proof. intros [O P K]. constructor; [done|done|]. intros U. destruct (K U) as [[]|]; by right. Qed.

Lemma step_idle op stops g : gate_ok g -> accepts op g = [] -> step_spec op stops g g [].
Proof. intros O Ac. apply step_keeps; [done|done|]. by rewrite Ac, app_nil_r. Qed.

Lemma exec_update n g g' es :
  gate_ok g -> exec (OpUpdate n) g = Defined (g', es) ->
  step_spec (OpUpdate n) False g g' es.
Proof.
  intros O. simpl. destruct (find_action n g) as [a|] eqn:F.
  2: { intros [= <- <-]. by apply step_idle. }
  pose proof (action_update_same a) as S. unfold action_update in *.
  destruct (changed_ (state_ a)) eqn:Ch.
  2: { intros [= <- <-]. by apply (put_spec _ n g a). }
  unfold SM.Acquire in *. set (s := {| changed_ := false; StateMachine.state_ := _ |}) in *.
  destruct (StateMachine.state_ (state_ a)) eqn:Es; simpl in *; intros H.
  5: { eapply (end_spec _ _ _ _ _ _ a); [done|exact F|exact S|done| |done|exact H].
    intros U Sn. apply find_some in F as [Ha _]. apply list_elem_of_In in Ha.
    by apply (proj1 (list.Forall_forall _ _) U _ Ha). }
  all: injection H as <- <-; by apply (put_spec _ n g a).
Qed.

Lemma exec_spec op g g' es :
  gate_ok g -> exec op g = Defined (g', es) ->
  step_spec op (is_stop op = true) g g' es.
Proof.
  intros O. destruct op as [data t| |i|n|n|n s|n e].
  - simpl. destruct (Write data t g) as [[[g1 es1] v]|] eqn:W; [|done]. intros [= <- <-].
    by eapply step_weaken, Write_spec.
  - intros [= <- <-]. destruct O as [[H1 H2 H3 H4 H5 H6] A].
    apply step_keeps; [|done|by rewrite app_nil_r]. constructor; [by constructor|done].
  - intros H. by eapply step_weaken, UpdateGate_spec.
  - simpl. destruct (find_action n g) as [a|] eqn:F; [|intros [= <- <-]; by apply step_idle].
    destruct (action_stop a) as [a' es'] eqn:S. intros [= <- <-].
    pose proof (action_stop_same a) as P. rewrite S in P. simpl in P.
    pose proof (put_same n g a a' (ok_core _ O) F P) as Q.
    assert (out_writes es' = []) as W
      by (unfold action_stop in S; by destruct (write_action_ a); injection S as <- <-).
    constructor; [by apply same_ok| |by left].
    apply passes_eq. by rewrite W, app_nil_r, (same_waiting _ _ Q).
  - intros H. by eapply step_weaken, exec_update.
  - simpl. destruct (find_action n g) as [a|] eqn:F; intros [= <- <-]; [|by apply step_idle].
    destruct (is_sent_ a) eqn:Sn; [|by apply step_idle].
    apply step_weaken, (put_spec _ n g a); auto using same_set_state. simpl. congruence.
  - simpl. destruct (find_action n g) as [a|] eqn:F; [|intros [= <- <-]; by apply step_idle].
    destruct (is_sent_ a) eqn:Sn; [|intros [= <- <-]; by apply step_idle].
    intros H. apply step_weaken.
    eapply end_spec; [done|exact F|apply same_set_state|done| | |exact H]; [congruence|done].
Qed.

Lemma start_ok buffer_max : gate_ok (buffer_gate buffer_max).
Proof.
  constructor; [|discriminate].
  constructor; simpl; [constructor|constructor|constructor|reflexivity|discriminate|].
  intros. split; [unfold zlen; simpl; lia|].
  by destruct buffer_max.
Qed.

Lemma run_spec ops : forall h h',
  gate_ok (gate h) ->
  sublist (written h ++ waiting (write_in_buffer_ (gate h))) (accepted h) ->
  run ops h = Defined h' ->
  gate_ok (gate h') /\
  sublist (written h' ++ waiting (write_in_buffer_ (gate h'))) (accepted h') /\
  (forallb (fun op => negb (is_stop op)) ops = true -> unstopped (gate h) ->
   written h ++ waiting (write_in_buffer_ (gate h)) = accepted h ->
   written h' ++ waiting (write_in_buffer_ (gate h')) = accepted h').
Proof.
  induction ops as [|op ops IH]; intros h h' O S R; [by injection R as <-|].
  simpl in R. destruct (exec op (gate h)) as [[g es]|] eqn:E; [|done].
  destruct (exec_spec _ _ _ _ O E) as [O' P K].
  assert (sublist ((written h ++ out_writes es) ++ waiting (write_in_buffer_ g))
    (accepted h ++ accepts op (gate h))) as S'.
  { rewrite <- app_assoc. etransitivity; [apply sublist_app; [reflexivity|exact P]|].
    rewrite app_assoc. by apply sublist_app. }
  destruct (IH (Build_history g _ _) h' O' S' R) as (O2 & S2 & K2).
  split; [done|]. split; [done|]. intros Hn U Eq. simpl in Hn. apply andb_true_iff in Hn as [Hs Hn].
  destruct (K U) as [X|[U' W]]; [by rewrite X in Hs|].
  apply K2; [done|done|]. simpl. by rewrite <- app_assoc, W, app_assoc, Eq.
Qed.

Lemma run_start buffer_max ops h :
  run ops (start buffer_max) = Defined h ->
  gate_ok (gate h) /\
  sublist (written h ++ waiting (write_in_buffer_ (gate h))) (accepted h) /\
  (forallb (fun op => negb (is_stop op)) ops = true ->
   written h ++ waiting (write_in_buffer_ (gate h)) = accepted h).
Proof.
  intros R. destruct (run_spec ops (start buffer_max) h) as (O & S & K);
    [apply start_ok|constructor|done|].
  split; [done|]. split; [done|]. intros Hn. apply K; [done|constructor|done].
Qed.

(** The gate keeps the order of the writes.  After any sequence of writes,
    changes of the gate behind, stops and ends of buffered writes, what was
    written to the gate behind, followed by what still waits in the buffer, is
    the sequence of the accepted writes from which only stopped ones are
    missing; when no write was stopped nothing is missing. *)
Theorem buffer_gate_order buffer_max ops h :
  run ops (start buffer_max) = Defined h ->
  sublist (written h ++ waiting (write_in_buffer_ (gate h))) (accepted h) /\
  (forallb (fun op => negb (is_stop op)) ops = true ->
   written h ++ waiting (write_in_buffer_ (gate h)) = accepted h).
Proof. apply run_start. Qed.

Definition info (linked writeble : bool) : StreamInfo :=
  {| max_element_size := 100; is_linked := linked; is_writeble := writeble;
     is_soft_writable := true |}.

(** Two writes before the gate is linked, one more after it is writable. *)
Definition scenario : list operation :=
  [OpWrite [1] 10; OpWrite [2] 11; OpLinkOut; OpUpdateGate (info true false);
   OpUpdateGate (info true true); OpWrite [3] 12; OpState 0 kDone; OpEnd 0 Result].

Lemma buffer_gate_order_witness :
  exists h, run scenario (start 3) = Defined h /\
    written h = [([1], 10); ([2], 11); ([3], 12)] /\
    written h ++ waiting (write_in_buffer_ (gate h)) = accepted h.
Proof.
  eexists. split; [vm_compute; reflexivity|]. split; [reflexivity|].
  apply (buffer_gate_order 3 scenario); reflexivity.
Defined.

(** With a positive limit the buffer never holds more than [buffer_max_]
    writes, and the gate reports itself soft writable exactly while there is
    room, so that a write is refused only by a full buffer. *)
Theorem buffer_gate_bound buffer_max ops h data t :
  0 < buffer_max_ (gate h) -> run ops (start buffer_max) = Defined h ->
  zlen (write_in_buffer_ (gate h)) <= buffer_max_ (gate h) /\
  is_soft_writable (stream_info_ (gate h)) =
    negb (zlen (write_in_buffer_ (gate h)) =? buffer_max_ (gate h)) /\
  (forall g es, Write data t (gate h) = Defined (g, es, FailedWrite) ->
   zlen (write_in_buffer_ (gate h)) = buffer_max_ (gate h)).
Proof.
  intros M R. destruct (run_start buffer_max ops h R) as ([C _] & _).
  destruct (ok_size _ C M) as [Z S]. split; [done|]. split; [done|].
  intros g es. unfold Write. destruct (_ || _).
  - rewrite S. destruct (Z.eqb_spec (zlen (write_in_buffer_ (gate h))) (buffer_max_ (gate h)));
      [done|]. simpl.
    by match goal with |- context [let '(_, _) := ?x in _] => destruct x end.
  - by destruct (out_ (gate h)).
Qed.

Lemma buffer_gate_bound_witness :
  exists h, run [OpWrite [1] 10; OpWrite [2] 11] (start 2) = Defined h /\
    zlen (write_in_buffer_ (gate h)) <= buffer_max_ (gate h) /\
    is_soft_writable (stream_info_ (gate h)) =
      negb (zlen (write_in_buffer_ (gate h)) =? buffer_max_ (gate h)) /\
    (forall g es, Write [3] 12 (gate h) = Defined (g, es, FailedWrite) ->
     zlen (write_in_buffer_ (gate h)) = buffer_max_ (gate h)).
Proof.
  eexists. split; [vm_compute; reflexivity|].
  apply (buffer_gate_bound 2 [OpWrite [1] 10; OpWrite [2] 11]); reflexivity.
Defined.

(** A buffered write is never forgotten: whenever the gate behind is linked
    and writable and a write still waits, another buffered write is under way,
    and the end of that one writes all the waiting ones. *)
Theorem buffer_gate_progress buffer_max ops h :
  run ops (start buffer_max) = Defined h ->
  is_linked (last_out_stream_info_ (gate h)) = true ->
  is_writeble (last_out_stream_info_ (gate h)) = true ->
  waiting (write_in_buffer_ (gate h)) <> [] ->
  exists a, a ∈ write_in_buffer_ (gate h) /\ is_sent_ a = true /\
    forall e, exists g es, exec (OpEnd (node a) e) (gate h) = Defined (g, es) /\
      waiting (write_in_buffer_ g) = [].
Proof.
  intros R L W N. destruct (run_start buffer_max ops h R) as (O & _).
  pose proof (ok_active _ O L W N) as E. apply Exists_exists in E as (a & Ha & Sn).
  apply list_elem_of_In in Ha. exists a. split; [done|]. split; [done|]. intros e. simpl.
  destruct (find_action (node a) (gate h)) as [b|] eqn:F.
  2: { apply list_elem_of_In in Ha. apply (find_none _ _ F) in Ha. by rewrite Nat.eqb_refl in Ha. }
  rewrite (find_unique _ _ _ _ (ok_core _ O) F Ha eq_refl) in *. rewrite Sn.
  unfold finish, remove_action.
  destruct (SetSoftWriteable _ _) as [g1 es1] eqn:Q. apply SetSoftWriteable_spec in Q as [-> _].
  simpl. rewrite (ok_out _ (ok_core _ O) L).
  destruct (DrainBuffer _) as [g2 es2] eqn:D. eexists _, _. split; [reflexivity|].
  by apply (DrainBuffer_spec _ _ _ D).
Qed.

Lemma buffer_gate_progress_witness :
  exists h, run (take 6 scenario) (start 3) = Defined h /\
  exists a, a ∈ write_in_buffer_ (gate h) /\ is_sent_ a = true /\
    forall e, exists g es, exec (OpEnd (node a) e) (gate h) = Defined (g, es) /\
      waiting (write_in_buffer_ g) = [].
Proof.
  eexists. split; [vm_compute; reflexivity|].
  apply (buffer_gate_progress 3 (take 6 scenario)); [reflexivity|reflexivity|reflexivity|discriminate].
Defined.

(** Stopping a buffered write before the gate is linked has undefined
    behaviour: the end of the action drains the buffer into the null [out_]. *)
Theorem stop_before_link_undefined buffer_max data t :
  run [OpWrite data t; OpStop 0; OpUpdate 0] (start buffer_max) = Undefined.
Proof.
  unfold run, start, exec, Write, zlen. simpl.
  match goal with |- context [if ?b then _ else _] => destruct b end; reflexivity.
Qed.

End BufferGateProperties.
