(* ===== verification/Streams.v ===== *)
(** * Streams over one connection ([aether/stream_api/])

    The gate that puts a header in front of the data ([header_gate.*]), the
    gates of one direction ([unidirectional_gate.*]), the messages, the gates
    and the identifiers of [stream_api.*], and the gate that splits one
    connection into streams ([splitter_gate.*]).

    The subscribers of [out_data_event_] and [new_stream_event_] are outside:
    what a gate hands to them is returned as a list of [delivery]. *)

From stdpp Require Import gmap.
From S2P Require Import Prelude MStream PackedInt ApiProtocol StateMachine BufferGate.
Import PackedSize.

(** [max_element_size] less the bytes the gate adds. *)
Definition less_overhead (n : Z) (s_info : StreamInfo) : StreamInfo :=
  {| max_element_size := if max_element_size s_info >? n then max_element_size s_info - n else 0;
     is_linked := is_linked s_info; is_writeble := is_writeble s_info;
     is_soft_writable := is_soft_writable s_info |}.

Module Header.

(** [AddHeaderGate::Write], the packet given to the gate behind. *)
Definition header_write (header_ buffer : bytes) : bytes :=
  vector_write (vector_write [] header_) buffer.

Definition header_stream_info (header_ : bytes) (out_info : StreamInfo) : StreamInfo :=
  less_overhead (zlen header_) out_info.

End Header.

Module Unidirectional.

(** [ReadOnlyGate::Write] *)
Definition read_only_write (data : bytes) : StateMachine StreamWrite.State :=
  StreamWrite.failed_action.

End Unidirectional.

Module StreamIds.

(** [StreamIdGenerator]: the identifier and the next value of the static. *)
Definition GetNextClientStreamId (stream_id : Z) : Z * Z := (stream_id, wrap 8 (stream_id + 2)).
Definition GetNextServerStreamId (stream_id : Z) : Z * Z := (stream_id, wrap 8 (stream_id + 2)).

(** The initial values of the statics. *)
Definition client_first : Z := 1.
Definition server_first : Z := 2.

(** The [n]-th identifier of a generator. *)
Fixpoint nth_id (gen : Z -> Z * Z) (first : Z) (n : nat) : Z :=
  match n with
  | O => (gen first).1
  | S m => nth_id gen (gen first).2 m
  end.

End StreamIds.

Module Splitter.

(** ** Messages *)

(** [StreamApi::Stream] *)
Record Stream := {
  stream_id : Z;
  child_data : bytes;
}.

Definition kMessageCode : Z := 2.

Abbreviation stream_fields := (uint 1 * list (uint 1))%type.

Definition stream_code (m : Stream) : Z := kMessageCode.
Definition stream_body (m : Stream) : bytes :=
  save ((stream_id m, child_data m) : stream_fields).

(** [StreamApiGate::Write] with its [PacketBuilder]: one message per packet. *)
Definition gate_write (stream_id_ : Z) (buffer : bytes) : bytes :=
  PacketBuilder_Pack (pack_one stream_code stream_body)
    [{| stream_id := stream_id_; child_data := buffer |}].

(** [message code + stream id + child data size] *)
Definition kStreamMessageOverhead : Z := 1 + 1 + 8.

(** [StreamApiGate::stream_info] *)
Definition gate_stream_info (out_info : StreamInfo) : StreamInfo :=
  less_overhead kStreamMessageOverhead out_info.

(** ** The gate *)

Record StreamApiGate := { stream_id_ : Z }.

Record SplitterGate := { streams_ : gmap Z StreamApiGate }.

Definition splitter_gate : SplitterGate := {| streams_ := ∅ |}.

Inductive delivery :=
  | NewStream (stream_id : Z)
  | OutData (stream_id : Z) (data : bytes).

(** [RegisterStream]; [try_emplace] keeps a gate already there. *)
Definition RegisterStream (sid : Z) (s : SplitterGate) : SplitterGate * StreamApiGate :=
  match streams_ s !! sid with
  | Some g => (s, g)
  | None => let g := {| stream_id_ := sid |} in ({| streams_ := <[sid := g]> (streams_ s) |}, g)
  end.

Definition CloseStream (sid : Z) (s : SplitterGate) : SplitterGate :=
  {| streams_ := delete sid (streams_ s) |}.

Definition stream_count (s : SplitterGate) : nat := size (streams_ s).

(** [StreamApiGate::PutData] *)
Definition PutData (g : StreamApiGate) (data : bytes) : list delivery := [OutData (stream_id_ g) data].

Definition OnStream (m : Stream) (s : SplitterGate) : SplitterGate * list delivery :=
  match streams_ s !! stream_id m with
  | Some _ => (s, [])
  | None =>
      let '(s, g) := RegisterStream (stream_id m) s in
      (s, NewStream (stream_id m) :: PutData g (child_data m))
  end.

(** The read subscription of a gate. *)
Definition on_message (m : Stream) (g : StreamApiGate) : list delivery :=
  if stream_id_ g =? stream_id m then [OutData (stream_id_ g) (child_data m)] else [].

(** [MessageNotify] of a stream message.  The splitter subscribed first; the
    gates called after it are those subscribed when the emission began, as
    [Event::Emit] takes the list of its handlers before it calls them. *)
Definition notify (m : Stream) (s : SplitterGate) : SplitterGate * list delivery :=
  let invoke_list := map_to_list (streams_ s) in
  let '(s, ds) := OnStream m s in
  (s, ds ++ (invoke_list ≫= fun '(_, g) => on_message m g)).

(** [Execute], with the deliveries collected. *)
Definition execute (m : Stream) (st : SplitterGate * list delivery)
  : outcome (SplitterGate * list delivery) :=
  let '(s, ds) := st in
  let '(s, ds') := notify m s in Defined (s, ds ++ ds').

(** [StreamApi::LoadFactory] *)
Definition stream_LoadFactory (message_id : Z) (st : SplitterGate * list delivery)
  (r : VectorReader) : outcome ((SplitterGate * list delivery) * VectorReader) :=
  if message_id =? kMessageCode
  then
    let '((sid, data), r') := load (dflt : stream_fields) r in
    let* st' := execute {| stream_id := sid; child_data := data |} st in Defined (st', r')
  else Undefined.

#[export] Instance StreamApi : ApiClass (SplitterGate * list delivery) :=
  { LoadFactory := stream_LoadFactory }.

(** The handler of the data of the gate behind, set up by [LinkOut]. *)
Definition on_out_data (data : bytes) (s : SplitterGate)
  : option (outcome (SplitterGate * list delivery)) :=
  match Parse (s, []) data with
  | Some (Defined (st, _)) => Some (Defined st)
  | Some Undefined => Some Undefined
  | None => None
  end.

(** A sequence of packets; [None] if one of them is not parsed. *)
Fixpoint on_packets (ps : list bytes) (s : SplitterGate)
  : option (SplitterGate * list delivery) :=
  match ps with
  | [] => Some (s, [])
  | p :: ps =>
      match on_out_data p s with
      | Some (Defined (s, ds)) =>
          match on_packets ps s with
          | Some (s, ds') => Some (s, ds ++ ds')
          | None => None
          end
      | _ => None
      end
  end.

End Splitter.

Module StreamProperties.
Import StreamIds Splitter.

(** ** Identifiers *)

Lemma nth_id_step gen first n :
  (forall x, gen x = (x, wrap 8 (x + 2))) -> in_width 8 first ->
  nth_id gen first n = (first + 2 * Z.of_nat n) mod 256.
Proof.
  intros Hg. revert first; induction n as [|n IH]; intros first Hf; cbn [nth_id].
  - rewrite Hg. simpl. rewrite Z.add_0_r, Z.mod_small; [done|]. exact Hf.
  - rewrite Hg. simpl fst. cbn [snd]. rewrite IH by (apply in_width_wrap; lia). unfold wrap.
    change (2 ^ 8) with 256. rewrite Zplus_mod_idemp_l. f_equal. lia.
Qed.

Lemma mod256_double a b r :
  0 <= r < 256 -> ((r + 2 * a) mod 256 = (r + 2 * b) mod 256 <-> a mod 128 = b mod 128).
Proof.
  intros Hr. split; intros H.
  - pose proof (Z.div_mod (r + 2 * a) 256). pose proof (Z.div_mod (r + 2 * b) 256).
    replace a with (b + (((r + 2 * a) / 256) - ((r + 2 * b) / 256)) * 128) by lia.
    by rewrite Z.mod_add by lia.
  - pose proof (Z.div_mod a 128). pose proof (Z.div_mod b 128).
    replace (r + 2 * a) with ((r + 2 * b) + (a / 128 - b / 128) * 256) by lia.
    by rewrite Z.mod_add by lia.
Qed.

Lemma odd_mod256 x : Z.odd (x mod 256) = Z.odd x.
Proof.
  rewrite (Z.div_mod x 256) at 2 by lia. rewrite Z.odd_add, Z.odd_mul.
  change (Z.odd 256) with false. by destruct (Z.odd (x mod 256)).
Qed.

(** The identifiers of the client are odd and those of the server even, so
    the two sides never choose the same one; the identifiers of one side repeat
    exactly every 128 streams. *)
Theorem stream_ids_parity n m :
  Z.odd (nth_id GetNextClientStreamId client_first n) = true /\
  Z.odd (nth_id GetNextServerStreamId server_first m) = false /\
  (nth_id GetNextClientStreamId client_first n = nth_id GetNextClientStreamId client_first m <->
   Z.of_nat n mod 128 = Z.of_nat m mod 128).
Proof.
  rewrite !nth_id_step by (done || (unfold in_width, client_first, server_first; lia)).
  rewrite !odd_mod256, !Z.odd_add, !Z.odd_mul. split; [done|]. split; [done|].
  apply mod256_double. unfold client_first; lia.
Qed.

(** ** Packets *)

Lemma length_gate_write k data :
  zlen data < kUpper ->
  zlen (gate_write k data) = 2 + zlen (packed_save (zlen data)) + zlen data.
Proof.
  intros. unfold gate_write, PacketBuilder_Pack, pack_one, stream_body. simpl.
  rewrite app_nil_r. unfold save_scalars. cbn [size_save size_packed]. unfold zlen. simpl.
  rewrite length_app, length_scalar_image. lia.
Qed.

(** Data of at most the advertised [max_element_size] makes a packet that
    fits into an element of the gate behind, with its message code, its stream
    identifier and its packed size. *)
Theorem stream_packet_fits k data out_info :
  kStreamMessageOverhead < max_element_size out_info ->
  zlen data < kUpper ->
  zlen data <= max_element_size (gate_stream_info out_info) ->
  zlen (gate_write k data) <= max_element_size out_info.
Proof.
  intros Ho Hu Hd. rewrite length_gate_write by done.
  unfold gate_stream_info, less_overhead in Hd. cbn [max_element_size] in Hd.
  rewrite (proj2 (Z.gtb_lt _ _) Ho) in Hd. unfold kStreamMessageOverhead in *.
  assert (zlen (packed_save (zlen data)) <= 8); [|lia].
  unfold zlen at 1. rewrite length_packed_save by (pose proof (zlen_nonneg data); lia).
  repeat zcase; lia.
Qed.

Lemma stream_packet_fits_witness : zlen (gate_write 1 [5; 6]) <= 13.
Proof.
  apply (stream_packet_fits 1 [5; 6]
    {| max_element_size := 13; is_linked := true; is_writeble := true; is_soft_writable := true |});
  zeval.
Defined.

(** ** Delivery *)

Definition wf (s : SplitterGate) : Prop :=
  forall k g, streams_ s !! k = Some g -> stream_id_ g = k.

(** What the subscribers see of the writes [ws], when [known] streams exist. *)
Fixpoint expected (known : gset Z) (ws : list (Z * bytes)) : list delivery :=
  match ws with
  | [] => []
  | (k, data) :: ws =>
      (if decide (k ∈ known) then [] else [NewStream k]) ++
      OutData k data :: expected ({[k]} ∪ known) ws
  end.

Lemma silent_gates m (l : list (Z * StreamApiGate)) :
  (forall k g, (k, g) ∈ l -> stream_id_ g <> stream_id m) ->
  (l ≫= fun '(_, g) => on_message m g) = [].
Proof.
  induction l as [|[k g] l IH]; intros H; [done|]. rewrite bind_cons, IH.
  - unfold on_message. destruct (Z.eqb_spec (stream_id_ g) (stream_id m)) as [E|]; [|done].
    exfalso. by apply (H k g); [apply list_elem_of_here|].
  - intros k' g' Hk. by apply (H k'), list_elem_of_further.
Qed.

(** Exactly one gate answers, the one of the stream, new or not. *)
Lemma notify_spec m s :
  wf s ->
  exists s', notify m s = (s', expected (dom (streams_ s)) [(stream_id m, child_data m)]) /\
    wf s' /\ dom (streams_ s') = {[stream_id m]} ∪ dom (streams_ s).
Proof.
  intros W. unfold notify, OnStream, RegisterStream. simpl.
  destruct (streams_ s !! stream_id m) as [g|] eqn:E.
  - exists s. rewrite decide_True by (by eapply elem_of_dom_2). simpl.
    split; [f_equal|split; [done|]].
    2: { apply elem_of_dom_2 in E. symmetry. by apply subseteq_union_1_L, singleton_subseteq_l. }
    apply Permutation_singleton_r. rewrite <- (map_to_list_delete (streams_ s) (stream_id m) g E).
    rewrite bind_cons, silent_gates.
    + unfold on_message. by rewrite (W _ _ E), Z.eqb_refl.
    + intros k g' Hk. apply elem_of_map_to_list, lookup_delete_Some in Hk as [Hne Hk].
      by rewrite (W _ _ Hk).
  - eexists. rewrite decide_False by (by rewrite not_elem_of_dom). simpl.
    rewrite silent_gates; [|intros k g Hk; apply elem_of_map_to_list in Hk;
      rewrite (W _ _ Hk); congruence].
    split; [done|]. split; [|simpl; by rewrite dom_insert_L].
    intros k g. simpl. destruct (decide (k = stream_id m)) as [->|].
    + rewrite lookup_insert_eq. by intros [= <-].
    + rewrite lookup_insert_ne by done. apply W.
Qed.

Definition stream_valid (m : Stream) : Prop :=
  in_width 8 (stream_id m) /\ zlen (child_data m) < kUpper /\ byte_list (child_data m).

Lemma on_out_data_write k data s :
  stream_valid {| stream_id := k; child_data := data |} ->
  on_out_data (gate_write k data) s = Some (Defined (notify {| stream_id := k; child_data := data |} s)).
Proof.
  intros V. unfold on_out_data, gate_write.
  rewrite (Parse_packed stream_code stream_body stream_valid execute).
  - simpl. by destruct (notify _ s).
  - done.
  - intros m st pre post (H1 & H2 & H3). unfold LoadFactory, StreamApi, stream_LoadFactory.
    change (stream_code m =? kMessageCode) with true. cbv iota. unfold stream_body.
    rewrite (load_save ((stream_id m, child_data m) : stream_fields)) by done.
    by destruct m.
  - by apply list.Forall_singleton.
Qed.

Lemma expected_cons known k data ws :
  expected known ((k, data) :: ws) = expected known [(k, data)] ++ expected ({[k]} ∪ known) ws.
Proof. simpl. by destruct (decide (k ∈ known)). Qed.

(** Several streams share one connection.  The packets of any sequence of
    writes on any streams are split again on the other side: every write is
    delivered once, to its own stream and in the order of the writes, and a
    stream is announced once, before its first data. *)
Theorem splitter_roundtrip ws :
  Forall (fun '(k, data) => stream_valid {| stream_id := k; child_data := data |}) ws ->
  exists s, on_packets (map (fun '(k, data) => gate_write k data) ws) splitter_gate
            = Some (s, expected ∅ ws) /\
    forall k, is_Some (streams_ s !! k) <-> k ∈ map fst ws.
Proof.
  assert (forall s, wf s ->
    Forall (fun '(k, data) => stream_valid {| stream_id := k; child_data := data |}) ws ->
    exists s', on_packets (map (fun '(k, data) => gate_write k data) ws) s
      = Some (s', expected (dom (streams_ s)) ws) /\
      forall k, k ∈ dom (streams_ s') <-> k ∈ dom (streams_ s) \/ k ∈ map fst ws) as H.
  { induction ws as [|[k data] ws IH]; intros s W F; cbn [map on_packets].
    { exists s. split; [done|]. intros k. simpl. rewrite elem_of_nil. tauto. }
    inversion F as [|? ? Hk Hws]; subst. rewrite on_out_data_write by done.
    destruct (notify_spec {| stream_id := k; child_data := data |} s W) as (s1 & E & W1 & D).
    rewrite E. destruct (IH s1 W1 Hws) as (s2 & E2 & D2). rewrite E2. exists s2.
    split; [by rewrite (expected_cons _ k data ws), D|]. cbn [stream_id] in D.
    intros j. rewrite D2, D. simpl map. rewrite elem_of_union, elem_of_singleton, elem_of_cons.
    tauto. }
  intros F. destruct (H splitter_gate) as (s & E & D); [done|done|].
  exists s. rewrite E. simpl. rewrite dom_empty_L. split; [done|].
  intros k. rewrite <- elem_of_dom, D. simpl. rewrite dom_empty_L, elem_of_empty. tauto.
Qed.

Lemma splitter_roundtrip_witness :
  exists s, on_packets (map (fun '(k, data) => gate_write k data)
              [(1, [7; 8]); (3, [9]); (1, [])]) splitter_gate
    = Some (s, [NewStream 1; OutData 1 [7; 8]; NewStream 3; OutData 3 [9]; OutData 1 []]) /\
    forall k, is_Some (streams_ s !! k) <-> k ∈ [1; 3; 1].
Proof.
  apply (splitter_roundtrip [(1, [7; 8]); (3, [9]); (1, [])]).
  repeat constructor; unfold stream_valid, byte_list; zeval.
Defined.

(** A header in front of the data fits into an element of the gate behind
    whenever the data has at most the advertised [max_element_size]. *)
Lemma header_packet_fits header data out_info :
  zlen header < max_element_size out_info ->
  zlen data <= max_element_size (Header.header_stream_info header out_info) ->
  zlen (Header.header_write header data) <= max_element_size out_info.
Proof.
  unfold Header.header_write, Header.header_stream_info, less_overhead, vector_write.
  cbn [max_element_size]. intros H. rewrite (proj2 (Z.gtb_lt _ _) H), !zlen_app.
  change (zlen []) with 0. lia.
Qed.

End StreamProperties.
