(* ===== verification/Crc.v ===== *)
(** * Checksums ([aether/crc.h])

    The CRC-32 of the identifiers of classes and messages and of the proof of
    work: the table, the compile-time version for literals, and the run-time
    versions for strings and buffers.  The specification is the bitwise
    division by the reflected polynomial. *)

From S2P Require Import Prelude.

Module Crc.

Definition INITIAL_VALUE : Z := 0xFFFFFFFF.
Definition XOR_VALUE : Z := 0xFFFFFFFF.

Definition table : list Z :=
  [0x00000000; 0x77073096; 0xee0e612c; 0x990951ba; 0x076dc419; 0x706af48f;
   0xe963a535; 0x9e6495a3; 0x0edb8832; 0x79dcb8a4; 0xe0d5e91e; 0x97d2d988;
   0x09b64c2b; 0x7eb17cbd; 0xe7b82d07; 0x90bf1d91; 0x1db71064; 0x6ab020f2;
   0xf3b97148; 0x84be41de; 0x1adad47d; 0x6ddde4eb; 0xf4d4b551; 0x83d385c7;
   0x136c9856; 0x646ba8c0; 0xfd62f97a; 0x8a65c9ec; 0x14015c4f; 0x63066cd9;
   0xfa0f3d63; 0x8d080df5; 0x3b6e20c8; 0x4c69105e; 0xd56041e4; 0xa2677172;
   0x3c03e4d1; 0x4b04d447; 0xd20d85fd; 0xa50ab56b; 0x35b5a8fa; 0x42b2986c;
   0xdbbbc9d6; 0xacbcf940; 0x32d86ce3; 0x45df5c75; 0xdcd60dcf; 0xabd13d59;
   0x26d930ac; 0x51de003a; 0xc8d75180; 0xbfd06116; 0x21b4f4b5; 0x56b3c423;
   0xcfba9599; 0xb8bda50f; 0x2802b89e; 0x5f058808; 0xc60cd9b2; 0xb10be924;
   0x2f6f7c87; 0x58684c11; 0xc1611dab; 0xb6662d3d; 0x76dc4190; 0x01db7106;
   0x98d220bc; 0xefd5102a; 0x71b18589; 0x06b6b51f; 0x9fbfe4a5; 0xe8b8d433;
   0x7807c9a2; 0x0f00f934; 0x9609a88e; 0xe10e9818; 0x7f6a0dbb; 0x086d3d2d;
   0x91646c97; 0xe6635c01; 0x6b6b51f4; 0x1c6c6162; 0x856530d8; 0xf262004e;
   0x6c0695ed; 0x1b01a57b; 0x8208f4c1; 0xf50fc457; 0x65b0d9c6; 0x12b7e950;
   0x8bbeb8ea; 0xfcb9887c; 0x62dd1ddf; 0x15da2d49; 0x8cd37cf3; 0xfbd44c65;
   0x4db26158; 0x3ab551ce; 0xa3bc0074; 0xd4bb30e2; 0x4adfa541; 0x3dd895d7;
   0xa4d1c46d; 0xd3d6f4fb; 0x4369e96a; 0x346ed9fc; 0xad678846; 0xda60b8d0;
   0x44042d73; 0x33031de5; 0xaa0a4c5f; 0xdd0d7cc9; 0x5005713c; 0x270241aa;
   0xbe0b1010; 0xc90c2086; 0x5768b525; 0x206f85b3; 0xb966d409; 0xce61e49f;
   0x5edef90e; 0x29d9c998; 0xb0d09822; 0xc7d7a8b4; 0x59b33d17; 0x2eb40d81;
   0xb7bd5c3b; 0xc0ba6cad; 0xedb88320; 0x9abfb3b6; 0x03b6e20c; 0x74b1d29a;
   0xead54739; 0x9dd277af; 0x04db2615; 0x73dc1683; 0xe3630b12; 0x94643b84;
   0x0d6d6a3e; 0x7a6a5aa8; 0xe40ecf0b; 0x9309ff9d; 0x0a00ae27; 0x7d079eb1;
   0xf00f9344; 0x8708a3d2; 0x1e01f268; 0x6906c2fe; 0xf762575d; 0x806567cb;
   0x196c3671; 0x6e6b06e7; 0xfed41b76; 0x89d32be0; 0x10da7a5a; 0x67dd4acc;
   0xf9b9df6f; 0x8ebeeff9; 0x17b7be43; 0x60b08ed5; 0xd6d6a3e8; 0xa1d1937e;
   0x38d8c2c4; 0x4fdff252; 0xd1bb67f1; 0xa6bc5767; 0x3fb506dd; 0x48b2364b;
   0xd80d2bda; 0xaf0a1b4c; 0x36034af6; 0x41047a60; 0xdf60efc3; 0xa867df55;
   0x316e8eef; 0x4669be79; 0xcb61b38c; 0xbc66831a; 0x256fd2a0; 0x5268e236;
   0xcc0c7795; 0xbb0b4703; 0x220216b9; 0x5505262f; 0xc5ba3bbe; 0xb2bd0b28;
   0x2bb45a92; 0x5cb36a04; 0xc2d7ffa7; 0xb5d0cf31; 0x2cd99e8b; 0x5bdeae1d;
   0x9b64c2b0; 0xec63f226; 0x756aa39c; 0x026d930a; 0x9c0906a9; 0xeb0e363f;
   0x72076785; 0x05005713; 0x95bf4a82; 0xe2b87a14; 0x7bb12bae; 0x0cb61b38;
   0x92d28e9b; 0xe5d5be0d; 0x7cdcefb7; 0x0bdbdf21; 0x86d3d2d4; 0xf1d4e242;
   0x68ddb3f8; 0x1fda836e; 0x81be16cd; 0xf6b9265b; 0x6fb077e1; 0x18b74777;
   0x88085ae6; 0xff0f6a70; 0x66063bca; 0x11010b5c; 0x8f659eff; 0xf862ae69;
   0x616bffd3; 0x166ccf45; 0xa00ae278; 0xd70dd2ee; 0x4e048354; 0x3903b3c2;
   0xa7672661; 0xd06016f7; 0x4969474d; 0x3e6e77db; 0xaed16a4a; 0xd9d65adc;
   0x40df0b66; 0x37d83bf0; 0xa9bcae53; 0xdebb9ec5; 0x47b2cf7f; 0x30b5ffe9;
   0xbdbdf21c; 0xcabac28a; 0x53b39330; 0x24b4a3a6; 0xbad03605; 0xcdd70693;
   0x54de5729; 0x23d967bf; 0xb3667a2e; 0xc4614ab8; 0x5d681b02; 0x2a6f2b94;
   0xb40bbe37; 0xc30c8ea1; 0x5a05df1b; 0x2d02ef8d].

(** [table[i]], for an index of eight bits. *)
Definition table_at (i : Z) : Z := nth (Z.to_nat i) table 0.

(** One byte of a checksum. *)
Definition add_byte (curr b : Z) : Z :=
  Z.lxor (Z.shiftr curr 8) (table_at (Z.lxor (wrap 8 curr) (wrap 8 b))).

(** [details::aux<LEN, INDEX>::exec]; [s] is the literal from [INDEX] on, with
    its terminating zero, and [first] says that [INDEX] is zero. *)
Fixpoint aux_exec (first : bool) (s : bytes) (curr prev : Z) : Z :=
  match s with
  | [] => prev
  | b :: s' =>
      if first && (zlen s =? 1) then XOR_VALUE
      else aux_exec false s'
             (Z.lxor (table_at (Z.lxor (wrap 8 curr) (wrap 8 b))) (Z.shiftr curr 8)) curr
  end.

(** The characters of a literal; the compiler appends the zero. *)
Definition from_literal (str : bytes) : Z :=
  aux_exec true (str ++ [0]) INITIAL_VALUE INITIAL_VALUE.

Definition checksum_from_literal (str : bytes) : Z := Z.lxor (from_literal str) XOR_VALUE.

(** [from_string]; [s] is the memory behind the pointer, up to the end of the
    object: a string without a terminating zero is read past its end. *)
Fixpoint from_string (s : bytes) (curr : Z) : outcome Z :=
  match s with
  | [] => Undefined
  | b :: s' => if b =? 0 then Defined curr else from_string s' (add_byte curr b)
  end.

(** [from_buffer]; the index is an [unsigned int], so the loop over a buffer
    of more than [2^32 - 1] bytes would not end. *)
Definition from_buffer (buff : bytes) (curr : Z) : option Z :=
  if zlen buff <? 2 ^ 32 then Some (fold_left add_byte buff curr) else None.

(** ** Specification *)

(** The reflection of the polynomial [0x04C11DB7]. *)
Definition poly : Z := 0xEDB88320.

(** Division by one bit. *)
Definition bit_step (x : Z) : Z :=
  Z.lxor (Z.shiftr x 1) (if Z.odd x then poly else 0).

Definition crc_byte (curr b : Z) : Z := Nat.iter 8 bit_step (Z.lxor curr b).

Strategy expand [crc_byte].

Definition crc (bs : bytes) (curr : Z) : Z := fold_left crc_byte bs curr.

End Crc.

Module CrcProperties.
Import Crc.

(** ** The table *)

Lemma table_bitwise :
  table = map (fun i => Nat.iter 8 bit_step (Z.of_nat i)) (seq 0 256).
Proof. vm_compute. reflexivity. Qed.

Lemma table_at_bitwise i : in_width 8 i -> table_at i = Nat.iter 8 bit_step i.
Proof.
  intros Hi. unfold in_width in Hi. change (2 ^ 8) with 256 in Hi.
  unfold table_at. rewrite table_bitwise.
  rewrite (nth_indep _ 0 (Nat.iter 8 bit_step (Z.of_nat 0)))
    by (rewrite length_map, length_seq; lia).
  rewrite (map_nth (fun i => Nat.iter 8 bit_step (Z.of_nat i))), seq_nth by lia.
  f_equal. lia.
Qed.

(** ** Linearity of the division *)

Lemma bit_step_lxor a b : bit_step (Z.lxor a b) = Z.lxor (bit_step a) (bit_step b).
Proof.
  unfold bit_step. rewrite Z.shiftr_lxor. rewrite <- !Z.bit0_odd, Z.lxor_spec.
  destruct (Z.testbit a 0), (Z.testbit b 0); simpl xorb; cbv iota;
    rewrite ?Z.lxor_0_r, ?Z.lxor_assoc; try done.
  - by rewrite (Z.lxor_comm poly), Z.lxor_assoc, Z.lxor_nilpotent, Z.lxor_0_r.
  - by rewrite (Z.lxor_comm poly).
Qed.

Lemma iter_bit_step_lxor n a b :
  Nat.iter n bit_step (Z.lxor a b) = Z.lxor (Nat.iter n bit_step a) (Nat.iter n bit_step b).
Proof. induction n as [|n IH]; [done|]. simpl. by rewrite IH, bit_step_lxor. Qed.

(** Low zero bits are shifted out. *)
Lemma iter_bit_step_shift n x : Nat.iter n bit_step (Z.shiftl x (Z.of_nat n)) = x.
Proof.
  revert x; induction n as [|n IH]; intros x; [apply Z.shiftl_0_r|].
  rewrite Nat.iter_succ_r.
  assert (bit_step (Z.shiftl x (Z.of_nat (S n))) = Z.shiftl x (Z.of_nat n)) as ->; [|apply IH].
  unfold bit_step. rewrite <- Z.bit0_odd, Z.shiftl_spec_low by lia. rewrite Z.lxor_0_r.
  rewrite Z.shiftr_shiftl_l by lia. f_equal. lia.
Qed.

Lemma split_byte x : 0 <= x -> x = Z.lxor (x mod 256) (Z.shiftl (Z.shiftr x 8) 8).
Proof.
  intros. apply Z.bits_inj'. intros i Hi. rewrite Z.lxor_spec.
  change 256 with (2 ^ 8). destruct (Z.lt_ge_cases i 8).
  - rewrite Z.mod_pow2_bits_low by done. rewrite Z.shiftl_spec_low by done.
    by rewrite xorb_false_r.
  - rewrite Z.mod_pow2_bits_high by lia. rewrite Z.shiftl_spec, Z.shiftr_spec by lia.
    rewrite xorb_false_l. f_equal. lia.
Qed.

Lemma iter_eight x :
  0 <= x -> Nat.iter 8 bit_step x = Z.lxor (Z.shiftr x 8) (table_at (x mod 256)).
Proof.
  intros Hx. rewrite (split_byte x Hx) at 1. rewrite iter_bit_step_lxor, Z.lxor_comm.
  f_equal; [apply (iter_bit_step_shift 8)|].
  symmetry. apply table_at_bitwise, Z.mod_pos_bound. done.
Qed.

Lemma lxor_nonneg a b : 0 <= a -> 0 <= b -> 0 <= Z.lxor a b.
Proof. intros. apply Z.lxor_nonneg. tauto. Qed.

Lemma lxor_mod a b : (Z.lxor a b) mod 256 = Z.lxor (a mod 256) (b mod 256).
Proof.
  change 256 with (2 ^ 8). rewrite <- !Z.land_ones by lia.
  apply Z.bits_inj'. intros i Hi. rewrite !Z.land_spec, !Z.lxor_spec, !Z.land_spec.
  by destruct (Z.testbit a i), (Z.testbit b i), (Z.testbit (Z.ones 8) i).
Qed.

(** The table step is eight bit steps. *)
Lemma add_byte_crc curr b : 0 <= curr -> in_width 8 b -> add_byte curr b = crc_byte curr b.
Proof.
  intros Hc Hb. unfold crc_byte. rewrite iter_eight by (apply lxor_nonneg; [done|apply Hb]).
  unfold add_byte. f_equal.
  - rewrite Z.shiftr_lxor, (Z.shiftr_div_pow2 b) by lia.
    rewrite (Z.div_small b) by apply Hb. by rewrite Z.lxor_0_r.
  - by rewrite lxor_mod.
Qed.

Lemma bit_step_nonneg x : 0 <= x -> 0 <= bit_step x.
Proof.
  intros. unfold bit_step. apply lxor_nonneg; [by apply Z.shiftr_nonneg|]. by destruct (Z.odd x).
Qed.

Lemma add_byte_nonneg curr b : 0 <= curr -> in_width 8 b -> 0 <= add_byte curr b.
Proof.
  intros Hc Hb. rewrite add_byte_crc by done. unfold crc_byte.
  assert (0 <= Z.lxor curr b) as H by (apply lxor_nonneg; [done|apply Hb]).
  revert H. generalize (Z.lxor curr b). intros x Hx.
  do 8 apply bit_step_nonneg. exact Hx.
Qed.

Lemma fold_cons {X Y} (f : X -> Y -> X) b bs c :
  fold_left f (b :: bs) c = fold_left f bs (f c b).
Proof. done. Qed.

Lemma crc_cons b bs c : crc (b :: bs) c = crc bs (crc_byte c b).
Proof. exact (fold_cons crc_byte b bs c). Qed.

Lemma fold_add_byte bs : forall curr,
  byte_list bs -> 0 <= curr -> fold_left add_byte bs curr = crc bs curr.
Proof.
  induction bs as [|b bs IH]; intros curr F Hc; [done|]. inversion F as [|? ? Hb Hbs]; subst.
  rewrite fold_cons, crc_cons, IH by (done || by apply add_byte_nonneg).
  by rewrite add_byte_crc.
Qed.

Lemma from_buffer_crc bs c :
  byte_list bs -> 0 <= c -> zlen bs < 2 ^ 32 -> from_buffer bs c = Some (crc bs c).
Proof.
  intros B Hc L. unfold from_buffer. rewrite (proj2 (Z.ltb_lt _ _) L). by rewrite fold_add_byte.
Qed.

Lemma aux_exec_fold s : forall curr prev,
  aux_exec false (s ++ [0]) curr prev = fold_left add_byte s curr.
Proof.
  induction s as [|b s IH]; intros curr prev; [done|]. cbn [app aux_exec andb fold_left].
  rewrite IH. f_equal. apply Z.lxor_comm.
Qed.

Lemma from_literal_fold s : from_literal s = fold_left add_byte s INITIAL_VALUE.
Proof.
  unfold from_literal. destruct s as [|b s]; [done|].
  cbn [app aux_exec]. rewrite (proj2 (Z.eqb_neq _ _)).
  - cbn [andb]. rewrite aux_exec_fold. cbn [fold_left]. f_equal. apply Z.lxor_comm.
  - rewrite zlen_cons, zlen_app. pose proof (zlen_nonneg s). change (zlen [0]) with 1. lia.
Qed.

Lemma from_string_fold s rest : forall curr,
  Forall (fun b => b <> 0) s ->
  from_string (s ++ 0 :: rest) curr = Defined (fold_left add_byte s curr).
Proof.
  induction s as [|b s IH]; intros curr F; [done|]. inversion F; subst.
  cbn [app from_string fold_left]. rewrite (proj2 (Z.eqb_neq _ _)) by done. by apply IH.
Qed.

(** C39: the compile-time checksum of a literal, the run-time checksum of the
    same string and of the same bytes in a buffer are all the bitwise division
    by the polynomial, so identifiers computed in either way agree. *)
Theorem crc_versions_agree s rest :
  byte_list s -> Forall (fun b => b <> 0) s -> zlen s < 2 ^ 32 ->
  from_literal s = crc s INITIAL_VALUE /\
  from_string (s ++ 0 :: rest) INITIAL_VALUE = Defined (crc s INITIAL_VALUE) /\
  from_buffer s INITIAL_VALUE = Some (crc s INITIAL_VALUE).
Proof.
  intros B F L. rewrite from_literal_fold, from_string_fold by done.
  rewrite from_buffer_crc, fold_add_byte by (done || unfold INITIAL_VALUE; lia). done.
Qed.

Lemma crc_versions_agree_witness :
  checksum_from_literal [72; 101; 108; 108; 111; 32; 119; 111; 114; 108; 100] = 0x8BD69E52 /\
  from_literal [65] = crc [65] INITIAL_VALUE /\
  from_string ([65] ++ 0 :: []) INITIAL_VALUE = Defined (crc [65] INITIAL_VALUE) /\
  from_buffer [65] INITIAL_VALUE = Some (crc [65] INITIAL_VALUE).
Proof.
  split; [vm_compute; reflexivity|].
  apply (crc_versions_agree [65] []); unfold byte_list; zeval.
Defined.

(** ** Changes are detected *)

Lemma bit_step_width x : in_width 32 x -> in_width 32 (bit_step x).
Proof.
  intros [H0 H1]. assert (0 <= bit_step x) as Hn by by apply bit_step_nonneg.
  split; [done|]. destruct (Z.eq_dec (bit_step x) 0) as [->|Hz]; [lia|].
  apply Z.log2_lt_pow2; [lia|]. unfold bit_step.
  eapply Z.le_lt_trans; [apply Z.log2_lxor; [by apply Z.shiftr_nonneg|by destruct (Z.odd x)]|].
  apply Z.max_lub_lt; [|by destruct (Z.odd x)].
  rewrite Z.shiftr_div_pow2 by lia. change (2 ^ 1) with 2.
  destruct (Z.eq_dec (x / 2) 0) as [->|]; [done|].
  apply Z.log2_lt_pow2; [pose proof (Z.div_pos x 2); lia|]. apply Z.div_lt_upper_bound; lia.
Qed.

(** The highest bit tells whether the polynomial was subtracted. *)
Lemma bit_step_top x : in_width 32 x -> Z.testbit (bit_step x) 31 = Z.odd x.
Proof.
  intros [H0 H1]. unfold bit_step. rewrite Z.lxor_spec, Z.shiftr_spec by lia.
  rewrite (Z.bits_above_log2 x); [by destruct (Z.odd x)|done|].
  destruct (Z.eq_dec x 0) as [->|]; [simpl; lia|].
  change (31 + 1) with 32. apply Z.log2_lt_pow2; lia.
Qed.

Lemma lxor_cancel_r a b c : Z.lxor a c = Z.lxor b c -> a = b.
Proof.
  intros H. apply (f_equal (fun x => Z.lxor x c)) in H.
  by rewrite !Z.lxor_assoc, Z.lxor_nilpotent, !Z.lxor_0_r in H.
Qed.

Lemma bit_step_inj x y :
  in_width 32 x -> in_width 32 y -> bit_step x = bit_step y -> x = y.
Proof.
  intros Hx Hy E. assert (Z.odd x = Z.odd y) as O by (rewrite <- !bit_step_top by done; by rewrite E).
  unfold bit_step in E. rewrite O in E. apply lxor_cancel_r in E.
  rewrite !Z.shiftr_div_pow2 in E by lia. change (2 ^ 1) with 2 in E.
  rewrite (Z.div_mod x 2), (Z.div_mod y 2), !Zmod_odd, O, E by lia. done.
Qed.

Lemma iter_bit_step_width n x : in_width 32 x -> in_width 32 (Nat.iter n bit_step x).
Proof. intros H. induction n as [|n IH]; [done|]. by apply bit_step_width. Qed.

Lemma iter_bit_step_inj n x y :
  in_width 32 x -> in_width 32 y -> Nat.iter n bit_step x = Nat.iter n bit_step y -> x = y.
Proof.
  intros Hx Hy. induction n as [|n IH]; [done|]. intros E. apply IH.
  apply bit_step_inj; [by apply iter_bit_step_width..|done].
Qed.

Lemma lxor_width c b : in_width 32 c -> in_width 8 b -> in_width 32 (Z.lxor c b).
Proof.
  intros [Hc1 Hc2] [Hb1 Hb2]. pose proof (lxor_nonneg c b Hc1 Hb1). split; [done|].
  destruct (Z.eq_dec (Z.lxor c b) 0) as [->|]; [lia|]. apply Z.log2_lt_pow2; [lia|].
  eapply Z.le_lt_trans; [apply Z.log2_lxor; done|]. apply Z.max_lub_lt.
  - destruct (Z.eq_dec c 0) as [->|]; [done|]. apply Z.log2_lt_pow2; lia.
  - destruct (Z.eq_dec b 0) as [->|]; [done|]. apply Z.log2_lt_pow2; [lia|].
    eapply Z.lt_trans; [exact Hb2|done].
Qed.

Lemma crc_byte_width c b : in_width 32 c -> in_width 8 b -> in_width 32 (crc_byte c b).
Proof. intros. by apply iter_bit_step_width, lxor_width. Qed.

Lemma crc_width bs : forall c, byte_list bs -> in_width 32 c -> in_width 32 (crc bs c).
Proof.
  induction bs as [|b bs IH]; intros c F Hc; [done|]. inversion F; subst.
  rewrite crc_cons. apply IH; [done|]. by apply crc_byte_width.
Qed.

Lemma crc_inj bs : forall c d,
  byte_list bs -> in_width 32 c -> in_width 32 d -> crc bs c = crc bs d -> c = d.
Proof.
  induction bs as [|b bs IH]; intros c d F Hc Hd E; [done|]. inversion F; subst.
  rewrite !crc_cons in E. apply IH in E; [|done|by apply crc_byte_width..].
  unfold crc_byte in E. apply iter_bit_step_inj in E; [|by apply lxor_width..]. by apply lxor_cancel_r in E.
Qed.

Lemma crc_app a b c : crc (a ++ b) c = crc b (crc a c).
Proof. apply fold_left_app. Qed.

Lemma crc_byte_inj c b b' :
  in_width 32 c -> in_width 8 b -> in_width 8 b' -> crc_byte c b = crc_byte c b' -> b = b'.
Proof.
  intros Hc Hb Hb' E. unfold crc_byte in E. apply iter_bit_step_inj in E; [|by apply lxor_width..].
  rewrite !(Z.lxor_comm c) in E. by apply lxor_cancel_r in E.
Qed.

Lemma crc_byte_change pre b b' post c :
  byte_list (pre ++ b :: post) -> in_width 8 b' -> in_width 32 c ->
  crc (pre ++ b :: post) c = crc (pre ++ b' :: post) c -> b = b'.
Proof.
  intros B Hb' Hc E. unfold byte_list in B.
  apply List.Forall_app in B as [Bp Bb]. inversion Bb as [|? ? Hb Bq]; subst.
  rewrite !crc_app in E. pose proof (crc_width pre c Bp Hc) as W.
  revert W E. generalize (crc pre c). intros d W E.
  rewrite !crc_cons in E.
  apply crc_inj in E; [|done|by apply crc_byte_width..]. by eapply crc_byte_inj.
Qed.

(** The checksum detects every change of a single byte of a buffer. *)
Theorem crc_detects_byte_change pre b b' post :
  byte_list (pre ++ b :: post) -> in_width 8 b' -> b <> b' -> zlen (pre ++ b :: post) < 2 ^ 32 ->
  from_buffer (pre ++ b :: post) INITIAL_VALUE <> from_buffer (pre ++ b' :: post) INITIAL_VALUE.
Proof.
  intros B Hb' N L.
  assert (byte_list (pre ++ b' :: post)) as B'.
  { unfold byte_list in *. apply List.Forall_app in B as [Bp Bb].
    inversion Bb; subst. apply List.Forall_app. split; [done|by constructor]. }
  assert (zlen (pre ++ b' :: post) < 2 ^ 32) as L'
    by (rewrite zlen_app, zlen_cons in *; done).
  rewrite !from_buffer_crc by (done || unfold INITIAL_VALUE; lia). intros E. apply N.
  assert (crc (pre ++ b :: post) INITIAL_VALUE = crc (pre ++ b' :: post) INITIAL_VALUE) as E'
    by congruence.
  revert E'. apply crc_byte_change; [done|done|]. unfold in_width, INITIAL_VALUE. lia.
Qed.

Lemma crc_detects_byte_change_witness :
  from_buffer ([1; 2] ++ 3 :: [4]) INITIAL_VALUE <> from_buffer ([1; 2] ++ 7 :: [4]) INITIAL_VALUE.
Proof. apply crc_detects_byte_change; unfold byte_list; zeval. Defined.

End CrcProperties.
