(* ===== verification/ProofOfWork.v ===== *)
(** * Proof of work ([aether/proof_of_work.*])

    The search for the passwords that a registration has to present.  The hash
    function ([third_party/libbcrypt]) is a parameter: for a password and a
    salt, the buffer [bcrypt_hashpw] fills.  A failed assertion is
    [Undefined]; [None] is a search the fuel does not cover. *)

From S2P Require Import Prelude Crc Text.

Module PoW.
Import Text.

(** ** Password *)

(** The four bytes of a [Password]. *)
Definition Password := bytes.

Definition new_password : Password := [0; 0; 0; 0].

(** [Password::get] *)
Definition get (p : Password) : Z := le_val p.

(** [Password::operator++] *)
Fixpoint incr (p : Password) : Password :=
  match p with
  | [] => []
  | v :: p' => if v <? 255 then wrap 8 (v + 1) :: p' else 0 :: incr p'
  end.

Section Search.
Variable bcrypt_hashpw : bytes -> bytes -> bytes.

Definition ComputePassword (val : Z) (password_suffix : bytes) : bytes :=
  to_string val ++ password_suffix.

Definition kMaxBcryptPasswordLength : Z := 72.

Definition ComputeHash (pass salt : bytes) : outcome Z :=
  if kMaxBcryptPasswordLength <? zlen pass then Undefined
  else Crc.from_string (bcrypt_hashpw pass salt) Crc.INITIAL_VALUE.

Variable salt_ password_suffix_ : bytes.
Variable max_hash_value_ : Z.

(** The inner loop, up to [fuel] passwords. *)
Fixpoint search (fuel : nat) (pass : Password) : option (outcome Password) :=
  match fuel with
  | O => None
  | S fuel =>
      let pass := incr pass in
      match ComputeHash (ComputePassword (get pass) password_suffix_) salt_ with
      | Defined res => if res <=? max_hash_value_ then Some (Defined pass) else search fuel pass
      | Undefined => Some Undefined
      end
  end.

(** The loop over the [pool_size_] entries of the result. *)
Fixpoint pool (fuel : nat) (n : nat) (pass : Password) : option (outcome (list Z)) :=
  match n with
  | O => Some (Defined [])
  | S n =>
      match search fuel pass with
      | Some (Defined pass) =>
          match pool fuel n pass with
          | Some (Defined result) => Some (Defined (get pass :: result))
          | r => r
          end
      | Some Undefined => Some Undefined
      | None => None
      end
  end.

Definition ComputeProofOfWork (fuel : nat) (pool_size_ : Z) : option (outcome (list Z)) :=
  pool fuel (Z.to_nat pool_size_) new_password.

End Search.

End PoW.

Module PoWProperties.
Import Text.
Import PoW.

(** ** The counter *)

Lemma incr_le_bytes n v : incr (le_bytes n v) = le_bytes n (v + 1).
Proof.
  revert v; induction n as [|n IH]; intros v; [done|]. cbn [le_bytes incr].
  pose proof (Z.mod_pos_bound v 256 eq_refl) as B. pose proof (Z.div_mod v 256) as D.
  destruct (Z.ltb_spec (v mod 256) 255).
  - unfold wrap. change (2 ^ 8) with 256.
    replace (v + 1) with ((v mod 256 + 1) + (v / 256) * 256) by lia.
    rewrite Z.mod_add, Z.div_add by lia. rewrite (Z.div_small (v mod 256 + 1)) by lia.
    by rewrite (Z.mod_small (v mod 256 + 1)), Z.add_0_l by lia.
  - rewrite IH. replace (v + 1) with (0 + (v / 256 + 1) * 256) by lia.
    by rewrite Z.mod_add, Z.div_add by lia.
Qed.

Lemma get_le_bytes v : 0 <= v < 2 ^ 32 -> get (le_bytes 4 v) = v.
Proof. intros. unfold get. rewrite le_val_bytes. by apply wrap_small. Qed.

(** The increment carries through the bytes: the counter runs through all
    values and starts again at zero. *)
Lemma password_counts n :
  get (Nat.iter n incr new_password) = Z.of_nat n mod 2 ^ 32.
Proof.
  change new_password with (le_bytes 4 0).
  assert (Nat.iter n incr (le_bytes 4 0) = le_bytes 4 (Z.of_nat n)) as ->.
  { induction n as [|n IH]; [done|]. rewrite Nat.iter_succ, IH, incr_le_bytes.
    f_equal. lia. }
  unfold get. by rewrite le_val_bytes.
Qed.

(** ** The search *)
Section Search.
Variable bcrypt_hashpw : bytes -> bytes -> bytes.
Variable salt_ password_suffix_ : bytes.
Variable max_hash_value_ : Z.

(** [bcrypt_hashpw] writes a string that ends with a zero. *)
Definition terminated : Prop :=
  forall pass salt, exists str rest,
    bcrypt_hashpw pass salt = str ++ 0 :: rest /\ Forall (fun b => b <> 0) str.

Definition hash (v : Z) : outcome Z :=
  ComputeHash bcrypt_hashpw (ComputePassword v password_suffix_) salt_.

(** The password number [v] is good enough. *)
Definition accepted (v : Z) : bool :=
  match hash v with Defined res => res <=? max_hash_value_ | Undefined => false end.

(** [ws] are the first accepted numbers above [v]. *)
Fixpoint first_accepted (v : Z) (ws : list Z) : Prop :=
  match ws with
  | [] => True
  | w :: ws =>
      v < w < 2 ^ 32 /\ accepted w = true /\ (forall j, v < j < w -> accepted j = false) /\
      first_accepted w ws
  end.

Lemma hash_defined v : terminated -> zlen password_suffix_ <= 62 -> exists r, hash v = Defined r.
Proof.
  intros T L. unfold hash, ComputeHash, ComputePassword.
  pose proof (length_digits 10 v []) as D. rewrite zlen_app.
  assert (zlen (to_string v) <= 10) by (unfold to_string, zlen in *; simpl in *; lia).
  unfold kMaxBcryptPasswordLength.
  destruct (Z.ltb_spec 72 (zlen (to_string v) + zlen password_suffix_)); [lia|].
  destruct (T (to_string v ++ password_suffix_) salt_) as (str & rest & -> & F).
  rewrite CrcProperties.from_string_fold by done. eauto.
Qed.

Lemma search_spec k : forall fuel v w,
  terminated -> zlen password_suffix_ <= 62 ->
  0 <= v -> w = v + Z.of_nat (S k) -> w < 2 ^ 32 -> accepted w = true ->
  (forall j, v < j < w -> accepted j = false) -> (k < fuel)%nat ->
  search bcrypt_hashpw salt_ password_suffix_ max_hash_value_ fuel (le_bytes 4 v)
  = Some (Defined (le_bytes 4 w)).
Proof.
  induction k as [|k IH]; intros fuel v w T L Hv Ew Hw A N Hf; destruct fuel as [|fuel]; try lia;
    cbn [search]; rewrite incr_le_bytes, get_le_bytes by lia;
    destruct (hash_defined (v + 1) T L) as [r E]; unfold hash in E; rewrite E.
  - replace w with (v + 1) in * by lia. unfold accepted, hash in A. rewrite E in A. by rewrite A.
  - assert (accepted (v + 1) = false) as A' by (apply N; lia).
    unfold accepted, hash in A'. rewrite E in A'. rewrite A'.
    apply IH; [done|done|lia|lia|done|done| |lia]. intros j Hj. apply N. lia.
Qed.

Lemma pool_spec fuel ws : forall v,
  terminated -> zlen password_suffix_ <= 62 -> 0 <= v -> first_accepted v ws ->
  Forall (fun w => w <= Z.of_nat fuel) ws ->
  pool bcrypt_hashpw salt_ password_suffix_ max_hash_value_ fuel (length ws) (le_bytes 4 v)
  = Some (Defined ws).
Proof.
  induction ws as [|w ws IH]; intros v T L Hv A F; [done|]. destruct A as (B & Aw & N & A).
  inversion F; subst. cbn [length pool].
  rewrite (search_spec (Z.to_nat (w - v - 1)) fuel v w) by (done || lia).
  rewrite IH by (done || lia). by rewrite get_le_bytes by lia.
Qed.

End Search.

(** The least number above [v] that is accepted. *)
Lemma least_accepted bcrypt_hashpw salt_ password_suffix_ max_hash_value_ v w :
  let acc := accepted bcrypt_hashpw salt_ password_suffix_ max_hash_value_ in
  v < w -> acc w = true ->
  exists m, v < m <= w /\ acc m = true /\ forall j, v < j < m -> acc j = false.
Proof.
  intros acc Hv Hw.
  assert (H : forall k, (exists m, v < m <= v + Z.of_nat k /\ acc m = true /\
                                   forall j, v < j < m -> acc j = false) \/
                        forall j, v < j <= v + Z.of_nat k -> acc j = false).
  { induction k as [|k [IH|IH]]; [right; intros; lia| |].
    - left. destruct IH as (m & ? & ? & ?). exists m. split_and!; done || lia.
    - destruct (acc (v + Z.of_nat (S k))) eqn:E.
      + left. exists (v + Z.of_nat (S k)). split_and!; [lia|lia|done|]. intros; apply IH; lia.
      + right. intros j Hj. destruct (decide (j = v + Z.of_nat (S k))) as [->|]; [done|]. apply IH; lia. }
  destruct (H (Z.to_nat (w - v))) as [(m & ? & ? & ?)|N].
  - exists m. split_and!; done || lia.
  - rewrite N in Hw by lia. done.
Qed.

(** When enough different numbers are accepted there is a list of the first
    ones. *)
Lemma first_accepted_exists bcrypt_hashpw salt_ password_suffix_ max_hash_value_ bound n :
  forall v l, (n <= length l)%nat -> List.NoDup l ->
  Forall (fun w => v < w <= bound /\ w < 2 ^ 32 /\
    accepted bcrypt_hashpw salt_ password_suffix_ max_hash_value_ w = true) l ->
  exists ws, length ws = n /\
    first_accepted bcrypt_hashpw salt_ password_suffix_ max_hash_value_ v ws /\
    Forall (fun w => w <= bound) ws.
Proof.
  induction n as [|n IH]; intros v l Hn Hd Hl.
  { exists []. split_and!; done || constructor. }
  destruct l as [|x l]; [simpl in Hn; lia|].
  inversion Hl as [|? ? (Hx & Hx2 & Hxa) Hls]; subst.
  destruct (least_accepted bcrypt_hashpw salt_ password_suffix_ max_hash_value_ v x)
    as (m & Hm & Hma & Hno); [lia|done|].
  assert (Hrest : exists l', (n <= length l')%nat /\ List.NoDup l' /\
            Forall (fun w => m < w <= bound /\ w < 2 ^ 32 /\
              accepted bcrypt_hashpw salt_ password_suffix_ max_hash_value_ w = true) l').
  { assert (Habove : forall w, w ∈ x :: l -> w <> m -> m < w <= bound /\ w < 2 ^ 32 /\
              accepted bcrypt_hashpw salt_ password_suffix_ max_hash_value_ w = true).
    { intros w Hw Hne. pose proof (proj1 (list.Forall_forall _ _) Hl w Hw) as (? & ? & Ha).
      split_and!; try done; try lia. destruct (Z.lt_ge_cases w m); [|lia].
      rewrite Hno in Ha by lia. done. }
    destruct (decide (m ∈ x :: l)) as [Hin|Hni].
    - apply elem_of_Permutation in Hin as [l' Hp]. exists l'.
      assert (Hlen : length (x :: l) = S (length l')) by (by rewrite Hp).
      rewrite Hp in Hd. apply List.NoDup_cons_iff in Hd as [Hnm Hd]. rewrite <- list_elem_of_In in Hnm.
      split_and!; [simpl in *; lia|done|]. apply list.Forall_forall. intros w Hw.
      apply Habove; [rewrite Hp; by apply list_elem_of_further|by intros ->].
    - exists (x :: l). split_and!; [simpl in *; lia|done|].
      apply list.Forall_forall. intros w Hw. apply Habove; [done|by intros ->]. }
  destruct Hrest as (l' & Hn' & Hd' & Hl').
  destruct (IH m l' Hn' Hd' Hl') as (ws & Hws & Hf & Hb).
  exists (m :: ws). split_and!; [simpl; lia| |constructor; [lia|done]].
  split_and!; try done; lia.
Qed.

(** So the search ends with them: tries up to the largest accepted number are
    enough. *)
Lemma proof_of_work_found bcrypt_hashpw salt_ password_suffix_ max_hash_value_ fuel l :
  terminated bcrypt_hashpw -> zlen password_suffix_ <= 62 -> List.NoDup l ->
  Forall (fun w => 0 < w <= Z.of_nat fuel /\ w < 2 ^ 32 /\
    accepted bcrypt_hashpw salt_ password_suffix_ max_hash_value_ w = true) l ->
  exists ws, first_accepted bcrypt_hashpw salt_ password_suffix_ max_hash_value_ 0 ws /\
    ComputeProofOfWork bcrypt_hashpw salt_ password_suffix_ max_hash_value_ fuel (zlen l)
    = Some (Defined ws).
Proof.
  intros T L Hd Hl.
  destruct (first_accepted_exists _ _ _ _ _ (length l) 0 l ltac:(lia) Hd Hl) as (ws & Hws & Hf & Hb).
  exists ws. split; [done|]. unfold ComputeProofOfWork, zlen. rewrite Nat2Z.id, <- Hws.
  by apply (pool_spec _ _ _ _ fuel ws 0).
Qed.

(** The proof of work is complete and honest: whenever the first
    [pool_size_] numbers whose hash does not exceed the limit are [ws], in
    increasing order from 1 on, the search returns exactly [ws]; as many tries
    per entry as the largest of them are enough. *)
Theorem proof_of_work_first bcrypt_hashpw salt_ password_suffix_ max_hash_value_ fuel ws :
  terminated bcrypt_hashpw -> zlen password_suffix_ <= 62 ->
  first_accepted bcrypt_hashpw salt_ password_suffix_ max_hash_value_ 0 ws ->
  Forall (fun w => w <= Z.of_nat fuel) ws ->
  ComputeProofOfWork bcrypt_hashpw salt_ password_suffix_ max_hash_value_ fuel (zlen ws)
  = Some (Defined ws).
Proof.
  intros T L A F. unfold ComputeProofOfWork, zlen. rewrite Nat2Z.id.
  by apply (pool_spec _ _ _ _ fuel ws 0).
Qed.

(** A hash function that copies the digits of the password that are not zero. *)
Definition toy_hash (pass salt : bytes) : bytes := List.filter (fun b => negb (b =? 0)) pass ++ [0].

Lemma toy_terminated : terminated toy_hash.
Proof.
  intros pass salt. exists (List.filter (fun b => negb (b =? 0)) pass), []. split; [done|].
  apply List.Forall_forall. intros b Hb. apply filter_In in Hb as [_ Hb].
  by apply negb_true_iff, Z.eqb_neq in Hb.
Qed.

Lemma proof_of_work_first_witness :
  ComputeProofOfWork toy_hash [] [120] 1200000000 5 4 = Some (Defined [1; 2; 3; 5]).
Proof.
  apply (proof_of_work_first toy_hash [] [120] 1200000000 5 [1; 2; 3; 5]).
  - exact toy_terminated.
  - zeval.
  - repeat (split; [split; reflexivity|split; [vm_compute; reflexivity|split; [|]]]); try exact I;
      intros j Hj; try lia. assert (j = 4) as -> by lia. vm_compute. reflexivity.
  - repeat constructor; simpl; lia.
Defined.

End PoWProperties.
