(* ===== verification/Crypto.v ===== *)
(** * Encryption of streams ([aether/crypto/], [aether/server_keys.*],
      [aether/stream_api/crypto_stream.*])

    Nonces, the keys of a server, the symmetric encryption of packets with
    ChaCha20-Poly1305 and the gate that encrypts a stream.  The cipher is
    libsodium's: its functions and constants are parameters, with the behaviour
    its documentation promises as hypotheses where a theorem needs it.  A
    failed assertion and an unsigned size that wraps are [Undefined]. *)

From S2P Require Import Prelude BufferGate Streams.

Module Nonce.

(** [CryptoNonceChacha20Poly1305::Next]: the first eight bytes are the object
    representation of a 64-bit integer, which is assigned [+1]. *)
Definition Next (nonce : bytes) : bytes := le_bytes 8 1 ++ drop 8 nonce.

End Nonce.

Module ServerKeys.
Section keys.
Context {Key : Type}.
Variable CryptoSyncKeyDerive : Key -> Z -> Z -> option (Key * Key).

Record ServerKeys := {
  server_id_ : Z;
  master_key_ : Key;
  key_number_ : Z;
  nonce_ : bytes;
  client_to_server_key_ : Key;
  server_to_client_key_ : Key;
}.

(** The constructor; [raw] is what the uninitialised array holds. *)
Definition make (raw : bytes) (server_id : Z) (master_key : Key) : outcome ServerKeys :=
  match CryptoSyncKeyDerive master_key server_id 0 with
  | Some (c2s, s2c) =>
      Defined {| server_id_ := server_id; master_key_ := master_key; key_number_ := 0;
                 nonce_ := Nonce.Next raw; client_to_server_key_ := c2s;
                 server_to_client_key_ := s2c |}
  | None => Undefined
  end.

(** [ServerKeys::Next] *)
Definition keys_next (k : ServerKeys) : ServerKeys :=
  {| server_id_ := server_id_ k; master_key_ := master_key_ k; key_number_ := key_number_ k;
     nonce_ := Nonce.Next (nonce_ k); client_to_server_key_ := client_to_server_key_ k;
     server_to_client_key_ := server_to_client_key_ k |}.

(** [ClientKeyProvider::Nonce] *)
Definition provider_nonce (k : ServerKeys) : ServerKeys * bytes :=
  let k := keys_next k in (k, nonce_ k).

End keys.
End ServerKeys.

Module Cipher.
Import ServerKeys.
Section cipher.
Context {Key : Type}.

(** [crypto_aead_chacha20poly1305_NPUBBYTES], [..._ABYTES], [..._encrypt] and
    [..._decrypt], the latter without a result when the data is not
    authentic. *)
Variable kNonceSize ABYTES : nat.
Variable aead_encrypt : Key -> bytes -> bytes -> bytes.
Variable aead_decrypt : Key -> bytes -> bytes -> option bytes.

(** The nonce is added to the end of the ciphertext. *)
Definition EncryptWithSymmetric (secret_key : Key) (nonce raw_data : bytes) : bytes :=
  aead_encrypt secret_key nonce raw_data ++ nonce.

Definition DecryptWithSymmetric (secret_key : Key) (encrypted_data : bytes) : outcome bytes :=
  if (kNonceSize <? length encrypted_data)%nat
  then
    let encrypted_data_size := (length encrypted_data - kNonceSize)%nat in
    let nonce := drop encrypted_data_size encrypted_data in
    if (encrypted_data_size <? ABYTES)%nat then Undefined
    else
      match aead_decrypt secret_key nonce (take encrypted_data_size encrypted_data) with
      | Some decrypted_data => Defined decrypted_data
      | None => Undefined
      end
  else Undefined.

Definition EncryptOverhead : Z := Z.of_nat ABYTES + Z.of_nat kNonceSize.

(** [SodiumSyncEncryptProvider::Encrypt] with the client's key provider. *)
Definition Encrypt (k : @ServerKeys Key) (data : bytes) : @ServerKeys Key * bytes :=
  let '(k, nonce) := provider_nonce k in
  (k, EncryptWithSymmetric (client_to_server_key_ k) nonce data).

(** [SodiumSyncDecryptProvider::Decrypt] at the server, with the same key. *)
Definition Decrypt (key : Key) (data : bytes) : outcome bytes := DecryptWithSymmetric key data.

(** [CryptoGate::Write], [CryptoGate::OnOutData] and
    [CryptoGate::stream_info]. *)
Definition crypto_write (k : @ServerKeys Key) (buffer : bytes) : @ServerKeys Key * bytes :=
  Encrypt k buffer.

Definition crypto_out_data (key : Key) (buffer : bytes) : outcome bytes := Decrypt key buffer.

Definition crypto_stream_info (out_info : StreamInfo) : StreamInfo :=
  less_overhead EncryptOverhead out_info.

(** Packets written one after the other. *)
Fixpoint write_all (k : @ServerKeys Key) (ds : list bytes) : list bytes :=
  match ds with
  | [] => []
  | d :: ds => let '(k, p) := crypto_write k d in p :: write_all k ds
  end.

(** What libsodium documents. *)
Definition authentic : Prop :=
  forall key nonce data, length nonce = kNonceSize ->
    length (aead_encrypt key nonce data) = (length data + ABYTES)%nat /\
    aead_decrypt key nonce (aead_encrypt key nonce data) = Some data.

End cipher.
End Cipher.

Module CryptoProperties.
Import Nonce ServerKeys Cipher.

Section lemmas.
Context {Key : Type} (kNonceSize ABYTES : nat).
Context (aead_encrypt : Key -> bytes -> bytes -> bytes).
Context (aead_decrypt : Key -> bytes -> bytes -> option bytes).

Lemma Next_length nonce : (8 <= length nonce)%nat -> length (Next nonce) = length nonce.
Proof. intros. unfold Next. rewrite length_app, length_le_bytes, length_drop. lia. Qed.

Lemma Next_idem nonce : Next (Next nonce) = Next nonce.
Proof. done. Qed.

Lemma Decrypt_Encrypt key nonce data :
  authentic kNonceSize ABYTES aead_encrypt aead_decrypt ->
  length nonce = kNonceSize -> data <> [] \/ (0 < ABYTES)%nat ->
  DecryptWithSymmetric kNonceSize ABYTES aead_decrypt key
    (EncryptWithSymmetric aead_encrypt key nonce data) = Defined data.
Proof.
  intros A N P. destruct (A key nonce data N) as [L D].
  unfold DecryptWithSymmetric, EncryptWithSymmetric. rewrite length_app, L, N.
  destruct (Nat.ltb_spec kNonceSize (length data + ABYTES + kNonceSize)).
  2: { destruct P as [P|P]; [destruct data; [done|simpl in *; lia]|lia]. }
  replace (length data + ABYTES + kNonceSize - kNonceSize)%nat with (length data + ABYTES)%nat by lia.
  destruct (Nat.ltb_spec (length data + ABYTES) ABYTES); [lia|].
  rewrite <- L, drop_app_length, take_app_length. by rewrite D.
Qed.

End lemmas.

(** What one side encrypts the other side decrypts: for any sequence of
    packets every one of them is restored, whatever the keys and the state of
    the nonce. *)
Theorem crypto_roundtrip {Key} kNonceSize ABYTES aead_encrypt aead_decrypt
    (k : @ServerKeys Key) ds :
  authentic kNonceSize ABYTES aead_encrypt aead_decrypt ->
  (8 <= kNonceSize)%nat -> (0 < ABYTES)%nat -> length (nonce_ k) = kNonceSize ->
  map (crypto_out_data kNonceSize ABYTES aead_decrypt (client_to_server_key_ k))
      (write_all aead_encrypt k ds) = map Defined ds.
Proof.
  intros A K P. revert k; induction ds as [|d ds IH]; intros k L; [done|].
  cbn [write_all crypto_write Encrypt provider_nonce map].
  assert (length (nonce_ (keys_next k)) = kNonceSize) as L'
    by (cbn [nonce_ keys_next]; rewrite Next_length; lia).
  f_equal; [|by apply (IH (keys_next k))].
  apply Decrypt_Encrypt; [done|done|by right].
Qed.

(** A cipher that authenticates with the length of the key's tag and hides
    nothing. *)
Definition toy_encrypt (key : Z) (nonce data : bytes) : bytes := data ++ [key].
Definition toy_decrypt (key : Z) (nonce cipher : bytes) : option bytes :=
  match back cipher with
  | Some k => if k =? key then Some (take (length cipher - 1) cipher) else None
  | None => None
  end.

Lemma toy_authentic n : authentic n 1 toy_encrypt toy_decrypt.
Proof.
  intros key nonce data _. unfold toy_encrypt, toy_decrypt. split; [by rewrite length_app|].
  rewrite back_snoc, Z.eqb_refl, length_app, Nat.add_sub. by rewrite take_app_length.
Qed.

Definition toy_keys : @ServerKeys Z :=
  {| server_id_ := 1; master_key_ := 5; key_number_ := 0; nonce_ := [9; 9; 9; 9; 9; 9; 9; 9];
     client_to_server_key_ := 6; server_to_client_key_ := 7 |}.

Lemma crypto_roundtrip_witness :
  map (crypto_out_data 8 1 toy_decrypt 6) (write_all toy_encrypt toy_keys [[1; 2]; []])
  = [Defined [1; 2]; Defined []].
Proof.
  apply (crypto_roundtrip 8 1 toy_encrypt toy_decrypt toy_keys [[1; 2]; []]);
    [apply toy_authentic|lia|lia|reflexivity].
Defined.

(** Every packet is encrypted with the same nonce: [Next] assigns the
    constant one instead of incrementing, so the packets of a session are the
    encryptions of the data under one key and one fixed nonce. *)
Theorem nonce_reused {Key} (aead_encrypt : Key -> bytes -> bytes -> bytes)
    (k : @ServerKeys Key) ds :
  write_all aead_encrypt k ds =
  map (EncryptWithSymmetric aead_encrypt (client_to_server_key_ k) (Next (nonce_ k))) ds.
Proof.
  revert k; induction ds as [|d ds IH]; intros k; [done|].
  cbn [write_all crypto_write Encrypt provider_nonce map]. f_equal.
  rewrite (IH (keys_next k)). cbn [nonce_ keys_next client_to_server_key_]. by rewrite Next_idem.
Qed.

(** With a nonce of eight bytes it is the same for all sessions of all
    clients. *)
Lemma nonce_constant nonce : length nonce = 8%nat -> Next nonce = le_bytes 8 1.
Proof. intros L. unfold Next. rewrite drop_ge by lia. by rewrite app_nil_r. Qed.

(** An encrypted packet fits into an element of the gate behind when the
    data has at most the advertised [max_element_size]. *)
Theorem crypto_packet_fits {Key} kNonceSize ABYTES aead_encrypt aead_decrypt
    (k : @ServerKeys Key) data out_info :
  authentic kNonceSize ABYTES aead_encrypt aead_decrypt ->
  (8 <= kNonceSize)%nat -> length (nonce_ k) = kNonceSize ->
  EncryptOverhead kNonceSize ABYTES < max_element_size out_info ->
  zlen data <= max_element_size (crypto_stream_info kNonceSize ABYTES out_info) ->
  zlen (crypto_write aead_encrypt k data).2 <= max_element_size out_info.
Proof.
  intros A K L O D. unfold crypto_stream_info, less_overhead in D. cbn [max_element_size] in D.
  rewrite (proj2 (Z.gtb_lt _ _) O) in D.
  cbn [crypto_write Encrypt provider_nonce snd nonce_ keys_next client_to_server_key_].
  unfold EncryptWithSymmetric, EncryptOverhead in *.
  assert (length (Next (nonce_ k)) = kNonceSize) as N by (rewrite Next_length; lia).
  destruct (A (client_to_server_key_ k) (Next (nonce_ k)) data N) as [E _].
  rewrite zlen_app. unfold zlen in *. rewrite E, N. lia.
Qed.

Lemma crypto_packet_fits_witness :
  zlen (crypto_write toy_encrypt toy_keys [1; 2; 3]).2 <= 12.
Proof.
  apply (crypto_packet_fits 8 1 toy_encrypt toy_decrypt toy_keys [1; 2; 3]
    {| max_element_size := 12; is_linked := true; is_writeble := true; is_soft_writable := true |});
  [apply toy_authentic|lia|reflexivity|zeval|zeval].
Defined.

End CryptoProperties.
