(* ===== verification/Ptr.v ===== *)
(** * Reference-counted pointers that collect cycles

    [obj/ptr_management.*], [obj/ptr.h], [obj/ptr_view.h], [obj/domain_tree.h]
    and [obj/obj_ptr.h]: the shared manager of an object with its two 16-bit
    counters, [SharedPointer], [Ptr] and [PtrView], and the walk over the object
    graph by which [Ptr::Reset] decides whether the object is only held by a
    cycle.

    Managers and objects live in a store.  An object is the list of its [Ptr]
    members in the order of declaration; a pointer that is null is [0].  A
    manager that was deleted is not in the store, and touching it is
    [Undefined]; so is touching a member of a deleted object. *)

From stdpp Require Import gmap.
From S2P Require Import Prelude.

Module Ptr.

(** ** Managers and the store *)

(** [PtrDefaultDeleter] runs the destructor; the lambda of [AllocateObject] only
    gives the memory back. *)
Inductive Deleter := PtrDefaultDeleter | RawDeleter.

Record PointerManager := {
  ref_counter_ : Z;
  manage_counter_ : Z;
  deleter_ : Deleter;
}.

(** [visitor_] is the class whose [Visit] the stored function calls. *)
Record SharedPointer := {
  pointer_manager_ : Z;
  pointer_ : Z;
  visitor_ : Z;
}.

Definition null_pointer : SharedPointer :=
  {| pointer_manager_ := 0; pointer_ := 0; visitor_ := 0 |}.

(** A member of type [Ptr<U>]: where it is, [TypeIndex<Ptr<U>>], [U], and the
    pointer. *)
Record member := {
  m_addr : Z;
  m_index : Z;
  m_type : Z;
  m_ptr : SharedPointer;
}.

Record heap := {
  managers : gmap Z PointerManager;
  objects : gmap Z (list member);
}.

Definition set_manager (h : heap) (m : Z) (pm : PointerManager) : heap :=
  {| managers := <[m := pm]> (managers h); objects := objects h |}.

Definition delete_manager (h : heap) (m : Z) : heap :=
  {| managers := delete m (managers h); objects := objects h |}.

Definition set_object (h : heap) (a : Z) (ms : list member) : heap :=
  {| managers := managers h; objects := <[a := ms]> (objects h) |}.

Definition delete_object (h : heap) (a : Z) : heap :=
  {| managers := managers h; objects := delete a (objects h) |}.

(** ** PointerRefManager and PointerManager *)

Definition manager (h : heap) (m : Z) : outcome PointerManager :=
  match managers h !! m with Some pm => Defined pm | None => Undefined end.

Definition ref_counter (h : heap) (m : Z) : outcome Z :=
  let* pm := manager h m in Defined (ref_counter_ pm).

Definition manage_counter (h : heap) (m : Z) : outcome Z :=
  let* pm := manager h m in Defined (manage_counter_ pm).

Definition Increment (h : heap) (m count : Z) : outcome heap :=
  let* pm := manager h m in
  Defined (set_manager h m {| ref_counter_ := wrap 16 (ref_counter_ pm + count);
                              manage_counter_ := manage_counter_ pm;
                              deleter_ := deleter_ pm |}).

Definition IncrementManage (h : heap) (m count : Z) : outcome heap :=
  let* pm := manager h m in
  Defined (set_manager h m {| ref_counter_ := ref_counter_ pm;
                              manage_counter_ :=
                                wrap 16 (manage_counter_ pm + count);
                              deleter_ := deleter_ pm |}).

Definition Decrement (h : heap) (m count : Z) : outcome heap :=
  let* pm := manager h m in
  Defined (set_manager h m {| ref_counter_ := wrap 16 (ref_counter_ pm - count);
                              manage_counter_ := manage_counter_ pm;
                              deleter_ := deleter_ pm |}).

Definition DecrementManage (h : heap) (m count : Z) : outcome heap :=
  let* pm := manager h m in
  Defined (set_manager h m {| ref_counter_ := ref_counter_ pm;
                              manage_counter_ :=
                                wrap 16 (manage_counter_ pm - count);
                              deleter_ := deleter_ pm |}).

Definition ReplaceDeleter (h : heap) (m : Z) (d : Deleter) : outcome heap :=
  let* pm := manager h m in
  Defined (set_manager h m {| ref_counter_ := ref_counter_ pm;
                              manage_counter_ := manage_counter_ pm;
                              deleter_ := d |}).

(** ** SharedPointer *)

(** [m] is what [new (std::nothrow)] returned for the manager. *)
Definition SharedPointer_new (h : heap) (m p v : Z) (d : Deleter)
    : outcome (heap * SharedPointer) :=
  let sp := {| pointer_manager_ := m; pointer_ := p; visitor_ := v |} in
  if m =? 0 then Defined (h, sp) else
  let h1 := set_manager h m {| ref_counter_ := 0; manage_counter_ := 0;
                               deleter_ := d |} in
  let* h2 := IncrementManage h1 m 1 in Defined (h2, sp).

Definition SharedPointer_copy (h : heap) (other : SharedPointer)
    : outcome (heap * SharedPointer) :=
  if pointer_manager_ other =? 0 then Defined (h, other) else
  let* h1 := IncrementManage h (pointer_manager_ other) 1 in
  Defined (h1, other).

(** The new pointer and what is left of [other]. *)
Definition SharedPointer_move (other : SharedPointer)
    : SharedPointer * SharedPointer :=
  (other, {| pointer_manager_ := 0; pointer_ := 0; visitor_ := visitor_ other |}).

Definition SharedPointer_Leak (h : heap) (sp : SharedPointer)
    : outcome (heap * SharedPointer) :=
  if pointer_manager_ sp =? 0 then Defined (h, null_pointer) else
  let* h1 := DecrementManage h (pointer_manager_ sp) 1 in
  Defined (h1, null_pointer).

(** The pointer itself is not changed; this is also the destructor. *)
Definition SharedPointer_Reset (h : heap) (sp : SharedPointer) : outcome heap :=
  if pointer_manager_ sp =? 0 then Defined h else
  let* h1 := DecrementManage h (pointer_manager_ sp) 1 in
  let* c := manage_counter h1 (pointer_manager_ sp) in
  if c =? 0 then Defined (delete_manager h1 (pointer_manager_ sp))
  else Defined h1.

(** [operator=] for [this != &other]. *)
Definition SharedPointer_assign (h : heap) (this other : SharedPointer)
    : outcome (heap * SharedPointer) :=
  let* h1 := SharedPointer_Reset h this in
  if pointer_manager_ other =? 0 then Defined (h1, other) else
  let* h2 := IncrementManage h1 (pointer_manager_ other) 1 in
  Defined (h2, other).

Definition SharedPointer_move_assign (h : heap) (this other : SharedPointer)
    : outcome (heap * SharedPointer * SharedPointer) :=
  let* h1 := SharedPointer_Reset h this in Defined (h1, other, null_pointer).

(** ** CycleDetector

    [ObjEntry::operator<] orders entries by the sum of type index and address,
    so the set of visited objects is a set of these sums. *)

Definition entry (type_index ptr : Z) : Z := type_index + ptr.

Definition IsVisited (visited : gset Z) (type_index ptr : Z) : bool :=
  bool_decide (entry type_index ptr ∈ visited).

Definition Add (visited : gset Z) (type_index ptr : Z) : gset Z :=
  {[entry type_index ptr]} ∪ visited.

(** ** RefTree *)

Record RefTree := {
  ref_count : Z;
  reachable_ref_count : Z;
  children : list Z;
}.

Definition new_RefTree (count : Z) : RefTree :=
  {| ref_count := count; reachable_ref_count := 0; children := [] |}.

Abbreviation obj_map := (gmap Z RefTree).

(** The search for [p] below [this]; the set of visited nodes is one object for
    the whole search.  The fuel bounds the depth of the recursion. *)
Fixpoint IsReachable (n : nat) (om : obj_map) (p : Z) (visited : gset Z)
    (this : Z) : outcome (bool * gset Z) :=
  match n, om !! this with
  | S n', Some rt =>
      (fix loop (cs : list Z) (visited : gset Z) :=
         match cs with
         | [] => Defined (false, visited)
         | c :: cs' =>
             if c =? p then Defined (true, visited)
             else if bool_decide (c ∈ visited) then loop cs' visited
             else
               let* (r, visited') := IsReachable n' om p visited c in
               if r then Defined (true, visited') else loop cs' visited'
         end) (children rt) ({[this]} ∪ visited)
  | _, _ => Undefined
  end.

(** ** Ptr: the walk over the objects *)

(** [get] *)
Definition get (h : heap) (sp : SharedPointer) : outcome Z :=
  if pointer_manager_ sp =? 0 then Defined 0 else
  let* c := ref_counter h (pointer_manager_ sp) in
  Defined (if c =? 0 then 0 else pointer_ sp).

Definition IncrementRef (h : heap) (sp : SharedPointer) : outcome heap :=
  if pointer_manager_ sp =? 0 then Defined h
  else Increment h (pointer_manager_ sp) 1.

Definition DecrementRef (h : heap) (sp : SharedPointer) (count : Z)
    : outcome heap :=
  if pointer_manager_ sp =? 0 then Defined h
  else Decrement h (pointer_manager_ sp) count.

Record walk := {
  visited_objects_ : gset Z;
  obj_map_ : obj_map;
}.

Definition mark (w : walk) (type_index ptr : Z) : walk :=
  {| visited_objects_ := Add (visited_objects_ w) type_index ptr;
     obj_map_ := obj_map_ w |}.

(** [try_emplace] and the increment of the count. *)
Definition count_reference (om : obj_map) (p count : Z) : obj_map :=
  let rt := default (new_RefTree count) (om !! p) in
  <[p := {| ref_count := ref_count rt;
            reachable_ref_count := wrap 32 (reachable_ref_count rt + 1);
            children := children rt |}]> om.

(** [obj_references_.insert] *)
Definition add_child (om : obj_map) (owner p : Z) : obj_map :=
  alter (fun rt => {| ref_count := ref_count rt;
                      reachable_ref_count := reachable_ref_count rt;
                      children := if bool_decide (p ∈ children rt)
                                  then children rt else children rt ++ [p] |})
        owner om.

Section Walk.
(** The [Visit] method of a class: the [Ptr] members it presents of an object,
    in containers and nested structures too; [None] for a class without one. *)
Variable Visit : Z -> list member -> option (list member).
Variable h : heap.

(** [RefCounterVisitor::operator()], then [ExplicitVisitPolicy::Visit] and
    [Ptr::Visit] for the pointer, which goes on to the object it refers to. *)
Definition visit_ptr (VisitNode : Z -> Z -> walk -> outcome walk) (owner : Z)
    (w : walk) (f : member) : outcome walk :=
  let* p := get h (m_ptr f) in
  if p =? 0 then Defined w else
  let* c := ref_counter h (pointer_manager_ (m_ptr f)) in
  let w1 := {| visited_objects_ := visited_objects_ w;
               obj_map_ :=
                 add_child (count_reference (obj_map_ w) p c) owner p |} in
  if IsVisited (visited_objects_ w1) (m_index f) (m_addr f) then Defined w1
  else VisitNode (visitor_ (m_ptr f)) p (mark w1 (m_index f) (m_addr f)).

Fixpoint visit_members (VisitNode : Z -> Z -> walk -> outcome walk) (owner : Z)
    (fs : list member) (w : walk) : outcome walk :=
  match fs with
  | [] => Defined w
  | f :: fs' =>
      let* w1 := visit_ptr VisitNode owner w f in
      visit_members VisitNode owner fs' w1
  end.

(** [DomainNodeVisitor::VisitNode] and [ExplicitVisitPolicy::Visit] for an
    object of class [T] at [a]; its references go to its own node. *)
Fixpoint VisitNode (n : nat) (T a : Z) (w : walk) : outcome walk :=
  match n with
  | O => Undefined
  | S n' =>
      match objects h !! a with
      | None => Undefined
      | Some ms =>
          match Visit T ms with
          | None => Defined w
          | Some fs =>
              if IsVisited (visited_objects_ w) T a then Defined w
              else visit_members (VisitNode n') a fs (mark w T a)
          end
      end
  end.

(** The walk that starts at the object of the pointer. *)
Definition walk_from (T ptr count : Z) : outcome walk :=
  VisitNode (S (size (objects h))) T ptr
    {| visited_objects_ := ∅;
       obj_map_ := {[ptr := {| ref_count := count; reachable_ref_count := 1;
                               children := [] |}]} |}.

(** The test of one entry of the map. *)
Definition blocks_delete (om : obj_map) (ptr o : Z) (ref : RefTree)
    : outcome bool :=
  if o =? ptr then Defined (negb (ref_count ref =? reachable_ref_count ref))
  else if reachable_ref_count ref <? ref_count ref then
    let* (r, _) := IsReachable (S (size om)) om ptr ∅ o in Defined r
  else Defined false.

Fixpoint safe_to_delete (om : obj_map) (ptr : Z) (l : list (Z * RefTree))
    : outcome bool :=
  match l with
  | [] => Defined true
  | (o, ref) :: l' =>
      let* b := blocks_delete om ptr o ref in
      if b then Defined false else safe_to_delete om ptr l'
  end.

Definition DecrementGraph (T : Z) (sp : SharedPointer) : outcome heap :=
  let* c := ref_counter h (pointer_manager_ sp) in
  match objects h !! pointer_ sp with
  | None => Undefined
  | Some ms =>
      match Visit T ms with
      | None => DecrementRef h sp 1
      | Some _ =>
          let* w := walk_from T (pointer_ sp) c in
          let* safe := safe_to_delete (obj_map_ w) (pointer_ sp)
                                      (map_to_list (obj_map_ w)) in
          DecrementRef h sp (if safe then c else 1)
      end
  end.
End Walk.

(** ** Ptr: life cycle *)

Section Life.
Variable Visit : Z -> list member -> option (list member).

(** [PointerManager::Delete]: the destructor of the object destroys its members
    in reverse order. *)
Definition Delete (destroy : member -> heap -> outcome heap) (h : heap) (m p : Z)
    : outcome heap :=
  let* pm := manager h m in
  match objects h !! p with
  | None => Undefined
  | Some ms =>
      match deleter_ pm with
      | RawDeleter => Defined (delete_object h p)
      | PtrDefaultDeleter =>
          fold_left (fun r f => let* h1 := r in destroy f h1) (rev ms)
                    (Defined (delete_object h p))
      end
  end.

(** [Ptr<T>::Reset].  The fuel bounds the nesting of deletions. *)
Fixpoint Reset (n : nat) (T : Z) (h : heap) (sp : SharedPointer)
    : outcome heap :=
  match n with
  | O => Undefined
  | S n' =>
      if pointer_manager_ sp =? 0 then Defined h else
      let* c := ref_counter h (pointer_manager_ sp) in
      if c =? 0 then Defined h else
      if pointer_ sp =? 0 then Defined h else
      let* h1 := (if c =? 1 then DecrementRef h sp 1
                  else DecrementGraph Visit h T sp) in
      let* c1 := ref_counter h1 (pointer_manager_ sp) in
      if c1 =? 0 then
        Delete (fun f h2 => let* h3 := Reset n' (m_type f) h2 (m_ptr f) in
                            SharedPointer_Reset h3 (m_ptr f))
               h1 (pointer_manager_ sp) (pointer_ sp)
      else Defined h1
  end.

(** [~Ptr] *)
Definition Ptr_destroy (n : nat) (T : Z) (h : heap) (sp : SharedPointer)
    : outcome heap :=
  let* h1 := Reset n T h sp in SharedPointer_Reset h1 sp.

(** [explicit operator bool] *)
Definition Ptr_bool (sp : SharedPointer) : bool := negb (pointer_ sp =? 0).

(** [operator==] *)
Definition Ptr_eq (h : heap) (p1 p2 : SharedPointer) : outcome bool :=
  let* a := get h p1 in let* b := get h p2 in Defined (a =? b).

(** [Ptr(T* ptr, Deleter)], the manager being the new object [m]. *)
Definition Ptr_new (h : heap) (m ptr T : Z) (d : Deleter)
    : outcome (heap * SharedPointer) :=
  let* (h1, sp) := SharedPointer_new h m ptr T d in
  let* h2 := IncrementRef h1 sp in Defined (h2, sp).

Definition Ptr_copy (h : heap) (ptr : SharedPointer)
    : outcome (heap * SharedPointer) :=
  let* (h1, sp) := SharedPointer_copy h ptr in
  let* h2 := IncrementRef h1 sp in Defined (h2, sp).

(** The new pointer and what is left of [ptr]. *)
Definition Ptr_move (h : heap) (ptr : SharedPointer)
    : outcome (heap * SharedPointer * SharedPointer) :=
  let (sp, rest) := SharedPointer_move ptr in
  let* (h1, rest') := SharedPointer_Leak h rest in Defined (h1, sp, rest').

(** The private constructor; its argument is a copy that is moved from and
    destroyed. *)
Definition Ptr_of_shared (h : heap) (shared : SharedPointer)
    : outcome (heap * SharedPointer) :=
  let* (h1, arg) := SharedPointer_copy h shared in
  let (sp, arg') := SharedPointer_move arg in
  let* h2 := IncrementRef h1 sp in
  let* h3 := SharedPointer_Reset h2 arg' in Defined (h3, sp).

Definition Cast (h : heap) (this : SharedPointer) : outcome (heap * SharedPointer) :=
  Ptr_of_shared h this.

(** The new pointer and what is left of [this]. *)
Definition MoveCast (h : heap) (this : SharedPointer)
    : outcome (heap * SharedPointer * SharedPointer) :=
  let* (h1, ptr) := Ptr_of_shared h this in
  let* h2 := DecrementRef h1 this 1 in
  let* (h3, this') := SharedPointer_Leak h2 this in Defined (h3, ptr, this').

(** Where the argument of an assignment is: a variable, or a member of an
    object.  It is read after [Reset] has run. *)
Inductive place := Variable_ (sp : SharedPointer) | Member_ (a : Z) (k : nat).

Definition read_place (h : heap) (l : place) : outcome SharedPointer :=
  match l with
  | Variable_ sp => Defined sp
  | Member_ a k =>
      match objects h !! a with
      | None => Undefined
      | Some ms => match ms !! k with
                   | Some f => Defined (m_ptr f)
                   | None => Undefined
                   end
      end
  end.

Definition write_member (f : member) (sp : SharedPointer) : member :=
  {| m_addr := m_addr f; m_index := m_index f; m_type := m_type f; m_ptr := sp |}.

(** A moved-from member becomes null in its object. *)
Definition clear (h : heap) (l : place) : heap :=
  match l with
  | Variable_ _ => h
  | Member_ a k =>
      match objects h !! a with
      | None => h
      | Some ms => set_object h a (alter (fun f => write_member f null_pointer) k ms)
      end
  end.

(** [operator=(Ptr const&)] for [this != &ptr]: the store and the new value. *)
Definition Ptr_assign (n : nat) (T : Z) (h : heap) (this : SharedPointer)
    (ptr : place) : outcome (heap * SharedPointer) :=
  let* h1 := Reset n T h this in
  let* other := read_place h1 ptr in
  let* (h2, sp) := SharedPointer_assign h1 this other in
  let* h3 := IncrementRef h2 sp in Defined (h3, sp).

(** [operator=(Ptr&&)] for [this != &ptr]. *)
Definition Ptr_move_assign (n : nat) (T : Z) (h : heap) (this : SharedPointer)
    (ptr : place) : outcome (heap * SharedPointer) :=
  let* h1 := Reset n T h this in
  let* other := read_place h1 ptr in
  let* (h2, sp, _) := SharedPointer_move_assign h1 this other in
  Defined (clear h2 ptr, sp).

(** [operator=] of a raw pointer: a new pointer is made and moved into this
    one. *)
Definition Ptr_assign_raw (n : nat) (T : Z) (h : heap) (this : SharedPointer)
    (m ptr : Z) : outcome (heap * SharedPointer) :=
  let* h1 := Reset n T h this in
  let* (h2, tmp) := SharedPointer_new h1 m ptr T PtrDefaultDeleter in
  let* (h3, sp, tmp') := SharedPointer_move_assign h2 this tmp in
  let* h4 := SharedPointer_Reset h3 tmp' in
  let* h5 := IncrementRef h4 sp in Defined (h5, sp).

(** [operator=(Ptr<U> const&)] and [operator=(Ptr<U>&&)]: the assignment from the
    temporary pointer that [Cast] or [MoveCast] returns, which is destroyed. *)
Definition Ptr_assign_cast (n : nat) (T : Z) (h : heap) (this other : SharedPointer)
    : outcome (heap * SharedPointer) :=
  let* (h1, tmp) := Cast h other in
  let* (h2, sp) := Ptr_move_assign n T h1 this (Variable_ tmp) in
  let* h3 := Ptr_destroy n T h2 null_pointer in Defined (h3, sp).

Definition Ptr_move_assign_cast (n : nat) (T : Z) (h : heap)
    (this other : SharedPointer) : outcome (heap * SharedPointer * SharedPointer) :=
  let* (h1, tmp, other') := MoveCast h other in
  let* (h2, sp) := Ptr_move_assign n T h1 this (Variable_ tmp) in
  let* h3 := Ptr_destroy n T h2 null_pointer in Defined (h3, sp, other').

(** ** PtrView *)

Definition View_bool (h : heap) (view : SharedPointer) : outcome bool :=
  if pointer_manager_ view =? 0 then Defined false else
  let* c := ref_counter h (pointer_manager_ view) in Defined (negb (c =? 0)).

(** [PtrView(Ptr<U> const&)] and the copy constructor. *)
Definition View_of (h : heap) (ptr : SharedPointer)
    : outcome (heap * SharedPointer) := SharedPointer_copy h ptr.

(** The move constructor copies and then leaks. *)
Definition View_move (h : heap) (view : SharedPointer)
    : outcome (heap * SharedPointer * SharedPointer) :=
  let* (h1, sp) := SharedPointer_copy h view in
  let* (h2, view') := SharedPointer_Leak h1 view in Defined (h2, sp, view').

Definition View_Reset (h : heap) (view : SharedPointer)
    : outcome (heap * SharedPointer) :=
  let* (h1, sp, _) := SharedPointer_move_assign h view null_pointer in
  Defined (h1, sp).

(** The assignments, for [this != &ptr_view]. *)
Definition View_assign (h : heap) (this other : SharedPointer)
    : outcome (heap * SharedPointer) :=
  let* (h1, this1) := View_Reset h this in SharedPointer_assign h1 this1 other.

Definition View_move_assign (h : heap) (this other : SharedPointer)
    : outcome (heap * SharedPointer * SharedPointer) :=
  let* (h1, this1) := View_Reset h this in
  let* (h2, sp) := SharedPointer_assign h1 this1 other in
  let* (h3, other') := SharedPointer_Leak h2 other in Defined (h3, sp, other').

Definition Lock (h : heap) (view : SharedPointer)
    : outcome (heap * SharedPointer) :=
  let* b := View_bool h view in
  if b then Ptr_of_shared h view else Defined (h, null_pointer).

(** ** ObjPtr and MakePtr *)

(** [MakePtr]: the object at [a] with its members, then the pointer; the object
    is deleted when the pointer is null.  [a] and [m] come from the allocator. *)
Definition MakePtr (h : heap) (a m T : Z) (ms : list member)
    : outcome (heap * SharedPointer) :=
  let h1 := set_object h a ms in
  let* (h2, ptr) := Ptr_new h1 m a T PtrDefaultDeleter in
  if Ptr_bool ptr then Defined (h2, ptr) else Defined (delete_object h2 a, ptr).

(** [AllocateObject]: memory without members. *)
Definition AllocateObject (h : heap) (a m T : Z) : outcome (heap * SharedPointer) :=
  Ptr_new (set_object h a []) m a T RawDeleter.

(** [InitObject]: the constructor runs in the memory, then the deleter is
    replaced; the pointer is moved through. *)
Definition InitObject (h : heap) (ptr : SharedPointer) (ms : list member)
    : outcome (heap * SharedPointer) :=
  let* (h1, res, _) := Ptr_move h ptr in
  let* place := get h1 res in
  if place =? 0 then Undefined else
  let h2 := set_object h1 place ms in
  let* h3 := ReplaceDeleter h2 (pointer_manager_ res) PtrDefaultDeleter in
  Defined (h3, res).

End Life.

End Ptr.
