(* ===== verification/PtrGraph.v ===== *)
(** * The object graph seen by the walk of a pointer

    The graph of live objects, the walk of [DecrementGraph] over it and the
    search of [RefTree::IsReachable], for a store in which counters and classes
    agree and the cycle detector tells objects apart ([walkable]).  The walk
    ends, counts every reference found in the objects it can reach once, and
    the search decides reachability. *)

From stdpp Require Import gmap.
From S2P Require Import Prelude Ptr.
Import Ptr.

#[local] Set Warnings "-clear-no-such-hyp".

Module PtrGraph.

(** ** The graph *)

(** The live object a pointer refers to, what [get] returns. *)
Definition tgt (h : heap) (sp : SharedPointer) : option Z :=
  if pointer_manager_ sp =? 0 then None else
  pm ← managers h !! pointer_manager_ sp;
  if ref_counter_ pm =? 0 then None else Some (pointer_ sp).

Definition targets (h : heap) (ms : list member) : list Z :=
  omap (fun f => tgt h (m_ptr f)) ms.

Definition members_of (h : heap) (a : Z) : list member :=
  default [] (objects h !! a).

Definition edge (h : heap) (a b : Z) : Prop := b ∈ targets h (members_of h a).

Definition reach (h : heap) : Z -> Z -> Prop := rtc (edge h).

Definition mkey (f : member) : Z := entry (m_index f) (m_addr f).

(** ** What the walk relies on

    [ty] is the class of a live object and [rc] its counter. *)
Record walkable (Visit : Z -> list member -> option (list member))
    (ty rc : Z -> Z) (h : heap) : Prop := {
  walk_member : forall a f, f ∈ members_of h a ->
    pointer_manager_ (m_ptr f) = 0 \/
    exists pm, managers h !! pointer_manager_ (m_ptr f) = Some pm /\
      (ref_counter_ pm <> 0 ->
       is_Some (objects h !! pointer_ (m_ptr f)) /\ pointer_ (m_ptr f) <> 0 /\
       visitor_ (m_ptr f) = ty (pointer_ (m_ptr f)) /\
       rc (pointer_ (m_ptr f)) = ref_counter_ pm);
  walk_visit : forall a ms, objects h !! a = Some ms -> Visit (ty a) ms = Some ms;
  walk_objects : forall a b, is_Some (objects h !! a) ->
    is_Some (objects h !! b) -> entry (ty a) a = entry (ty b) b -> a = b;
  walk_members : forall a b i j f g, members_of h a !! i = Some f ->
    members_of h b !! j = Some g -> mkey f = mkey g -> a = b /\ i = j;
  walk_kinds : forall a b f, is_Some (objects h !! a) -> f ∈ members_of h b ->
    entry (ty a) a <> mkey f;
}.

(** ** The walk *)

Section Walk.
Variable Visit : Z -> list member -> option (list member).
Variables ty rc : Z -> Z.
Variable h : heap.
Hypothesis ok : walkable Visit ty rc h.

Definition okey (a : Z) : Z := entry (ty a) a.

(** A reference from an object to another, as the walk records it. *)
Definition note (om : obj_map) (e : Z * Z) : obj_map :=
  add_child (count_reference om e.2 (rc e.2)) e.1 e.2.

Definition notes (es : list (Z * Z)) (om : obj_map) : obj_map :=
  fold_left note es om.

(** Every reference is recorded in a node that is in the map. *)
Fixpoint owners_ok (es : list (Z * Z)) (om : obj_map) : Prop :=
  match es with
  | [] => True
  | e :: es' => e.1 ∈ dom om /\ owners_ok es' (note om e)
  end.

Definition edges_of (a : Z) : list (Z * Z) :=
  (fun t => (a, t)) <$> targets h (members_of h a).

Definition unvisited (V : gset Z) : nat :=
  size (filter (fun am => okey am.1 ∉ V) (objects h)).

(** What a part of the walk adds: [L] are the objects it visited first, [M] the
    members, [es] the references in the order it met them. *)
Record grows (w w' : walk) (L : list Z) (M : list member)
    (es : list (Z * Z)) : Prop := {
  g_map : obj_map_ w' = notes es (obj_map_ w);
  g_owners : owners_ok es (obj_map_ w);
  g_visited : forall k, k ∈ visited_objects_ w' <->
    k ∈ visited_objects_ w \/ (exists u, u ∈ L /\ k = okey u) \/
    (exists f, f ∈ M /\ k = mkey f);
  g_new : forall u, u ∈ L -> is_Some (objects h !! u) /\
    okey u ∉ visited_objects_ w;
  g_nodup : NoDup L;
  g_closed : forall u t, u ∈ L -> edge h u t -> okey t ∈ visited_objects_ w';
}.

(** Members of an unvisited object are not visited. *)
Definition fresh_members (w : walk) : Prop :=
  forall a f, f ∈ members_of h a -> okey a ∉ visited_objects_ w ->
  mkey f ∉ visited_objects_ w.

Lemma unvisited_mono V V' :
  (forall k, k ∈ V -> k ∈ V') -> (unvisited V' <= unvisited V)%nat.
Proof.
  intros Hs. apply map_subseteq_size, map_subseteq_spec.
  intros a ms. rewrite !map_lookup_filter_Some; simpl. intros [H1 H2].
  split; auto.
Qed.

Lemma unvisited_mark V a :
  is_Some (objects h !! a) -> okey a ∉ V ->
  (unvisited (Add V (ty a) a) < unvisited V)%nat.
Proof.
  intros [ms Ha] HV. apply map_subset_size. apply map_subset_alt. split.
  - apply map_subseteq_spec. intros b mb. rewrite !map_lookup_filter_Some; simpl.
    unfold Add. intros [H1 H2]. split; auto. set_solver.
  - exists a. rewrite map_lookup_filter_None. split.
    + right. intros ? _. simpl. unfold Add, okey. set_solver.
    + exists ms. rewrite map_lookup_filter_Some. auto.
Qed.

Lemma tgt_get sp :
  (pointer_manager_ sp = 0 \/ is_Some (managers h !! pointer_manager_ sp)) ->
  (forall t, tgt h sp = Some t -> t <> 0) ->
  get h sp = Defined (default 0 (tgt h sp)).
Proof.
  unfold get, tgt, ref_counter, manager. intros Hm Ht.
  destruct (pointer_manager_ sp =? 0) eqn:E; [done|].
  destruct Hm as [Hm | [pm Hm]]; [zbool; lia|]. rewrite Hm in *; simpl in *.
  by destruct (ref_counter_ pm =? 0).
Qed.

(** A member with a target: everything the walk reads about it. *)
Lemma member_target a f t :
  f ∈ members_of h a -> tgt h (m_ptr f) = Some t ->
  is_Some (objects h !! t) /\ t <> 0 /\ visitor_ (m_ptr f) = ty t /\
  pointer_ (m_ptr f) = t /\
  ref_counter h (pointer_manager_ (m_ptr f)) = Defined (rc t).
Proof.
  intros Hf. unfold tgt, ref_counter, manager.
  destruct (pointer_manager_ (m_ptr f) =? 0) eqn:E; [done|].
  destruct (walk_member _ _ _ _ ok a f Hf) as [H0 | (pm & Hpm & Hx)]; [zbool; lia|].
  rewrite Hpm; simpl. destruct (ref_counter_ pm =? 0) eqn:E2; [done|].
  intros [= <-]. zbool. destruct (Hx E2) as (? & ? & ? & ->). auto.
Qed.

Lemma member_get a f :
  f ∈ members_of h a -> get h (m_ptr f) = Defined (default 0 (tgt h (m_ptr f))).
Proof.
  intros Hf. apply tgt_get.
  - destruct (walk_member _ _ _ _ ok a f Hf) as [? | (pm & Hpm & _)]; eauto.
  - intros t Ht. by destruct (member_target a f t Hf Ht) as (? & ? & ?).
Qed.

Lemma note_dom om e x : x ∈ dom (note om e) <-> x ∈ dom om \/ x = e.2.
Proof.
  unfold note, add_child, count_reference. rewrite dom_alter, dom_insert. set_solver.
Qed.

Lemma notes_dom es om x :
  x ∈ dom (notes es om) <-> x ∈ dom om \/ exists e, e ∈ es /\ x = e.2.
Proof.
  unfold notes. revert om; induction es as [|e es IH]; intros; simpl.
  - split; [auto | intros [? | (e & He & _)]; auto; by apply elem_of_nil in He].
  - rewrite IH, note_dom. setoid_rewrite elem_of_cons. naive_solver.
Qed.

Lemma owners_ok_app e1 e2 om :
  owners_ok (e1 ++ e2) om <-> owners_ok e1 om /\ owners_ok e2 (notes e1 om).
Proof.
  revert om; induction e1 as [|e e1 IH]; intros om; simpl; [tauto|].
  rewrite IH. unfold notes. simpl. tauto.
Qed.

Lemma walk_grows_refl w : grows w w [] [] [].
Proof.
  split; simpl; auto; try constructor; try (intros ?? Hx; by apply elem_of_nil in Hx).
  - auto.
  - intros [|[(?&H&_)|(?&H&_)]]; auto; by apply elem_of_nil in H.
  - by apply elem_of_nil in H.
  - by apply elem_of_nil in H.
Qed.

Lemma walk_grows_trans w1 w2 w3 L1 L2 M1 M2 e1 e2 :
  grows w1 w2 L1 M1 e1 -> grows w2 w3 L2 M2 e2 ->
  grows w1 w3 (L1 ++ L2) (M1 ++ M2) (e1 ++ e2).
Proof.
  intros [A1 A0 A2 A3 A4 A5] [B1 B0 B2 B3 B4 B5]. split.
  - rewrite B1, A1. unfold notes. by rewrite fold_left_app.
  - apply owners_ok_app. by rewrite <- A1.
  - intros k. rewrite B2, A2. setoid_rewrite elem_of_app. naive_solver.
  - intros u [Hu|Hu]%elem_of_app; [auto|].
    destruct (B3 u Hu) as [? Hn]. split; auto. intros ?. apply Hn, A2. auto.
  - apply list.NoDup_app. repeat split; auto. intros u Hu Hv.
    apply (proj2 (B3 u Hv)), A2. right; left; eauto.
  - intros u t [Hu|Hu]%elem_of_app He; [|eauto].
    apply B2. left. eauto.
Qed.

Lemma members_owner a b f g :
  f ∈ members_of h a -> g ∈ members_of h b -> mkey f = mkey g -> a = b.
Proof.
  intros [i Hi]%list_elem_of_lookup [j Hj]%list_elem_of_lookup E.
  by destruct (walk_members _ _ _ _ ok a b i j f g Hi Hj E).
Qed.

Lemma owner_live a f : f ∈ members_of h a -> is_Some (objects h !! a).
Proof.
  unfold members_of. destruct (objects h !! a); [eauto|].
  simpl. intros []%elem_of_nil.
Qed.

(** The members a part of the walk visited belong to the objects it visited,
    or to the object it is in. *)
Definition owned (w : walk) (L : list Z) (M : list member) : Prop :=
  forall f, f ∈ M -> exists u, f ∈ members_of h u /\
  (u ∈ L \/ okey u ∈ visited_objects_ w).

Definition within (L : list Z) (M : list member) : Prop :=
  forall f, f ∈ M -> exists u, u ∈ L /\ f ∈ members_of h u.

Lemma within_owned w L M : within L M -> owned w L M.
Proof. intros H f Hf. destruct (H f Hf) as (u & ? & ?). eauto. Qed.

Lemma grows_fresh w w' L M es :
  grows w w' L M es -> owned w L M -> fresh_members w -> fresh_members w'.
Proof.
  intros G Ho Hf b f Hb Hn. rewrite (g_visited _ _ _ _ _ G).
  assert (okey b ∉ visited_objects_ w)
    by (intros ?; apply Hn, (g_visited _ _ _ _ _ G); auto).
  intros [Hk | [(u & Hu & E) | (g & Hg & E)]]; [by eapply Hf | |].
  - eapply (walk_kinds _ _ _ _ ok u b f); eauto. apply (g_new _ _ _ _ _ G u Hu).
  - destruct (Ho g Hg) as (u & Hu & Hc).
    assert (u = b) as -> by (eapply members_owner; eauto).
    destruct Hc as [Hc|Hc]; [|done]. apply Hn, (g_visited _ _ _ _ _ G).
    right; left; eauto.
Qed.

(** What is proved of the visit of one object. *)
Definition node_spec (visit : Z -> Z -> walk -> outcome walk) (n : nat) : Prop :=
  forall t w, is_Some (objects h !! t) -> t ∈ dom (obj_map_ w) ->
  fresh_members w -> (unvisited (visited_objects_ w) < n)%nat ->
  exists w' L M es, visit (ty t) t w = Defined w' /\ grows w w' L M es /\
    within L M /\ es ≡ₚ concat (edges_of <$> L) /\
    (forall u, u ∈ L -> reach h t u) /\ okey t ∈ visited_objects_ w'.

Lemma grows_note w a f t c :
  tgt h (m_ptr f) = Some t -> c = rc t -> a ∈ dom (obj_map_ w) ->
  grows w (mark {| visited_objects_ := visited_objects_ w;
                   obj_map_ := add_child (count_reference (obj_map_ w) t c) a t |}
                (m_index f) (m_addr f)) [] [f] [(a, t)].
Proof.
  intros Ht -> Ha. split; simpl; auto; try constructor.
  - unfold Add, mkey. rewrite elem_of_union, elem_of_singleton.
    intros [-> | ?]; eauto. right; right. exists f. split; [apply list_elem_of_here | done].
  - unfold Add, mkey. rewrite elem_of_union, elem_of_singleton.
    intros [?|[(?&H&_)|(?&H&->)]]; auto; [by apply elem_of_nil in H|].
    apply list_elem_of_singleton in H as ->. auto.
  - by apply elem_of_nil in H.
  - by apply elem_of_nil in H.
  - intros ?? Hx; by apply elem_of_nil in Hx.
Qed.

Lemma visit_ptr_spec visit n a f w :
  node_spec visit n -> f ∈ members_of h a -> okey a ∈ visited_objects_ w ->
  a ∈ dom (obj_map_ w) ->
  fresh_members w -> mkey f ∉ visited_objects_ w ->
  (unvisited (visited_objects_ w) < n)%nat ->
  exists w' L M es, visit_ptr h visit a w f = Defined w' /\ grows w w' L M es /\
    (exists N, M ⊆ f :: N /\ within L N) /\
    es ≡ₚ ((fun t => (a, t)) <$> targets h [f]) ++ concat (edges_of <$> L) /\
    (forall u, u ∈ L -> exists t, t ∈ targets h [f] /\ reach h t u) /\
    (forall t, t ∈ targets h [f] -> okey t ∈ visited_objects_ w').
Proof.
  intros Hv Hf Ha Hdom Hfr Hk Hn. unfold visit_ptr, targets. rewrite (member_get a f Hf). simpl.
  destruct (tgt h (m_ptr f)) as [t|] eqn:Et; simpl.
  2:{ exists w, [], [], []. simpl. split_and!; auto using walk_grows_refl;
      try (intros ? []%elem_of_nil).
      exists []. split; [set_solver | intros ? []%elem_of_nil]. }
  destruct (member_target a f t Hf Et) as (Ho & Hz & Hty & _ & Hrc).
  rewrite (proj2 (Z.eqb_neq t 0) Hz), Hrc. unfold IsVisited. simpl.
  rewrite bool_decide_eq_false_2 by done.
  pose proof (grows_note w a f t (rc t) Et eq_refl Hdom) as G0.
  set (w1 := mark _ _ _) in *. rewrite Hty.
  assert (owned w [] [f]) as Ho0.
  { intros g ->%list_elem_of_singleton. eauto. }
  destruct (Hv t w1) as (w' & L & M & es & E & G & Hw & Hp & Hr & Hd); auto.
  { apply (note_dom (obj_map_ w) (a, t)); auto. }
  { by eapply grows_fresh. }
  { eapply Nat.le_lt_trans; [|exact Hn]. apply unvisited_mono. intros k.
    rewrite (g_visited _ _ _ _ _ G0). auto. }
  exists w', L, (f :: M), ((a, t) :: es). rewrite E. split_and!; auto.
  - change L with ([] ++ L). change (f :: M) with ([f] ++ M).
    change ((a, t) :: es) with ([(a, t)] ++ es). by eapply walk_grows_trans.
  - exists M; done.
  - intros u Hu. exists t. split; [apply list_elem_of_here | auto].
  - intros t' ->%list_elem_of_singleton. done.
Qed.

Lemma targets_cons f fs : targets h (f :: fs) = targets h [f] ++ targets h fs.
Proof. unfold targets. simpl. by destruct (tgt h (m_ptr f)). Qed.

Lemma visit_members_spec visit n a fs w :
  node_spec visit n -> (exists i, fs = drop i (members_of h a)) ->
  okey a ∈ visited_objects_ w -> a ∈ dom (obj_map_ w) -> fresh_members w ->
  (forall f, f ∈ fs -> mkey f ∉ visited_objects_ w) ->
  (unvisited (visited_objects_ w) < n)%nat ->
  exists w' L M es, visit_members h visit a fs w = Defined w' /\
    grows w w' L M es /\ (exists N, M ⊆ fs ++ N /\ within L N) /\
    es ≡ₚ ((fun t => (a, t)) <$> targets h fs) ++ concat (edges_of <$> L) /\
    (forall u, u ∈ L -> exists t, t ∈ targets h fs /\ reach h t u) /\
    (forall t, t ∈ targets h fs -> okey t ∈ visited_objects_ w').
Proof.
  intros Hv. revert w. induction fs as [|f fs IH]; intros w [i Hi] Ha Hdom Hfr Hk Hn.
  { exists w, [], [], []. simpl. split_and!; auto using walk_grows_refl;
      try (intros ? []%elem_of_nil).
    exists []. split; [set_solver | intros ? []%elem_of_nil]. }
  assert (members_of h a !! i = Some f) as Hfi.
  { rewrite <- (Nat.add_0_r i), <- lookup_drop, <- Hi. done. }
  assert (fs = drop (S i) (members_of h a)) as Hfs.
  { rewrite <- Nat.add_1_r, <- drop_drop, <- Hi. done. }
  destruct (visit_ptr_spec visit n a f w)
    as (w1 & L1 & M1 & e1 & E1 & G1 & (N1 & HM1 & HN1) & P1 & R1 & T1); auto.
  { by eapply list_elem_of_lookup_2. }
  { apply Hk, list_elem_of_here. }
  assert (owned w L1 M1) as O1.
  { intros g Hg. apply HM1, elem_of_cons in Hg as [-> | Hg].
    - exists a. split; auto. by eapply list_elem_of_lookup_2.
    - destruct (HN1 g Hg) as (u & ? & ?); eauto. }
  destruct (IH w1) as (w2 & L2 & M2 & e2 & E2 & G2 & (N2 & HM2 & HN2) & P2 & R2 & T2).
  { eauto. }
  { apply (g_visited _ _ _ _ _ G1); auto. }
  { rewrite (g_map _ _ _ _ _ G1). apply notes_dom; auto. }
  { by eapply grows_fresh. }
  { intros g Hg. rewrite (g_visited _ _ _ _ _ G1).
    assert (g ∈ members_of h a) as Hga.
    { rewrite Hfs in Hg. apply list_elem_of_lookup in Hg as [j Hj].
      rewrite lookup_drop in Hj. by eapply list_elem_of_lookup_2. }
    intros [Hb | [(u & Hu & E) | (g' & Hg' & E)]].
    - apply (Hk g); [by apply list_elem_of_further | done].
    - eapply (walk_kinds _ _ _ _ ok u a g); eauto. apply (g_new _ _ _ _ _ G1 u Hu).
    - apply HM1, elem_of_cons in Hg' as [-> | Hg'].
      + rewrite Hfs in Hg. apply list_elem_of_lookup in Hg as [j Hj].
        rewrite lookup_drop in Hj.
        destruct (walk_members _ _ _ _ ok a a _ _ _ _ Hfi Hj (eq_sym E)). lia.
      + destruct (HN1 g' Hg') as (u & Hu & Hg2).
        assert (a = u) as <- by (eapply members_owner; eauto).
        by apply (proj2 (g_new _ _ _ _ _ G1 a Hu)). }
  { eapply Nat.le_lt_trans; [|exact Hn]. apply unvisited_mono. intros k.
    rewrite (g_visited _ _ _ _ _ G1). auto. }
  exists w2, (L1 ++ L2), (M1 ++ M2), (e1 ++ e2). rewrite targets_cons. simpl. rewrite E1.
  split_and!; auto.
  - by eapply walk_grows_trans.
  - exists (N1 ++ N2). split; [set_solver|].
    intros g [Hg|Hg]%elem_of_app; [destruct (HN1 g Hg) as (u & ? & ?)
      | destruct (HN2 g Hg) as (u & ? & ?)]; exists u; set_solver.
  - rewrite P1, P2, !fmap_app, concat_app. solve_Permutation.
  - intros u [Hu|Hu]%elem_of_app; [destruct (R1 u Hu) as (t & ? & ?)
      | destruct (R2 u Hu) as (t & ? & ?)]; exists t; set_solver.
  - intros t [Ht|Ht]%elem_of_app; auto. apply (g_visited _ _ _ _ _ G2). auto.
Qed.

Lemma mark_visited w t k :
  k ∈ visited_objects_ (mark w (ty t) t) <-> k = okey t \/ k ∈ visited_objects_ w.
Proof. simpl. unfold Add. by rewrite elem_of_union, elem_of_singleton. Qed.

Lemma fresh_mark w t :
  is_Some (objects h !! t) -> fresh_members w -> fresh_members (mark w (ty t) t).
Proof.
  intros Ht Hf a f Ha. rewrite !mark_visited. intros Hn [E | Hk].
  - by eapply (walk_kinds _ _ _ _ ok t a f).
  - eapply Hf; eauto.
Qed.

Lemma grows_visit w w' t L M es :
  is_Some (objects h !! t) -> okey t ∉ visited_objects_ w ->
  grows (mark w (ty t) t) w' L M es ->
  (forall t', edge h t t' -> okey t' ∈ visited_objects_ w') ->
  grows w w' (t :: L) M es.
Proof.
  intros Ht Hv [A1 A0 A2 A3 A4 A5] Hc. split.
  - done.
  - done.
  - intros k. rewrite A2, mark_visited. setoid_rewrite elem_of_cons. naive_solver.
  - intros u [-> | Hu]%elem_of_cons; [auto|]. destruct (A3 u Hu) as [? Hn].
    rewrite mark_visited in Hn. naive_solver.
  - constructor; [|done]. intros Hu. apply (proj2 (A3 t Hu)), mark_visited. auto.
  - intros u x [-> | Hu]%elem_of_cons He; eauto.
Qed.

Lemma VisitNode_spec n : node_spec (VisitNode Visit h n) n.
Proof.
  induction n as [|n IH]; intros t w Ht Hd Hfr Hn; [lia|].
  destruct Ht as [ms Ht]. simpl. rewrite Ht, (walk_visit _ _ _ _ ok t ms Ht).
  unfold IsVisited. case_bool_decide as Hv.
  { exists w, [], [], []. simpl. split_and!; auto using walk_grows_refl;
      intros ? []%elem_of_nil. }
  assert (members_of h t = ms) as Hms by (unfold members_of; by rewrite Ht).
  assert (is_Some (objects h !! t)) as Hlive by eauto.
  destruct (visit_members_spec (VisitNode Visit h n) n t ms (mark w (ty t) t))
    as (w' & L & M & es & E & G & (N & HM & HN) & P & R & T); auto.
  { exists O. by rewrite drop_0. }
  { apply mark_visited; auto. }
  { by apply fresh_mark. }
  { intros f Hf. rewrite mark_visited. rewrite <- Hms in Hf. intros [E | Hk].
    - by eapply (walk_kinds _ _ _ _ ok t t f).
    - by eapply Hfr. }
  { pose proof (unvisited_mark (visited_objects_ w) t Hlive Hv). simpl. lia. }
  exists w', (t :: L), M, es. split_and!; auto.
  - apply grows_visit; auto. intros t' He. apply T. unfold edge in He. by rewrite Hms in He.
  - intros f Hf. apply HM, elem_of_app in Hf as [Hf|Hf].
    + exists t. rewrite Hms. set_solver.
    + destruct (HN f Hf) as (u & ? & ?). exists u. set_solver.
  - simpl. unfold edges_of at 1. by rewrite Hms.
  - intros u [-> | Hu]%elem_of_cons; [constructor|]. destruct (R u Hu) as (x & Hx & ?).
    eapply rtc_l; [|eauto]. unfold edge. by rewrite Hms.
  - apply (g_visited _ _ _ _ _ G). left. apply mark_visited. auto.
Qed.

(** ** The counts and children of the map *)

Definition occurrences (x : Z) (l : list Z) : Z :=
  Z.of_nat (count_occ Z.eq_dec l x).

Lemma occurrences_app x l k :
  occurrences x (l ++ k) = occurrences x l + occurrences x k.
Proof. unfold occurrences. rewrite count_occ_app. lia. Qed.

Lemma wrap_add w x y : 0 < 2 ^ w -> wrap w (wrap w x + y) = wrap w (x + y).
Proof. intros. unfold wrap. by rewrite Zplus_mod_idemp_l. Qed.

(** What the map says of an object after references were recorded. *)
Definition node_is (om : obj_map) (es : list (Z * Z)) (x : Z) (rt : RefTree)
    : Prop :=
  ref_count rt = default (rc x) (ref_count <$> om !! x) /\
  reachable_ref_count rt =
    wrap 32 (default 0 (reachable_ref_count <$> om !! x) +
             occurrences x (es.*2)) /\
  (forall c, c ∈ children rt <->
     c ∈ default [] (children <$> om !! x) \/ (x, c) ∈ es).

Lemma note_lookup om e x rt :
  (forall y r, om !! y = Some r -> in_width 32 (reachable_ref_count r)) ->
  e.1 ∈ dom om -> note om e !! x = Some rt -> node_is om [e] x rt.
Proof.
  destruct e as [a t]. unfold note, add_child, node_is. simpl. intros Hw Ha.
  assert (exists c, count_reference om t (rc t) !! x = c /\
    default (rc x) (ref_count <$> c) = default (rc x) (ref_count <$> om !! x) /\
    default 0 (reachable_ref_count <$> c) = wrap 32
      (default 0 (reachable_ref_count <$> om !! x) + occurrences x [t]) /\
    default [] (children <$> c) = default [] (children <$> om !! x)) as (c & Hc & F1 & F2 & F3).
  { eexists; split; [reflexivity|]. unfold count_reference, occurrences. simpl.
    destruct (decide (x = t)) as [-> | Hx].
    - rewrite lookup_insert_eq. simpl. destruct (Z.eq_dec t t); [|done].
      by destruct (om !! t).
    - rewrite lookup_insert_ne by done. destruct (Z.eq_dec t x); [congruence|].
      destruct (om !! x) eqn:E; simpl; rewrite Z.add_0_r, ?wrap_small; eauto. done. }
  destruct (decide (x = a)) as [-> | Hx].
  - rewrite lookup_alter_eq, Hc. destruct c as [r|]; [|done]. simpl in *.
    intros [= <-]; simpl. split_and!; auto. intros d. rewrite list_elem_of_singleton.
    rewrite <- F3. case_bool_decide; rewrite ?elem_of_app, ?list_elem_of_singleton; naive_solver.
  - rewrite lookup_alter_ne, Hc by done. intros ->. simpl in *. split_and!; auto.
    intros d. rewrite list_elem_of_singleton, F3. naive_solver.
Qed.

Lemma owners_in es om e : owners_ok es om -> e ∈ es -> e.1 ∈ dom (notes es om).
Proof.
  revert om; induction es as [|e0 es IH]; intros om; simpl; [by intros _ ?%elem_of_nil|].
  intros [H0 Ho] [-> | He]%elem_of_cons; [|by apply (IH (note om e0))].
  unfold notes; simpl. fold (notes es (note om e0)).
  apply notes_dom. left. apply note_dom. auto.
Qed.

Definition counts_wide (om : obj_map) : Prop :=
  forall y r, om !! y = Some r -> in_width 32 (reachable_ref_count r).

Lemma notes_lookup es om x rt :
  counts_wide om -> owners_ok es om -> notes es om !! x = Some rt ->
  node_is om es x rt.
Proof.
  intros Hw. revert x rt. induction es as [|e es IH] using rev_ind; intros x rt Ho.
  - unfold node_is, notes, occurrences. simpl. intros E. rewrite E. simpl.
    rewrite Z.add_0_r, wrap_small by eauto. split_and!; auto. intros c.
    rewrite elem_of_nil. tauto.
  - apply owners_ok_app in Ho as (Ho & He & _). unfold notes. rewrite fold_left_app.
    fold (notes es om). simpl. intros E.
    apply note_lookup in E as (E1 & E2 & E3); auto.
    2:{ intros y r Hr. destruct (IH y r Ho Hr) as (_ & Hr' & _).
        rewrite Hr'. by apply in_width_wrap. }
    unfold node_is. rewrite fmap_app, occurrences_app.
    setoid_rewrite elem_of_app. setoid_rewrite E3. rewrite E1, E2.
    destruct (notes es om !! x) as [r|] eqn:Er; simpl.
    + destruct (IH x r Ho Er) as (F1 & F2 & F3). rewrite F1, F2, wrap_add by lia.
      split_and!; auto; [f_equal; simpl; lia|]. intros c. rewrite F3. tauto.
    + assert ((x ∉ dom om) /\ ~ (exists e, e ∈ es /\ x = e.2)) as [Hx Hn].
      { assert (x ∉ dom (notes es om)) as Hd by (by apply not_elem_of_dom).
        rewrite notes_dom in Hd. tauto. }
      apply not_elem_of_dom in Hx. rewrite Hx. simpl.
      replace (occurrences x (es.*2)) with 0; [split_and!; auto|].
      * intros c. split; [tauto|]. intros [?|[Hc|?]]; auto.
        apply (owners_in es om (x, c)) in Hc; auto. by apply not_elem_of_dom in Er.
      * unfold occurrences. rewrite (proj1 (count_occ_not_In _ _ _)); [done|].
        intros Hin. apply Hn. apply list_elem_of_In, list_elem_of_fmap in Hin
          as (e' & -> & ?). eauto.
Qed.

(** All references found in the members of a list of objects. *)
Definition references (R : list Z) : list Z :=
  concat ((fun u => targets h (members_of h u)) <$> R).

Lemma edges_references R : (concat (edges_of <$> R)).*2 = references R.
Proof.
  unfold references. induction R as [|u R IH]; [done|].
  rewrite !fmap_cons. cbn [concat]. rewrite fmap_app, IH. unfold edges_of. by rewrite <- list_fmap_compose, list_fmap_id.
Qed.

Lemma elem_of_edges R x c :
  (x, c) ∈ concat (edges_of <$> R) <-> x ∈ R /\ edge h x c.
Proof.
  induction R as [|u R IH]; simpl.
  - rewrite !elem_of_nil. tauto.
  - rewrite elem_of_app, IH, elem_of_cons. unfold edges_of at 1.
    rewrite list_elem_of_fmap. unfold edge. naive_solver.
Qed.

#[export] Instance occurrences_perm x : Proper (Permutation ==> eq) (occurrences x).
Proof.
  intros l k Hp. unfold occurrences.
  by rewrite (proj1 (Permutation_count_occ Z.eq_dec l k) Hp).
Qed.

Lemma edge_live a b : edge h a b -> is_Some (objects h !! b).
Proof.
  unfold edge, targets. rewrite list_elem_of_omap. intros (f & Hf & Ht).
  by destruct (member_target a f b Hf Ht).
Qed.

(** The walk from [p] ends, and its map has one node for every object that can
    be reached, with the counter of the object, the number of references found
    and the objects it refers to. *)
Lemma walk_from_spec p :
  is_Some (objects h !! p) ->
  exists w R, walk_from Visit h (ty p) p (rc p) = Defined w /\ NoDup R /\
    (forall u, u ∈ R <-> reach h p u) /\ (forall u, u ∈ R -> is_Some (objects h !! u)) /\
    (forall x, x ∈ dom (obj_map_ w) <-> x ∈ R) /\
    (forall x rt, obj_map_ w !! x = Some rt ->
       ref_count rt = rc x /\
       reachable_ref_count rt =
         wrap 32 ((if x =? p then 1 else 0) + occurrences x (references R)) /\
       (forall c, c ∈ children rt <-> edge h x c)).
Proof.
  intros Hp. unfold walk_from. set (om0 := {[p := _]}). set (w0 := {| visited_objects_ := ∅; obj_map_ := om0 |}).
  destruct (VisitNode_spec (S (size (objects h))) p w0)
    as (w & R & M & es & E & G & HM & P & HR & Hpk); auto.
  { simpl. unfold om0. rewrite dom_singleton_L. set_solver. }
  { intros a f _ _. simpl. set_solver. }
  { apply le_n_S. apply map_subseteq_size, map_filter_subseteq. }
  assert (forall t, is_Some (objects h !! t) -> okey t ∈ visited_objects_ w -> t ∈ R) as Hin.
  { intros t Ht. rewrite (g_visited _ _ _ _ _ G). simpl.
    intros [Hk | [(u & Hu & Ek) | (f & Hf & Ek)]]; [set_solver | |].
    - rewrite (walk_objects _ _ _ _ ok t u Ht); auto. apply (g_new _ _ _ _ _ G u Hu).
    - destruct (HM f Hf) as (u & _ & Hfu). by destruct (walk_kinds _ _ _ _ ok t u f Ht Hfu). }
  assert (forall u, u ∈ R <-> reach h p u) as HRiff.
  { intros u. split; [auto|]. revert u. apply rtc_ind_r; [auto|].
    intros u v _ He IH. apply Hin; [by eapply edge_live|].
    by eapply (g_closed _ _ _ _ _ G). }
  assert (forall u, u ∈ R -> is_Some (objects h !! u)) as Hlive.
  { intros u Hu. apply (g_new _ _ _ _ _ G u Hu). }
  assert (forall x, x ∈ dom (obj_map_ w) <-> x ∈ R) as Hdom.
  { intros x. rewrite (g_map _ _ _ _ _ G), notes_dom. simpl. unfold om0.
    rewrite dom_singleton_L, elem_of_singleton. setoid_rewrite P. split.
    + intros [-> | ([a c] & He & ->)]; [apply HRiff; constructor|]. simpl.
      apply elem_of_edges in He as [Ha He]. apply HRiff.
      eapply rtc_r; [apply HRiff, Ha | done].
    + intros Hx. apply HRiff in Hx. apply rtc_inv_r in Hx as [-> | (a & Ha & He)]; [auto|].
      right. exists (a, x). split; [|done]. apply elem_of_edges. rewrite HRiff. auto. }
  exists w, R. split_and!; auto.
  - apply (g_nodup _ _ _ _ _ G).
  - intros x rt Hx. assert (x ∈ R) as HxR by (apply Hdom, elem_of_dom; eauto).
    rewrite (g_map _ _ _ _ _ G) in Hx.
    apply notes_lookup in Hx as (F1 & F2 & F3); [| |apply G].
    2:{ intros y r. simpl. unfold om0. rewrite lookup_singleton_Some.
        intros [_ <-]. simpl. done. }
    assert (es.*2 ≡ₚ references R) as Hes by (by rewrite P, edges_references).
    rewrite Hes in F2. setoid_rewrite P in F3. setoid_rewrite elem_of_edges in F3.
    simpl in *. unfold om0 in *. destruct (x =? p) eqn:Ex; zbool.
    + subst x. rewrite lookup_singleton_eq in *. simpl in *. split_and!; auto.
      intros c. rewrite F3, elem_of_nil. tauto.
    + rewrite lookup_singleton_ne in * by done. simpl in *. split_and!; auto.
      intros c. rewrite F3, elem_of_nil. tauto.
Qed.

End Walk.

(** ** The search *)

Section Search.
Variable om : obj_map.
Variable p : Z.

Definition child (a c : Z) : Prop := exists rt, om !! a = Some rt /\ c ∈ children rt.

Hypothesis closed : forall a c, child a c -> c ∈ dom om.

(** What a search that found nothing leaves behind. *)
Definition exhausted (V V' : gset Z) : Prop :=
  forall u c, u ∈ V' -> u ∉ V -> child u c -> c <> p /\ c ∈ V'.

Definition search_spec (n : nat) (this : Z) (V : gset Z) : Prop :=
  exists b V', IsReachable n om p V this = Defined (b, V') /\ V ⊆ V' /\
    this ∈ V' /\ (b = true -> tc child this p) /\ (b = false -> exhausted V V').

Lemma exhausted_trans V1 V2 V3 :
  V2 ⊆ V3 -> exhausted V1 V2 -> exhausted V2 V3 -> exhausted V1 V3.
Proof.
  intros Hs H1 H2 u c Hu Hn Hc. destruct (decide (u ∈ V2)) as [H|H]; [|eauto].
  destruct (H1 u c H Hn Hc). split; auto.
Qed.

Lemma size_mark V a : a ∈ dom om -> a ∉ V ->
  (size (dom om ∖ ({[a]} ∪ V)) < size (dom om ∖ V))%nat.
Proof. intros. apply subset_size. set_solver. Qed.

Lemma size_anti (V V' : gset Z) : V ⊆ V' -> (size (dom om ∖ V') <= size (dom om ∖ V))%nat.
Proof. intros. apply subseteq_size. set_solver. Qed.

Lemma IsReachable_search n this V :
  this ∈ dom om -> this ∉ V -> (size (dom om ∖ V) <= n)%nat -> search_spec n this V.
Proof.
  revert this V. induction n as [|n IH]; intros this V Hd HV Hn.
  { pose proof (size_mark V this Hd HV). lia. }
  apply elem_of_dom in Hd as Hd'. destruct Hd' as [rt Hrt].
  unfold search_spec. cbn [IsReachable]. rewrite Hrt.
  set (loop := fix loop (cs : list Z) (visited : gset Z) := _).
  assert (forall cs W, (forall c, c ∈ cs -> child this c) -> this ∈ W ->
    (size (dom om ∖ W) <= n)%nat ->
    exists b W', loop cs W = Defined (b, W') /\ W ⊆ W' /\
      (b = true -> tc child this p) /\
      (b = false -> exhausted W W' /\ forall c, c ∈ cs -> c <> p /\ c ∈ W')) as Hl.
  { induction cs as [|c cs IHc]; intros W Hc Ht HW; simpl.
    { exists false, W. split_and!; auto; [done|]. intros _. split; [intros ?????; set_solver|].
      intros ? []%elem_of_nil. }
    assert (child this c) as Hcc by (apply Hc, list_elem_of_here).
    assert (forall c', c' ∈ cs -> child this c') as Hcs
      by (intros; by apply Hc, list_elem_of_further).
    destruct (c =? p) eqn:Ep; zbool.
    { exists true, W. subst c. split_and!; auto; [intros _; by apply tc_once | done]. }
    case_bool_decide as Hin.
    { destruct (IHc W Hcs Ht HW) as (b & W' & E & ? & ? & Hf). exists b, W'.
      split_and!; auto. intros Hb. destruct (Hf Hb). split; auto. set_solver. }
    destruct (IH c W) as (b & W1 & E & Hs & Hi & Hb & Hf); eauto. rewrite E.
    destruct b.
    { exists true, W1. split_and!; auto; [|done]. intros _. by eapply tc_l; [|apply Hb]. }
    destruct (IHc W1 Hcs) as (b & W' & E' & ? & ? & Hf'); [set_solver| |].
    { pose proof (size_anti W W1 Hs). lia. }
    exists b, W'. split_and!; auto; [set_solver|]. intros Hb'. destruct (Hf' Hb').
    split; [by eapply exhausted_trans; eauto|]. set_solver. }
  destruct (Hl (children rt) ({[this]} ∪ V)) as (b & W' & E & Hs & Hb & Hf).
  { intros c Hc. by exists rt. }
  { set_solver. }
  { pose proof (size_mark V this Hd HV). lia. }
  exists b, W'. rewrite E. split_and!; auto; [set_solver | set_solver|].
  intros Hb'. destruct (Hf Hb') as [Hx Hc]. intros u c Hu HuV Huc.
  destruct (decide (u = this)) as [-> | Hne].
  - destruct Huc as (rt' & E' & Hin). rewrite Hrt in E'. injection E' as <-. auto.
  - apply (Hx u c); auto. set_solver.
Qed.

(** The search decides whether [p] can be reached by at least one reference. *)
Lemma IsReachable_spec x :
  x ∈ dom om ->
  exists b V, IsReachable (S (size om)) om p ∅ x = Defined (b, V) /\
    (b = true <-> tc child x p).
Proof.
  intros Hx. destruct (IsReachable_search (S (size om)) x ∅) as (b & V & E & _ & Hi & Hb & Hf).
  { done. } { set_solver. }
  { rewrite <- size_dom. pose proof (subseteq_size (dom om ∖ ∅) (dom om)). set_solver by lia. }
  exists b, V. split; auto. split; [auto|]. intros Ht. destruct b; [done|]. exfalso.
  assert (forall y q, tc child y q -> q = p -> y ∈ V -> False) as Hno; [|eauto].
  induction 1 as [y q Hy | y z q Hy _ IH]; intros Hq HV.
  - destruct (Hf eq_refl y q HV); auto. set_solver.
  - apply IH; auto. apply (Hf eq_refl y z HV); [set_solver | done].
Qed.
End Search.

End PtrGraph.
