(* ===== verification/PtrDecision.v ===== *)
(** * The decision to delete an object

    [Ptr::DecrementGraph] compares the counters with the references its walk
    found.  In a graph with exact counters and no garbage this decides whether
    another pointer still reaches the object. *)

From stdpp Require Import gmap.
From S2P Require Import Prelude Ptr PtrGraph.
Import Ptr PtrGraph.

#[local] Set Warnings "-clear-no-such-hyp".

Module PtrDecision.

(** ** The decision *)

Lemma rtc_crossing {A} (R : A -> A -> Prop) (P : A -> Prop) x y :
  (forall a, P a \/ ~ P a) -> rtc R x y -> ~ P x -> P y ->
  exists u v, rtc R x u /\ ~ P u /\ P v /\ R u v /\ rtc R v y.
Proof.
  intros Hd. induction 1 as [x | x z y Hxz Hzy IH]; intros Hx Hy; [done|].
  destruct (Hd z) as [Hz|Hz].
  - exists x, z. split_and!; auto. constructor.
  - destruct (IH Hz Hy) as (u & v & ? & ? & ? & ? & ?). exists u, v.
    split_and!; auto. by eapply rtc_l.
Qed.

Lemma occurrences_pos x l : 0 < occurrences x l <-> x ∈ l.
Proof.
  unfold occurrences. rewrite list_elem_of_In, (count_occ_In Z.eq_dec). lia.
Qed.

Lemma occurrences_nonneg x l : 0 <= occurrences x l.
Proof. unfold occurrences; lia. Qed.

Lemma occurrences_cons x y l :
  occurrences x (y :: l) = (if x =? y then 1 else 0) + occurrences x l.
Proof.
  unfold occurrences. simpl. destruct (Z.eq_dec y x), (x =? y) eqn:E; zbool; lia.
Qed.

Lemma safe_to_delete_forall om ptr l (B : Z -> RefTree -> Prop) :
  (forall o ref, (o, ref) ∈ l -> exists b,
     blocks_delete om ptr o ref = Defined b /\ (b = true <-> B o ref)) ->
  exists b, safe_to_delete om ptr l = Defined b /\
    if b then forall o ref, (o, ref) ∈ l -> ~ B o ref
    else exists o ref, (o, ref) ∈ l /\ B o ref.
Proof.
  induction l as [|[o ref] l IH]; intros Hl; simpl.
  { exists true. split; [done|]. by intros ?? ?%elem_of_nil. }
  destruct (Hl o ref) as (b & -> & Hb); [apply list_elem_of_here|].
  destruct IH as (b' & -> & Hb'); [intros; apply Hl; by apply list_elem_of_further|].
  destruct b.
  - exists false. split; [done|]. exists o, ref. split; [apply list_elem_of_here | by apply Hb].
  - exists b'. split; [done|]. destruct b'.
    + intros o' r' [[= -> ->] | ?]%elem_of_cons; [|eauto]. intros HB. by apply Hb in HB.
    + destruct Hb' as (o' & r' & ? & ?). exists o', r'. split; [by apply list_elem_of_further | done].
Qed.

Lemma references_edge h x K : x ∈ references h K <-> exists u, u ∈ K /\ edge h u x.
Proof.
  unfold references, edge. induction K as [|u K IH]; simpl.
  - rewrite elem_of_nil. split; [done|]. intros (u & []%elem_of_nil & _).
  - rewrite elem_of_app, IH. setoid_rewrite elem_of_cons. naive_solver.
Qed.

Section Decision.
Variable Visit : Z -> list member -> option (list member).
Variables ty rc : Z -> Z.
Variable h : heap.
Hypothesis ok : walkable Visit ty rc h.
(** The object of the pointer, and the objects the other pointers refer to. *)
Variable p : Z.
Variable others : list Z.
(** The live objects. *)
Variable D : list Z.
Hypothesis D_live : forall a, a ∈ D <-> is_Some (objects h !! a).
Hypothesis D_nodup : NoDup D.
Hypothesis p_live : p ∈ D.
Hypothesis exact : forall x, x ∈ D ->
  rc x = occurrences x (p :: others) + occurrences x (references h D).
Hypothesis small : forall x, x ∈ D -> rc x < 2 ^ 16.
Hypothesis no_garbage : forall a, a ∈ D -> exists r, r ∈ p :: others /\ reach h r a.

Lemma references_split R : NoDup R -> R ⊆ D -> forall x,
  occurrences x (references h D) = occurrences x (references h R) +
  occurrences x (references h (filter (fun a => a ∉ R) D)).
Proof.
  intros HR HS x. rewrite <- occurrences_app.
  assert (D ≡ₚ R ++ filter (fun a => a ∉ R) D) as Hp.
  { apply NoDup_Permutation; auto.
    - apply list.NoDup_app. split_and!; auto using list.NoDup_filter.
      intros a Ha. rewrite list_elem_of_filter. tauto.
    - intros a. rewrite elem_of_app, list_elem_of_filter.
      destruct (decide (a ∈ R)); naive_solver. }
  apply occurrences_perm. unfold references. rewrite Hp at 1.
  by rewrite fmap_app, concat_app.
Qed.

Lemma edge_source u v : edge h u v -> u ∈ D.
Proof.
  unfold edge, targets. rewrite list_elem_of_omap. intros (f & Hf & _).
  apply D_live. by eapply owner_live.
Qed.

Section Decided.
Variable R : list Z.
Hypothesis R_nodup : NoDup R.
Hypothesis R_reach : forall u, u ∈ R <-> reach h p u.
Hypothesis R_live : R ⊆ D.

Definition inside (x : Z) : Z :=
  (if x =? p then 1 else 0) + occurrences x (references h R).

Definition outside (x : Z) : Z :=
  occurrences x others +
  occurrences x (references h (filter (fun a => a ∉ R) D)).

Lemma count_split x : x ∈ D -> rc x = inside x + outside x.
Proof.
  intros Hx. rewrite exact, (references_split R), occurrences_cons by done.
  unfold inside, outside. lia.
Qed.

Lemma outside_nonneg x : 0 <= outside x.
Proof.
  unfold outside. pose proof (occurrences_nonneg x others).
  pose proof (occurrences_nonneg x (references h (filter (fun a => a ∉ R) D))). lia.
Qed.

Lemma inside_small x : x ∈ D -> in_width 32 (inside x).
Proof.
  intros Hx. pose proof (count_split x Hx). pose proof (small x Hx). unfold in_width.
  pose proof (outside_nonneg x). unfold inside in *.
  pose proof (occurrences_nonneg x (references h R)). destruct (x =? p); lia.
Qed.

(** An object is referred to from outside of what [p] reaches exactly when
    another pointer reaches it on a way that enters there. *)
Lemma outside_pos x : 0 < outside x <->
  x ∈ others \/ exists u, u ∈ D /\ (u ∉ R) /\ edge h u x.
Proof.
  unfold outside. rewrite <- occurrences_pos.
  assert ((exists u, u ∈ D /\ (u ∉ R) /\ edge h u x) <->
    x ∈ references h (filter (fun a => a ∉ R) D)) as ->.
  { rewrite references_edge. setoid_rewrite list_elem_of_filter. naive_solver. }
  rewrite <- occurrences_pos.
  pose proof (occurrences_nonneg x others). pose proof (occurrences_nonneg x
    (references h (filter (fun a => a ∉ R) D))). lia.
Qed.

Lemma outside_reached x : 0 < outside x -> exists r, r ∈ others /\ reach h r x.
Proof.
  rewrite outside_pos. intros [Hx | (u & Hu & Hn & He)].
  - exists x. split; [done | constructor].
  - destruct (no_garbage u Hu) as (r & [-> | Hr]%elem_of_cons & Hru).
    + by apply R_reach in Hru.
    + exists r. split; [done | by eapply rtc_r].
Qed.

(** Another pointer reaches [p] exactly when an object that [p] reaches, and
    that reaches [p], is referred to from outside. *)
Lemma held_elsewhere :
  (exists r, r ∈ others /\ reach h r p) <->
  exists x, x ∈ R /\ reach h x p /\ 0 < outside x.
Proof.
  split.
  - intros (r & Hr & Hp). destruct (decide (r ∈ R)) as [Hin|Hin].
    + exists r. split_and!; auto. apply outside_pos. auto.
    + destruct (rtc_crossing (edge h) (fun a => a ∈ R) r p) as (u & v & _ & Hu & Hv & He & Hvp); auto.
      * intros a. destruct (decide (a ∈ R)); auto.
      * apply R_reach. constructor.
      * exists v. split_and!; auto. apply outside_pos. right. exists u.
        split_and!; auto. by eapply edge_source.
  - intros (x & _ & Hxp & Hx). destruct (outside_reached x Hx) as (r & Hr & Hrx).
    exists r. split; [done|]. by etransitivity.
Qed.
End Decided.

(** The decision of [DecrementGraph]: the object may be deleted exactly when no
    other pointer reaches it. *)
Lemma decision :
  exists w b, walk_from Visit h (ty p) p (rc p) = Defined w /\
    safe_to_delete (obj_map_ w) p (map_to_list (obj_map_ w)) = Defined b /\
    if b then ~ (exists r, r ∈ others /\ reach h r p)
    else exists r, r ∈ others /\ reach h r p.
Proof.
  destruct (walk_from_spec Visit ty rc h ok p) as (w & R & E & Hnd & HR & HRl & Hdom & Hnode).
  { by apply D_live. }
  assert (R ⊆ D) as HRD by (intros u Hu; apply D_live; auto).
  assert (forall x c, child (obj_map_ w) x c <-> x ∈ R /\ edge h x c) as Hch.
  { intros x c. unfold child. split.
    - intros (rt & Hx & Hc). split; [apply Hdom, elem_of_dom; eauto|].
      by apply (Hnode x rt Hx).
    - intros [Hx He]. apply Hdom, elem_of_dom in Hx as [rt Hx]. exists rt.
      split; auto. by apply (Hnode x rt Hx). }
  assert (forall x y, x ∈ R -> edge h x y -> y ∈ R) as Hcl.
  { intros x y Hx He. apply HR. eapply rtc_r; [by apply HR | done]. }
  assert (forall x y, x ∈ R -> tc (child (obj_map_ w)) x y <-> tc (edge h) x y) as Htc.
  { intros x y Hx. split.
    - induction 1 as [x y Hc | x y z Hc _ IH]; apply Hch in Hc as [_ He].
      + by apply tc_once.
      + eapply tc_l; eauto.
    - intros Ht. induction Ht as [x y He | x y z He _ IH].
      + apply tc_once, Hch. auto.
      + eapply tc_l; [apply Hch; eauto | eauto]. }
  destruct (safe_to_delete_forall (obj_map_ w) p (map_to_list (obj_map_ w))
    (fun x _ => reach h x p /\ 0 < outside R x)) as (b & Hb & Hbiff).
  { intros x rt Hx%elem_of_map_to_list. destruct (Hnode x rt Hx) as (Hc & Hr & _).
    assert (x ∈ R) as HxR by (apply Hdom, elem_of_dom; eauto).
    assert (x ∈ D) as HxD by auto.
    fold (inside R x) in Hr. rewrite wrap_small in Hr by (by apply inside_small).
    rewrite (count_split R) in Hc by auto. unfold blocks_delete.
    rewrite Hc, Hr. pose proof (outside_nonneg R x) as Hpos.
    destruct (x =? p) eqn:Ex; zbool.
    - eexists; split; [done|]. subst x. rewrite negb_true_iff, Z.eqb_neq. split; [|lia].
      intros. split; [constructor | lia].
    - destruct (inside R x <? inside R x + outside R x) eqn:El; zbool.
      + destruct (IsReachable_spec (obj_map_ w) p) with (x := x) as (b & V & -> & Hb).
        * intros a c Hac%Hch. apply Hdom. naive_solver.
        * by apply Hdom.
        * exists b. split; [done|]. rewrite Hb, Htc by done. unfold reach.
          rewrite rtc_tc. split; [intros; split; [auto | lia] | naive_solver].
      + exists false. split; [done|]. split; [done | lia]. }
  exists w, b. split_and!; auto. destruct b; rewrite (held_elsewhere R) by auto.
  - intros (x & Hx & Hxp & Ho). apply Hdom, elem_of_dom in Hx as [rt Hx].
    by apply (Hbiff x rt); [apply elem_of_map_to_list|].
  - destruct Hbiff as (x & rt & Hx & Hxp & Ho). apply elem_of_map_to_list in Hx.
    exists x. split_and!; auto. apply Hdom, elem_of_dom. eauto.
Qed.
End Decision.

End PtrDecision.
