(* ===== verification/PtrCollect.v ===== *)
(** * Pointers collect exactly the unreachable objects

    The life cycle of [Ptr] against the specification of a tracing collector: in
    a store whose counters are exact, dropping a pointer deletes the objects
    that can no longer be reached from the remaining pointers, all of them, and
    nothing else, and no deleted manager or object is touched. *)

From stdpp Require Import gmap.
From S2P Require Import Prelude Ptr PtrGraph PtrDecision.
Import Ptr PtrGraph PtrDecision.

#[local] Set Warnings "-clear-no-such-hyp".

Module PtrCollect.

(** ** The invariant of a store with pointers

    [E] are the pointers held outside of objects, [V] the views and the pointers
    that were reset and not yet destroyed.  [own] is the object of a manager,
    [ty] the class of a live object. *)

Definition all_members (h : heap) : list member :=
  concat (snd <$> map_to_list (objects h)).

Definition member_ptrs (h : heap) : list SharedPointer := m_ptr <$> all_members h.

Definition refs (m : Z) (l : list SharedPointer) : Z :=
  zlen (filter (fun s => pointer_manager_ s = m) l).

Definition ref_of (h : heap) (m : Z) : Z :=
  default 0 (ref_counter_ <$> managers h !! m).

(** The classes present all members, and no two entries of the cycle detector
    for objects and members of the store are equal. *)
Record distinct (Visit : Z -> list member -> option (list member))
    (ty : Z -> Z) (h : heap) : Prop := {
  dis_visit : forall a ms, objects h !! a = Some ms -> Visit (ty a) ms = Some ms;
  dis_objects : forall a b, is_Some (objects h !! a) ->
    is_Some (objects h !! b) -> entry (ty a) a = entry (ty b) b -> a = b;
  dis_members : forall a b i j f g, members_of h a !! i = Some f ->
    members_of h b !! j = Some g -> mkey f = mkey g -> a = b /\ i = j;
  dis_kinds : forall a b f, is_Some (objects h !! a) -> f ∈ members_of h b ->
    entry (ty a) a <> mkey f;
  dis_typed : forall f, f ∈ all_members h -> pointer_manager_ (m_ptr f) <> 0 ->
    m_type f = visitor_ (m_ptr f);
}.

Definition held_by (h : heap) (E : list SharedPointer) (a : Z) : Prop :=
  exists s r, s ∈ E /\ tgt h s = Some r /\ reach h r a.

Record Inv (Visit : Z -> list member -> option (list member))
    (own ty : Z -> Z) (h : heap) (E V : list SharedPointer) : Prop := {
  inv_distinct : distinct Visit ty h;
  inv_ptr : forall s, s ∈ E ++ member_ptrs h ++ V -> pointer_manager_ s <> 0 ->
    is_Some (managers h !! pointer_manager_ s) /\
    own (pointer_manager_ s) = pointer_ s /\ pointer_ s <> 0 /\
    (ref_of h (pointer_manager_ s) <> 0 -> visitor_ s = ty (pointer_ s));
  inv_manage : forall m pm, managers h !! m = Some pm -> m <> 0 /\
    0 < manage_counter_ pm /\
    manage_counter_ pm = refs m E + refs m (member_ptrs h) + refs m V;
  inv_ref : forall m pm, managers h !! m = Some pm -> ref_counter_ pm <> 0 ->
    ref_counter_ pm = refs m E + refs m (member_ptrs h) /\
    deleter_ pm = PtrDefaultDeleter /\ is_Some (objects h !! own m);
  inv_unique : forall m m', ref_of h m <> 0 -> ref_of h m' <> 0 ->
    own m = own m' -> m = m';
  inv_owned : forall a, is_Some (objects h !! a) ->
    exists m, ref_of h m <> 0 /\ own m = a;
  inv_garbage : forall a, is_Some (objects h !! a) -> held_by h E a;
  inv_bound : zlen E + zlen (member_ptrs h) + zlen V < 2 ^ 16;
}.

(** ** Counting lemmas *)

Lemma refs_app m l k : refs m (l ++ k) = refs m l + refs m k.
Proof. unfold refs. by rewrite list.filter_app, zlen_app. Qed.

Lemma refs_cons m s l :
  refs m (s :: l) = (if pointer_manager_ s =? m then 1 else 0) + refs m l.
Proof.
  unfold refs. rewrite filter_cons.
  destruct (decide _), (pointer_manager_ s =? m) eqn:E; zbool; try done.
  by rewrite zlen_cons.
Qed.

#[export] Instance refs_perm m : Proper (Permutation ==> eq) (refs m).
Proof. intros l k Hp. unfold refs, zlen. by rewrite Hp. Qed.

Lemma refs_nonneg m l : 0 <= refs m l.
Proof. apply zlen_nonneg. Qed.

Lemma refs_le m l : refs m l <= zlen l.
Proof. unfold refs, zlen. pose proof (length_filter (fun s => pointer_manager_ s = m) l). lia. Qed.

Lemma refs_in m l : 0 < refs m l <-> exists s, s ∈ l /\ pointer_manager_ s = m.
Proof.
  induction l as [|s l IH].
  - unfold refs. simpl. split; [done|]. intros (s & []%elem_of_nil & _).
  - rewrite refs_cons. setoid_rewrite elem_of_cons. pose proof (refs_nonneg m l).
    destruct (pointer_manager_ s =? m) eqn:E; zbool; split; naive_solver lia.
Qed.

Lemma all_members_in h f : f ∈ all_members h <-> exists a, f ∈ members_of h a.
Proof.
  unfold all_members, members_of. rewrite list_elem_of_In, in_concat.
  setoid_rewrite <- list_elem_of_In. split.
  - intros (ms & Hms & Hf). apply list_elem_of_fmap in Hms as ([a ms'] & -> & Ha).
    apply elem_of_map_to_list in Ha. exists a. by rewrite Ha.
  - intros (a & Hf). destruct (objects h !! a) as [ms|] eqn:Ha; [|by apply elem_of_nil in Hf].
    exists ms. split; [|done]. apply list_elem_of_fmap. exists (a, ms). split; [done|].
    by apply elem_of_map_to_list.
Qed.

Lemma all_members_delete h a ms :
  objects h !! a = Some ms -> all_members h ≡ₚ ms ++ all_members (delete_object h a).
Proof.
  intros Ha. unfold all_members. simpl. by rewrite <- (map_to_list_delete _ _ _ Ha).
Qed.

(** ** Targets and counters *)

Lemma tgt_Some h s t :
  tgt h s = Some t <-> pointer_manager_ s <> 0 /\
  ref_of h (pointer_manager_ s) <> 0 /\ t = pointer_ s.
Proof.
  unfold tgt, ref_of. destruct (pointer_manager_ s =? 0) eqn:E; zbool; [naive_solver|].
  destruct (managers h !! pointer_manager_ s) as [pm|]; simpl; [|naive_solver].
  destruct (ref_counter_ pm =? 0) eqn:E2; zbool; naive_solver.
Qed.

Lemma tgt_ext h h' s :
  (ref_of h' (pointer_manager_ s) = 0 <-> ref_of h (pointer_manager_ s) = 0) ->
  tgt h' s = tgt h s.
Proof.
  intros Hr. destruct (tgt h s) as [t|] eqn:E.
  - apply tgt_Some in E as (? & ? & ?). apply tgt_Some. naive_solver.
  - apply eq_None_not_Some. intros [t Ht]. apply tgt_Some in Ht as (? & ? & ->).
    assert (tgt h s = Some (pointer_ s)) by (apply tgt_Some; naive_solver). congruence.
Qed.

Lemma ref_of_lookup h m pm : managers h !! m = Some pm -> ref_of h m = ref_counter_ pm.
Proof. unfold ref_of. by intros ->. Qed.

Lemma ref_of_Some h m : ref_of h m <> 0 ->
  exists pm, managers h !! m = Some pm /\ ref_counter_ pm <> 0.
Proof. unfold ref_of. destruct (managers h !! m); simpl; [eauto | done]. Qed.

Lemma omap_cons_case {A B} (f : A -> option B) x l :
  omap f (x :: l) = match f x with Some y => y :: omap f l | None => omap f l end.
Proof. done. Qed.

Section Life.
Variable Visit : Z -> list member -> option (list member).
Variables own ty : Z -> Z.
Abbreviation inv := (Inv Visit own ty).

Lemma live_refs h E V m l :
  inv h E V -> ref_of h m <> 0 -> l ⊆ E ++ member_ptrs h ++ V ->
  refs m l = occurrences (own m) (omap (tgt h) l).
Proof.
  intros I Hm. destruct (ref_of_Some h m Hm) as (pm & Hpm & _).
  induction l as [|s l IH]; intros Hl; [done|].
  rewrite refs_cons, IH, omap_cons_case by set_solver.
  assert (s ∈ E ++ member_ptrs h ++ V) as Hs by set_solver.
  destruct (tgt h s) as [t|] eqn:Et.
  - apply tgt_Some in Et as (H0 & Hr & ->).
    destruct (inv_ptr _ _ _ _ _ _ I s Hs H0) as (_ & Ho & _). rewrite occurrences_cons.
    destruct (pointer_manager_ s =? m) eqn:E1, (own m =? pointer_ s) eqn:E2; zbool; try lia.
    + subst m. congruence.
    + destruct E1. apply (inv_unique _ _ _ _ _ _ I); congruence.
  - destruct (pointer_manager_ s =? m) eqn:E1; zbool; [|lia]. exfalso. subst m.
    assert (tgt h s = Some (pointer_ s)); [|congruence]. apply tgt_Some.
    split_and!; auto. by destruct (inv_manage _ _ _ _ _ _ I _ pm Hpm).
Qed.

(** The counter the walk finds for an object. *)
Definition rc (h : heap) (E : list SharedPointer) (x : Z) : Z :=
  occurrences x (omap (tgt h) (E ++ member_ptrs h)).

Lemma ref_rc h E V m : inv h E V -> ref_of h m <> 0 -> ref_of h m = rc h E (own m).
Proof.
  intros I Hm. destruct (ref_of_Some h m Hm) as (pm & Hpm & Hr).
  rewrite (ref_of_lookup _ _ _ Hpm).
  destruct (inv_ref _ _ _ _ _ _ I m pm Hpm Hr) as (-> & _).
  rewrite <- refs_app. eapply live_refs; eauto. set_solver.
Qed.

Lemma member_in h a f : f ∈ members_of h a -> m_ptr f ∈ member_ptrs h.
Proof. intros Hf. apply list_elem_of_fmap. exists f. rewrite all_members_in. eauto. Qed.

Lemma inv_walkable h E V : inv h E V -> walkable Visit ty (rc h E) h.
Proof.
  intros I. pose proof (inv_distinct _ _ _ _ _ _ I) as [D1 D2 D3 D4 _].
  split; auto. intros a f Hf.
  destruct (decide (pointer_manager_ (m_ptr f) = 0)) as [?|H0]; [auto|right].
  apply member_in in Hf.
  destruct (inv_ptr _ _ _ _ _ _ I (m_ptr f)) as ([pm Hpm] & Ho & Hp & Hty);
    [set_solver | done|]. exists pm. split; [done|]. intros Hr.
  pose proof (ref_of_lookup _ _ _ Hpm) as Hl. split_and!; auto.
  - rewrite <- Ho. by apply (inv_ref _ _ _ _ _ _ I _ pm Hpm).
  - apply Hty. congruence.
  - rewrite <- Ho, <- Hl. symmetry. eapply ref_rc; [done | congruence].
Qed.

Definition live (h : heap) : list Z := (map_to_list (objects h)).*1.

Lemma live_iff h a : a ∈ live h <-> is_Some (objects h !! a).
Proof.
  unfold live. rewrite list_elem_of_fmap. split.
  - intros ([b ms] & -> & Hb). apply elem_of_map_to_list in Hb. eauto.
  - intros [ms Hms]. exists (a, ms). split; [done|]. by apply elem_of_map_to_list.
Qed.

Lemma references_live h : references h (live h) = omap (tgt h) (member_ptrs h).
Proof.
  unfold references, live, member_ptrs, all_members.
  assert (forall am, am ∈ map_to_list (objects h) -> members_of h am.1 = am.2) as Hm.
  { intros [a ms] Ha. apply elem_of_map_to_list in Ha. unfold members_of. simpl. by rewrite Ha. }
  revert Hm. induction (map_to_list (objects h)) as [|am l IH]; intros Hm; [done|].
  rewrite !fmap_cons. cbn [concat]. rewrite fmap_app, omap_app.
  rewrite IH by (intros; apply Hm; by apply list_elem_of_further). f_equal.
  rewrite Hm by apply list_elem_of_here. unfold targets. generalize am.2 as ms.
  induction ms as [|f ms IHm]; [done|]. rewrite fmap_cons, !omap_cons_case.
  destruct (tgt h (m_ptr f)); by rewrite IHm.
Qed.

(** The decision for a pointer of the store. *)
Lemma decision_inv h s E V o :
  inv h (s :: E) V -> tgt h s = Some o ->
  exists w b, walk_from Visit h (ty o) o (ref_of h (pointer_manager_ s)) = Defined w /\
    safe_to_delete (obj_map_ w) o (map_to_list (obj_map_ w)) = Defined b /\
    if b then ~ held_by h E o else held_by h E o.
Proof.
  intros I Ho. pose proof Ho as Ho'. apply tgt_Some in Ho' as (H0 & Hr & ->).
  destruct (inv_ptr _ _ _ _ _ _ I s) as ([pm Hpm] & Hown & _); [set_solver | done|].
  rewrite (ref_rc h (s :: E) V) by done. rewrite Hown.
  destruct (decision Visit ty (rc h (s :: E)) h (inv_walkable _ _ _ I) (pointer_ s)
    (omap (tgt h) E) (live h)) as (w & b & Hw & Hs & Hb); auto.
  - apply live_iff.
  - apply NoDup_fst_map_to_list.
  - apply live_iff. rewrite <- Hown. apply (inv_ref _ _ _ _ _ _ I _ pm); auto.
    by rewrite <- (ref_of_lookup _ _ _ Hpm).
  - intros x _. unfold rc. rewrite omap_app, occurrences_app, references_live.
    rewrite omap_cons_case, Ho. lia.
  - intros x Hx%live_iff. destruct (inv_owned _ _ _ _ _ _ I x Hx) as (m & Hm & <-).
    rewrite <- (ref_rc h (s :: E) V) by done.
    destruct (ref_of_Some h m Hm) as (pm' & Hpm' & Hr').
    rewrite (ref_of_lookup _ _ _ Hpm').
    destruct (inv_ref _ _ _ _ _ _ I m pm' Hpm' Hr') as (-> & _).
    pose proof (inv_bound _ _ _ _ _ _ I). pose proof (zlen_nonneg V).
    pose proof (refs_le m (s :: E)). pose proof (refs_le m (member_ptrs h)). lia.
  - intros a Ha%live_iff. destruct (inv_garbage _ _ _ _ _ _ I a Ha) as (s' & r & Hs & Ht & Hra).
    exists r. split; [|done]. rewrite elem_of_cons. apply elem_of_cons in Hs as [-> | Hs].
    + left. congruence.
    + right. apply list_elem_of_omap. eauto.
  - exists w, b. split_and!; auto.
    assert ((exists r, r ∈ omap (tgt h) E /\ reach h r (pointer_ s)) <->
            held_by h E (pointer_ s)) as Hiff.
    { unfold held_by. setoid_rewrite list_elem_of_omap. naive_solver. }
    destruct b; tauto.
Qed.

(** ** Steps that keep the invariant *)

Lemma edge_mono h h' a b :
  (forall s t, tgt h' s = Some t -> tgt h s = Some t) ->
  objects h' ⊆ objects h -> edge h' a b -> edge h a b.
Proof.
  unfold edge, targets. rewrite !list_elem_of_omap. intros Ht Ho (f & Hf & Hb).
  exists f. split; [|auto]. unfold members_of in *.
  destruct (objects h' !! a) as [ms|] eqn:E; [|by apply elem_of_nil in Hf].
  by rewrite (lookup_weaken _ _ _ _ E Ho).
Qed.

Lemma reach_mono h h' a b :
  (forall s t, tgt h' s = Some t -> tgt h s = Some t) ->
  objects h' ⊆ objects h -> reach h' a b -> reach h a b.
Proof.
  intros Ht Ho. induction 1 as [|a c b He _ IH]; [constructor|].
  eapply rtc_l; [eapply edge_mono; eauto | done].
Qed.

Lemma held_mono h h' E a :
  (forall s t, tgt h' s = Some t -> tgt h s = Some t) ->
  objects h' ⊆ objects h -> held_by h' E a -> held_by h E a.
Proof.
  intros Ht Ho (s & r & ? & ? & ?). exists s, r. split_and!; auto.
  by eapply reach_mono.
Qed.

(** What no step may touch: the pointers [E] and everything they reach. *)
Definition kept (h h' : heap) (E : list SharedPointer) : Prop :=
  objects h' ⊆ objects h /\
  (forall s t, tgt h' s = Some t -> tgt h s = Some t) /\
  forall s r a, s ∈ E -> tgt h s = Some r -> reach h r a ->
    tgt h' s = Some r /\ reach h' r a /\ objects h' !! a = objects h !! a.

Lemma kept_same h h' E :
  objects h' = objects h -> (forall s, tgt h' s = tgt h s) -> kept h h' E.
Proof.
  intros Ho Ht. split_and!.
  - by rewrite Ho.
  - intros s t. by rewrite Ht.
  - intros s r a _ Hs Hr. split_and!; [by rewrite Ht | | by rewrite Ho].
    apply (reach_mono h' h r a); [intros ??; by rewrite Ht | by rewrite Ho | done].
Qed.

Lemma kept_twice h1 h2 h3 E : kept h1 h2 E -> kept h2 h3 E -> kept h1 h3 E.
Proof.
  intros (A1 & A2 & A3) (B1 & B2 & B3). split_and!; [by etransitivity | eauto|].
  intros s r a Hs Ht Hr. destruct (A3 s r a Hs Ht Hr) as (Ht' & Hr' & E1).
  destruct (B3 s r a Hs Ht' Hr') as (? & ? & E2). split_and!; auto. congruence.
Qed.

Lemma kept_sub h h' E E' : E' ⊆ E -> kept h h' E -> kept h h' E'.
Proof. intros Hs (? & ? & H). split_and!; auto. Qed.

Lemma ref_of_set h m pm m' :
  ref_of (set_manager h m pm) m' = if m' =? m then ref_counter_ pm else ref_of h m'.
Proof.
  unfold ref_of, set_manager. simpl. destruct (m' =? m) eqn:E; zbool; subst.
  - by rewrite lookup_insert_eq.
  - by rewrite lookup_insert_ne.
Qed.

Lemma tgt_set h m pm pm' s :
  managers h !! m = Some pm -> (ref_counter_ pm' = 0 <-> ref_counter_ pm = 0) ->
  tgt (set_manager h m pm') s = tgt h s.
Proof.
  intros Hm Hr. apply tgt_ext. rewrite ref_of_set.
  destruct (pointer_manager_ s =? m) eqn:E; zbool; subst; [|done].
  by rewrite (ref_of_lookup _ _ _ Hm).
Qed.

(** A change of the counters of one manager. *)
Lemma inv_update h E V m pm pm' E' V' :
  inv h E V -> managers h !! m = Some pm -> deleter_ pm' = deleter_ pm ->
  (ref_counter_ pm' = 0 <-> ref_counter_ pm = 0) ->
  E' ++ V' ⊆ E ++ member_ptrs h ++ V ->
  (forall m', m' <> m -> m' <> 0 -> refs m' E' = refs m' E /\ refs m' V' = refs m' V) ->
  (forall a, held_by h E a -> held_by h E' a) ->
  zlen E' + zlen (member_ptrs h) + zlen V' < 2 ^ 16 ->
  0 < manage_counter_ pm' ->
  manage_counter_ pm' = refs m E' + refs m (member_ptrs h) + refs m V' ->
  (ref_counter_ pm' <> 0 -> ref_counter_ pm' = refs m E' + refs m (member_ptrs h)) ->
  inv (set_manager h m pm') E' V'.
Proof.
  intros I Hm Hdel Hz Hsub Hrefs Hheld Hb Hpos Hman Href.
  pose proof (fun s => tgt_set h m pm pm' s Hm Hz) as Ht.
  assert (forall x, ref_of (set_manager h m pm') x = 0 <-> ref_of h x = 0) as Hro.
  { intros x. rewrite ref_of_set. destruct (x =? m) eqn:E1; zbool; subst; [|done].
    by rewrite (ref_of_lookup _ _ _ Hm). }
  assert (forall x y, managers (set_manager h m pm') !! x = Some y ->
    x = m /\ y = pm' \/ x <> m /\ managers h !! x = Some y) as Hlk.
  { intros x y. simpl. destruct (decide (x = m)) as [-> | Hx].
    - rewrite lookup_insert_eq. intros [= <-]. auto.
    - rewrite lookup_insert_ne by done. auto. }
  split.
  - destruct (inv_distinct _ _ _ _ _ _ I). by split.
  - intros s Hs H0. change (member_ptrs (set_manager h m pm')) with (member_ptrs h) in Hs.
    destruct (inv_ptr _ _ _ _ _ _ I s) as (Hl & ? & ? & ?); [set_solver | done|].
    rewrite Hro. split_and!; auto. simpl. rewrite lookup_insert. by case_decide.
  - intros x y [[-> ->] | [Hx Hy]]%Hlk.
    + split_and!; auto. by apply (inv_manage _ _ _ _ _ _ I m pm).
    + destruct (inv_manage _ _ _ _ _ _ I x y Hy) as (? & ? & ?).
      destruct (Hrefs x Hx) as [-> ->]; auto.
  - intros x y [[-> ->] | [Hx Hy]]%Hlk Hr.
    + destruct (inv_ref _ _ _ _ _ _ I m pm Hm) as (_ & ? & ?); [naive_solver|].
      split_and!; auto. congruence.
    + destruct (inv_ref _ _ _ _ _ _ I x y Hy Hr) as (? & ? & ?).
      destruct (inv_manage _ _ _ _ _ _ I x y Hy) as (? & _).
      destruct (Hrefs x Hx) as [-> _]; auto.
  - intros x y. rewrite !Hro. apply (inv_unique _ _ _ _ _ _ I).
  - intros a Ha. destruct (inv_owned _ _ _ _ _ _ I a Ha) as (x & ? & ?). exists x.
    by rewrite Hro.
  - intros a Ha. apply (held_mono (set_manager h m pm') h E' a); auto.
    + intros ??. by rewrite Ht.
    + apply Hheld. by apply (inv_garbage _ _ _ _ _ _ I).
  - done.
Qed.

(** A pointer changes its role, or the order changes. *)
Lemma inv_move h E V E' V' :
  inv h E V -> E' ++ V' ⊆ E ++ member_ptrs h ++ V ->
  (forall m, m <> 0 -> refs m E' + refs m V' = refs m E + refs m V) ->
  (forall m, ref_of h m <> 0 -> refs m E' = refs m E) ->
  (forall a, held_by h E a -> held_by h E' a) ->
  zlen E' + zlen V' <= zlen E + zlen V -> inv h E' V'.
Proof.
  intros I Hsub Hman Href Hheld Hb. destruct I as [I1 I2 I3 I4 I5 I6 I7 I8].
  split; auto; [| | |lia].
  - intros s Hs. apply I2. set_solver.
  - intros m pm Hm. destruct (I3 m pm Hm) as (? & ? & ?). specialize (Hman m).
    split_and!; auto; lia.
  - intros m pm Hm Hr. rewrite Href; [eauto|]. by rewrite (ref_of_lookup _ _ _ Hm).
Qed.

Lemma inv_drop h s E V : inv h (s :: E) V -> tgt h s = None -> inv h E (s :: V).
Proof.
  intros I Ht. apply (inv_move _ _ _ _ _ I); rewrite ?zlen_cons; [set_solver | | | |lia].
  - intros m _. rewrite !refs_cons. lia.
  - intros m Hm. rewrite refs_cons. destruct (pointer_manager_ s =? m) eqn:E1; zbool; [|lia].
    exfalso. assert (tgt h s = Some (pointer_ s)); [|congruence]. apply tgt_Some.
    destruct (ref_of_Some h m Hm) as (pm & Hpm & _). subst m. split_and!; auto.
    by destruct (inv_manage _ _ _ _ _ _ I _ pm Hpm).
  - intros a (x & r & [-> | Hx]%elem_of_cons & Hr & Ha); [congruence|]. by exists x, r.
Qed.

Lemma inv_perm h E V E' V' : E ≡ₚ E' -> V ≡ₚ V' -> inv h E V -> inv h E' V'.
Proof.
  intros HE HV I. apply (inv_move _ _ _ _ _ I).
  - rewrite HE, HV. set_solver.
  - intros. by rewrite HE, HV.
  - intros. by rewrite HE.
  - intros a (x & r & Hx & ? & ?). exists x, r. split_and!; auto. by rewrite <- HE.
  - unfold zlen. rewrite HE, HV. lia.
Qed.

(** The store after the object [o] of the manager [m] was taken out. *)
Definition dead (pm : PointerManager) : PointerManager :=
  {| ref_counter_ := 0; manage_counter_ := manage_counter_ pm;
     deleter_ := deleter_ pm |}.

Definition kill (h : heap) (m o : Z) (pm : PointerManager) : heap :=
  delete_object (set_manager h m (dead pm)) o.

Lemma ref_of_kill h m o pm x :
  ref_of (kill h m o pm) x = if x =? m then 0 else ref_of h x.
Proof. apply ref_of_set. Qed.

Lemma tgt_kill h m o pm x t :
  tgt (kill h m o pm) x = Some t <-> pointer_manager_ x <> m /\ tgt h x = Some t.
Proof.
  rewrite !tgt_Some, ref_of_kill.
  destruct (pointer_manager_ x =? m) eqn:E; zbool; naive_solver.
Qed.

Lemma kill_objects h m o pm a :
  objects (kill h m o pm) !! a = if a =? o then None else objects h !! a.
Proof.
  simpl. destruct (a =? o) eqn:E; zbool; subst; [by rewrite lookup_delete_eq|].
  by rewrite lookup_delete_ne.
Qed.

Lemma kill_subset h m o pm : objects (kill h m o pm) ⊆ objects h.
Proof. apply delete_subseteq. Qed.

Lemma members_sub h h' a f :
  objects h' ⊆ objects h -> f ∈ members_of h' a -> members_of h' a = members_of h a.
Proof.
  intros Ho. unfold members_of. destruct (objects h' !! a) as [ms|] eqn:E.
  - by rewrite (lookup_weaken _ _ _ _ E Ho).
  - intros []%elem_of_nil.
Qed.

Lemma distinct_mono h h' :
  objects h' ⊆ objects h -> distinct Visit ty h -> distinct Visit ty h'.
Proof.
  intros Ho [D1 D2 D3 D4 D5].
  assert (forall a, is_Some (objects h' !! a) -> is_Some (objects h !! a)) as Hs.
  { intros a [ms Ha]. exists ms. by eapply lookup_weaken. }
  split; auto.
  - intros a ms Ha. apply D1. by eapply lookup_weaken.
  - intros a b i j f g Hf Hg.
    rewrite (members_sub h h' a f) in Hf by (eauto using list_elem_of_lookup_2).
    rewrite (members_sub h h' b g) in Hg by (eauto using list_elem_of_lookup_2). eauto.
  - intros a b f Ha Hf. rewrite (members_sub h h' b f) in Hf by done. eauto.
  - intros f. rewrite all_members_in. intros (a & Hf).
    rewrite (members_sub h h' a f) in Hf by done. apply D5, all_members_in. eauto.
Qed.

(** A path either avoids the object that is taken out or leaves it last through
    one of its members. *)
Lemma reach_kill h E V m o pm r a :
  inv h E V -> ref_of h m <> 0 -> own m = o -> reach h r a -> a <> o ->
  (r <> o /\ reach (kill h m o pm) r a) \/
  exists x, edge h o x /\ x <> o /\ reach (kill h m o pm) x a.
Proof.
  intros I Hm Ho Hr Ha. induction Hr as [a | r z a He Hza IH]; [left; split; [done|constructor]|].
  destruct (IH Ha) as [[Hz Hk] | ?]; [|auto].
  destruct (decide (r = o)) as [-> | Hro]; [right; eauto|]. left. split; [done|].
  eapply rtc_l; [|exact Hk]. unfold edge, targets in *.
  rewrite list_elem_of_omap in *. destruct He as (f & Hf & Ht). exists f. split.
  - unfold members_of in *. rewrite kill_objects. by rewrite (proj2 (Z.eqb_neq r o)).
  - apply tgt_kill. split; [|done]. intros Em. apply tgt_Some in Ht as (H0 & _ & ->).
    apply Hz. rewrite <- Ho, <- Em. symmetry.
    apply (inv_ptr _ _ _ _ _ _ I); [|done]. apply member_in in Hf. set_solver.
Qed.

Lemma member_ptrs_kill h m o pm ms :
  objects h !! o = Some ms ->
  member_ptrs h ≡ₚ (m_ptr <$> ms) ++ member_ptrs (kill h m o pm).
Proof.
  intros Ho. unfold member_ptrs. rewrite (all_members_delete h o ms Ho), fmap_app. done.
Qed.

Lemma inv_kill h s E V o pm ms :
  inv h (s :: E) V -> tgt h s = Some o ->
  managers h !! pointer_manager_ s = Some pm -> objects h !! o = Some ms ->
  inv (kill h (pointer_manager_ s) o pm) ((m_ptr <$> ms) ++ E) (s :: V).
Proof.
  intros I Ht Hpm Hms. pose proof Ht as Ht'. apply tgt_Some in Ht' as (H0 & Hr & Ho).
  pose proof (member_ptrs_kill h (pointer_manager_ s) o pm ms Hms) as Hp.
  destruct (inv_ptr _ _ _ _ _ _ I s) as (_ & Hown & _); [set_solver | done|].
  set (m := pointer_manager_ s) in *. set (h2 := kill h m o pm) in *.
  assert (forall x y, managers h2 !! x = Some y ->
    x = m /\ y = dead pm \/ x <> m /\ managers h !! x = Some y) as Hlk.
  { intros x y. simpl. destruct (decide (x = m)) as [-> | Hx].
    - rewrite lookup_insert_eq. intros [= <-]. auto.
    - rewrite lookup_insert_ne by done. auto. }
  assert (forall x, refs x (member_ptrs h) =
    refs x (m_ptr <$> ms) + refs x (member_ptrs h2)) as Hrefs.
  { intros x. by rewrite Hp, refs_app. }
  split.
  - eapply distinct_mono; [apply kill_subset | apply I].
  - intros x Hx Hx0. destruct (inv_ptr _ _ _ _ _ _ I x) as (Hl & ? & ? & Hv); auto.
    { rewrite Hp. set_solver. }
    unfold h2. rewrite ref_of_kill. split_and!; auto.
    + simpl. rewrite lookup_insert. by case_decide.
    + destruct (pointer_manager_ x =? m); done.
  - intros x y Hxy. rewrite refs_app, refs_cons.
    destruct (Hlk x y Hxy) as [[-> ->] | [Hx Hy]].
    + destruct (inv_manage _ _ _ _ _ _ I m pm Hpm) as (? & ? & Hc).
      rewrite refs_cons, Hrefs in Hc. simpl. split_and!; auto. lia.
    + destruct (inv_manage _ _ _ _ _ _ I x y Hy) as (? & ? & Hc).
      rewrite refs_cons, Hrefs in Hc. split_and!; auto. lia.
  - intros x y [[-> ->] | [Hx Hy]]%Hlk Hr'; [done|].
    destruct (inv_ref _ _ _ _ _ _ I x y Hy Hr') as (Hc & ? & ?).
    rewrite refs_cons, Hrefs in Hc. fold m in Hc.
    rewrite (proj2 (Z.eqb_neq m x)) in Hc by congruence.
    rewrite refs_app. split_and!; auto; [lia|]. unfold h2. rewrite kill_objects.
    destruct (own x =? o) eqn:Eo; zbool; [|done]. destruct Hx.
    apply (inv_unique _ _ _ _ _ _ I); [|done | congruence].
    by rewrite (ref_of_lookup _ _ _ Hy).
  - intros x y. unfold h2. rewrite !ref_of_kill.
    destruct (x =? m), (y =? m); try done. apply (inv_unique _ _ _ _ _ _ I).
  - intros a. unfold h2. rewrite kill_objects. destruct (a =? o) eqn:Ea; zbool; [by intros []|].
    intros Ha. destruct (inv_owned _ _ _ _ _ _ I a Ha) as (x & Hx & Hox). exists x.
    rewrite ref_of_kill. destruct (x =? m) eqn:Ex; zbool; [|done]. congruence.
  - intros a. unfold h2. rewrite kill_objects. destruct (a =? o) eqn:Ea; zbool; [by intros []|].
    intros Ha. destruct (inv_garbage _ _ _ _ _ _ I a Ha) as (x & r & Hx & Hxr & Hra).
    destruct (reach_kill h (s :: E) V m o pm r a I Hr) as [[Hro Hk] | (y & He & Hy & Hk)];
      auto; [congruence | |].
    + exists x, r. apply elem_of_cons in Hx as [-> | Hx]; [congruence|].
      split_and!; [set_solver | | done]. apply tgt_kill. split; [|done]. intros Em.
      apply tgt_Some in Hxr as (Hx0 & _ & ->). destruct Hro.
      destruct (inv_ptr _ _ _ _ _ _ I x) as (_ & Hxo & _); [set_solver | done|]. congruence.
    + unfold edge, targets, members_of in He. rewrite Hms in He. simpl in He.
      apply list_elem_of_omap in He as (f & Hf & Hft). exists (m_ptr f), y.
      split_and!; [| | done].
      * apply elem_of_app. left. apply list_elem_of_fmap. eauto.
      * apply tgt_kill. split; [|done]. intros Em. apply tgt_Some in Hft as (Hx0 & _ & ->).
        destruct Hy. destruct (inv_ptr _ _ _ _ _ _ I (m_ptr f)) as (_ & Hxo & _); [|done|congruence].
        rewrite Hp. rewrite !elem_of_app, list_elem_of_fmap. eauto 10.
  - pose proof (inv_bound _ _ _ _ _ _ I) as Hb. rewrite zlen_app, !zlen_cons in *.
    assert (zlen (member_ptrs h) = zlen (m_ptr <$> ms) + zlen (member_ptrs h2)); [|lia].
    rewrite <- zlen_app. unfold zlen. by rewrite Hp.
Qed.

Lemma kept_kill h s E V o pm :
  inv h (s :: E) V -> tgt h s = Some o -> ~ held_by h E o ->
  kept h (kill h (pointer_manager_ s) o pm) E.
Proof.
  intros I Ht Hn. pose proof Ht as Ht'. apply tgt_Some in Ht' as (H0 & Hr & Ho).
  destruct (inv_ptr _ _ _ _ _ _ I s) as (_ & Hown & _); [set_solver | done|].
  set (m := pointer_manager_ s) in *. split_and!.
  - apply kill_subset.
  - intros x t Hx%tgt_kill. tauto.
  - intros x r a Hx Hxr Hra.
    assert (forall b, reach h r b -> b <> o) as Hav.
    { intros b Hb ->. apply Hn. by exists x, r. }
    split_and!.
    + apply tgt_kill. split; [|done]. intros Em. apply (Hav r); [constructor|].
      apply tgt_Some in Hxr as (Hx0 & _ & ->).
      destruct (inv_ptr _ _ _ _ _ _ I x) as (_ & Hxo & _); [set_solver | done | congruence].
    + clear Hxr. revert Hav. induction Hra as [r | r z a He Hza IH]; intros Hav; [constructor|].
      eapply rtc_l; [|apply IH; intros b Hb; apply Hav; by eapply rtc_l].
      unfold edge, targets in *. rewrite list_elem_of_omap in *.
      destruct He as (f & Hf & Hft). exists f. split.
      * unfold members_of in *. rewrite kill_objects, (proj2 (Z.eqb_neq r o)); [done|].
        apply Hav. constructor.
      * apply tgt_kill. split; [|done]. intros Em. apply (Hav z).
        -- eapply rtc_l; [|constructor]. unfold edge, targets. rewrite list_elem_of_omap. eauto.
        -- apply tgt_Some in Hft as (Hf0 & _ & ->). apply member_in in Hf.
           destruct (inv_ptr _ _ _ _ _ _ I (m_ptr f)) as (_ & Hxo & _); [set_solver | done | congruence].
    + rewrite kill_objects, (proj2 (Z.eqb_neq a o)); auto.
Qed.

(** The manager of a pointer is deleted with the last of its pointers. *)
Lemma inv_unmanage h E V p m pm :
  inv h E (p :: V) -> pointer_manager_ p = m -> managers h !! m = Some pm ->
  ref_counter_ pm = 0 ->
  (forall s, s ∈ E ++ member_ptrs h ++ V -> pointer_manager_ s <> m) ->
  inv (delete_manager h m) E V.
Proof.
  intros I Hp Hm Hr Hn.
  assert (forall x, ref_of (delete_manager h m) x = ref_of h x) as Hro.
  { intros x. unfold ref_of. simpl. destruct (decide (x = m)) as [-> | Hx].
    - by rewrite lookup_delete_eq, Hm.
    - by rewrite lookup_delete_ne. }
  assert (forall x y, managers (delete_manager h m) !! x = Some y ->
    x <> m /\ managers h !! x = Some y) as Hlk.
  { intros x y. simpl. rewrite lookup_delete_Some. naive_solver. }
  assert (forall s, tgt (delete_manager h m) s = tgt h s) as Ht
    by (intros; apply tgt_ext; by rewrite Hro).
  destruct I as [I1 I2 I3 I4 I5 I6 I7 I8]. split; auto.
  - destruct I1; by split.
  - intros s Hs H0. destruct (I2 s) as ([y Hy] & ? & ? & ?); [|done|].
    { change (member_ptrs (delete_manager h m)) with (member_ptrs h) in Hs. set_solver. }
    rewrite Hro. split_and!; auto. exists y. simpl. rewrite lookup_delete_ne; [done|].
    intros E1. by apply (Hn s).
  - intros x y [Hx Hy]%Hlk. destruct (I3 x y Hy) as (? & ? & Hc).
    rewrite refs_cons, (proj2 (Z.eqb_neq _ x)) in Hc by congruence. auto.
  - intros x y [Hx Hy]%Hlk. eauto.
  - intros x y. rewrite !Hro. auto.
  - intros a Ha. destruct (I6 a Ha) as (x & ? & ?). exists x. by rewrite Hro.
  - intros a Ha. apply (held_mono (delete_manager h m) h E a); auto. intros ??. by rewrite Ht.
  - rewrite zlen_cons in I8. change (member_ptrs (delete_manager h m)) with (member_ptrs h). lia.
Qed.

Lemma set_delete_manager h m pm : delete_manager (set_manager h m pm) m = delete_manager h m.
Proof. unfold delete_manager, set_manager. simpl. by rewrite delete_insert_eq. Qed.

Lemma release h E s V :
  inv h E (s :: V) -> exists h', SharedPointer_Reset h s = Defined h' /\
    inv h' E V /\ objects h' = objects h /\ forall x, tgt h' x = tgt h x.
Proof.
  intros I. unfold SharedPointer_Reset.
  destruct (pointer_manager_ s =? 0) eqn:E0; zbool.
  { exists h. split_and!; auto. apply (inv_move _ _ _ _ _ I); auto; [set_solver | |].
    - intros m Hm. rewrite refs_cons, (proj2 (Z.eqb_neq _ m)) by congruence. lia.
    - rewrite zlen_cons. lia. }
  destruct (inv_ptr _ _ _ _ _ _ I s) as ([pm Hpm] & _); [set_solver | done|].
  unfold DecrementManage, manage_counter, manager. rewrite Hpm. simpl.
  rewrite lookup_insert_eq. simpl.
  destruct (inv_manage _ _ _ _ _ _ I _ pm Hpm) as (_ & Hpos & Hc).
  pose proof (inv_bound _ _ _ _ _ _ I) as Hb. rewrite zlen_cons in Hb.
  set (m := pointer_manager_ s) in *. rewrite refs_cons in Hc. fold m in Hc.
  rewrite Z.eqb_refl in Hc. pose proof (refs_le m E). pose proof (refs_le m V).
  pose proof (refs_le m (member_ptrs h)). rewrite wrap_small by (unfold in_width; lia).
  destruct (manage_counter_ pm - 1 =? 0) eqn:E1; zbool.
  - pose proof (refs_nonneg m E). pose proof (refs_nonneg m V).
    pose proof (refs_nonneg m (member_ptrs h)).
    assert (ref_counter_ pm = 0) as Hr.
    { destruct (decide (ref_counter_ pm = 0)) as [|Hr]; [done|].
      destruct (inv_ref _ _ _ _ _ _ I m pm Hpm Hr) as (? & _). lia. }
    rewrite set_delete_manager. eexists. split; [done|]. split_and!; [|done|].
    + apply (inv_unmanage _ _ _ s m pm); auto. intros x Hx E2.
      assert (0 < refs m (E ++ member_ptrs h ++ V)) by (apply refs_in; eauto).
      rewrite !refs_app in *. lia.
    + intros x. apply tgt_ext. unfold ref_of. simpl.
      destruct (decide (pointer_manager_ x = m)) as [-> | Hx].
      * by rewrite lookup_delete_eq, Hpm.
      * by rewrite lookup_delete_ne.
  - eexists. split; [done|]. split_and!; [|done|].
    + apply (inv_update h E (s :: V) m pm); simpl; auto; try lia; try set_solver.
      * intros m' Hm' _. rewrite refs_cons, (proj2 (Z.eqb_neq _ m')) by (fold m; congruence).
        auto.
      * intros. by apply (inv_ref _ _ _ _ _ _ I m pm).
    + intros x. by apply (tgt_set h m pm).
Qed.

(** ** Dropping a pointer *)

(** A single reference is not held by anything else. *)
Lemma last_reference h s E V o :
  inv h (s :: E) V -> tgt h s = Some o -> ref_of h (pointer_manager_ s) = 1 ->
  ~ held_by h E o.
Proof.
  intros I Ht H1 (x & r & Hx & Hxr & Hro).
  pose proof Ht as Ht'. apply tgt_Some in Ht' as (H0 & Hr & ->).
  destruct (inv_ptr _ _ _ _ _ _ I s) as (_ & Hown & _); [set_solver | done|].
  rewrite (ref_rc h (s :: E) V), Hown in H1 by done. unfold rc in H1.
  rewrite <- app_comm_cons, omap_cons_case, Ht, occurrences_cons, Z.eqb_refl in H1.
  rewrite omap_app, occurrences_app, <- references_live in H1.
  pose proof (occurrences_nonneg (pointer_ s) (omap (tgt h) E)).
  pose proof (occurrences_nonneg (pointer_ s) (references h (live h))).
  apply rtc_inv_r in Hro as [-> | (u & _ & He)].
  - assert (0 < occurrences (pointer_ s) (omap (tgt h) E)); [|lia].
    apply occurrences_pos, list_elem_of_omap. eauto.
  - assert (0 < occurrences (pointer_ s) (references h (live h))); [|lia].
    apply occurrences_pos. rewrite references_edge. exists u. split; [|done].
    unfold edge, targets in He. apply list_elem_of_omap in He as (f & Hf & _).
    apply live_iff. by eapply owner_live.
Qed.

Definition counted (pm : PointerManager) (c : Z) : PointerManager :=
  {| ref_counter_ := c; manage_counter_ := manage_counter_ pm;
     deleter_ := deleter_ pm |}.

Lemma DecrementRef_counted h s pm c :
  managers h !! pointer_manager_ s = Some pm -> pointer_manager_ s <> 0 ->
  in_width 16 (ref_counter_ pm - c) ->
  DecrementRef h s c =
  Defined (set_manager h (pointer_manager_ s) (counted pm (ref_counter_ pm - c))).
Proof.
  intros Hm H0 Hw. unfold DecrementRef, Decrement, manager.
  rewrite (proj2 (Z.eqb_neq _ 0) H0), Hm. unfold counted. by rewrite wrap_small.
Qed.

(** Everything the code reads of a pointer to a live object. *)
Lemma live_pointer h s E V o :
  inv h (s :: E) V -> tgt h s = Some o -> exists pm ms,
    pointer_manager_ s <> 0 /\ pointer_ s = o /\ o <> 0 /\
    managers h !! pointer_manager_ s = Some pm /\ objects h !! o = Some ms /\
    0 < ref_counter_ pm < 2 ^ 16 /\ deleter_ pm = PtrDefaultDeleter /\
    visitor_ s = ty o /\ Visit (ty o) ms = Some ms /\
    ref_counter_ pm = refs (pointer_manager_ s) (s :: E) +
                      refs (pointer_manager_ s) (member_ptrs h).
Proof.
  intros I Ht. apply tgt_Some in Ht as (H0 & Hr & ->).
  destruct (inv_ptr _ _ _ _ _ _ I s) as ([pm Hpm] & Hown & Hp0 & Hv); [set_solver | done|].
  specialize (Hv Hr). rewrite (ref_of_lookup _ _ _ Hpm) in Hr.
  destruct (inv_ref _ _ _ _ _ _ I _ pm Hpm Hr) as (Hc & Hd & [ms Hms]).
  rewrite Hown in Hms. exists pm, ms.
  pose proof (inv_bound _ _ _ _ _ _ I). pose proof (zlen_nonneg V).
  pose proof (refs_le (pointer_manager_ s) (s :: E)).
  pose proof (refs_le (pointer_manager_ s) (member_ptrs h)).
  pose proof (refs_nonneg (pointer_manager_ s) (s :: E)).
  pose proof (refs_nonneg (pointer_manager_ s) (member_ptrs h)).
  split_and!; auto; [lia | lia|]. by apply (inv_distinct _ _ _ _ _ _ I).
Qed.

(** The first half of [Reset]: the counter drops to zero exactly when nothing
    else reaches the object, and by one otherwise. *)
Lemma decrement_decides h s E V o pm :
  inv h (s :: E) V -> tgt h s = Some o ->
  managers h !! pointer_manager_ s = Some pm ->
  exists b : bool, (if ref_counter_ pm =? 1 then DecrementRef h s 1
             else DecrementGraph Visit h (visitor_ s) s) =
    Defined (set_manager h (pointer_manager_ s)
               (counted pm (if b then 0 else ref_counter_ pm - 1))) /\
    if b then ~ held_by h E o else held_by h E o /\ ref_counter_ pm <> 1.
Proof.
  intros I Ht Hpm.
  destruct (live_pointer h s E V o I Ht) as (pm' & ms & H0 & Hp & _ & Hpm' & Hms & Hr & _ & Hv & HV & _).
  assert (pm' = pm) as -> by congruence.
  destruct (ref_counter_ pm =? 1) eqn:E1; zbool.
  - exists true. rewrite (DecrementRef_counted h s pm 1) by (auto; unfold in_width; lia).
    rewrite E1. split; [done|].
    eapply last_reference; eauto. by rewrite (ref_of_lookup _ _ _ Hpm).
  - destruct (decision_inv h s E V o I Ht) as (w & b & Hw & Hs & Hb).
    rewrite (ref_of_lookup _ _ _ Hpm) in Hw. exists b. split; [|by destruct b].
    unfold DecrementGraph, ref_counter, manager. rewrite Hpm, Hp, Hms, Hv, HV, Hw, Hs.
    destruct b; rewrite (DecrementRef_counted h s pm) by (auto; unfold in_width; lia); [|done].
    by rewrite Z.sub_diag.
Qed.

Lemma inv_decrement h s E V o pm :
  inv h (s :: E) V -> tgt h s = Some o ->
  managers h !! pointer_manager_ s = Some pm -> held_by h E o -> ref_counter_ pm <> 1 ->
  let h' := set_manager h (pointer_manager_ s) (counted pm (ref_counter_ pm - 1)) in
  inv h' E (s :: V) /\ kept h h' E.
Proof.
  intros I Ht Hpm Hh H1 h'.
  destruct (live_pointer h s E V o I Ht) as (pm' & ms & H0 & Hp & _ & Hpm' & Hms & Hr & _ & Hv & HV & Hc).
  assert (pm' = pm) as -> by congruence.
  destruct (inv_manage _ _ _ _ _ _ I _ pm Hpm) as (_ & Hpos & Hman).
  pose proof (inv_bound _ _ _ _ _ _ I) as Hb. rewrite zlen_cons in Hb.
  rewrite refs_cons, Z.eqb_refl in Hc, Hman. split.
  - apply (inv_update h (s :: E) V _ pm); simpl; auto; try lia; try set_solver.
    + intros m' Hm' _. rewrite !refs_cons, (proj2 (Z.eqb_neq _ m')) by congruence. lia.
    + intros a (x & r & [-> | Hx]%elem_of_cons & Hxr & Ha); [|by exists x, r].
      destruct Hh as (y & q & Hy & Hq & Hqo). exists y, q. split_and!; auto.
      assert (r = o) as -> by congruence. by etransitivity.
    + rewrite zlen_cons. lia.
    + rewrite refs_cons, Z.eqb_refl. lia.
  - apply kept_same; [done|]. intros x. apply (tgt_set h _ pm); auto. simpl. lia.
Qed.

(** What [Reset] does to a store that satisfies the invariant. *)
Definition reset_spec (n : nat) : Prop := forall h s E V,
  inv h (s :: E) V -> (size (objects h) < n)%nat ->
  exists h', Reset Visit n (visitor_ s) h s = Defined h' /\
    inv h' E (s :: V) /\ kept h h' E.

Lemma null_reset n T h s :
  pointer_manager_ s = 0 -> Reset Visit (S n) T h s = Defined h.
Proof. intros H0. simpl. by rewrite (proj2 (Z.eqb_eq _ 0) H0). Qed.

(** The destructors of members, one after the other. *)
Lemma destroy_members n fs h E V :
  reset_spec (S n) -> inv h ((m_ptr <$> fs) ++ E) V -> (size (objects h) < S n)%nat ->
  (forall f, f ∈ fs -> pointer_manager_ (m_ptr f) <> 0 -> m_type f = visitor_ (m_ptr f)) ->
  exists h', fold_left (fun r f => let* h1 := r in
      let* h3 := Reset Visit (S n) (m_type f) h1 (m_ptr f) in
      SharedPointer_Reset h3 (m_ptr f)) fs (Defined h) = Defined h' /\
    inv h' E V /\ kept h h' E.
Proof.
  intros Hr. revert h. induction fs as [|f fs IH]; intros h I Hn Ht.
  { exists h. split_and!; auto. by apply kept_same. }
  rewrite fmap_cons, <- app_comm_cons in I.
  assert (Reset Visit (S n) (m_type f) h (m_ptr f) =
          Reset Visit (S n) (visitor_ (m_ptr f)) h (m_ptr f)) as ET.
  { destruct (decide (pointer_manager_ (m_ptr f) = 0)) as [H0|H0].
    - by rewrite !null_reset.
    - by rewrite (Ht f (list_elem_of_here _ _) H0). }
  destruct (Hr h (m_ptr f) ((m_ptr <$> fs) ++ E) V I Hn) as (h1 & E1 & I1 & K1).
  destruct (release h1 _ (m_ptr f) V I1) as (h2 & E2 & I2 & Ho2 & Ht2).
  assert (kept h h2 ((m_ptr <$> fs) ++ E)) as K2
    by (eapply kept_twice; [exact K1 | by apply kept_same]).
  destruct (IH h2 I2) as (h3 & E3 & I3 & K3).
  { eapply Nat.le_lt_trans; [|exact Hn]. apply map_subseteq_size, K2. }
  { intros g Hg. by apply Ht, list_elem_of_further. }
  exists h3. cbn [fold_left]. rewrite ET, E1, E2. split_and!; auto.
  eapply kept_twice; [|exact K3]. eapply kept_sub; [|exact K2]. set_solver.
Qed.

Lemma Reset_spec n : reset_spec n.
Proof.
  induction n as [|n IH]; intros h s E V I Hn; [lia|].
  destruct (tgt h s) as [o|] eqn:Ht.
  2:{ exists h. split_and!; [|by apply inv_drop | by apply kept_same].
      simpl. destruct (pointer_manager_ s =? 0) eqn:E0; [done|]. zbool.
      destruct (inv_ptr _ _ _ _ _ _ I s) as ([pm Hpm] & _); [set_solver | done|].
      unfold ref_counter, manager. rewrite Hpm. destruct (ref_counter_ pm =? 0) eqn:Er; [done|].
      exfalso. zbool. assert (tgt h s = Some (pointer_ s)); [|congruence]. apply tgt_Some.
      by rewrite (ref_of_lookup _ _ _ Hpm). }
  destruct (live_pointer h s E V o I Ht)
    as (pm & ms & H0 & Hp & Ho & Hpm & Hms & Hr & Hd & Hv & HV & _).
  destruct (decrement_decides h s E V o pm I Ht Hpm) as (b & Eb & Hb).
  cbn [Reset]. rewrite (proj2 (Z.eqb_neq _ 0) H0). unfold ref_counter at 1, manager.
  rewrite Hpm, (proj2 (Z.eqb_neq (ref_counter_ pm) 0)) by lia.
  rewrite Hp, (proj2 (Z.eqb_neq o 0) Ho), Eb. unfold ref_counter, manager. simpl.
  rewrite lookup_insert_eq. simpl. destruct b.
  - unfold Delete, manager. simpl. rewrite lookup_insert_eq, Hms. simpl. rewrite Hd.
    change (delete_object (set_manager h (pointer_manager_ s) (counted pm 0)) o)
      with (kill h (pointer_manager_ s) o pm).
    assert (size (objects (kill h (pointer_manager_ s) o pm)) < size (objects h))%nat as Hsz.
    { simpl. rewrite map_size_delete, Hms. destruct (size (objects h)) eqn:Es; [|lia].
      apply map_size_empty_inv in Es. by rewrite Es in Hms. }
    destruct n as [|n]; [lia|].
    destruct (destroy_members n (rev ms) (kill h (pointer_manager_ s) o pm) E (s :: V))
      as (h' & E' & I' & K'); auto.
    + eapply inv_perm; [| |by eapply inv_kill]; [|done].
      apply Permutation_app; [|done]. apply fmap_Permutation, Permutation_rev.
    + lia.
    + intros f Hf. apply (inv_distinct _ _ _ _ _ _ I), all_members_in. exists o.
      unfold members_of. rewrite Hms. simpl. rewrite list_elem_of_In, <- in_rev,
        <- list_elem_of_In in Hf. done.
    + exists h'. split_and!; auto. eapply kept_twice; [|exact K']. by eapply kept_kill.
  - destruct Hb as [Hb Hb1]. rewrite (proj2 (Z.eqb_neq (ref_counter_ pm - 1) 0)) by lia.
    eexists. split; [done|]. apply (inv_decrement h s E V o pm); auto.
Qed.

End Life.

End PtrCollect.
