(* ===== verification/PtrOps.v ===== *)
(** * Programs with pointers

    The operations of [Ptr] and [PtrView] keep the invariant of [PtrCollect], so
    a program made of them never touches a deleted manager or object and never
    loses an object it holds.  Then the cases the code does not handle: a
    pointer that was reset is still counted by its destructor and can be copied,
    an assignment reads its argument after deleting the object it is in, the
    counters wrap, and the cycle detector confuses objects. *)

From stdpp Require Import gmap.
From S2P Require Import Prelude Ptr PtrGraph PtrDecision PtrCollect.
Import Ptr PtrGraph PtrDecision PtrCollect.

#[local] Set Warnings "-clear-no-such-hyp".

Module PtrOps.

Section Ops.
Variable Visit : Z -> list member -> option (list member).
Variables own ty : Z -> Z.
Abbreviation inv := (Inv Visit own ty).

Lemma destroy_keeps h s E V :
  inv h (s :: E) V ->
  exists h', Ptr_destroy Visit (S (size (objects h))) (visitor_ s) h s = Defined h' /\
    inv h' E V /\ kept h h' E.
Proof.
  intros I. unfold Ptr_destroy.
  destruct (Reset_spec Visit own ty (S (size (objects h))) h s E V I) as (h1 & -> & I1 & K1);
    [lia|].
  destruct (release Visit own ty h1 E s V I1) as (h2 & -> & I2 & Ho & Ht).
  exists h2. split_and!; auto. eapply kept_twice; [exact K1 | by apply kept_same].
Qed.

(** Two counters of one manager go up together. *)
Lemma acquire h E V s o :
  inv h E V -> s ∈ E ++ member_ptrs h ++ V -> tgt h s = Some o ->
  zlen E + zlen (member_ptrs h) + zlen V + 1 < 2 ^ 16 ->
  exists h1 h2, IncrementManage h (pointer_manager_ s) 1 = Defined h1 /\
    Increment h1 (pointer_manager_ s) 1 = Defined h2 /\
    inv h2 (s :: E) V /\ objects h2 = objects h /\ (forall x, tgt h2 x = tgt h x).
Proof.
  intros I Hs Ht Hb. apply tgt_Some in Ht as (H0 & Hr & ->).
  destruct (inv_ptr _ _ _ _ _ _ I s Hs H0) as ([pm Hpm] & _).
  pose proof (ref_of_lookup _ _ _ Hpm) as Hl. rewrite Hl in Hr.
  destruct (inv_manage _ _ _ _ _ _ I _ pm Hpm) as (_ & Hpos & Hm).
  destruct (inv_ref _ _ _ _ _ _ I _ pm Hpm Hr) as (Hc & _).
  set (m := pointer_manager_ s) in *.
  pose proof (refs_le m E). pose proof (refs_le m V). pose proof (refs_le m (member_ptrs h)).
  pose proof (refs_nonneg m E). pose proof (refs_nonneg m V).
  pose proof (refs_nonneg m (member_ptrs h)).
  set (pm' := {| ref_counter_ := ref_counter_ pm + 1;
                 manage_counter_ := manage_counter_ pm + 1; deleter_ := deleter_ pm |}).
  unfold IncrementManage, Increment, manager. rewrite Hpm.
  eexists _, (set_manager h m pm'). split; [done|]. split.
  { simpl. rewrite lookup_insert_eq. simpl. unfold set_manager. simpl.
    rewrite insert_insert_eq, !wrap_small by (unfold in_width; lia). done. }
  split_and!; [|done|].
  - apply (inv_update _ _ _ h E V m pm); simpl; auto; try lia.
    + set_solver.
    + intros m' Hm' _. rewrite refs_cons, (proj2 (Z.eqb_neq _ m')) by (fold m; congruence). auto.
    + intros a (x & r & ? & ? & ?). exists x, r. split_and!; auto. by apply list_elem_of_further.
    + rewrite zlen_cons. lia.
    + rewrite refs_cons. fold m. rewrite Z.eqb_refl. lia.
    + rewrite refs_cons. fold m. rewrite Z.eqb_refl. lia.
  - intros x. apply (tgt_set h m pm); auto. simpl. lia.
Qed.

Lemma copy_counts h E V s o :
  inv h E V -> s ∈ E ++ member_ptrs h ++ V -> tgt h s = Some o ->
  zlen E + zlen (member_ptrs h) + zlen V + 1 < 2 ^ 16 ->
  exists h', Ptr_copy h s = Defined (h', s) /\ Ptr_of_shared h s = Defined (h', s) /\
    inv h' (s :: E) V /\ objects h' = objects h /\ (forall x, tgt h' x = tgt h x).
Proof.
  intros I Hs Ht Hb. destruct (acquire h E V s o I Hs Ht Hb) as (h1 & h2 & E1 & E2 & I2 & Ho & Htt).
  apply tgt_Some in Ht as (H0 & _). exists h2.
  unfold Ptr_copy, Ptr_of_shared, SharedPointer_copy, IncrementRef.
  rewrite (proj2 (Z.eqb_neq _ 0) H0), E1. simpl. rewrite (proj2 (Z.eqb_neq _ 0) H0), E2.
  unfold SharedPointer_Reset. simpl. split_and!; auto.
Qed.

(** A view: the manager is kept, not the object. *)
Lemma view_spec h E V s :
  inv h E V -> s ∈ E ++ member_ptrs h ++ V ->
  zlen E + zlen (member_ptrs h) + zlen V + 1 < 2 ^ 16 ->
  exists h', View_of h s = Defined (h', s) /\
    inv h' E (s :: V) /\ objects h' = objects h /\ (forall x, tgt h' x = tgt h x).
Proof.
  intros I Hs Hb. unfold View_of, SharedPointer_copy.
  destruct (pointer_manager_ s =? 0) eqn:E0; zbool.
  { exists h. split_and!; auto. destruct I as [I1 I2 I3 I4 I5 I6 I7 I8]. split; auto.
    - intros x Hx. apply I2. set_solver.
    - intros m pm Hm. rewrite refs_cons. destruct (I3 m pm Hm) as (? & ? & ?).
      rewrite (proj2 (Z.eqb_neq _ m)) by congruence. auto.
    - rewrite zlen_cons. lia. }
  destruct (inv_ptr _ _ _ _ _ _ I s Hs E0) as ([pm Hpm] & _).
  destruct (inv_manage _ _ _ _ _ _ I _ pm Hpm) as (_ & Hpos & Hm).
  set (m := pointer_manager_ s) in *.
  pose proof (refs_le m E). pose proof (refs_le m V). pose proof (refs_le m (member_ptrs h)).
  unfold IncrementManage, manager. rewrite Hpm, wrap_small by (unfold in_width; lia).
  eexists. split; [done|]. split_and!; [|done|].
  - apply (inv_update _ _ _ h E V m pm); simpl; auto; try lia.
    + set_solver.
    + intros m' Hm' _. rewrite refs_cons, (proj2 (Z.eqb_neq _ m')) by (fold m; congruence). auto.
    + rewrite zlen_cons. lia.
    + rewrite refs_cons. fold m. rewrite Z.eqb_refl. lia.
    + intros. by apply (inv_ref _ _ _ _ _ _ I m pm).
  - intros x. by apply (tgt_set h m pm).
Qed.

Lemma view_bool_spec h E V s :
  inv h E V -> s ∈ E ++ member_ptrs h ++ V ->
  View_bool h s = Defined (if tgt h s is Some _ then true else false).
Proof.
  intros I Hs. unfold View_bool, tgt.
  destruct (pointer_manager_ s =? 0) eqn:E0; [done|]. zbool.
  destruct (inv_ptr _ _ _ _ _ _ I s Hs E0) as ([pm Hpm] & _).
  unfold ref_counter, manager. rewrite Hpm. simpl. by destruct (ref_counter_ pm =? 0).
Qed.

Lemma add_null h E V s :
  inv h E V -> pointer_manager_ s = 0 ->
  zlen E + zlen (member_ptrs h) + zlen V + 1 < 2 ^ 16 -> inv h (s :: E) V.
Proof.
  intros [I1 I2 I3 I4 I5 I6 I7 I8] H0 Hb. split; auto.
  - intros x [-> | Hx]%elem_of_cons; [done | auto].
  - intros m pm Hm. rewrite refs_cons. destruct (I3 m pm Hm) as (? & ? & ?).
    rewrite (proj2 (Z.eqb_neq _ m)) by congruence. auto.
  - intros m pm Hm Hr. rewrite refs_cons. destruct (I3 m pm Hm) as (? & _).
    rewrite (proj2 (Z.eqb_neq _ m)) by congruence. eauto.
  - intros a Ha. destruct (I7 a Ha) as (x & r & ? & ? & ?). exists x, r. split_and!; auto.
    by apply list_elem_of_further.
  - rewrite zlen_cons. lia.
Qed.

(** ** Programs

    [st_E] are the variables of type [Ptr], [st_V] those of type [PtrView]. *)
Record state := State {
  st_h : heap;
  st_E : list SharedPointer;
  st_V : list SharedPointer;
}.

Inductive op :=
  | OCopy (i : nat)
  | OMove (i : nat)
  | ODestroy (i : nat)
  | OAssign (i j : nat)
  | OView (i : nat)
  | ODropView (j : nat)
  | OLock (j : nat).

(** A command that names no variable does nothing. *)
Definition exec (o : op) (st : state) : outcome state :=
  let '(State h E V) := st in
  let n := S (size (objects h)) in
  match o with
  | OCopy i =>
      match E !! i with
      | Some s => let* (h', sp) := Ptr_copy h s in Defined (State h' (sp :: E) V)
      | None => Defined st
      end
  | OMove i =>
      match E !! i with
      | Some s => let* (h', sp, rest) := Ptr_move h s in
                  Defined (State h' (sp :: <[i := rest]> E) V)
      | None => Defined st
      end
  | ODestroy i =>
      match E !! i with
      | Some s => let* h' := Ptr_destroy Visit n (visitor_ s) h s in
                  Defined (State h' (delete i E) V)
      | None => Defined st
      end
  | OAssign i j =>
      match E !! i, E !! j with
      | Some s, Some t =>
          if Nat.eqb i j then Defined st
          else let* (h', sp) := Ptr_assign Visit n (visitor_ s) h s (Variable_ t) in
               Defined (State h' (<[i := sp]> E) V)
      | _, _ => Defined st
      end
  | OView i =>
      match E !! i with
      | Some s => let* (h', sp) := View_of h s in Defined (State h' E (sp :: V))
      | None => Defined st
      end
  | ODropView j =>
      match V !! j with
      | Some s => let* h' := SharedPointer_Reset h s in Defined (State h' E (delete j V))
      | None => Defined st
      end
  | OLock j =>
      match V !! j with
      | Some s => let* (h', sp) := Lock h s in Defined (State h' (sp :: E) V)
      | None => Defined st
      end
  end.

Fixpoint execs (os : list op) (st : state) : outcome state :=
  match os with
  | [] => Defined st
  | o :: os' => let* st' := exec o st in execs os' st'
  end.

(** The variables refer to live objects or are null. *)
Definition live_vars (h : heap) (E : list SharedPointer) : Prop :=
  forall s, s ∈ E -> pointer_manager_ s <> 0 -> is_Some (tgt h s).

Definition total (st : state) : Z :=
  zlen (st_E st) + zlen (member_ptrs (st_h st)) + zlen (st_V st).

Record good (st : state) : Prop := {
  good_inv : inv (st_h st) (st_E st) (st_V st);
  good_live : live_vars (st_h st) (st_E st);
}.

Lemma live_kept h h' E : kept h h' E -> live_vars h E -> live_vars h' E.
Proof.
  intros (_ & _ & K) HL s Hs H0. destruct (HL s Hs H0) as [t Ht].
  destruct (K s t t Hs Ht) as (Ht' & _); [constructor | eauto].
Qed.

Lemma live_same h h' E : (forall x, tgt h' x = tgt h x) -> live_vars h E -> live_vars h' E.
Proof. intros Ht HL s Hs H0. rewrite Ht. auto. Qed.

Lemma live_perm h E E' : E ≡ₚ E' -> live_vars h E -> live_vars h E'.
Proof. intros Hp HL s Hs. apply HL. by rewrite Hp. Qed.

Lemma live_cons h s E :
  live_vars h (s :: E) <-> (pointer_manager_ s <> 0 -> is_Some (tgt h s)) /\ live_vars h E.
Proof. unfold live_vars. setoid_rewrite elem_of_cons. naive_solver. Qed.

(** A new pointer that shares the object of [s], or is null as [s] is. *)
Lemma copy_any h E V s :
  inv h E V -> s ∈ E ++ member_ptrs h ++ V ->
  (pointer_manager_ s <> 0 -> is_Some (tgt h s)) ->
  zlen E + zlen (member_ptrs h) + zlen V + 1 < 2 ^ 16 ->
  exists h', Ptr_copy h s = Defined (h', s) /\ inv h' (s :: E) V /\
    objects h' = objects h /\ (forall x, tgt h' x = tgt h x).
Proof.
  intros I Hs HL Hb. destruct (decide (pointer_manager_ s = 0)) as [H0|H0].
  - exists h. split_and!; auto using add_null. unfold Ptr_copy, SharedPointer_copy, IncrementRef.
    rewrite (proj2 (Z.eqb_eq _ 0) H0). simpl. by rewrite (proj2 (Z.eqb_eq _ 0) H0).
  - destruct (HL H0) as [o Ho].
    destruct (copy_counts h E V s o I Hs Ho Hb) as (h' & ? & _ & ? & ? & ?). eauto.
Qed.

Lemma members_le h h' :
  objects h' ⊆ objects h -> zlen (member_ptrs h') <= zlen (member_ptrs h).
Proof.
  intros Ho. unfold zlen, member_ptrs, all_members. rewrite !length_fmap.
  apply map_to_list_submseteq, submseteq_Permutation in Ho as [k Hk].
  rewrite Hk, fmap_app, concat_app, length_app. lia.
Qed.

Lemma assign_spec h s t E V :
  inv h (s :: E) V -> t ∈ E -> live_vars h (s :: E) ->
  exists h', Ptr_assign Visit (S (size (objects h))) (visitor_ s) h s (Variable_ t) =
      Defined (h', t) /\ inv h' (t :: E) V /\ live_vars h' (t :: E) /\ kept h h' E.
Proof.
  intros I Ht HL. unfold Ptr_assign, SharedPointer_assign. simpl read_place.
  destruct (Reset_spec Visit own ty (S (size (objects h))) h s E V I) as (h1 & -> & I1 & K1);
    [lia|].
  destruct (release Visit own ty h1 E s V I1) as (h2 & -> & I2 & Ho2 & Ht2).
  assert (kept h h2 E) as K2 by (eapply kept_twice; [exact K1 | by apply kept_same]).
  apply live_cons in HL as [_ HL]. pose proof (live_kept _ _ _ K2 HL) as HL2.
  destruct (copy_any h2 E V t) as (h3 & E3 & I3 & Ho3 & Ht3); auto.
  - set_solver.
  - pose proof (inv_bound _ _ _ _ _ _ I) as Hb. rewrite zlen_cons in Hb.
    pose proof (members_le h h2 (proj1 K2)). lia.
  - exists h3. split_and!; auto.
    + apply live_cons. split; [|by eapply live_same]. rewrite Ht3. by apply HL2.
    + eapply kept_twice; [exact K2 | by apply kept_same].
Qed.

Lemma lock_spec h E V s :
  inv h E V -> s ∈ V -> live_vars h E ->
  zlen E + zlen (member_ptrs h) + zlen V + 1 < 2 ^ 16 ->
  exists h' sp, Lock h s = Defined (h', sp) /\
    sp = (if tgt h s is Some _ then s else null_pointer) /\
    inv h' (sp :: E) V /\ live_vars h' (sp :: E) /\ kept h h' E.
Proof.
  intros I Hs HL Hb. unfold Lock. rewrite (view_bool_spec h E V s) by (auto; set_solver).
  destruct (tgt h s) as [o|] eqn:Ht.
  - destruct (copy_counts h E V s o) as (h' & _ & E1 & I1 & Ho & Htt); auto; [set_solver|].
    exists h', s. split_and!; auto; [|by apply kept_same].
    apply live_cons. split; [by rewrite Htt, Ht | by eapply live_same].
  - exists h, null_pointer. split_and!; auto using add_null; [|by apply kept_same].
    apply live_cons. done.
Qed.

Lemma insert_delete_perm {A} i (x y : A) l :
  l !! i = Some x -> <[i := y]> l ≡ₚ y :: delete i l.
Proof.
  intros Hi. apply lookup_lt_Some in Hi.
  rewrite insert_take_drop, delete_take_drop by done. by rewrite Permutation_middle.
Qed.

(** What a command guarantees: it is defined, the invariant holds again, and at
    most one variable was added. *)
Definition step_ok (st : state) (r : outcome state) : Prop :=
  exists st', r = Defined st' /\ good st' /\ total st' <= total st + 1.

Lemma step_none st : good st -> step_ok st (Defined st).
Proof. intros G. exists st. split_and!; auto. lia. Qed.

Lemma good_perm h E E' V V' :
  E ≡ₚ E' -> V ≡ₚ V' -> good (State h E V) -> good (State h E' V').
Proof.
  intros HE HV [I HL]. split; simpl in *; [by eapply inv_perm | by eapply live_perm].
Qed.

Lemma total_le h h' E E' V V' :
  objects h' ⊆ objects h -> zlen E' + zlen V' <= zlen E + zlen V + 1 ->
  total (State h' E' V') <= total (State h E V) + 1.
Proof. intros Ho Hl. unfold total. simpl. pose proof (members_le h h' Ho). lia. Qed.

Lemma zlen_delete {A} (l : list A) i x : l !! i = Some x -> zlen (delete i l) + 1 = zlen l.
Proof. intros Hi. unfold zlen. rewrite (delete_Permutation l i x Hi) at 2. simpl. lia. Qed.

Lemma zlen_insert {A} (l : list A) i x : zlen (<[i := x]> l) = zlen l.
Proof. unfold zlen. by rewrite length_insert. Qed.

Lemma step_copy h E V i :
  good (State h E V) -> total (State h E V) + 1 < 2 ^ 16 ->
  step_ok (State h E V) (exec (OCopy i) (State h E V)).
Proof.
  intros G Hb. simpl. destruct (E !! i) as [s|] eqn:Ei; [|by apply step_none].
  destruct G as [I HL]. simpl in *. apply list_elem_of_lookup_2 in Ei as Hs.
  destruct (copy_any h E V s) as (h' & -> & I' & Ho & Ht); auto; [set_solver|].
  eexists. split; [done|]. split; [split; [done|]|]; simpl.
  - apply live_cons. split; [rewrite Ht; auto | by eapply live_same].
  - apply total_le; [by rewrite Ho | rewrite zlen_cons; lia].
Qed.

Lemma step_move h E V i :
  good (State h E V) -> total (State h E V) + 1 < 2 ^ 16 ->
  step_ok (State h E V) (exec (OMove i) (State h E V)).
Proof.
  intros G Hb. simpl. destruct (E !! i) as [s|] eqn:Ei; [|by apply step_none].
  exists (State h (s :: <[i := null_pointer]> E) V). split; [done|].
  pose proof (insert_delete_perm i s null_pointer E Ei) as Hp.
  split; [|apply total_le; [done | rewrite zlen_cons, zlen_insert; lia]].
  eapply (good_perm _ (null_pointer :: s :: delete i E)); [|done|].
  { rewrite Hp. constructor. }
  eapply good_perm in G; [|exact (delete_Permutation E i s Ei)|done].
  destruct G as [I HL]. simpl in *. split; simpl; [|by apply live_cons].
  apply add_null; auto. pose proof (zlen_delete E i s Ei).
  unfold total in Hb. simpl in Hb. rewrite zlen_cons. lia.
Qed.

Lemma step_destroy h E V i :
  good (State h E V) -> step_ok (State h E V) (exec (ODestroy i) (State h E V)).
Proof.
  intros G. simpl. destruct (E !! i) as [s|] eqn:Ei; [|by apply step_none].
  eapply good_perm in G; [|exact (delete_Permutation E i s Ei)|done].
  destruct G as [I HL]. simpl in *. apply live_cons in HL as [_ HL].
  destruct (destroy_keeps h s (delete i E) V I) as (h' & -> & I' & K').
  eexists. split; [done|]. split; [split; [done | by eapply live_kept]|].
  apply total_le; [apply K' | pose proof (zlen_delete E i s Ei); lia].
Qed.

Lemma step_assign h E V i j :
  good (State h E V) -> step_ok (State h E V) (exec (OAssign i j) (State h E V)).
Proof.
  intros G. simpl. destruct (E !! i) as [s|] eqn:Ei; [|by apply step_none].
  destruct (E !! j) as [t|] eqn:Ej; [|by apply step_none].
  destruct (Nat.eqb i j) eqn:Eij; [by apply step_none|]. apply Nat.eqb_neq in Eij.
  eapply good_perm in G; [|exact (delete_Permutation E i s Ei)|done].
  destruct G as [I HL]. simpl in *.
  assert (t ∈ delete i E) as Ht.
  { apply list_elem_of_lookup. destruct (decide (j < i)%nat).
    - exists j. by rewrite list_lookup_delete_lt.
    - exists (j - 1)%nat. rewrite list_lookup_delete_ge by lia.
      by replace (S (j - 1)) with j by lia. }
  destruct (assign_spec h s t (delete i E) V I Ht HL) as (h' & -> & I' & HL' & K').
  eexists. split; [done|]. split; [|apply total_le; [apply K' | rewrite zlen_insert; lia]].
  eapply (good_perm _ (t :: delete i E)); [|done | by split].
  symmetry. by eapply insert_delete_perm.
Qed.

Lemma step_view h E V i :
  good (State h E V) -> total (State h E V) + 1 < 2 ^ 16 ->
  step_ok (State h E V) (exec (OView i) (State h E V)).
Proof.
  intros G Hb. simpl. destruct (E !! i) as [s|] eqn:Ei; [|by apply step_none].
  destruct G as [I HL]. simpl in *. apply list_elem_of_lookup_2 in Ei as Hs.
  destruct (view_spec h E V s I) as (h' & -> & I' & Ho & Ht); [set_solver | done|].
  eexists. split; [done|]. split; [split; [done | by eapply live_same]|].
  apply total_le; [by rewrite Ho | rewrite zlen_cons; lia].
Qed.

Lemma step_drop_view h E V j :
  good (State h E V) -> step_ok (State h E V) (exec (ODropView j) (State h E V)).
Proof.
  intros G. simpl. destruct (V !! j) as [s|] eqn:Ej; [|by apply step_none].
  eapply good_perm in G; [|done|exact (delete_Permutation V j s Ej)].
  destruct G as [I HL]. simpl in *.
  destruct (release Visit own ty h E s (delete j V) I) as (h' & -> & I' & Ho & Ht).
  eexists. split; [done|]. split; [split; [done | by eapply live_same]|].
  apply total_le; [by rewrite Ho | pose proof (zlen_delete V j s Ej); lia].
Qed.

Lemma step_lock h E V j :
  good (State h E V) -> total (State h E V) + 1 < 2 ^ 16 ->
  step_ok (State h E V) (exec (OLock j) (State h E V)).
Proof.
  intros G Hb. simpl. destruct (V !! j) as [s|] eqn:Ej; [|by apply step_none].
  destruct G as [I HL]. simpl in *. apply list_elem_of_lookup_2 in Ej as Hs.
  destruct (lock_spec h E V s I Hs HL Hb) as (h' & sp & -> & _ & I' & HL' & K').
  eexists. split; [done|]. split; [by split|].
  apply total_le; [apply K' | rewrite zlen_cons; lia].
Qed.

Lemma execs_good os st :
  good st -> total st + zlen os < 2 ^ 16 ->
  exists st', execs os st = Defined st' /\ good st'.
Proof.
  revert st. induction os as [|o os IH]; intros [h E V] G Hb; [by eexists|].
  rewrite zlen_cons in Hb. pose proof (zlen_nonneg os).
  assert (step_ok (State h E V) (exec o (State h E V))) as (st' & E1 & G' & Ht).
  { destruct o; [apply step_copy | apply step_move | apply step_destroy | apply step_assign
      | apply step_view | apply step_drop_view | apply step_lock]; auto; lia. }
  cbn [execs]. rewrite E1. apply IH; [done | lia].
Qed.

Lemma held_live h E V a : inv h E V -> held_by h E a -> is_Some (objects h !! a).
Proof.
  intros I (s & r & Hs & Ht & Hr). apply rtc_inv_r in Hr as [-> | (u & _ & He)].
  - apply tgt_Some in Ht as (H0 & Hr & ->). destruct (ref_of_Some _ _ Hr) as (pm & Hpm & Hne).
    destruct (inv_ptr _ _ _ _ _ _ I s) as (_ & <- & _); [set_solver | done|].
    by apply (inv_ref _ _ _ _ _ _ I _ pm).
  - eapply (edge_live Visit ty); [by eapply inv_walkable | done].
Qed.

End Ops.

(** ** What the operations guarantee *)



(** ** A store with a cycle *)

Definition all_members_visited (_ : Z) (ms : list member) : option (list member) := Some ms.

(** One object that refers to itself. *)
Definition loop_ptr : SharedPointer :=
  {| pointer_manager_ := 1; pointer_ := 100; visitor_ := 7 |}.

Definition loop_heap (c : Z) : heap :=
  {| managers := {[1 := {| ref_counter_ := c; manage_counter_ := c;
                           deleter_ := PtrDefaultDeleter |}]};
     objects := {[100 := [{| m_addr := 104; m_index := 5; m_type := 7;
                             m_ptr := loop_ptr |}]]} |}.

Lemma loop_members : all_members (loop_heap 2) =
  [{| m_addr := 104; m_index := 5; m_type := 7; m_ptr := loop_ptr |}].
Proof. reflexivity. Qed.

Lemma loop_members_of a f : f ∈ members_of (loop_heap 2) a ->
  a = 100 /\ f = {| m_addr := 104; m_index := 5; m_type := 7; m_ptr := loop_ptr |}.
Proof.
  unfold members_of. simpl. rewrite lookup_singleton. case_decide; simpl.
  - intros ->%list_elem_of_singleton. by subst.
  - intros []%elem_of_nil.
Qed.

Lemma loop_inv :
  Inv all_members_visited (fun _ => 100) (fun _ => 7) (loop_heap 2) [loop_ptr] [].
Proof.
  assert (forall m, ref_of (loop_heap 2) m <> 0 -> m = 1) as Hm.
  { intros m. unfold ref_of. simpl. rewrite lookup_singleton. case_decide; [by subst | done]. }
  assert (forall a, is_Some (objects (loop_heap 2) !! a) -> a = 100) as Ha.
  { intros a. simpl. rewrite lookup_singleton. case_decide; [by subst|]. by intros []. }
  split.
  - split.
    + done.
    + intros a b Hx Hy _. rewrite (Ha a), (Ha b); auto.
    + intros a b i j f g Hf Hg _. pose proof Hf as Hf'. pose proof Hg as Hg'.
      apply list_elem_of_lookup_2, loop_members_of in Hf' as [-> ->].
      apply list_elem_of_lookup_2, loop_members_of in Hg' as [-> ->].
      apply lookup_lt_Some in Hf, Hg. vm_compute in Hf, Hg. lia.
    + intros a b f Hx [-> ->]%loop_members_of. by rewrite (Ha a).
    + intros f. rewrite loop_members, list_elem_of_singleton. by intros ->.
  - intros s Hs _. assert (s = loop_ptr) as -> by (vm_compute in Hs; set_solver).
    split_and!; done.
  - intros m pm. simpl. rewrite lookup_singleton_Some. intros [<- <-]. done.
  - intros m pm. simpl. rewrite lookup_singleton_Some. intros [<- <-] _.
    split_and!; done.
  - intros m m' H1 H2 _. rewrite (Hm m), (Hm m'); auto.
  - intros a Hx. exists 1. rewrite (Ha a Hx). done.
  - intros a Hx. rewrite (Ha a Hx). exists loop_ptr, 100.
    split_and!; [apply list_elem_of_here | done | constructor].
  - done.
Qed.


Lemma loop_good : good all_members_visited (fun _ => 100) (fun _ => 7)
  (State (loop_heap 2) [loop_ptr] []).
Proof.
  split; [exact loop_inv|]. intros s Hs _. simpl in Hs.
  apply list_elem_of_singleton in Hs as ->. by eexists.
Qed.


(** ** Where the pointers fail *)

(** A pointer that is reset is counted again by its destructor.  Two
    pointers share an object; one of them is reset, which leaves the counter at
    one, and then destroyed: the object is deleted although the other pointer
    still refers to it. *)
Theorem reset_counted_twice Visit h s T pm :
  managers h !! pointer_manager_ s = Some pm -> pointer_manager_ s <> 0 ->
  ref_counter_ pm = 2 -> deleter_ pm = PtrDefaultDeleter -> pointer_ s <> 0 ->
  objects h !! pointer_ s = Some [] -> Visit T [] = Some [] ->
  exists h1, Reset Visit 2 T h s = Defined h1 /\
    ref_of h1 (pointer_manager_ s) = 1 /\ objects h1 = objects h /\
    exists h2, Reset Visit 2 T h1 s = Defined h2 /\ objects h2 !! pointer_ s = None.
Proof.
  intros Hm H0 Hr Hd Hp Ho HV.
  exists (set_manager h (pointer_manager_ s) (counted pm 1)). split_and!.
  - cbn [Reset]. rewrite (proj2 (Z.eqb_neq _ 0) H0). unfold ref_counter at 1, manager.
    rewrite Hm, Hr. simpl. rewrite (proj2 (Z.eqb_neq _ 0) Hp).
    unfold DecrementGraph, ref_counter at 1, manager. rewrite Hm, Ho, HV.
    unfold walk_from. cbn [VisitNode]. rewrite Ho, HV. unfold IsVisited.
    cbn [visited_objects_]. rewrite bool_decide_eq_false_2 by set_solver.
    cbn [visit_members obj_map_ mark]. rewrite map_to_list_singleton.
    cbn [safe_to_delete]. unfold blocks_delete. rewrite Z.eqb_refl, Hr. simpl.
    rewrite (DecrementRef_counted h s pm 1), Hr by (auto; unfold in_width; lia).
    simpl. unfold ref_counter, manager. simpl. by rewrite lookup_insert_eq.
  - rewrite ref_of_set, Z.eqb_refl. done.
  - done.
  - eexists. split.
    + cbn [Reset]. rewrite (proj2 (Z.eqb_neq _ 0) H0). unfold ref_counter at 1, manager. simpl.
      rewrite lookup_insert_eq. simpl. rewrite (proj2 (Z.eqb_neq _ 0) Hp).
      rewrite (DecrementRef_counted _ s (counted pm 1) 1)
        by (simpl; rewrite ?lookup_insert_eq; done).
      simpl. unfold ref_counter, manager. simpl. rewrite lookup_insert_eq. simpl.
      unfold Delete, manager. simpl. rewrite lookup_insert_eq, Ho. simpl. by rewrite Hd.
    + simpl. by rewrite lookup_delete_eq.
Qed.

(** Two pointers to an object without members. *)
Definition plain_heap (c : Z) : heap :=
  {| managers := {[1 := {| ref_counter_ := c; manage_counter_ := c;
                           deleter_ := PtrDefaultDeleter |}]};
     objects := {[100 := []]} |}.

Lemma reset_counted_twice_witness :
  exists h1, Reset all_members_visited 2 7 (plain_heap 2) loop_ptr = Defined h1 /\
    ref_of h1 1 = 1 /\
    exists h2, Reset all_members_visited 2 7 h1 loop_ptr = Defined h2 /\ objects h2 !! 100 = None.
Proof.
  destruct (reset_counted_twice all_members_visited (plain_heap 2) loop_ptr 7
    {| ref_counter_ := 2; manage_counter_ := 2; deleter_ := PtrDefaultDeleter |})
    as (h1 & E1 & Hr & _ & H2); try done.
  exists h1. split; [exact E1|]. split; [exact Hr | exact H2].
Defined.

(** An assignment from a member of the object that only the assigned pointer
    holds ([p = p->next]) reads the member after the object was deleted. *)
Theorem assign_from_own_member Visit own ty h s E V a k :
  Inv Visit own ty h (s :: E) V -> tgt h s = Some a -> ~ held_by h E a ->
  Ptr_assign Visit (S (size (objects h))) (visitor_ s) h s (Member_ a k) = Undefined.
Proof.
  intros I Ht Hn. unfold Ptr_assign.
  destruct (Reset_spec Visit own ty (S (size (objects h))) h s E V I)
    as (h1 & -> & I1 & Ho & Htt & _); [lia|].
  simpl. destruct (objects h1 !! a) as [ms|] eqn:Ha; [|done]. exfalso. apply Hn.
  eapply (held_mono h h1); eauto. apply (inv_garbage _ _ _ _ _ _ I1). eauto.
Qed.

Lemma assign_from_own_member_witness :
  Ptr_assign all_members_visited 2 7 (loop_heap 2) loop_ptr (Member_ 100 0) = Undefined.
Proof.
  apply (assign_from_own_member all_members_visited (fun _ => 100) (fun _ => 7)
    (loop_heap 2) loop_ptr [] [] 100 0 loop_inv eq_refl).
  intros (s & r & Hs & _). by apply elem_of_nil in Hs.
Defined.

(** The counter of references has 16 bits.  The 65536th pointer sets it to
    zero, and every pointer to the object reads as null. *)
Theorem reference_counter_wraps h s pm :
  managers h !! pointer_manager_ s = Some pm -> pointer_manager_ s <> 0 ->
  ref_counter_ pm = 2 ^ 16 - 1 ->
  exists h', Ptr_copy h s = Defined (h', s) /\ get h' s = Defined 0 /\
    objects h' = objects h.
Proof.
  intros Hm H0 Hr. unfold Ptr_copy, SharedPointer_copy, IncrementRef, IncrementManage,
    Increment, manager, get, ref_counter.
  rewrite (proj2 (Z.eqb_neq _ 0) H0), Hm. simpl.
  rewrite (proj2 (Z.eqb_neq _ 0) H0), lookup_insert_eq. simpl.
  eexists. split_and!; [done | | done]. unfold manager. simpl.
  rewrite lookup_insert_eq. simpl. by rewrite Hr.
Qed.

Lemma reference_counter_wraps_witness :
  exists h', Ptr_copy (plain_heap 65535) loop_ptr = Defined (h', loop_ptr) /\
    get h' loop_ptr = Defined 0.
Proof.
  destruct (reference_counter_wraps (plain_heap 65535) loop_ptr
    {| ref_counter_ := 65535; manage_counter_ := 65535; deleter_ := PtrDefaultDeleter |})
    as (h' & E & G & _); try done.
  exists h'. split; [exact E | exact G].
Defined.

(** A copy of a pointer whose object was deleted raises the counter from zero:
    the copy is not null and refers to the deleted object. *)
Theorem copy_of_dead_dangles h s pm :
  managers h !! pointer_manager_ s = Some pm -> pointer_manager_ s <> 0 ->
  ref_counter_ pm = 0 -> objects h !! pointer_ s = None ->
  exists h', Ptr_copy h s = Defined (h', s) /\ get h' s = Defined (pointer_ s) /\
    objects h' !! pointer_ s = None.
Proof.
  intros Hm H0 Hr Ho. unfold Ptr_copy, SharedPointer_copy, IncrementRef, IncrementManage,
    Increment, manager, get, ref_counter.
  rewrite (proj2 (Z.eqb_neq _ 0) H0), Hm. simpl.
  rewrite (proj2 (Z.eqb_neq _ 0) H0), lookup_insert_eq. simpl.
  eexists. split_and!; [done | | done]. unfold manager. simpl.
  rewrite lookup_insert_eq. simpl. by rewrite Hr.
Qed.

(** Two objects of a cycle: the first at 1000 with class 10, the second at 1008
    with class [t]. *)
Definition cycle_ptr (m a v : Z) : SharedPointer :=
  {| pointer_manager_ := m; pointer_ := a; visitor_ := v |}.

Definition cycle_heap (t : Z) : heap :=
  {| managers := <[1 := {| ref_counter_ := 2; manage_counter_ := 2;
                           deleter_ := PtrDefaultDeleter |}]>
                 {[2 := {| ref_counter_ := 1; manage_counter_ := 1;
                           deleter_ := PtrDefaultDeleter |}]};
     objects := <[1000 := [{| m_addr := 1004; m_index := 90; m_type := t;
                              m_ptr := cycle_ptr 2 1008 t |}]]>
                {[1008 := [{| m_addr := 1012; m_index := 91; m_type := 10;
                              m_ptr := cycle_ptr 1 1000 10 |}]]} |}.

Definition after_destroy (t : Z) : outcome (list Z) :=
  let* h := Ptr_destroy all_members_visited 3 10 (cycle_heap t) (cycle_ptr 1 1000 10) in
  Defined (live h).

(** The cycle detector takes two objects for one when the sums of their type
    index and address agree.  Then the walk does not see the reference that
    closes the cycle, and dropping the last pointer deletes neither object;
    with any other class of the second object both are deleted. *)
Theorem cycle_detector_confuses :
  (forall visited t1 a1 t2, IsVisited (Add visited t1 a1) t2 (a1 + t1 - t2) = true) /\
  after_destroy 2 = Defined [1000; 1008] /\ after_destroy 3 = Defined [].
Proof.
  split; [|split; vm_compute; reflexivity].
  intros visited t1 a1 t2. unfold IsVisited, Add, entry. apply bool_decide_eq_true.
  replace (t2 + (a1 + t1 - t2)) with (t1 + a1) by lia. set_solver.
Qed.

End PtrOps.
