(* ===== verification/SocketTransport.v ===== *)
(** * Sending and receiving over sockets

    [transport/actions/packet_send_action.h] and [transport/low_level/tcp/]: the
    action that sends one packet, the queue of the packets of a socket
    ([SocketPacketQueueManager]) and the transports over it for Unix, lwIP and
    Windows.  The class [SocketAction] is what the queue expects of a packet,
    [SocketActionOk] that sending takes the bytes of the packet in order; the
    theorems on the queue are proved against them.

    What the operating system answers is an argument of the operations: a list
    with the result of every call to send that an operation makes; when it is
    exhausted the next calls would block. *)

From stdpp Require Import gmap.
From S2P Require Import Prelude StateMachine PackedInt PacketCollector.

#[local] Set Warnings "-clear-no-such-hyp".

(** ** The state of a packet *)
Module PacketSend.

Inductive State :=
  | kQueued | kProgress | kSuccess | kStopped | kTimeout | kFailed | kPanic.

#[export] Instance State_eq_dec : EqDecision State.
Proof. solve_decision. Defined.

(** What an action tells its subscribers when it ends. *)
Inductive done := Result | Error | Stopped.

(** [SocketPacketSendAction::Update]: the new state and how the action ended. *)
Definition Update (m : StateMachine State) : StateMachine State * option done :=
  if changed_ m then
    let (s, m') := SM.Acquire m in
    (m', match s with
         | kSuccess => Some Result
         | kFailed | kPanic | kTimeout => Some Error
         | kStopped => Some Stopped
         | kQueued | kProgress => None
         end)
  else (m, None).

(** [SocketPacketSendAction::Stop] *)
Definition Stop (m : StateMachine State) : StateMachine State := SM.set kStopped m.

End PacketSend.

Import PacketSend.

(** ** The queue of a socket *)
Module SocketQueue.

(** What the queue uses of a packet: its state machine and the virtual [Send],
    which is given the answer of the system and returns the bytes the system
    took.  [sa_block] is the answer that takes nothing and is no error. *)
Class SocketAction (A R : Type) := {
  sa_machine : A -> StateMachine State;
  sa_with : A -> StateMachine State -> A;
  sa_Send : R -> A -> A * bytes;
  sa_block : R;
}.

Section Queue.
Context {A R : Type} `{SocketAction A R}.

Definition sa_state (a : A) : State := state_ (sa_machine a).

(** A view of an action is its number; it is alive while the store has the
    action. *)
Record SocketPacketQueueManager := {
  actions_ : gmap nat A;
  queue_ : list nat;
  current_ : option nat;
  next_ : nat;
}.

Definition empty_manager : SocketPacketQueueManager :=
  {| actions_ := ∅; queue_ := []; current_ := None; next_ := 0 |}.

Definition next_answer (os : list R) : R * list R :=
  match os with [] => (sa_block, []) | r :: os' => (r, os') end.

(** Whether [Send] is called for the front of the queue. *)
Definition sendable (a : A) : bool :=
  bool_decide (sa_state a = kQueued) || bool_decide (sa_state a = kProgress).

(** The loop of [Send]: the queue, the store and [current_] after it, with the
    bytes the system took. *)
Fixpoint send_loop (q : list nat) (acts : gmap nat A) (os : list R)
    : list nat * gmap nat A * option nat * bytes :=
  match q with
  | [] => ([], acts, None, [])
  | i :: q' =>
      match acts !! i with
      | None => send_loop q' acts os
      | Some a =>
          let '(a1, os1, out) :=
            if sendable a
            then let (r, os1) := next_answer os in
                 let (a1, out) := sa_Send r a in (a1, os1, out)
            else (a, os, []) in
          let acts1 := <[i := a1]> acts in
          if decide (sa_state a1 = kProgress)
          then (q, acts1, Some i, out)
          else let '(q2, acts2, cur, out2) := send_loop q' acts1 os1 in
               (q2, acts2, cur, out ++ out2)
      end
  end.

Definition Send (os : list R) (m : SocketPacketQueueManager)
    : SocketPacketQueueManager * bytes :=
  match queue_ m with
  | [] => (m, [])
  | q => let '(q', acts, cur, out) := send_loop q (actions_ m) os in
         ({| actions_ := acts; queue_ := q'; current_ := cur; next_ := next_ m |}, out)
  end.

(** [AddPacket]; the view of the new packet is the old [next_]. *)
Definition AddPacket (os : list R) (a : A) (m : SocketPacketQueueManager)
    : SocketPacketQueueManager * bytes :=
  let m1 := {| actions_ := <[next_ m := a]> (actions_ m);
               queue_ := queue_ m ++ [next_ m];
               current_ := current_ m; next_ := S (next_ m) |} in
  if current_ m is Some _ then (m1, []) else Send os m1.

(** The processor updates the action [i]; an action that ended is removed from
    the store. *)
Definition update_action (i : nat) (m : SocketPacketQueueManager)
    : SocketPacketQueueManager * option done :=
  match actions_ m !! i with
  | None => (m, None)
  | Some a =>
      let (s, d) := Update (sa_machine a) in
      ({| actions_ := if d is Some _ then delete i (actions_ m)
                      else <[i := sa_with a s]> (actions_ m);
          queue_ := queue_ m; current_ := current_ m; next_ := next_ m |}, d)
  end.

(** The user stops the action [i]. *)
Definition stop_action (i : nat) (m : SocketPacketQueueManager)
    : SocketPacketQueueManager :=
  {| actions_ := alter (fun a => sa_with a (Stop (sa_machine a))) i (actions_ m);
     queue_ := queue_ m; current_ := current_ m; next_ := next_ m |}.

Definition empty (m : SocketPacketQueueManager) : bool :=
  match queue_ m with [] => true | _ => false end.

End Queue.

Arguments SocketPacketQueueManager : clear implicits.

(** ** What the queue guarantees *)

(** [rest] are the bytes of a packet that were not sent, [sane] the invariant of
    the packets.  An answer that is not an error takes a first part of the rest,
    and the packet is successful exactly when nothing is left. *)
Class SocketActionOk (A R : Type) `{SocketAction A R} (fine : R -> Prop)
    (rest : A -> bytes) (sane : A -> Prop) : Prop := {
  block_fine : fine sa_block;
  send_ok : forall r a a' out, fine r -> sane a -> sendable a = true ->
    sa_Send r a = (a', out) ->
    rest a = out ++ rest a' /\ sane a' /\
    (sa_state a' = kProgress \/ (sa_state a' = kSuccess /\ rest a' = []));
  with_ok : forall a m, sane a -> state_ m = sa_state a ->
    sane (sa_with a m) /\ rest (sa_with a m) = rest a /\ sa_machine (sa_with a m) = m;
}.

Section Fifo.
Context {A R : Type} `{Hok : SocketActionOk A R fine rest sane}.

Abbreviation manager := (SocketPacketQueueManager A).

(** The bytes of the queue that were not sent. *)
Definition pend (q : list nat) (acts : gmap nat A) : bytes :=
  concat (map (fun i => from_option rest [] (acts !! i)) q).

Definition pending (m : manager) : bytes := pend (queue_ m) (actions_ m).

Definition packet_fine (a : A) : Prop :=
  sane a /\ (sendable a = true \/ (sa_state a = kSuccess /\ rest a = [])).

Record good (m : manager) : Prop := {
  good_nodup : NoDup (queue_ m);
  good_queue : forall i, i ∈ queue_ m -> (i < next_ m)%nat;
  good_store : forall i a, actions_ m !! i = Some a -> (i < next_ m)%nat /\ packet_fine a;
}.

Lemma pend_insert q acts i a : i ∉ q -> pend q (<[i := a]> acts) = pend q acts.
Proof.
  unfold pend. induction q as [|j q IH]; intros Hi; [done|]. cbn [map concat].
  rewrite not_elem_of_cons in Hi. destruct Hi as [Hj Hi].
  rewrite lookup_insert_ne by done. by rewrite IH.
Qed.

Lemma pend_cons i q acts :
  pend (i :: q) acts = from_option rest [] (acts !! i) ++ pend q acts.
Proof. done. Qed.

Lemma progress_sendable a : sa_state a = kProgress -> sendable a = true.
Proof. intros E. unfold sendable. rewrite E. done. Qed.

(** One packet at the front of the queue. *)
Lemma front_step a os a1 os1 out :
  packet_fine a -> Forall fine os ->
  (if sendable a
   then let (r, os1) := next_answer os in
        let (a1, out) := sa_Send r a in (a1, os1, out)
   else (a, os, [])) = (a1, os1, out) ->
  packet_fine a1 /\ Forall fine os1 /\ rest a = out ++ rest a1 /\
  (sa_state a1 <> kProgress -> rest a1 = []).
Proof.
  intros [Hs Hd] Hf. destruct (sendable a) eqn:Es.
  - assert (fine (next_answer os).1 /\ Forall fine (next_answer os).2) as [Hr Hos].
    { destruct os; simpl; [split; [apply block_fine | done]|]. by inversion Hf. }
    destruct (next_answer os) as [r os2]. simpl in *.
    destruct (sa_Send r a) as [b o] eqn:Eb. intros [= <- <- <-].
    destruct (send_ok r a b o Hr Hs Es Eb) as (Hrest & Hsb & Hst).
    split_and!; auto.
    + split; [done|]. destruct Hst as [Hst | Hst]; [left; by apply progress_sendable | auto].
    + intros Hn. destruct Hst as [? | [_ ?]]; done.
  - intros [= <- <- <-]. destruct Hd as [? | [Hst Hd]]; [congruence|].
    split_and!; auto. split; auto.
Qed.

Lemma send_loop_ok q : forall acts os q' acts' cur out,
  NoDup q -> Forall fine os -> (forall i a, acts !! i = Some a -> packet_fine a) ->
  send_loop q acts os = (q', acts', cur, out) ->
  pend q acts = out ++ pend q' acts' /\ q' `suffix_of` q /\
  (forall i a, acts' !! i = Some a -> packet_fine a) /\ dom acts' = dom acts /\
  (forall i, i ∉ q -> acts' !! i = acts !! i) /\ (cur = None <-> q' = []).
Proof.
  induction q as [|i q IH]; intros acts os q' acts' cur out Hnd Hf Ha.
  { simpl. intros [= <- <- <- <-]. split_and!; auto. done. }
  apply list.NoDup_cons in Hnd as [Hi Hnd]. cbn [send_loop]. rewrite pend_cons.
  destruct (acts !! i) as [a|] eqn:Ea; cbn [from_option].
  2:{ intros E. destruct (IH _ _ _ _ _ _ Hnd Hf Ha E) as (H1 & H2 & H3 & H4 & H5 & H6).
      split_and!; auto; [by apply suffix_cons_r|]. intros j [_ Hj]%not_elem_of_cons. auto. }
  destruct (if sendable a then _ else _) as [[a1 os1] o] eqn:Es.
  destruct (front_step a os a1 os1 o (Ha i a Ea) Hf Es) as (Hf1 & Hos1 & Hr & Hdone).
  assert (forall j b, <[i := a1]> acts !! j = Some b -> packet_fine b) as Ha1.
  { intros j b [[_ <-] | [_ ?]]%lookup_insert_Some; eauto. }
  assert (dom (<[i := a1]> acts) = dom acts) as Hdom.
  { rewrite dom_insert_L. apply elem_of_dom_2 in Ea. set_solver. }
  destruct (decide (sa_state a1 = kProgress)) as [Hp|Hp].
  - intros [= <- <- <- <-]. rewrite pend_cons, lookup_insert_eq, pend_insert by done. simpl.
    rewrite Hr, <- app_assoc. split_and!; auto; [|done].
    intros j [Hj _]%not_elem_of_cons. by rewrite lookup_insert_ne.
  - destruct (send_loop q (<[i := a1]> acts) os1) as [[[q2 acts2] cur2] out2] eqn:E2.
    intros [= <- <- <- <-].
    destruct (IH _ _ _ _ _ _ Hnd Hos1 Ha1 E2) as (H1 & H2 & H3 & H4 & H5 & H6).
    rewrite pend_insert in H1 by done. rewrite H1, Hr, (Hdone Hp), app_nil_r, <- app_assoc.
    split_and!; auto; [by apply suffix_cons_r | congruence|].
    intros j [Hj1 Hj2]%not_elem_of_cons. rewrite H5 by done. by rewrite lookup_insert_ne.
Qed.

(** ** Refinement of a pipe of bytes

    The abstract queue: the bytes on the wire and the bytes that wait.  Bytes are
    put at the end of those that wait and move to the wire from their front. *)
Inductive pipe_step : bytes * bytes -> bytes * bytes -> Prop :=
  | pipe_put wire b d : pipe_step (wire, b) (wire, b ++ d)
  | pipe_move wire x b : pipe_step (wire, x ++ b) (wire ++ x, b).

Inductive qop :=
  | QAdd (a : A) (os : list R)
  | QSend (os : list R)
  | QUpdate (i : nat).

Definition qexec (o : qop) (m : manager) : manager * bytes :=
  match o with
  | QAdd a os => AddPacket os a m
  | QSend os => Send os m
  | QUpdate i => ((update_action i m).1, [])
  end.

(** The system reports no error and new packets are queued packets. *)
Definition qfine (o : qop) : Prop :=
  match o with
  | QAdd a os => Forall fine os /\ sane a /\ sa_state a = kQueued
  | QSend os => Forall fine os
  | QUpdate _ => True
  end.

Definition added (o : qop) : bytes :=
  match o with QAdd a _ => rest a | _ => [] end.

Fixpoint qrun (os : list qop) (m : manager) (wire : bytes) : manager * bytes :=
  match os with
  | [] => (m, wire)
  | o :: os' => let (m', out) := qexec o m in qrun os' m' (wire ++ out)
  end.

Lemma Send_ok os m :
  good m -> Forall fine os ->
  let (m', out) := Send os m in
  good m' /\ pending m = out ++ pending m' /\ (current_ m' = None -> queue_ m <> [] -> queue_ m' = []).
Proof.
  intros G Hf. unfold Send, pending. destruct (queue_ m) as [|i q] eqn:Eq.
  { split_and!; [done | by rewrite Eq | done]. }
  destruct (send_loop (i :: q) (actions_ m) os) as [[[q' acts'] cur] out] eqn:El.
  destruct G as [G1 G2 G3]. rewrite Eq in *.
  destruct (send_loop_ok (i :: q) _ _ _ _ _ _ G1 Hf (fun j a Hj => proj2 (G3 j a Hj)) El)
    as (H1 & [k Hk] & H3 & H4 & _ & H6).
  split_and!; simpl; auto; [|tauto]. split; simpl.
  - rewrite Hk in G1. by apply list.NoDup_app in G1 as (_ & _ & ?).
  - intros j Hj. apply G2. rewrite Hk. apply elem_of_app. auto.
  - intros j a Hj. split; [|by eapply H3]. apply elem_of_dom_2 in Hj as Hd.
    rewrite H4 in Hd. apply elem_of_dom in Hd as [b Hb]. by apply (G3 j b).
Qed.

Lemma add_good os a m :
  good m -> sane a -> sa_state a = kQueued -> Forall fine os ->
  let (m', out) := AddPacket os a m in
  good m' /\ pending m ++ rest a = out ++ pending m'.
Proof.
  intros G Hs Hq Hf. unfold AddPacket.
  set (m1 := {| actions_ := _ |}).
  assert (next_ m ∉ queue_ m) as Hn by (intros Hx; apply (good_queue _ G) in Hx; lia).
  assert (good m1) as G1.
  { destruct G as [G1 G2 G3]. split; simpl.
    - apply list.NoDup_app. split_and!; auto; [|apply NoDup_singleton].
      intros x Hx ->%list_elem_of_singleton. done.
    - intros i [Hi | ->%list_elem_of_singleton]%elem_of_app; [|lia]. specialize (G2 i Hi). lia.
    - intros i b [[<- <-] | [_ Hb]]%lookup_insert_Some.
      + split; [lia|]. split; [done|]. left. unfold sendable. by rewrite Hq.
      + destruct (G3 i b Hb). split; [lia | done]. }
  assert (pending m1 = pending m ++ rest a) as Hp.
  { unfold pending, pend. simpl. rewrite map_app, concat_app. simpl.
    rewrite lookup_insert_eq, app_nil_r. simpl. f_equal.
    by apply (pend_insert (queue_ m) (actions_ m) (next_ m) a). }
  destruct (current_ m); [split; [done|]; by rewrite Hp|].
  pose proof (Send_ok os m1 G1 Hf) as HS. destruct (Send os m1) as [m' out].
  destruct HS as (? & ? & _). split; [done|]. by rewrite <- Hp.
Qed.

Lemma update_good i m :
  good m -> good (update_action i m).1 /\ pending (update_action i m).1 = pending m.
Proof.
  intros G. unfold update_action. destruct (actions_ m !! i) as [a|] eqn:Ea; [|done].
  destruct (good_store _ G i a Ea) as [Hi [Hs Hd]].
  destruct (Update (sa_machine a)) as [s d] eqn:Eu. simpl.
  assert (state_ s = sa_state a /\ (d <> None -> rest a = [])) as [Hst Hr].
  { unfold Update in Eu. destruct (changed_ (sa_machine a)); injection Eu as <- <-; [|done].
    split; [done|]. intros Hn. destruct Hd as [Hd | [_ ?]]; [|done].
    unfold sendable, sa_state in Hd. by destruct (state_ (sa_machine a)). }
  destruct d as [d|].
  - split.
    + destruct G as [G1 G2 G3]. split; simpl; auto.
      intros j b [_ Hb]%lookup_delete_Some. eauto.
    + unfold pending, pend. simpl. f_equal. apply map_ext. intros j.
      destruct (decide (j = i)) as [-> | Hj]; [|by rewrite lookup_delete_ne].
      rewrite lookup_delete_eq, Ea. simpl. symmetry. by apply Hr.
  - destruct (with_ok a s Hs Hst) as (Hs' & Hr' & Hm'). split.
    + destruct G as [G1 G2 G3]. split; simpl; auto.
      intros j b [[<- <-] | [_ Hb]]%lookup_insert_Some; [|eauto].
      split; [done|]. split; [done|]. unfold sendable, sa_state in *.
      by rewrite Hm', Hr', Hst.
    + unfold pending, pend. simpl. f_equal. apply map_ext. intros j.
      destruct (decide (j = i)) as [-> | Hj]; [|by rewrite lookup_insert_ne].
      rewrite lookup_insert_eq, Ea. simpl. done.
Qed.

(** Every operation of the queue is a sequence of steps of the pipe. *)
Lemma qexec_refines o m wire :
  good m -> qfine o ->
  let (m', out) := qexec o m in
  good m' /\ rtc pipe_step (wire, pending m) (wire ++ out, pending m') /\
  pending m ++ added o = out ++ pending m'.
Proof.
  intros G Ho. destruct o as [a os | os | i]; simpl.
  - destruct Ho as (Hf & Hs & Hq). pose proof (add_good os a m G Hs Hq Hf) as HQ.
    destruct (AddPacket os a m) as [m' out]. destruct HQ as [G' Hp]. split_and!; auto.
    eapply rtc_l; [apply (pipe_put _ _ (rest a))|]. rewrite Hp. apply rtc_once. constructor.
  - pose proof (Send_ok os m G Ho) as HQ. destruct (Send os m) as [m' out].
    destruct HQ as (G' & Hp & _). split_and!; auto; [|by rewrite app_nil_r].
    rewrite Hp. apply rtc_once. constructor.
  - destruct (update_good i m G) as [G' Hp]. rewrite Hp, !app_nil_r. split_and!; auto.
    constructor.
Qed.

Lemma qrun_refines os m wire :
  good m -> Forall qfine os ->
  let (m', wire') := qrun os m wire in
  good m' /\ rtc pipe_step (wire, pending m) (wire', pending m') /\
  wire ++ pending m ++ concat (map added os) = wire' ++ pending m'.
Proof.
  revert m wire. induction os as [|o os IH]; intros m wire G Ho.
  { simpl. rewrite app_nil_r. split_and!; auto. constructor. }
  inversion Ho as [|? ? Ho1 Ho2]; subst. simpl.
  pose proof (qexec_refines o m wire G Ho1) as HQ. destruct (qexec o m) as [m1 out].
  destruct HQ as (G1 & R1 & P1). pose proof (IH m1 (wire ++ out) G1 Ho2) as HQ.
  destruct (qrun os m1 (wire ++ out)) as [m2 wire2]. destruct HQ as (G2 & R2 & P2).
  split_and!; auto; [by etransitivity|]. rewrite <- P2, !app_assoc. f_equal.
  rewrite <- !app_assoc. by rewrite P1.
Qed.

End Fifo.

End SocketQueue.

(** ** Unix and lwIP: [send] *)
Module StreamSocket.
Import SocketQueue.

(** The answer of [send]: bytes taken, [EAGAIN] or [EWOULDBLOCK], another
    error. *)
Inductive send_answer := Sent (r : Z) | Again | SendError.

Record UnixPacketSendAction := {
  us_state : StateMachine State;
  data_ : bytes;
  sent_offset_ : Z;
}.

Definition us_set (s : State) (a : UnixPacketSendAction) : UnixPacketSendAction :=
  {| us_state := SM.set s (us_state a); data_ := data_ a;
     sent_offset_ := sent_offset_ a |}.

(** The constructor; the state machine starts with the first state. *)
Definition new_packet (data : bytes) : UnixPacketSendAction :=
  {| us_state := SM.default kQueued; data_ := data; sent_offset_ := 0 |}.

(** [UnixPacketSendAction::Send], with the bytes the system took. *)
Definition Send (ans : send_answer) (a : UnixPacketSendAction)
    : UnixPacketSendAction * bytes :=
  let a1 := if decide (state_ (us_state a) = kQueued) then us_set kProgress a else a in
  let size_to_send := zlen (data_ a1) - sent_offset_ a1 in
  let left := drop (Z.to_nat (sent_offset_ a1)) (data_ a1) in
  match ans with
  | Sent r =>
      if (0 <=? r) && (r <? size_to_send)
      then ({| us_state := us_state a1; data_ := data_ a1;
               sent_offset_ := sent_offset_ a1 + r |}, take (Z.to_nat r) left)
      else (us_set kSuccess a1, left)
  | Again => (a1, [])
  | SendError => (us_set kFailed a1, [])
  end.

#[export] Instance unix_action : SocketAction UnixPacketSendAction send_answer := {|
  sa_machine := us_state;
  sa_with a m := {| us_state := m; data_ := data_ a; sent_offset_ := sent_offset_ a |};
  sa_Send := Send;
  sa_block := Again;
|}.

Definition unix_fine (ans : send_answer) : Prop :=
  match ans with Sent r => 0 <= r | Again => True | SendError => False end.

(** What is left of a packet: nothing once it was successful. *)
Definition unix_rest (a : UnixPacketSendAction) : bytes :=
  if decide (state_ (us_state a) = kSuccess) then []
  else drop (Z.to_nat (sent_offset_ a)) (data_ a).

Definition unix_sane (a : UnixPacketSendAction) : Prop :=
  0 <= sent_offset_ a <= zlen (data_ a).

#[export] Instance unix_action_ok :
  SocketActionOk UnixPacketSendAction send_answer unix_fine unix_rest unix_sane.
Proof.
  split.
  - done.
  - intros r a a' out Hf Hs Hc. simpl. unfold Send.
    set (a1 := if decide _ then _ else _).
    assert (sent_offset_ a1 = sent_offset_ a /\ data_ a1 = data_ a /\
      state_ (us_state a1) = kProgress) as (Ho & Hd & Hst).
    { unfold a1. case_decide as Hq; [split_and!; auto; apply SM.state_set|].
      split_and!; auto. unfold sendable, sa_state in Hc. simpl in Hc.
      destruct (state_ (us_state a)); done. }
    assert (unix_rest a = drop (Z.to_nat (sent_offset_ a)) (data_ a)) as Hr.
    { unfold unix_rest. rewrite decide_False; [done|]. intros Hx. unfold sendable, sa_state in Hc.
      simpl in Hc. by rewrite Hx in Hc. }
    unfold unix_sane in *. rewrite Ho, Hd, Hr.
    destruct r as [r | |]; simpl in Hf; [|intros [= <- <-]|done].
    + destruct ((0 <=? r) && (r <? zlen (data_ a) - sent_offset_ a)) eqn:E; intros [= <- <-].
      * zbool. unfold unix_rest, sa_state. simpl. rewrite Hst, decide_False by done.
        split_and!; [|lia|lia|by left]. rewrite <- (take_drop (Z.to_nat r)) at 1. f_equal.
        rewrite drop_drop. f_equal. lia.
      * unfold unix_rest, sa_state. simpl. rewrite SM.state_set, decide_True by done.
        rewrite app_nil_r. unfold unix_sane. simpl. rewrite Ho, Hd. split_and!; auto; lia.
    + unfold unix_rest, sa_state. simpl. rewrite Hst, decide_False, Ho, Hd by done.
      split_and!; auto; lia.
  - intros a m Hs Hm. unfold unix_rest. simpl. rewrite Hm. auto.
Qed.

End StreamSocket.
