(* ===== verification/TcpTransports.v ===== *)
(** * The TCP transports

    [transport/low_level/tcp/unix_tcp.*], [lwip_tcp.*] and [win_tcp.*] over the
    queue of [SocketTransport] and the collector of [PacketCollector]: connecting,
    sending, the events of the socket and disconnecting.  The answers of the
    system are arguments.  A call of the collector that does not return (no memory
    for a packet) is [Undefined]. *)

From stdpp Require Import gmap.
From S2P Require Import Prelude StateMachine PackedInt PacketCollector SocketTransport.
Import PacketSend SocketQueue StreamSocket Collector CollectorProperties.

#[local] Set Warnings "-clear-no-such-hyp".

Module Tcp.

Definition kInvalidSocket : Z := -1.

(** [ConnectionState] *)
Inductive ConnectionState := kUndefined | kDisconnected | kConnecting | kConnected.

(** [ConnectionAction::State] *)
Inductive ConnectState := kCConnecting | kCNotConnected | kCConnected.

#[export] Instance ConnectState_eq_dec : EqDecision ConnectState.
Proof. solve_decision. Defined.

(** What the transport emits. *)
Inductive event := ConnectionSuccess | ConnectionError | DataReceive (data : bytes).

Record ConnectionAction := {
  ca_socket : Z;
  ca_state : StateMachine ConnectState;
}.

Definition connect_failed (c : ConnectionAction) : ConnectionAction :=
  {| ca_socket := kInvalidSocket; ca_state := SM.set kCNotConnected (ca_state c) |}.

(** The result of the connection: [Action::Result] or [Action::Error]. *)
Definition connection_update (c : ConnectionAction) : ConnectionAction * option done :=
  if changed_ (ca_state c) then
    let (s, m) := SM.Acquire (ca_state c) in
    ({| ca_socket := ca_socket c; ca_state := m |},
     match s with
     | kCConnected => Some Result
     | kCNotConnected => Some Error
     | kCConnecting => None
     end)
  else (c, None).

Section Transport.
Variable alloc_ok : Z -> bool.

Record transport := {
  socket_ : Z;
  connection_state : ConnectionState;
  max_packet_size : Z;
  socket_packet_queue_manager_ : SocketPacketQueueManager UnixPacketSendAction;
  data_packet_collector_ : StreamDataPacketCollector;
  connection_action_ : option ConnectionAction;
  subscribed_ : bool;
}.

Definition new_transport : transport :=
  {| socket_ := kInvalidSocket; connection_state := kUndefined; max_packet_size := 0;
     socket_packet_queue_manager_ := empty_manager;
     data_packet_collector_ := empty_collector; connection_action_ := None;
     subscribed_ := false |}.

Definition with_queue (t : transport) (q : SocketPacketQueueManager UnixPacketSendAction)
    : transport :=
  {| socket_ := socket_ t; connection_state := connection_state t;
     max_packet_size := max_packet_size t; socket_packet_queue_manager_ := q;
     data_packet_collector_ := data_packet_collector_ t;
     connection_action_ := connection_action_ t; subscribed_ := subscribed_ t |}.

Definition with_collector (t : transport) (c : StreamDataPacketCollector) : transport :=
  {| socket_ := socket_ t; connection_state := connection_state t;
     max_packet_size := max_packet_size t;
     socket_packet_queue_manager_ := socket_packet_queue_manager_ t;
     data_packet_collector_ := c; connection_action_ := connection_action_ t;
     subscribed_ := subscribed_ t |}.

Definition with_state (t : transport) (s : ConnectionState) : transport :=
  {| socket_ := socket_ t; connection_state := s; max_packet_size := max_packet_size t;
     socket_packet_queue_manager_ := socket_packet_queue_manager_ t;
     data_packet_collector_ := data_packet_collector_ t;
     connection_action_ := connection_action_ t; subscribed_ := subscribed_ t |}.

Definition with_action (t : transport) (c : option ConnectionAction) : transport :=
  {| socket_ := socket_ t; connection_state := connection_state t;
     max_packet_size := max_packet_size t;
     socket_packet_queue_manager_ := socket_packet_queue_manager_ t;
     data_packet_collector_ := data_packet_collector_ t;
     connection_action_ := c; subscribed_ := subscribed_ t |}.

Definition with_socket (t : transport) (s : Z) (sub : bool) : transport :=
  {| socket_ := s; connection_state := connection_state t;
     max_packet_size := max_packet_size t;
     socket_packet_queue_manager_ := socket_packet_queue_manager_ t;
     data_packet_collector_ := data_packet_collector_ t;
     connection_action_ := connection_action_ t; subscribed_ := sub |}.

(** [Send]: the packet with its size in front; [os] are the answers if the queue
    sends at once. *)
Definition Send (data : bytes) (os : list send_answer) (t : transport)
    : outcome (transport * bytes) :=
  if socket_ t =? kInvalidSocket then Undefined else
  let (q, out) := AddPacket os (StreamSocket.new_packet (sized_write data))
                            (socket_packet_queue_manager_ t) in
  Defined (with_queue t q, out).

(** [OnDataReceived] *)
Definition OnDataReceived (t : transport) : transport * list event :=
  let c := data_packet_collector_ t in
  let (ps, c') := pop_all (S (length (packets_ c))) c in
  (with_collector t c', map DataReceive ps).

Definition add_data (t : transport) (data : bytes) : outcome transport :=
  match AddData alloc_ok (data_packet_collector_ t) data with
  | None => Undefined
  | Some c => Defined (with_collector t c)
  end.

(** ** Unix *)

(** [ConnectionAction::Connect]: [sock] is the new socket or [-1], [opt] and
    [conn] say whether the option could be set and the connection made. *)
Definition unix_connect (sock : Z) (opt conn : bool) : ConnectionAction :=
  let c := {| ca_socket := sock; ca_state := SM.make kCConnecting |} in
  if sock =? kInvalidSocket then connect_failed c
  else if negb opt then connect_failed c
  else if negb conn then connect_failed c
  else {| ca_socket := sock; ca_state := SM.set kCConnected (ca_state c) |}.

Definition unix_Connect (sock : Z) (opt conn : bool) (t : transport) : transport :=
  with_action (with_state t kConnecting) (Some (unix_connect sock opt conn)).

Definition unix_OnConnected (socket : Z) (t : transport) : transport * list event :=
  ({| socket_ := socket; connection_state := kConnected; max_packet_size := 1500 - 2;
      socket_packet_queue_manager_ := socket_packet_queue_manager_ t;
      data_packet_collector_ := data_packet_collector_ t;
      connection_action_ := connection_action_ t; subscribed_ := true |},
   [ConnectionSuccess]).

Definition OnConnectionFailed (t : transport) : transport * list event :=
  (with_state t kDisconnected, [ConnectionError]).

(** The update of the connection action and the reactions to its end. *)
Definition unix_connection_step (t : transport) : transport * list event :=
  match connection_action_ t with
  | None => (t, [])
  | Some c =>
      let (c', d) := connection_update c in
      match d with
      | Some Result =>
          let (t', es) := unix_OnConnected (ca_socket c') t in (with_action t' None, es)
      | Some Error =>
          let (t', es) := OnConnectionFailed t in (with_action t' None, es)
      | _ => (with_action t (Some c'), [])
      end
  end.

(** [Disconnect]; [closed] says whether the socket could be closed. *)
Definition unix_Disconnect (closed : bool) (t : transport) : transport :=
  let t1 := with_state t kConnected in
  if socket_ t1 =? kInvalidSocket then t1 else
  let t2 := with_socket t1 (socket_ t1) false in
  if closed then with_socket t2 kInvalidSocket false else t2.

(** One turn of the loop of [ReadSocket]: [count] bytes are available, and
    [recv] returns [got] or fails.  The buffer has [count] bytes. *)
Record read := { count : Z; got : option bytes; close_ok : bool }.

Definition buffer_of (count : Z) (got : bytes) : bytes :=
  got ++ replicate (Z.to_nat (count - zlen got)) 0.

Fixpoint unix_read_loop (rs : list read) (t : transport) : outcome transport :=
  match rs with
  | [] => Defined t
  | r :: rs' =>
      if (socket_ t =? kInvalidSocket) || (count r <=? 0) then Defined t else
      match got r with
      | Some (b :: g) =>
          let* t1 := add_data t (buffer_of (count r) (b :: g)) in unix_read_loop rs' t1
      | _ => unix_read_loop rs' (unix_Disconnect (close_ok r) t)
      end
  end.

Definition unix_ReadSocket (rs : list read) (t : transport)
    : outcome (transport * list event) :=
  let* t1 := unix_read_loop rs t in Defined (OnDataReceived t1).

Definition WriteSocket (os : list send_answer) (t : transport) : transport * bytes :=
  if empty (socket_packet_queue_manager_ t) then (t, []) else
  let (q, out) := SocketQueue.Send os (socket_packet_queue_manager_ t) in
  (with_queue t q, out).

Definition unix_OnSocketEvent (rs : list read) (os : list send_answer) (t : transport)
    : outcome (transport * list event * bytes) :=
  if socket_ t =? kInvalidSocket then Defined (t, [], []) else
  let* (t1, es) := unix_ReadSocket rs t in
  let (t2, out) := WriteSocket os t1 in Defined (t2, es, out).

(** ** lwIP *)

(** [ConnectionAction::Connect] with its three options. *)
Definition lwip_connect (sock : Z) (rcvtimeo reuse nodelay conn : bool)
    : ConnectionAction :=
  let c := {| ca_socket := sock; ca_state := SM.make kCConnecting |} in
  if sock <? 0
  then {| ca_socket := sock; ca_state := SM.set kCNotConnected (ca_state c) |}
  else if negb rcvtimeo then connect_failed c
  else if negb reuse then connect_failed c
  else if negb nodelay then connect_failed c
  else if negb conn then connect_failed c
  else {| ca_socket := sock; ca_state := SM.set kCConnected (ca_state c) |}.

(** The lwIP class repeats the code of the Unix class for these. *)
Definition lwip_connection_update : ConnectionAction -> ConnectionAction * option done :=
  connection_update.

Definition lwip_packet_Send
    : send_answer -> UnixPacketSendAction -> UnixPacketSendAction * bytes := StreamSocket.Send.

Definition lwip_Send
    : bytes -> list send_answer -> transport -> outcome (transport * bytes) := Send.

Definition lwip_OnDataReceived : transport -> transport * list event := OnDataReceived.

Definition lwip_Connect (sock : Z) (rcvtimeo reuse nodelay conn : bool) (t : transport)
    : transport :=
  with_action (with_state t kConnecting) (Some (lwip_connect sock rcvtimeo reuse nodelay conn)).

Definition lwip_OnConnected (mtu socket : Z) (t : transport) : transport * list event :=
  ({| socket_ := socket; connection_state := kConnected; max_packet_size := mtu - 2;
      socket_packet_queue_manager_ := socket_packet_queue_manager_ t;
      data_packet_collector_ := data_packet_collector_ t;
      connection_action_ := connection_action_ t; subscribed_ := true |},
   [ConnectionSuccess]).

Definition lwip_Disconnect (closed : bool) (t : transport) : transport * list event :=
  let t1 := with_state t kDisconnected in
  if socket_ t1 =? kInvalidSocket then (t1, []) else
  let t2 := with_socket t1 (socket_ t1) false in
  if closed then OnConnectionFailed (with_socket t2 kInvalidSocket false) else (t2, []).

(** The update of the connection action and the reactions to its end. *)
Definition lwip_connection_step (mtu : Z) (t : transport) : transport * list event :=
  match connection_action_ t with
  | None => (t, [])
  | Some c =>
      let (c', d) := lwip_connection_update c in
      match d with
      | Some Result =>
          let (t', es) := lwip_OnConnected mtu (ca_socket c') t in (with_action t' None, es)
      | Some Error =>
          let (t', es) := OnConnectionFailed t in (with_action t' None, es)
      | _ => (with_action t (Some c'), [])
      end
  end.

(** The answer of [recv]: data, the end of the connection, would block, error. *)
Inductive recv_answer := Received (data : bytes) | Closed | NoData | RecvError.

Definition lwip_ReadSocket (r : recv_answer) (closed : bool) (t : transport)
    : outcome (transport * list event) :=
  match r with
  | RecvError | Closed => Defined (lwip_Disconnect closed t)
  | NoData => Defined (t, [])
  | Received data => let* t1 := add_data t data in Defined (lwip_OnDataReceived t1)
  end.

Definition lwip_OnSocketUpdate (r : recv_answer) (closed : bool) (os : list send_answer)
    (t : transport) : outcome (transport * list event * bytes) :=
  if socket_ t =? kInvalidSocket then Defined (t, [], []) else
  let* (t1, es) := lwip_ReadSocket r closed t in
  let (q, out) := SocketQueue.Send os (socket_packet_queue_manager_ t1) in
  Defined (with_queue t1 q, es, out).

End Transport.

End Tcp.

(** ** Properties *)
Module TcpProperties.
Import Tcp.

(** What happens to a connected transport on the sending side: the user sends,
    the socket becomes writable, the processor updates a packet, the user stops
    one. *)
Inductive op :=
  | TSend (data : bytes) (os : list send_answer)
  | TWrite (os : list send_answer)
  | TUpdate (i : nat)
  | TStop (i : nat).

Definition exec (o : op) (t : transport) : outcome (transport * bytes) :=
  match o with
  | TSend data os => Tcp.Send data os t
  | TWrite os => Defined (WriteSocket os t)
  | TUpdate i =>
      Defined (with_queue t (update_action i (socket_packet_queue_manager_ t)).1, [])
  | TStop i => Defined (with_queue t (stop_action i (socket_packet_queue_manager_ t)), [])
  end.

Fixpoint run (os : list op) (t : transport) (wire : bytes) : outcome (transport * bytes) :=
  match os with
  | [] => Defined (t, wire)
  | o :: os' => let* (t', out) := exec o t in run os' t' (wire ++ out)
  end.

(** No stops, and no errors of the system. *)
Definition smooth (o : op) : Prop :=
  match o with
  | TSend _ os | TWrite os => Forall unix_fine os
  | TUpdate _ => True
  | TStop _ => False
  end.

Definition payload (o : op) : list bytes :=
  match o with TSend data _ => [data] | _ => [] end.

(** The packets sent, in order. *)
Definition payloads (os : list op) : list bytes := concat (map payload os).

(** The operation of the queue behind an operation of the transport. *)
Definition queue_op (o : op) : qop (A:=UnixPacketSendAction) (R:=send_answer) :=
  match o with
  | TSend data os => QAdd (StreamSocket.new_packet (sized_write data)) os
  | TWrite os => QSend os
  | TUpdate i | TStop i => QUpdate i
  end.

Lemma exec_queue o t :
  socket_ t <> kInvalidSocket -> smooth o ->
  exec o t = Defined (with_queue t (qexec (queue_op o) (socket_packet_queue_manager_ t)).1,
                      (qexec (queue_op o) (socket_packet_queue_manager_ t)).2).
Proof.
  intros Hs Ho. destruct o as [data os | os | i | i]; simpl; try done.
  - unfold Tcp.Send. rewrite (proj2 (Z.eqb_neq _ _) Hs).
    by destruct (AddPacket os _ _) as [q out].
  - unfold WriteSocket, empty. destruct (queue_ (socket_packet_queue_manager_ t)) eqn:E.
    + unfold SocketQueue.Send. rewrite E. by destruct t.
    + by destruct (SocketQueue.Send os _) as [q out].
Qed.

Lemma run_queue os t wire :
  socket_ t <> kInvalidSocket -> Forall smooth os ->
  exists q wire', qrun (map queue_op os) (socket_packet_queue_manager_ t) wire = (q, wire') /\
    run os t wire = Defined (with_queue t q, wire').
Proof.
  intros Hs. revert t wire Hs. induction os as [|o os IH]; intros t wire Hs Ho; simpl.
  - eexists _, _. split; [done|]. by destruct t.
  - inversion Ho as [|? ? Ho1 Ho2]; subst. rewrite exec_queue by done.
    destruct (qexec (queue_op o) (socket_packet_queue_manager_ t)) as [q out] eqn:E. simpl.
    destruct (IH (with_queue t q) (wire ++ out) Hs Ho2) as (q' & wire' & E1 & E2).
    simpl in E1. exists q', wire'. split; [exact E1|]. rewrite E2. by destruct t.
Qed.

Lemma smooth_fine o : smooth o ->
  qfine (fine:=unix_fine) (sane:=unix_sane) (queue_op o).
Proof.
  destruct o as [data os | os | i | i]; simpl; try done. intros Hf. split_and!; auto.
  unfold unix_sane. simpl. pose proof (zlen_nonneg (sized_write data)). lia.
Qed.

Lemma added_frames os :
  Forall smooth os ->
  concat (map (added (rest:=unix_rest)) (map queue_op os)) = frames (payloads os).
Proof.
  unfold frames, payloads. induction 1 as [|o os Ho _ IH]; [done|].
  simpl. rewrite bind_app. f_equal; [|done].
  destruct o as [data os' | | |]; simpl; try done. by rewrite app_nil_r.
Qed.

Lemma empty_good : good (sane:=unix_sane) (rest:=unix_rest) (@empty_manager UnixPacketSendAction).
Proof. split; simpl; [constructor | by intros ? ?%elem_of_nil | done]. Qed.

Lemma frames_concat ps : frames ps = concat (map sized_write ps).
Proof. induction ps as [|p ps IH]; [done|]. unfold frames in *. simpl. by rewrite <- IH. Qed.

(** What is on the wire and what waits is, in order, what was sent. *)
Lemma wire_frames os t wire t' :
  socket_ t <> kInvalidSocket -> socket_packet_queue_manager_ t = empty_manager ->
  Forall smooth os -> run os t [] = Defined (t', wire) ->
  frames (payloads os) = wire ++ pending (rest:=unix_rest) (socket_packet_queue_manager_ t') /\
  rtc pipe_step ([], []) (wire, pending (rest:=unix_rest) (socket_packet_queue_manager_ t')).
Proof.
  intros Hs Hq Ho Hr. destruct (run_queue os t [] Hs Ho) as (q & w & E1 & E2).
  rewrite Hr in E2. injection E2 as -> ->. rewrite Hq in E1.
  pose proof (qrun_refines (fine:=unix_fine) (map queue_op os) empty_manager [] empty_good) as HQ.
  rewrite E1 in HQ. destruct HQ as (_ & R & P).
  { apply Forall_map. eapply Forall_impl; [exact smooth_fine | exact Ho]. }
  rewrite added_frames in P by done. split; [exact P | exact R].
Qed.

(** C13: The queue of a socket refines a pipe of bytes.  Whatever the system
    answers short of an error, and whenever the user sends, the socket becomes
    writable and packets are updated, the run of the transport is a run of the
    pipe: bytes are only put at the end and only leave at the front, so no byte
    is lost, doubled or reordered. *)
Theorem socket_queue_refines os t :
  socket_ t <> kInvalidSocket -> socket_packet_queue_manager_ t = empty_manager ->
  Forall smooth os ->
  exists t' wire, run os t [] = Defined (t', wire) /\
    rtc pipe_step ([], [])
        (wire, pending (rest:=unix_rest) (socket_packet_queue_manager_ t')) /\
    wire ++ pending (rest:=unix_rest) (socket_packet_queue_manager_ t') =
    concat (map sized_write (payloads os)).
Proof.
  intros Hs Hq Ho. destruct (run_queue os t [] Hs Ho) as (q & w & _ & E).
  exists (with_queue t q), w. split; [done|].
  destruct (wire_frames os t w (with_queue t q) Hs Hq Ho E) as [P R]. split; [done|].
  by rewrite <- P, frames_concat.
Qed.

Lemma socket_queue_refines_witness :
  exists t' wire,
    run [TSend [1;2;3] [Sent 2]; TSend [4;5] []; TWrite [Again]; TUpdate 0;
         TWrite [Sent 2; Sent 1]]
        (unix_OnConnected 7 new_transport).1 [] = Defined (t', wire) /\
    rtc pipe_step ([], [])
        (wire, pending (rest:=unix_rest) (socket_packet_queue_manager_ t')) /\
    wire ++ pending (rest:=unix_rest) (socket_packet_queue_manager_ t') =
    concat (map sized_write [[1;2;3]; [4;5]]).
Proof.
  apply (socket_queue_refines
    [TSend [1;2;3] [Sent 2]; TSend [4;5] []; TWrite [Again]; TUpdate 0;
     TWrite [Sent 2; Sent 1]]); [discriminate | reflexivity |].
  repeat constructor; simpl; lia.
Defined.

(** *** The receiving side *)

Section Receive.
Variable alloc_ok : Z -> bool.
Hypothesis alloc_total : forall n, alloc_ok n = true.

(** [recv] returned all the bytes the system had counted. *)
Definition full_read (g : bytes) : read := {| count := zlen g; got := Some g; close_ok := true |}.

(** The socket event comes once per element of [gss]; an element has the bytes of
    every turn of the reading loop. *)
Fixpoint receive (gss : list (list bytes)) (t : transport)
    : outcome (transport * list event) :=
  match gss with
  | [] => Defined (t, [])
  | gs :: gss' =>
      let* (t1, es) := unix_ReadSocket alloc_ok (map full_read gs) t in
      let* (t2, es2) := receive gss' t1 in Defined (t2, es ++ es2)
  end.

Lemma buffer_of_full g : buffer_of (zlen g) g = g.
Proof. unfold buffer_of. rewrite Z.sub_diag. apply app_nil_r. Qed.

Lemma read_loop_frames gs : forall t ps qs k,
  socket_ t <> kInvalidSocket -> Forall (fun g => g <> []) gs ->
  at_frame (data_packet_collector_ t) ps qs k -> Forall packet_ok qs ->
  concat gs `prefix_of` drop k (frames qs) ->
  exists c ps2 qs2 k2, qs = ps2 ++ qs2 /\
    unix_read_loop alloc_ok (map full_read gs) t = Defined (with_collector t c) /\
    at_frame c (ps ++ ps2) qs2 k2 /\ drop k (frames qs) = concat gs ++ drop k2 (frames qs2).
Proof.
  induction gs as [|g gs IH]; intros t ps qs k Hs Hne Hat Hok [w Hw]; simpl.
  { exists (data_packet_collector_ t), [], qs, k. rewrite app_nil_r. by destruct t. }
  inversion Hne as [|? ? Hg Hgs]; subst. simpl in Hw. rewrite <- app_assoc in Hw.
  rewrite (proj2 (Z.eqb_neq _ _) Hs). destruct g as [|b g]; [done|].
  rewrite buffer_of_full, (proj2 (Z.leb_gt _ _)) by (unfold zlen; simpl; lia). simpl.
  unfold add_data, AddData.
  destruct (add_loop_takes alloc_ok alloc_total (S (length (b :: g))) (b :: g)
              (data_packet_collector_ t) ps qs k Hat Hok) as (c & ps2 & qs2 & k2 & -> & -> & Hat2 & Hl).
  { by exists (concat gs ++ w). }
  { lia. }
  apply Forall_app in Hok as [_ Hok]. rewrite Hl in Hw. apply app_inv_head in Hw. simpl.
  destruct (IH (with_collector t c) (ps ++ ps2) qs2 k2 Hs Hgs Hat2 Hok)
    as (c' & ps3 & qs3 & k3 & -> & -> & Hat3 & Hl3); [by exists w|].
  exists c', (ps2 ++ ps3), qs3, k3. split_and!; auto; [by rewrite app_assoc | by rewrite app_assoc|].
  by rewrite Hl, Hl3, app_comm_cons, app_assoc.
Qed.

Lemma receive_frames gss : forall t qs k,
  socket_ t <> kInvalidSocket -> Forall (fun g => g <> []) (concat gss) ->
  at_frame (data_packet_collector_ t) [] qs k -> Forall packet_ok qs ->
  concat (concat gss) `prefix_of` drop k (frames qs) ->
  exists c ps qs2 k2, qs = ps ++ qs2 /\
    receive gss t = Defined (with_collector t c, map DataReceive ps) /\
    at_frame c [] qs2 k2 /\ drop k (frames qs) = concat (concat gss) ++ drop k2 (frames qs2).
Proof.
  induction gss as [|gs gss IH]; intros t qs k Hs Hne Hat Hok [w Hw]; simpl.
  { exists (data_packet_collector_ t), [], qs, k. by destruct t. }
  simpl in *. apply Forall_app in Hne as [Hne1 Hne2]. rewrite concat_app, <- app_assoc in Hw.
  destruct (read_loop_frames gs t [] qs k Hs Hne1 Hat Hok) as
    (c & ps & qs2 & k2 & -> & Hr & Hat2 & Hl).
  { by exists (concat (concat gss) ++ w). }
  unfold unix_ReadSocket. rewrite Hr. simpl. apply Forall_app in Hok as [Hok1 Hok2].
  pose proof (length_packets _ _ _ _ Hat2).
  destruct (pop_all_frames c ps qs2 k2 (S (length (packets_ c))) Hat2 Hok1) as (c2 & Hp & Hat3);
    [simpl in *; lia|].
  unfold OnDataReceived. cbn [data_packet_collector_ with_collector]. rewrite Hp. simpl.
  rewrite Hl in Hw. apply app_inv_head in Hw.
  destruct (IH (with_collector t c2) qs2 k2 Hs Hne2 Hat3 Hok2)
    as (c3 & ps3 & qs3 & k3 & -> & Hr3 & Hat4 & Hl4); [by exists w|].
  change (with_collector (with_collector t c) c2) with (with_collector t c2). rewrite Hr3. simpl.
  exists c3, (ps ++ ps3), qs3, k3. rewrite map_app, concat_app.
  split_and!; auto; [by rewrite app_assoc|]. by rewrite Hl, Hl4, app_assoc.
Qed.

(** C4: Two transports connected by a byte stream, end to end.  However the
    system cuts what it takes from the sender's queue and what it hands to the
    receiver, the receiver emits packets that were sent, unchanged, in order and
    once; when the queue has been written out and the receiver has read all of
    it, it has emitted exactly the packets that were sent. *)
Theorem tcp_end_to_end os s r s' wire gss :
  socket_ s <> kInvalidSocket -> socket_packet_queue_manager_ s = empty_manager ->
  Forall smooth os -> run os s [] = Defined (s', wire) -> Forall packet_ok (payloads os) ->
  socket_ r <> kInvalidSocket -> data_packet_collector_ r = empty_collector ->
  Forall (fun g => g <> []) (concat gss) -> concat (concat gss) `prefix_of` wire ->
  exists r' ps, receive gss r = Defined (r', map DataReceive ps) /\
    ps `prefix_of` payloads os /\
    (concat (concat gss) = wire -> pending (rest:=unix_rest) (socket_packet_queue_manager_ s') = [] ->
     ps = payloads os /\ data_packet_collector_ r' = empty_collector).
Proof.
  intros Hs Hq Ho Hrun Hok Hr Hc Hne [w ->].
  destruct (wire_frames _ _ _ _ Hs Hq Ho Hrun) as [Hf _].
  set (p := pending _) in *. rewrite <- app_assoc in Hf.
  destruct (receive_frames gss r (payloads os) 0 Hr Hne) as (c & ps & qs & k & E & Hrec & Hat & Hl).
  { rewrite Hc. apply at_frame_start_empty. }
  { done. }
  { rewrite drop_0, Hf. by exists (w ++ p). }
  exists (with_collector r c), ps. split; [done|]. split; [by exists qs|]. intros Hw Hp.
  rewrite drop_0, Hf, Hp in Hl. apply app_inv_head in Hl. rewrite app_nil_r in Hl.
  apply (f_equal length) in Hw. rewrite length_app in Hw.
  assert (w = []) as -> by (destruct w; [done | simpl in Hw; lia]).
  rewrite E in Hok. apply Forall_app in Hok as [_ Hok].
  destruct (at_frame_left c qs k Hat Hok (eq_sym Hl)) as [-> ->].
  by rewrite E, app_nil_r.
Qed.
End Receive.

Definition sample_ops : list op :=
  [TSend [1;2;3] [Sent 2]; TSend [4;5] []; TWrite [Sent 2; Sent 3]].

Definition sample_sender : transport :=
  match run sample_ops (unix_OnConnected 7 new_transport).1 [] with
  | Defined (s, _) => s
  | Undefined => new_transport
  end.

Lemma tcp_end_to_end_witness :
  exists r' ps,
    receive (fun _ => true) [[[3]]; [[1;2]; [3;2;4]]; [[5]]] (unix_OnConnected 8 new_transport).1
    = Defined (r', map DataReceive ps) /\
    ps = [[1;2;3]; [4;5]] /\ data_packet_collector_ r' = empty_collector.
Proof.
  destruct (tcp_end_to_end (fun _ => true) ltac:(reflexivity) sample_ops
    (unix_OnConnected 7 new_transport).1 (unix_OnConnected 8 new_transport).1
    sample_sender [3;1;2;3;2;4;5] [[[3]]; [[1;2]; [3;2;4]]; [[5]]]) as (r' & ps & H1 & H2 & H3).
  - discriminate.
  - reflexivity.
  - repeat constructor; simpl; lia.
  - vm_compute. reflexivity.
  - repeat constructor; vm_compute; reflexivity.
  - discriminate.
  - reflexivity.
  - repeat constructor; discriminate.
  - exists []. reflexivity.
  - exists r', ps. split; [exact H1|]. apply H3; vm_compute; reflexivity.
Defined.

(** *** Progress *)

(** An answer that takes at least what is left of any packet. *)
Definition takes_all (n : Z) (ans : send_answer) : Prop :=
  match ans with Sent r => n <= r | _ => False end.

Lemma send_takes_all n r a :
  unix_sane a -> sendable a = true -> zlen (data_ a) <= n -> takes_all n r ->
  sa_state (StreamSocket.Send r a).1 = kSuccess.
Proof.
  intros [Ho _] Hs Hn. destruct r as [r| |]; try done. intros Hr. unfold StreamSocket.Send.
  assert (data_ (if decide (state_ (us_state a) = kQueued) then us_set kProgress a else a) = data_ a /\
    sent_offset_ (if decide (state_ (us_state a) = kQueued) then us_set kProgress a else a)
    = sent_offset_ a) as [-> ->] by by case_decide.
  simpl in Hr. rewrite (proj2 (Z.ltb_ge r _)) by lia. rewrite andb_false_r. apply SM.state_set.
Qed.

Lemma send_loop_drains n q : forall acts os,
  (forall i a, i ∈ q -> acts !! i = Some a ->
     packet_fine (rest:=unix_rest) (sane:=unix_sane) a /\ zlen (data_ a) <= n) ->
  NoDup q -> Forall (takes_all n) os -> (length q <= length os)%nat ->
  exists acts' out, send_loop q acts os = ([], acts', None, out).
Proof.
  induction q as [|i q IH]; intros acts os Ha Hnd Hos Hl; [by eexists _, _|].
  apply list.NoDup_cons in Hnd as [Hi Hnd]. cbn [send_loop]. simpl in Hl.
  destruct (acts !! i) as [a|] eqn:Ea.
  2:{ apply IH; auto; [|lia]. intros j b Hj. apply Ha. by apply list_elem_of_further. }
  destruct (Ha i a (list_elem_of_here _ _) Ea) as [[Hs Hd] Hn].
  assert (exists a1 os1 out, (if sendable a then let (r, os1) := next_answer os in
      let (a1, out) := sa_Send r a in (a1, os1, out) else (a, os, [])) = (a1, os1, out) /\
      sa_state a1 <> kProgress /\ Forall (takes_all n) os1 /\ (length q <= length os1)%nat)
    as (a1 & os1 & out & -> & Hst & Hos1 & Hl1).
  { destruct (sendable a) eqn:Es.
    - destruct os as [|r os]; [simpl in Hl; lia|]. inversion Hos as [|? ? Hr Hos']; subst. simpl.
      pose proof (send_takes_all n r a Hs Es Hn Hr) as Hx.
      destruct (StreamSocket.Send r a) as [a1 out]. simpl in Hx. eexists a1, os, out.
      split_and!; auto; [by rewrite Hx | simpl in Hl; lia].
    - exists a, os, []. split_and!; auto; [|lia].
      intros Hx. apply progress_sendable in Hx. congruence. }
  rewrite decide_False by done.
  destruct (IH (<[i:=a1]> acts) os1) as (acts' & out2 & ->); auto; [|by eexists _, _].
  intros j b Hj. rewrite lookup_insert_ne by (by intros ->). apply Ha. by apply list_elem_of_further.
Qed.

(** A writable socket drains the queue.  After any run without errors and
    stops, if the system takes whole packets, one call of [WriteSocket] leaves
    the queue empty and puts everything that was sent on the wire. *)
Theorem queue_drains os t t' wire answers n :
  socket_ t <> kInvalidSocket -> socket_packet_queue_manager_ t = empty_manager ->
  Forall smooth os -> run os t [] = Defined (t', wire) ->
  map_Forall (fun _ a => zlen (data_ a) <= n) (actions_ (socket_packet_queue_manager_ t')) ->
  Forall (takes_all n) answers -> 0 <= n ->
  (length (queue_ (socket_packet_queue_manager_ t')) <= length answers)%nat ->
  empty (socket_packet_queue_manager_ (WriteSocket answers t').1) = true /\
  wire ++ (WriteSocket answers t').2 = concat (map sized_write (payloads os)).
Proof.
  intros Hs Hq Ho Hrun Hn Hans H0 Hl.
  destruct (run_queue os t [] Hs Ho) as (q & w & E1 & E2). rewrite Hrun in E2.
  injection E2 as -> ->. rewrite Hq in E1. simpl in *.
  assert (Forall (qfine (fine:=unix_fine) (sane:=unix_sane)) (map queue_op os)) as Hqf.
  { apply Forall_map. eapply Forall_impl; [exact smooth_fine | exact Ho]. }
  pose proof (qrun_refines (map queue_op os) empty_manager [] empty_good Hqf) as HQ.
  rewrite E1 in HQ. destruct HQ as (G & _ & P). rewrite added_frames, frames_concat in P by done.
  simpl in P. rewrite P. unfold WriteSocket. simpl. destruct (empty q) eqn:Ee.
  { unfold empty, pending in *. simpl. destruct (queue_ q) eqn:Eq; [|done]. done. }
  assert (Forall unix_fine answers) as Hf.
  { eapply Forall_impl; [|exact Hans]. intros [r| |]; simpl; intros; try done. lia. }
  pose proof (Send_ok answers q G Hf) as HS.
  destruct (send_loop_drains n (queue_ q) (actions_ q) answers) as (acts' & out & El); auto.
  { intros i a _ Ha. split; [by apply (good_store _ G i a) | by eapply Hn]. }
  { apply G. }
  assert (SocketQueue.Send answers q = ({| actions_ := acts'; queue_ := []; current_ := None;
            next_ := next_ q |}, out)) as Es.
  { unfold SocketQueue.Send, empty in *. destruct (queue_ q); [done|]. by rewrite El. }
  rewrite Es in *. destruct HS as (_ & HP & _). rewrite HP. simpl. split; [done|].
  by rewrite app_nil_r.
Qed.

Definition sample_busy : transport :=
  match run [TSend [1;2;3] [Sent 2]; TSend [4;5] []] (unix_OnConnected 7 new_transport).1 [] with
  | Defined (s, _) => s
  | Undefined => new_transport
  end.

Lemma queue_drains_witness :
  empty (socket_packet_queue_manager_ (WriteSocket [Sent 9; Sent 9] sample_busy).1) = true /\
  [3;1] ++ (WriteSocket [Sent 9; Sent 9] sample_busy).2
  = concat (map sized_write [[1;2;3]; [4;5]]).
Proof.
  apply (queue_drains [TSend [1;2;3] [Sent 2]; TSend [4;5] []]
    (unix_OnConnected 7 new_transport).1 sample_busy [3;1] [Sent 9; Sent 9] 9).
  - discriminate.
  - reflexivity.
  - repeat constructor; simpl; lia.
  - vm_compute. reflexivity.
  - apply (bool_decide_unpack _). vm_compute. exact I.
  - repeat constructor; simpl; lia.
  - lia.
  - vm_compute. lia.
Defined.

(** A packet that was partly sent and is stopped leaves the middle of its frame
    on the wire: the receiver takes the bytes of the next packets for the rest
    of it and emits a packet that nobody sent. *)
Lemma stop_corrupts_stream :
  (let* (_, wire) :=
     run [TSend [1;2;3;4] [Sent 3]; TSend [7;8] []; TSend [9] []; TStop 0;
          TWrite [Sent 9; Sent 9]] (unix_OnConnected 7 new_transport).1 [] in
   let* (_, es) := receive (fun _ => true) [[wire]] (unix_OnConnected 8 new_transport).1 in
   Defined es) = Defined [DataReceive [1;2;2;7]].
Proof. vm_compute. reflexivity. Qed.

(** *** The state of the connection *)

(** [UnixTcpTransport::Disconnect] leaves the state of the connection
    connected. *)
Lemma unix_disconnect_connected closed t :
  connection_state (unix_Disconnect closed t) = kConnected /\
  (closed = true -> socket_ (unix_Disconnect closed t) = kInvalidSocket).
Proof.
  unfold unix_Disconnect. simpl. destruct (socket_ t =? kInvalidSocket) eqn:E.
  - zbool. split; [done|]. intros _. done.
  - by destruct closed.
Qed.

(** A peer that closes the connection makes the socket readable with no bytes to
    read: the loop is not entered, so the Unix transport stays connected, while
    lwIP reports the error. *)
Lemma unix_ignores_close alloc_ok c t :
  unix_read_loop alloc_ok [{| count := 0; got := Some []; close_ok := c |}] t = Defined t.
Proof. simpl. by rewrite orb_true_r. Qed.

Lemma lwip_notices_close alloc_ok t :
  socket_ t <> kInvalidSocket ->
  exists t', lwip_ReadSocket alloc_ok Closed true t = Defined (t', [ConnectionError]) /\
    connection_state t' = kDisconnected /\ socket_ t' = kInvalidSocket.
Proof.
  intros Hs. unfold lwip_ReadSocket, lwip_Disconnect. simpl.
  rewrite (proj2 (Z.eqb_neq _ _) Hs). eauto.
Qed.

(** A connection ends in one event: success with the new socket, or an error and
    the state disconnected. *)
Lemma unix_connection_outcome sock opt conn t :
  let (t', es) := unix_connection_step (unix_Connect sock opt conn t) in
  connection_action_ t' = None /\
  if negb (sock =? kInvalidSocket) && opt && conn
  then es = [ConnectionSuccess] /\ connection_state t' = kConnected /\ socket_ t' = sock /\
       subscribed_ t' = true
  else es = [ConnectionError] /\ connection_state t' = kDisconnected /\ socket_ t' = socket_ t.
Proof.
  unfold unix_connection_step, unix_Connect, unix_connect. simpl.
  destruct (sock =? kInvalidSocket), opt, conn; simpl; auto.
Qed.

Lemma lwip_connection_outcome mtu sock rcvtimeo reuse nodelay conn t :
  let (t', es) :=
    lwip_connection_step mtu (lwip_Connect sock rcvtimeo reuse nodelay conn t) in
  connection_action_ t' = None /\
  if negb (sock <? 0) && rcvtimeo && reuse && nodelay && conn
  then es = [ConnectionSuccess] /\ connection_state t' = kConnected /\ socket_ t' = sock /\
       max_packet_size t' = mtu - 2
  else es = [ConnectionError] /\ connection_state t' = kDisconnected /\ socket_ t' = socket_ t.
Proof.
  unfold lwip_connection_step, lwip_Connect, lwip_connect. simpl.
  destruct (sock <? 0), rcvtimeo, reuse, nodelay, conn; simpl; auto.
Qed.

End TcpProperties.
