(* ===== verification/WinTcp.v ===== *)
(** * The Windows TCP transport

    [transport/low_level/tcp/win_tcp.*]: packets are handed to the system with
    overlapped writes that either end at once or are pending until the poller
    reports their completion, and the socket is guarded by a mutex
    ([SyncSocket]).  The packets implement the interface of the queue
    ([SocketAction], [SocketActionOk]), so the queue of [SocketTransport] keeps
    its guarantees; completions are one more operation of it.

    Locking a [std::mutex] that the same thread holds is [Undefined]. *)

From stdpp Require Import gmap.
From S2P Require Import Prelude StateMachine PackedInt PacketCollector Actions SocketTransport TcpTransports.
Import PacketSend SocketQueue Collector Notify.

#[local] Set Warnings "-clear-no-such-hyp".

(** ** Packets *)
Module WinPacket.

(** The answer of [WSASend]: bytes transferred, [WSA_IO_PENDING], an error. *)
Inductive wsa_answer := Transferred (n : Z) | IoPending | WsaError.

Record WinTcpPacketSendAction := {
  ws_state : StateMachine State;
  send_buffer_ : bytes;
  send_offset_ : Z;
  send_pending_ : bool;
}.

Definition new_packet (data : bytes) : WinTcpPacketSendAction :=
  {| ws_state := SM.default kQueued; send_buffer_ := data; send_offset_ := 0;
     send_pending_ := false |}.

Definition ws_set (s : State) (a : WinTcpPacketSendAction) : WinTcpPacketSendAction :=
  {| ws_state := SM.set s (ws_state a); send_buffer_ := send_buffer_ a;
     send_offset_ := send_offset_ a; send_pending_ := send_pending_ a |}.

(** [send_event_subscription_]: subscribed by the first [Send], reset when the
    packet ends. *)
Definition subscribed (a : WinTcpPacketSendAction) : bool :=
  bool_decide (state_ (ws_state a) = kProgress).

Definition left_of (a : WinTcpPacketSendAction) : bytes :=
  drop (Z.to_nat (send_offset_ a)) (send_buffer_ a).

(** The system transferred [n] bytes of what is left, at most all of it. *)
Definition transferred (n : Z) (a : WinTcpPacketSendAction) : WinTcpPacketSendAction * bytes :=
  ({| ws_state := ws_state a; send_buffer_ := send_buffer_ a;
      send_offset_ := send_offset_ a + Z.min n (zlen (left_of a));
      send_pending_ := send_pending_ a |}, take (Z.to_nat n) (left_of a)).

Definition all_sent (a : WinTcpPacketSendAction) : bool :=
  send_offset_ a =? zlen (send_buffer_ a).

Definition MakeSend (ans : wsa_answer) (a : WinTcpPacketSendAction)
    : WinTcpPacketSendAction * bytes :=
  if send_pending_ a then (a, []) else
  match ans with
  | IoPending =>
      ({| ws_state := ws_state a; send_buffer_ := send_buffer_ a;
          send_offset_ := send_offset_ a; send_pending_ := true |}, [])
  | WsaError => (ws_set kFailed a, [])
  | Transferred n =>
      let (a1, out) := transferred n a in
      (if all_sent a1 then ws_set kSuccess a1 else a1, out)
  end.

Definition Send (ans : wsa_answer) (a : WinTcpPacketSendAction)
    : WinTcpPacketSendAction * bytes :=
  if decide (state_ (ws_state a) = kQueued) then MakeSend ans (ws_set kProgress a)
  else if bool_decide (state_ (ws_state a) = kProgress) && all_sent a
  then (ws_set kSuccess a, [])
  else MakeSend ans a.

(** [OnSend]; the answer of [WSAGetOverlappedResult] is the number of bytes of
    the operation that ended, or an error. *)
Definition OnSend (res : option Z) (a : WinTcpPacketSendAction)
    : WinTcpPacketSendAction * bytes :=
  match res with
  | None => (a, [])
  | Some n =>
      if send_pending_ a
      then transferred n {| ws_state := ws_state a; send_buffer_ := send_buffer_ a;
                            send_offset_ := send_offset_ a; send_pending_ := false |}
      else (a, [])
  end.

#[export] Instance win_action : SocketAction WinTcpPacketSendAction wsa_answer := {|
  sa_machine := ws_state;
  sa_with a m := {| ws_state := m; send_buffer_ := send_buffer_ a;
                    send_offset_ := send_offset_ a; send_pending_ := send_pending_ a |};
  sa_Send := Send;
  sa_block := IoPending;
|}.

Definition win_fine (ans : wsa_answer) : Prop :=
  match ans with Transferred n => 0 <= n | IoPending => True | WsaError => False end.

Definition win_rest (a : WinTcpPacketSendAction) : bytes :=
  if decide (state_ (ws_state a) = kSuccess) then [] else left_of a.

Definition win_sane (a : WinTcpPacketSendAction) : Prop :=
  0 <= send_offset_ a <= zlen (send_buffer_ a).

Lemma zlen_left a : win_sane a -> zlen (left_of a) = zlen (send_buffer_ a) - send_offset_ a.
Proof. unfold win_sane, left_of, zlen. rewrite length_drop. lia. Qed.

(** A transfer takes a first part of what is left. *)
Lemma transferred_ok n a a' out :
  0 <= n -> win_sane a -> transferred n a = (a', out) ->
  left_of a = out ++ left_of a' /\ win_sane a' /\ ws_state a' = ws_state a /\
  send_buffer_ a' = send_buffer_ a.
Proof.
  intros Hn Hs [= <- <-]. pose proof (zlen_left a Hs) as Hl. unfold win_sane in *.
  unfold left_of at 3. simpl. pose proof (zlen_nonneg (left_of a)).
  split_and!; auto; [|lia|lia].
  rewrite Z2Nat.inj_add, <- drop_drop by lia. fold (left_of a).
  destruct (Z.min_spec n (zlen (left_of a))) as [[H1 ->] | [H1 ->]]; [by rewrite take_drop|].
  rewrite (take_ge _ (Z.to_nat n)), (drop_ge _ (Z.to_nat (zlen _))), app_nil_r; [done| |];
    unfold zlen in *; lia.
Qed.

Lemma all_sent_left a : win_sane a -> all_sent a = true -> left_of a = [].
Proof.
  unfold all_sent, left_of, win_sane. intros Hs H. zbool. apply drop_ge. unfold zlen in *. lia.
Qed.

(** [MakeSend] of a packet in progress. *)
Lemma MakeSend_ok ans a a' out :
  win_fine ans -> win_sane a -> state_ (ws_state a) = kProgress -> MakeSend ans a = (a', out) ->
  left_of a = out ++ win_rest a' /\ win_sane a' /\
  (state_ (ws_state a') = kProgress \/ state_ (ws_state a') = kSuccess /\ win_rest a' = []).
Proof.
  intros Hf Hs Hp. unfold MakeSend. destruct (send_pending_ a).
  { intros [= <- <-]. unfold win_rest. rewrite Hp, decide_False by done. auto. }
  destruct ans as [n | |]; [|intros [= <- <-]; unfold win_rest; simpl; rewrite Hp, decide_False by done; auto|done].
  destruct (transferred n a) as [a1 o] eqn:Et. simpl in Hf.
  destruct (transferred_ok n a a1 o Hf Hs Et) as (Hl & Hs1 & Hst & _).
  destruct (all_sent a1) eqn:Ea; intros [= <- <-]; unfold win_rest.
  - simpl. rewrite SM.state_set, decide_True by done. rewrite (all_sent_left _ Hs1 Ea) in Hl. auto.
  - rewrite Hst, Hp, decide_False by done. auto.
Qed.

#[export] Instance win_action_ok :
  SocketActionOk WinTcpPacketSendAction wsa_answer win_fine win_rest win_sane.
Proof.
  split.
  - done.
  - intros r a a' out Hf Hs Hc. simpl. unfold Send, sa_state. simpl.
    assert (win_rest a = left_of a) as Hr.
    { unfold win_rest. rewrite decide_False; [done|]. intros Hx. unfold sendable, sa_state in Hc.
      simpl in Hc. by rewrite Hx in Hc. }
    rewrite Hr. case_decide as Hq.
    + apply (MakeSend_ok r (ws_set kProgress a)); auto. simpl. apply SM.state_set.
    + assert (state_ (ws_state a) = kProgress) as Hp.
      { unfold sendable, sa_state in Hc. simpl in Hc. by destruct (state_ (ws_state a)). }
      rewrite bool_decide_eq_true_2 by done. simpl. destruct (all_sent a) eqn:Ea.
      * intros [= <- <-]. rewrite (all_sent_left a Hs Ea). unfold win_rest. simpl.
        rewrite SM.state_set, decide_True by done. auto.
      * by apply MakeSend_ok.
  - intros a m Hs Hm. unfold win_rest, left_of. simpl. unfold sa_state in Hm. simpl in Hm.
    rewrite Hm. auto.
Qed.

End WinPacket.

(** ** The transport *)
Module WinTcp.
Import WinPacket Tcp.

Definition InvalidSocketValue : Z := 2 ^ 64 - 1.

Abbreviation packet_queue := (SocketPacketQueueManager WinTcpPacketSendAction).

Record transport := {
  sync_socket_ : Z;
  socket_lock_ : bool;                         (* held by the thread *)
  connection_state : ConnectionState;
  max_packet_size : Z;
  socket_packet_queue_manager_ : packet_queue;
  data_packet_collector_ : StreamDataPacketCollector;
  socket_recv_event_action_ : NotifyAction;
  socket_send_event_action_ : NotifyAction;
  socket_error_action_ : NotifyAction;
  recv_subscribed : bool;
  send_subscribed : bool;
  error_subscribed : bool;
}.

Definition quiet : NotifyAction := {| notify_success_ := false; notify_failed_ := false |}.

Definition new_transport : transport :=
  {| sync_socket_ := InvalidSocketValue; socket_lock_ := false;
     connection_state := kUndefined; max_packet_size := 0;
     socket_packet_queue_manager_ := empty_manager;
     data_packet_collector_ := empty_collector;
     socket_recv_event_action_ := quiet; socket_send_event_action_ := quiet;
     socket_error_action_ := quiet;
     recv_subscribed := false; send_subscribed := false; error_subscribed := false |}.

Definition with_lock (b : bool) (t : transport) : transport :=
  {| sync_socket_ := sync_socket_ t; socket_lock_ := b;
     connection_state := connection_state t; max_packet_size := max_packet_size t;
     socket_packet_queue_manager_ := socket_packet_queue_manager_ t;
     data_packet_collector_ := data_packet_collector_ t;
     socket_recv_event_action_ := socket_recv_event_action_ t;
     socket_send_event_action_ := socket_send_event_action_ t;
     socket_error_action_ := socket_error_action_ t;
     recv_subscribed := recv_subscribed t; send_subscribed := send_subscribed t;
     error_subscribed := error_subscribed t |}.

Definition with_queue (q : packet_queue) (t : transport) : transport :=
  {| sync_socket_ := sync_socket_ t; socket_lock_ := socket_lock_ t;
     connection_state := connection_state t; max_packet_size := max_packet_size t;
     socket_packet_queue_manager_ := q;
     data_packet_collector_ := data_packet_collector_ t;
     socket_recv_event_action_ := socket_recv_event_action_ t;
     socket_send_event_action_ := socket_send_event_action_ t;
     socket_error_action_ := socket_error_action_ t;
     recv_subscribed := recv_subscribed t; send_subscribed := send_subscribed t;
     error_subscribed := error_subscribed t |}.

Definition with_collector (c : StreamDataPacketCollector) (t : transport) : transport :=
  {| sync_socket_ := sync_socket_ t; socket_lock_ := socket_lock_ t;
     connection_state := connection_state t; max_packet_size := max_packet_size t;
     socket_packet_queue_manager_ := socket_packet_queue_manager_ t;
     data_packet_collector_ := c;
     socket_recv_event_action_ := socket_recv_event_action_ t;
     socket_send_event_action_ := socket_send_event_action_ t;
     socket_error_action_ := socket_error_action_ t;
     recv_subscribed := recv_subscribed t; send_subscribed := send_subscribed t;
     error_subscribed := error_subscribed t |}.

Definition with_actions (r s e : NotifyAction) (t : transport) : transport :=
  {| sync_socket_ := sync_socket_ t; socket_lock_ := socket_lock_ t;
     connection_state := connection_state t; max_packet_size := max_packet_size t;
     socket_packet_queue_manager_ := socket_packet_queue_manager_ t;
     data_packet_collector_ := data_packet_collector_ t;
     socket_recv_event_action_ := r; socket_send_event_action_ := s;
     socket_error_action_ := e;
     recv_subscribed := recv_subscribed t; send_subscribed := send_subscribed t;
     error_subscribed := error_subscribed t |}.

(** [SyncSocket::get]; the guard it returns unlocks at the end of its scope. *)
Definition get (t : transport) : outcome transport :=
  if socket_lock_ t then Undefined else Defined (with_lock true t).

Definition unlock : transport -> transport := with_lock false.

(** [ConnectionAction::Connect], run asynchronously. *)
Definition win_connect (sock : Z) (nodelay conn : bool) : ConnectionAction :=
  let c := {| ca_socket := sock; ca_state := SM.make kCConnecting |} in
  if sock =? InvalidSocketValue
  then {| ca_socket := sock; ca_state := SM.set kCNotConnected (ca_state c) |}
  else if negb nodelay || negb conn
  then {| ca_socket := InvalidSocketValue; ca_state := SM.set kCNotConnected (ca_state c) |}
  else {| ca_socket := sock; ca_state := SM.set kCConnected (ca_state c) |}.

Definition OnConnect (socket : Z) (t : transport) : outcome (transport * list event) :=
  let t1 :=
    {| sync_socket_ := socket; socket_lock_ := socket_lock_ t;
       connection_state := connection_state t; max_packet_size := max_packet_size t;
       socket_packet_queue_manager_ := socket_packet_queue_manager_ t;
       data_packet_collector_ := data_packet_collector_ t;
       socket_recv_event_action_ := quiet; socket_send_event_action_ := quiet;
       socket_error_action_ := quiet;
       recv_subscribed := true; send_subscribed := true; error_subscribed := true |} in
  let* t2 := get t1 in
  if sync_socket_ t2 =? InvalidSocketValue then Undefined else
  let t3 := unlock t2 in
  Defined
    ({| sync_socket_ := sync_socket_ t3; socket_lock_ := socket_lock_ t3;
        connection_state := kConnected; max_packet_size := 1500 - 2;
        socket_packet_queue_manager_ := socket_packet_queue_manager_ t3;
        data_packet_collector_ := data_packet_collector_ t3;
        socket_recv_event_action_ := Notify (socket_recv_event_action_ t3);
        socket_send_event_action_ := socket_send_event_action_ t3;
        socket_error_action_ := socket_error_action_ t3;
        recv_subscribed := recv_subscribed t3; send_subscribed := send_subscribed t3;
        error_subscribed := error_subscribed t3 |}, [ConnectionSuccess]).

Definition OnConnectionError (t : transport) : transport * list event :=
  ({| sync_socket_ := sync_socket_ t; socket_lock_ := socket_lock_ t;
      connection_state := kDisconnected; max_packet_size := max_packet_size t;
      socket_packet_queue_manager_ := socket_packet_queue_manager_ t;
      data_packet_collector_ := data_packet_collector_ t;
      socket_recv_event_action_ := socket_recv_event_action_ t;
      socket_send_event_action_ := socket_send_event_action_ t;
      socket_error_action_ := socket_error_action_ t;
      recv_subscribed := recv_subscribed t; send_subscribed := send_subscribed t;
      error_subscribed := error_subscribed t |}, [ConnectionError]).

Definition Disconnect (t : transport) : outcome (transport * list event) :=
  let* t1 := get t in
  if sync_socket_ t1 =? InvalidSocketValue then Defined (unlock t1, []) else
  let (t2, es) := OnConnectionError
    {| sync_socket_ := InvalidSocketValue; socket_lock_ := socket_lock_ t1;
       connection_state := connection_state t1; max_packet_size := max_packet_size t1;
       socket_packet_queue_manager_ := socket_packet_queue_manager_ t1;
       data_packet_collector_ := data_packet_collector_ t1;
       socket_recv_event_action_ := socket_recv_event_action_ t1;
       socket_send_event_action_ := socket_send_event_action_ t1;
       socket_error_action_ := socket_error_action_ t1;
       recv_subscribed := false; send_subscribed := false; error_subscribed := false |} in
  Defined (unlock t2, es).

(** Whether the loop of the queue calls [WSASend], for which [MakeSend] locks
    the socket: a packet that is not pending and has something to send. *)
Fixpoint locks (q : list nat) (acts : gmap nat WinTcpPacketSendAction) : bool :=
  match q with
  | [] => false
  | i :: q' =>
      match acts !! i with
      | None => locks q' acts
      | Some a =>
          if decide (sa_state a = kQueued) then true
          else if decide (sa_state a = kProgress)
          then if all_sent a then locks q' acts else negb (send_pending_ a)
          else locks q' acts
      end
  end.

Definition queue_locks (m : packet_queue) : bool := locks (queue_ m) (actions_ m).

Definition Send (data : bytes) (os : list wsa_answer) (t : transport)
    : outcome (transport * bytes) :=
  let q := socket_packet_queue_manager_ t in
  let a := new_packet (sized_write data) in
  let starts := if current_ q is Some _ then false
                else locks (queue_ q ++ [next_ q]) (<[next_ q := a]> (actions_ q)) in
  if socket_lock_ t && starts then Undefined else
  let (q', out) := AddPacket os a q in
  Defined (with_queue q' t, out).

Definition OnSocketSendEvent (os : list wsa_answer) (t : transport)
    : outcome (transport * bytes) :=
  let q := socket_packet_queue_manager_ t in
  if socket_lock_ t && queue_locks q then Undefined else
  let (q', out) := SocketQueue.Send os q in
  Defined (with_queue q' t, out).

(** The answer of [WSARecv]. *)
Inductive wsa_recv := RecvStarted | RecvFailed.

Definition RecvUpdate (ans : wsa_recv) (t : transport) : outcome (transport * list event) :=
  let* t1 := get t in
  match ans with
  | RecvFailed => let* (t2, es) := Disconnect t1 in Defined (unlock t2, es)
  | RecvStarted => Defined (unlock t1, [])
  end.

(** The subscriber of the packets answers each with packets of its own. *)
Section Handler.
Variable reply : bytes -> list (bytes * list wsa_answer).

Fixpoint send_all (l : list (bytes * list wsa_answer)) (t : transport)
    : outcome (transport * bytes) :=
  match l with
  | [] => Defined (t, [])
  | (data, os) :: l' =>
      let* (t1, o1) := Send data os t in
      let* (t2, o2) := send_all l' t1 in Defined (t2, o1 ++ o2)
  end.

Fixpoint emit_all (ps : list bytes) (t : transport) : outcome (transport * list event * bytes) :=
  match ps with
  | [] => Defined (t, [], [])
  | p :: ps' =>
      let* (t1, o1) := send_all (reply p) t in
      let* (t2, es, o2) := emit_all ps' t1 in Defined (t2, DataReceive p :: es, o1 ++ o2)
  end.

Definition HandleReceivedData (t : transport) : outcome (transport * list event * bytes) :=
  let* t1 := get t in
  let c := data_packet_collector_ t1 in
  let (ps, c') := pop_all (S (length (packets_ c))) c in
  let* (t2, es, out) := emit_all ps (with_collector c' t1) in
  Defined (unlock t2, es, out).

Definition OnSocketRecvEvent (ans : wsa_recv) (t : transport)
    : outcome (transport * list event * bytes) :=
  let* (t1, es1) := RecvUpdate ans t in
  let* (t2, es2, out) := HandleReceivedData t1 in Defined (t2, es1 ++ es2, out).
End Handler.

Definition notify_recv (t : transport) : transport :=
  with_actions (Notify (socket_recv_event_action_ t)) (socket_send_event_action_ t)
               (socket_error_action_ t) t.

Definition notify_send (t : transport) : transport :=
  with_actions (socket_recv_event_action_ t) (Notify (socket_send_event_action_ t))
               (socket_error_action_ t) t.

Definition notify_error (t : transport) : transport :=
  with_actions (socket_recv_event_action_ t) (socket_send_event_action_ t)
               (Notify (socket_error_action_ t)) t.

Section Recv.
Variable alloc_ok : Z -> bool.

(** [OnRecv], in the thread of the poller; the answer of
    [WSAGetOverlappedResult] is the received bytes or an error. *)
Definition OnRecv (res : option bytes) (t : transport) : outcome transport :=
  let* t1 := get t in
  match res with
  | None | Some [] => Defined (unlock (notify_error t1))
  | Some data =>
      match AddData alloc_ok (data_packet_collector_ t1) data with
      | None => Undefined
      | Some c => Defined (unlock (with_collector c t1))
      end
  end.

(** The poller reports that a read ended. *)
Definition on_read_event (res : option bytes) (t : transport) : outcome transport :=
  let* t1 := OnRecv res t in Defined (notify_recv t1).
End Recv.

(** [send_event_] reaches the packets that are subscribed; such a packet is in
    the queue. *)
Fixpoint complete_loop (res : option Z) (q : list nat)
    (acts : gmap nat WinTcpPacketSendAction) : gmap nat WinTcpPacketSendAction * bytes :=
  match q with
  | [] => (acts, [])
  | i :: q' =>
      match acts !! i with
      | Some a =>
          if subscribed a
          then let (a1, o1) := OnSend res a in
               let (acts2, o2) := complete_loop res q' (<[i := a1]> acts) in (acts2, o1 ++ o2)
          else complete_loop res q' acts
      | None => complete_loop res q' acts
      end
  end.

Definition complete (res : option Z) (m : packet_queue) : packet_queue * bytes :=
  let (acts, out) := complete_loop res (queue_ m) (actions_ m) in
  ({| actions_ := acts; queue_ := queue_ m; current_ := current_ m; next_ := next_ m |}, out).

(** The poller reports that a write ended; the lock is free between the
    operations. *)
Definition on_write_event (res : option Z) (t : transport) : outcome (transport * bytes) :=
  if socket_lock_ t then Undefined else
  let (q, out) := complete res (socket_packet_queue_manager_ t) in
  Defined (notify_send (with_queue q t), out).

(** The processor updates the error action: [OnSocketError] is subscribed to its
    error. *)
Definition error_update (t : transport) : outcome (transport * list event) :=
  let (e, ns) := notify_update (socket_error_action_ t) in
  let t1 := with_actions (socket_recv_event_action_ t) (socket_send_event_action_ t) e t in
  if error_subscribed t1 && existsb (fun n => if n is ErrorFinish then true else false) ns
  then Disconnect t1 else Defined (t1, []).

End WinTcp.

(** ** Properties *)
Module WinTcpProperties.
Import WinPacket Tcp WinTcp.

(** The loop of the queue leaves the packets behind its new front as they are. *)
Lemma send_loop_behind q : forall (acts : gmap nat WinTcpPacketSendAction)
    (os : list wsa_answer) q' acts' cur out j,
  NoDup q -> send_loop q acts os = (q', acts', cur, out) -> j ∈ tail q' ->
  acts' !! j = acts !! j /\ j ∈ tail q.
Proof.
  induction q as [|i q IH]; intros acts os q' acts' cur out j Hnd.
  { intros [= <- <- <- <-]. intros []%elem_of_nil. }
  apply list.NoDup_cons in Hnd as [Hi Hnd]. cbn [send_loop tail].
  assert (forall l : list nat, j ∈ tail l -> j ∈ l) as Ht.
  { intros [|x l] Hl; [done|]. by apply list_elem_of_further. }
  destruct (acts !! i) as [a|].
  2:{ intros E Hj. destruct (IH _ _ _ _ _ _ j Hnd E Hj). auto. }
  destruct (if sendable a then _ else _) as [[a1 os1] o].
  case_decide.
  - intros [= <- <- <- <-] Hj. simpl in Hj. split; [|done].
    apply lookup_insert_ne. by intros ->.
  - destruct (send_loop q (<[i:=a1]> acts) os1) as [[[q2 acts2] cur2] o2] eqn:E2.
    intros [= <- <- <- <-] Hj. destruct (IH _ _ _ _ _ _ j Hnd E2 Hj) as [Hl Hq].
    split; [|auto]. rewrite Hl. apply lookup_insert_ne. intros ->. auto.
Qed.

(** Only the front of the queue has an operation pending. *)
Definition tail_idle (m : packet_queue) : Prop :=
  forall i a, i ∈ tail (queue_ m) -> actions_ m !! i = Some a -> send_pending_ a = false.

Abbreviation wgood := (good (rest:=win_rest) (sane:=win_sane)).
Abbreviation wpending := (pending (rest:=win_rest)).

Inductive wop :=
  | WQueue (o : qop (A:=WinTcpPacketSendAction) (R:=wsa_answer))
  | WComplete (res : option Z).

Definition wexec (o : wop) (m : packet_queue) : packet_queue * bytes :=
  match o with
  | WQueue o => qexec o m
  | WComplete res => complete res m
  end.

(** No errors, and new packets have nothing pending. *)
Definition wfine (o : wop) : Prop :=
  match o with
  | WQueue o => qfine (fine:=win_fine) (sane:=win_sane) o /\
                (if o is QAdd a _ then send_pending_ a = false else True)
  | WComplete res => if res is Some n then 0 <= n else True
  end.

Definition wadded (o : wop) : bytes :=
  match o with WQueue o => added (rest:=win_rest) o | WComplete _ => [] end.

Fixpoint wrun (os : list wop) (m : packet_queue) (wire : bytes) : packet_queue * bytes :=
  match os with
  | [] => (m, wire)
  | o :: os' => let (m', out) := wexec o m in wrun os' m' (wire ++ out)
  end.

Lemma Send_idle os m :
  wgood m -> tail_idle m -> tail_idle (SocketQueue.Send os m).1.
Proof.
  intros G Hi. unfold SocketQueue.Send. destruct (queue_ m) as [|i q] eqn:Eq; [done|].
  destruct (send_loop (i :: q) (actions_ m) os) as [[[q' acts'] cur] out] eqn:El. simpl.
  intros j a Hj Ha. simpl in *. pose proof (good_nodup _ G) as Hnd. rewrite Eq in Hnd.
  destruct (send_loop_behind _ _ _ _ _ _ _ j Hnd El Hj) as [Hl Hq].
  apply (Hi j); [by rewrite Eq | by rewrite <- Hl].
Qed.

(** The queue with a new packet at its end. *)
Lemma push_behind a m :
  wgood m -> tail_idle m -> send_pending_ a = false ->
  tail_idle {| actions_ := <[next_ m := a]> (actions_ m); queue_ := queue_ m ++ [next_ m];
               current_ := current_ m; next_ := S (next_ m) |}.
Proof.
  intros G Hi Ha j b Hj. simpl in *. intros [[_ <-] | [Hn Hb]]%lookup_insert_Some; [done|].
  apply (Hi j); [|done]. destruct (queue_ m) as [|x q]; simpl in *; [by apply elem_of_nil in Hj|].
  apply elem_of_app in Hj as [?|Hj]; [done|]. by apply list_elem_of_singleton in Hj as ->.
Qed.

Lemma qexec_idle o m :
  wgood m -> tail_idle m -> wfine (WQueue o) -> tail_idle (qexec o m).1.
Proof.
  intros G Hi [Hf Ha]. destruct o as [a os | os | i]; simpl.
  - unfold AddPacket. pose proof (push_behind a m G Hi Ha) as Hp.
    destruct (current_ m) eqn:Ec; [done|]. apply Send_idle; [|done].
    destruct Hf as (Hos & Hs & Hq).
    pose proof (add_good (fine:=win_fine) os a
      {| actions_ := actions_ m; queue_ := queue_ m; current_ := Some 0%nat; next_ := next_ m |}) as HA.
    unfold AddPacket in HA. simpl in HA. destruct HA as [[G1 G2 G3] _]; auto.
    { by destruct G. }
    { by split. }
  - by apply Send_idle.
  - unfold update_action. destruct (actions_ m !! i) as [a|] eqn:Ea; [|done].
    destruct (Update (sa_machine a)) as [s d]. intros j b Hj. simpl in *.
    destruct d; [intros [_ Hb]%lookup_delete_Some; eauto|].
    intros [[<- <-] | [_ Hb]]%lookup_insert_Some; [simpl; eauto | eauto].
Qed.

(** A completion changes nothing for packets without a pending operation. *)
Lemma complete_loop_idle res q : forall acts,
  (forall i a, i ∈ q -> acts !! i = Some a -> send_pending_ a = false) ->
  complete_loop res q acts = (acts, []).
Proof.
  induction q as [|i q IH]; intros acts Hi; [done|]. cbn [complete_loop].
  destruct (acts !! i) as [a|] eqn:Ea.
  - assert (OnSend res a = (a, [])) as ->.
    { unfold OnSend. rewrite (Hi i a (list_elem_of_here _ _) Ea). by destruct res. }
    rewrite insert_id by done. rewrite IH.
    + by destruct (subscribed a).
    + intros j b Hj. apply Hi. by apply list_elem_of_further.
  - apply IH. intros j b Hj. apply Hi. by apply list_elem_of_further.
Qed.

Lemma OnSend_ok res a a' out :
  (if res is Some n then 0 <= n else True) -> win_sane a -> OnSend res a = (a', out) ->
  left_of a = out ++ left_of a' /\ win_sane a' /\ ws_state a' = ws_state a.
Proof.
  intros Hr Hs. unfold OnSend. destruct res as [n|]; [|intros [= <- <-]; auto].
  destruct (send_pending_ a); [|intros [= <- <-]; auto].
  intros E. eapply transferred_ok in E as (H1 & H2 & H3 & _); auto.
Qed.

(** What a completion does: only the front may change, by a transfer. *)
Lemma complete_front res m :
  wgood m -> tail_idle m ->
  complete res m = (m, []) \/
  exists i q a, queue_ m = i :: q /\ actions_ m !! i = Some a /\
    state_ (ws_state a) = kProgress /\
    complete res m = ({| actions_ := <[i := (OnSend res a).1]> (actions_ m); queue_ := queue_ m;
                         current_ := current_ m; next_ := next_ m |}, (OnSend res a).2).
Proof.
  intros G Hi. unfold complete. pose proof (good_nodup _ G) as Hnd.
  destruct (queue_ m) as [|i q] eqn:Eq; [left; simpl; rewrite <- Eq; by destruct m|].
  apply list.NoDup_cons in Hnd as [Hn Hnd].
  assert (forall j b, j ∈ q -> actions_ m !! j = Some b -> send_pending_ b = false) as Hq.
  { intros j b Hj. apply (Hi j b). by rewrite Eq. }
  cbn [complete_loop]. destruct (actions_ m !! i) as [a|] eqn:Ea.
  2:{ left. rewrite complete_loop_idle by done. rewrite <- Eq. by destruct m. }
  unfold subscribed. case_bool_decide as Hp.
  - right. exists i, q, a. split_and!; auto. destruct (OnSend res a) as [a1 o1].
    rewrite complete_loop_idle; [by rewrite app_nil_r|].
    intros j b Hj. rewrite lookup_insert_ne by (by intros ->). by apply Hq.
  - left. rewrite complete_loop_idle by done. rewrite <- Eq. by destruct m.
Qed.

Lemma complete_ok res m :
  wgood m -> tail_idle m -> wfine (WComplete res) ->
  let (m', out) := complete res m in
  wgood m' /\ tail_idle m' /\ wpending m = out ++ wpending m'.
Proof.
  intros G Hi Hf. destruct (complete_front res m G Hi) as [-> | (i & q & a & Eq & Ea & Hp & ->)].
  { done. }
  destruct (good_store _ G i a Ea) as [Hlt [Hs _]]. simpl in Hf.
  destruct (OnSend res a) as [a' out] eqn:Eo. simpl.
  destruct (OnSend_ok res a a' out Hf Hs Eo) as (Hl & Hs' & Hst).
  pose proof (good_nodup _ G) as Hnd. rewrite Eq in Hnd. apply list.NoDup_cons in Hnd as [Hn _].
  split_and!.
  - destruct G as [G1 G2 G3]. split; simpl; auto.
    intros j b [[<- <-] | [_ Hb]]%lookup_insert_Some; [|by apply G3].
    split; [done|]. split; [done|]. left. unfold sendable, sa_state. simpl. by rewrite Hst, Hp.
  - intros j b Hj. simpl in *. rewrite lookup_insert_ne; [by apply Hi|].
    rewrite Eq in Hj. by intros ->.
  - unfold pending, pend. simpl. rewrite Eq. simpl.
    pose proof (pend_insert (rest:=win_rest) q (actions_ m) i a' Hn) as Hpi. unfold pend in Hpi.
    rewrite Hpi, lookup_insert_eq, Ea, app_assoc. simpl. f_equal.
    unfold win_rest. by rewrite Hst, Hp, !decide_False.
Qed.

Lemma wexec_refines o m wire :
  wgood m -> tail_idle m -> wfine o ->
  let (m', out) := wexec o m in
  wgood m' /\ tail_idle m' /\ rtc pipe_step (wire, wpending m) (wire ++ out, wpending m') /\
  wpending m ++ wadded o = out ++ wpending m'.
Proof.
  intros G Hi Ho. destruct o as [o | res]; simpl wexec.
  - pose proof (qexec_idle o m G Hi Ho) as Hi'.
    pose proof (qexec_refines (fine:=win_fine) o m wire G (proj1 Ho)) as HQ.
    destruct (qexec o m) as [m' out]. destruct HQ as (G' & R & P). auto.
  - pose proof (complete_ok res m G Hi Ho) as HQ. destruct (complete res m) as [m' out].
    destruct HQ as (G' & Hi' & P). simpl. rewrite app_nil_r. split_and!; auto.
    rewrite P. apply rtc_once. constructor.
Qed.

Lemma wrun_refines os : forall m wire,
  wgood m -> tail_idle m -> Forall wfine os ->
  let (m', wire') := wrun os m wire in
  wgood m' /\ tail_idle m' /\ rtc pipe_step (wire, wpending m) (wire', wpending m') /\
  wire ++ wpending m ++ concat (map wadded os) = wire' ++ wpending m'.
Proof.
  induction os as [|o os IH]; intros m wire G Hi Ho.
  { simpl. rewrite app_nil_r. split_and!; auto. constructor. }
  inversion Ho as [|? ? Ho1 Ho2]; subst. simpl.
  pose proof (wexec_refines o m wire G Hi Ho1) as HQ. destruct (wexec o m) as [m1 out].
  destruct HQ as (G1 & I1 & R1 & P1). pose proof (IH m1 (wire ++ out) G1 I1 Ho2) as HQ.
  destruct (wrun os m1 (wire ++ out)) as [m2 wire2]. destruct HQ as (G2 & I2 & R2 & P2).
  split_and!; auto; [by etransitivity|]. rewrite <- P2, !app_assoc. f_equal.
  rewrite <- !app_assoc. by rewrite P1.
Qed.

(** *** Runs of the transport *)

Inductive top :=
  | TSend (data : bytes) (os : list wsa_answer)
  | TSendEvent (os : list wsa_answer)
  | TWriteEvent (res : option Z)
  | TUpdate (i : nat).

Definition texec (o : top) (t : transport) : outcome (transport * bytes) :=
  match o with
  | TSend data os => WinTcp.Send data os t
  | TSendEvent os => OnSocketSendEvent os t
  | TWriteEvent res => on_write_event res t
  | TUpdate i => Defined (with_queue (update_action i (socket_packet_queue_manager_ t)).1 t, [])
  end.

Fixpoint trun (os : list top) (t : transport) (wire : bytes) : outcome (transport * bytes) :=
  match os with
  | [] => Defined (t, wire)
  | o :: os' => let* (t', out) := texec o t in trun os' t' (wire ++ out)
  end.

Definition tfine (o : top) : Prop :=
  match o with
  | TSend _ os | TSendEvent os => Forall win_fine os
  | TWriteEvent res => if res is Some n then 0 <= n else False
  | TUpdate _ => True
  end.

Definition tpayloads (os : list top) : list bytes :=
  concat (map (fun o => if o is TSend data _ then [data] else []) os).

Definition top_op (o : top) : wop :=
  match o with
  | TSend data os => WQueue (QAdd (new_packet (sized_write data)) os)
  | TSendEvent os => WQueue (QSend os)
  | TWriteEvent res => WComplete res
  | TUpdate i => WQueue (QUpdate i)
  end.

Lemma texec_queue o t :
  socket_lock_ t = false ->
  exists t', texec o t = Defined (t', (wexec (top_op o) (socket_packet_queue_manager_ t)).2) /\
    socket_packet_queue_manager_ t' = (wexec (top_op o) (socket_packet_queue_manager_ t)).1 /\
    socket_lock_ t' = false.
Proof.
  intros Hl. destruct o as [data os | os | res | i]; simpl.
  - unfold WinTcp.Send. rewrite Hl. simpl. destruct (AddPacket os _ _) as [q out]. eauto.
  - unfold OnSocketSendEvent. rewrite Hl. simpl. destruct (SocketQueue.Send os _) as [q out]. eauto.
  - unfold on_write_event. rewrite Hl. destruct (complete res _) as [q out]. eauto.
  - eauto.
Qed.

Lemma trun_queue os : forall t wire,
  socket_lock_ t = false ->
  exists t' wire', trun os t wire = Defined (t', wire') /\
    wrun (map top_op os) (socket_packet_queue_manager_ t) wire
    = (socket_packet_queue_manager_ t', wire').
Proof.
  induction os as [|o os IH]; intros t wire Hl; simpl; [eauto|].
  destruct (texec_queue o t Hl) as (t1 & -> & Hq & Hl1). simpl.
  destruct (wexec (top_op o) (socket_packet_queue_manager_ t)) as [q out]. simpl in *. subst q.
  by apply IH.
Qed.

Lemma tfine_wfine o : tfine o -> wfine (top_op o).
Proof.
  destruct o as [data os | os | res | i]; simpl; auto.
  - intros Hf. split_and!; auto. unfold win_sane. simpl.
    pose proof (zlen_nonneg (sized_write data)). lia.
  - by destruct res.
Qed.

(** The Windows queue refines the same pipe of bytes, completions of
    overlapped writes included: packets sent on a transport, in any order with
    the events of the poller, whether writes end at once or are pending, reach
    the wire whole and in order. *)
Theorem win_queue_refines os t :
  socket_lock_ t = false -> socket_packet_queue_manager_ t = empty_manager ->
  Forall tfine os ->
  exists t' wire, trun os t [] = Defined (t', wire) /\
    rtc pipe_step ([], []) (wire, wpending (socket_packet_queue_manager_ t')) /\
    wire ++ wpending (socket_packet_queue_manager_ t') = concat (map sized_write (tpayloads os)).
Proof.
  intros Hl Hq Ho. destruct (trun_queue os t [] Hl) as (t' & wire & E & Ew).
  exists t', wire. split; [done|]. rewrite Hq in Ew.
  pose proof (wrun_refines (map top_op os) empty_manager []) as HW. rewrite Ew in HW.
  destruct HW as (_ & _ & R & P).
  { split; simpl; [constructor | by intros ? ?%elem_of_nil | done]. }
  { intros i a Hi. by apply elem_of_nil in Hi. }
  { apply Forall_map. eapply Forall_impl; [exact tfine_wfine | exact Ho]. }
  split; [exact R|]. rewrite <- P. simpl. unfold tpayloads. clear. 
  induction os as [|o os IH]; [done|]. simpl. rewrite IH, map_app, concat_app. f_equal.
  destruct o; simpl; try done. by rewrite app_nil_r.
Qed.

Lemma win_queue_refines_witness :
  exists t' wire,
    trun [TSend [1;2;3] [IoPending]; TSend [4;5] []; TWriteEvent (Some 3);
          TSendEvent [Transferred 1; Transferred 2]; TUpdate 0; TSendEvent [IoPending]]
         new_transport [] = Defined (t', wire) /\
    rtc pipe_step ([], []) (wire, wpending (socket_packet_queue_manager_ t')) /\
    wire ++ wpending (socket_packet_queue_manager_ t')
    = concat (map sized_write [[1;2;3]; [4;5]]).
Proof.
  apply (win_queue_refines
    [TSend [1;2;3] [IoPending]; TSend [4;5] []; TWriteEvent (Some 3);
     TSendEvent [Transferred 1; Transferred 2]; TUpdate 0; TSendEvent [IoPending]]);
    [reflexivity | reflexivity |].
  repeat constructor; simpl; lia.
Defined.

(** *** Failures *)

(** The front of the queue waits for the completion of an operation. *)
Definition stuck (m : packet_queue) : Prop :=
  exists i q a, queue_ m = i :: q /\ actions_ m !! i = Some a /\ (i < next_ m)%nat /\
    state_ (ws_state a) = kProgress /\ send_pending_ a = true /\ all_sent a = false.

Lemma Send_stuck os m :
  stuck m -> stuck (SocketQueue.Send os m).1 /\ (SocketQueue.Send os m).2 = [].
Proof.
  intros (i & q & a & Eq & Ea & Hi & Hp & Hpend & Hall). unfold SocketQueue.Send. rewrite Eq.
  cbn [send_loop]. rewrite Ea, progress_sendable by done.
  destruct (next_answer os) as [r os1]. simpl. unfold WinPacket.Send, MakeSend.
  rewrite decide_False by (by rewrite Hp). rewrite Hall, andb_false_r, Hpend.
  rewrite decide_True by done. simpl. split; [|done].
  exists i, q, a. simpl. rewrite lookup_insert_eq. done.
Qed.

Definition no_success (o : top) : Prop :=
  match o with TWriteEvent (Some _) => False | _ => True end.

Lemma complete_failed m : complete None m = (m, []).
Proof.
  unfold complete. assert (forall q acts, complete_loop None q acts = (acts, [])) as H.
  { induction q as [|i q IH]; intros acts; [done|]. cbn [complete_loop].
    destruct (acts !! i) as [a|] eqn:Ea; [|by apply IH]. destruct (subscribed a); [|by apply IH].
    simpl. by rewrite insert_id, IH. }
  rewrite H. by destruct m.
Qed.

Lemma wexec_stuck o m :
  stuck m -> no_success o -> stuck (wexec (top_op o) m).1 /\ (wexec (top_op o) m).2 = [].
Proof.
  intros Hs Ho. destruct o as [data os | os | [n|] | j]; simpl in *; try done.
  - unfold AddPacket.
    set (m1 := {| actions_ := _; queue_ := queue_ m ++ _; current_ := _; next_ := _ |}).
    assert (stuck m1) as Hs1.
    { destruct Hs as (i & q & a & Eq & Ea & Hi & Hst). exists i, (q ++ [next_ m]), a. simpl.
      rewrite Eq, lookup_insert_ne by lia. split_and!; try apply Hst; auto; lia. }
    destruct (current_ m); [done|]. by apply Send_stuck.
  - by apply Send_stuck.
  - by rewrite complete_failed.
  - split; [|done]. destruct Hs as (i & q & a & Eq & Ea & Hi & Hp & Hpend & Hall).
    unfold update_action. destruct (actions_ m !! j) as [b|] eqn:Eb; [|by exists i, q, a].
    unfold Update. destruct (decide (j = i)) as [-> | Hj].
    + rewrite Ea in Eb. injection Eb as <-. simpl. destruct (changed_ (ws_state a)); simpl.
      * rewrite Hp. exists i, q. eexists. simpl. rewrite lookup_insert_eq. split_and!; eauto.
      * exists i, q. eexists. simpl. rewrite lookup_insert_eq. split_and!; eauto.
    + destruct (changed_ (sa_machine b)); simpl;
        [destruct (state_ (ws_state b))|]; exists i, q, a; simpl;
        rewrite ?lookup_insert_ne, ?lookup_delete_ne by done; done.
Qed.

(** A write that ends with an error blocks the Windows transport for ever.
    [OnSend] ignores the error and leaves the packet pending, so whatever is sent
    and whatever the system answers afterwards, nothing more is written: the
    packet does not fail and the transport does not disconnect. *)
Theorem win_failed_write_blocks os t wire :
  socket_lock_ t = false -> stuck (socket_packet_queue_manager_ t) ->
  Forall no_success os ->
  exists t', trun (TWriteEvent None :: os) t wire = Defined (t', wire) /\
    stuck (socket_packet_queue_manager_ t').
Proof.
  intros Hl Hs Ho. assert (Forall no_success (TWriteEvent None :: os)) as Ho' by by constructor.
  revert t Hl Hs. induction Ho' as [|o l Ho1 _ IH]; intros t Hl Hs; [simpl; eauto|].
  destruct (texec_queue o t Hl) as (t1 & E & Hq & Hl1). simpl. rewrite E. simpl.
  destruct (wexec_stuck o _ Hs Ho1) as [Hs1 ->]. rewrite app_nil_r. apply IH; [done|].
  by rewrite Hq.
Qed.

Definition pending_transport : transport :=
  match trun [TSend [1;2;3] [IoPending]] new_transport [] with
  | Defined (t, _) => t
  | Undefined => new_transport
  end.

Lemma win_failed_write_blocks_witness :
  exists t', trun [TWriteEvent None; TSend [4] [Transferred 9]; TSendEvent [Transferred 9]]
                  pending_transport [] = Defined (t', []) /\
    stuck (socket_packet_queue_manager_ t').
Proof.
  apply (win_failed_write_blocks [TSend [4] [Transferred 9]; TSendEvent [Transferred 9]]).
  - reflexivity.
  - exists 0%nat, [], {| ws_state := {| changed_ := true; state_ := kProgress |};
      send_buffer_ := [3;1;2;3]; send_offset_ := 0; send_pending_ := true |}.
    split_and!; try reflexivity. vm_compute. lia.
  - repeat constructor.
Defined.

(** A read that cannot be started locks the mutex of the socket twice:
    [RecvUpdate] holds it when it calls [Disconnect]. *)
Lemma recv_error_relocks t :
  RecvUpdate RecvFailed t = Undefined.
Proof. unfold RecvUpdate, Disconnect, get. by destruct (socket_lock_ t). Qed.

(** A subscriber that answers a packet by sending on an idle transport locks it
    twice as well: [HandleReceivedData] emits with the mutex held. *)
Lemma reply_relocks reply t p c data os l :
  pop_all (S (length (packets_ (data_packet_collector_ t)))) (data_packet_collector_ t)
  = ([p], c) ->
  reply p = (data, os) :: l -> socket_packet_queue_manager_ t = empty_manager ->
  HandleReceivedData reply t = Undefined.
Proof.
  intros Hp Hr Hq. unfold HandleReceivedData, get. destruct (socket_lock_ t); [done|].
  cbn [data_packet_collector_ with_lock]. rewrite Hp. simpl. rewrite Hr. simpl.
  unfold WinTcp.Send. simpl. rewrite Hq. done.
Qed.

(** [OnRecv] reports the end of the connection by the result of the error
    action, but [OnSocketError] is subscribed to its error: the transport stays
    connected. *)
Lemma close_not_handled alloc_ok t t1 t2 es :
  socket_error_action_ t = quiet ->
  on_read_event alloc_ok (Some []) t = Defined t1 -> error_update t1 = Defined (t2, es) ->
  es = [] /\ connection_state t2 = connection_state t /\ sync_socket_ t2 = sync_socket_ t.
Proof.
  intros He. unfold on_read_event, OnRecv, get. destruct (socket_lock_ t); [done|].
  simpl. intros [= <-]. unfold error_update. simpl. rewrite He. simpl. rewrite andb_false_r.
  by intros [= <- <-].
Qed.

(** [Disconnect] closes the socket once and reports it once. *)
Lemma disconnect_once t t1 es :
  Disconnect t = Defined (t1, es) ->
  sync_socket_ t1 = InvalidSocketValue /\
  (sync_socket_ t <> InvalidSocketValue -> es = [ConnectionError] /\ connection_state t1 = kDisconnected) /\
  Disconnect t1 = Defined (t1, []).
Proof.
  unfold Disconnect, get. destruct (socket_lock_ t) eqn:El; [done|]. simpl.
  destruct (sync_socket_ t =? InvalidSocketValue) eqn:E; intros [= <- <-]; simpl.
  - rewrite E. zbool. split_and!; auto; done.
  - split_and!; auto.
Qed.

End WinTcpProperties.
