(* ===== verification/ServerTransport.v ===== *)
(** * The transport to a server

    [transport/server/] and [transport/actions/]: the queue that sends the
    packets of a server one at a time ([ServerSendQueueManagerAction] with
    [ServerSendPacketAction]), the choice of a channel
    ([ServerChannelSelector]), connecting and reconnecting ([ServerTransport],
    [ServerChannelTransport]), the packets of a channel with their timeout
    ([ChannelPacketSendAction]) and the actions that connect to an address or to
    the addresses of a name.

    The transport of a channel is a number; what the transports below answer is
    an operation of the environment.  A call through a view of a packet that was
    removed, or through an empty transport pointer, is [Undefined]. *)

From stdpp Require Import gmap.
From S2P Require Import Prelude StateMachine Actions SocketTransport TcpTransports.
Import PacketSend.

#[local] Set Warnings "-clear-no-such-hyp".

(** ** The queue of a server *)
Module ServerQueue.

Record ServerSendPacketAction := {
  sp_state : StateMachine State;
  data_ : bytes;
  send_transport_ : option nat;
  send_action_ : bool;            (* the action below exists and is subscribed to *)
}.

Definition new_packet (data : bytes) : ServerSendPacketAction :=
  {| sp_state := SM.default kQueued; data_ := data; send_transport_ := None;
     send_action_ := false |}.

Definition sp_set (s : State) (a : ServerSendPacketAction) : ServerSendPacketAction :=
  {| sp_state := SM.set s (sp_state a); data_ := data_ a;
     send_transport_ := send_transport_ a; send_action_ := send_action_ a |}.

(** [Update]: the new state and how the action ended. *)
Definition Update (a : ServerSendPacketAction) : ServerSendPacketAction * option done :=
  if changed_ (sp_state a) then
    let (s, m) := SM.Acquire (sp_state a) in
    ({| sp_state := m; data_ := data_ a; send_transport_ := send_transport_ a;
        send_action_ := send_action_ a |},
     match s with
     | kQueued | kProgress => None
     | kSuccess => Some Result
     | kStopped => Some Stopped
     | kTimeout | kFailed | kPanic => Some Error
     end)
  else (a, None).

(** [Stop]: the packet, and whether the packet below is stopped as well; the end
    of that one comes as an operation of its own ([SLow]). *)
Definition Stop (a : ServerSendPacketAction) : ServerSendPacketAction * bool :=
  (sp_set kStopped a, send_action_ a).

(** What is given to the transport of a channel. *)
Definition sent : Type := (nat * bytes)%type.

Definition Packet_Send (a : ServerSendPacketAction) : outcome (ServerSendPacketAction * list sent) :=
  match send_transport_ a with
  | None => Undefined
  | Some c =>
      Defined ({| sp_state := sp_state a; data_ := data_ a;
                  send_transport_ := send_transport_ a; send_action_ := true |},
               [(c, data_ a)])
  end.

Definition Packet_Enqueue (c : option nat) (a : ServerSendPacketAction)
    : outcome (ServerSendPacketAction * list sent) :=
  Packet_Send {| sp_state := SM.set kProgress (sp_state a); data_ := data_ a;
                 send_transport_ := c; send_action_ := send_action_ a |}.

Definition Dequeue (a : ServerSendPacketAction) : ServerSendPacketAction :=
  {| sp_state := SM.set kQueued (sp_state a); data_ := data_ a;
     send_transport_ := None; send_action_ := send_action_ a |}.

(** The action below ended in the state [s] ([SendSubscriptions]). *)
Definition low_level (s : State) (a : ServerSendPacketAction) : ServerSendPacketAction :=
  if send_action_ a then sp_set s a else a.

(** [ServerSendQueueManagerAction::State] *)
Inductive QState := kTransportNotSet | kQueueReady | kQueueBusy | kQueueEmpty.

#[export] Instance QState_eq_dec : EqDecision QState.
Proof. solve_decision. Defined.

(** [subscribed_] are the packets [Enqueue] subscribed to. *)
Record ServerSendQueueManagerAction := {
  q_state : StateMachine QState;
  actions_ : gmap nat ServerSendPacketAction;
  send_queue_ : list nat;
  enqueue_transport_ : option nat;
  subscribed_ : list nat;
  next_ : nat;
}.

Abbreviation manager := ServerSendQueueManagerAction.

Definition new_manager : manager :=
  {| q_state := SM.default kTransportNotSet; actions_ := ∅; send_queue_ := [];
     enqueue_transport_ := None; subscribed_ := []; next_ := 0 |}.

Definition q_set (s : QState) (m : manager) : manager :=
  {| q_state := SM.set s (q_state m); actions_ := actions_ m; send_queue_ := send_queue_ m;
     enqueue_transport_ := enqueue_transport_ m; subscribed_ := subscribed_ m;
     next_ := next_ m |}.

Definition with_actions (acts : gmap nat ServerSendPacketAction) (m : manager) : manager :=
  {| q_state := q_state m; actions_ := acts; send_queue_ := send_queue_ m;
     enqueue_transport_ := enqueue_transport_ m; subscribed_ := subscribed_ m;
     next_ := next_ m |}.

(** [Add]; the view of the packet is the old [next_]. *)
Definition Add (data : bytes) (m : manager) : manager :=
  let m1 := {| q_state := q_state m; actions_ := <[next_ m := new_packet data]> (actions_ m);
               send_queue_ := send_queue_ m ++ [next_ m];
               enqueue_transport_ := enqueue_transport_ m; subscribed_ := subscribed_ m;
               next_ := S (next_ m) |} in
  if decide (state_ (q_state m1) = kQueueEmpty) then q_set kQueueReady m1 else m1.

Definition SetTransport (c : nat) (m : manager) : manager :=
  let m1 := {| q_state := q_state m; actions_ := actions_ m; send_queue_ := send_queue_ m;
               enqueue_transport_ := Some c; subscribed_ := subscribed_ m;
               next_ := next_ m |} in
  if decide (state_ (q_state m1) = kTransportNotSet) then q_set kQueueReady m1 else m1.

Definition ResetTransport (m : manager) : manager :=
  let m1 := {| q_state := q_state m; actions_ := actions_ m; send_queue_ := send_queue_ m;
               enqueue_transport_ := None; subscribed_ := subscribed_ m;
               next_ := next_ m |} in
  if decide (state_ (q_state m1) = kTransportNotSet) then q_set kTransportNotSet m1 else m1.

Definition Enqueue (m : manager) : outcome (manager * list sent) :=
  match send_queue_ m with
  | [] => Defined (q_set kQueueEmpty m, [])
  | i :: _ =>
      match actions_ m !! i with
      | None => Undefined
      | Some a =>
          let m1 := q_set kQueueBusy
            {| q_state := q_state m; actions_ := actions_ m; send_queue_ := send_queue_ m;
               enqueue_transport_ := enqueue_transport_ m;
               subscribed_ := i :: subscribed_ m; next_ := next_ m |} in
          let* (a1, out) := Packet_Enqueue (enqueue_transport_ m1) a in
          Defined (with_actions (<[i := a1]> (actions_ m1)) m1, out)
      end
  end.

Definition EnqueueNext (m : manager) : manager :=
  let m1 := {| q_state := q_state m; actions_ := actions_ m; send_queue_ := tail (send_queue_ m);
               enqueue_transport_ := enqueue_transport_ m; subscribed_ := subscribed_ m;
               next_ := next_ m |} in
  if decide (state_ (q_state m1) = kQueueBusy) then q_set kQueueReady m1 else m1.

Definition Manager_Update (m : manager) : outcome (manager * list sent) :=
  if changed_ (q_state m) then
    let (s, st) := SM.Acquire (q_state m) in
    let m1 := {| q_state := st; actions_ := actions_ m; send_queue_ := send_queue_ m;
                 enqueue_transport_ := enqueue_transport_ m; subscribed_ := subscribed_ m;
                 next_ := next_ m |} in
    match s with kQueueReady => Enqueue m1 | _ => Defined (m1, []) end
  else Defined (m, []).

(** The processor updates the packet [i]; when it ended the manager reacts if it
    subscribed, and the packet is removed from the store.  The result says
    whether the packet failed, which [ServerTransport] is subscribed to. *)
Definition update_packet (i : nat) (m : manager) : manager * bool :=
  match actions_ m !! i with
  | None => (m, false)
  | Some a =>
      let (a1, d) := Update a in
      let m1 := with_actions (<[i := a1]> (actions_ m)) m in
      let sub := bool_decide (i ∈ subscribed_ m) in
      let finish m := with_actions (delete i (actions_ m)) m in
      match d with
      | None => (m1, false)
      | Some Result | Some Stopped =>
          (finish (if sub then EnqueueNext m1 else m1), false)
      | Some Error =>
          let m2 := ResetTransport m1 in
          (finish (if sub then with_actions (<[i := Dequeue a1]> (actions_ m2)) m2 else m2), true)
      end
  end.

(** *** Runs *)
Inductive op :=
  | SAdd (data : bytes)
  | SSetTransport (c : nat)
  | SResetTransport
  | SUpdate
  | SPacket (i : nat)
  | SLow (i : nat) (s : State)
  | SStop (i : nat).

Definition exec (o : op) (m : manager) : outcome (manager * list sent) :=
  match o with
  | SAdd data => Defined (Add data m, [])
  | SSetTransport c => Defined (SetTransport c m, [])
  | SResetTransport => Defined (ResetTransport m, [])
  | SUpdate => Manager_Update m
  | SPacket i => Defined ((update_packet i m).1, [])
  | SLow i s => Defined (with_actions (alter (low_level s) i (actions_ m)) m, [])
  | SStop i => Defined (with_actions (alter (fun a => (Stop a).1) i (actions_ m)) m, [])
  end.

Fixpoint run (os : list op) (m : manager) (log : list sent) : outcome (manager * list sent) :=
  match os with
  | [] => Defined (m, log)
  | o :: os' => let* (m', out) := exec o m in run os' m' (log ++ out)
  end.

End ServerQueue.

(** ** The channels of a server *)
Module ChannelSelector.

(** The position of [channels_iterator_] in [server_->channels]. *)
Record ServerChannelSelector := {
  channels : list nat;
  channels_iterator_ : nat;
}.

Definition NextChannel (s : ServerChannelSelector) : option nat * ServerChannelSelector :=
  match channels s !! channels_iterator_ s with
  | None => (None, {| channels := channels s; channels_iterator_ := 0 |})
  | Some c => (Some c, {| channels := channels s; channels_iterator_ := S (channels_iterator_ s) |})
  end.

End ChannelSelector.

(** ** Properties of the queue *)
Module ServerQueueProperties.
Import ServerQueue.

(** A packet that waits: queued, never sent, and not subscribed to. *)
Definition idle (m : manager) (i : nat) : Prop :=
  (i ∉ subscribed_ m) /\
  exists a, actions_ m !! i = Some a /\ sp_state a = SM.default kQueued /\ send_action_ a = false.

Definition flying (a : ServerSendPacketAction) : Prop :=
  send_action_ a = true /\
  (state_ (sp_state a) = kProgress \/ sp_state a = {| changed_ := true; state_ := kSuccess |}).

Definition in_flight (m : manager) (i : nat) : Prop :=
  i ∈ subscribed_ m /\ exists a, actions_ m !! i = Some a /\ flying a.

Definition shape (m : manager) : Prop :=
  match state_ (q_state m) with
  | kTransportNotSet => Forall (idle m) (send_queue_ m)
  | kQueueReady => changed_ (q_state m) = true /\ enqueue_transport_ m <> None /\
                   Forall (idle m) (send_queue_ m)
  | kQueueEmpty => enqueue_transport_ m <> None /\ send_queue_ m = []
  | kQueueBusy => enqueue_transport_ m <> None /\
                  exists i q, send_queue_ m = i :: q /\ in_flight m i /\ Forall (idle m) q
  end.

Record inv (m : manager) : Prop := {
  inv_nodup : NoDup (send_queue_ m);
  inv_store : forall i a, actions_ m !! i = Some a -> i ∈ send_queue_ m;
  inv_queue : forall i, i ∈ send_queue_ m -> (i < next_ m)%nat;
  inv_subs : forall i, i ∈ subscribed_ m -> (i < next_ m)%nat;
  inv_shape : shape m;
}.

(** The data of the packets that were not given to a channel. *)
Definition data_of (m : manager) (i : nat) : bytes :=
  from_option data_ [] (actions_ m !! i).

Definition waiting (m : manager) : list bytes :=
  map (data_of m) (if decide (state_ (q_state m) = kQueueBusy) then tail (send_queue_ m)
                   else send_queue_ m).

Lemma waiting_ext m m' :
  send_queue_ m' = send_queue_ m -> state_ (q_state m') = state_ (q_state m) ->
  (forall i, i ∈ send_queue_ m -> data_of m' i = data_of m i) -> waiting m' = waiting m.
Proof.
  intros Hq Hs Hd. unfold waiting. rewrite Hq, Hs. apply map_ext_in. intros i Hi.
  apply Hd. apply list_elem_of_In. case_decide; [|done].
  destruct (send_queue_ m); [done|]. simpl in *. auto.
Qed.

(** The idle packets are not affected by what happens to others. *)
Lemma idle_frame m m' l :
  (forall j, j ∈ l -> actions_ m' !! j = actions_ m !! j) ->
  (forall j, j ∈ l -> j ∈ subscribed_ m' -> j ∈ subscribed_ m) ->
  Forall (idle m) l -> Forall (idle m') l.
Proof.
  rewrite !list.Forall_forall. intros Ha Hs H j Hj. destruct (H j Hj) as [Hn He].
  split; [auto|]. by rewrite Ha.
Qed.

(** The manager with a new packet at the end of its queue, in any state. *)
Section Push.
Context (data : bytes) (m m2 : manager).
Hypothesis Hm : inv m.
Hypothesis Ea : actions_ m2 = <[next_ m := new_packet data]> (actions_ m).
Hypothesis Eq : send_queue_ m2 = send_queue_ m ++ [next_ m].
Hypothesis Es : subscribed_ m2 = subscribed_ m.
Hypothesis En : next_ m2 = S (next_ m).

Lemma push_fresh : (next_ m ∉ send_queue_ m) /\ (next_ m ∉ subscribed_ m).
Proof. split; intros H; [apply (inv_queue _ Hm) in H | apply (inv_subs _ Hm) in H]; lia. Qed.

Lemma push_inv : shape m2 -> inv m2.
Proof.
  destruct push_fresh as [Hn _]. destruct Hm as [I1 I2 I3 I4 _]. intros Hsh.
  split; rewrite ?Ea, ?Eq, ?Es, ?En; auto.
  - apply list.NoDup_app. split_and!; auto; [|apply NoDup_singleton].
    by intros x Hx ->%list_elem_of_singleton.
  - intros i a [[<- _] | [_ Ha]]%lookup_insert_Some; apply elem_of_app; [|left; eauto].
    right. by apply list_elem_of_singleton.
  - intros i [Hi | ->%list_elem_of_singleton]%elem_of_app; [apply I3 in Hi|]; lia.
  - intros i Hi. apply I4 in Hi. lia.
Qed.

Lemma push_idle l : l ⊆ send_queue_ m -> Forall (idle m) l -> Forall (idle m2) (l ++ [next_ m]).
Proof.
  destruct push_fresh as [Hn Hs]. intros Hl Hf. apply Forall_app. split.
  - eapply idle_frame; [| |exact Hf]; rewrite ?Ea, ?Es; [|done].
    intros j Hj. apply lookup_insert_ne. intros <-. auto.
  - apply list.Forall_singleton. split; [by rewrite Es|].
    exists (new_packet data). rewrite Ea. split; [apply lookup_insert_eq | done].
Qed.

Lemma push_in_flight i : i ∈ send_queue_ m -> in_flight m i -> in_flight m2 i.
Proof.
  destruct push_fresh as [Hn _]. intros Hi (Hsub & a & Ha & Hst).
  split; [by rewrite Es|]. exists a. rewrite Ea, lookup_insert_ne; [done|]. by intros <-.
Qed.

Lemma push_data l : l ⊆ send_queue_ m -> map (data_of m2) (l ++ [next_ m]) = map (data_of m) l ++ [data].
Proof.
  destruct push_fresh as [Hn _]. intros Hl. rewrite map_app. simpl. unfold data_of. rewrite Ea.
  rewrite lookup_insert_eq. simpl. f_equal. apply map_ext_in. intros j Hj%list_elem_of_In.
  rewrite lookup_insert_ne; [done|]. intros <-. auto.
Qed.
End Push.

(** [Add] of a packet. *)
Lemma add_inv data m :
  inv m -> inv (Add data m) /\ waiting (Add data m) = waiting m ++ [data].
Proof.
  intros Hm. pose proof (inv_shape _ Hm) as I5. unfold shape in I5. unfold Add. simpl.
  destruct (decide (state_ (q_state m) = kQueueEmpty)) as [Ee|Ee].
  - rewrite Ee in I5. destruct I5 as [Ht Hq]. split.
    + eapply push_inv; try done. unfold shape. simpl. rewrite SM.state_set.
      split_and!; [by rewrite SM.changed_set, decide_False by (by rewrite Ee)|done|].
      eapply push_idle; try done. by rewrite Hq.
    + unfold waiting. simpl. rewrite SM.state_set, Ee. simpl. by eapply push_data.
  - destruct (state_ (q_state m)) eqn:Est; try done.
    + split; [eapply push_inv; try done; unfold shape; simpl; rewrite Est; by eapply push_idle|].
      unfold waiting. simpl. rewrite Est. by eapply push_data.
    + destruct I5 as (? & ? & ?). split.
      * eapply push_inv; try done. unfold shape. simpl. rewrite Est. split_and!; [done|done|].
        by eapply push_idle.
      * unfold waiting. simpl. rewrite Est. by eapply push_data.
    + destruct I5 as (Ht & i & q & Eq & Hfl & Hf).
      assert (q ⊆ send_queue_ m) as Hq by (rewrite Eq; set_solver). split.
      * eapply push_inv; try done. unfold shape. simpl. rewrite Est, Eq. split; [done|].
        exists i, (q ++ [next_ m]). split_and!; [done| |by eapply push_idle].
        eapply push_in_flight; try done. rewrite Eq. set_solver.
      * unfold waiting. simpl. rewrite Est, Eq. simpl. by eapply push_data.
Qed.

Lemma set_transport_inv c m :
  inv m -> inv (SetTransport c m) /\ waiting (SetTransport c m) = waiting m.
Proof.
  intros [I1 I2 I3 I4 I5]. unfold SetTransport. simpl. unfold shape in I5.
  destruct (decide (state_ (q_state m) = kTransportNotSet)) as [E|E].
  - rewrite E in I5. split.
    + split; simpl; auto. unfold shape. simpl. rewrite SM.state_set.
      split_and!; [by rewrite SM.changed_set, decide_False by (by rewrite E) | done | done].
    + unfold waiting. simpl. by rewrite SM.state_set, E.
  - split; [|done]. split; simpl; auto. unfold shape. simpl.
    destruct (state_ (q_state m)); try done.
    + by destruct I5 as (? & ? & ?).
    + by destruct I5 as (_ & ?).
    + by destruct I5 as (_ & ?).
Qed.

Lemma update_inv m :
  inv m ->
  exists m' out, Manager_Update m = Defined (m', out) /\ inv m' /\
    waiting m = map snd out ++ waiting m'.
Proof.
  intros [I1 I2 I3 I4 I5]. unfold Manager_Update. destruct (changed_ (q_state m)) eqn:Ec.
  2:{ eexists m, []. split_and!; [done|by split|done]. }
  unfold shape in I5. simpl. destruct (state_ (q_state m)) eqn:Est.
  - eexists _, []. split_and!; [done| |unfold waiting; simpl; by rewrite Est].
    split; simpl; auto.
  - destruct I5 as (_ & Ht & Hf). unfold Enqueue. simpl. unfold waiting. rewrite Est. simpl.
    destruct (send_queue_ m) as [|i q] eqn:Eq.
    + eexists _, []. split_and!; [done| |done].
      split; simpl; rewrite ?Eq; auto; try done.
    + apply list.NoDup_cons in I1 as [Hi Hnd]. inversion Hf as [|? ? [Hs (a & Ea & Hd & Hsa)] Hf']; subst.
      rewrite Ea. unfold Packet_Enqueue, Packet_Send. simpl.
      destruct (enqueue_transport_ m) as [c|] eqn:Et; [|done].
      eexists _, _. split; [done|]. split.
      * split; simpl; auto.
        -- by apply list.NoDup_cons.
        -- intros j b [[<- _] | [_ Hb]]%lookup_insert_Some; [by apply list_elem_of_here|eauto].
        -- intros j [-> | Hj]%elem_of_cons; [apply I3; by apply list_elem_of_here | auto].
        -- unfold shape. simpl. split; [done|].
           exists i, q. split_and!; [done| |].
           ++ split; [by apply list_elem_of_here|]. eexists. simpl. rewrite lookup_insert_eq.
              split; [done|]. split; [done|]. left. simpl. apply SM.state_set.
           ++ eapply idle_frame; [| |exact Hf']; simpl.
              ** intros j Hj. apply lookup_insert_ne. by intros ->.
              ** intros j Hj [-> | ?]%elem_of_cons; done.
      * simpl. f_equal; [unfold data_of; by rewrite Ea|].
        apply map_ext_in. intros j Hj%list_elem_of_In. unfold data_of. simpl.
        rewrite lookup_insert_ne; [done|]. by intros ->.
  - eexists _, []. split_and!; [done| |unfold waiting; simpl; by rewrite Est].
    split; simpl; auto.
  - eexists _, []. split_and!; [done| |unfold waiting; simpl; by rewrite Est].
    split; simpl; auto.
Qed.

Definition resting (a : ServerSendPacketAction) : Prop :=
  sp_state a = SM.default kQueued /\ send_action_ a = false.

(** A packet changes while it is in flight. *)
Lemma touch_inv m i a a' :
  inv m -> actions_ m !! i = Some a -> (resting a -> a' = a) -> (flying a -> flying a') ->
  data_ a' = data_ a ->
  inv (with_actions (<[i := a']> (actions_ m)) m) /\
  waiting (with_actions (<[i := a']> (actions_ m)) m) = waiting m.
Proof.
  intros [I1 I2 I3 I4 I5] Ha Hr Hf Hd. set (m' := with_actions _ m).
  assert (forall j, idle m j -> actions_ m' !! j = actions_ m !! j) as Hid.
  { intros j (_ & b & Hb & Hrb). simpl. destruct (decide (j = i)) as [->|Hj];
      [|by apply lookup_insert_ne]. rewrite Ha in Hb. injection Hb as <-.
    rewrite lookup_insert_eq, (Hr Hrb). done. }
  assert (forall l, Forall (idle m) l -> Forall (idle m') l) as Hidle.
  { intros l Hl. apply (idle_frame m m'); [|done|exact Hl]. intros j Hj. apply Hid.
    by eapply list.Forall_forall in Hl. }
  split; [split; simpl; auto|].
  - intros j b [[<- _] | [_ Hb]]%lookup_insert_Some; eauto.
  - unfold shape in *. simpl. destruct (state_ (q_state m)); auto.
    + destruct I5 as (? & ? & ?). auto.
    + destruct I5 as (Ht & j & q & Eq & (Hs & b & Hb & Hfl) & Hq). split; [done|].
      exists j, q. split_and!; auto. split; [done|]. simpl.
      destruct (decide (j = i)) as [->|Hj].
      * rewrite lookup_insert_eq. rewrite Ha in Hb. injection Hb as <-. exists a'. split; [done|]. by apply Hf.
      * rewrite lookup_insert_ne by done. eauto.
  - apply waiting_ext; try done. intros j _. unfold data_of. simpl.
    destruct (decide (j = i)) as [->|Hj]; [|by rewrite lookup_insert_ne].
    by rewrite lookup_insert_eq, Ha.
Qed.

(** The action below succeeds. *)
Lemma low_inv i m :
  inv m ->
  let m' := with_actions (alter (low_level kSuccess) i (actions_ m)) m in
  inv m' /\ waiting m' = waiting m.
Proof.
  intros Hm. simpl. destruct (actions_ m !! i) as [a|] eqn:Ea.
  - assert (alter (low_level kSuccess) i (actions_ m) = <[i := low_level kSuccess a]> (actions_ m)) as ->.
    { apply map_eq. intros j. destruct (decide (j = i)) as [->|Hj].
      - by rewrite lookup_alter_eq, lookup_insert_eq, Ea.
      - by rewrite lookup_alter_ne, lookup_insert_ne by done. }
    apply (touch_inv m i a); auto.
    + intros [_ Hs]. unfold low_level. by rewrite Hs.
    + unfold low_level. destruct (send_action_ a) eqn:Es; [|done].
      intros [_ [Hp | Hp]]; (split; [done|]); right; simpl.
      * unfold SM.set, SM.Set_. by rewrite decide_False by (by rewrite Hp).
      * by rewrite Hp.
    + unfold low_level. by destruct (send_action_ a).
  - assert (alter (low_level kSuccess) i (actions_ m) = actions_ m) as ->.
    { apply map_eq. intros j. destruct (decide (j = i)) as [->|Hj].
      - by rewrite lookup_alter_eq, Ea.
      - by rewrite lookup_alter_ne. }
    by destruct m.
Qed.

(** The front packet ended with success and the next one may be sent. *)
Lemma pop_inv m i q a :
  inv m -> send_queue_ m = i :: q -> state_ (q_state m) = kQueueBusy ->
  actions_ m !! i = Some a ->
  let m' := EnqueueNext m in
  inv (with_actions (delete i (actions_ m')) m') /\
  waiting (with_actions (delete i (actions_ m')) m') = waiting m.
Proof.
  intros [I1 I2 I3 I4 I5] Eq Est Ha. unfold EnqueueNext. simpl. rewrite decide_True by done. simpl.
  rewrite Eq in I1, I2, I3. apply list.NoDup_cons in I1 as [Hi Hnd]. unfold shape in I5. rewrite Est in I5.
  destruct I5 as (Ht & j & q' & E & _ & Hf). rewrite Eq in E. injection E as <- <-.
  split; [split; simpl; rewrite ?Eq; simpl; auto|].
  - intros j b [Hj Hb]%lookup_delete_Some. apply I2 in Hb. by apply elem_of_cons in Hb as [->|?].
  - intros j Hj. apply I3. by apply list_elem_of_further.
  - unfold shape. simpl. rewrite SM.state_set, ?Eq. simpl.
    split_and!; [by rewrite SM.changed_set, decide_False by (by rewrite Est)|done|].
    eapply idle_frame; [| |exact Hf]; simpl; [|done].
    intros j Hj. apply lookup_delete_ne. by intros ->.
  - unfold waiting. simpl. rewrite SM.state_set, Est, Eq. simpl. apply map_ext_in.
    intros j Hj%list_elem_of_In. unfold data_of. simpl. rewrite lookup_delete_ne; [done|]. by intros ->.
Qed.

(** A packet of the store waits, or is the front and in flight. *)
Lemma packet_cases m i a :
  inv m -> actions_ m !! i = Some a ->
  resting a \/ (flying a /\ i ∈ subscribed_ m /\ state_ (q_state m) = kQueueBusy /\
                exists q, send_queue_ m = i :: q).
Proof.
  intros [I1 I2 I3 I4 I5] Ha.
  assert (forall l, Forall (idle m) l -> i ∈ l -> resting a) as Hr.
  { intros l Hl Hi. eapply list.Forall_forall in Hl as (_ & b & Hb & Hrb); [|exact Hi].
    rewrite Ha in Hb. by injection Hb as <-. }
  pose proof (I2 i a Ha) as Hi. unfold shape in I5. destruct (state_ (q_state m)) eqn:Est.
  - left. eauto.
  - destruct I5 as (_ & _ & Hf). left. eauto.
  - destruct I5 as (_ & j & q & Eq & (Hs & b & Hb & Hfl) & Hf). rewrite Eq in Hi.
    apply elem_of_cons in Hi as [-> | Hi]; [|left; eauto]. right.
    rewrite Ha in Hb. injection Hb as <-. eauto.
  - destruct I5 as [_ E]. rewrite E in Hi. by apply elem_of_nil in Hi.
Qed.

Lemma packet_inv i m :
  inv m -> inv (update_packet i m).1 /\ waiting (update_packet i m).1 = waiting m /\
           (update_packet i m).2 = false.
Proof.
  intros Hm. unfold update_packet. destruct (actions_ m !! i) as [a|] eqn:Ha; [|done].
  unfold Update. destruct (packet_cases m i a Hm Ha) as [[Hr _] | (Hfl & Hsub & Hb & q & Eq)].
  { rewrite Hr. simpl. rewrite insert_id by done. by destruct m. }
  destruct Hfl as [Hsa [Hp | Hp]].
  - destruct (changed_ (sp_state a)) eqn:Ec; simpl.
    + rewrite Hp. simpl. edestruct (touch_inv m i a) as [H1 H2];
        [done|done| | |..]; [| | |split_and!; [exact H1|exact H2|done]].
      * intros [Hr _]. by rewrite Hr in Hp.
      * intros _. split; [done|]. by left.
      * done.
    + rewrite insert_id by done. by destruct m.
  - rewrite Hp. simpl. rewrite bool_decide_eq_true_2 by done.
    set (a1 := {| sp_state := _ |}).
    pose proof (pop_inv m i q a Hm Eq Hb Ha) as [H1 H2].
    set (m1 := EnqueueNext (with_actions (<[i:=a1]> (actions_ m)) m)).
    assert (with_actions (delete i (actions_ m1)) m1
            = with_actions (delete i (actions_ (EnqueueNext m))) (EnqueueNext m)) as ->.
    { unfold m1, EnqueueNext. simpl. rewrite Hb. simpl.
      unfold with_actions. simpl. by rewrite delete_insert_eq. }
    split_and!; [exact H1|exact H2|done].
Qed.

(** No failures, stops and resets of the transport. *)
Definition smooth (o : op) : Prop :=
  match o with
  | SAdd _ | SSetTransport _ | SUpdate | SPacket _ => True
  | SLow _ s => s = kSuccess
  | SResetTransport | SStop _ => False
  end.

Definition added (os : list op) : list bytes :=
  concat (map (fun o => if o is SAdd data then [data] else []) os).

Lemma exec_inv o m :
  inv m -> smooth o ->
  exists m' out, exec o m = Defined (m', out) /\ inv m' /\
    waiting m ++ added [o] = map snd out ++ waiting m'.
Proof.
  intros Hm Ho. unfold added. destruct o as [data | c | | | i | i s | i]; simpl in *; try done.
  - destruct (add_inv data m Hm) as [H1 H2]. eexists _, []. by rewrite H2.
  - destruct (set_transport_inv c m Hm) as [H1 H2]. eexists _, []. by rewrite H2, app_nil_r.
  - destruct (update_inv m Hm) as (m' & out & E & H1 & H2). exists m', out.
    by rewrite app_nil_r.
  - destruct (packet_inv i m Hm) as (H1 & H2 & _). eexists _, []. by rewrite H2, app_nil_r.
  - subst s. destruct (low_inv i m Hm) as [H1 H2]. eexists _, []. by rewrite H2, app_nil_r.
Qed.

Lemma run_inv os : forall m log,
  inv m -> Forall smooth os ->
  exists m' out, run os m log = Defined (m', log ++ out) /\ inv m' /\
    waiting m ++ added os = map snd out ++ waiting m'.
Proof.
  induction os as [|o os IH]; intros m log Hm Ho.
  { exists m, []. unfold added. simpl. by rewrite !app_nil_r. }
  inversion Ho as [|? ? Ho1 Ho2]; subst. simpl.
  destruct (exec_inv o m Hm Ho1) as (m1 & o1 & -> & Hm1 & E1). simpl.
  destruct (IH m1 (log ++ o1) Hm1 Ho2) as (m2 & o2 & -> & Hm2 & E2).
  exists m2, (o1 ++ o2). rewrite app_assoc, map_app. split_and!; auto.
  unfold added in *. simpl in *. rewrite app_nil_r in E1. rewrite app_assoc, E1, <- !app_assoc.
  by rewrite E2.
Qed.

Lemma new_manager_inv : inv new_manager.
Proof.
  split; simpl; [constructor| | | |constructor].
  - intros i a. by rewrite lookup_empty.
  - by intros i ?%elem_of_nil.
  - by intros i ?%elem_of_nil.
Qed.

(** C27: Packets of a server are given to its channel in the order they were
    sent, each once, and one at a time: while none fails or is stopped, no order
    of new packets, connections, updates and completions makes the queue skip,
    repeat or reorder a packet, or have two of them in progress. *)
Theorem server_queue_in_order os :
  Forall smooth os ->
  exists m log, run os new_manager [] = Defined (m, log) /\
    added os = map snd log ++ waiting m /\
    (forall i j a b, actions_ m !! i = Some a -> actions_ m !! j = Some b ->
       state_ (sp_state a) <> kQueued -> state_ (sp_state b) <> kQueued -> i = j).
Proof.
  intros Ho. destruct (run_inv os new_manager [] new_manager_inv Ho) as (m & log & E & Hm & P).
  exists m, log. split_and!; [done|done|]. intros i j a b Ha Hb Hsa Hsb.
  destruct (packet_cases m i a Hm Ha) as [[Hr _] | (_ & _ & _ & q & Eq)]; [by rewrite Hr in Hsa|].
  destruct (packet_cases m j b Hm Hb) as [[Hr _] | (_ & _ & _ & q' & Eq')]; [by rewrite Hr in Hsb|].
  congruence.
Qed.

Lemma server_queue_in_order_witness :
  exists m log,
    run [SAdd [1]; SUpdate; SAdd [2]; SSetTransport 5; SUpdate; SAdd [3]; SLow 0 kSuccess;
         SPacket 0; SUpdate] new_manager [] = Defined (m, log) /\
    [[1]; [2]; [3]] = map snd log ++ waiting m /\
    (forall i j a b, actions_ m !! i = Some a -> actions_ m !! j = Some b ->
       state_ (sp_state a) <> kQueued -> state_ (sp_state b) <> kQueued -> i = j).
Proof.
  apply (server_queue_in_order
    [SAdd [1]; SUpdate; SAdd [2]; SSetTransport 5; SUpdate; SAdd [3]; SLow 0 kSuccess;
     SPacket 0; SUpdate]).
  repeat constructor.
Defined.

(** *** Progress *)

(** The manager is updated, the channel sends the packet at the front, and the
    packet is updated. *)
Definition round (i : nat) : list op := [SUpdate; SLow i kSuccess; SPacket i].

Fixpoint rounds (l : list nat) : list op :=
  match l with [] => [] | i :: l' => round i ++ rounds l' end.

Lemma round_step m i q log :
  inv m -> state_ (q_state m) = kQueueReady -> send_queue_ m = i :: q ->
  exists m' out, run (round i) m log = Defined (m', log ++ out) /\ inv m' /\
    waiting m = map snd out ++ waiting m' /\
    state_ (q_state m') = kQueueReady /\ send_queue_ m' = q.
Proof.
  intros Hm Est Eq. pose proof (inv_shape _ Hm) as Hsh. unfold shape in Hsh. rewrite Est in Hsh.
  destruct Hsh as (Hc & Ht & Hf). rewrite Eq in Hf.
  inversion Hf as [|? ? (Hns & a & Ha & Hst & Hsa) _]; subst.
  destruct (run_inv (round i) m log Hm) as (m' & out & E & Hm' & P); [by repeat constructor|].
  exists m', out. unfold added in P. simpl in P. rewrite app_nil_r in P. split_and!; auto.
  all: revert E; clear P; simpl; unfold Manager_Update; rewrite Hc; simpl; rewrite Est;
    unfold Enqueue; simpl; rewrite Eq, Ha; unfold Packet_Enqueue, Packet_Send; simpl;
    destruct (enqueue_transport_ m) as [c|]; [|done]; simpl;
    unfold update_packet; simpl; rewrite alter_insert_eq, lookup_insert_eq;
    unfold low_level, sp_set, Update; simpl; rewrite Hst; simpl;
    rewrite bool_decide_eq_true_2 by apply list_elem_of_here; simpl; by intros [= <- _].
Qed.

Lemma rounds_step l : forall m log,
  inv m -> state_ (q_state m) = kQueueReady -> send_queue_ m = l ->
  exists m' out, run (rounds l) m log = Defined (m', log ++ out) /\
    waiting m = map snd out /\ send_queue_ m' = [].
Proof.
  induction l as [|i q IH]; intros m log Hm Est Eq.
  { exists m, []. simpl. rewrite app_nil_r. unfold waiting. by rewrite Est, Eq. }
  destruct (round_step m i q log Hm Est Eq) as (m1 & o1 & E1 & Hm1 & P1 & Est1 & Eq1).
  destruct (IH m1 (log ++ o1) Hm1 Est1 Eq1) as (m2 & o2 & E2 & P2 & Eq2).
  exists m2, (o1 ++ o2). rewrite app_assoc, map_app, P1, P2. split_and!; auto.
  assert (forall os1 os2 m log, run (os1 ++ os2) m log =
    let* (m', log') := run os1 m log in run os2 m' log') as Happ.
  { clear. induction os1 as [|o os1 IH]; intros; simpl; [done|].
    destruct (exec o m) as [[m' out]|]; [apply IH | done]. }
  cbn [rounds]. rewrite Happ, E1. exact E2.
Qed.

(** A channel that sends what it is given drains the queue: from any state in
    which the queue is ready, one round per packet of the queue gives every
    waiting packet to the channel, in order, and leaves the queue empty. *)
Theorem server_queue_drains os m log :
  Forall smooth os -> run os new_manager [] = Defined (m, log) ->
  state_ (q_state m) = kQueueReady ->
  exists m' log', run (rounds (send_queue_ m)) m log = Defined (m', log') /\
    map snd log' = added os /\ send_queue_ m' = [].
Proof.
  intros Ho E Est. destruct (run_inv os new_manager [] new_manager_inv Ho) as (m0 & out & E0 & Hm & P).
  rewrite E in E0. injection E0 as <- ->. simpl in *.
  destruct (rounds_step (send_queue_ m) m out Hm Est eq_refl) as (m' & o & Er & Pw & Eq).
  exists m', (out ++ o). split_and!; [done| |done]. rewrite Pw in P. rewrite map_app. symmetry. exact P.
Qed.

Definition ready_manager : manager :=
  match run [SAdd [1]; SAdd [2]; SSetTransport 5] new_manager [] with
  | Defined (m, _) => m
  | Undefined => new_manager
  end.

Lemma server_queue_drains_witness :
  exists m' log', run (rounds (send_queue_ ready_manager)) ready_manager [] = Defined (m', log') /\
    map snd log' = [[1]; [2]] /\ send_queue_ m' = [].
Proof.
  apply (server_queue_drains [SAdd [1]; SAdd [2]; SSetTransport 5] ready_manager []).
  - repeat constructor.
  - reflexivity.
  - reflexivity.
Defined.

(** *** Failures *)

(** The queue is busy, and the packet it waits for is gone. *)
Definition stuck (m : manager) : Prop :=
  state_ (q_state m) = kQueueBusy /\
  (forall i, i ∈ subscribed_ m -> actions_ m !! i = None /\ (i < next_ m)%nat).

Lemma exec_stuck o m :
  stuck m -> exists m', exec o m = Defined (m', []) /\ stuck m'.
Proof.
  intros [Hb Hs]. destruct o as [data | c | | | i | i s | i]; simpl.
  - unfold Add. simpl. rewrite Hb. simpl. eexists; split; [done|]. split; [done|]. simpl.
    intros j Hj. destruct (Hs j Hj). rewrite lookup_insert_ne by lia. auto.
  - unfold SetTransport. simpl. rewrite Hb. simpl. by eexists.
  - unfold ResetTransport. simpl. rewrite Hb. simpl. by eexists.
  - unfold Manager_Update. destruct (changed_ (q_state m)); simpl; [rewrite Hb|];
      (eexists; split; [done|]; by split).
  - eexists; split; [done|]. unfold update_packet.
    destruct (actions_ m !! i) as [a|] eqn:Ea; [|by split].
    destruct (Update a) as [a1 d]. rewrite bool_decide_eq_false_2.
    2:{ intros Hi. apply Hs in Hi. rewrite Ea in Hi. by destruct Hi. }
    assert (forall j, j ∈ subscribed_ m -> j <> i) as Hne.
    { intros j Hj ->. apply Hs in Hj. rewrite Ea in Hj. by destruct Hj. }
    destruct d as [[]|]; simpl; unfold ResetTransport; simpl; rewrite ?Hb; simpl; (split; [done|]);
      intros j Hj; simpl in *; destruct (Hs j Hj); pose proof (Hne j Hj);
      by rewrite ?lookup_delete_ne, ?lookup_insert_ne by done.
  - eexists; split; [done|]. split; [done|]. intros j Hj. destruct (Hs j Hj) as [Hn Hl].
    simpl. split; [|done]. destruct (decide (j = i)) as [-> | Hji];
      [by rewrite lookup_alter_eq, Hn | by rewrite lookup_alter_ne].
  - eexists; split; [done|]. split; [done|]. intros j Hj. destruct (Hs j Hj) as [Hn Hl].
    simpl. split; [|done]. destruct (decide (j = i)) as [-> | Hji];
      [by rewrite lookup_alter_eq, Hn | by rewrite lookup_alter_ne].
Qed.

Lemma run_stuck os : forall m log,
  stuck m -> exists m', run os m log = Defined (m', log) /\ stuck m'.
Proof.
  induction os as [|o os IH]; intros m log Hs; simpl; [eauto|].
  destruct (exec_stuck o m Hs) as (m1 & -> & Hs1). simpl. rewrite app_nil_r. by apply IH.
Qed.

(** A packet that fails blocks the queue of its server for ever.  The manager
    only takes the packet out of progress when it fails; the packet ends and is
    removed, the queue stays busy, and whatever happens afterwards, a new
    transport included, no packet is sent again. *)
Theorem server_failure_blocks os m log i q s later :
  Forall smooth os -> run os new_manager [] = Defined (m, log) ->
  state_ (q_state m) = kQueueBusy -> send_queue_ m = i :: q ->
  s = kFailed \/ s = kTimeout \/ s = kPanic ->
  exists m', run (SLow i s :: SPacket i :: later) m log = Defined (m', log).
Proof.
  intros Ho E Hb Eq Hs. destruct (run_inv os new_manager [] new_manager_inv Ho) as (m0 & out & E0 & Hm & _).
  rewrite E in E0. injection E0 as <- ->. simpl in *.
  pose proof (inv_shape _ Hm) as Hsh. unfold shape in Hsh. rewrite Hb in Hsh.
  destruct Hsh as (_ & j & q' & Eq' & (Hsub & a & Ha & Hsa & Hfl) & Hf).
  rewrite Eq in Eq'. injection Eq' as <- <-. rewrite app_nil_r.
  match goal with |- context [run later ?x _] => set (m1 := x) end.
  destruct (run_stuck later m1 (out ++ [])) as (m' & E' & _); [|rewrite !app_nil_r in *; eauto].
  unfold m1, update_packet. simpl. rewrite lookup_alter_eq, Ha. simpl.
  assert (Update (low_level s a) = ((Update (low_level s a)).1, Some Error)) as ->.
  { unfold Update, low_level. rewrite Hsa. simpl. unfold SM.set, SM.Set_.
    destruct Hs as [-> | [-> | ->]]; destruct Hfl as [-> | ->] || destruct Hfl as [Hp | Hp];
      rewrite ?Hp; done. }
  rewrite bool_decide_eq_true_2 by done. unfold ResetTransport. simpl. rewrite Hb. simpl.
  split; [done|]. simpl. intros j Hj. split; [|by apply (inv_subs _ Hm)].
  destruct (decide (j = i)) as [-> | Hji]; [apply lookup_delete_eq|].
  rewrite lookup_delete_ne, !lookup_insert_ne, lookup_alter_ne by done.
  destruct (actions_ m !! j) as [b|] eqn:Eb; [|done]. exfalso.
  pose proof (inv_store _ Hm j b Eb) as Hjq. rewrite Eq in Hjq.
  apply elem_of_cons in Hjq as [->|Hjq]; [done|].
  eapply list.Forall_forall in Hf as [Hn _]; [|exact Hjq]. done.
Qed.

Definition busy_manager : manager :=
  match run [SAdd [1]; SAdd [2]; SSetTransport 5; SUpdate] new_manager [] with
  | Defined (m, _) => m
  | Undefined => new_manager
  end.

Lemma server_failure_blocks_witness :
  exists m', run [SLow 0 kFailed; SPacket 0; SUpdate; SSetTransport 6; SUpdate; SAdd [3]; SUpdate]
                 busy_manager [(5%nat, [1])] = Defined (m', [(5%nat, [1])]).
Proof.
  apply (server_failure_blocks [SAdd [1]; SAdd [2]; SSetTransport 5; SUpdate] busy_manager
    [(5%nat, [1])] 0 [1%nat] kFailed [SUpdate; SSetTransport 6; SUpdate; SAdd [3]; SUpdate]).
  - repeat constructor.
  - reflexivity.
  - reflexivity.
  - reflexivity.
  - by left.
Defined.

(** A packet that is stopped while it waits is removed from the store but not
    from the queue: when it reaches the front the manager uses a dead view. *)
Lemma stopped_packet_dangles :
  run [SSetTransport 5; SAdd [1]; SAdd [2]; SUpdate; SStop 1; SPacket 1; SLow 0 kSuccess; SPacket 0;
       SUpdate] new_manager [] = Undefined.
Proof. vm_compute. reflexivity. Qed.

(** [ResetTransport] never changes the state of the queue. *)
Lemma reset_transport_keeps_state m : q_state (ResetTransport m) = q_state m.
Proof.
  unfold ResetTransport. simpl. case_decide as E; [|done]. simpl.
  unfold SM.set, SM.Set_. by rewrite decide_True.
Qed.
End ServerQueueProperties.

(** ** The packets of a channel *)
Module ChannelPacket.

(** [ChannelPacketSendAction] with the state of the action below. *)
Record ChannelPacketSendAction := {
  cp_state : StateMachine State;
  low_level_state : StateMachine State;
  send_timeout_ : Z;
}.

(** [ServerChannelTransport::Send] at [now]: the timeout is a second later, in
    nanoseconds. *)
Definition new_packet (now : Z) : ChannelPacketSendAction :=
  {| cp_state := SM.default kQueued; low_level_state := SM.default kQueued;
     send_timeout_ := now + 1000000000 |}.

Definition cp_set (s : State) (a : ChannelPacketSendAction) : ChannelPacketSendAction :=
  {| cp_state := SM.set s (cp_state a); low_level_state := low_level_state a;
     send_timeout_ := send_timeout_ a |}.

(** The state of the action below changes; its event sets the state. *)
Definition low_set (s : State) (a : ChannelPacketSendAction) : ChannelPacketSendAction :=
  let (m, es) := SM.Set_ s (low_level_state a) in
  fold_left (fun a s => cp_set s a) es
    {| cp_state := cp_state a; low_level_state := m; send_timeout_ := send_timeout_ a |}.

Definition Stop (a : ChannelPacketSendAction) : ChannelPacketSendAction := low_set kStopped a.

(** [CheckTimeout], with the time the action asks to be updated at. *)
Definition CheckTimeout (now : Z) (a : ChannelPacketSendAction) : ChannelPacketSendAction * Z :=
  if send_timeout_ a <? now then (a, send_timeout_ a)
  else (cp_set kTimeout (Stop a), now).

Definition Update (now : Z) (a : ChannelPacketSendAction) : ChannelPacketSendAction * Z :=
  if decide (state_ (cp_state a) = kProgress) then CheckTimeout now a else (a, now).

(** [Update] of the action below and, when it ends, the handlers of its end: its
    state is taken over and the action ends the same way. *)
Definition low_update (a : ChannelPacketSendAction) : ChannelPacketSendAction * option done :=
  let '(m, d) := PacketSend.Update (low_level_state a) in
  let a := {| cp_state := cp_state a; low_level_state := m; send_timeout_ := send_timeout_ a |} in
  match d with
  | Some d => (cp_set (state_ m) a, Some d)
  | None => (a, None)
  end.

End ChannelPacket.

(** ** Connecting to an address *)
Module IpConnection.
Import Tcp.

Inductive State := None_ | Start | Connected | Failed.

#[export] Instance State_eq_dec : EqDecision State.
Proof. solve_decision. Defined.

Record IpAddressChannelConnectionAction := {
  ip_state : StateMachine State;
  creating : bool;           (* subscribed to the creation of the transport *)
  listening : bool;          (* subscribed to the events of the transport *)
  transport_ : option nat;
}.

Definition new_action : IpAddressChannelConnectionAction :=
  {| ip_state := SM.make Start; creating := false; listening := false; transport_ := None |}.

Definition ip_set (s : State) (a : IpAddressChannelConnectionAction)
    : IpAddressChannelConnectionAction :=
  {| ip_state := SM.set s (ip_state a); creating := creating a; listening := listening a;
     transport_ := transport_ a |}.

Definition TryConnect (a : IpAddressChannelConnectionAction) : IpAddressChannelConnectionAction :=
  {| ip_state := ip_state a; creating := true; listening := listening a;
     transport_ := transport_ a |}.

(** [Update]: how the action ended. *)
Definition Update (a : IpAddressChannelConnectionAction)
    : IpAddressChannelConnectionAction * option done :=
  if changed_ (ip_state a) then
    let (s, m) := SM.Acquire (ip_state a) in
    let a1 := {| ip_state := m; creating := creating a; listening := listening a;
                 transport_ := transport_ a |} in
    match s with
    | Start => (TryConnect a1, None)
    | Connected => (a1, Some Result)
    | Failed => (a1, Some Error)
    | None_ => (a1, None)
    end
  else (a, None).

(** [TransportCreated] with a transport in the state [cs]; the result says
    whether its [Connect] is called. *)
Definition TransportCreated (t : nat) (cs : ConnectionState)
    (a : IpAddressChannelConnectionAction) : IpAddressChannelConnectionAction * bool :=
  let a1 := {| ip_state := ip_state a; creating := creating a; listening := listening a;
               transport_ := Some t |} in
  let listen a := {| ip_state := ip_state a; creating := creating a; listening := true;
                     transport_ := transport_ a |} in
  match cs with
  | kConnected => (ip_set Connected a1, false)
  | kDisconnected | kUndefined => (listen a1, true)
  | kConnecting => (listen a1, false)
  end.

(** The creation of the transport failed. *)
Definition creation_failed (a : IpAddressChannelConnectionAction)
    : IpAddressChannelConnectionAction := ip_set Failed a.

(** The transport connected or could not. *)
Definition transport_connected (ok : bool) (a : IpAddressChannelConnectionAction)
    : IpAddressChannelConnectionAction :=
  if listening a then ip_set (if ok then Connected else Failed) a else a.

End IpConnection.

(** ** Connecting to the addresses of a name *)
Module NameConnection.

Inductive State := None_ | Start | TryConnection_ | Connected | NotConnected.

#[export] Instance State_eq_dec : EqDecision State.
Proof. solve_decision. Defined.

Record NameAddressChannelConnectionAction := {
  nm_state : StateMachine State;
  ip_address_port_protocols_ : list nat;
  ip_address_port_protocol_it_ : nat;
  resolving : bool;
  current : option nat;      (* the address of [ip_address_channel_connection_] *)
}.

Definition new_action : NameAddressChannelConnectionAction :=
  {| nm_state := SM.make Start; ip_address_port_protocols_ := [];
     ip_address_port_protocol_it_ := 0; resolving := false; current := None |}.

Definition nm_set (s : State) (a : NameAddressChannelConnectionAction)
    : NameAddressChannelConnectionAction :=
  {| nm_state := SM.set s (nm_state a);
     ip_address_port_protocols_ := ip_address_port_protocols_ a;
     ip_address_port_protocol_it_ := ip_address_port_protocol_it_ a;
     resolving := resolving a; current := current a |}.

Definition NameResolve (a : NameAddressChannelConnectionAction)
    : NameAddressChannelConnectionAction :=
  {| nm_state := nm_state a; ip_address_port_protocols_ := ip_address_port_protocols_ a;
     ip_address_port_protocol_it_ := ip_address_port_protocol_it_ a;
     resolving := true; current := current a |}.

(** The answer of the resolver. *)
Definition resolved (addresses : option (list nat)) (a : NameAddressChannelConnectionAction)
    : NameAddressChannelConnectionAction :=
  if resolving a then
    match addresses with
    | Some l => nm_set TryConnection_
        {| nm_state := nm_state a; ip_address_port_protocols_ := l;
           ip_address_port_protocol_it_ := 0; resolving := false; current := current a |}
    | None => nm_set NotConnected
        {| nm_state := nm_state a; ip_address_port_protocols_ := ip_address_port_protocols_ a;
           ip_address_port_protocol_it_ := ip_address_port_protocol_it_ a;
           resolving := false; current := current a |}
    end
  else a.

Definition TryConnection (a : NameAddressChannelConnectionAction)
    : NameAddressChannelConnectionAction :=
  match ip_address_port_protocols_ a !! ip_address_port_protocol_it_ a with
  | None => nm_set NotConnected a
  | Some addr =>
      {| nm_state := nm_state a; ip_address_port_protocols_ := ip_address_port_protocols_ a;
         ip_address_port_protocol_it_ := ip_address_port_protocol_it_ a;
         resolving := resolving a; current := Some addr |}
  end.

Definition Update (a : NameAddressChannelConnectionAction)
    : NameAddressChannelConnectionAction * option done :=
  if changed_ (nm_state a) then
    let (s, m) := SM.Acquire (nm_state a) in
    let a1 := {| nm_state := m; ip_address_port_protocols_ := ip_address_port_protocols_ a;
                 ip_address_port_protocol_it_ := ip_address_port_protocol_it_ a;
                 resolving := resolving a; current := current a |} in
    match s with
    | Start => (NameResolve a1, None)
    | TryConnection_ => (TryConnection a1, None)
    | Connected => (a1, Some Result)
    | NotConnected => (a1, Some Error)
    | None_ => (a1, None)
    end
  else (a, None).

(** The connection to the address ended; it ends once. *)
Definition address_connected (ok : bool) (a : NameAddressChannelConnectionAction)
    : NameAddressChannelConnectionAction :=
  match current a with
  | None => a
  | Some _ =>
      let a1 := {| nm_state := nm_state a;
                   ip_address_port_protocols_ := ip_address_port_protocols_ a;
                   ip_address_port_protocol_it_ :=
                     if ok then ip_address_port_protocol_it_ a
                     else S (ip_address_port_protocol_it_ a);
                   resolving := resolving a; current := None |} in
      nm_set (if ok then Connected else TryConnection_) a1
  end.

End NameConnection.

(** ** Connecting to a server *)
Module Server.
Import Tcp Notify ServerQueue ChannelSelector.

(** [ServerChannelTransport]: its connection action and low level transport. *)
Record ServerChannelTransport := {
  channel_ : nat;
  ch_state : ConnectionState;
  connection_action_ : bool;
  low_level_transport_ : bool;
}.

Definition new_channel (c : nat) : ServerChannelTransport :=
  {| channel_ := c; ch_state := kUndefined; connection_action_ := false;
     low_level_transport_ := false |}.

Definition Channel_Connect (c : ServerChannelTransport) : ServerChannelTransport :=
  {| channel_ := channel_ c; ch_state := kConnecting; connection_action_ := true;
     low_level_transport_ := low_level_transport_ c |}.

Definition OnConnection (c : ServerChannelTransport) : ServerChannelTransport :=
  {| channel_ := channel_ c; ch_state := kConnected; connection_action_ := false;
     low_level_transport_ := true |}.

Definition OnConnectionError (c : ServerChannelTransport) : ServerChannelTransport :=
  {| channel_ := channel_ c; ch_state := ch_state c; connection_action_ := false;
     low_level_transport_ := false |}.

Record ServerTransport := {
  connection_state : ConnectionState;
  channel_selector_ : ServerChannelSelector;
  channel_transport_ : option ServerChannelTransport;
  send_queue_manager_action_ : ServerSendQueueManagerAction;
  notify_server_reconnect_action_ : NotifyAction;
  notify_reconnect_subscription_ : bool;
}.

Definition quiet : NotifyAction := {| notify_success_ := false; notify_failed_ := false |}.

Definition new_server (channels : list nat) : ServerTransport :=
  {| connection_state := kUndefined;
     channel_selector_ := {| channels := channels; channels_iterator_ := 0 |};
     channel_transport_ := None; send_queue_manager_action_ := new_manager;
     notify_server_reconnect_action_ := quiet; notify_reconnect_subscription_ := false |}.

Definition Connect (s : ServerTransport) : ServerTransport * list event :=
  let (c, sel) := NextChannel (channel_selector_ s) in
  match c with
  | None =>
      ({| connection_state := connection_state s; channel_selector_ := sel;
          channel_transport_ := None;
          send_queue_manager_action_ := send_queue_manager_action_ s;
          notify_server_reconnect_action_ := notify_server_reconnect_action_ s;
          notify_reconnect_subscription_ := false |}, [ConnectionError])
  | Some c =>
      let t := Channel_Connect (new_channel c) in
      ({| connection_state := ch_state t; channel_selector_ := sel;
          channel_transport_ := Some t;
          send_queue_manager_action_ := send_queue_manager_action_ s;
          notify_server_reconnect_action_ := notify_server_reconnect_action_ s;
          notify_reconnect_subscription_ := false |}, [])
  end.

Definition Reconnect (s : ServerTransport) : ServerTransport :=
  {| connection_state := connection_state s; channel_selector_ := channel_selector_ s;
     channel_transport_ := channel_transport_ s;
     send_queue_manager_action_ := send_queue_manager_action_ s;
     notify_server_reconnect_action_ := Notify quiet;
     notify_reconnect_subscription_ := true |}.

(** The processor updates the action of [Reconnect]; the subscription is used
    once. *)
Definition reconnect_update (s : ServerTransport) : ServerTransport * list event :=
  let (n, ns) := notify_update (notify_server_reconnect_action_ s) in
  let fire := notify_reconnect_subscription_ s &&
              existsb (fun x => if x is ResultRepeat then true else false) ns in
  let s1 := {| connection_state := connection_state s; channel_selector_ := channel_selector_ s;
               channel_transport_ := channel_transport_ s;
               send_queue_manager_action_ := send_queue_manager_action_ s;
               notify_server_reconnect_action_ := n;
               notify_reconnect_subscription_ :=
                 if fire then false else notify_reconnect_subscription_ s |} in
  if fire then Connect s1 else (s1, []).

(** The connection action of the channel ended. *)
Definition channel_result (ok : bool) (s : ServerTransport) : ServerTransport * list event :=
  match channel_transport_ s with
  | None => (s, [])
  | Some c =>
      if negb (connection_action_ c) then (s, []) else
      if ok then
        let c1 := OnConnection c in
        ({| connection_state := ch_state c1; channel_selector_ := channel_selector_ s;
            channel_transport_ := Some c1;
            send_queue_manager_action_ := SetTransport (channel_ c1) (send_queue_manager_action_ s);
            notify_server_reconnect_action_ := notify_server_reconnect_action_ s;
            notify_reconnect_subscription_ := notify_reconnect_subscription_ s |},
         [ConnectionSuccess])
      else
        (Reconnect
          {| connection_state := connection_state s; channel_selector_ := channel_selector_ s;
             channel_transport_ := Some (OnConnectionError c);
             send_queue_manager_action_ := send_queue_manager_action_ s;
             notify_server_reconnect_action_ := notify_server_reconnect_action_ s;
             notify_reconnect_subscription_ := notify_reconnect_subscription_ s |}, [])
  end.

End Server.

(** ** Properties of connecting *)
Module ServerProperties.
Import Tcp Notify ServerQueue ChannelSelector Server.

Fixpoint next_channels (n : nat) (s : ServerChannelSelector)
    : list (option nat) * ServerChannelSelector :=
  match n with
  | 0%nat => ([], s)
  | S n' => let (c, s1) := NextChannel s in
            let (l, s2) := next_channels n' s1 in (c :: l, s2)
  end.

(** The selector goes through the channels in order, says once that there are no
    more, and starts again. *)
Lemma selector_rounds s :
  next_channels (S (length (channels s) - channels_iterator_ s)) s
  = (map Some (drop (channels_iterator_ s) (channels s)) ++ [None],
     {| channels := channels s; channels_iterator_ := 0 |}).
Proof.
  remember (length (channels s) - channels_iterator_ s)%nat as n eqn:Hn.
  revert s Hn. induction n as [|n IH]; intros s Hn.
  - simpl. unfold NextChannel. rewrite lookup_ge_None_2, drop_ge by lia. done.
  - destruct (lookup_lt_is_Some_2 (channels s) (channels_iterator_ s)) as [c Hc]; [lia|].
    change (next_channels (S (S n)) s) with
      (let (c, s1) := NextChannel s in let (l, s2) := next_channels (S n) s1 in (c :: l, s2)).
    unfold NextChannel at 1. rewrite Hc, IH by (simpl; lia). simpl.
    by rewrite (drop_S _ _ _ Hc).
Qed.

(** The channels answer one after the other; after a failure the processor
    updates the action of [Reconnect]. *)
Fixpoint connect_run (oks : list bool) (s : ServerTransport) : ServerTransport * list event :=
  match oks with
  | [] => (s, [])
  | ok :: oks' =>
      let (s1, e1) := channel_result ok s in
      let (s2, e2) := reconnect_update s1 in
      let (s3, e3) := connect_run oks' s2 in (s3, e1 ++ e2 ++ e3)
  end.

(** The transport connects to the channel at [k]. *)
Definition connecting (cs : list nat) (k c : nat) (s : ServerTransport) : Prop :=
  cs !! k = Some c /\
  channel_selector_ s = {| channels := cs; channels_iterator_ := S k |} /\
  channel_transport_ s = Some (Channel_Connect (new_channel c)) /\
  send_queue_manager_action_ s = new_manager /\
  notify_reconnect_subscription_ s = false /\ notify_server_reconnect_action_ s = quiet.

(** All channels failed. *)
Definition gave_up (cs : list nat) (s : ServerTransport) : Prop :=
  channel_selector_ s = {| channels := cs; channels_iterator_ := 0 |} /\
  channel_transport_ s = None /\
  notify_reconnect_subscription_ s = false /\ notify_server_reconnect_action_ s = quiet.

Lemma fail_step cs k c s :
  connecting cs k c s ->
  let (s1, e1) := channel_result false s in
  let (s2, e2) := reconnect_update s1 in
  e1 = [] /\
  match cs !! S k with
  | Some c' => connecting cs (S k) c' s2 /\ e2 = []
  | None => gave_up cs s2 /\ e2 = [ConnectionError]
  end.
Proof.
  intros (Hc & Hsel & Ht & Hq & Hs & Hn). unfold channel_result. rewrite Ht. simpl.
  unfold reconnect_update, Connect, NextChannel. simpl. rewrite Hsel. simpl.
  destruct (cs !! S k) as [c'|] eqn:E; simpl; split_and!; auto; split_and!; auto.
Qed.

Lemma connect_run_spec cs n : forall k c s,
  connecting cs k c s -> (k + n <= length cs)%nat ->
  let (s', es) := connect_run (replicate n false) s in
  if decide (k + n < length cs)%nat
  then (exists c', connecting cs (k + n) c' s') /\ es = []
  else gave_up cs s' /\ es = [ConnectionError].
Proof.
  induction n as [|n IH]; intros k c s Hc Hn; simpl.
  - rewrite Nat.add_0_r in *. pose proof (lookup_lt_Some _ _ _ (proj1 Hc)).
    rewrite decide_True by done. eauto.
  - pose proof (fail_step cs k c s Hc) as HF. destruct (channel_result false s) as [s1 e1].
    destruct (reconnect_update s1) as [s2 e2]. destruct HF as [-> HF]. simpl.
    destruct (cs !! S k) as [c'|] eqn:E.
    + destruct HF as [Hc' ->]. specialize (IH (S k) c' s2 Hc' ltac:(lia)).
      destruct (connect_run (replicate n false) s2) as [s3 e3]. simpl.
      replace (k + S n)%nat with (S k + n)%nat by lia. done.
    + destruct HF as [Hg ->]. apply lookup_ge_None_1 in E.
      assert (n = 0)%nat as -> by lia. simpl. by rewrite decide_False by lia.
Qed.

(** C34: [Connect] tries the channels of the server one after the other, in order,
    until one connects.  If the one after [k] failures connects, the transport
    emits one success, and the queue of packets gets that channel; if all fail it
    emits one error, and the next [Connect] starts with the first channel. *)
Theorem server_tries_channels cs k :
  cs <> [] -> (k <= length cs)%nat ->
  let (s1, e1) := Connect (new_server cs) in
  let (s2, e2) := connect_run (replicate k false) s1 in
  e1 = [] /\
  (forall c, cs !! k = Some c ->
     e2 = [] /\
     let (s3, e3) := channel_result true s2 in
     e3 = [ConnectionSuccess] /\ connection_state s3 = kConnected /\
     enqueue_transport_ (send_queue_manager_action_ s3) = Some c /\
     state_ (q_state (send_queue_manager_action_ s3)) = kQueueReady) /\
  (k = length cs ->
     e2 = [ConnectionError] /\ channel_transport_ s2 = None /\
     channels_iterator_ (channel_selector_ s2) = 0%nat).
Proof.
  intros Hne Hk. destruct cs as [|c0 cs]; [done|]. set (l := c0 :: cs) in *.
  unfold Connect, NextChannel. simpl.
  match goal with |- context [connect_run _ ?x] => set (s1 := x) end.
  assert (connecting l 0 c0 s1) as H1 by (split_and!; done).
  pose proof (connect_run_spec l k 0 c0 s1 H1 Hk) as HR. simpl in HR.
  destruct (connect_run (replicate k false) s1) as [s2 e2]. split_and!; [done| |].
  - intros c Hc. pose proof (lookup_lt_Some _ _ _ Hc) as Hlt.
    rewrite decide_True in HR by done. destruct HR as [(c' & Hc' & Hsel & Ht & Hq & _) ->].
    rewrite Hc in Hc'. injection Hc' as <-. split; [done|].
    unfold channel_result. rewrite Ht, Hq. simpl. done.
  - intros ->. rewrite decide_False in HR by lia. destruct HR as [(Hsel & Ht & _) ->].
    rewrite Hsel. done.
Qed.

Lemma server_tries_channels_witness :
  let (s1, e1) := Connect (new_server [4; 6; 9]%nat) in
  let (s2, e2) := connect_run [false; false] s1 in
  let (s3, e3) := channel_result true s2 in
  e3 = [ConnectionSuccess] /\ enqueue_transport_ (send_queue_manager_action_ s3) = Some 9%nat.
Proof.
  pose proof (server_tries_channels [4; 6; 9]%nat 2 ltac:(discriminate) ltac:(simpl; lia)) as H.
  destruct (Connect (new_server [4; 6; 9]%nat)) as [s1 e1]. simpl replicate in H.
  destruct (connect_run [false; false] s1) as [s2 e2]. destruct H as (_ & H & _).
  destruct (H 9%nat eq_refl) as [_ H']. destruct (channel_result true s2) as [s3 e3].
  destruct H' as (? & _ & ? & _). split; assumption.
Defined.

(** *** Timeouts of packets *)

(** [CheckTimeout] is inverted: a packet in progress is stopped at the first
    update before its timeout, and one past its timeout is left alone. *)
Lemma timeout_inverted now a :
  state_ (ChannelPacket.cp_state a) = kProgress ->
  (now <= ChannelPacket.send_timeout_ a ->
     state_ (ChannelPacket.cp_state (ChannelPacket.Update now a).1) = kTimeout) /\
  (ChannelPacket.send_timeout_ a < now -> ChannelPacket.Update now a = (a, ChannelPacket.send_timeout_ a)).
Proof.
  intros Hp. unfold ChannelPacket.Update, ChannelPacket.CheckTimeout. rewrite decide_True by done.
  split; intros H.
  - rewrite (proj2 (Z.ltb_ge _ _) H). simpl. apply SM.state_set.
  - by rewrite (proj2 (Z.ltb_lt _ _) H).
Qed.

(** *** Names *)

Inductive name_op := NUpdate | NResolved (l : option (list nat)) | NAddress (ok : bool).

Definition name_exec (o : name_op) (a : NameConnection.NameAddressChannelConnectionAction)
    : NameConnection.NameAddressChannelConnectionAction * option done :=
  match o with
  | NUpdate => NameConnection.Update a
  | NResolved l => (NameConnection.resolved l a, None)
  | NAddress ok => (NameConnection.address_connected ok a, None)
  end.

Fixpoint name_run (os : list name_op) (a : NameConnection.NameAddressChannelConnectionAction)
    : NameConnection.NameAddressChannelConnectionAction * list done :=
  match os with
  | [] => (a, [])
  | o :: os' => let (a1, d) := name_exec o a in
                let (a2, l) := name_run os' a1 in (a2, option_list d ++ l)
  end.

Lemma name_run_cons o os a :
  (name_run (o :: os) a).2 = option_list (name_exec o a).2 ++ (name_run os (name_exec o a).1).2.
Proof. simpl. destruct (name_exec o a) as [a1 d]. simpl. by destruct (name_run os a1). Qed.

(** A name whose first address cannot be connected to is never connected to.
    On the error the action moves to the next address and sets the state it is
    already in, which is no change, so nothing happens any more: the other
    addresses are not tried and the action ends neither with a result nor with
    an error. *)
Theorem name_first_failure_hangs addr addrs os :
  (name_run (NUpdate :: NResolved (Some (addr :: addrs)) :: NUpdate :: NAddress false :: os)
            NameConnection.new_action).2 = [].
Proof.
  set (a := {| NameConnection.nm_state := {| changed_ := false; state_ := NameConnection.TryConnection_ |};
               NameConnection.ip_address_port_protocols_ := addr :: addrs;
               NameConnection.ip_address_port_protocol_it_ := 1;
               NameConnection.resolving := false; NameConnection.current := None |}).
  assert (forall o, name_exec o a = (a, None)) as Ha by (by intros [| |]).
  assert (forall l, name_run l a = (a, [])) as Hr.
  { induction l as [|o l IH]; [done|]. cbn [name_run]. rewrite Ha, IH. done. }
  rewrite !name_run_cons. change ((name_run os a).2 = []). by rewrite Hr.
Qed.

(** Otherwise a name ends once, with the answer of its only attempt. *)
Lemma name_ends l :
  (name_run [NUpdate; NResolved l; NUpdate; NAddress true; NUpdate] NameConnection.new_action).2
  = match l with None | Some [] => [Error] | Some _ => [Result] end.
Proof. destruct l as [[|]|]; reflexivity. Qed.

(** *** Addresses *)

(** Connecting to an address ends with the result of the transport: at once if it
    is connected already, otherwise when it connects or fails; the transport is
    told to connect exactly if it is not connecting. *)
Lemma ip_connects t cs ok :
  let a1 := (IpConnection.Update IpConnection.new_action).1 in
  let (a2, connect) := IpConnection.TransportCreated t cs a1 in
  let (a3, d) := IpConnection.Update a2 in
  let (a4, d') := IpConnection.Update (IpConnection.transport_connected ok a3) in
  match cs with
  | kConnected => d = Some Result /\ connect = false
  | kConnecting => d = None /\ connect = false /\ d' = Some (if ok then Result else Error)
  | kDisconnected | kUndefined =>
      d = None /\ connect = true /\ d' = Some (if ok then Result else Error)
  end.
Proof. destruct cs, ok; simpl; auto. Qed.

End ServerProperties.
