(* ===== verification/ObjRegistry.v ===== *)
(** * The registry of classes ([obj/registry.*], [Domain::GetMostRelatedFactory])

    Classes register themselves with the id of their base.  The registry answers
    how many generations are between two classes, and the domain uses it to find
    the class to create for a stored object: the final class of the most derived
    class the object was stored with. *)

From stdpp Require Import gmap sorting.
From S2P Require Import Prelude Crc.

#[local] Set Warnings "-clear-no-such-hyp".

Module ObjRegistry.

(** [crc32::from_literal("Obj")] *)
Definition kObj : Z := Crc.from_literal [79; 98; 106].

(** The factories are the classes; the order in which an [unordered_map] is
    iterated is the one of [elements]. *)
Record Registry := {
  base_to_derived_ : gmap Z (list Z);
  factories_ : gset Z;
}.

(** The static tables of [GetRelations] and [GetFactories], where classes register. *)
Record Tables := { relations : gmap Z (list Z); factories : gset Z }.

Definition empty_tables : Tables := {| relations := ∅; factories := ∅ |}.

(** [factories.emplace] does not replace a factory; with [DEBUG] registering a
    class twice is an assertion. *)
Definition RegisterClass (cls_id base_id : Z) (t : Tables) : Tables :=
  {| factories := {[cls_id]} ∪ factories t;
     relations :=
       if base_id =? kObj then relations t
       else <[base_id := default [] (relations t !! base_id) ++ [cls_id]]> (relations t) |}.

(** The constructor copies the tables; the other operations are those of the copy. *)
Definition new_registry (t : Tables) : Registry :=
  {| base_to_derived_ := relations t; factories_ := factories t |}.

Definition UnregisterClass (cls_id : Z) (r : Registry) : Registry :=
  {| factories_ := factories_ r ∖ {[cls_id]};
     base_to_derived_ :=
       filter (fun kv => kv.2 <> [])
         (filter (fun c => c <> cls_id) <$> delete cls_id (base_to_derived_ r)) |}.

Definition IsExisting (r : Registry) (class_id : Z) : bool :=
  bool_decide (class_id ∈ factories_ r).

(** The loop over the derived classes of a class, [distance] being the recursive
    call. *)
Fixpoint children_distance (distance : Z -> Z) (derived_id : Z) (cs : list Z) : Z :=
  match cs with
  | [] => -1
  | c :: cs' =>
      if derived_id =? c then 1 else
      let d := distance c in
      if 0 <=? d then d + 1 else children_distance distance derived_id cs'
  end.

Fixpoint GenerationDistanceInternal (fuel : nat) (r : Registry) (base_id derived_id : Z) : Z :=
  match fuel with
  | 0%nat => -1
  | S f =>
      match base_to_derived_ r !! base_id with
      | None => -1
      | Some cs =>
          children_distance (fun c => GenerationDistanceInternal f r c derived_id) derived_id cs
      end
  end.

(** A chain of bases visits a class once, so this many calls are enough. *)
Definition depth (r : Registry) : nat := S (size (base_to_derived_ r)).

Definition GenerationDistance (r : Registry) (base_id derived_id : Z) : Z :=
  if negb (IsExisting r base_id) || negb (IsExisting r derived_id) then -1
  else if base_id =? derived_id then 0
  else GenerationDistanceInternal (depth r) r base_id derived_id.

(** [Domain::IsLast] *)
Definition IsLast (r : Registry) (class_id : Z) : bool :=
  match base_to_derived_ r !! class_id with None => true | Some _ => false end.

(** The comparison that orders the classes of an object; the last branch is an
    assertion. *)
Definition class_less (r : Registry) (left right : Z) : outcome bool :=
  if 0 <? GenerationDistance r right left then Defined false
  else if 0 <=? GenerationDistance r left right then Defined true
  else Undefined.

Fixpoint class_insert (r : Registry) (c : Z) (l : list Z) : outcome (list Z) :=
  match l with
  | [] => Defined [c]
  | x :: l' =>
      let* b := class_less r c x in
      if b then Defined (c :: l) else
      let* l2 := class_insert r c l' in Defined (x :: l2)
  end.

Fixpoint class_sort (r : Registry) (l : list Z) : outcome (list Z) :=
  match l with
  | [] => Defined []
  | c :: l' => let* s := class_sort r l' in class_insert r c s
  end.

(** The factory for an object stored with the classes [classes]. *)
Definition GetMostRelatedFactory (r : Registry) (classes : list Z) : outcome (option Z) :=
  match filter (fun c => IsExisting r c = true) classes with
  | [] => Defined None
  | cs =>
      let* sorted := class_sort r cs in
      match list.last sorted with
      | None => Defined None
      | Some b =>
          Defined (list_find (fun f => IsLast r f = true /\ 0 <= GenerationDistance r b f)
                             (elements (factories_ r)) ≫= fun p => Some p.2)
      end
  end.

End ObjRegistry.

(** ** Properties *)
Module ObjRegistryProperties.
Import ObjRegistry.

(** [c] was registered with the base [b]. *)
Definition child (r : Registry) (b c : Z) : Prop :=
  exists cs, base_to_derived_ r !! b = Some cs /\ c ∈ cs.

(** [n] generations from [b] to [d]: the reference for the distances. *)
Inductive generations (r : Registry) : Z -> Z -> nat -> Prop :=
  | gen_same b : generations r b b 0
  | gen_child b c d n : child r b c -> generations r c d n -> generations r b d (S n).

(** Every class has one base, the bases have no cycle, and derived classes
    exist. *)
Record hierarchy (r : Registry) (rank : Z -> nat) : Prop := {
  one_base : forall b b' c, child r b c -> child r b' c -> b = b';
  rank_child : forall b c, child r b c -> (rank b < rank c)%nat;
  child_exists : forall b c, child r b c -> IsExisting r c = true;
  no_empty : forall b, base_to_derived_ r !! b <> Some [];
}.

Section Distance.
Context (r : Registry) (rank : Z -> nat) (Hr : hierarchy r rank).

Lemma generations_rank b d n : generations r b d n -> (rank b + n <= rank d)%nat.
Proof. induction 1 as [|b c d n Hc _ IH]; [lia|]. apply (rank_child _ _ Hr) in Hc. lia. Qed.

Lemma generations_snoc b c d n : generations r b c n -> child r c d -> generations r b d (S n).
Proof.
  induction 1 as [b|b c c' n Hc _ IH]; intros Hd; econstructor; eauto. constructor.
Qed.

Lemma generations_last b d n :
  generations r b d n ->
  n = 0%nat /\ b = d \/ exists p m, n = S m /\ generations r b p m /\ child r p d.
Proof.
  induction 1 as [b|b c d n Hc Hg IH]; [by left|]. right.
  destruct IH as [[-> ->] | (p & m & -> & Hp & Hd)].
  - exists b, 0%nat. split_and!; [done|constructor|done].
  - exists p, (S m). split_and!; [done|by econstructor|done].
Qed.

(** Two ancestors of a class are in one line. *)
Lemma generations_line n1 : forall n2 a1 a2 d,
  generations r a1 d n1 -> generations r a2 d n2 -> (n1 <= n2)%nat ->
  generations r a2 a1 (n2 - n1).
Proof.
  induction n1 as [|n1 IH]; intros n2 a1 a2 d H1 H2 Hle.
  - inversion H1; subst. by rewrite Nat.sub_0_r.
  - destruct (generations_last _ _ _ H1) as [[? _] | (p1 & m1 & [= <-] & G1 & C1)]; [done|].
    destruct (generations_last _ _ _ H2) as [[-> _] | (p2 & m2 & -> & G2 & C2)]; [lia|].
    rewrite (one_base _ _ Hr _ _ _ C2 C1) in G2.
    apply (IH m2 a1 a2 p1 G1 G2). lia.
Qed.

(** A class derives from another one in one way. *)
Lemma generations_branch b c1 c2 d n1 n2 :
  child r b c1 -> child r b c2 -> generations r c1 d n1 -> generations r c2 d n2 -> c1 = c2.
Proof.
  assert (forall c1 c2 n1 n2, (n1 <= n2)%nat -> child r b c1 -> child r b c2 ->
    generations r c1 d n1 -> generations r c2 d n2 -> c1 = c2) as H.
  { clear c1 c2 n1 n2. intros c1 c2 n1 n2 Hle H1 H2 G1 G2.
    pose proof (generations_line n1 n2 c1 c2 d G1 G2 Hle) as G.
    destruct (generations_last _ _ _ G) as [[_ ?] | (p & m & _ & Gp & Cp)]; [done|].
    rewrite (one_base _ _ Hr _ _ _ Cp H1) in Gp. apply generations_rank in Gp.
    apply (rank_child _ _ Hr) in H2. lia. }
  intros H1 H2 G1 G2. destruct (Nat.le_ge_cases n1 n2); [eauto | symmetry; eauto].
Qed.

Lemma generations_unique b d n1 n2 : generations r b d n1 -> generations r b d n2 -> n1 = n2.
Proof.
  intros G1. revert n2. induction G1 as [b|b c d n1 Hc Hg IH]; intros n2 G2.
  - inversion G2 as [|? c ? n2' Hc Hg]; subst; [done|]. apply generations_rank in Hg.
    apply (rank_child _ _ Hr) in Hc. lia.
  - inversion G2 as [|? c' ? n2' Hc' Hg']; subst.
    + apply generations_rank in Hg. apply (rank_child _ _ Hr) in Hc. lia.
    + f_equal. apply IH. by rewrite (generations_branch _ _ _ _ _ _ Hc Hc' Hg Hg').
Qed.

(** The answers of the code: the number of generations, or [-1]. *)
Definition answers (b d z : Z) : Prop :=
  (exists n, generations r b d n /\ z = Z.of_nat n) \/
  ((forall n, ~ generations r b d n) /\ z = -1).

(** The classes between the start and the current class are different keys. *)
Definition above (l : list Z) (b : Z) : Prop :=
  NoDup l /\ forall x, x ∈ l -> is_Some (base_to_derived_ r !! x) /\ (rank x < rank b)%nat.

Lemma above_length l b :
  above l b -> is_Some (base_to_derived_ r !! b) -> (length l < size (base_to_derived_ r))%nat.
Proof.
  intros [Hnd Hl] Hb. assert (NoDup (b :: l)) as Hnd'.
  { apply list.NoDup_cons. split; [|done]. intros Hin. destruct (Hl b Hin). lia. }
  assert (size (list_to_set (C:=gset Z) (b :: l)) <= size (dom (base_to_derived_ r)))%nat as Hle.
  { apply subseteq_size. intros x Hx. apply elem_of_list_to_set in Hx.
    apply elem_of_dom. apply elem_of_cons in Hx as [-> | Hx]; [done|]. by apply Hl. }
  rewrite size_list_to_set in Hle by done. rewrite size_dom in Hle. simpl in Hle. lia.
Qed.

(** One class: the loop over its children. *)
Lemma children_answers (distance : Z -> Z) d : forall cs0,
  (forall c, c ∈ cs0 -> d <> c -> answers c d (distance c)) ->
  let z := children_distance distance d cs0 in
  (exists c n, c ∈ cs0 /\ generations r c d n /\ z = Z.of_nat (S n)) \/
  ((forall c n, c ∈ cs0 -> ~ generations r c d n) /\ z = -1).
Proof.
  induction cs0 as [|c cs0 IH]; intros Ha; simpl.
  { right. split; [by intros c n ?%elem_of_nil | done]. }
  destruct (Z.eqb_spec d c) as [-> | Hne].
  - left. exists c, 0%nat. split_and!; [apply list_elem_of_here|constructor|done].
  - assert (forall c, c ∈ cs0 -> d <> c -> answers c d (distance c)) as Ha'.
    { intros x Hx. apply Ha. by apply list_elem_of_further. }
    destruct (Ha c (list_elem_of_here _ _) Hne) as [(n & Hn & ->) | [Hno ->]].
    + rewrite (proj2 (Z.leb_le _ _)) by lia. left. exists c, n.
      split_and!; [apply list_elem_of_here|done|lia].
    + simpl. destruct (IH Ha') as [(x & n & Hx & Hg & Hz) | [Hn Hz]].
      * left. exists x, n. split_and!; auto. by apply list_elem_of_further.
      * right. split; [|done]. intros x n [-> | Hx]%elem_of_cons; auto.
Qed.

(** The recursion, given the classes above. *)
Lemma internal_answers fuel : forall l b d,
  above l b -> b <> d -> (size (base_to_derived_ r) < fuel + length l)%nat ->
  answers b d (GenerationDistanceInternal fuel r b d).
Proof.
  induction fuel as [|f IH]; intros l b d Hl Hbd Hf.
  { right. split; [|done]. intros n Hg. inversion Hg as [|? c ? n' (cs & Hb & _) _]; subst; [done|].
    apply above_length in Hl; [|by exists cs]. simpl in Hf. lia. }
  simpl. destruct (base_to_derived_ r !! b) as [cs|] eqn:Hb.
  2:{ right. split; [|done]. intros n Hg. inversion Hg as [|? c ? n' (cs & Hb' & _) _]; subst; [done|].
      by rewrite Hb in Hb'. }
  destruct (children_answers (fun c => GenerationDistanceInternal f r c d) d cs)
    as [(c & n & Hc & Hg & ->) | [Hno ->]].
  - intros c Hc Hdc. assert (child r b c) as Hch by (exists cs; done).
    apply (IH (b :: l)); [|done|simpl; lia]. destruct Hl as [Hnd Hl].
    apply (rank_child _ _ Hr) in Hch. split.
    + apply list.NoDup_cons. split; [|done]. intros Hin. destruct (Hl b Hin). lia.
    + intros x [-> | Hx]%elem_of_cons; [by eauto|]. destruct (Hl x Hx). split; [done|lia].
  - left. exists (S n). split; [|done]. econstructor; [|exact Hg]. by exists cs.
  - right. split; [|done]. intros n Hg. inversion Hg as [|? c ? n' (cs' & Hb' & Hc) Hg']; subst; [done|].
    rewrite Hb in Hb'. injection Hb' as <-. by apply (Hno c n').
Qed.

Lemma distance_answers b d :
  IsExisting r b = true -> IsExisting r d = true -> answers b d (GenerationDistance r b d).
Proof.
  intros Hb Hd. unfold GenerationDistance. rewrite Hb, Hd. cbn [negb orb].
  destruct (Z.eqb_spec b d) as [-> | Hne]; [left; exists 0%nat; split; [constructor|done]|].
  apply (internal_answers _ []); [|done|unfold depth; simpl; lia].
  split; [constructor|]. by intros x ?%elem_of_nil.
Qed.

(** *** The order of the classes of an object *)

Definition ancestor (a d : Z) : Prop := exists n, generations r a d n.

Lemma ancestor_antisym a d : ancestor a d -> ancestor d a -> a = d.
Proof.
  intros [n Hn] [m Hm]. pose proof (generations_rank _ _ _ Hn).
  pose proof (generations_rank _ _ _ Hm). assert (n = 0)%nat as -> by lia. by inversion Hn.
Qed.

Lemma class_less_line x y :
  IsExisting r x = true -> IsExisting r y = true -> x <> y -> ancestor x y \/ ancestor y x ->
  (class_less r x y = Defined true /\ ancestor x y) \/
  (class_less r x y = Defined false /\ ancestor y x).
Proof.
  intros Hx Hy Hne Hl. unfold class_less.
  destruct (distance_answers y x Hy Hx) as [(n & Hn & ->) | [Hno ->]].
  - right. destruct n as [|n]; [inversion Hn; congruence|].
    rewrite (proj2 (Z.ltb_lt _ _)) by lia. split; [done|]. by exists (S n).
  - left. simpl. destruct Hl as [Hl | [n Hn]]; [|by destruct (Hno n)]. split; [|done].
    destruct (distance_answers x y Hx Hy) as [(m & Hm & ->) | [Hno' _]].
    + by rewrite (proj2 (Z.leb_le _ _)) by lia.
    + destruct Hl as [n Hn]. by destruct (Hno' n).
Qed.

(** The supported classes of an object: different and in one line. *)
Definition in_line (cs : list Z) : Prop :=
  NoDup cs /\ (forall x, x ∈ cs -> IsExisting r x = true) /\
  (forall x y, x ∈ cs -> y ∈ cs -> ancestor x y \/ ancestor y x).

Lemma class_insert_sorted c l :
  StronglySorted ancestor l -> in_line (c :: l) ->
  exists l', class_insert r c l = Defined l' /\ l' ≡ₚ c :: l /\ StronglySorted ancestor l'.
Proof.
  induction l as [|x l IH]; intros Hs (Hnd & Hex & Hl).
  { exists [c]. split_and!; [done|done|repeat constructor]. }
  apply list.NoDup_cons in Hnd as [Hc Hnd]. pose proof Hnd as Hnd0.
  apply list.NoDup_cons in Hnd as [Hx Hnd]. inversion Hs as [|? ? Hs' Hf]; subst.
  assert (c ∈ c :: x :: l /\ x ∈ c :: x :: l) as [Hci Hxi] by set_solver.
  assert (c <> x) as Hne by (intros ->; apply Hc, list_elem_of_here).
  cbn [class_insert].
  destruct (class_less_line c x (Hex _ Hci) (Hex _ Hxi) Hne (Hl _ _ Hci Hxi)) as [[-> Ha] | [-> Ha]].
  - exists (c :: x :: l). split_and!; [done|done|]. constructor; [done|].
    apply list.Forall_cons. split; [done|]. eapply Forall_impl; [|exact Hf].
    intros y [n Hn]. destruct Ha as [m Hm]. exists (m + n)%nat.
    clear -Hm Hn. induction Hm; simpl; [done|]. econstructor; eauto.
  - destruct IH as (l' & -> & Hp & Hs2); [done| |].
    { split_and!; [apply list.NoDup_cons; set_solver| |].
      - intros y Hy. apply Hex. set_solver.
      - intros y z Hy Hz. apply Hl; set_solver. }
    exists (x :: l'). split_and!; [done|by rewrite Hp, Permutation_swap|]. constructor; [done|].
    rewrite Hp. by apply list.Forall_cons.
Qed.

Lemma class_sort_sorted cs :
  in_line cs ->
  exists l, class_sort r cs = Defined l /\ l ≡ₚ cs /\ StronglySorted ancestor l.
Proof.
  induction cs as [|c cs IH]; intros Hin; [exists []; split_and!; [done|done|constructor]|].
  pose proof Hin as (Hnd & Hex & Hl). apply list.NoDup_cons in Hnd as [Hc Hnd].
  destruct IH as (l & E & Hp & Hs).
  { split_and!; [done| |]; intros; [apply Hex|apply Hl]; set_solver. }
  simpl. rewrite E. destruct (class_insert_sorted c l Hs) as (l' & -> & Hp' & Hs').
  { split_and!.
    - apply list.NoDup_cons. by rewrite Hp.
    - intros x. rewrite Hp. apply Hex.
    - intros x y. rewrite Hp. apply Hl. }
  exists l'. split_and!; [done|by rewrite Hp', Hp|done].
Qed.

Lemma last_derived l b :
  StronglySorted ancestor l -> list.last l = Some b -> forall x, x ∈ l -> ancestor x b.
Proof.
  induction 1 as [|y l Hs IH Hf]; [done|]. intros Hb x Hx.
  destruct l as [|z l]; [injection Hb as ->; apply list_elem_of_singleton in Hx as ->;
                         exists 0%nat; constructor|].
  change (list.last (z :: l) = Some b) in Hb.
  apply elem_of_cons in Hx as [-> | Hx]; [|by apply IH].
  assert (b ∈ z :: l) as Hbl by (by apply last_Some_elem_of).
  eapply list.Forall_forall in Hf; [exact Hf | exact Hbl].
Qed.

(** *** Final classes *)

(** Every class has a final descendant, since ranks of classes are bounded. *)
Lemma final_exists b :
  IsExisting r b = true -> exists f, IsExisting r f = true /\ IsLast r f = true /\ ancestor b f.
Proof.
  set (M := max_list (rank <$> elements (factories_ r))).
  assert (forall x, IsExisting r x = true -> (rank x <= M)%nat) as HM.
  { intros x Hx. unfold IsExisting in Hx. apply bool_decide_eq_true_1 in Hx. unfold M.
    apply max_list_elem_of_le. apply list_elem_of_fmap. exists x. split; [done|].
    by apply elem_of_elements. }
  remember (M - rank b)%nat as k eqn:Hk. revert b Hk.
  induction (lt_wf k) as [k _ IH]. intros b Hk Hb.
  destruct (base_to_derived_ r !! b) as [cs|] eqn:E.
  - destruct cs as [|c cs]; [by destruct (no_empty _ _ Hr b)|].
    assert (child r b c) as Hc by (exists (c :: cs); split; [done|apply list_elem_of_here]).
    pose proof (rank_child _ _ Hr _ _ Hc). pose proof (child_exists _ _ Hr _ _ Hc) as Hce.
    pose proof (HM c Hce).
    destruct (IH (M - rank c)%nat ltac:(lia) c eq_refl Hce) as (f & Hf & Hl & [n Hn]).
    exists f. split_and!; auto. exists (S n). by econstructor.
  - exists b. split_and!; [done|by unfold IsLast; rewrite E|]. exists 0%nat. constructor.
Qed.
End Distance.

(** ** Claims *)

(** [GenerationDistance] counts generations.  For registered classes it is
    [n] exactly when the second class derives from the first one in [n] steps of
    registered bases, and [-1] when it does not derive from it; the search ends
    although it has no bound of its own. *)
Theorem generation_distance_counts r rank b d :
  hierarchy r rank -> IsExisting r b = true -> IsExisting r d = true ->
  (forall n, GenerationDistance r b d = Z.of_nat n <-> generations r b d n) /\
  (GenerationDistance r b d = -1 <-> forall n, ~ generations r b d n).
Proof.
  intros Hr Hb Hd. destruct (distance_answers r rank Hr b d Hb Hd) as [(n & Hn & ->) | [Hno ->]].
  - split; [|split; [lia|by intros Hno; destruct (Hno n)]]. intros m. split.
    + by intros <-%Nat2Z.inj.
    + intros Hm. by rewrite (generations_unique r rank Hr _ _ _ _ Hn Hm).
  - split; [|done]. intros m. split; [lia|]. intros Hm. by destruct (Hno m).
Qed.

(** Classes 1 and 3 derive from [Obj], 2 from 1, 4 from 2 and 5 from 1. *)
Definition sample_registry : Registry :=
  new_registry (RegisterClass 4 2 (RegisterClass 2 1 (RegisterClass 5 1 (RegisterClass 3 kObj
    (RegisterClass 1 kObj empty_tables))))).

Definition sample_rank (c : Z) : nat := Z.to_nat c.

Lemma sample_child b c : child sample_registry b c -> (b = 1 /\ (c = 5 \/ c = 2)) \/ (b = 2 /\ c = 4).
Proof.
  assert (map_Forall (fun b cs => Forall (fun c => (b = 1 /\ (c = 5 \/ c = 2)) \/ (b = 2 /\ c = 4)) cs)
            (base_to_derived_ sample_registry)) as H.
  { apply (bool_decide_unpack _). vm_compute. exact I. }
  intros (cs & Hb & Hc). by apply (proj1 (list.Forall_forall _ _) (H b cs Hb) c).
Qed.

Lemma sample_hierarchy : hierarchy sample_registry sample_rank.
Proof.
  split.
  - intros b b' c H1%sample_child H2%sample_child. lia.
  - intros b c H%sample_child. unfold sample_rank. lia.
  - intros b c H%sample_child.
    destruct H as [[_ [-> | ->]] | [_ ->]]; vm_compute; reflexivity.
  - intros b Hb. assert (map_Forall (fun _ cs => cs <> []) (base_to_derived_ sample_registry)) as H.
    { apply (bool_decide_unpack _). vm_compute. exact I. }
    by apply (H b [] Hb).
Qed.

Lemma generation_distance_counts_witness :
  GenerationDistance sample_registry 1 4 = 2 /\ generations sample_registry 1 4 2.
Proof.
  assert (GenerationDistance sample_registry 1 4 = Z.of_nat 2) as H by (vm_compute; reflexivity).
  split; [exact H|].
  apply (proj1 (generation_distance_counts sample_registry sample_rank 1 4 sample_hierarchy
           ltac:(vm_compute; reflexivity) ltac:(vm_compute; reflexivity))). exact H.
Defined.

(** The class found for the stored classes of an object. *)
Lemma most_related r rank (Hr : hierarchy r rank) classes :
  let cs := filter (fun c => IsExisting r c = true) classes in
  cs <> [] -> in_line r cs ->
  exists f, GetMostRelatedFactory r classes = Defined (Some f) /\
    IsLast r f = true /\ forall x, x ∈ cs -> ancestor r x f.
Proof.
  intros cs Hne Hin. unfold GetMostRelatedFactory. fold cs.
  destruct (class_sort_sorted r rank Hr cs Hin) as (l & E & Hp & Hs).
  assert (exists b, list.last l = Some b) as [b Hb].
  { destruct (list.last l) as [b|] eqn:El; [eauto|]. apply last_None in El as ->.
    by apply Permutation_nil_l in Hp. }
  destruct cs as [|c0 cs'] eqn:Ecs; [done|]. rewrite <- Ecs in *. rewrite E, Hb.
  assert (forall x, x ∈ cs -> ancestor r x b) as Hanc.
  { intros x Hx. apply (last_derived r l); [done|done|by rewrite Hp]. }
  assert (b ∈ cs) as Hbc by (rewrite <- Hp; by apply last_Some_elem_of).
  destruct Hin as (_ & Hex & _).
  destruct (final_exists r rank Hr b (Hex b Hbc)) as (f0 & Hf0 & Hl0 & Ha0).
  assert (forall f, IsExisting r f = true -> 0 <= GenerationDistance r b f <-> ancestor r b f) as Hd.
  { intros f Hf. destruct (distance_answers r rank Hr b f (Hex b Hbc) Hf) as [(n & Hn & ->) | [Hno ->]].
    - split; [by exists n|lia].
    - split; [lia|]. intros [n Hn]. by destruct (Hno n). }
  destruct (list_find _ (elements (factories_ r))) as [[i f]|] eqn:Ef; simpl.
  - apply list_find_Some in Ef as (Hi & [Hlf Hdf] & _). exists f. split_and!; auto.
    assert (IsExisting r f = true) as Hf.
    { apply bool_decide_eq_true_2. apply elem_of_elements. by apply list_elem_of_lookup_2 in Hi. }
    intros x Hx. destruct (Hanc x Hx) as [n Hn]. apply Hd in Hdf as [m Hm]; [|done].
    exists (n + m)%nat. clear -Hn Hm. induction Hn; simpl; [done|]. econstructor; eauto.
  - apply list_find_None in Ef. eapply list.Forall_forall in Ef.
    + destruct Ef. split; [exact Hl0|]. by apply Hd.
    + apply elem_of_elements. by apply bool_decide_eq_true_1 in Hf0.
Qed.

(** The class created for a stored object.  If the registered ones of its
    stored classes are different and derive from each other,
    [GetMostRelatedFactory] finds a factory: a final class that derives from
    every one of them. *)
Theorem most_related_factory r rank classes :
  hierarchy r rank ->
  let cs := filter (fun c => IsExisting r c = true) classes in
  cs <> [] -> in_line r cs ->
  exists f, GetMostRelatedFactory r classes = Defined (Some f) /\
    IsLast r f = true /\ forall x, x ∈ cs -> ancestor r x f.
Proof. intros Hr. by apply (most_related r rank). Qed.

Lemma most_related_factory_witness :
  exists f, GetMostRelatedFactory sample_registry [2; 7; 1] = Defined (Some f) /\
    IsLast sample_registry f = true /\ forall x, x ∈ [2; 1] -> ancestor sample_registry x f.
Proof.
  apply (most_related_factory sample_registry sample_rank [2; 7; 1] sample_hierarchy).
  - vm_compute. discriminate.
  - assert (filter (fun c => IsExisting sample_registry c = true) [2; 7; 1] = [2; 1]) as ->
      by (vm_compute; reflexivity).
    assert (child sample_registry 1 2) as H12.
    { exists [5; 2]. split; [vm_compute; reflexivity|]. apply list_elem_of_further, list_elem_of_here. }
    split_and!.
    + apply (bool_decide_unpack _). vm_compute. exact I.
    + intros x Hx. apply elem_of_cons in Hx as [-> | ->%list_elem_of_singleton]; vm_compute; reflexivity.
    + intros x y Hx Hy. apply elem_of_cons in Hx as [-> | ->%list_elem_of_singleton];
        apply elem_of_cons in Hy as [-> | ->%list_elem_of_singleton].
      * left. exists 0%nat. constructor.
      * right. exists 1%nat. econstructor; [exact H12|constructor].
      * left. exists 1%nat. econstructor; [exact H12|constructor].
      * left. exists 0%nat. constructor.
Defined.

(** The comparison says that a class is less than itself, which [std::sort] does
    not allow of a comparison. *)
Lemma class_less_reflexive r c :
  IsExisting r c = true -> class_less r c c = Defined true.
Proof.
  intros Hc. unfold class_less, GenerationDistance. rewrite Hc, Z.eqb_refl. reflexivity.
Qed.

(** *** Declared classes *)

(** The classes of a program with their bases, in the order they register, which may
    be any; a class may register more than once with its base. *)
Definition declarations : Type := list (Z * Z).

Definition register_all (ds : declarations) : Tables :=
  fold_left (fun t d => RegisterClass d.1 d.2 t) ds empty_tables.

(** A registry made then, from which the classes [gone] were removed. *)
Definition registry_of (ds : declarations) (gone : list Z) : Registry :=
  fold_left (fun r c => UnregisterClass c r) gone (new_registry (register_all ds)).

(** [d] derives from [b] in [n] steps of declared bases, over classes that were not
    removed; [Obj] is nobody's base here. *)
Inductive derives (ds : declarations) (gone : list Z) : Z -> Z -> nat -> Prop :=
  | der_same b : derives ds gone b b 0
  | der_step b c d n : (c, b) ∈ ds -> b <> kObj -> b ∉ gone -> c ∉ gone ->
      derives ds gone c d n -> derives ds gone b d (S n).

(** What C++ asks of the classes: one base each, declared before. *)
Record cpp_classes (ds : declarations) (rank : Z -> nat) : Prop := {
  cpp_one_base : forall c b b', (c, b) ∈ ds -> (c, b') ∈ ds -> b = b';
  cpp_rank : forall c b, (c, b) ∈ ds -> (rank b < rank c)%nat;
}.

Lemma child_register t cls base b c :
  child (new_registry (RegisterClass cls base t)) b c <->
  child (new_registry t) b c \/ (b = base /\ c = cls /\ base <> kObj).
Proof.
  unfold child, RegisterClass. cbn [new_registry base_to_derived_ relations]. destruct (Z.eqb_spec base kObj) as [E|E].
  - split; [eauto|]. intros [H|(_ & _ & H)]; [done|by destruct H].
  - split.
    + intros (cs & Hb & Hc). apply lookup_insert_Some in Hb as [[<- <-] | [_ Hb]]; [|eauto].
      apply elem_of_app in Hc as [Hc | Hc%list_elem_of_singleton]; [|eauto].
      left. destruct (relations t !! base) as [cs|]; simpl in Hc; [eauto|set_solver].
    + destruct (decide (b = base)) as [->|Hb].
      * intros H. eexists. rewrite lookup_insert_eq. split; [done|]. apply elem_of_app.
        destruct H as [(cs & -> & Hc)|(_ & -> & _)]; [by left|right; by apply list_elem_of_singleton].
      * intros [(cs & Hcs & Hc)|(? & _)]; [|done]. exists cs. by rewrite lookup_insert_ne.
Qed.

Lemma child_unregister r cls b c :
  child (UnregisterClass cls r) b c <-> child r b c /\ b <> cls /\ c <> cls.
Proof.
  unfold child, UnregisterClass. cbn [base_to_derived_]. split.
  - intros (cs & Hb & Hc). apply map_lookup_filter_Some in Hb as [Hb _].
    apply lookup_fmap_Some in Hb as (cs' & <- & Hb). apply lookup_delete_Some in Hb as [Hb' Hb].
    apply list_elem_of_filter in Hc as [Hne Hc]. split; [by exists cs'|]. split; [congruence|done].
  - intros ((cs & Hb & Hc) & Hbc & Hcc). assert (c ∈ filter (fun c => c <> cls) cs) as Hf
      by (by apply list_elem_of_filter).
    exists (filter (fun c => c <> cls) cs). split; [|done]. apply map_lookup_filter_Some. split.
    + apply lookup_fmap_Some. exists cs. split; [done|]. apply lookup_delete_Some. by split.
    + cbn. intros E. rewrite E in Hf. by apply elem_of_nil in Hf.
Qed.

(** The registry as a relation, its classes, and that no list is empty. *)
Definition relates (r : Registry) (ds : declarations) (gone : list Z) : Prop :=
  (forall b c, child r b c <-> (c, b) ∈ ds /\ b <> kObj /\ (b ∉ gone) /\ (c ∉ gone)) /\
  (forall c, IsExisting r c = true <-> c ∈ ds.*1 /\ c ∉ gone) /\
  (forall b, base_to_derived_ r !! b <> Some []).

Lemma register_relates t ds cls base :
  relates (new_registry t) ds [] -> relates (new_registry (RegisterClass cls base t)) (ds ++ [(cls, base)]) [].
Proof.
  intros (Hc & He & Hn). split_and!.
  - intros b c. rewrite child_register, Hc, elem_of_app, list_elem_of_singleton. set_solver.
  - intros c. unfold IsExisting in *. rewrite bool_decide_eq_true. rewrite fmap_app, elem_of_app.
    specialize (He c). rewrite bool_decide_eq_true in He. cbn [new_registry factories_ RegisterClass factories] in *.
    rewrite elem_of_union, elem_of_singleton, He. set_solver.
  - intros b. cbn [new_registry base_to_derived_ RegisterClass relations]. destruct (base =? kObj); [apply Hn|].
    intros [[_ E] | [_ E]]%lookup_insert_Some; [|by apply (Hn b)]. by destruct (default [] _).
Qed.

Lemma register_all_relates ds : relates (new_registry (register_all ds)) ds [].
Proof.
  induction ds as [|d ds IH] using rev_ind.
  - split_and!; cbn.
    + intros b c. split; [intros (cs & Hb & _); cbn in Hb; by rewrite lookup_empty in Hb|].
      intros (H & _). by apply elem_of_nil in H.
    + intros c. unfold IsExisting. rewrite bool_decide_eq_true. cbn. set_solver.
    + intros b. by rewrite lookup_empty.
  - unfold register_all. rewrite fold_left_app. cbn [fold_left]. destruct d as [cls base]. by apply register_relates.
Qed.

Lemma registry_of_relates ds gone : relates (registry_of ds gone) ds gone.
Proof.
  induction gone as [|g gone IH] using rev_ind; [apply register_all_relates|].
  unfold registry_of. rewrite fold_left_app. cbn [fold_left]. fold (registry_of ds gone).
  destruct IH as (Hc & He & Hn). split_and!.
  - intros b c. rewrite child_unregister, Hc. set_solver.
  - intros c. unfold IsExisting in *. specialize (He c). rewrite bool_decide_eq_true in *. cbn.
    rewrite elem_of_difference, elem_of_singleton, He. set_solver.
  - intros b Hb. unfold UnregisterClass in Hb. cbn in Hb. by apply map_lookup_filter_Some in Hb as [_ ?].
Qed.

Lemma registry_hierarchy ds rank gone : cpp_classes ds rank -> hierarchy (registry_of ds gone) rank.
Proof.
  intros [H1 H2]. destruct (registry_of_relates ds gone) as (Hc & He & Hn). split; [| | |done].
  - intros b b' c (? & _)%Hc (? & _)%Hc. eauto.
  - intros b c (? & _)%Hc. eauto.
  - intros b c (Hd & _ & _ & Hg)%Hc. apply He. split; [|done]. apply list_elem_of_fmap. by exists (c, b).
Qed.

Lemma generations_derives ds gone b d n : generations (registry_of ds gone) b d n <-> derives ds gone b d n.
Proof.
  destruct (registry_of_relates ds gone) as (Hc & _ & _). split.
  - induction 1 as [|b c d n (? & ? & ? & ?)%Hc _ IH]; by econstructor.
  - induction 1 as [|b c d n H1 H2 H3 H4 _ IH]; [constructor|]. econstructor; [|exact IH]. by apply Hc.
Qed.

(** C40: the registry answers from the classes as they are declared in the program.
    In whatever order the classes register, also a derived one before its base, and
    whichever are removed from a registry afterwards, the distance between two
    classes is [n] exactly when both are declared and not removed and the second
    derives from the first in [n] declared steps over classes that were not removed;
    in all other cases it is -1. *)
Theorem registry_answers_declared ds rank gone b d :
  cpp_classes ds rank ->
  let r := registry_of ds gone in
  let known c := c ∈ ds.*1 /\ c ∉ gone in
  (forall n, GenerationDistance r b d = Z.of_nat n <-> known b /\ known d /\ derives ds gone b d n) /\
  (GenerationDistance r b d = -1 <-> forall n, ~ (known b /\ known d /\ derives ds gone b d n)).
Proof.
  intros Hd r known. pose proof (registry_hierarchy ds rank gone Hd) as Hr. fold r in Hr.
  destruct (registry_of_relates ds gone) as (_ & He & _). fold r in He.
  destruct (IsExisting r b) eqn:Eb, (IsExisting r d) eqn:Ed.
  2-4: assert (GenerationDistance r b d = -1) as -> by (unfold GenerationDistance; by rewrite Eb, Ed);
    (split; [intros n; split; [lia|]|split; [|done]; intros _ n]); intros (Kb%He & Kd%He & _); congruence.
  pose proof (distance_answers r rank Hr b d Eb Ed) as A. apply He in Eb, Ed. fold (known b) (known d) in Eb, Ed.
  destruct A as [(m & Hm & ->)|[Hno ->]]; (split; [intros n|]).
  - rewrite <- generations_derives. fold r. split.
    + intros <-%Nat2Z.inj. done.
    + intros (_ & _ & Hn). by rewrite (generations_unique r rank Hr _ _ _ _ Hm Hn).
  - split; [lia|]. intros Hno. destruct (Hno m). split_and!; [done..|]. by apply generations_derives.
  - split; [lia|]. intros (_ & _ & Hn%generations_derives). by destruct (Hno n).
  - split; [|done]. intros _ n (_ & _ & Hn%generations_derives). by destruct (Hno n).
Qed.

(** Class 4 registers before its base 2 and that before its base 1. *)
Lemma registry_answers_declared_witness :
  GenerationDistance (registry_of [(4, 2); (2, 1); (5, 1); (1, kObj)] [5]) 1 4 = 2 /\
  GenerationDistance (registry_of [(4, 2); (2, 1); (5, 1); (1, kObj)] [5]) 1 5 = -1.
Proof.
  assert (cpp_classes [(4, 2); (2, 1); (5, 1); (1, kObj)] (fun c => if c =? kObj then 0%nat else Z.to_nat c)) as H.
  { split.
    - intros c b b' H1 H2. rewrite !elem_of_cons, elem_of_nil in H1. rewrite !elem_of_cons, elem_of_nil in H2.
      naive_solver.
    - intros c b H. rewrite !elem_of_cons, elem_of_nil in H.
      destruct H as [[= -> ->]|[[= -> ->]|[[= -> ->]|[[= -> ->]|[]]]]]; vm_compute; lia. }
  split.
  - apply (proj1 (registry_answers_declared _ _ [5] 1 4 H) 2%nat).
    split; [split; [set_solver|by intros Hx%list_elem_of_singleton]|].
    split; [split; [set_solver|by intros Hx%list_elem_of_singleton]|].
    apply (der_step _ _ 1 2); [set_solver|by vm_compute|by intros Hx%list_elem_of_singleton..|].
    apply (der_step _ _ 2 4); [set_solver|by vm_compute|by intros Hx%list_elem_of_singleton..|]. constructor.
  - apply (proj2 (registry_answers_declared _ _ [5] 1 5 H)). intros n (_ & [_ Hg] & _). set_solver.
Defined.
End ObjRegistryProperties.
