(* ===== verification/ObjDomain.v ===== *)
(** * Saving and loading objects ([obj/domain.*])

    A domain saves an object by writing, for every class of its inheritance
    chain, the members of that class under the id of the object and of the class;
    a member that points to an object is written as the id and the flags of that
    object, which is saved as well, once.  Loading creates the object its stored
    classes call for ([ObjRegistry]), reads its members back and loads the
    objects they point to, unless their flags say that they stay unloaded.
    Objects may point to each other in cycles.

    The identity of an object is its id.  The types of the other members are a
    family with the serialization interface of [MStream]; [layout] lists what
    the [Visit] of a class visits; classes with [Load] and [Save] for several
    versions are in [Versions].  The part of any other class is stored under the
    one version [kCurrentVersion], a constant of the class, which the keys of the
    store here leave out.  Recursion has fuel: running out of it is
    [Undefined], and the theorems show that it does not happen. *)

From stdpp Require Import gmap.
From S2P Require Import Prelude MStream Crc ObjRegistry.
Import ObjRegistry ObjRegistryProperties.

#[local] Set Warnings "-clear-no-such-hyp".

Module Domain.

(** [ObjFlags] *)
Definition kUnloadedByDefault : Z := 1.
Definition kUnloaded : Z := 2.

Definition stays_unloaded (flags : Z) : bool :=
  negb (Z.land flags kUnloadedByDefault =? 0) || negb (Z.land flags kUnloaded =? 0).

(** An [ObjPtr]: it points to an object, or has an id and flags only. *)
Inductive pointer := PLoaded (id : Z) | PUnloaded (id flags : Z).

Section Domain.
Context {ty : Type} {val : ty -> Type} {HS : forall t, Serial (val t)}.

(** A member: the part of the base class, data, a pointer. *)
Inductive kind := KBase (c : Z) | KData (t : ty) | KPtr.
Inductive value := VBase (c : Z) | VData (t : ty) (v : val t) | VPtr (p : pointer).

Record object := {
  o_class : Z;
  o_flags : Z;
  o_members : gmap Z (list value);    (* of every class of the object *)
}.

Abbreviation heap := (gmap Z object).

Variable layout : Z -> list kind.
Variable registry : Registry.

(** ** Saving *)
Section Save.
Variable h : heap.

(** [GetId] and [GetFlags] of a pointer. *)
Definition GetId (p : pointer) : Z :=
  match p with PLoaded i => i | PUnloaded i _ => i end.

Definition GetFlags (p : pointer) : Z :=
  match p with PLoaded i => from_option o_flags 0 (h !! i) | PUnloaded _ f => f end.

(** The cycle detector and what was given to [IDomainFacility::Store]. *)
Record saver := { visited_nodes : gset (Z * Z); stored : gmap (Z * Z) bytes }.

Definition members_of (i c : Z) : list value :=
  match h !! i with Some o => default [] (o_members o !! c) | None => [] end.

(** [operator<<] of an [ObjPtr], before the object is saved. *)
Definition save_pointer (p : pointer) : bytes :=
  save ((GetId p, GetFlags p) : uint 4 * uint 1).

(** [SaveRootImpl]: only a loaded object of a registered class is saved. *)
Definition SaveRootImpl (rec : Z -> Z -> saver -> outcome saver) (p : pointer) (s : saver)
    : outcome saver :=
  match p with
  | PUnloaded _ _ => Defined s
  | PLoaded i =>
      match h !! i with
      | None => Undefined
      | Some o => if IsExisting registry (o_class o) then rec i (o_class o) s else Defined s
      end
  end.

(** The members are visited in order; [out] is the data written so far. *)
Fixpoint save_members (rec : Z -> Z -> saver -> outcome saver) (i : Z) (ms : list value)
    (s : saver) (out : bytes) : outcome (saver * bytes) :=
  match ms with
  | [] => Defined (s, out)
  | VBase c :: ms' => let* s1 := rec i c s in save_members rec i ms' s1 out
  | VData t v :: ms' => save_members rec i ms' s (out ++ save v)
  | VPtr p :: ms' =>
      let* s1 := SaveRootImpl rec p s in
      save_members rec i ms' s1 (out ++ save_pointer p)
  end.

(** [Save] of the part of class [c] of the object [i], with [SaveVersion]. *)
Fixpoint Save (fuel : nat) (i c : Z) (s : saver) : outcome saver :=
  match fuel with
  | 0%nat => Undefined
  | S f =>
      if decide ((i, c) ∈ visited_nodes s) then Defined s else
      let s1 := {| visited_nodes := {[ (i, c) ]} ∪ visited_nodes s; stored := stored s |} in
      let* (s2, out) := save_members (Save f) i (members_of i c) s1 [] in
      Defined {| visited_nodes := visited_nodes s2; stored := <[(i, c) := out]> (stored s2) |}
  end.

Definition SaveRoot (fuel : nat) (p : pointer) (st : gmap (Z * Z) bytes)
    : outcome (gmap (Z * Z) bytes) :=
  let* s := SaveRootImpl (Save fuel) p {| visited_nodes := ∅; stored := st |} in
  Defined (stored s).

End Save.

(** ** Loading *)
Section Load.
Variable store : gmap (Z * Z) bytes.

(** [IDomainFacility::Enumerate] *)
Definition Enumerate (i : Z) : list Z :=
  omap (fun n => if decide (n.1 = i) then Some n.2 else None) (elements (dom store)).

(** The cycle detector and the objects of the domain. *)
Record loader := { l_visited : gset (Z * Z); id_objects_ : heap }.

Definition add_object (i : Z) (o : object) (l : loader) : loader :=
  {| l_visited := l_visited l; id_objects_ := <[i := o]> (id_objects_ l) |}.

(** [LoadRootImpl], with [ConstructObj]. *)
Definition LoadRootImpl (rec : Z -> Z -> loader -> outcome loader) (i flags : Z) (l : loader)
    : outcome (loader * pointer) :=
  if i =? 0 then Defined (l, PUnloaded i flags) else
  match id_objects_ l !! i with
  | Some _ => Defined (l, PLoaded i)
  | None =>
      let* f := GetMostRelatedFactory registry (Enumerate i) in
      match f with
      | None => Defined (l, PUnloaded i flags)
      | Some c =>
          let o := {| o_class := c; o_flags := Z.land flags (255 - kUnloaded); o_members := ∅ |} in
          let* l1 := rec i c (add_object i o l) in Defined (l1, PLoaded i)
      end
  end.

(** [operator>>] of an [ObjPtr]. *)
Definition load_pointer (rec : Z -> Z -> loader -> outcome loader) (r : VectorReader) (l : loader)
    : outcome (loader * pointer * VectorReader) :=
  let '((i, flags), r1) := load (dflt : uint 4 * uint 1) r in
  if stays_unloaded flags then Defined (l, PUnloaded i flags, r1) else
  let* (l1, p) := LoadRootImpl rec i flags l in Defined (l1, p, r1).

Fixpoint load_members (rec : Z -> Z -> loader -> outcome loader) (i : Z) (ks : list kind)
    (r : VectorReader) (l : loader) (acc : list value) : outcome (loader * list value) :=
  match ks with
  | [] => Defined (l, acc)
  | KBase c :: ks' =>
      let* l1 := rec i c l in load_members rec i ks' r l1 (acc ++ [VBase c])
  | KData t :: ks' =>
      let (v, r1) := load (Serial:=HS t) dflt r in
      load_members rec i ks' r1 l (acc ++ [VData t v])
  | KPtr :: ks' =>
      let* (l1, p, r1) := load_pointer rec r l in
      load_members rec i ks' r1 l1 (acc ++ [VPtr p])
  end.

Definition set_members (i c : Z) (vs : list value) (l : loader) : loader :=
  {| l_visited := l_visited l;
     id_objects_ := alter (fun o => {| o_class := o_class o; o_flags := o_flags o;
                                       o_members := <[c := vs]> (o_members o) |})
                          i (id_objects_ l) |}.

(** [Load] of the part of class [c] of the object [i], with [LoadVersion]. *)
Fixpoint Load (fuel : nat) (i c : Z) (l : loader) : outcome loader :=
  match fuel with
  | 0%nat => Undefined
  | S f =>
      if decide ((i, c) ∈ l_visited l) then Defined l else
      let l1 := {| l_visited := {[ (i, c) ]} ∪ l_visited l; id_objects_ := id_objects_ l |} in
      let data := default [] (store !! (i, c)) in
      let* (l2, vs) := load_members (Load f) i (layout c) (new_reader data) l1 [] in
      Defined (set_members i c vs l2)
  end.

Definition LoadRoot (fuel : nat) (i flags : Z) (objects : heap)
    : outcome (heap * pointer) :=
  let* (l, p) := LoadRootImpl (Load fuel) i flags {| l_visited := ∅; id_objects_ := objects |} in
  Defined (id_objects_ l, p).

End Load.
End Domain.

End Domain.

(** ** Properties *)
Module DomainProperties.
Import Domain.

Section RoundTrip.
Context {ty : Type} {val : ty -> Type} {HS : forall t, Serial (val t)}.
Context {HSok : forall t, SerialOk (val t)}.
Variable layout : Z -> list (kind (ty:=ty)).
Variable registry : Registry.
Variable h : gmap Z (object (ty:=ty) (val:=val)).

Abbreviation value := (Domain.value (ty:=ty) (val:=val)).
Abbreviation object := (Domain.object (ty:=ty) (val:=val)).
Abbreviation heap := (gmap Z object).
Abbreviation loader := (Domain.loader (ty:=ty) (val:=val)).

(** A pointer that can be written; a pointer without an object says that it stays
    unloaded, or has no id. *)
Definition pointer_ok (p : pointer) : Prop :=
  match p with
  | PLoaded i => is_Some (h !! i)
  | PUnloaded i f => in_width 32 i /\ in_width 8 f /\ (stays_unloaded f = true \/ i = 0)
  end.

Definition conforms (k : kind (ty:=ty)) (v : value) : Prop :=
  match k, v with
  | KBase c, VBase c' => c = c'
  | KData t, VData t' x => t = t' /\ valid x
  | KPtr, VPtr p => pointer_ok p
  | _, _ => False
  end.

(** The classes of an object. *)
Inductive part (o : object) : Z -> Prop :=
  | part_class : part o (o_class o)
  | part_base c c' ms : part o c -> o_members o !! c = Some ms -> VBase c' ∈ ms -> part o c'.

Record object_ok (i : Z) (o : object) : Prop := {
  ok_id : in_width 32 i /\ i <> 0;
  ok_flags : in_width 8 (o_flags o) /\ Z.land (o_flags o) (255 - kUnloaded) = o_flags o;
  ok_members : forall c ms, o_members o !! c = Some ms -> Forall2 conforms (layout c) ms;
  ok_parts : forall c, is_Some (o_members o !! c) <-> part o c;
  ok_class : IsExisting registry (o_class o) = true /\ IsLast registry (o_class o) = true;
  ok_bases : forall c, part o c -> IsExisting registry c = true -> ancestor registry c (o_class o);
}.

Definition heap_ok : Prop := forall i o, h !! i = Some o -> object_ok i o.

(** ** Saving *)

(** The parts of all objects. *)
Definition nodes : gset (Z * Z) :=
  list_to_set (flat_map (fun '(i, o) => map (fun c => (i, c)) (elements (dom (o_members o))))
                        (map_to_list h)).

Lemma elem_of_nodes i c : (i, c) ∈ nodes <-> exists o, h !! i = Some o /\ is_Some (o_members o !! c).
Proof.
  unfold nodes. rewrite elem_of_list_to_set, list_elem_of_In, in_flat_map. split.
  - intros ([j o] & Hj%list_elem_of_In & Hc). apply elem_of_map_to_list in Hj.
    apply in_map_iff in Hc as (c' & [= -> ->] & Hc%list_elem_of_In).
    exists o. split; [done|]. by apply elem_of_elements, elem_of_dom in Hc.
  - intros (o & Hi & Hc). exists (i, o). split; [by apply list_elem_of_In, elem_of_map_to_list|].
    apply in_map_iff. exists c. split; [done|]. apply list_elem_of_In, elem_of_elements.
    by apply elem_of_dom.
Qed.

(** The data of a part; it does not depend on what else is saved. *)
Definition encode_value (v : value) : bytes :=
  match v with
  | VBase _ => []
  | VData t x => save x
  | VPtr p => save_pointer h p
  end.

Definition encode (ms : list value) : bytes := flat_map encode_value ms.

Definition encoded (n : Z * Z) : bytes := encode (members_of h n.1 n.2).

(** The parts that are saved with a part. *)
Definition follows (i : Z) (v : value) (n : Z * Z) : Prop :=
  match v with
  | VBase c => n = (i, c)
  | VData _ _ => False
  | VPtr (PLoaded j) => exists o, h !! j = Some o /\ n = (j, o_class o)
  | VPtr (PUnloaded _ _) => False
  end.

Hypothesis Hok : heap_ok.

Lemma follows_nodes i c v n :
  (i, c) ∈ nodes -> v ∈ members_of h i c -> follows i v n -> n ∈ nodes.
Proof.
  intros (o & Hi & ms & Hms)%elem_of_nodes Hv Hf. unfold members_of in Hv. rewrite Hi, Hms in Hv.
  simpl in Hv. pose proof (Hok i o Hi) as Ho. destruct v as [c' | t x | [j | j f]]; simpl in Hf; try done.
  - subst n. apply elem_of_nodes. exists o. split; [done|]. apply (ok_parts _ _ Ho).
    eapply part_base; [|exact Hms|exact Hv]. apply (ok_parts _ _ Ho). eauto.
  - destruct Hf as (o' & Hj & ->). apply elem_of_nodes. exists o'. split; [done|].
    apply (ok_parts _ _ (Hok j o' Hj)). constructor.
Qed.

(** What saving adds to the state: new parts with their data, closed under what
    they are saved with. *)
Record saved (s s' : saver) : Prop := {
  saved_visited : visited_nodes s ⊆ visited_nodes s';
  saved_nodes : visited_nodes s' ⊆ visited_nodes s ∪ nodes;
  saved_new : forall n, n ∈ visited_nodes s' -> n ∉ visited_nodes s ->
    stored s' !! n = Some (encoded n) /\
    forall v n', v ∈ members_of h n.1 n.2 -> follows n.1 v n' -> n' ∈ visited_nodes s';
  saved_old : forall n, (n ∈ visited_nodes s \/ n ∉ visited_nodes s') ->
    stored s' !! n = stored s !! n;
}.

Lemma saved_refl s : saved s s.
Proof. split; [done|set_solver|done|done]. Qed.

Lemma saved_trans s1 s2 s3 : saved s1 s2 -> saved s2 s3 -> saved s1 s3.
Proof.
  intros [A1 A2 A3 A4] [B1 B2 B3 B4]. split; [set_solver|set_solver| |].
  - intros n Hn Hno. destruct (decide (n ∈ visited_nodes s2)) as [H2 | H2].
    + destruct (A3 n H2 Hno) as [E F]. split; [rewrite B4 by (by left); done|].
      intros v n' Hv Hf. apply B1. by eapply F.
    + by apply B3.
  - intros n Hn. rewrite B4, A4; [done|set_solver|set_solver].
Qed.

(** The recursive calls are good for states with enough parts visited. *)
Definition save_good (rec : Z -> Z -> saver -> outcome saver) (k : nat) : Prop :=
  forall i c s, (i, c) ∈ nodes -> (size (nodes ∖ visited_nodes s) < k)%nat ->
  exists s', rec i c s = Defined s' /\ saved s s' /\ (i, c) ∈ visited_nodes s'.

Lemma saved_size s s' k :
  saved s s' -> (size (nodes ∖ visited_nodes s) < k)%nat -> (size (nodes ∖ visited_nodes s') < k)%nat.
Proof.
  intros [A _ _ _] Hk. assert (nodes ∖ visited_nodes s' ⊆ nodes ∖ visited_nodes s) by set_solver.
  apply subseteq_size in H. lia.
Qed.

Lemma save_root_good rec k p s :
  save_good rec k -> (size (nodes ∖ visited_nodes s) < k)%nat -> pointer_ok p ->
  exists s', SaveRootImpl registry h rec p s = Defined s' /\ saved s s' /\
    forall i n, follows i (VPtr p) n -> n ∈ visited_nodes s'.
Proof.
  intros Hrec Hk Hp. destruct p as [j | j f]; simpl in *.
  - destruct Hp as [o Ho]. rewrite Ho. destruct (ok_class _ _ (Hok j o Ho)) as [He _]. rewrite He.
    destruct (Hrec j (o_class o) s) as (s' & E & Hs & Hin); [|done|].
    + apply elem_of_nodes. exists o. split; [done|]. apply (ok_parts _ _ (Hok j o Ho)). constructor.
    + exists s'. split_and!; auto. intros _ n (o' & Ho' & ->). assert (o = o') as <- by congruence. done.
  - exists s. split_and!; [done|apply saved_refl|done].
Qed.

Lemma save_members_good rec k i c ms : forall s out,
  save_good rec k -> (size (nodes ∖ visited_nodes s) < k)%nat -> (i, c) ∈ nodes ->
  ms ⊆ members_of h i c -> Forall (fun v => if v is VPtr p then pointer_ok p else True) ms ->
  exists s', save_members registry h rec i ms s out = Defined (s', out ++ encode ms) /\ saved s s' /\
    forall v n, v ∈ ms -> follows i v n -> n ∈ visited_nodes s'.
Proof.
  induction ms as [|v ms IH]; intros s out Hrec Hk Hn Hsub Hp; simpl.
  { exists s. rewrite app_nil_r. split_and!; [done|apply saved_refl|]. intros v n Hv. set_solver. }
  inversion Hp as [|? ? Hpv Hpms]; subst.
  assert (ms ⊆ members_of h i c) as Hsub' by set_solver.
  assert (forall s1 out1, saved s s1 -> (forall n, follows i v n -> n ∈ visited_nodes s1) ->
    out1 = out ++ encode_value v ->
    exists s', save_members registry h rec i ms s1 out1 = Defined (s', out ++ encode (v :: ms)) /\
      saved s s' /\ forall v' n, v' ∈ v :: ms -> follows i v' n -> n ∈ visited_nodes s') as Hgo.
  { intros s1 out1 Hs1 Hf1 ->.
    destruct (IH s1 (out ++ encode_value v) Hrec (saved_size _ _ _ Hs1 Hk) Hn Hsub' Hpms)
      as (s' & E & Hs' & Hf'). exists s'. simpl. rewrite app_assoc. split_and!; [done| |].
    - by eapply saved_trans.
    - intros v' n [-> | Hv']%elem_of_cons Hf; [apply (saved_visited _ _ Hs'); auto | by eapply Hf']. }
  destruct v as [c' | t x | p].
  - destruct (Hrec i c' s) as (s1 & -> & Hs1 & Hin); [|done|].
    { apply (follows_nodes i c (VBase c')); [done|set_solver|done]. }
    apply Hgo; [done|by intros n ->|simpl; by rewrite app_nil_r].
  - apply Hgo; [apply saved_refl|done|done].
  - destruct (save_root_good rec k p s Hrec Hk Hpv) as (s1 & -> & Hs1 & Hf1).
    apply Hgo; [done|by apply Hf1|done].
Qed.

Lemma members_pointers i c :
  (i, c) ∈ nodes -> Forall (fun v => if v is VPtr p then pointer_ok p else True) (members_of h i c).
Proof.
  intros (o & Hi & ms & Hms)%elem_of_nodes. unfold members_of. rewrite Hi, Hms. simpl.
  pose proof (ok_members _ _ (Hok i o Hi) c ms Hms) as H.
  clear Hms. induction H as [|k v ks vs Hkv _ IH]; [constructor|]. constructor; [|exact IH].
  by destruct k, v.
Qed.

Lemma Save_good fuel : save_good (Save registry h fuel) fuel.
Proof.
  induction fuel as [|f IH]; intros i c s Hn Hk; [lia|]. simpl.
  case_decide as Hv; [exists s; split_and!; [done|apply saved_refl|done]|].
  set (s1 := {| visited_nodes := {[(i, c)]} ∪ visited_nodes s; stored := stored s |}).
  destruct (save_members_good (Save registry h f) f i c (members_of h i c) s1 [] IH)
    as (s2 & -> & Hs2 & Hf2); [|done|done|by apply members_pointers|].
  { assert (nodes ∖ visited_nodes s = {[(i, c)]} ∪ (nodes ∖ visited_nodes s1)) as E.
    { simpl. apply set_eq. intros x. destruct (decide (x = (i, c))); set_solver. }
    rewrite E, size_union, size_singleton in Hk by (simpl; set_solver). lia. }
  destruct Hs2 as [A1 A2 A3 A4]. simpl in *. eexists. split; [done|]. split; [|simpl; set_solver].
  split; simpl; [set_solver|set_solver| |].
  - intros n Hn2 Hno. destruct (decide (n = (i, c))) as [-> | Hne].
    + rewrite lookup_insert_eq. split; [done|]. intros v n' Hv' Hfo. by eapply Hf2.
    + rewrite lookup_insert_ne by done. apply A3; [done|set_solver].
  - intros n Hold. rewrite lookup_insert_ne by (intros <-; set_solver). rewrite A4; [done|set_solver].
Qed.

(** Saving an object: all the parts it leads to are stored with their data. *)
Lemma SaveRoot_spec r st :
  is_Some (h !! r) ->
  exists store V, SaveRoot registry h (S (size nodes)) (PLoaded r) st = Defined store /\
    V ⊆ nodes /\ (forall n, n ∈ V -> store !! n = Some (encoded n)) /\
    (forall n, n ∉ V -> store !! n = st !! n) /\
    (forall o, h !! r = Some o -> (r, o_class o) ∈ V) /\
    (forall n v n', n ∈ V -> v ∈ members_of h n.1 n.2 -> follows n.1 v n' -> n' ∈ V).
Proof.
  intros Hr. unfold SaveRoot.
  destruct (save_root_good (Save registry h (S (size nodes))) (S (size nodes)) (PLoaded r)
    {| visited_nodes := ∅; stored := st |} (Save_good _)) as (s' & -> & [A1 A2 A3 A4] & Hf); [|done|].
  { simpl. rewrite difference_empty_L. lia. }
  exists (stored s'), (visited_nodes s'). simpl in *. split_and!; [done|set_solver| | | |].
  - intros n Hn. apply A3; set_solver.
  - intros n Hn. apply A4. by right.
  - intros o Ho. apply (Hf 0). eauto.
  - intros n v n' Hn Hv Hfo. eapply A3; [exact Hn|set_solver|exact Hv|exact Hfo].
Qed.

(** ** Loading *)

(** A loaded object: pointers to objects that stay unloaded have no object. *)
Definition view_pointer (p : pointer) : pointer :=
  match p with
  | PLoaded j => if stays_unloaded (GetFlags h p) then PUnloaded j (GetFlags h p) else p
  | PUnloaded _ _ => p
  end.

Definition view_value (v : value) : value :=
  match v with VPtr p => VPtr (view_pointer p) | _ => v end.

Definition view_object (o : object) : object :=
  {| o_class := o_class o; o_flags := o_flags o; o_members := map view_value <$> o_members o |}.

(** What was saved. *)
Variable store : gmap (Z * Z) bytes.
Hypothesis store_nodes : dom store ⊆ nodes.
Hypothesis store_data : forall n, n ∈ dom store -> store !! n = Some (encoded n).
Hypothesis store_closed : forall n v n',
  n ∈ dom store -> v ∈ members_of h n.1 n.2 -> follows n.1 v n' -> n' ∈ dom store.
Variable rank : Z -> nat.
Hypothesis Hreg : hierarchy registry rank.

Lemma elem_of_Enumerate i c : c ∈ Enumerate store i <-> (i, c) ∈ dom store.
Proof.
  unfold Enumerate. rewrite list_elem_of_omap. split.
  - intros ([j c'] & Hj & E). apply elem_of_elements in Hj. simpl in E. case_decide; [|done].
    subst. by injection E as ->.
  - intros Hi. exists (i, c). split; [by apply elem_of_elements|]. simpl. by rewrite decide_True.
Qed.

Lemma NoDup_Enumerate i : NoDup (Enumerate store i).
Proof.
  unfold Enumerate. pose proof (NoDup_elements (dom store)) as Hnd.
  induction Hnd as [|[j c] l Hn _ IH]; simpl; [constructor|].
  case_decide as E; simpl in E; [|done]. apply list.NoDup_cons. split; [|done].
  rewrite list_elem_of_omap. intros ([j' c'] & Hj & E'). simpl in E'. case_decide; [|done].
  subst. by injection E' as ->.
Qed.

(** The class found for a saved object is its class. *)
Lemma factory_of i o :
  h !! i = Some o -> (i, o_class o) ∈ dom store ->
  GetMostRelatedFactory registry (Enumerate store i) = Defined (Some (o_class o)).
Proof.
  intros Hi Hin. pose proof (Hok i o Hi) as Ho. destruct (ok_class _ _ Ho) as [He Hl].
  set (cs := filter (fun c => IsExisting registry c = true) (Enumerate store i)).
  assert (o_class o ∈ cs) as Hc.
  { apply list_elem_of_filter. split; [done|]. by apply elem_of_Enumerate. }
  assert (forall c, c ∈ cs -> IsExisting registry c = true /\ ancestor registry c (o_class o)) as Hcs.
  { intros c [Hex Hin']%list_elem_of_filter. split; [done|]. apply (ok_bases _ _ Ho); [|done].
    apply elem_of_Enumerate, store_nodes, elem_of_nodes in Hin' as (o' & Hi' & Hm).
    rewrite Hi in Hi'. injection Hi' as <-. by apply (ok_parts _ _ Ho). }
  assert (in_line registry cs) as Hline.
  { split_and!; [apply list.NoDup_filter, NoDup_Enumerate|by intros x [Hx _]%Hcs|].
    intros x y [_ [n Hn]]%Hcs [_ [m Hm]]%Hcs. destruct (Nat.le_ge_cases n m).
    - right. exists (m - n)%nat. by eapply generations_line.
    - left. exists (n - m)%nat. by eapply generations_line. }
  assert (cs <> []) as Hne by (intros E; rewrite E in Hc; by apply elem_of_nil in Hc).
  destruct (most_related registry rank Hreg (Enumerate store i) Hne Hline) as (f & -> & Hfl & Hfa).
  destruct (Hfa _ Hc) as [n Hn]. inversion Hn as [|? c ? ? (cs' & Hcs' & _) _]; subst; [done|].
  unfold IsLast in Hl. by rewrite Hcs' in Hl.
Qed.

Definition linv (l : loader) : Prop :=
  forall i c, (i, c) ∈ l_visited l -> is_Some (id_objects_ l !! i).

Definition members_at (l : loader) (i c : Z) : option (list value) :=
  id_objects_ l !! i ≫= fun o => o_members o !! c.

(** What loading adds. *)
Record loaded (l l' : loader) : Prop := {
  loaded_visited : l_visited l ⊆ l_visited l';
  loaded_new : forall i c, (i, c) ∈ l_visited l' -> (i, c) ∉ l_visited l ->
    (i, c) ∈ dom store /\ is_Some (id_objects_ l' !! i) /\
    members_at l' i c = Some (map view_value (members_of h i c)) /\
    (forall c', VBase c' ∈ members_of h i c -> (i, c') ∈ l_visited l') /\
    (forall j, VPtr (PLoaded j) ∈ map view_value (members_of h i c) -> is_Some (id_objects_ l' !! j));
  loaded_kept : forall i o, id_objects_ l !! i = Some o ->
    exists o', id_objects_ l' !! i = Some o' /\ o_class o' = o_class o /\ o_flags o' = o_flags o /\
      forall c, ((i, c) ∈ l_visited l \/ (i, c) ∉ l_visited l') -> o_members o' !! c = o_members o !! c;
  loaded_fresh : forall i o', id_objects_ l' !! i = Some o' -> id_objects_ l !! i = None ->
    exists o, h !! i = Some o /\ o_class o' = o_class o /\ o_flags o' = o_flags o /\
      (i, o_class o) ∈ l_visited l' /\
      forall c, (i, c) ∉ l_visited l' -> o_members o' !! c = None;
}.

Lemma loaded_refl l : loaded l l.
Proof.
  split; [done|done| |].
  - intros i o Hi. exists o. auto.
  - intros i o' H1 H2. congruence.
Qed.

Lemma loaded_some l l' i : loaded l l' -> is_Some (id_objects_ l !! i) -> is_Some (id_objects_ l' !! i).
Proof. intros H [o Ho]. destruct (loaded_kept _ _ H i o Ho) as (o' & -> & _). eauto. Qed.

Lemma loaded_linv l l' : loaded l l' -> linv l -> linv l'.
Proof.
  intros H Hl i c Hi. destruct (decide ((i, c) ∈ l_visited l)) as [Hin | Hno].
  - eapply loaded_some; eauto.
  - by destruct (loaded_new _ _ H i c Hi Hno) as (_ & ? & _).
Qed.

Lemma loaded_trans l1 l2 l3 : linv l1 -> loaded l1 l2 -> loaded l2 l3 -> loaded l1 l3.
Proof.
  intros Hl A B. pose proof (loaded_linv _ _ A Hl) as Hl2.
  pose proof (loaded_visited _ _ A) as VA. pose proof (loaded_visited _ _ B) as VB.
  split; [set_solver| | |].
  - intros i c Hi Hno. destruct (decide ((i, c) ∈ l_visited l2)) as [H2 | H2].
    2:{ by apply (loaded_new _ _ B). }
    destruct (loaded_new _ _ A i c H2 Hno) as (N1 & [o2 N2] & N3 & N4 & N5).
    destruct (loaded_kept _ _ B i o2 N2) as (o3 & E3 & _ & _ & M3).
    split_and!; [done|by eexists| | |].
    + unfold members_at in *. rewrite E3. rewrite N2 in N3. simpl in *. by rewrite M3 by (by left).
    + intros c' Hc'. apply VB. auto.
    + intros j Hj. eapply loaded_some; [exact B|]. auto.
  - intros i o Hi. destruct (loaded_kept _ _ A i o Hi) as (o2 & E2 & C2 & F2 & M2).
    destruct (loaded_kept _ _ B i o2 E2) as (o3 & E3 & C3 & F3 & M3).
    exists o3. split_and!; [done|congruence|congruence|]. intros c Hc. rewrite M3, M2; [done|set_solver|set_solver].
  - intros i o3 E3 Hno. destruct (id_objects_ l2 !! i) as [o2|] eqn:E2.
    + destruct (loaded_fresh _ _ A i o2 E2 Hno) as (o & Ho & C2 & F2 & V2 & M2).
      destruct (loaded_kept _ _ B i o2 E2) as (o3' & E3' & C3 & F3 & M3).
      rewrite E3 in E3'. injection E3' as <-.
      exists o. split_and!; [done|congruence|congruence|set_solver|].
      intros c Hc. rewrite M3 by (by right). apply M2. set_solver.
    + destruct (loaded_fresh _ _ B i o3 E3 E2) as (o & Ho & C & F & Vn & M).
      exists o. split_and!; auto.
Qed.

(** A new object, then what its loading adds. *)
Lemma loaded_add l l' i o :
  linv l -> id_objects_ l !! i = None -> h !! i = Some o ->
  loaded (add_object i {| o_class := o_class o; o_flags := o_flags o; o_members := ∅ |} l) l' ->
  (i, o_class o) ∈ l_visited l' -> loaded l l'.
Proof.
  intros Hl Hno Ho A Hv. split.
  - apply (loaded_visited _ _ A).
  - apply (loaded_new _ _ A).
  - intros j oj Hj. apply (loaded_kept _ _ A j oj). simpl.
    rewrite lookup_insert_ne; [done|]. intros <-. congruence.
  - intros j oj Hj Hnj. destruct (decide (j = i)) as [-> | Hne].
    + destruct (loaded_kept _ _ A i _ (lookup_insert_eq _ _ _)) as (o' & E & C & F & M).
      rewrite Hj in E. injection E as <-. simpl in *. exists o. split_and!; auto.
    + apply (loaded_fresh _ _ A j oj Hj). simpl. by rewrite lookup_insert_ne.
Qed.

Lemma linv_add l i o : linv l -> linv (add_object i o l).
Proof.
  intros Hl j c Hj. simpl. destruct (decide (j = i)) as [-> | Hne];
    [rewrite lookup_insert_eq; eauto|]. rewrite lookup_insert_ne by done. by apply (Hl j c).
Qed.

Definition load_good (rec : Z -> Z -> loader -> outcome loader) (k : nat) : Prop :=
  forall i c l, (i, c) ∈ dom store -> linv l -> is_Some (id_objects_ l !! i) ->
  (size (nodes ∖ l_visited l) < k)%nat ->
  exists l', rec i c l = Defined l' /\ loaded l l' /\ (i, c) ∈ l_visited l'.

Lemma loaded_size l l' k :
  loaded l l' -> (size (nodes ∖ l_visited l) < k)%nat -> (size (nodes ∖ l_visited l') < k)%nat.
Proof.
  intros H Hk. pose proof (loaded_visited _ _ H).
  assert (nodes ∖ l_visited l' ⊆ nodes ∖ l_visited l) as Hs by set_solver.
  apply subseteq_size in Hs. lia.
Qed.

(** An object that was saved is loaded, or was already. *)
Lemma load_root_good rec k i o l :
  load_good rec k -> linv l -> (size (nodes ∖ l_visited l) < k)%nat ->
  h !! i = Some o -> (i, o_class o) ∈ dom store ->
  exists l', LoadRootImpl registry store rec i (o_flags o) l = Defined (l', PLoaded i) /\ loaded l l' /\
    is_Some (id_objects_ l' !! i).
Proof.
  intros Hrec Hl Hk Ho Hin. unfold LoadRootImpl. pose proof (Hok i o Ho) as Hoo.
  destruct (ok_id _ _ Hoo) as [_ Hi0]. destruct (ok_flags _ _ Hoo) as [_ Hf].
  rewrite (proj2 (Z.eqb_neq _ _) Hi0).
  destruct (id_objects_ l !! i) as [o1|] eqn:E; [exists l; split_and!; [done|apply loaded_refl|eauto]|].
  rewrite (factory_of i o Ho Hin), Hf.
  destruct (Hrec i (o_class o) (add_object i {| o_class := o_class o; o_flags := o_flags o; o_members := ∅ |} l))
    as (l' & -> & A & Hv); [done|by apply linv_add|simpl; rewrite lookup_insert_eq; eauto|done|].
  exists l'. split_and!; [done|by eapply loaded_add|].
  eapply loaded_some; [exact A|]. simpl. rewrite lookup_insert_eq. eauto.
Qed.

Lemma load_pointer_good rec k p l pre post r :
  load_good rec k -> linv l -> (size (nodes ∖ l_visited l) < k)%nat -> pointer_ok p ->
  (forall n, follows 0 (VPtr p) n -> n ∈ dom store) ->
  exists l', load_pointer registry store rec (at_pos pre (save_pointer h p) post r) l
    = Defined (l', view_pointer p, past pre (save_pointer h p) post r) /\ loaded l l' /\
    forall j, view_pointer p = PLoaded j -> is_Some (id_objects_ l' !! j).
Proof.
  intros Hrec Hl Hk Hp Hin. unfold load_pointer, save_pointer.
  assert (in_width 32 (GetId p) /\ in_width 8 (GetFlags h p)) as Hw.
  { destruct p as [j | j f]; simpl in *; [|tauto]. destruct Hp as [o Ho]. rewrite Ho.
    destruct (Hok j o Ho) as [[? _] [? _] _ _ _ _]. done. }
  assert (valid (T:=uint 4 * uint 1) (GetId p, GetFlags h p)) as Hw' by (exact Hw).
  rewrite (load_save (T:=uint 4 * uint 1) (GetId p, GetFlags h p) pre post r Hw').
  destruct p as [j | j f]; simpl in *.
  - destruct Hp as [o Ho]. rewrite Ho. simpl. destruct (stays_unloaded (o_flags o)) eqn:Es.
    { exists l. split_and!; [done|apply loaded_refl|done]. }
    destruct (load_root_good rec k j o l Hrec Hl Hk Ho) as (l' & -> & A & Hj); [by apply Hin; eauto|].
    exists l'. split_and!; [done|done|]. by intros j' [= <-].
  - destruct Hp as (_ & _ & [-> | ->]).
    + exists l. split_and!; [done|apply loaded_refl|done].
    + exists l. split_and!; [|apply loaded_refl|done]. unfold LoadRootImpl. simpl.
      by destruct (stays_unloaded f).
Qed.

(** The members of a part, read from its data. *)
Lemma load_members_good rec k i c ks ms : Forall2 conforms ks ms -> forall l acc pre post r,
  load_good rec k -> linv l -> is_Some (id_objects_ l !! i) -> (size (nodes ∖ l_visited l) < k)%nat ->
  (i, c) ∈ dom store -> ms ⊆ members_of h i c ->
  exists l', load_members registry store rec i ks (at_pos pre (encode ms) post r) l acc
    = Defined (l', acc ++ map view_value ms) /\ loaded l l' /\
    (forall c', VBase c' ∈ ms -> (i, c') ∈ l_visited l') /\
    (forall j, VPtr (PLoaded j) ∈ map view_value ms -> is_Some (id_objects_ l' !! j)).
Proof.
  intros HF. induction HF as [|kd v ks ms Hkv HF IH]; intros l acc pre post r Hrec Hl Hi Hk Hin Hsub.
  { exists l. simpl. rewrite app_nil_r. split_and!; [done|apply loaded_refl|set_solver|set_solver]. }
  assert (ms ⊆ members_of h i c) as Hsub' by set_solver.
  assert (v ∈ members_of h i c) as Hv by set_solver.
  assert (forall l1 r1, loaded l l1 -> r1 = past pre (encode_value v) (encode ms ++ post) r ->
    (forall c', v = VBase c' -> (i, c') ∈ l_visited l1) ->
    (forall j, view_value v = VPtr (PLoaded j) -> is_Some (id_objects_ l1 !! j)) ->
    exists l', load_members registry store rec i ks r1 l1 (acc ++ [view_value v])
      = Defined (l', acc ++ map view_value (v :: ms)) /\ loaded l l' /\
      (forall c', VBase c' ∈ v :: ms -> (i, c') ∈ l_visited l') /\
      (forall j, VPtr (PLoaded j) ∈ map view_value (v :: ms) -> is_Some (id_objects_ l' !! j))) as Hgo.
  { intros l1 r1 A -> Hb Hp. rewrite past_at_pos.
    destruct (IH l1 (acc ++ [view_value v]) (pre ++ encode_value v) post (yes_if (encode_value v) r)
      Hrec (loaded_linv _ _ A Hl) (loaded_some _ _ _ A Hi) (loaded_size _ _ _ A Hk) Hin Hsub')
      as (l' & E & A' & Hb' & Hp'). exists l'. rewrite E, <- app_assoc. split_and!; [done| | |].
    - by eapply loaded_trans.
    - intros c' [E' | Hc']%elem_of_cons; [apply (loaded_visited _ _ A'); by apply Hb | auto].
    - intros j. simpl. intros [E' | Hj]%elem_of_cons; [|auto]. eapply loaded_some; [exact A'|]. by apply Hp. }
  simpl encode. rewrite at_pos_app.
  destruct kd as [c1 | t | ], v as [c2 | t' x | p]; simpl in Hkv; try done.
  - subst c2. simpl. destruct (Hrec i c1 l) as (l1 & -> & A & Hv1); [|done|done|done|].
    { apply (store_closed (i, c) (VBase c1)); [done|done|done]. }
    apply Hgo; [done| |by intros c' [= ->]|done]. unfold past, at_pos. simpl. by rewrite Nat.add_0_r.
  - destruct Hkv as [-> Hval]. simpl. rewrite (load_save x pre _ r Hval).
    apply Hgo; [apply loaded_refl|done|done|done].
  - simpl. destruct (load_pointer_good rec k p l pre (encode ms ++ post) r Hrec Hl Hk Hkv)
      as (l1 & -> & A & Hp).
    { intros n Hn. apply (store_closed (i, c) (VPtr p)); [done|done|]. by destruct p. }
    apply Hgo; [done|done|done|]. intros j [= Hj]. by apply Hp.
Qed.

(** The members of a part are set when all of them were read. *)
Lemma loaded_set l l2 i c :
  (i, c) ∈ dom store -> (i, c) ∉ l_visited l -> is_Some (id_objects_ l !! i) ->
  loaded {| l_visited := {[(i, c)]} ∪ l_visited l; id_objects_ := id_objects_ l |} l2 ->
  (forall c', VBase c' ∈ members_of h i c -> (i, c') ∈ l_visited l2) ->
  (forall j, VPtr (PLoaded j) ∈ map view_value (members_of h i c) -> is_Some (id_objects_ l2 !! j)) ->
  loaded l (set_members i c (map view_value (members_of h i c)) l2).
Proof.
  intros Hin Hno [oi Hoi] A Hb Hp. pose proof (loaded_visited _ _ A) as VA. simpl in VA.
  set (l3 := set_members i c _ l2).
  assert (forall j, is_Some (id_objects_ l2 !! j) -> is_Some (id_objects_ l3 !! j)) as Hsome.
  { intros j [oj Hj]. simpl. destruct (decide (j = i)) as [-> | Hne];
      [rewrite lookup_alter_eq, Hj; simpl; eauto | rewrite lookup_alter_ne by done; eauto]. }
  assert (forall j c', (j, c') <> (i, c) -> members_at l3 j c' = members_at l2 j c') as Hother.
  { intros j c' Hne. unfold members_at. simpl. destruct (decide (j = i)) as [-> | Hji].
    - rewrite lookup_alter_eq. destruct (id_objects_ l2 !! i); [|done]. simpl.
      rewrite lookup_insert_ne; [done|]. congruence.
    - by rewrite lookup_alter_ne. }
  destruct (loaded_kept _ _ A i oi Hoi) as (o2 & E2 & C2 & F2 & M2). simpl in M2.
  split; simpl.
  - set_solver.
  - intros j c' Hj Hn. destruct (decide ((j, c') = (i, c))) as [[= -> ->] | Hne].
    + split_and!; [done|by apply Hsome; eauto| |done|intros j Hj'; apply Hsome; auto].
      unfold members_at. simpl. rewrite lookup_alter_eq, E2. simpl. apply lookup_insert_eq.
    + destruct (loaded_new _ _ A j c' Hj) as (N1 & N2 & N3 & N4 & N5); [simpl; set_solver|].
      split_and!; [done|by apply Hsome|by rewrite Hother|done|]. intros j' Hj'. apply Hsome. auto.
  - intros j oj Hj. destruct (decide (j = i)) as [-> | Hji].
    + rewrite Hoi in Hj. injection Hj as <-. rewrite lookup_alter_eq, E2. simpl. eexists. split; [done|].
      simpl. split_and!; [done|done|]. intros c' Hc'.
      rewrite lookup_insert_ne by (intros <-; set_solver). apply M2. set_solver.
    + rewrite lookup_alter_ne by done. destruct (loaded_kept _ _ A j oj Hj) as (o' & E' & C' & F' & M').
      exists o'. split_and!; [done|done|done|]. intros c' Hc'. apply M'. simpl. set_solver.
  - intros j oj Hj Hn. destruct (decide (j = i)) as [-> | Hji]; [congruence|].
    rewrite lookup_alter_ne in Hj by done. by apply (loaded_fresh _ _ A j oj Hj).
Qed.

Lemma Load_good fuel : load_good (Load layout registry store fuel) fuel.
Proof.
  induction fuel as [|f IH]; intros i c l Hin Hl Hi Hk; [lia|]. simpl.
  case_decide as Hv; [exists l; split_and!; [done|apply loaded_refl|done]|].
  set (l1 := {| l_visited := {[(i, c)]} ∪ l_visited l; id_objects_ := id_objects_ l |}).
  assert ((i, c) ∈ nodes) as Hnode by (by apply store_nodes).
  pose proof Hnode as (o & Ho & ms & Hms)%elem_of_nodes.
  assert (members_of h i c = ms) as Hmem by (unfold members_of; by rewrite Ho, Hms).
  rewrite (store_data (i, c) Hin). simpl default. unfold encoded. simpl. rewrite Hmem.
  replace (new_reader (encode ms)) with (at_pos [] (encode ms) [] kNo)
    by (unfold at_pos, new_reader; simpl; by rewrite app_nil_r).
  destruct (load_members_good (Load layout registry store f) f i c (layout c) ms
    (ok_members _ _ (Hok i o Ho) c ms Hms) l1 [] [] [] kNo IH)
    as (l2 & -> & A & Hb & Hp); [|done| |done|by rewrite Hmem|].
  { intros j c' Hj. simpl in *. apply elem_of_union in Hj as [Hj | Hj]; [|by apply (Hl j c')].
    apply elem_of_singleton in Hj. by injection Hj as -> ->. }
  { assert (nodes ∖ l_visited l = {[(i, c)]} ∪ (nodes ∖ l_visited l1)) as E.
    { simpl. apply set_eq. intros x. destruct (decide (x = (i, c))); set_solver. }
    rewrite E, size_union, size_singleton in Hk by (simpl; set_solver). lia. }
  eexists. split; [done|]. split; [|simpl; apply (loaded_visited _ _ A); simpl; set_solver].
  rewrite <- Hmem. apply loaded_set; rewrite ?Hmem; done.
Qed.

(** All classes of a loaded object are loaded. *)
Lemma loaded_parts l' i o c :
  loaded {| l_visited := ∅; id_objects_ := ∅ |} l' -> h !! i = Some o ->
  (i, o_class o) ∈ l_visited l' -> part o c -> (i, c) ∈ l_visited l'.
Proof.
  intros A Ho Hv Hp. induction Hp as [|c c' ms _ IH Hms Hc']; [done|].
  destruct (loaded_new _ _ A i c IH) as (_ & _ & _ & Hb & _); [set_solver|].
  apply Hb. unfold members_of. by rewrite Ho, Hms.
Qed.

Lemma LoadRoot_spec r o :
  h !! r = Some o -> (r, o_class o) ∈ dom store ->
  exists L, LoadRoot layout registry store (S (size nodes)) r (o_flags o) ∅ = Defined (L, PLoaded r) /\
    is_Some (L !! r) /\
    (forall i oi, L !! i = Some oi -> exists o, h !! i = Some o /\ oi = view_object o) /\
    (forall i oi c ms j, L !! i = Some oi -> o_members oi !! c = Some ms ->
       VPtr (PLoaded j) ∈ ms -> is_Some (L !! j)).
Proof.
  intros Ho Hin. unfold LoadRoot.
  destruct (load_root_good (Load layout registry store (S (size nodes))) (S (size nodes)) r o
    {| l_visited := ∅; id_objects_ := ∅ |} (Load_good _)) as (l' & -> & A & Hr); auto.
  { intros i c Hi. simpl in Hi. set_solver. }
  { simpl. rewrite difference_empty_L. lia. }
  exists (id_objects_ l'). split_and!; [done|done| |].
  - intros i oi Hi. destruct (loaded_fresh _ _ A i oi Hi (lookup_empty _)) as (oh & Hh & C & F & V & M).
    exists oh. split; [done|]. destruct oi as [ci fi mi]. simpl in *. unfold view_object. f_equal; auto.
    apply map_eq. intros c. rewrite lookup_fmap.
    destruct (decide ((i, c) ∈ l_visited l')) as [Hv | Hv].
    + destruct (loaded_new _ _ A i c Hv) as (N1 & _ & N3 & _); [set_solver|].
      unfold members_at in N3. rewrite Hi in N3. simpl in N3. rewrite N3.
      apply store_nodes, elem_of_nodes in N1 as (o' & Ho' & ms & Hms).
      rewrite Hh in Ho'. injection Ho' as <-. unfold members_of. by rewrite Hh, Hms.
    + rewrite (M c Hv). destruct (o_members oh !! c) as [ms|] eqn:E; [|done]. destruct Hv.
      eapply loaded_parts; eauto. apply (ok_parts _ _ (Hok i oh Hh)). eauto.
  - intros i oi c ms j Hi Hms Hj.
    destruct (loaded_fresh _ _ A i oi Hi (lookup_empty _)) as (oh & Hh & C & F & V & M).
    destruct (decide ((i, c) ∈ l_visited l')) as [Hv | Hv]; [|by rewrite (M c Hv) in Hms].
    destruct (loaded_new _ _ A i c Hv) as (_ & _ & N3 & _ & N5); [set_solver|].
    unfold members_at in N3. rewrite Hi in N3. simpl in N3. rewrite Hms in N3. injection N3 as ->.
    by apply N5.
Qed.
End RoundTrip.

(** C2: Saving a graph of objects and loading it again.  The objects an object
    leads to, through members and through cycles, are all saved; loading the
    object into an empty domain ends, creates every object with its class, its
    flags and its members of all its classes, each object once, and every pointer
    that is loaded points to an object that was created.  Pointers to objects
    whose flags say that they stay unloaded keep the id and the flags only. *)
Theorem save_load_roundtrip {ty : Type} {val : ty -> Type} {HS : forall t, Serial (val t)}
    {HSok : forall t, SerialOk (val t)} (layout : Z -> list (kind (ty:=ty)))
    (registry : Registry) (rank : Z -> nat) (h : gmap Z (object (ty:=ty) (val:=val))) r o :
  heap_ok layout registry h -> hierarchy registry rank -> h !! r = Some o ->
  exists store L,
    SaveRoot registry h (S (size (nodes h))) (PLoaded r) ∅ = Defined store /\
    LoadRoot layout registry store (S (size (nodes h))) r (o_flags o) ∅ = Defined (L, PLoaded r) /\
    is_Some (L !! r) /\
    (forall i oi, L !! i = Some oi -> exists o, h !! i = Some o /\ oi = view_object h o) /\
    (forall i oi c ms j, L !! i = Some oi -> o_members oi !! c = Some ms ->
       VPtr (PLoaded j) ∈ ms -> is_Some (L !! j)).
Proof.
  intros Hok Hreg Ho.
  destruct (SaveRoot_spec layout registry h Hok r ∅ ltac:(eauto)) as (store & V & Es & S1 & S2 & S3 & S4 & S5).
  assert (dom store = V) as HV.
  { apply set_eq. intros n. rewrite elem_of_dom. split.
    - intros [x Hx]. destruct (decide (n ∈ V)) as [|Hn]; [done|]. by rewrite S3, lookup_empty in Hx.
    - intros Hn. rewrite S2 by done. eauto. }
  destruct (LoadRoot_spec layout registry h Hok store) with (rank := rank) (r := r) (o := o)
    as (L & El & L1 & L2 & L3); rewrite ?HV; auto.
  exists store, L. auto 10.
Qed.

(** Objects 1 and 2 of the class 20, derived from 10, point to each other; 2 also
    points to 3, which is unloaded by default. *)
Definition sample_layout (c : Z) : list (kind (ty:=unit)) :=
  if c =? 20 then [KBase 10; KPtr; KPtr] else if c =? 10 then [KData tt] else [].

Abbreviation sample_val := (fun _ : unit => uint 4).

Definition sample_object (flags x : Z) (p q : pointer) : object (ty:=unit) (val:=sample_val) :=
  {| o_class := 20; o_flags := flags;
     o_members := {[ 20 := [VBase 10; VPtr p; VPtr q]; 10 := [VData (val:=sample_val) tt x] ]} |}.

Definition sample_heap : gmap Z (object (ty:=unit) (val:=sample_val)) :=
  {[ 1 := sample_object 0 7 (PLoaded 2) (PUnloaded 0 2);
     2 := sample_object 0 8 (PLoaded 1) (PLoaded 3);
     3 := sample_object 1 9 (PUnloaded 0 2) (PUnloaded 0 2) ]}.

Definition sample_classes : Registry := new_registry (RegisterClass 20 10 (RegisterClass 10 kObj empty_tables)).

Lemma sample_classes_child b c : child sample_classes b c -> b = 10 /\ c = 20.
Proof.
  assert (map_Forall (fun b cs => Forall (fun c => b = 10 /\ c = 20) cs)
            (base_to_derived_ sample_classes)) as H.
  { apply (bool_decide_unpack _). vm_compute. exact I. }
  intros (cs & Hb & Hc). by apply (proj1 (list.Forall_forall _ _) (H b cs Hb) c).
Qed.

Lemma sample_classes_hierarchy : hierarchy sample_classes Z.to_nat.
Proof.
  split.
  - intros b b' c [-> _]%sample_classes_child [-> _]%sample_classes_child. done.
  - intros b c [-> ->]%sample_classes_child. lia.
  - intros b c [-> ->]%sample_classes_child. vm_compute. reflexivity.
  - intros b Hb. assert (map_Forall (fun _ cs => cs <> []) (base_to_derived_ sample_classes)) as H.
    { apply (bool_decide_unpack _). vm_compute. exact I. }
    by apply (H b [] Hb).
Qed.

Lemma sample_object_ok i flags x p q :
  in_width 32 i -> i <> 0 -> flags = 0 \/ flags = 1 -> in_width 32 x ->
  pointer_ok sample_heap p -> pointer_ok sample_heap q ->
  object_ok sample_layout sample_classes sample_heap i (sample_object flags x p q).
Proof.
  intros Hi Hi0 Hf Hx Hp Hq.
  assert (forall c ms, o_members (sample_object flags x p q) !! c = Some ms ->
    (c = 20 /\ ms = [VBase 10; VPtr p; VPtr q]) \/ (c = 10 /\ ms = [VData (val:=sample_val) tt x])) as Hm.
  { intros c ms. simpl. intros [[<- <-] | [_ [<- <-]%lookup_singleton_Some]]%lookup_insert_Some; auto. }
  assert (forall c, part (sample_object flags x p q) c -> c = 20 \/ c = 10) as Hpart.
  { intros c Hc. destruct Hc as [|c c' ms _ Hms Hc']; [by left|]. right.
    destruct (Hm c ms Hms) as [[_ ->] | [_ ->]]; set_solver. }
  split.
  - done.
  - destruct Hf as [-> | ->]; split; vm_compute; try done; split; congruence.
  - intros c ms [[-> ->] | [-> ->]]%Hm; unfold sample_layout; simpl;
      repeat (apply List.Forall2_cons); try apply List.Forall2_nil; done.
  - intros c. split.
    + intros [ms [[-> ->] | [-> ->]]%Hm]; [constructor|].
      eapply (part_base _ 20); [constructor|reflexivity|]. apply list_elem_of_here.
    + intros [-> | ->]%Hpart; eexists; reflexivity.
  - split; vm_compute; reflexivity.
  - intros c [-> | ->]%Hpart _; [exists 0%nat; constructor|]. exists 1%nat.
    econstructor; [|constructor]. exists [20]. split; [vm_compute; reflexivity|]. apply list_elem_of_here.
Qed.

Lemma save_load_roundtrip_witness :
  exists store L,
    SaveRoot sample_classes sample_heap (S (size (nodes sample_heap))) (PLoaded 1) ∅ = Defined store /\
    LoadRoot sample_layout sample_classes store (S (size (nodes sample_heap))) 1 0 ∅
    = Defined (L, PLoaded 1) /\
    is_Some (L !! 1) /\
    (forall i oi, L !! i = Some oi ->
       exists o, sample_heap !! i = Some o /\ oi = view_object sample_heap o) /\
    (forall i oi c ms j, L !! i = Some oi -> o_members oi !! c = Some ms ->
       VPtr (PLoaded j) ∈ ms -> is_Some (L !! j)).
Proof.
  apply (save_load_roundtrip sample_layout sample_classes Z.to_nat sample_heap 1
           (sample_object 0 7 (PLoaded 2) (PUnloaded 0 2))).
  - intros i o Hi. unfold sample_heap in Hi.
    apply lookup_insert_Some in Hi as [[<- <-] | [_ Hi]];
      [|apply lookup_insert_Some in Hi as [[<- <-] | [_ [<- <-]%lookup_singleton_Some]]];
      (apply sample_object_ok; [split; lia|lia|auto|split; lia| |]);
      simpl; try (by eexists; reflexivity); (split_and!; [split; lia|split; lia|by left]).
  - exact sample_classes_hierarchy.
  - reflexivity.
Defined.

(** The sample evaluated: 2 points back to 1, and 3 stays unloaded. *)
Definition sample_reload : outcome (gmap Z (object (ty:=unit) (val:=sample_val))) :=
  let* store := SaveRoot (val:=sample_val) sample_classes sample_heap 9 (PLoaded 1) ∅ in
  let* (L, _) := LoadRoot (val:=sample_val) sample_layout sample_classes store 9 1 0 ∅ in
  Defined L.

Definition sample_members (L : gmap Z (object (ty:=unit) (val:=sample_val))) (i c : Z)
    : option (list (value (ty:=unit) (val:=sample_val))) :=
  match L !! i with Some o => o_members o !! c | None => None end.

Example sample_loaded :
  (let* L := sample_reload in Defined (sample_members L 2 20, sample_members L 3 20))
  = Defined (Some [VBase 10; VPtr (PLoaded 1); VPtr (PUnloaded 3 1)], None).
Proof. vm_compute. reflexivity. Qed.

End DomainProperties.
