(* ===== verification/ServerList.v ===== *)
(** * Servers, clouds and the choice of a server

    [address.h], [server.*], [cloud.*], [methods/server_descriptor.h],
    [server_list/] and [client_connections/client_server_connection_selector.*]:
    a cloud is a list of servers, a server list orders and filters them by a
    policy, and a selector walks over the list and starts again at its end.

    The policy is the class [ServeListPolicy]; [PreferredOk] is what its
    comment demands of [Preferred].  A pointer to a server may be unloaded; what
    the domain loads for it is a parameter.  A failed [assert] is
    [Undefined]. *)

From Stdlib Require Import Sorted.
From S2P Require Import Prelude.

(** ** Addresses and servers *)
Module Cloud.

(** An enumeration holds any value of its underlying type. *)
Inductive Version := kIpV4 | kIpV6 | OtherVersion (v : Z).

Record IpAddress := { version : Version; value : bytes }.

Inductive Protocol := kTcp | OtherProtocol (v : Z).

Record IpAddressPortProtocol := { ip : IpAddress; port : Z; protocol : Protocol }.

Record CoderAndPort := { cp_protocol : Protocol; cp_port : Z }.

Record IpAddressAndPort := { ep_ip : IpAddress; protocol_and_ports : list CoderAndPort }.

Record ServerDescriptor := { d_server_id : Z; ips : list IpAddressAndPort }.

(** The channels of a server are their addresses. *)
Record Server := { server_id : Z; channels : list IpAddressPortProtocol }.

Definition AddChannel (channel : IpAddressPortProtocol) (s : Server) : Server :=
  {| server_id := server_id s; channels := channels s ++ [channel] |}.

(** The loops over the end points of a descriptor. *)
Definition add_ports (e : IpAddressAndPort) (s : Server) : Server :=
  foldl (fun s p => AddChannel {| ip := ep_ip e; port := cp_port p; protocol := cp_protocol p |} s)
        s (protocol_and_ports e).

Definition make_server (d : ServerDescriptor) : Server :=
  foldl (fun s e => add_ports e s) {| server_id := d_server_id d; channels := [] |} (ips d).

(** [Server::ptr]: an unloaded pointer keeps the identifier of the object. *)
Inductive server_ptr := Loaded (s : Server) | Unloaded (obj_id : Z).

Record Cloud := { servers_ : list server_ptr; adapter_ : option Z }.

Definition AddServer (s : Server) (c : Cloud) : Cloud :=
  {| servers_ := servers_ c ++ [Loaded s]; adapter_ := adapter_ c |}.

Definition set_adapter (a : option Z) (c : Cloud) : Cloud :=
  {| servers_ := servers_ c; adapter_ := a |}.

(** A new [WorkCloud] has no servers. *)
Definition WorkCloud : Cloud := {| servers_ := []; adapter_ := None |}.

(** [LoadServer]; [load_root] is [Domain::LoadRoot] of a server. *)
Definition LoadServer (load_root : Z -> option Server) (p : server_ptr) : outcome Server :=
  match p with
  | Loaded s => Defined s
  | Unloaded o => match load_root o with Some s => Defined s | None => Undefined end
  end.

End Cloud.

(** ** The server list *)
Module ServerList.
Import Cloud.

Class ServeListPolicy := {
  Preferred : Server -> Server -> bool;
  Filter : Server -> bool;
}.

(** The [Compare] requirements of the comment on [Preferred]. *)
Class PreferredOk `{ServeListPolicy} := {
  Preferred_irrefl : forall a, Preferred a a = false;
  Preferred_trans : forall a b c,
    Preferred a b = true -> Preferred b c = true -> Preferred a c = true;
  Preferred_equiv : forall a b c,
    Preferred a b = false -> Preferred b c = false -> Preferred a c = false;
}.

Section List.
Context `{ServeListPolicy} (load_root : Z -> option Server).

(** The loop that loads the servers; the pointers of the cloud are loaded too. *)
Fixpoint load_servers (ps : list server_ptr) : outcome (list Server) :=
  match ps with
  | [] => Defined []
  | p :: ps => let* s := LoadServer load_root p in let* l := load_servers ps in Defined (s :: l)
  end.

(** [std::remove_if] with [erase]. *)
Definition remove_if (l : list Server) : list Server := List.filter (fun s => negb (Filter s)) l.

(** [std::sort] by [Preferred]. *)
Fixpoint sort_insert (s : Server) (l : list Server) : list Server :=
  match l with
  | [] => [s]
  | x :: l' => if Preferred x s then x :: sort_insert s l' else s :: l
  end.

Fixpoint sort (l : list Server) : list Server :=
  match l with [] => [] | s :: l' => sort_insert s (sort l') end.

(** [BuildList]: the cloud with its servers loaded, and the list. *)
Definition BuildList (c : Cloud) : outcome (Cloud * list Server) :=
  let* l := load_servers (servers_ c) in
  Defined ({| servers_ := Loaded <$> l; adapter_ := adapter_ c |}, sort (remove_if l)).

(** The constructor; the cloud must have servers. *)
Definition new_list (c : Cloud) : outcome (Cloud * list Server) :=
  match servers_ c with [] => Undefined | _ => BuildList c end.

End List.

(** [NoFilterServerListPolicy] *)
#[export] Instance NoFilterServerListPolicy : ServeListPolicy := {
  Preferred left right := server_id left <? server_id right;
  Filter _ := false;
}.

(** ** The selector

    The iterator is a position; the position past the last server is [end()]. *)
Record Selector := { server_list_ : list Server; server_list_it_ : nat }.

Definition new_selector (l : list Server) : Selector :=
  {| server_list_ := l; server_list_it_ := 0 |}.

(** [NextServer], up to the creation of the connection. *)
Definition NextServer (s : Selector) : option Server * Selector :=
  match server_list_ s !! server_list_it_ s with
  | None => (None, {| server_list_ := server_list_ s; server_list_it_ := 0 |})
  | Some x => (Some x, {| server_list_ := server_list_ s; server_list_it_ := S (server_list_it_ s) |})
  end.

(** [n] calls of it, and the answer of the last one. *)
Fixpoint next_calls (n : nat) (s : Selector) : Selector :=
  match n with O => s | S n => next_calls n (NextServer s).2 end.

Definition nth_answer (n : nat) (s : Selector) : option Server := (NextServer (next_calls n s)).1.

(** The loop of [ClientCloudConnection::Connect]: two tries, the first server
    is taken. *)
Fixpoint first_of (tries : nat) (s : Selector) : option Server * Selector :=
  match tries with
  | O => (None, s)
  | S tries =>
      match NextServer s with
      | (Some x, s') => (Some x, s')
      | (None, s') => first_of tries s'
      end
  end.

Definition connect_pick (s : Selector) : option Server * Selector := first_of 2 s.

Fixpoint connect_picks (n : nat) (s : Selector) : list (option Server) :=
  match n with O => [] | S n => (connect_pick s).1 :: connect_picks n (connect_pick s).2 end.

(** The loop of [GetClientCloudConnection::SelectServer]: two calls, the answer
    of the second one is kept. *)
Definition select_pick (s : Selector) : option Server * Selector :=
  NextServer (NextServer s).2.

Fixpoint select_picks (n : nat) (s : Selector) : list (option Server) :=
  match n with O => [] | S n => (select_pick s).1 :: select_picks n (select_pick s).2 end.

End ServerList.

Module ServerListProperties.
Import Cloud ServerList.

(** ** Descriptors *)

Lemma add_ports_channels e s :
  server_id (add_ports e s) = server_id s /\
  channels (add_ports e s) = channels s ++
    ((fun p => {| ip := ep_ip e; port := cp_port p; protocol := cp_protocol p |})
     <$> protocol_and_ports e).
Proof.
  unfold add_ports. revert s. induction (protocol_and_ports e) as [|p l IH]; intros s; simpl.
  - by rewrite app_nil_r.
  - rewrite (proj1 (IH _)), (proj2 (IH _)). simpl. by rewrite <- app_assoc.
Qed.

(** A server made of a descriptor has its identifier and one channel for each
    port of each of its addresses, in their order. *)
Lemma make_server_channels d :
  server_id (make_server d) = d_server_id d /\
  channels (make_server d) =
    ips d ≫= fun e => (fun p => {| ip := ep_ip e; port := cp_port p; protocol := cp_protocol p |})
                       <$> protocol_and_ports e.
Proof.
  unfold make_server.
  assert (forall es s,
    let s' := foldl (fun s e => add_ports e s) s es in
    server_id s' = server_id s /\
    channels s' = channels s ++
      (es ≫= fun e => (fun p => {| ip := ep_ip e; port := cp_port p; protocol := cp_protocol p |})
                      <$> protocol_and_ports e)) as G; [|apply (G (ips d))].
  induction es as [|e es IH]; intros s; simpl; [by rewrite app_nil_r|].
  destruct (IH (add_ports e s)) as [-> ->]. destruct (add_ports_channels e s) as [-> ->].
  by rewrite <- app_assoc.
Qed.

(** ** Sorting *)

Section Sorting.
Context `{PreferredOk}.

(** No server is preferred to one before it. *)
Definition ordered (l : list Server) : Prop := StronglySorted (fun a b => Preferred b a = false) l.

Lemma Preferred_asym a b : Preferred a b = true -> Preferred b a = false.
Proof.
  intros Hab. destruct (Preferred b a) eqn:E; [|done].
  pose proof (Preferred_trans _ _ _ Hab E) as F. by rewrite Preferred_irrefl in F.
Qed.

Lemma sort_insert_permutation s l : sort_insert s l ≡ₚ s :: l.
Proof.
  induction l as [|x l IH]; simpl; [done|]. destruct (Preferred x s); [|done].
  rewrite IH. constructor.
Qed.

Lemma sort_permutation l : sort l ≡ₚ l.
Proof. induction l as [|s l IH]; simpl; [done|]. by rewrite sort_insert_permutation, IH. Qed.

Lemma sort_insert_ordered s l : ordered l -> ordered (sort_insert s l).
Proof.
  unfold ordered. induction 1 as [|x l Hl IH Hx]; simpl; [by repeat constructor|].
  destruct (Preferred x s) eqn:E.
  - constructor; [done|]. rewrite sort_insert_permutation. constructor; [by apply Preferred_asym|done].
  - constructor; [by constructor|]. constructor; [done|].
    eapply List.Forall_impl; [|exact Hx]. intros y Hy. cbv beta. exact (Preferred_equiv _ _ _ Hy E).
Qed.

Lemma sort_ordered l : ordered (sort l).
Proof. induction l; simpl; [constructor|]. by apply sort_insert_ordered. Qed.

(** Where [Preferred] tells any two servers apart there is only one ordered
    arrangement of them. *)
Lemma ordered_unique l k :
  (forall a b, a ∈ l -> b ∈ l -> Preferred a b = false -> Preferred b a = false -> a = b) ->
  ordered l -> ordered k -> l ≡ₚ k -> l = k.
Proof.
  intros Ht Hl. revert k. induction Hl as [|a l Hl IH Ha]; intros k Hk Hp.
  - by apply Permutation_nil in Hp.
  - destruct Hk as [|b k Hk Hb]; [by apply symmetry, Permutation_nil_cons in Hp|].
    rewrite Forall_forall in Ha, Hb.
    assert (a = b) as <-.
    { assert (a ∈ b :: k) as Hak by (rewrite <- Hp; left).
      assert (b ∈ a :: l) as Hbl by (rewrite Hp; left).
      apply elem_of_cons in Hak as [->|Hak]; [done|].
      apply elem_of_cons in Hbl as [->|Hbl]; [done|].
      apply Ht; [by left|by right|by apply Hb, list_elem_of_In|by apply Ha, list_elem_of_In]. }
    f_equal. apply IH; [|done|by apply Permutation_cons_inv in Hp].
    intros x y Hx Hy. apply Ht; by right.
Qed.

End Sorting.

#[export] Instance NoFilter_ok : PreferredOk (H := NoFilterServerListPolicy).
Proof. split; cbn [Preferred NoFilterServerListPolicy]; intros; zbool; apply Z.ltb_lt || apply Z.ltb_ge; lia. Qed.

Lemma load_servers_loaded f l : load_servers f (Loaded <$> l) = Defined l.
Proof.
  induction l as [|s l IH]; [done|]. rewrite fmap_cons. cbn [load_servers LoadServer]. by rewrite IH.
Qed.

Lemma remove_if_none (l : list Server) : remove_if l = l.
Proof. unfold remove_if. induction l as [|s l IH]; simpl; [done|]. f_equal. exact IH. Qed.

(** A server list holds exactly the servers of the cloud the policy keeps, the
    preferred ones first; when the policy tells all of them apart it is the only
    such arrangement, so it does not depend on how [std::sort] works. *)
Theorem server_list_ordered `{PreferredOk} load_root c c' l loaded :
  load_servers load_root (servers_ c) = Defined loaded ->
  new_list load_root c = Defined (c', l) ->
  servers_ c' = (Loaded <$> loaded) /\
  l ≡ₚ remove_if loaded /\ ordered l /\
  ((forall a b, a ∈ l -> b ∈ l -> Preferred a b = false -> Preferred b a = false -> a = b) ->
   forall k, k ≡ₚ remove_if loaded -> ordered k -> k = l).
Proof.
  intros Hl Hb. unfold new_list in Hb. destruct (servers_ c) eqn:E; [done|].
  rewrite <- E in Hl. unfold BuildList in Hb. rewrite Hl in Hb. simplify_eq.
  split; [done|]. split; [apply sort_permutation|]. split; [apply sort_ordered|].
  intros Ht k Hk Ho. symmetry. apply ordered_unique; [done|apply sort_ordered|done|].
  by rewrite sort_permutation, Hk.
Qed.

Definition sample (i : Z) : Server := {| server_id := i; channels := [] |}.

Lemma server_list_ordered_witness :
  new_list (fun o => Some (sample o))
    {| servers_ := [Loaded (sample 7); Unloaded 2; Loaded (sample 5)]; adapter_ := None |}
    = Defined ({| servers_ := Loaded <$> [sample 7; sample 2; sample 5]; adapter_ := None |},
               [sample 2; sample 5; sample 7]) /\
  [sample 2; sample 5; sample 7] ≡ₚ [sample 7; sample 2; sample 5].
Proof.
  split; [reflexivity|].
  destruct (server_list_ordered (fun o => Some (sample o))
    {| servers_ := [Loaded (sample 7); Unloaded 2; Loaded (sample 5)]; adapter_ := None |}
    {| servers_ := Loaded <$> [sample 7; sample 2; sample 5]; adapter_ := None |}
    [sample 2; sample 5; sample 7] [sample 7; sample 2; sample 5]) as (_ & P & _);
    [reflexivity|reflexivity|exact P].
Defined.

(** ** The selector *)

Definition in_list (s : Selector) : Prop := (server_list_it_ s <= length (server_list_ s))%nat.

Lemma NextServer_step s :
  in_list s ->
  let n := S (length (server_list_ s)) in
  (NextServer s).1 = server_list_ s !! (server_list_it_ s mod n)%nat /\
  in_list (NextServer s).2 /\ server_list_ (NextServer s).2 = server_list_ s /\
  server_list_it_ (NextServer s).2 = (S (server_list_it_ s) mod n)%nat.
Proof.
  intros Hi n. unfold in_list in *. unfold NextServer.
  rewrite (Nat.mod_small (server_list_it_ s)) by lia.
  destruct (server_list_ s !! server_list_it_ s) eqn:E; cbn [fst snd server_list_ server_list_it_].
  - apply lookup_lt_Some in E. rewrite Nat.mod_small by lia. split_and!; auto; lia.
  - apply lookup_ge_None in E. replace (S (server_list_it_ s)) with n by lia.
    rewrite Nat.Div0.mod_same. split_and!; auto; lia.
Qed.

Lemma next_calls_spec k s :
  in_list s ->
  in_list (next_calls k s) /\ server_list_ (next_calls k s) = server_list_ s /\
  server_list_it_ (next_calls k s)
    = ((server_list_it_ s + k) mod S (length (server_list_ s)))%nat.
Proof.
  revert s. induction k as [|k IH]; intros s Hi.
  - cbn [next_calls]. unfold in_list in *. rewrite Nat.add_0_r, Nat.mod_small by lia. auto.
  - cbn [next_calls]. destruct (NextServer_step s Hi) as (_ & Hi' & Hl & Hit).
    destruct (IH _ Hi') as (A & B & C). rewrite Hl in *. rewrite Hit in C.
    split_and!; [done|done|]. rewrite C, Nat.Div0.add_mod_idemp_l. f_equal. lia.
Qed.

(** The answers go round the list: the servers in their order, then once the
    null connection, then the servers again. *)
Lemma selector_round k s :
  in_list s ->
  nth_answer k s = server_list_ s !! ((server_list_it_ s + k) mod S (length (server_list_ s)))%nat.
Proof.
  intros Hi. destruct (next_calls_spec k s Hi) as (Hk & Hl & Hit).
  unfold nth_answer. rewrite (proj1 (NextServer_step _ Hk)), Hl, Hit, Nat.Div0.mod_mod. done.
Qed.

Lemma lookup_mod_is_Some {A} (l : list A) i : l <> [] -> is_Some (l !! (i mod length l)%nat).
Proof.
  intros Hl. apply lookup_lt_is_Some. apply Nat.mod_upper_bound. destruct l; simpl; [done|lia].
Qed.

Lemma connect_pick_spec s :
  in_list s -> server_list_ s <> [] ->
  let i := (server_list_it_ s mod length (server_list_ s))%nat in
  (connect_pick s).1 = server_list_ s !! i /\
  in_list (connect_pick s).2 /\ server_list_ (connect_pick s).2 = server_list_ s /\
  server_list_it_ (connect_pick s).2 = S i.
Proof.
  intros Hi Hne i. unfold in_list, connect_pick in *. cbn [first_of]. unfold NextServer.
  assert (0 < length (server_list_ s))%nat by (destruct (server_list_ s); simpl; [done|lia]).
  destruct (server_list_ s !! server_list_it_ s) as [x|] eqn:E.
  - pose proof (lookup_lt_Some _ _ _ E). subst i. rewrite Nat.mod_small by lia. simpl. auto with lia.
  - apply lookup_ge_None in E. assert (i = 0%nat) as ->.
    { subst i. replace (server_list_it_ s) with (length (server_list_ s)) by lia.
      apply Nat.Div0.mod_same. }
    cbn [server_list_ server_list_it_]. destruct (server_list_ s) as [|x l] eqn:El; [done|].
    simpl. auto with lia.
Qed.

(** Connecting tries the servers of the list in turn: with a list that is not
    empty the two calls always find a server, and the [n]th of a sequence of
    connections is to the server [n] places further, around the list. *)
Theorem connect_rotates s n :
  in_list s -> server_list_ s <> [] ->
  connect_picks n s =
    ((fun i => server_list_ s !! ((server_list_it_ s + i) mod length (server_list_ s))%nat) <$> seq 0 n)
  /\ Forall (fun o => o <> None) (connect_picks n s).
Proof.
  intros Hi Hne.
  enough (connect_picks n s = ((fun i =>
    server_list_ s !! ((server_list_it_ s + i) mod length (server_list_ s))%nat) <$> seq 0 n)) as E.
  { split; [done|]. rewrite E. apply Forall_fmap, Forall_forall. intros i _. simpl.
    destruct (lookup_mod_is_Some (server_list_ s) (server_list_it_ s + i) Hne) as [? ->]. done. }
  revert s Hi Hne. induction n as [|n IH]; intros s Hi Hne; [done|].
  destruct (connect_pick_spec s Hi Hne) as (Hp & Hi' & Hl & Hit).
  cbn [connect_picks]. rewrite (IH _ Hi') by congruence. rewrite Hp, Hl, Hit.
  rewrite <- cons_seq. cbn [fmap list_fmap]. rewrite Nat.add_0_r. f_equal.
  rewrite <- fmap_S_seq, <- list_fmap_compose. apply list_fmap_ext. intros k i _. simpl. f_equal.
  rewrite <- Nat.add_succ_r, Nat.Div0.add_mod_idemp_l. done.
Qed.

Lemma connect_rotates_witness :
  connect_picks 4 {| server_list_ := [sample 1; sample 2; sample 3]; server_list_it_ := 2 |} =
    [Some (sample 3); Some (sample 1); Some (sample 2); Some (sample 3)].
Proof.
  rewrite (proj1 (connect_rotates
    {| server_list_ := [sample 1; sample 2; sample 3]; server_list_it_ := 2 |} 4
    ltac:(unfold in_list; simpl; lia) ltac:(discriminate))). reflexivity.
Defined.

Lemma select_pick_spec s :
  in_list s ->
  let n := S (length (server_list_ s)) in
  (select_pick s).1 = server_list_ s !! (S (server_list_it_ s) mod n)%nat /\
  in_list (select_pick s).2 /\ server_list_ (select_pick s).2 = server_list_ s /\
  server_list_it_ (select_pick s).2 = ((server_list_it_ s + 2) mod n)%nat.
Proof.
  intros Hi n. destruct (NextServer_step s Hi) as (_ & Hi' & Hl & Hit).
  destruct (NextServer_step _ Hi') as (Ha & Hi'' & Hl' & Hit'). unfold select_pick.
  rewrite Ha, Hl', Hl, Hit, Hit', Hl, Hit. split_and!; auto.
  - by rewrite Nat.Div0.mod_mod.
  - rewrite <- Nat.add_1_r, Nat.Div0.add_mod_idemp_l. f_equal. lia.
Qed.

(** The place of the [k]th answer of [select_pick]. *)
Definition select_place (s : Selector) (k : nat) : nat :=
  ((server_list_it_ s + 2 * k + 1) mod S (length (server_list_ s)))%nat.

(** The selection of a server for a request keeps the answer of the second of
    two calls, so it goes through the list in steps of two.  It answers no server
    although there are some when the iterator is at the last one; and when
    their number is odd every answer is from the places of the other parity
    than the iterator: half of the servers are never asked. *)
Theorem select_server_skips s n :
  in_list s ->
  select_picks n s = ((fun k => server_list_ s !! select_place s k) <$> seq 0 n) /\
  (S (server_list_it_ s) = length (server_list_ s) -> (select_pick s).1 = None) /\
  (Nat.odd (length (server_list_ s)) = true ->
   forall k, Nat.even (select_place s k) = Nat.odd (server_list_it_ s)).
Proof.
  intros Hi. split_and!.
  - revert s Hi. induction n as [|n IH]; intros s Hi; [done|].
    destruct (select_pick_spec s Hi) as (Hp & Hi' & Hl & Hit). cbn [select_picks].
    rewrite Hp, IH by done. unfold select_place. rewrite Hl, Hit.
    rewrite <- cons_seq. cbn [fmap list_fmap].
    rewrite Nat.mul_0_r, Nat.add_0_r, Nat.add_1_r. f_equal.
    rewrite <- fmap_S_seq, <- list_fmap_compose. apply list_fmap_ext. intros k i _. cbn -[Nat.modulo]. f_equal.
    rewrite <- (Nat.add_assoc (_ mod _)), Nat.Div0.add_mod_idemp_l. f_equal. lia.
  - intros He. rewrite (proj1 (select_pick_spec s Hi)), He, Nat.mod_small by lia.
    by apply lookup_ge_None.
  - intros Ho k. unfold select_place. set (m := S (length (server_list_ s))).
    assert (Nat.even m = true) as Hm by (unfold m; by rewrite Nat.even_succ).
    set (p := (server_list_it_ s + 2 * k + 1)%nat).
    assert (Nat.even (p mod m) = Nat.even p) as ->.
    { rewrite (Nat.div_mod_eq p m) at 2. rewrite Nat.even_add, Nat.even_mul, Hm. cbn [orb].
      generalize (Nat.even (p mod m)). by intros []. }
    unfold p. rewrite !Nat.even_add, Nat.even_mul, <- Nat.negb_even. simpl.
    generalize (Nat.even (server_list_it_ s)). by intros [].
Qed.

Lemma select_server_skips_witness :
  select_picks 3 (new_selector [sample 1; sample 2; sample 3]) =
    [Some (sample 2); None; Some (sample 2)] /\
  (select_pick {| server_list_ := [sample 1; sample 2]; server_list_it_ := 1 |}).1 = None.
Proof.
  split.
  - exact (proj1 (select_server_skips (new_selector [sample 1; sample 2; sample 3]) 3
             ltac:(unfold in_list; simpl; lia))).
  - exact (proj1 (proj2 (select_server_skips
             {| server_list_ := [sample 1; sample 2]; server_list_it_ := 1 |} 0
             ltac:(unfold in_list; simpl; lia))) eq_refl).
Defined.

End ServerListProperties.
