(* ===== verification/ClientConnections.v ===== *)
(** * Connections of a client ([client_connections/], [client_messages/])

    A client knows clouds of servers ([ClientConnectionManager]).  A selector per
    cloud gives out connections to its servers, made by
    [CachedClientServerConnectionFactory]: one connection per server, shared by
    all that talk to it.  A [ClientCloudConnection] uses one connection at a time,
    moves on to the next server when it fails, and has one gate per destination,
    tied to the message stream of the destination in the connection
    ([ClientServerConnection] with [MessageStreamDispatcher]).

    Objects shared by pointers are numbers, looked up in the [World].  A
    connection lives as long as a cloud connection or a request for a cloud
    ([GetClientCloudConnection]) points to it; the cache only has views.  A gate
    keeps the address of its message stream, which may be gone.  Events of the
    transports are operations.  A stream to a server takes its keys from the
    client; the servers here are those the client has keys for, and [ClientCore]
    shows what happens with others. *)

From stdpp Require Import gmap sorting.
From S2P Require Import Prelude OrderedMap Streams TcpTransports ServerList.
Import OrderedMap Cloud ServerList.

#[local] Set Warnings "-notation-overridden".

Module Connections.

(** ** State *)

(** [MessageStream]: its address and its stream identifier. *)
Record MessageStream := { ms_address : nat; ms_stream_id : Z }.

(** [ClientServerConnection] with its stream to the server and its dispatcher. *)
Record ClientServerConnection := {
  conn_server_id : Z;
  conn_state : Tcp.ConnectionState;
  streams_ : gmap Z MessageStream;
}.

(** A [SplitterGate] and the message stream it is tied to. *)
Record TiedGate := { splitter : Splitter.SplitterGate; tied_to : nat }.

(** [ClientCloudConnection].  A subscription is the connection it is made to;
    [reconnect_notify_] is whether a reconnection is notified. *)
Record ClientCloudConnection := {
  client_server_connection_selector_ : nat;
  client_server_connection_ : option nat;
  gates_ : gmap Z TiedGate;
  connection_error_subscription_ : option nat;
  new_stream_event_subscription_ : option nat;
  reconnect_notify_ : bool;
}.

Record CloudCache := { cloud : Cloud; client_stream_selector : option nat }.

Record ServerCache := { server : Server; client_server_connection : option nat }.

Record World := {
  client_clouds_ : gmap Z CloudCache;
  client_servers_ : gmap Z ServerCache;
  aether_servers_ : gmap Z Server;
  selectors : gmap nat Selector;
  connections : gmap nat ClientServerConnection;
  cloud_connections : gmap nat ClientCloudConnection;
  requests : gmap nat (option nat);
  next_address : nat;
  next_stream_id : Z;
}.

Definition set_clouds (m : gmap Z CloudCache) (w : World) : World :=
  {| client_clouds_ := m; client_servers_ := client_servers_ w; aether_servers_ := aether_servers_ w;
     selectors := selectors w; connections := connections w;
     cloud_connections := cloud_connections w; requests := requests w;
     next_address := next_address w; next_stream_id := next_stream_id w |}.

Definition set_servers (m : gmap Z ServerCache) (a : gmap Z Server) (w : World) : World :=
  {| client_clouds_ := client_clouds_ w; client_servers_ := m; aether_servers_ := a;
     selectors := selectors w; connections := connections w;
     cloud_connections := cloud_connections w; requests := requests w;
     next_address := next_address w; next_stream_id := next_stream_id w |}.

Definition set_selectors (m : gmap nat Selector) (w : World) : World :=
  {| client_clouds_ := client_clouds_ w; client_servers_ := client_servers_ w;
     aether_servers_ := aether_servers_ w; selectors := m; connections := connections w;
     cloud_connections := cloud_connections w; requests := requests w;
     next_address := next_address w; next_stream_id := next_stream_id w |}.

Definition set_connections (m : gmap nat ClientServerConnection) (w : World) : World :=
  {| client_clouds_ := client_clouds_ w; client_servers_ := client_servers_ w;
     aether_servers_ := aether_servers_ w; selectors := selectors w; connections := m;
     cloud_connections := cloud_connections w; requests := requests w;
     next_address := next_address w; next_stream_id := next_stream_id w |}.

Definition set_cloud_connections (m : gmap nat ClientCloudConnection) (w : World) : World :=
  {| client_clouds_ := client_clouds_ w; client_servers_ := client_servers_ w;
     aether_servers_ := aether_servers_ w; selectors := selectors w; connections := connections w;
     cloud_connections := m; requests := requests w;
     next_address := next_address w; next_stream_id := next_stream_id w |}.

Definition set_requests (m : gmap nat (option nat)) (w : World) : World :=
  {| client_clouds_ := client_clouds_ w; client_servers_ := client_servers_ w;
     aether_servers_ := aether_servers_ w; selectors := selectors w; connections := connections w;
     cloud_connections := cloud_connections w; requests := m;
     next_address := next_address w; next_stream_id := next_stream_id w |}.

(** The address of a new object. *)
Definition allocate (w : World) : nat * World :=
  (next_address w,
   {| client_clouds_ := client_clouds_ w; client_servers_ := client_servers_ w;
      aether_servers_ := aether_servers_ w; selectors := selectors w; connections := connections w;
      cloud_connections := cloud_connections w; requests := requests w;
      next_address := S (next_address w); next_stream_id := next_stream_id w |}).

(** [StreamIdGenerator::GetNextClientStreamId] *)
Definition get_stream_id (w : World) : Z * World :=
  let '(id, next) := StreamIds.GetNextClientStreamId (next_stream_id w) in
  (id,
   {| client_clouds_ := client_clouds_ w; client_servers_ := client_servers_ w;
      aether_servers_ := aether_servers_ w; selectors := selectors w; connections := connections w;
      cloud_connections := cloud_connections w; requests := requests w;
      next_address := next_address w; next_stream_id := next |}).

(** ** Pointers to connections *)

(** The connections pointed to, once for each pointer. *)
Definition held_list (w : World) : list nat :=
  omap (fun p => client_server_connection_ p.2) (map_to_list (cloud_connections w)) ++
  omap (fun p => p.2) (map_to_list (requests w)).

(** The end of a pointer: a connection nothing points to any more is
    destroyed. *)
Definition release (c : option nat) (w : World) : World :=
  match c with
  | Some c => if bool_decide (c ∈ held_list w) then w else set_connections (delete c (connections w)) w
  | None => w
  end.

(** [PtrView::Lock] *)
Definition Lock (view : option nat) (w : World) : option nat :=
  match view with
  | Some c => match connections w !! c with Some _ => Some c | None => None end
  | None => None
  end.

(** ** The cache of connections *)

Definition FindCacheClientServerConnection (sid : Z) (w : World) : option nat :=
  match client_servers_ w !! sid with
  | Some s => Lock (client_server_connection s) w
  | None => None
  end.

Definition CacheClientServerConnection (sid : Z) (c : nat) (w : World) : outcome World :=
  match client_servers_ w !! sid with
  | Some s =>
      Defined (set_servers (<[sid := {| server := server s; client_server_connection := Some c |}]>
                              (client_servers_ w)) (aether_servers_ w) w)
  | None => Undefined
  end.

Section Environment.
(** The state of a connection right after its transport was asked to connect,
    and what the domain loads. *)
Context (initial : nat -> Tcp.ConnectionState) (load_root : Z -> option Server).

(** [CreateConnection] of the factory.  The stream to the server takes a stream
    identifier ([InitStreams]). *)
Definition CreateConnection (s : Server) (w : World) : outcome (nat * World) :=
  match FindCacheClientServerConnection (server_id s) w with
  | Some c => Defined (c, w)
  | None =>
      let '(c, w1) := allocate w in
      let '(_, w2) := get_stream_id w1 in
      let conn := {| conn_server_id := server_id s; conn_state := initial c; streams_ := ∅ |} in
      let w3 := set_connections (<[c := conn]> (connections w2)) w2 in
      let* w4 := CacheClientServerConnection (server_id s) c w3 in
      Defined (c, w4)
  end.

(** [NextServer] of a selector. *)
Definition NextConnection (sel : nat) (w : World) : outcome (option nat * World) :=
  match selectors w !! sel with
  | None => Undefined
  | Some s =>
      let '(x, s') := NextServer s in
      let w1 := set_selectors (<[sel := s']> (selectors w)) w in
      match x with
      | None => Defined (None, w1)
      | Some x => let* (c, w2) := CreateConnection x w1 in Defined (Some c, w2)
      end
  end.

(** ** Message streams ([MessageStreamDispatcher]) *)

Definition put_streams (c : nat) (m : gmap Z MessageStream) (w : World) : World :=
  match connections w !! c with
  | Some conn =>
      set_connections (<[c := {| conn_server_id := conn_server_id conn;
                                 conn_state := conn_state conn; streams_ := m |}]>
                         (connections w)) w
  | None => w
  end.

Definition CreateMessageStream (sid : Z) (w : World) : MessageStream * World :=
  let '(a, w1) := allocate w in ({| ms_address := a; ms_stream_id := sid |}, w1).

(** [GetStream] of a connection, through [GetMessageStream]. *)
Definition GetMessageStream (c : nat) (uid : Z) (w : World) : outcome (nat * World) :=
  match connections w !! c with
  | None => Undefined
  | Some conn =>
      match streams_ conn !! uid with
      | Some m => Defined (ms_address m, w)
      | None =>
          let '(sid, w1) := get_stream_id w in
          let '(m, w2) := CreateMessageStream sid w1 in
          Defined (ms_address m, put_streams c (<[uid := m]> (streams_ conn)) w2)
      end
  end.

Definition CloseMessageStream (c : nat) (uid : Z) (w : World) : outcome World :=
  match connections w !! c with
  | None => Undefined
  | Some conn => Defined (put_streams c (delete uid (streams_ conn)) w)
  end.

(** ** Cloud connections *)

Definition upd_cc (k : nat) (f : ClientCloudConnection -> ClientCloudConnection) (w : World) : World :=
  set_cloud_connections (alter f k (cloud_connections w)) w.

Definition with_connection (c : option nat) (x : ClientCloudConnection) : ClientCloudConnection :=
  {| client_server_connection_selector_ := client_server_connection_selector_ x;
     client_server_connection_ := c; gates_ := gates_ x;
     connection_error_subscription_ := connection_error_subscription_ x;
     new_stream_event_subscription_ := new_stream_event_subscription_ x;
     reconnect_notify_ := reconnect_notify_ x |}.

Definition with_gates (g : gmap Z TiedGate) (x : ClientCloudConnection) : ClientCloudConnection :=
  {| client_server_connection_selector_ := client_server_connection_selector_ x;
     client_server_connection_ := client_server_connection_ x; gates_ := g;
     connection_error_subscription_ := connection_error_subscription_ x;
     new_stream_event_subscription_ := new_stream_event_subscription_ x;
     reconnect_notify_ := reconnect_notify_ x |}.

Definition with_subscriptions (error new_stream : option nat) (x : ClientCloudConnection)
  : ClientCloudConnection :=
  {| client_server_connection_selector_ := client_server_connection_selector_ x;
     client_server_connection_ := client_server_connection_ x; gates_ := gates_ x;
     connection_error_subscription_ := error; new_stream_event_subscription_ := new_stream;
     reconnect_notify_ := reconnect_notify_ x |}.

Definition with_notify (b : bool) (x : ClientCloudConnection) : ClientCloudConnection :=
  {| client_server_connection_selector_ := client_server_connection_selector_ x;
     client_server_connection_ := client_server_connection_ x; gates_ := gates_ x;
     connection_error_subscription_ := connection_error_subscription_ x;
     new_stream_event_subscription_ := new_stream_event_subscription_ x;
     reconnect_notify_ := b |}.

(** [OnConnectionError]: a new notify action, notified. *)
Definition OnConnectionError (x : ClientCloudConnection) : ClientCloudConnection := with_notify true x.

(** The assignment of the pointer to the connection: the old one is released
    after the new one was made. *)
Definition assign_connection (k : nat) (c : option nat) (w : World) : World :=
  match cloud_connections w !! k with
  | Some x => release (client_server_connection_ x) (upd_cc k (with_connection c) w)
  | None => w
  end.

(** The loop at the start of [Connect]. *)
Fixpoint pick_connection (tries : nat) (k sel : nat) (w : World) : outcome World :=
  match tries with
  | O => Defined w
  | S tries =>
      let* (c, w1) := NextConnection sel w in
      let w2 := assign_connection k c w1 in
      match c with Some _ => Defined w2 | None => pick_connection tries k sel w2 end
  end.

(** [Tie] of a known gate to the stream of the connection. *)
Definition tie_gate (k c : nat) (uid : Z) (w : World) : outcome World :=
  let* (a, w1) := GetMessageStream c uid w in
  Defined (upd_cc k (fun x => with_gates
    (alter (fun g => {| splitter := splitter g; tied_to := a |}) uid (gates_ x)) x) w1).

Fixpoint tie_gates (k c : nat) (uids : list Z) (w : World) : outcome World :=
  match uids with
  | [] => Defined w
  | uid :: uids => let* w1 := tie_gate k c uid w in tie_gates k c uids w1
  end.

(** [Connect] after the loop. *)
Definition use_connection (k : nat) (w : World) : outcome World :=
  match cloud_connections w !! k with
  | None => Undefined
  | Some x =>
      match client_server_connection_ x with
      | None => Defined (upd_cc k OnConnectionError w)
      | Some c =>
          match connections w !! c with
          | None => Undefined
          | Some conn =>
              let w1 := match conn_state conn with
                        | Tcp.kDisconnected => upd_cc k OnConnectionError w
                        | _ => w
                        end in
              let w2 := upd_cc k (fun x => with_subscriptions (Some c)
                                   (new_stream_event_subscription_ x) x) w1 in
              let* w3 := tie_gates k c (keys (gates_ x)) w2 in
              Defined (upd_cc k (fun x => with_subscriptions
                         (connection_error_subscription_ x) (Some c) x) w3)
          end
      end
  end.

Definition Connect (k : nat) (w : World) : outcome World :=
  match cloud_connections w !! k with
  | None => Undefined
  | Some x =>
      let* w1 := pick_connection 2 k (client_server_connection_selector_ x) w in
      use_connection k w1
  end.

(** The constructor. *)
Definition new_cloud_connection (sel : nat) : ClientCloudConnection :=
  {| client_server_connection_selector_ := sel; client_server_connection_ := None;
     gates_ := ∅; connection_error_subscription_ := None;
     new_stream_event_subscription_ := None; reconnect_notify_ := false |}.

Definition NewCloudConnection (sel : nat) (w : World) : outcome (nat * World) :=
  let '(k, w1) := allocate w in
  let* w2 := Connect k (set_cloud_connections
                          (<[k := new_cloud_connection sel]> (cloud_connections w1)) w1) in
  Defined (k, w2).

(** The result of the notify action: connect again. *)
Definition Reconnect (k : nat) (w : World) : outcome World :=
  match cloud_connections w !! k with
  | None => Undefined
  | Some x => if reconnect_notify_ x then Connect k (upd_cc k (with_notify false) w) else Defined w
  end.

Definition DropCloudConnection (k : nat) (w : World) : World :=
  match cloud_connections w !! k with
  | Some x => release (client_server_connection_ x)
                (set_cloud_connections (delete k (cloud_connections w)) w)
  | None => w
  end.

(** [CreateStream] *)
Definition CreateStream (k : nat) (uid sid : Z) (w : World) : outcome World :=
  match cloud_connections w !! k with
  | None => Undefined
  | Some x =>
      match client_server_connection_ x with
      | None => Undefined
      | Some c =>
          match gates_ x !! uid with
          | Some g =>
              let '(s, _) := Splitter.RegisterStream sid (splitter g) in
              Defined (upd_cc k (with_gates
                (<[uid := {| splitter := s; tied_to := tied_to g |}]> (gates_ x))) w)
          | None =>
              let* (a, w1) := GetMessageStream c uid w in
              let '(s, _) := Splitter.RegisterStream sid Splitter.splitter_gate in
              Defined (upd_cc k (with_gates
                (<[uid := {| splitter := s; tied_to := a |}]> (gates_ x))) w1)
          end
      end
  end.

(** [CloseStream] *)
Definition CloseStream (k : nat) (uid sid : Z) (w : World) : outcome World :=
  match cloud_connections w !! k with
  | None => Undefined
  | Some x =>
      match gates_ x !! uid with
      | None => Defined w
      | Some g =>
          let s := Splitter.CloseStream sid (splitter g) in
          if (Splitter.stream_count s =? 0)%nat then
            let w1 := upd_cc k (with_gates (delete uid (gates_ x))) w in
            match client_server_connection_ x with
            | None => Undefined
            | Some c => CloseMessageStream c uid w1
            end
          else Defined (upd_cc k (with_gates
                 (<[uid := {| splitter := s; tied_to := tied_to g |}]> (gates_ x))) w)
      end
  end.

(** [NewStream], the handler of a stream opened by the other side. *)
Definition NewStream (uid : Z) (a : nat) (x : ClientCloudConnection) : ClientCloudConnection :=
  match gates_ x !! uid with
  | Some g => with_gates (<[uid := {| splitter := splitter g; tied_to := a |}]> (gates_ x)) x
  | None => with_gates
      (<[uid := {| splitter := Splitter.splitter_gate; tied_to := a |}]> (gates_ x)) x
  end.

(** [OnStreamToClient] of the dispatcher of a connection, and the event. *)
Definition OnStreamToClient (c : nat) (uid sid : Z) (w : World) : outcome World :=
  match connections w !! c with
  | None => Undefined
  | Some conn =>
      match streams_ conn !! uid with
      | Some m =>
          Defined (put_streams c (<[uid := {| ms_address := ms_address m; ms_stream_id := sid |}]>
                                    (streams_ conn)) w)
      | None =>
          let '(m, w1) := CreateMessageStream sid w in
          let w2 := put_streams c (<[uid := m]> (streams_ conn)) w1 in
          Defined (set_cloud_connections
            ((fun x => if decide (new_stream_event_subscription_ x = Some c)
                       then NewStream uid (ms_address m) x else x) <$> cloud_connections w2) w2)
      end
  end.

(** The transport of a connection changes its state; an error is an event. *)
Definition ConnectionEvent (c : nat) (s : Tcp.ConnectionState) (error : bool) (w : World)
  : outcome World :=
  match connections w !! c with
  | None => Undefined
  | Some conn =>
      let w1 := set_connections (<[c := {| conn_server_id := conn_server_id conn;
                                           conn_state := s; streams_ := streams_ conn |}]>
                                   (connections w)) w in
      Defined (if error
               then set_cloud_connections
                 ((fun x => if decide (connection_error_subscription_ x = Some c)
                            then OnConnectionError x else x) <$> cloud_connections w1) w1
               else w1)
  end.

(** A write through the gate of a destination reaches the message stream the
    gate is tied to; the connection it belongs to is the answer. *)
Definition stream_owner (a : nat) (w : World) : option (nat * Z) :=
  head ((map_to_list (connections w)) ≫= fun p =>
        omap (fun q => if decide (ms_address q.2 = a) then Some (p.1, q.1) else None)
             (map_to_list (streams_ p.2))).

Definition Write (k : nat) (uid : Z) (w : World) : outcome (nat * Z) :=
  match cloud_connections w !! k with
  | None => Undefined
  | Some x =>
      match gates_ x !! uid with
      | None => Undefined
      | Some g => match stream_owner (tied_to g) w with Some o => Defined o | None => Undefined end
      end
  end.

(** ** Requests for a cloud: the server of [GetClientCloudConnection] *)

Definition assign_request (r : nat) (c : option nat) (w : World) : World :=
  match requests w !! r with
  | Some old => release old (set_requests (<[r := c]> (requests w)) w)
  | None => w
  end.

Definition NewRequest (w : World) : nat * World :=
  let '(r, w1) := allocate w in (r, set_requests (<[r := None]> (requests w1)) w1).

Definition DropRequest (r : nat) (w : World) : World :=
  match requests w !! r with
  | Some old => release old (set_requests (delete r (requests w)) w)
  | None => w
  end.

(** The loop of [SelectServer]. *)
Definition SelectServer (r sel : nat) (w : World) : outcome (option nat * World) :=
  let* (c1, w1) := NextConnection sel w in
  let* (c2, w2) := NextConnection sel (assign_request r c1 w1) in
  Defined (c2, assign_request r c2 w2).

(** ** Clouds *)

(** [RegisterCloud(Uid, Cloud::ptr)]; the servers are dereferenced. *)
Definition cache_server (s : Server) (m : gmap Z ServerCache) : gmap Z ServerCache :=
  match m !! server_id s with
  | Some _ => m
  | None => <[server_id s := {| server := s; client_server_connection := None |}]> m
  end.

Fixpoint cache_servers (ps : list server_ptr) (m : gmap Z ServerCache) : outcome (gmap Z ServerCache) :=
  match ps with
  | [] => Defined m
  | Loaded s :: ps => cache_servers ps (cache_server s m)
  | Unloaded _ :: _ => Undefined
  end.

(** [client_clouds_[uid].cloud = c] keeps the selector of the entry. *)
Definition put_cloud (uid : Z) (c : Cloud) (w : World) : World :=
  set_clouds (<[uid := {| cloud := c;
                          client_stream_selector :=
                            client_clouds_ w !! uid ≫= client_stream_selector |}]>
                (client_clouds_ w)) w.

Definition RegisterCloud (uid : Z) (c : Cloud) (w : World) : outcome World :=
  let* m := cache_servers (servers_ c) (client_servers_ w) in
  Defined (put_cloud uid c (set_servers m (aether_servers_ w) w)).

(** The loop of [RegisterCloud(Uid, descriptors)]. *)
Definition add_descriptor (d : ServerDescriptor) (c : Cloud) (w : World) : Cloud * World :=
  match client_servers_ w !! d_server_id d with
  | Some s => (AddServer (server s) c, w)
  | None =>
      let s := make_server d in
      (AddServer s c,
       set_servers (<[d_server_id d := {| server := s; client_server_connection := None |}]>
                      (client_servers_ w))
                   (match aether_servers_ w !! server_id s with
                    | Some _ => aether_servers_ w
                    | None => <[server_id s := s]> (aether_servers_ w)
                    end) w)
  end.

Fixpoint add_descriptors (ds : list ServerDescriptor) (c : Cloud) (w : World) : Cloud * World :=
  match ds with
  | [] => (c, w)
  | d :: ds => let '(c, w) := add_descriptor d c w in add_descriptors ds c w
  end.

Definition RegisterCloud_descriptors (client_uid uid : Z) (ds : list ServerDescriptor) (w : World)
  : outcome World :=
  let '(c, w1) := add_descriptors ds WorkCloud w in
  match client_clouds_ w1 !! client_uid with
  | None => Undefined
  | Some own => Defined (put_cloud uid (set_adapter (adapter_ (cloud own)) c) w1)
  end.

(** [GetCloudServerConnectionSelector] *)
Definition GetCloudServerConnectionSelector (uid : Z) (w : World) : outcome (option nat * World) :=
  match client_clouds_ w !! uid with
  | None => Defined (None, w)
  | Some cc =>
      match client_stream_selector cc with
      | Some sel => Defined (Some sel, w)
      | None =>
          let* (c, l) := new_list load_root (cloud cc) in
          let '(sel, w1) := allocate w in
          let w2 := set_selectors (<[sel := new_selector l]> (selectors w1)) w1 in
          Defined (Some sel,
                   set_clouds (<[uid := {| cloud := c; client_stream_selector := Some sel |}]>
                                 (client_clouds_ w2)) w2)
      end
  end.

(** ** Programs *)

Inductive op :=
  | ORegister (uid : Z) (c : Cloud)
  | ORegisterDescriptors (client_uid uid : Z) (ds : list ServerDescriptor)
  | OSelector (uid : Z)
  | ONew (sel : nat)
  | OReconnect (k : nat)
  | ODrop (k : nat)
  | OCreateStream (k : nat) (uid sid : Z)
  | OCloseStream (k : nat) (uid sid : Z)
  | OStreamToClient (c : nat) (uid sid : Z)
  | OEvent (c : nat) (s : Tcp.ConnectionState) (error : bool)
  | ONewRequest
  | OSelectServer (r sel : nat)
  | ODropRequest (r : nat).

Definition exec (o : op) (w : World) : outcome World :=
  match o with
  | ORegister uid c => RegisterCloud uid c w
  | ORegisterDescriptors cu uid ds => RegisterCloud_descriptors cu uid ds w
  | OSelector uid => let* (_, w) := GetCloudServerConnectionSelector uid w in Defined w
  | ONew sel => let* (_, w) := NewCloudConnection sel w in Defined w
  | OReconnect k => Reconnect k w
  | ODrop k => Defined (DropCloudConnection k w)
  | OCreateStream k uid sid => CreateStream k uid sid w
  | OCloseStream k uid sid => CloseStream k uid sid w
  | OStreamToClient c uid sid => OnStreamToClient c uid sid w
  | OEvent c s e => ConnectionEvent c s e w
  | ONewRequest => Defined (NewRequest w).2
  | OSelectServer r sel => let* (_, w) := SelectServer r sel w in Defined w
  | ODropRequest r => Defined (DropRequest r w)
  end.

Fixpoint execs (os : list op) (w : World) : outcome World :=
  match os with
  | [] => Defined w
  | o :: os => let* w := exec o w in execs os w
  end.

End Environment.

Definition new_world : World :=
  {| client_clouds_ := ∅; client_servers_ := ∅; aether_servers_ := ∅; selectors := ∅;
     connections := ∅; cloud_connections := ∅; requests := ∅; next_address := 0;
     next_stream_id := StreamIds.client_first |}.

End Connections.

Module ConnectionProperties.
Import Connections ServerListProperties.

(** ** The invariant *)

Definition alive (w : World) (c : nat) : Prop := is_Some (connections w !! c).

Definition known (w : World) (s : Server) : Prop := is_Some (client_servers_ w !! server_id s).

Record wf (w : World) : Prop := {
  wf_held : forall c, c ∈ held_list w -> alive w c;
  wf_view : forall c conn, connections w !! c = Some conn ->
    exists s, client_servers_ w !! conn_server_id conn = Some s /\ client_server_connection s = Some c;
  wf_ids : forall sid s, client_servers_ w !! sid = Some s -> server_id (server s) = sid;
  wf_cache : forall sid s c, client_servers_ w !! sid = Some s ->
    client_server_connection s = Some c ->
    (c < next_address w)%nat /\
    forall conn, connections w !! c = Some conn -> conn_server_id conn = sid;
  wf_sel : forall i s, selectors w !! i = Some s ->
    in_list s /\ server_list_ s <> [] /\ Forall (known w) (server_list_ s);
  wf_clouds : forall uid cc, client_clouds_ w !! uid = Some cc ->
    (exists l, servers_ (cloud cc) = Loaded <$> l /\ Forall (known w) l) /\
    (forall i, client_stream_selector cc = Some i -> is_Some (selectors w !! i));
  wf_cc : forall k x, cloud_connections w !! k = Some x ->
    is_Some (selectors w !! client_server_connection_selector_ x);
  wf_fresh : forall n, (next_address w <= n)%nat ->
    connections w !! n = None /\ selectors w !! n = None /\ cloud_connections w !! n = None /\
    requests w !! n = None;
}.

Lemma elem_of_held c w :
  c ∈ held_list w <->
  (exists k x, cloud_connections w !! k = Some x /\ client_server_connection_ x = Some c) \/
  (exists r, requests w !! r = Some (Some c)).
Proof.
  unfold held_list. rewrite elem_of_app, !list_elem_of_omap. split.
  - intros [([k x] & Hk & Hx)|([r o] & Hr & Ho)]; apply elem_of_map_to_list in Hk || apply elem_of_map_to_list in Hr.
    + left. eauto.
    + right. simpl in Ho. subst. eauto.
  - intros [(k & x & Hk & Hx)|(r & Hr)].
    + left. exists (k, x). split; [by apply elem_of_map_to_list|done].
    + right. exists (r, Some c). split; [by apply elem_of_map_to_list|done].
Qed.

(** What the invariant looks at of a cloud connection. *)
Definition core (x : ClientCloudConnection) : nat * option nat :=
  (client_server_connection_selector_ x, client_server_connection_ x).

(** Steps that change streams and gates only. *)
Record same (w w' : World) : Prop := {
  same_servers : client_servers_ w' = client_servers_ w;
  same_clouds : client_clouds_ w' = client_clouds_ w;
  same_selectors : selectors w' = selectors w;
  same_requests : requests w' = requests w;
  same_conns : forall c, conn_server_id <$> connections w' !! c = conn_server_id <$> connections w !! c;
  same_ccs : forall k, core <$> cloud_connections w' !! k = core <$> cloud_connections w !! k;
  same_next : (next_address w <= next_address w')%nat;
}.

#[export] Instance same_preorder : PreOrder same.
Proof.
  split; [by intros w; constructor|]. intros a b c [] []. constructor; try congruence; try lia;
    intros; by etransitivity.
Qed.

Lemma fmap_None_same {A B} (f : A -> B) (o o' : option A) : f <$> o' = f <$> o -> o = None -> o' = None.
Proof. by intros E ->; destruct o'. Qed.

Lemma fmap_Some_same {A B} (f : A -> B) (o o' : option A) y :
  f <$> o' = f <$> o -> o' = Some y -> exists x, o = Some x /\ f x = f y.
Proof. intros E ->. destruct o as [x|]; simplify_eq/=. eauto. Qed.

Lemma same_held w w' c : same w w' -> c ∈ held_list w' -> c ∈ held_list w.
Proof.
  intros S. rewrite !elem_of_held. intros [(k & y & Hk & Hy)|(r & Hr)].
  - left. destruct (fmap_Some_same _ _ _ _ (same_ccs _ _ S k) Hk) as (x & Hx & Ec).
    exists k, x. split; [done|]. injection Ec. congruence.
  - right. exists r. by rewrite <- (same_requests _ _ S).
Qed.

Lemma same_alive w w' c : same w w' -> alive w c <-> alive w' c.
Proof.
  intros S. unfold alive. pose proof (same_conns _ _ S c) as E.
  destruct (connections w' !! c), (connections w !! c); simpl in E; try done; by split.
Qed.

Lemma same_wf w w' : same w w' -> wf w -> wf w'.
Proof.
  intros S I. constructor.
  - intros c Hc. apply (same_alive w w' c S), (wf_held w I). by eapply same_held.
  - intros c conn Hc. destruct (fmap_Some_same _ _ _ _ (same_conns _ _ S c) Hc) as (x & Hx & <-).
    rewrite (same_servers _ _ S). by apply (wf_view w I).
  - rewrite (same_servers _ _ S). apply (wf_ids w I).
  - intros sid s c Hs Hv. rewrite (same_servers _ _ S) in Hs.
    destruct (wf_cache w I _ _ _ Hs Hv) as [Hn Hc]. pose proof (same_next _ _ S).
    split; [lia|]. intros conn Ec.
    destruct (fmap_Some_same _ _ _ _ (same_conns _ _ S c) Ec) as (x & Hx & <-). by apply Hc.
  - unfold known. rewrite (same_servers _ _ S), (same_selectors _ _ S). apply (wf_sel w I).
  - unfold known. rewrite (same_servers _ _ S), (same_selectors _ _ S), (same_clouds _ _ S).
    apply (wf_clouds w I).
  - intros k y Hk. destruct (fmap_Some_same _ _ _ _ (same_ccs _ _ S k) Hk) as (x & Hx & Ec).
    rewrite (same_selectors _ _ S). injection Ec as <- _. by eapply (wf_cc w I).
  - intros n Hn. destruct (wf_fresh w I n) as (A & B & C & D); [pose proof (same_next _ _ S); lia|].
    rewrite (same_selectors _ _ S), (same_requests _ _ S). split_and!; auto.
    + exact (fmap_None_same _ _ _ (same_conns _ _ S n) A).
    + exact (fmap_None_same _ _ _ (same_ccs _ _ S n) C).
Qed.

Lemma same_upd_cc k f w : (forall x, core (f x) = core x) -> same w (upd_cc k f w).
Proof.
  intros Hf. constructor; try done. intros i. unfold upd_cc. simpl.
  destruct (decide (i = k)) as [->|].
  - rewrite lookup_alter_eq. destruct (cloud_connections w !! k); simpl; [|done]. by rewrite Hf.
  - by rewrite lookup_alter_ne.
Qed.

Lemma same_map_ccs f w :
  (forall x, core (f x) = core x) -> same w (set_cloud_connections (f <$> cloud_connections w) w).
Proof.
  intros Hf. constructor; try done. intros i. simpl. rewrite lookup_fmap.
  destruct (cloud_connections w !! i); simpl; [|done]. by rewrite Hf.
Qed.

Lemma same_stream_id w : same w (get_stream_id w).2.
Proof. by constructor. Qed.

Lemma same_allocate w : same w (allocate w).2.
Proof. constructor; try done. simpl. lia. Qed.

Lemma same_put_conn c conn conn' w :
  connections w !! c = Some conn -> conn_server_id conn' = conn_server_id conn ->
  same w (set_connections (<[c := conn']> (connections w)) w).
Proof.
  intros Hc He. constructor; try done. intros i. simpl. destruct (decide (i = c)) as [->|].
  - rewrite lookup_insert_eq, Hc. simpl. by rewrite He.
  - by rewrite lookup_insert_ne.
Qed.

Lemma same_put_streams c m w : same w (put_streams c m w).
Proof.
  unfold put_streams. destruct (connections w !! c) eqn:E; [|reflexivity]. by eapply same_put_conn.
Qed.

#[local] Hint Resolve same_upd_cc same_stream_id same_allocate same_put_streams same_map_ccs : core.

(** ** Pointers *)

(** The world with other connections, and all else as it was. *)
Definition same_rest (w w' : World) : Prop := w' = set_connections (connections w') w.

Lemma release_rest c w : same_rest w (release c w).
Proof.
  unfold same_rest, release. destruct c as [c|]; [|by destruct w].
  case_bool_decide; [by destruct w|done].
Qed.

Lemma release_held c c' w :
  c' ∈ held_list w -> connections (release c w) !! c' = connections w !! c'.
Proof.
  intros Hh. unfold release. destruct c as [c|]; [|done]. case_bool_decide; [done|].
  simpl. apply lookup_delete_ne. by intros ->.
Qed.

Lemma release_subset c w : connections (release c w) ⊆ connections w.
Proof.
  unfold release. destruct c as [c|]; [|done]. case_bool_decide; [done|]. apply delete_subseteq.
Qed.

Lemma release_wf c w : wf w -> wf (release c w).
Proof.
  intros I. pose proof (release_rest c w) as R. pose proof (release_subset c w) as Sb.
  assert (held_list (release c w) = held_list w) as Eh by (by rewrite R).
  constructor.
  - intros c' Hc. rewrite Eh in Hc. unfold alive. rewrite release_held by done. by apply (wf_held w I).
  - intros c' conn Hc. rewrite R. apply (wf_view w I). by eapply lookup_weaken.
  - rewrite R. apply (wf_ids w I).
  - rewrite R. intros sid s c' Hs Hv. simpl in Hs. destruct (wf_cache w I _ _ _ Hs Hv) as [Hn Hc].
    split; [done|]. intros conn Ec. apply Hc. by eapply lookup_weaken.
  - rewrite R. apply (wf_sel w I).
  - rewrite R. apply (wf_clouds w I).
  - rewrite R. apply (wf_cc w I).
  - intros n Hn. rewrite R in Hn. destruct (wf_fresh w I n Hn) as (A & B). rewrite R. split; [|done].
    simpl. destruct (connections (release c w) !! n) eqn:E; [|done].
    by rewrite (lookup_weaken _ _ _ _ E Sb) in A.
Qed.

Lemma wf_set_connection k c w :
  wf w -> (forall c', c = Some c' -> alive w c') -> wf (upd_cc k (with_connection c) w).
Proof.
  intros I Ha. constructor; try apply I.
  - intros c' Hc. apply elem_of_held in Hc as [(i & x & Hi & Hx)|(r & Hr)]; simpl in *.
    + destruct (decide (i = k)) as [->|].
      * rewrite lookup_alter_eq in Hi. destruct (cloud_connections w !! k); simplify_eq/=. by apply Ha.
      * rewrite lookup_alter_ne in Hi by done. apply (wf_held w I), elem_of_held. eauto.
    + apply (wf_held w I), elem_of_held. eauto.
  - intros i x Hi. simpl in *. destruct (decide (i = k)) as [->|].
    + rewrite lookup_alter_eq in Hi. destruct (cloud_connections w !! k) eqn:E; simplify_eq/=.
      by eapply (wf_cc w I).
    + rewrite lookup_alter_ne in Hi by done. by eapply (wf_cc w I).
  - intros n Hn. destruct (wf_fresh w I n Hn) as (A & B & C & D). simpl. split_and!; auto.
    rewrite lookup_alter_None. auto.
Qed.

Lemma assign_wf k c w :
  wf w -> (forall c', c = Some c' -> alive w c') -> wf (assign_connection k c w).
Proof.
  intros I Ha. unfold assign_connection. destruct (cloud_connections w !! k); [|done].
  by apply release_wf, wf_set_connection.
Qed.

(** The assignment changes the pointer, and may end the connection it led to,
    but not the new one. *)
Lemma assign_connection_spec k c w x :
  cloud_connections w !! k = Some x ->
  let w' := assign_connection k c w in
  cloud_connections w' = <[k := with_connection c x]> (cloud_connections w) /\
  selectors w' = selectors w /\
  (forall c', c = Some c' -> connections w' !! c' = connections w !! c').
Proof.
  intros Hk. simpl. unfold assign_connection. rewrite Hk.
  set (w1 := upd_cc k (with_connection c) w).
  assert (cloud_connections w1 = <[k := with_connection c x]> (cloud_connections w)) as E.
  { unfold w1, upd_cc. simpl. apply map_eq. intros i. destruct (decide (i = k)) as [->|].
    - by rewrite lookup_alter_eq, lookup_insert_eq, Hk.
    - by rewrite lookup_alter_ne, lookup_insert_ne. }
  rewrite (release_rest (client_server_connection_ x) w1). simpl. split_and!; [done|done|].
  intros c' ->. rewrite release_held; [done|]. apply elem_of_held. left. exists k.
  exists (with_connection (Some c') x). by rewrite E, lookup_insert_eq.
Qed.

(** ** The cache of connections *)

Section Environment.
Context (initial : nat -> Tcp.ConnectionState) (load_root : Z -> option Server).

(** The world with a new connection, which the cache of its server views. *)
Lemma new_connection_wf w sid sc conn id :
  wf w -> client_servers_ w !! sid = Some sc -> conn_server_id conn = sid ->
  Lock (client_server_connection sc) w = None ->
  wf {| client_clouds_ := client_clouds_ w;
        client_servers_ := <[sid := {| server := server sc;
                                       client_server_connection := Some (next_address w) |}]>
                             (client_servers_ w);
        aether_servers_ := aether_servers_ w; selectors := selectors w;
        connections := <[next_address w := conn]> (connections w);
        cloud_connections := cloud_connections w; requests := requests w;
        next_address := S (next_address w); next_stream_id := id |}.
Proof.
  intros I Hs Hid El.
  assert (forall s, known w s -> is_Some (<[sid := {| server := server sc;
            client_server_connection := Some (next_address w) |}]> (client_servers_ w) !! server_id s))
    as Hkn by (intros s [? Hk]; apply lookup_insert_is_Some; destruct (decide (sid = server_id s)); eauto).
  constructor; simpl.
  - intros c Hc. unfold alive. simpl. apply lookup_insert_is_Some. destruct (decide (next_address w = c)); [eauto|].
    right. split; [done|]. by apply (wf_held w I).
  - intros c conn' Hc. apply lookup_insert_Some in Hc as [[<- <-]|[Hne Hc]].
    + rewrite Hid. rewrite lookup_insert_eq. eauto.
    + destruct (wf_view w I _ _ Hc) as (s' & Hs' & Hv).
      rewrite lookup_insert_ne; [eauto|]. intros ->. rewrite Hs in Hs'. simplify_eq.
      unfold Lock in El. rewrite Hv, Hc in El. done.
  - intros i s Hi. apply lookup_insert_Some in Hi as [[<- <-]|[_ Hi]]; simpl; by apply (wf_ids w I).
  - intros i s c Hi Hv. apply lookup_insert_Some in Hi as [[<- <-]|[Hne Hi]]; simplify_eq/=.
    + split; [lia|]. intros conn'. rewrite lookup_insert_eq. congruence.
    + destruct (wf_cache w I _ _ _ Hi Hv) as [Hn Hc]. split; [lia|]. intros conn'.
      rewrite lookup_insert_ne by lia. apply Hc.
  - intros i s Hi. destruct (wf_sel w I _ _ Hi) as (A & B & C). split_and!; auto.
    revert C. apply List.Forall_impl. intros x. apply Hkn.
  - intros uid cc Hu. destruct (wf_clouds w I _ _ Hu) as [(l & El' & Fl) B]. split; [|done].
    exists l. split; [done|]. revert Fl. apply List.Forall_impl. intros x. apply Hkn.
  - apply (wf_cc w I).
  - intros n Hn. destruct (wf_fresh w I n) as (A & B); [lia|]. split; [|done].
    rewrite lookup_insert_ne by lia. done.
Qed.

(** A connection to a known server is found or made, and it is in the cache. *)
Lemma CreateConnection_spec s w :
  wf w -> known w s ->
  exists c w' conn, CreateConnection initial s w = Defined (c, w') /\ wf w' /\
    cloud_connections w' = cloud_connections w /\ requests w' = requests w /\
    selectors w' = selectors w /\
    connections w ⊆ connections w' /\
    connections w' !! c = Some conn /\ conn_server_id conn = server_id s.
Proof.
  intros I [sc Hs]. unfold CreateConnection, FindCacheClientServerConnection. rewrite Hs.
  destruct (Lock (client_server_connection sc) w) as [c|] eqn:El.
  - unfold Lock in El. destruct (client_server_connection sc) as [v|] eqn:Ev; [|done].
    destruct (connections w !! v) as [conn|] eqn:Ec; simplify_eq.
    exists c, w, conn. split_and!; auto.
    by apply (wf_cache w I _ _ _ Hs Ev).
  - destruct (wf_fresh w I (next_address w)) as (Fc & Fs & Fk & Fr); [done|].
    unfold CacheClientServerConnection. simpl. rewrite Hs.
    eexists _, _, _. split; [reflexivity|]. simpl.
    split_and!; auto; [|by apply insert_subseteq|apply lookup_insert_eq|done].
    refine (new_connection_wf w (server_id s) sc
      {| conn_server_id := server_id s; conn_state := initial (next_address w); streams_ := ∅ |}
      _ I Hs eq_refl El).
Qed.

Lemma wf_advance sel s w :
  wf w -> selectors w !! sel = Some s ->
  wf (set_selectors (<[sel := (NextServer s).2]> (selectors w)) w).
Proof.
  intros I Hs. destruct (wf_sel w I _ _ Hs) as (A & B & C).
  destruct (NextServer_step s A) as (_ & A' & El & _).
  constructor; simpl; try apply I.
  - intros i s' Hi. apply lookup_insert_Some in Hi as [[_ <-]|[_ Hi]]; [|by apply (wf_sel w I _ _ Hi)].
    rewrite El. split_and!; auto.
  - intros uid cc Hu. destruct (wf_clouds w I _ _ Hu) as [D E]. split; [done|]. intros i Hi.
    apply lookup_insert_is_Some'. right. by apply E.
  - intros k x Hk. apply lookup_insert_is_Some'. right. by eapply (wf_cc w I).
  - intros n Hn. destruct (wf_fresh w I n Hn) as (E & F & G & H). split_and!; auto.
    rewrite lookup_insert_ne; [done|]. intros ->. congruence.
Qed.

Lemma NextConnection_spec sel s w :
  wf w -> selectors w !! sel = Some s ->
  exists oc w', NextConnection initial sel w = Defined (oc, w') /\ wf w' /\
    cloud_connections w' = cloud_connections w /\ requests w' = requests w /\
    selectors w' = <[sel := (NextServer s).2]> (selectors w) /\
    connections w ⊆ connections w' /\
    match (NextServer s).1, oc with
    | Some x, Some c =>
        exists conn, connections w' !! c = Some conn /\ conn_server_id conn = server_id x
    | None, None => True
    | _, _ => False
    end.
Proof.
  intros I Hs. unfold NextConnection. rewrite Hs. pose proof (wf_advance sel s w I Hs) as I1.
  destruct (NextServer s) as [[x|] s'] eqn:En; cbn [fst snd] in *.
  - destruct (CreateConnection_spec x _ I1) as (c & w' & conn & -> & I' & Ec & Er & Es & Sb & Hc & Hid).
    { destruct (wf_sel w I _ _ Hs) as (_ & _ & C). rewrite Forall_forall in C. apply C.
      unfold NextServer in En. destruct (server_list_ s !! server_list_it_ s) eqn:E; simplify_eq.
      by eapply list_elem_of_In, list_elem_of_lookup_2. }
    exists (Some c), w'. split_and!; auto. eauto.
  - eexists None, _. split; [reflexivity|]. split_and!; auto.
Qed.

(** The loop of [Connect] takes the server [connect_pick] chooses. *)
Lemma pick_connection_spec tries k sel s x w :
  wf w -> cloud_connections w !! k = Some x -> selectors w !! sel = Some s ->
  exists w' oc, pick_connection initial tries k sel w = Defined w' /\ wf w' /\
    (tries <> 0%nat -> cloud_connections w' = <[k := with_connection oc x]> (cloud_connections w)) /\
    match (first_of tries s).1, oc with
    | Some sv, Some c =>
        exists conn, connections w' !! c = Some conn /\ conn_server_id conn = server_id sv
    | None, None => True
    | None, Some _ => tries = 0%nat
    | _, _ => False
    end.
Proof.
  revert s x w. induction tries as [|tries IH]; intros s x w I Hk Hs; simpl.
  { exists w, None. split_and!; auto. done. }
  destruct (NextConnection_spec sel s w I Hs) as (oc & w1 & -> & I1 & Ec & Er & Es & Sb & Hm).
  assert (cloud_connections w1 !! k = Some x) as Hk1 by congruence.
  destruct (assign_connection_spec k oc w1 x Hk1) as (Ac & As & Al).
  assert (wf (assign_connection k oc w1)) as I2.
  { apply assign_wf; [done|]. intros c ->. destruct (NextServer s).1; [|done].
    destruct Hm as (conn & Hc & _). by exists conn. }
  destruct (NextServer s) as [[sv|] s'] eqn:En; cbn [fst snd] in *.
  - destruct oc as [c|]; [|done]. destruct Hm as (conn & Hc & Hid).
    exists (assign_connection k (Some c) w1), (Some c). split_and!; auto.
    + intros _. by rewrite Ac, Ec.
    + exists conn. split; [|done]. by rewrite Al.
  - destruct oc as [c|]; [done|].
    destruct (IH s' (with_connection None x) (assign_connection k None w1)) as (w' & oc & E & I' & Hc & Hm').
    { done. } { by rewrite Ac, lookup_insert_eq. } { by rewrite As, Es, lookup_insert_eq. }
    destruct tries as [|tries].
    + simpl in E. simplify_eq. exists (assign_connection k None w1), None. split_and!; auto.
      intros _. by rewrite Ac, Ec.
    + exists w', oc. split_and!; auto.
      * intros _. rewrite Hc by done. rewrite Ac, Ec, insert_insert_eq. done.
      * destruct (first_of (S tries) s').1, oc; done.
Qed.

(** ** Streams *)

(** The gate of a destination leads to the stream of the destination in the
    connection. *)
Definition tied (w : World) (x : ClientCloudConnection) (c : nat) (uid : Z) : Prop :=
  exists g conn m, gates_ x !! uid = Some g /\ connections w !! c = Some conn /\
    streams_ conn !! uid = Some m /\ tied_to g = ms_address m.

Lemma GetMessageStream_spec c uid w :
  alive w c ->
  exists a w' conn m, GetMessageStream c uid w = Defined (a, w') /\ same w w' /\
    cloud_connections w' = cloud_connections w /\
    connections w' !! c = Some conn /\ streams_ conn !! uid = Some m /\ ms_address m = a /\
    (forall x u, tied w x c u -> tied w' x c u).
Proof.
  intros [conn Hc]. unfold GetMessageStream. rewrite Hc.
  destruct (streams_ conn !! uid) as [m|] eqn:Em.
  - exists (ms_address m), w, conn, m. split_and!; auto. reflexivity.
  - cbn. unfold put_streams. cbn. rewrite Hc. eexists _, _, _, _. split; [reflexivity|].
    split; [|split_and!; [done|apply lookup_insert_eq|apply lookup_insert_eq|done|]].
    + constructor; try done; simpl; [|lia]. intros i. destruct (decide (i = c)) as [->|].
      * by rewrite lookup_insert_eq, Hc.
      * by rewrite lookup_insert_ne.
    + intros x u (g & cn & m & Hg & Hcn & Hm & Ht). rewrite Hc in Hcn. simplify_eq.
      eexists g, _, m. split_and!; [done|apply lookup_insert_eq| |done]. simpl.
      rewrite lookup_insert_ne; [done|]. congruence.
Qed.

Lemma upd_cc_insert k f w x :
  cloud_connections w !! k = Some x ->
  cloud_connections (upd_cc k f w) = <[k := f x]> (cloud_connections w).
Proof.
  intros Hk. unfold upd_cc. simpl. apply map_eq. intros i. destruct (decide (i = k)) as [->|].
  - by rewrite lookup_alter_eq, lookup_insert_eq, Hk.
  - by rewrite lookup_alter_ne, lookup_insert_ne.
Qed.

Lemma tie_gate_spec k c uid w x :
  alive w c -> cloud_connections w !! k = Some x -> uid ∈ dom (gates_ x) ->
  exists w' g, tie_gate k c uid w = Defined w' /\ same w w' /\
    cloud_connections w' = <[k := with_gates g x]> (cloud_connections w) /\
    dom g = dom (gates_ x) /\ tied w' (with_gates g x) c uid /\
    (forall u, tied w x c u -> tied w' (with_gates g x) c u).
Proof.
  intros Ha Hk Hd. unfold tie_gate.
  destruct (GetMessageStream_spec c uid w Ha) as (a & w1 & conn & m & -> & S1 & Ec & Hc & Hm & Hma & Ht).
  assert (cloud_connections w1 !! k = Some x) as Hk1 by congruence.
  eexists _, _. split; [reflexivity|]. split.
  { etransitivity; [exact S1|]. by apply same_upd_cc. }
  rewrite (upd_cc_insert _ _ _ _ Hk1), Ec.
  apply elem_of_dom in Hd as [g Hg].
  split_and!; [reflexivity|apply dom_alter_L| |].
  - eexists _, conn, m. simpl. rewrite lookup_alter_eq, Hg. by split_and!.
  - intros u Hu. destruct (decide (u = uid)) as [->|Hne].
    + eexists _, conn, m. simpl. rewrite lookup_alter_eq, Hg. by split_and!.
    + destruct (Ht x u Hu) as (g' & cn & m' & Hg' & Hcn & Hm' & E).
      exists g', cn, m'. simpl. rewrite lookup_alter_ne by done. by split_and!.
Qed.

Lemma tie_gates_spec k c uids w x :
  alive w c -> cloud_connections w !! k = Some x -> (forall u, u ∈ uids -> u ∈ dom (gates_ x)) ->
  exists w' g, tie_gates k c uids w = Defined w' /\ same w w' /\
    cloud_connections w' = <[k := with_gates g x]> (cloud_connections w) /\
    dom g = dom (gates_ x) /\
    (forall u, u ∈ uids -> tied w' (with_gates g x) c u) /\
    (forall u, tied w x c u -> tied w' (with_gates g x) c u).
Proof.
  revert w x. induction uids as [|uid uids IH]; intros w x Ha Hk Hd; cbn [tie_gates].
  - exists w, (gates_ x). replace (with_gates (gates_ x) x) with x by by destruct x.
    rewrite insert_id by done. split_and!; auto; [reflexivity|]. intros u Hu. by apply elem_of_nil in Hu.
  - destruct (tie_gate_spec k c uid w x Ha Hk) as (w1 & g & -> & S1 & Ec & Ed & Ht & Hp); [apply Hd; by left|].
    destruct (IH w1 (with_gates g x)) as (w2 & g2 & E2 & S2 & Ec2 & Ed2 & Ht2 & Hp2).
    { by apply (same_alive w w1 c S1). } { by rewrite Ec, lookup_insert_eq. }
    { intros u Hu. simpl. rewrite Ed. apply Hd. by right. }
    exists w2, g2. simpl in Ed2.
    replace (with_gates g2 (with_gates g x)) with (with_gates g2 x) in * by done.
    split_and!; [done|by etransitivity|by rewrite Ec2, Ec, insert_insert_eq|congruence| |auto].
    intros u Hu. apply elem_of_cons in Hu as [->|Hu]; auto.
Qed.

Lemma use_connection_spec k w x c :
  wf w -> cloud_connections w !! k = Some x -> client_server_connection_ x = Some c -> alive w c ->
  exists w' y, use_connection k w = Defined w' /\ same w w' /\
    cloud_connections w' = <[k := y]> (cloud_connections w) /\
    client_server_connection_ y = Some c /\ dom (gates_ y) = dom (gates_ x) /\
    connection_error_subscription_ y = Some c /\ new_stream_event_subscription_ y = Some c /\
    (forall u, u ∈ dom (gates_ x) -> tied w' y c u).
Proof.
  intros I Hk Hx [conn Hc]. unfold use_connection. rewrite Hk, Hx, Hc.
  set (w1 := match conn_state conn with Tcp.kDisconnected => _ | _ => _ end).
  assert (same w w1 /\ exists b, cloud_connections w1 = <[k := with_notify b x]> (cloud_connections w))
    as (S1 & b & E1).
  { assert (w1 = w \/ w1 = upd_cc k OnConnectionError w) as [->| ->]
      by (subst w1; destruct (conn_state conn); auto).
    - split; [reflexivity|]. exists (reconnect_notify_ x). destruct x. by rewrite insert_id.
    - split; [by apply same_upd_cc|]. exists true. by apply upd_cc_insert. }
  assert (cloud_connections w1 !! k = Some (with_notify b x)) as K1 by by rewrite E1, lookup_insert_eq.
  set (f2 := fun x => with_subscriptions (Some c) (new_stream_event_subscription_ x) x).
  set (w2 := upd_cc k f2 w1).
  assert (same w w2) as S2 by (etransitivity; [exact S1|by apply same_upd_cc]).
  assert (cloud_connections w2 = <[k := f2 (with_notify b x)]> (cloud_connections w)) as E2
    by (unfold w2; by rewrite (upd_cc_insert _ _ _ _ K1), E1, insert_insert_eq).
  destruct (tie_gates_spec k c (keys (gates_ x)) w2 (f2 (with_notify b x)))
    as (w3 & g & -> & S3 & E3 & Ed & Ht & _).
  { apply (same_alive w w2 c S2). by exists conn. } { by rewrite E2, lookup_insert_eq. }
  { intros u. by rewrite elem_of_keys. }
  assert (cloud_connections w3 !! k = Some (with_gates g (f2 (with_notify b x)))) as K3
    by by rewrite E3, lookup_insert_eq.
  eexists _, _. split; [reflexivity|]. split.
  { etransitivity; [exact S2|]. etransitivity; [exact S3|]. by apply same_upd_cc. }
  split; [rewrite (upd_cc_insert _ _ _ _ K3), E3, E2, !insert_insert_eq; reflexivity|].
  split_and!; try done. intros u Hu. rewrite <- elem_of_keys in Hu.
  destruct (Ht u Hu) as (g' & cn & m & ?). by exists g', cn, m.
Qed.

(** Connecting gives a cloud connection the connection to the server the selector
    chooses, and ties all its gates to it. *)
Lemma Connect_spec k x s w :
  wf w -> cloud_connections w !! k = Some x ->
  selectors w !! client_server_connection_selector_ x = Some s ->
  exists w' y sv c conn, Connect initial k w = Defined w' /\ wf w' /\
    cloud_connections w' = <[k := y]> (cloud_connections w) /\
    (connect_pick s).1 = Some sv /\
    client_server_connection_ y = Some c /\
    connections w' !! c = Some conn /\ conn_server_id conn = server_id sv /\
    connection_error_subscription_ y = Some c /\ new_stream_event_subscription_ y = Some c /\
    dom (gates_ y) = dom (gates_ x) /\ (forall u, u ∈ dom (gates_ x) -> tied w' y c u).
Proof.
  intros I Hk Hs. unfold Connect. rewrite Hk.
  destruct (wf_sel w I _ _ Hs) as (Hi & Hne & _).
  destruct (pick_connection_spec 2 k _ s x w I Hk Hs) as (w1 & oc & -> & I1 & E1 & Hm).
  specialize (E1 ltac:(done)). change (first_of 2 s) with (connect_pick s) in Hm.
  destruct (connect_pick_spec s Hi Hne) as (Ep & _).
  destruct (lookup_mod_is_Some (server_list_ s) (server_list_it_ s) Hne) as [sv Hsv].
  rewrite Ep, Hsv in Hm. destruct oc as [c|]; [|done]. destruct Hm as (conn & Hc & Hid).
  destruct (use_connection_spec k w1 (with_connection (Some c) x) c I1)
    as (w2 & y & -> & S2 & E2 & Hy & Hd & Hes & Hns & Ht); [by rewrite E1, lookup_insert_eq|done|by exists conn|].
  pose proof (same_conns _ _ S2 c) as Ec. rewrite Hc in Ec.
  destruct (connections w2 !! c) as [conn'|] eqn:Hc2; [|done]. simpl in Ec. injection Ec as Ec.
  exists w2, y, sv, c, conn'. split_and!; auto; try congruence.
  - by eapply same_wf.
  - by rewrite E2, E1, insert_insert_eq.
Qed.

(** ** Clouds *)

(** More servers in the cache: new entries have no connection yet. *)
Definition extends (m m' : gmap Z ServerCache) : Prop :=
  m ⊆ m' /\ forall sid s, m' !! sid = Some s -> m !! sid = Some s \/
    (server_id (server s) = sid /\ client_server_connection s = None).

#[export] Instance extends_preorder : PreOrder extends.
Proof.
  split; [split; [done|auto]|]. intros a b c [S1 H1] [S2 H2]. split; [by etransitivity|].
  intros sid s Hs. destruct (H2 _ _ Hs) as [Hb|]; auto.
Qed.

Lemma extends_insert sid s m :
  m !! sid = None -> server_id (server s) = sid -> client_server_connection s = None ->
  extends m (<[sid := s]> m).
Proof.
  intros Hn Hi Hv. split; [by apply insert_subseteq|].
  intros i s' Hs. apply lookup_insert_Some in Hs as [[<- <-]|[_ Hs]]; auto.
Qed.

Lemma extends_known w m a s :
  extends (client_servers_ w) m -> known w s -> known (set_servers m a w) s.
Proof. intros [Sb _] [x Hx]. exists x. by eapply lookup_weaken. Qed.

Lemma extends_wf w m a : extends (client_servers_ w) m -> wf w -> wf (set_servers m a w).
Proof.
  intros E I. pose proof E as [Sb Hn]. constructor; simpl; try apply I.
  - intros c conn Hc. destruct (wf_view w I _ _ Hc) as (s & Hs & Hv). exists s.
    split; [by eapply lookup_weaken|done].
  - intros sid s Hs. destruct (Hn _ _ Hs) as [Hs'|[? _]]; [by apply (wf_ids w I)|done].
  - intros sid s c Hs Hv. destruct (Hn _ _ Hs) as [Hs'|[_ ?]]; [by eapply (wf_cache w I)|congruence].
  - intros i s Hi. destruct (wf_sel w I _ _ Hi) as (A & B & C). split_and!; auto.
    revert C. apply List.Forall_impl. intros x. by apply extends_known.
  - intros uid cc Hu. destruct (wf_clouds w I _ _ Hu) as [(l & El & Fl) B]. split; [|done].
    exists l. split; [done|]. revert Fl. apply List.Forall_impl. intros x. by apply extends_known.
Qed.

Lemma put_cloud_wf uid c l w :
  wf w -> servers_ c = (Loaded <$> l) -> Forall (known w) l -> wf (put_cloud uid c w).
Proof.
  intros I El Fl. constructor; simpl; try apply I.
  intros i cc Hi. apply lookup_insert_Some in Hi as [[<- <-]|[_ Hi]]; [|by apply (wf_clouds w I _ _ Hi)].
  simpl. split; [eauto|]. intros sel Hsel.
  destruct (client_clouds_ w !! uid) as [cc|] eqn:Eu; [|done]. by apply (wf_clouds w I _ _ Eu).
Qed.

Lemma cache_servers_spec ps m m' :
  cache_servers ps m = Defined m' ->
  extends m m' /\ exists l, ps = (Loaded <$> l) /\ Forall (fun s => is_Some (m' !! server_id s)) l.
Proof.
  revert m. induction ps as [|[s|o] ps IH]; intros m E; simplify_eq/=.
  - split; [reflexivity|]. by exists [].
  - destruct (IH _ E) as (X & l & -> & Fl).
    assert (extends m (cache_server s m) /\ is_Some (cache_server s m !! server_id s)) as [X0 K0].
    { unfold cache_server. destruct (m !! server_id s) eqn:Es; [by split; [reflexivity|]|].
      split; [by apply extends_insert|]. rewrite lookup_insert_eq. eauto. }
    split; [by etransitivity|]. exists (s :: l). split; [done|]. constructor; [|done].
    destruct K0 as [v Hv]. exists v. eapply lookup_weaken; [exact Hv|apply X].
Qed.

Lemma RegisterCloud_wf uid c w w' : wf w -> RegisterCloud uid c w = Defined w' -> wf w'.
Proof.
  intros I E. unfold RegisterCloud in E.
  destruct (cache_servers (servers_ c) (client_servers_ w)) as [m|] eqn:Em; [|done]. simplify_eq.
  destruct (cache_servers_spec _ _ _ Em) as (X & l & El & Fl).
  eapply put_cloud_wf; [by apply extends_wf|exact El|exact Fl].
Qed.

Lemma add_descriptors_spec ds c l w c' w' :
  wf w -> servers_ c = (Loaded <$> l) -> Forall (known w) l ->
  add_descriptors ds c w = (c', w') ->
  wf w' /\ client_clouds_ w' = client_clouds_ w /\
  exists l', servers_ c' = (Loaded <$> l') /\ Forall (known w') l' /\
    (server_id <$> l') = (server_id <$> l) ++ (d_server_id <$> ds).
Proof.
  revert c l w. induction ds as [|d ds IH]; intros c l w I El Fl E; cbn [add_descriptors] in E.
  { simplify_eq. split; [done|]. split; [done|]. exists l. by rewrite app_nil_r. }
  assert (forall c1 w1 s, wf w1 -> client_clouds_ w1 = client_clouds_ w ->
    servers_ c1 = servers_ c ++ [Loaded s] -> server_id s = d_server_id d -> known w1 s ->
    Forall (known w1) l -> add_descriptors ds c1 w1 = (c', w') ->
    wf w' /\ client_clouds_ w' = client_clouds_ w /\
    exists l', servers_ c' = (Loaded <$> l') /\ Forall (known w') l' /\
      (server_id <$> l') = (server_id <$> l) ++ (d_server_id <$> d :: ds)) as G.
  { intros c1 w1 s I1 E1 Ec Hid Hk Fl1 E'.
    destruct (IH c1 (l ++ [s]) w1) as (I2 & E2 & l' & A & B & C); auto.
    - by rewrite Ec, El, fmap_app.
    - apply Forall_app. by split; [|constructor].
    - split; [done|]. split; [congruence|]. exists l'. split_and!; auto.
      rewrite C, fmap_app, <- (assoc_L (++)). cbn. by rewrite Hid. }
  unfold add_descriptor in E. destruct (client_servers_ w !! d_server_id d) as [s|] eqn:Es.
  - apply (G (AddServer (server s) c) w (server s)); try done; [by apply (wf_ids w I)|].
    unfold known. rewrite (wf_ids w I _ _ Es). eauto.
  - set (sv := make_server d) in *. destruct (make_server_channels d) as [Hid _]. fold sv in Hid.
    assert (extends (client_servers_ w)
      (<[d_server_id d := {| server := sv; client_server_connection := None |}]> (client_servers_ w))) as X
      by (by apply extends_insert).
    refine (G _ _ sv _ _ _ Hid _ _ E); [by apply extends_wf|done|done| |].
    + unfold known. simpl. rewrite Hid, lookup_insert_eq. eauto.
    + revert Fl. apply List.Forall_impl. intros x. by apply extends_known.
Qed.

(** Registering descriptors makes a cloud of exactly their servers. *)
Lemma RegisterCloud_descriptors_spec cu uid ds w :
  wf w -> is_Some (client_clouds_ w !! cu) ->
  exists w' cc l, RegisterCloud_descriptors cu uid ds w = Defined w' /\ wf w' /\
    client_clouds_ w' !! uid = Some cc /\
    client_stream_selector cc = client_clouds_ w !! uid ≫= client_stream_selector /\
    servers_ (cloud cc) = (Loaded <$> l) /\ (server_id <$> l) = (d_server_id <$> ds).
Proof.
  intros I [own Ho]. unfold RegisterCloud_descriptors.
  destruct (add_descriptors ds WorkCloud w) as [c w1] eqn:Ea.
  destruct (add_descriptors_spec ds WorkCloud [] w c w1 I) as (I1 & E1 & l & El & Fl & Ids); [done|done|done|].
  rewrite E1, Ho. eexists _, _, l. split; [reflexivity|].
  split; [by eapply put_cloud_wf|]. split; [apply lookup_insert_eq|]. cbn. by rewrite E1.
Qed.

Lemma RegisterCloud_descriptors_wf cu uid ds w w' :
  wf w -> RegisterCloud_descriptors cu uid ds w = Defined w' -> wf w'.
Proof.
  intros I E. destruct (client_clouds_ w !! cu) eqn:Hcu.
  - destruct (RegisterCloud_descriptors_spec cu uid ds w I) as (w1 & _ & _ & E1 & I1 & _); [by eexists|].
    rewrite E1 in E. by simplify_eq.
  - unfold RegisterCloud_descriptors in E. destruct (add_descriptors ds WorkCloud w) as [c w1] eqn:Ea.
    destruct (add_descriptors_spec ds WorkCloud [] w c w1 I) as (_ & E1 & _); [done|done|done|].
    by rewrite E1, Hcu in E.
Qed.

Lemma selector_wf uid w o w' :
  wf w -> GetCloudServerConnectionSelector load_root uid w = Defined (o, w') ->
  wf w' /\ (forall i, o = Some i -> is_Some (selectors w' !! i)).
Proof.
  intros I E. unfold GetCloudServerConnectionSelector in E.
  destruct (client_clouds_ w !! uid) as [cc|] eqn:Eu; [|by simplify_eq].
  destruct (wf_clouds w I _ _ Eu) as [(l & El & Fl) Hs].
  destruct (client_stream_selector cc) as [i|] eqn:Ei.
  { simplify_eq. split; [done|]. intros i' ?. simplify_eq. by apply Hs. }
  unfold new_list, BuildList in E. rewrite El, load_servers_loaded, remove_if_none in E.
  destruct (Loaded <$> l) as [|p0 ps0] eqn:En; [done|]. rewrite <- En in E.
  assert (l <> []) as Hne by (by intros ->).
  destruct (wf_fresh w I (next_address w)) as (Fc & Fs & Fk & Fr); [done|].
  cbn in E. injection E as <- <-. split.
  - constructor; simpl; try apply I.
    + intros sid s c Hsid Hv. destruct (wf_cache w I _ _ _ Hsid Hv). split; [lia|done].
    + intros i s Hi. apply lookup_insert_Some in Hi as [[<- <-]|[_ Hi]]; [|by apply (wf_sel w I _ _ Hi)].
      simpl. split_and!.
      * unfold in_list. simpl. lia.
      * intros E0. pose proof (sort_permutation l) as P. rewrite E0 in P.
        apply Permutation_nil in P. done.
      * change (Forall (known w) (sort l)). by rewrite sort_permutation.
    + intros i cc' Hi. apply lookup_insert_Some in Hi as [[<- <-]|[_ Hi]]; simpl.
      * split; [eauto|]. intros i' ?. simplify_eq. rewrite lookup_insert_eq. eauto.
      * destruct (wf_clouds w I _ _ Hi) as [A B]. split; [done|]. intros i' Hi'.
        apply lookup_insert_is_Some'. right. by apply B.
    + intros k x Hk. apply lookup_insert_is_Some'. right. by eapply (wf_cc w I).
    + intros n Hn. destruct (wf_fresh w I n) as (A & B & C & D); [lia|]. split_and!; auto.
      rewrite lookup_insert_ne by lia. done.
  - intros i ?. simplify_eq. simpl. rewrite lookup_insert_eq. eauto.
Qed.

(** The selector of a cloud that has none yet starts at the preferred server. *)
Lemma selector_spec uid cc l w :
  wf w -> client_clouds_ w !! uid = Some cc -> client_stream_selector cc = None ->
  servers_ (cloud cc) = (Loaded <$> l) -> l <> [] ->
  exists i w', GetCloudServerConnectionSelector load_root uid w = Defined (Some i, w') /\ wf w' /\
    selectors w' !! i = Some (new_selector (sort l)).
Proof.
  intros I Hu Hs El Hne.
  destruct (GetCloudServerConnectionSelector load_root uid w) as [[o w']|] eqn:E.
  - destruct (selector_wf uid w o w' I E) as [I' _]. revert E.
    unfold GetCloudServerConnectionSelector, new_list, BuildList. rewrite Hu, Hs, El.
    rewrite load_servers_loaded, remove_if_none. destruct l as [|s l]; [done|]. intros E. cbn in E.
    injection E as <- <-. eexists _, _. split; [reflexivity|]. split; [done|]. apply lookup_insert_eq.
  - exfalso. revert E. unfold GetCloudServerConnectionSelector, new_list, BuildList. rewrite Hu, Hs, El.
    rewrite load_servers_loaded. by destruct l.
Qed.

(** ** Programs *)

Lemma wf_insert_cc k sel w x :
  wf w -> (next_address w <= k)%nat -> is_Some (selectors w !! sel) -> core x = (sel, None) ->
  wf (set_cloud_connections (<[k := x]> (cloud_connections w))
        {| client_clouds_ := client_clouds_ w; client_servers_ := client_servers_ w;
           aether_servers_ := aether_servers_ w; selectors := selectors w;
           connections := connections w; cloud_connections := cloud_connections w;
           requests := requests w; next_address := S k; next_stream_id := next_stream_id w |}).
Proof.
  intros I Hk Hs Hx. injection Hx as Hsel Hcon. constructor; simpl; try apply I.
  - intros c Hc. apply elem_of_held in Hc as [(i & y & Hi & Hy)|(r & Hr)]; simpl in *.
    + apply lookup_insert_Some in Hi as [[<- <-]|[_ Hi]]; [congruence|].
      apply (wf_held w I), elem_of_held. eauto.
    + apply (wf_held w I), elem_of_held. eauto.
  - intros sid s c H1 H2. destruct (wf_cache w I _ _ _ H1 H2). split; [lia|done].
  - intros i y Hi. apply lookup_insert_Some in Hi as [[<- <-]|[_ Hi]]; [by rewrite Hsel|by eapply (wf_cc w I)].
  - intros n Hn. destruct (wf_fresh w I n) as (A & B & C & D); [lia|]. split_and!; auto.
    rewrite lookup_insert_ne by lia. done.
Qed.

Lemma NewCloudConnection_spec sel s w :
  wf w -> selectors w !! sel = Some s ->
  exists k w' x sv c conn, NewCloudConnection initial sel w = Defined (k, w') /\ wf w' /\
    cloud_connections w' !! k = Some x /\ (connect_pick s).1 = Some sv /\
    client_server_connection_ x = Some c /\
    connections w' !! c = Some conn /\ conn_server_id conn = server_id sv.
Proof.
  intros I Es.
  destruct (Connect_spec (next_address w) (new_cloud_connection sel) s _
    (wf_insert_cc (next_address w) sel w (new_cloud_connection sel) I (le_n _) ltac:(eauto) eq_refl)
    (lookup_insert_eq _ _ _) Es)
    as (w' & y & sv & c & conn & Ec & I' & Ek & Hp & Hy & Hc & Hid & _).
  unfold NewCloudConnection, allocate. cbn. rewrite Ec.
  exists (next_address w), w', y, sv, c, conn. split_and!; auto. by rewrite Ek, lookup_insert_eq.
Qed.

Lemma NewCloudConnection_wf sel w k w' :
  wf w -> NewCloudConnection initial sel w = Defined (k, w') -> wf w'.
Proof.
  intros I E. destruct (selectors w !! sel) as [s|] eqn:Es.
  - destruct (NewCloudConnection_spec sel s w I Es) as (k' & w1 & _ & _ & _ & _ & E1 & I1 & _).
    rewrite E1 in E. by simplify_eq.
  - unfold NewCloudConnection, Connect in E. cbn in E. rewrite lookup_insert_eq in E. simpl in E.
    unfold NextConnection in E. simpl in E. by rewrite Es in E.
Qed.

Lemma Reconnect_wf k w w' : wf w -> Reconnect initial k w = Defined w' -> wf w'.
Proof.
  intros I E. unfold Reconnect in E. destruct (cloud_connections w !! k) as [x|] eqn:Ek; [|done].
  destruct (reconnect_notify_ x); [|by simplify_eq].
  destruct (wf_cc w I _ _ Ek) as [s Hs].
  destruct (Connect_spec k (with_notify false x) s (upd_cc k (with_notify false) w))
    as (w'' & y & sv & c & conn & Ec' & I' & _);
    [eapply same_wf; [by apply same_upd_cc|exact I]
    |by rewrite (upd_cc_insert _ _ _ _ Ek), lookup_insert_eq|exact Hs|].
  rewrite Ec' in E. by simplify_eq.
Qed.

Lemma held_subset w ccs rs c :
  c ∈ held_list (set_requests rs (set_cloud_connections ccs w)) ->
  ccs ⊆ cloud_connections w -> (forall r o, rs !! r = Some (Some o) -> c = o -> requests w !! r = Some (Some o)) ->
  c ∈ held_list w.
Proof.
  rewrite !elem_of_held. intros [(k & x & Hk & Hx)|(r & Hr)] Sb Hrs; simpl in *.
  - left. exists k, x. split; [by eapply lookup_weaken|done].
  - right. exists r. by apply Hrs.
Qed.

Lemma DropCloudConnection_wf k w : wf w -> wf (DropCloudConnection k w).
Proof.
  intros I. unfold DropCloudConnection. destruct (cloud_connections w !! k) as [x|] eqn:Ek; [|done].
  apply release_wf. constructor; simpl; try apply I.
  - intros c Hc. apply (wf_held w I). apply (held_subset w (delete k (cloud_connections w)) (requests w));
      [done|apply delete_subseteq|done].
  - intros i y Hi. apply lookup_delete_Some in Hi as [_ Hi]. by eapply (wf_cc w I).
  - intros n Hn. destruct (wf_fresh w I n Hn) as (A & B & C & D). split_and!; auto.
    by rewrite lookup_delete_None; right.
Qed.

Lemma wf_set_request r c w :
  wf w -> is_Some (requests w !! r) -> (forall c', c = Some c' -> alive w c') ->
  wf (set_requests (<[r := c]> (requests w)) w).
Proof.
  intros I [o Hr] Ha. constructor; simpl; try apply I.
  - intros c' Hc. apply elem_of_held in Hc as [(i & x & Hi & Hx)|(r' & Hr')]; simpl in *.
    + apply (wf_held w I), elem_of_held. eauto.
    + apply lookup_insert_Some in Hr' as [[<- ?]|[_ Hr']]; [by apply Ha|].
      apply (wf_held w I), elem_of_held. eauto.
  - intros n Hn. destruct (wf_fresh w I n Hn) as (A & B & C & D). split_and!; auto.
    rewrite lookup_insert_ne; [done|]. congruence.
Qed.

Lemma assign_request_wf r c w :
  wf w -> (forall c', c = Some c' -> alive w c') -> wf (assign_request r c w).
Proof.
  intros I Ha. unfold assign_request. destruct (requests w !! r) eqn:Er; [|done].
  apply release_wf, wf_set_request; eauto.
Qed.

Lemma NextConnection_clouds sel w oc w' :
  NextConnection initial sel w = Defined (oc, w') -> client_clouds_ w' = client_clouds_ w.
Proof.
  unfold NextConnection, CreateConnection, CacheClientServerConnection. intros E.
  destruct (selectors w !! sel) as [s|]; [|done]. destruct (NextServer s) as [[x|] s']; [|by simplify_eq].
  destruct (FindCacheClientServerConnection _ _) as [c|]; [by simplify_eq|].
  cbn in E. destruct (client_servers_ w !! server_id x); by simplify_eq/=.
Qed.

Lemma assign_request_spec r c w o :
  requests w !! r = Some o ->
  let w' := assign_request r c w in
  requests w' = <[r := c]> (requests w) /\ selectors w' = selectors w /\
  client_clouds_ w' = client_clouds_ w /\
  (forall c', c = Some c' -> connections w' !! c' = connections w !! c').
Proof.
  intros Hr. simpl. unfold assign_request. rewrite Hr.
  set (w1 := set_requests _ w). rewrite (release_rest o w1). cbn. split_and!; auto.
  intros c' ->. rewrite release_held; [done|]. apply elem_of_held. right. exists r. apply lookup_insert_eq.
Qed.

(** A request gets the connection to the server [select_pick] chooses, if
    any. *)
Lemma SelectServer_spec r o sel s w :
  wf w -> requests w !! r = Some o -> selectors w !! sel = Some s ->
  exists oc w', SelectServer initial r sel w = Defined (oc, w') /\ wf w' /\
    requests w' !! r = Some oc /\ client_clouds_ w' = client_clouds_ w /\
    match (select_pick s).1, oc with
    | Some x, Some c =>
        exists conn, connections w' !! c = Some conn /\ conn_server_id conn = server_id x
    | None, None => True
    | _, _ => False
    end.
Proof.
  intros I Hr Es. unfold SelectServer.
  destruct (NextConnection_spec sel s w I Es) as (c1 & w1 & E1 & I1 & _ & R1 & S1 & _ & M1).
  rewrite E1. pose proof (NextConnection_clouds _ _ _ _ E1) as L1.
  assert (requests w1 !! r = Some o) as Hr1 by congruence.
  destruct (assign_request_spec r c1 w1 o Hr1) as (Ra & Sa & La & _).
  assert (wf (assign_request r c1 w1)) as I2.
  { apply assign_request_wf; [done|]. intros c' ->. destruct (NextServer s).1; [|done].
    destruct M1 as (conn & ? & _). by exists conn. }
  destruct (NextConnection_spec sel (NextServer s).2 (assign_request r c1 w1) I2)
    as (c2 & w2 & E2 & I3 & _ & R2 & _ & _ & M2).
  { by rewrite Sa, S1, lookup_insert_eq. }
  rewrite E2. pose proof (NextConnection_clouds _ _ _ _ E2) as L2.
  assert (requests w2 !! r = Some c1) as Hr2 by (by rewrite R2, Ra, lookup_insert_eq).
  destruct (assign_request_spec r c2 w2 c1 Hr2) as (Rb & Sb & Lb & Cb).
  eexists c2, _. split; [reflexivity|]. split; [|split_and!].
  - apply assign_request_wf; [done|]. intros c' ->. destruct (NextServer (NextServer s).2).1; [|done].
    destruct M2 as (conn & ? & _). by exists conn.
  - by rewrite Rb, lookup_insert_eq.
  - congruence.
  - change (select_pick s) with (NextServer (NextServer s).2).
    destruct (NextServer (NextServer s).2).1, c2; auto.
    destruct M2 as (conn & Hc & Hid). exists conn. by rewrite Cb.
Qed.

Lemma assign_request_none r c w : requests w !! r = None -> assign_request r c w = w.
Proof. unfold assign_request. by intros ->. Qed.

Lemma SelectServer_wf r sel w c w' : wf w -> SelectServer initial r sel w = Defined (c, w') -> wf w'.
Proof.
  intros I E. destruct (selectors w !! sel) as [s|] eqn:Es;
    [|unfold SelectServer, NextConnection in E; by rewrite Es in E].
  destruct (requests w !! r) as [o|] eqn:Hr.
  { destruct (SelectServer_spec r o sel s w I Hr Es) as (oc & w1 & E1 & I1 & _).
    rewrite E1 in E. by simplify_eq. }
  unfold SelectServer in E.
  destruct (NextConnection_spec sel s w I Es) as (c1 & w1 & E1 & I1 & _ & R1 & S1 & _).
  rewrite E1, assign_request_none in E by congruence.
  destruct (NextConnection_spec sel (NextServer s).2 w1 I1) as (c2 & w2 & E2 & I3 & _ & R2 & _).
  { by rewrite S1, lookup_insert_eq. }
  rewrite E2 in E. simplify_eq. by rewrite assign_request_none by congruence.
Qed.

Lemma DropRequest_wf r w : wf w -> wf (DropRequest r w).
Proof.
  intros I. unfold DropRequest. destruct (requests w !! r) as [x|] eqn:Ek; [|done].
  apply release_wf. constructor; simpl; try apply I.
  - intros c Hc. apply (wf_held w I).
    apply (held_subset w (cloud_connections w) (delete r (requests w))); [done|done|].
    intros r' o Hr' _. by apply lookup_delete_Some in Hr' as [_ ?].
  - intros n Hn. destruct (wf_fresh w I n Hn) as (A & B & C & D). split_and!; auto.
    by rewrite lookup_delete_None; right.
Qed.

Lemma NewRequest_wf w : wf w -> wf (NewRequest w).2.
Proof.
  intros I. destruct (wf_fresh w I (next_address w)) as (_ & _ & _ & Fr); [done|].
  constructor; simpl; try apply I.
  - intros c Hc. apply (wf_held w I), elem_of_held.
    apply elem_of_held in Hc as [(i & x & Hi & Hx)|(r & Hr)]; simpl in *; [eauto|].
    apply lookup_insert_Some in Hr as [[_ ?]|[_ Hr]]; [done|eauto].
  - intros sid s c H1 H2. destruct (wf_cache w I _ _ _ H1 H2). split; [lia|done].
  - intros n Hn. destruct (wf_fresh w I n) as (A & B & C & D); [lia|]. split_and!; auto.
    rewrite lookup_insert_ne by lia. done.
Qed.

(** Streams and events change no pointer. *)
Lemma CreateStream_same k uid sid w w' : CreateStream k uid sid w = Defined w' -> same w w'.
Proof.
  unfold CreateStream. intros E. destruct (cloud_connections w !! k) as [x|] eqn:Ek; [|done].
  destruct (client_server_connection_ x) as [c|]; [|done].
  assert (forall w1 g, cloud_connections w1 = cloud_connections w -> same w w1 ->
    same w (upd_cc k (with_gates g) w1)) as G.
  { intros w1 g _ S. etransitivity; [exact S|]. by apply same_upd_cc. }
  destruct (gates_ x !! uid) as [g|].
  - destruct (Splitter.RegisterStream sid (splitter g)). simplify_eq. by apply G.
  - destruct (connections w !! c) eqn:Ec.
    2:{ unfold GetMessageStream in E. by rewrite Ec in E. }
    destruct (GetMessageStream_spec c uid w) as (a & w1 & conn & m & E1 & S1 & C1 & _); [by eexists|].
    rewrite E1 in E. destruct (Splitter.RegisterStream sid _). simplify_eq. by apply G.
Qed.

Lemma CloseStream_same k uid sid w w' : CloseStream k uid sid w = Defined w' -> same w w'.
Proof.
  unfold CloseStream, CloseMessageStream. intros E.
  destruct (cloud_connections w !! k) as [x|]; [|done].
  destruct (gates_ x !! uid) as [g|]; [|by simplify_eq].
  case_match; [|simplify_eq; by apply same_upd_cc].
  destruct (client_server_connection_ x) as [c|]; [|done].
  case_match; [|done]. simplify_eq. etransitivity; [|apply same_put_streams]. by apply same_upd_cc.
Qed.

Lemma OnStreamToClient_same c uid sid w w' : OnStreamToClient c uid sid w = Defined w' -> same w w'.
Proof.
  unfold OnStreamToClient. intros E. destruct (connections w !! c); [|done].
  case_match; [simplify_eq; apply same_put_streams|].
  unfold CreateMessageStream in E. destruct (allocate w) as [a w1] eqn:Ea. simplify_eq.
  etransitivity; [apply same_allocate|]. rewrite Ea. etransitivity; [apply same_put_streams|].
  apply same_map_ccs. intros x. case_decide; [|done]. unfold NewStream. by case_match.
Qed.

Lemma ConnectionEvent_same c s e w w' : ConnectionEvent c s e w = Defined w' -> same w w'.
Proof.
  unfold ConnectionEvent. intros E. destruct (connections w !! c) as [conn|] eqn:Ec; [|done].
  simplify_eq. set (w1 := set_connections _ w).
  assert (same w w1) as S1 by by eapply same_put_conn. destruct e; [|done].
  etransitivity; [exact S1|]. apply (same_map_ccs _ w1). intros x. by case_decide.
Qed.

Lemma exec_wf o w w' : wf w -> exec initial load_root o w = Defined w' -> wf w'.
Proof.
  intros I E. destruct o; simpl in E;
    try (match type of E with context [match ?r with Defined _ => _ | Undefined => _ end] =>
           destruct r as [[? ?]|] eqn:?; [|done] end; simplify_eq).
  - by eapply RegisterCloud_wf.
  - by eapply RegisterCloud_descriptors_wf.
  - by eapply selector_wf.
  - by eapply NewCloudConnection_wf.
  - by eapply Reconnect_wf.
  - simplify_eq. by apply DropCloudConnection_wf.
  - eapply same_wf; [by eapply CreateStream_same|done].
  - eapply same_wf; [by eapply CloseStream_same|done].
  - eapply same_wf; [by eapply OnStreamToClient_same|done].
  - eapply same_wf; [by eapply ConnectionEvent_same|done].
  - simplify_eq. by apply NewRequest_wf.
  - by eapply SelectServer_wf.
  - simplify_eq. by apply DropRequest_wf.
Qed.

Lemma execs_wf os w w' : wf w -> execs initial load_root os w = Defined w' -> wf w'.
Proof.
  revert w. induction os as [|o os IH]; intros w I E; cbn [execs] in E; [by simplify_eq|].
  destruct (exec initial load_root o w) as [w1|] eqn:E1; [|done].
  eapply IH; [|exact E]. by eapply exec_wf.
Qed.

Lemma new_world_wf : wf new_world.
Proof.
  constructor; try done. intros c Hc. apply elem_of_held in Hc as [(k & x & Hk & _)|(r & Hr)]; done.
Qed.

(** C28: Connections are shared: whatever a client does with its clouds, requests,
    streams and connections, and whatever happens to the connections, there is
    at most one connection to a server at any time, and no pointer leads to a
    destroyed one. *)
Theorem one_connection_per_server os w :
  execs initial load_root os new_world = Defined w ->
  (forall c, c ∈ held_list w -> alive w c) /\
  (forall c1 c2 conn1 conn2,
     connections w !! c1 = Some conn1 -> connections w !! c2 = Some conn2 ->
     conn_server_id conn1 = conn_server_id conn2 -> c1 = c2).
Proof.
  intros E. pose proof (execs_wf _ _ _ new_world_wf E) as I. split; [apply I|].
  intros c1 c2 conn1 conn2 H1 H2 He.
  destruct (wf_view w I _ _ H1) as (s1 & Hs1 & Hv1). destruct (wf_view w I _ _ H2) as (s2 & Hs2 & Hv2).
  rewrite He in Hs1. congruence.
Qed.

(** C30: A lost connection is replaced: in any state a client can reach, a cloud
    connection that was told of an error reconnects to the next server of its
    list.  It then has a live connection to it, is subscribed to the events of
    that connection only, and all its gates are tied to the streams of their
    destinations in it; no other cloud connection changes. *)
Theorem reconnect_restores_streams os w k x s :
  execs initial load_root os new_world = Defined w ->
  cloud_connections w !! k = Some x -> reconnect_notify_ x = true ->
  selectors w !! client_server_connection_selector_ x = Some s ->
  exists w' y sv c conn, Reconnect initial k w = Defined w' /\
    cloud_connections w' = <[k := y]> (cloud_connections w) /\
    (connect_pick s).1 = Some sv /\
    client_server_connection_ y = Some c /\
    connections w' !! c = Some conn /\ conn_server_id conn = server_id sv /\
    connection_error_subscription_ y = Some c /\ new_stream_event_subscription_ y = Some c /\
    dom (gates_ y) = dom (gates_ x) /\ (forall u, u ∈ dom (gates_ x) -> tied w' y c u).
Proof.
  intros E Hk Hn Hs. pose proof (execs_wf _ _ _ new_world_wf E) as I.
  unfold Reconnect. rewrite Hk, Hn.
  destruct (Connect_spec k (with_notify false x) s (upd_cc k (with_notify false) w))
    as (w' & y & sv & c & conn & Ec & I' & Ek & Hrest);
    [eapply same_wf; [by apply same_upd_cc|exact I]
    |by rewrite (upd_cc_insert _ _ _ _ Hk), lookup_insert_eq|exact Hs|].
  exists w', y, sv, c, conn. split; [done|]. split; [|exact Hrest].
  by rewrite Ek, (upd_cc_insert _ _ _ _ Hk), insert_insert_eq.
Qed.

End Environment.

(** ** Runs *)

Definition own_cloud : Cloud := {| servers_ := [Loaded (sample 1)]; adapter_ := None |}.
Definition other_cloud : Cloud :=
  {| servers_ := [Loaded (sample 1); Loaded (sample 2)]; adapter_ := None |}.

Definition connecting (_ : nat) : Tcp.ConnectionState := Tcp.kConnecting.
Definition nothing_stored (_ : Z) : option Server := None.

(** Two clouds with a server in common, a cloud connection to each, and a stream
    to the same destination over each of them. *)
Definition two_clouds : list op :=
  [ORegister 100 own_cloud; ORegister 200 other_cloud; OSelector 100; OSelector 200;
   ONew 0; ONew 1; OCreateStream 2 9 5; OCreateStream 4 9 7].

Definition two_clouds_world : World :=
  match execs connecting nothing_stored two_clouds new_world with
  | Defined w => w
  | Undefined => new_world
  end.

Lemma one_connection_per_server_witness :
  execs connecting nothing_stored two_clouds new_world = Defined two_clouds_world /\
  held_list two_clouds_world = [3; 3]%nat /\ alive two_clouds_world 3.
Proof.
  split; [vm_compute; reflexivity|]. split; [vm_compute; reflexivity|].
  apply (one_connection_per_server connecting nothing_stored two_clouds two_clouds_world);
    [vm_compute; reflexivity|]. apply (bool_decide_unpack _). vm_compute. exact I.
Defined.

(** The connection to the common server fails: the second cloud connection
    moves on to the other server of its cloud. *)
Definition failed_connection : list op := two_clouds ++ [OEvent 3 Tcp.kDisconnected true].

Definition failed_world : World :=
  match execs connecting nothing_stored failed_connection new_world with
  | Defined w => w
  | Undefined => new_world
  end.

Definition cc_of (k : nat) (w : World) : ClientCloudConnection :=
  default (new_cloud_connection 0) (cloud_connections w !! k).

Lemma reconnect_restores_streams_witness :
  exists w' y c, Reconnect connecting 4 failed_world = Defined w' /\
    client_server_connection_ y = Some c /\ tied w' y c 9.
Proof.
  destruct (reconnect_restores_streams connecting nothing_stored failed_connection failed_world 4
    (cc_of 4 failed_world) {| server_list_ := [sample 1; sample 2]; server_list_it_ := 1 |})
    as (w' & y & sv & c & conn & E & _ & _ & Hc & _ & _ & _ & _ & _ & Ht);
    [vm_compute; reflexivity..|].
  exists w', y, c. split; [exact E|]. split; [exact Hc|]. apply Ht.
  apply elem_of_dom. eexists. vm_compute. reflexivity.
Defined.

(** Closing the last stream of one cloud connection to a destination destroys the
    message stream of the destination in the shared connection, also when
    another cloud connection has a gate tied to it: a write that worked before
    then goes through a dangling pointer. *)
Theorem shared_stream_dangles :
  Write 4 9 two_clouds_world = Defined (3%nat, 9) /\
  exists w, CloseStream 2 9 5 two_clouds_world = Defined w /\
    gates_ (cc_of 4 w) = gates_ (cc_of 4 two_clouds_world) /\ Write 4 9 w = Undefined.
Proof. split; [vm_compute; reflexivity|]. eexists. split; vm_compute; auto. Qed.

(** A second registration of a cloud keeps the selector made of the first one:
    the servers of the new cloud are never connected to. *)
Theorem registered_cloud_ignored :
  exists w, execs connecting nothing_stored
    [ORegister 100 own_cloud; OSelector 100;
     ORegister 100 {| servers_ := [Loaded (sample 2)]; adapter_ := None |}; OSelector 100; ONew 0]
    new_world = Defined w /\
  (conn_server_id <$> connections w !! 2%nat) = Some 1.
Proof. eexists. split; vm_compute; reflexivity. Qed.

End ConnectionProperties.
