(* ===== verification/GetClientCloud.v ===== *)
(** * Getting the cloud of another client ([ae_actions/get_client_cloud*])

    [GetClientCloudAction] asks a server for the servers of a client and then for
    the descriptor of each of them.  [GetClientCloudConnection] looks for a known
    cloud, selects a server, waits for the connection to it, gets the cloud,
    registers it and connects to it.

    Both are actions with a state machine: [Update] acts when the state was
    changed.  Answers, ends of writes and events of connections are operations
    of the environment.  A call through the view of an action that has ended is
    [Undefined]. *)

From stdpp Require Import gmap.
From S2P Require Import Prelude StateMachine SocketTransport TcpTransports ServerList ClientConnections.
Import Cloud ServerList Connections PacketSend.

#[local] Set Warnings "-notation-overridden".

Module GetCloud.

Inductive State :=
  | kRequestCloud | kRequestServerResolve | kAllServersResolved | kFailed | kStoped.

#[export] Instance State_eq_dec : EqDecision State.
Proof. solve_decision. Defined.

(** The view of a write action is whether the action still exists. *)
Record GetClientCloudAction := {
  client_uid_ : Z;
  state_ : StateMachine State;
  cloud_request_action_ : bool;
  server_resolve_actions_ : list bool;
  cloud_ : list Z;
  server_descriptors_ : list ServerDescriptor;
}.

Definition new_action (client_uid : Z) : GetClientCloudAction :=
  {| client_uid_ := client_uid; state_ := SM.make kRequestCloud; cloud_request_action_ := false;
     server_resolve_actions_ := []; cloud_ := []; server_descriptors_ := [] |}.

Definition upd_state (m : StateMachine State) (a : GetClientCloudAction) : GetClientCloudAction :=
  {| client_uid_ := client_uid_ a; state_ := m; cloud_request_action_ := cloud_request_action_ a;
     server_resolve_actions_ := server_resolve_actions_ a; cloud_ := cloud_ a;
     server_descriptors_ := server_descriptors_ a |}.

Definition set_state (s : State) (a : GetClientCloudAction) : GetClientCloudAction :=
  upd_state (SM.set s (state_ a)) a.

Definition set_views (request : bool) (resolve : list bool) (a : GetClientCloudAction)
  : GetClientCloudAction :=
  {| client_uid_ := client_uid_ a; state_ := state_ a; cloud_request_action_ := request;
     server_resolve_actions_ := resolve; cloud_ := cloud_ a;
     server_descriptors_ := server_descriptors_ a |}.

(** What the action does to the outside: it writes a request, stops a write or
    ends. *)
Inductive output :=
  | WriteUid (uid : Z) | WriteServerId (id : Z) | StopRequest | StopResolve (i : nat)
  | Done (d : done).

Definition RequestCloud (a : GetClientCloudAction) : GetClientCloudAction * list output :=
  (set_views true (server_resolve_actions_ a) a, [WriteUid (client_uid_ a)]).

Definition RequestServerResolve (a : GetClientCloudAction) : GetClientCloudAction * list output :=
  (set_views (cloud_request_action_ a)
     (server_resolve_actions_ a ++ ((fun _ => true) <$> cloud_ a)) a,
   WriteServerId <$> cloud_ a).

Definition Update (a : GetClientCloudAction) : GetClientCloudAction * list output :=
  if changed_ (state_ a) then
    let '(s, m) := SM.Acquire (state_ a) in
    let a := upd_state m a in
    match s with
    | kRequestCloud => RequestCloud a
    | kRequestServerResolve => RequestServerResolve a
    | kAllServersResolved => (a, [Done Result])
    | kFailed => (a, [Done Error])
    | kStoped => (a, [Done Stopped])
    end
  else (a, []).

(** [Stop]: the request is checked, the resolving actions are not. *)
Definition Stop (a : GetClientCloudAction) : outcome (GetClientCloudAction * list output) :=
  if forallb id (server_resolve_actions_ a)
  then Defined (set_state kStoped a,
                (if cloud_request_action_ a then [StopRequest] else []) ++
                (StopResolve <$> seq 0 (length (server_resolve_actions_ a))))
  else Undefined.

Definition OnCloudResponse (cloud : list Z) (a : GetClientCloudAction) : GetClientCloudAction :=
  set_state kRequestServerResolve
    {| client_uid_ := client_uid_ a; state_ := state_ a;
       cloud_request_action_ := cloud_request_action_ a;
       server_resolve_actions_ := server_resolve_actions_ a; cloud_ := cloud;
       server_descriptors_ := server_descriptors_ a |}.

Definition OnServerResponse (d : ServerDescriptor) (a : GetClientCloudAction) : GetClientCloudAction :=
  let a := {| client_uid_ := client_uid_ a; state_ := state_ a;
              cloud_request_action_ := cloud_request_action_ a;
              server_resolve_actions_ := server_resolve_actions_ a; cloud_ := cloud_ a;
              server_descriptors_ := server_descriptors_ a ++ [d] |} in
  if (length (server_descriptors_ a) =? length (cloud_ a))%nat
  then set_state kAllServersResolved (set_views (cloud_request_action_ a) [] a)
  else a.

(** The write of the request ended; a failed or stopped one is a failure. *)
Definition RequestEnd (d : done) (a : GetClientCloudAction) : GetClientCloudAction :=
  let a := set_views false (server_resolve_actions_ a) a in
  match d with Result => a | Error | Stopped => set_state kFailed a end.

(** The same for the [i]th resolving write. *)
Definition ResolveEnd (i : nat) (d : done) (a : GetClientCloudAction) : GetClientCloudAction :=
  let a := set_views (cloud_request_action_ a) (<[i := false]> (server_resolve_actions_ a)) a in
  match d with Result => a | Error | Stopped => set_state kFailed a end.

Inductive op :=
  | OUpdate
  | OStop
  | OCloud (cloud : list Z)
  | OServer (d : ServerDescriptor)
  | ORequestEnd (d : done)
  | OResolveEnd (i : nat) (d : done).

Definition exec (o : op) (a : GetClientCloudAction) : outcome (GetClientCloudAction * list output) :=
  match o with
  | OUpdate => Defined (Update a)
  | OStop => Stop a
  | OCloud c => Defined (OnCloudResponse c a, [])
  | OServer d => Defined (OnServerResponse d a, [])
  | ORequestEnd d => Defined (RequestEnd d a, [])
  | OResolveEnd i d => Defined (ResolveEnd i d a, [])
  end.

Fixpoint run (os : list op) (a : GetClientCloudAction) : outcome (GetClientCloudAction * list output) :=
  match os with
  | [] => Defined (a, [])
  | o :: os =>
      let* (a, out) := exec o a in
      let* (a, out') := run os a in Defined (a, out ++ out')
  end.

(** The ends among the outputs. *)
Definition ends (out : list output) : list done :=
  omap (fun o => match o with Done d => Some d | _ => None end) out.

End GetCloud.

Module GetCloudProperties.
Import GetCloud.

(** Updates, answers of the servers and writes that succeed. *)
Definition undisturbed (o : op) : Prop :=
  match o with
  | OUpdate | OServer _ | ORequestEnd Result | OResolveEnd _ Result => True
  | _ => False
  end.

Definition answers (os : list op) : list ServerDescriptor :=
  omap (fun o => match o with OServer d => Some d | _ => None end) os.

Lemma ends_app a b : ends (a ++ b) = ends a ++ ends b.
Proof. apply omap_app. Qed.

Lemma ends_writes (l : list Z) : ends (WriteServerId <$> l) = [].
Proof. by induction l. Qed.

(** The action while servers are resolved, and after all of them were: whether
    the end was reported is the state not being changed. *)
Definition resolving (cloud : list Z) (ds : list ServerDescriptor) (a : GetClientCloudAction) : Prop :=
  cloud_ a = cloud /\ server_descriptors_ a = ds /\
  StateMachine.state_ (state_ a)
    = if (length ds =? length cloud)%nat && negb (length ds =? 0)%nat
      then kAllServersResolved else kRequestServerResolve.

Definition reported (ds : list ServerDescriptor) (cloud : list Z) (a : GetClientCloudAction) : list done :=
  if (length ds =? length cloud)%nat && negb (length ds =? 0)%nat && negb (changed_ (state_ a))
  then [Result] else [].

Lemma resolving_step cloud ds a o :
  undisturbed o -> resolving cloud ds a ->
  (length ds + length (answers [o]) <= length cloud)%nat \/ cloud = [] ->
  exists a' out, exec o a = Defined (a', out) /\
    resolving cloud (ds ++ answers [o]) a' /\
    reported ds cloud a ++ ends out = reported (ds ++ answers [o]) cloud a'.
Proof.
  intros Hu (Hc & Hd & Hs) Hn. unfold resolving, reported in *.
  destruct o as [| |c|d|d|i d]; simpl in Hu; try done; cbn [answers omap list_omap exec] in *.
  - rewrite app_nil_r. unfold Update. destruct (changed_ (state_ a)) eqn:Ech; cbn [SM.Acquire].
    + rewrite Hs. destruct ((length ds =? length cloud)%nat && negb (length ds =? 0)%nat) eqn:E;
        cbn [andb negb]; eexists _, _; (split; [reflexivity|]); (split; [done|]); [done|].
      cbn [snd RequestServerResolve]. by rewrite ends_writes.
    + eexists _, _. split; [reflexivity|]. split; [done|]. by rewrite Ech, app_nil_r.
  - unfold OnServerResponse. cbn [server_descriptors_ cloud_]. rewrite Hd, Hc, length_app.
    eexists _, _. split; [reflexivity|]. simpl length in *. rewrite app_nil_r.
    assert ((length ds =? length cloud)%nat && negb (length ds =? 0)%nat = false) as E0.
    { destruct (Nat.eqb_spec (length ds) (length cloud)); [|done].
      destruct Hn as [Hn| ->]; [lia|]. simpl in *. by destruct ds. }
    rewrite E0 in *. simpl.
    replace (length ds + 1 =? 0)%nat with false by (symmetry; apply Nat.eqb_neq; lia).
    destruct (Nat.eqb_spec (length ds + 1) (length cloud)) as [E|E]; simpl.
    + split; [split_and!; [done|done|apply SM.state_set]|].
      rewrite SM.changed_set, Hs. done.
    + split_and!; auto.
  - rewrite app_nil_r. destruct d; try done. eexists _, _. split; [reflexivity|]. by rewrite app_nil_r.
  - rewrite app_nil_r. destruct d; try done. eexists _, _. split; [reflexivity|]. by rewrite app_nil_r.
Qed.

Lemma resolving_run cloud ds a os :
  Forall undisturbed os -> resolving cloud ds a ->
  (length ds + length (answers os) <= length cloud)%nat \/ cloud = [] ->
  exists a' out, run os a = Defined (a', out) /\
    resolving cloud (ds ++ answers os) a' /\
    reported ds cloud a ++ ends out = reported (ds ++ answers os) cloud a'.
Proof.
  intros Hf. revert ds a. induction Hf as [|o os Ho Hf IH]; intros ds a Hr Hn; cbn [run].
  - exists a, []. cbn. rewrite !app_nil_r. auto.
  - change (o :: os) with ([o] ++ os) in *. unfold answers in *. rewrite omap_app in *.
    rewrite length_app in Hn.
    destruct (resolving_step cloud ds a o Ho Hr) as (a1 & out1 & -> & R1 & E1).
    { unfold answers. destruct Hn; [left; lia|by right]. }
    destruct (IH _ _ R1) as (a2 & out2 & -> & R2 & E2).
    { rewrite length_app. unfold answers. destruct Hn; [left; lia|by right]. }
    exists a2, (out1 ++ out2). rewrite ends_app. unfold answers in *. rewrite (assoc_L (++)).
    split_and!; [done|done|]. rewrite (assoc_L (++)), E1. exact E2.
Qed.

(** Before the answer with the servers of the client. *)
Lemma cloud_run_start uid ids :
  exists a out, run [OUpdate; OCloud ids] (new_action uid) = Defined (a, out) /\
    ends out = [] /\ resolving ids [] a /\ changed_ (state_ a) = true.
Proof.
  eexists _, _. split; [reflexivity|]. split; [done|]. split; [|done].
  split_and!; try done. by destruct ids.
Qed.

Lemma cloud_run_app os1 os2 a a1 out1 :
  run os1 a = Defined (a1, out1) ->
  run (os1 ++ os2) a =
    match run os2 a1 with
    | Defined (a2, out2) => Defined (a2, out1 ++ out2)
    | Undefined => Undefined
    end.
Proof.
  revert a out1. induction os1 as [|o os1 IH]; intros a out1 E; cbn [run app] in *.
  - simplify_eq. by destruct (run os2 a1) as [[? ?]|].
  - destruct (exec o a) as [[a' out]|]; [|done].
    destruct (run os1 a') as [[a'' out']|] eqn:E1; [|done]. simplify_eq.
    rewrite (IH _ _ E1). destruct (run os2 a1) as [[? ?]|]; [|done]. by rewrite (assoc_L (++)).
Qed.

(** When a server answers with a list of servers that is not empty, and then each
    of them is answered for, in any order and mixed with updates and the ends of
    the writes, the action ends exactly once, with a result, and has the
    descriptors in the order they came. *)
Lemma cloud_resolved uid ids os :
  ids <> [] -> Forall undisturbed os -> length (answers os) = length ids ->
  exists a out, run ([OUpdate; OCloud ids] ++ os ++ [OUpdate]) (new_action uid) = Defined (a, out) /\
    ends out = [Result] /\ server_descriptors_ a = answers os.
Proof.
  intros Hne Hf Hl. destruct (cloud_run_start uid ids) as (a0 & out0 & E0 & D0 & R0 & C0).
  rewrite (cloud_run_app _ _ _ _ _ E0).
  assert (answers (os ++ [OUpdate]) = answers os) as Ea
    by (unfold answers; rewrite omap_app; simpl; apply app_nil_r).
  assert (0 < length ids)%nat as Hpos by (destruct ids; simpl; [done|lia]).
  destruct (resolving_run ids [] a0 os Hf R0) as (a1 & out1 & E1 & R1 & D1); [left; simpl; lia|].
  rewrite (cloud_run_app _ _ _ _ _ E1).
  destruct (resolving_step ids (answers os) a1 OUpdate) as (a2 & out2 & E2 & R2 & D2);
    [done|exact R1|left; simpl; lia|]. cbn [run]. rewrite E2.
  change (answers [OUpdate]) with (@nil ServerDescriptor) in *. rewrite app_nil_r in R2, D2.
  destruct R2 as (_ & Hd & _).
  exists a2. eexists. split; [reflexivity|]. split; [|done].
  rewrite !ends_app, D0. cbn [ends omap list_omap app]. rewrite app_nil_r.
  transitivity (reported (answers os) ids a1 ++ ends out2).
  { f_equal. cbn [app] in D1. rewrite <- D1. unfold reported. simpl. by rewrite andb_false_r. }
  rewrite D2. unfold reported. rewrite Hl, Nat.eqb_refl.
  replace (length ids =? 0)%nat with false by (symmetry; apply Nat.eqb_neq; lia).
  simpl in E2. unfold Update in E2.
  destruct (changed_ (state_ a1)) eqn:Ech; [|simplify_eq; by rewrite Ech].
  cbn [SM.Acquire] in E2. destruct (StateMachine.state_ (state_ a1)); simplify_eq; done.
Qed.

Definition descriptor (i : Z) : ServerDescriptor := {| d_server_id := i; ips := [] |}.

(** A client without servers is never resolved: whatever answers come then, the
    action does not end. *)
Theorem empty_cloud_hangs uid os :
  Forall undisturbed os ->
  exists a out, run ([OUpdate; OCloud []] ++ os) (new_action uid) = Defined (a, out) /\ ends out = [].
Proof.
  intros Hf. destruct (cloud_run_start uid []) as (a0 & out0 & E0 & D0 & R0 & C0).
  rewrite (cloud_run_app _ _ _ _ _ E0).
  destruct (resolving_run [] [] a0 os Hf R0) as (a1 & out1 & -> & R1 & D1); [by right|].
  eexists _, _. split; [reflexivity|]. rewrite ends_app, D0. simpl in *. rewrite D1.
  unfold reported. by destruct (answers os).
Qed.

Lemma empty_cloud_hangs_witness :
  exists a out, run ([OUpdate; OCloud []] ++ [OUpdate; OServer (descriptor 4); OUpdate])
    (new_action 9) = Defined (a, out) /\ ends out = [].
Proof. apply (empty_cloud_hangs 9). repeat constructor. Defined.

(** Stopping does not check the views of the resolving writes: when one of them
    has been sent it is undefined. *)
Theorem stop_after_write :
  run ([OUpdate; OCloud [4; 5]; OUpdate] ++ [OStop]) (new_action 9) <> Undefined /\
  run ([OUpdate; OCloud [4; 5]; OUpdate; OResolveEnd 0 Result] ++ [OStop]) (new_action 9) = Undefined.
Proof. split; [discriminate|reflexivity]. Qed.

(** Stopping stops the write of the request, and its end is taken for a failure:
    the action that was stopped ends with an error. *)
Theorem stop_ends_with_error :
  exists a out, run [OUpdate; OStop; ORequestEnd Stopped; OUpdate] (new_action 9) = Defined (a, out) /\
    ends out = [Error].
Proof. eexists _, _. split; reflexivity. Qed.

End GetCloudProperties.

(** ** Getting the connection *)
Module GetConnection.
Import GetCloud.

Inductive State :=
  | kTryCache | kSelectServer | kConnection | kGetCloud | kCreateConnection | kSuccess
  | kStopped | kFailed.

#[export] Instance State_eq_dec : EqDecision State.
Proof. solve_decision. Defined.

(** The pointer to the connection is the entry [request_] of the requests of the
    [World]; a subscription is the connection it is made to. *)
Record GetClientCloudConnection := {
  gc_client_uid : Z;
  gc_selector : nat;
  request_ : nat;
  gc_state : StateMachine State;
  connection_subscription_ : option nat;
  disconnection_subscription_ : option nat;
  get_client_cloud_action_ : option GetClientCloudAction;
  client_cloud_connection_ : option nat;
}.

Definition new_get (uid : Z) (sel r : nat) : GetClientCloudConnection :=
  {| gc_client_uid := uid; gc_selector := sel; request_ := r; gc_state := SM.make kTryCache;
     connection_subscription_ := None; disconnection_subscription_ := None;
     get_client_cloud_action_ := None; client_cloud_connection_ := None |}.

Definition upd_gc (m : StateMachine State) (g : GetClientCloudConnection) : GetClientCloudConnection :=
  {| gc_client_uid := gc_client_uid g; gc_selector := gc_selector g; request_ := request_ g;
     gc_state := m; connection_subscription_ := connection_subscription_ g;
     disconnection_subscription_ := disconnection_subscription_ g;
     get_client_cloud_action_ := get_client_cloud_action_ g;
     client_cloud_connection_ := client_cloud_connection_ g |}.

Definition set_gc (s : State) (g : GetClientCloudConnection) : GetClientCloudConnection :=
  upd_gc (SM.set s (gc_state g)) g.

Definition set_subscriptions (c d : option nat) (g : GetClientCloudConnection) : GetClientCloudConnection :=
  {| gc_client_uid := gc_client_uid g; gc_selector := gc_selector g; request_ := request_ g;
     gc_state := gc_state g; connection_subscription_ := c; disconnection_subscription_ := d;
     get_client_cloud_action_ := get_client_cloud_action_ g;
     client_cloud_connection_ := client_cloud_connection_ g |}.

Definition set_action (a : option GetClientCloudAction) (g : GetClientCloudConnection)
  : GetClientCloudConnection :=
  {| gc_client_uid := gc_client_uid g; gc_selector := gc_selector g; request_ := request_ g;
     gc_state := gc_state g; connection_subscription_ := connection_subscription_ g;
     disconnection_subscription_ := disconnection_subscription_ g; get_client_cloud_action_ := a;
     client_cloud_connection_ := client_cloud_connection_ g |}.

Definition set_connection (k : nat) (g : GetClientCloudConnection) : GetClientCloudConnection :=
  {| gc_client_uid := gc_client_uid g; gc_selector := gc_selector g; request_ := request_ g;
     gc_state := gc_state g; connection_subscription_ := connection_subscription_ g;
     disconnection_subscription_ := disconnection_subscription_ g;
     get_client_cloud_action_ := get_client_cloud_action_ g; client_cloud_connection_ := Some k |}.

Section Environment.
(** The environment of [Connections], the uid of the client the manager belongs
    to, and whether the manager still exists. *)
Context (initial : nat -> Tcp.ConnectionState) (load_root : Z -> option Server)
        (own_uid : Z) (manager : bool).

Abbreviation result := (outcome (GetClientCloudConnection * World)).

Definition TryCache (g : GetClientCloudConnection) (w : World) : result :=
  if manager then
    let* (o, w1) := GetCloudServerConnectionSelector load_root (gc_client_uid g) w in
    match o with
    | Some sel =>
        let* (k, w2) := NewCloudConnection initial sel w1 in
        Defined (set_gc kSuccess (set_connection k g), w2)
    | None => Defined (set_gc kSelectServer g, w1)
    end
  else Undefined.

Definition DoSelectServer (g : GetClientCloudConnection) (w : World) : result :=
  let* (oc, w1) := SelectServer initial (request_ g) (gc_selector g) w in
  match oc with
  | None => Defined (set_gc kFailed g, w1)
  | Some c =>
      match connections w1 !! c with
      | None => Undefined
      | Some conn =>
          match conn_state conn with
          | Tcp.kConnected => Defined (set_gc kGetCloud g, w1)
          | _ => Defined (set_gc kConnection (set_subscriptions (Some c) (Some c) g), w1)
          end
      end
  end.

Definition DoGetCloud (g : GetClientCloudConnection) (w : World) : result :=
  match requests w !! request_ g with
  | Some (Some _) => Defined (set_action (Some (new_action (gc_client_uid g))) g, w)
  | _ => Undefined
  end.

Definition DoCreateConnection (g : GetClientCloudConnection) (w : World) : result :=
  match get_client_cloud_action_ g, manager with
  | Some a, true =>
      let* w1 := RegisterCloud_descriptors own_uid (gc_client_uid g) (server_descriptors_ a) w in
      let* (o, w2) := GetCloudServerConnectionSelector load_root (gc_client_uid g) w1 in
      match o with
      | None => Undefined
      | Some sel =>
          let* (k, w3) := NewCloudConnection initial sel w2 in
          Defined (set_gc kSuccess (set_connection k g), w3)
      end
  | _, _ => Undefined
  end.

Definition GUpdate (g : GetClientCloudConnection) (w : World)
  : outcome (GetClientCloudConnection * World * list done) :=
  if changed_ (gc_state g) then
    let '(s, m) := SM.Acquire (gc_state g) in
    let g := upd_gc m g in
    let quiet (r : result) := let* (g, w) := r in Defined (g, w, []) in
    match s with
    | kTryCache => quiet (TryCache g w)
    | kSelectServer => quiet (DoSelectServer g w)
    | kConnection => Defined (g, w, [])
    | kGetCloud => quiet (DoGetCloud g w)
    | kCreateConnection => quiet (DoCreateConnection g w)
    | kSuccess => Defined (g, w, [Result])
    | kStopped => Defined (g, w, [Stopped])
    | kFailed => Defined (g, w, [Error])
    end
  else Defined (g, w, []).

(** The events of a connection, each taken once. *)
Definition OnConnected (c : nat) (g : GetClientCloudConnection) : GetClientCloudConnection :=
  if decide (connection_subscription_ g = Some c)
  then set_gc kGetCloud (set_subscriptions None (disconnection_subscription_ g) g) else g.

Definition OnDisconnected (c : nat) (g : GetClientCloudConnection) : GetClientCloudConnection :=
  if decide (disconnection_subscription_ g = Some c)
  then set_gc kSelectServer (set_subscriptions (connection_subscription_ g) None g) else g.

(** The end of the action that gets the cloud. *)
Definition OnCloudDone (d : done) (g : GetClientCloudConnection) : GetClientCloudConnection :=
  match d with
  | Error => set_gc kSelectServer g
  | Result => set_gc kCreateConnection g
  | Stopped => set_gc kStopped g
  end.

(** A step of that action. *)
Definition CloudStep (o : GetCloud.op) (g : GetClientCloudConnection) : outcome GetClientCloudConnection :=
  match get_client_cloud_action_ g with
  | None => Undefined
  | Some a =>
      let* (a', out) := GetCloud.exec o a in
      Defined (foldl (fun g d => OnCloudDone d g) (set_action (Some a') g) (ends out))
  end.

Definition GStop (g : GetClientCloudConnection) : outcome GetClientCloudConnection :=
  match get_client_cloud_action_ g with
  | None => Defined (set_gc kStopped g)
  | Some a => let* (a', _) := GetCloud.Stop a in Defined (set_gc kStopped (set_action (Some a') g))
  end.

Inductive gop := OpUpdate | OpConnected (c : nat) | OpDisconnected (c : nat) | OpCloud (o : GetCloud.op) | OpStop.

Definition gexec (o : gop) (g : GetClientCloudConnection) (w : World)
  : outcome (GetClientCloudConnection * World * list done) :=
  match o with
  | OpUpdate => GUpdate g w
  | OpConnected c => Defined (OnConnected c g, w, [])
  | OpDisconnected c => Defined (OnDisconnected c g, w, [])
  | OpCloud o => let* g := CloudStep o g in Defined (g, w, [])
  | OpStop => let* g := GStop g in Defined (g, w, [])
  end.

Fixpoint grun (os : list gop) (g : GetClientCloudConnection) (w : World)
  : outcome (GetClientCloudConnection * World * list done) :=
  match os with
  | [] => Defined (g, w, [])
  | o :: os =>
      let* (g, w, d) := gexec o g w in
      let* (g, w, d') := grun os g w in Defined (g, w, d ++ d')
  end.

End Environment.
End GetConnection.

Module GetConnectionProperties.
Import GetCloud GetCloudProperties GetConnection ServerListProperties ConnectionProperties.

Section Environment.
Context (initial : nat -> Tcp.ConnectionState) (load_root : Z -> option Server) (own_uid : Z).

Lemma grun_app m os1 os2 g w g1 w1 d1 :
  grun initial load_root own_uid m os1 g w = Defined (g1, w1, d1) ->
  grun initial load_root own_uid m (os1 ++ os2) g w =
    match grun initial load_root own_uid m os2 g1 w1 with
    | Defined (g2, w2, d2) => Defined (g2, w2, d1 ++ d2)
    | Undefined => Undefined
    end.
Proof.
  revert g w d1. induction os1 as [|o os1 IH]; intros g w d1 E; cbn [grun app] in *.
  - simplify_eq. by destruct (grun _ _ _ _ os2 g1 w1) as [[[? ?] ?]|].
  - destruct (gexec _ _ _ _ o g w) as [[[g' w'] d]|]; [|done].
    destruct (grun _ _ _ _ os1 g' w') as [[[g'' w''] d']|] eqn:E1; [|done]. simplify_eq.
    rewrite (IH _ _ _ E1). destruct (grun _ _ _ _ os2 g1 w1) as [[[? ?] ?]|]; [|done].
    by rewrite (assoc_L (++)).
Qed.

Lemma action_of_done ds a g :
  get_client_cloud_action_ (foldl (fun g d => OnCloudDone d g) (set_action a g) ds) = a /\
  forall a', set_action a' (foldl (fun g d => OnCloudDone d g) (set_action a g) ds)
    = foldl (fun g d => OnCloudDone d g) (set_action a' g) ds.
Proof.
  revert g. induction ds as [|d ds IH]; intros g; cbn [foldl]; [done|].
  replace (OnCloudDone d (set_action a g)) with (set_action a (OnCloudDone d g)) by by destruct d.
  destruct (IH (OnCloudDone d g)) as [A B]. split; [done|]. intros a'. rewrite B.
  f_equal. by destruct d.
Qed.

(** The steps of the action that gets the cloud, seen from outside. *)
Lemma cloud_steps m os g w a a' out :
  get_client_cloud_action_ g = Some a -> run os a = Defined (a', out) ->
  grun initial load_root own_uid m (OpCloud <$> os) g w =
    Defined (foldl (fun g d => OnCloudDone d g) (set_action (Some a') g) (ends out), w, []).
Proof.
  revert g a out. induction os as [|o os IH]; intros g a out Hg E; cbn [run] in E.
  - simplify_eq. cbn. by destruct g; simplify_eq/=.
  - destruct (exec o a) as [[a1 out1]|] eqn:E1; [|done].
    destruct (run os a1) as [[a2 out2]|] eqn:E2; [|done]. simplify_eq.
    cbn [fmap list_fmap grun gexec]. unfold CloudStep. rewrite Hg, E1.
    destruct (action_of_done (ends out1) (Some a1) g) as [A B].
    change (list_fmap _ _ OpCloud os) with (OpCloud <$> os).
    rewrite (IH _ _ _ A E2). rewrite B, ends_app, foldl_app. done.
Qed.

Lemma set_gc_ne st g :
  StateMachine.state_ (gc_state g) <> st ->
  set_gc st g = upd_gc {| changed_ := true; StateMachine.state_ := st |} g.
Proof. intros Hne. unfold set_gc, SM.set, SM.Set_. by rewrite decide_False. Qed.

(** From the start to the request for the cloud. *)
Lemma reach_get_cloud uid sel r o s sv w :
  wf w -> requests w !! r = Some o -> selectors w !! sel = Some s ->
  (select_pick s).1 = Some sv -> client_clouds_ w !! uid = None ->
  exists c g w', grun initial load_root own_uid true
      [OpUpdate; OpUpdate; OpConnected c; OpUpdate] (new_get uid sel r) w = Defined (g, w', []) /\
    wf w' /\ client_clouds_ w' = client_clouds_ w /\ gc_client_uid g = uid /\
    gc_state g = {| changed_ := false; StateMachine.state_ := kGetCloud |} /\
    get_client_cloud_action_ g = Some (new_action uid).
Proof.
  intros I Hr Hs Hp Hu.
  destruct (SelectServer_spec initial r o sel s w I Hr Hs) as (oc & w' & E & I' & Hr' & Hc' & Hm).
  rewrite Hp in Hm. destruct oc as [c|]; [|done]. destruct Hm as (conn & Hc & _).
  set (g1 := upd_gc {| changed_ := true; StateMachine.state_ := kSelectServer |} (new_get uid sel r)).
  assert (GUpdate initial load_root own_uid true (new_get uid sel r) w = Defined (g1, w, [])) as U1.
  { unfold GUpdate, TryCache, GetCloudServerConnectionSelector. cbn. rewrite Hu, set_gc_ne by done. done. }
  assert (exists g2, GUpdate initial load_root own_uid true g1 w = Defined (g2, w', []) /\
    gc_state (OnConnected c g2) = {| changed_ := true; StateMachine.state_ := kGetCloud |} /\
    request_ (OnConnected c g2) = r /\ gc_client_uid (OnConnected c g2) = uid) as (g2 & U2 & S2 & R2 & C2).
  { unfold GUpdate, DoSelectServer. cbn [g1 changed_ gc_state upd_gc SM.Acquire request_ gc_selector new_get].
    rewrite E, Hc. unfold OnConnected. destruct (conn_state conn); eexists; (split; [reflexivity|]);
      rewrite !set_gc_ne by done; cbn; rewrite ?decide_True by done; rewrite ?set_gc_ne by done; done. }
  exists c. eexists _, w'. cbn [grun gexec]. rewrite U1, U2.
  unfold GUpdate at 1. rewrite S2. cbn [changed_ SM.Acquire]. unfold DoGetCloud.
  cbn [request_ upd_gc gc_client_uid]. rewrite R2, Hr', C2. split; [reflexivity|]. by split_and!.
Qed.

Lemma sort_head l :
  l <> [] ->
  exists x, sort l !! 0%nat = Some x /\ x ∈ l /\ Forall (fun y => server_id x <= server_id y) l.
Proof.
  intros Hne. pose proof (sort_permutation l) as P. pose proof (sort_ordered l) as O.
  destruct (sort l) as [|x k]; [by apply Permutation_nil in P|].
  exists x. split; [done|]. split; [rewrite <- P; by left|]. rewrite <- P.
  constructor; [lia|]. inversion O as [|? ? _ F]; subst. revert F. apply List.Forall_impl.
  intros y Hy. cbn in Hy. apply Z.ltb_ge in Hy. lia.
Qed.

Lemma first_picked l x : l !! 0%nat = Some x -> (connect_pick (new_selector l)).1 = Some x.
Proof. by destruct l. Qed.

(** C9: The whole way to a client whose cloud is not known yet.  Once a server was
    selected and its connection established, and the action got the servers of
    the client, in whatever order they are answered for, the cloud is
    registered, the action ends once with a result, and its cloud connection has
    a connection to the server of the client with the least identifier. *)
Theorem cloud_connection_result prog w uid sel r o s sv ids os :
  execs initial load_root prog new_world = Defined w ->
  requests w !! r = Some o -> selectors w !! sel = Some s -> (select_pick s).1 = Some sv ->
  is_Some (client_clouds_ w !! own_uid) -> client_clouds_ w !! uid = None ->
  ids <> [] -> Forall undisturbed os -> length (answers os) = length ids ->
  exists c g w' k x c' conn,
    grun initial load_root own_uid true
      ([OpUpdate; OpUpdate; OpConnected c; OpUpdate] ++
       (OpCloud <$> ([OUpdate; OCloud ids] ++ os ++ [OUpdate])) ++ [OpUpdate; OpUpdate])
      (new_get uid sel r) w = Defined (g, w', [Result]) /\
    client_cloud_connection_ g = Some k /\ cloud_connections w' !! k = Some x /\
    client_server_connection_ x = Some c' /\ connections w' !! c' = Some conn /\
    conn_server_id conn ∈ (d_server_id <$> answers os) /\
    Forall (fun d => conn_server_id conn <= d_server_id d) (answers os).
Proof.
  intros E Hr Hs Hp Hown Hu Hne Hf Hl. pose proof (execs_wf _ _ _ _ _ (new_world_wf) E) as I.
  destruct (reach_get_cloud uid sel r o s sv w I Hr Hs Hp Hu) as (c & g1 & w1 & E1 & I1 & L1 & U1 & S1 & A1).
  destruct (cloud_resolved uid ids os Hne Hf Hl) as (a & out & E2 & D2 & Ds).
  pose proof (cloud_steps true _ g1 w1 _ _ _ A1 E2) as E3. rewrite D2 in E3. cbn [foldl OnCloudDone] in E3.
  rewrite <- L1 in Hown, Hu.
  destruct (RegisterCloud_descriptors_spec own_uid uid (answers os) w1 I1 Hown)
    as (w2 & cc & l & E4 & I2 & Hcc & Hsel & El & Ids).
  rewrite Hu in Hsel. simpl in Hsel.
  assert (l <> []) as Hlne.
  { intros ->. destruct (answers os); [|done]. by destruct ids. }
  destruct (selector_spec load_root uid cc l w2 I2 Hcc Hsel El Hlne) as (i & w3 & E5 & I3 & Hi).
  destruct (NewCloudConnection_spec initial i _ w3 I3 Hi)
    as (k & w4 & x & sv' & c' & conn & E6 & I4 & Hk & Hpick & Hx & Hc' & Hid).
  destruct (sort_head l Hlne) as (y & Hy & Hin & Hmin).
  rewrite (first_picked _ _ Hy) in Hpick. injection Hpick as <-.
  exists c. eexists _, w4, k, x, c', conn.
  rewrite (grun_app _ _ _ _ _ _ _ _ E1), (grun_app _ _ _ _ _ _ _ _ E3).
  rewrite set_gc_ne by (cbn; by rewrite S1). cbn [grun gexec].
  unfold GUpdate at 1. cbn [gc_state upd_gc set_action changed_ SM.Acquire StateMachine.state_].
  unfold DoCreateConnection. cbn [get_client_cloud_action_ upd_gc set_action gc_client_uid].
  rewrite U1, Ds, E4, E5, E6. rewrite set_gc_ne by done. split; [reflexivity|]. split_and!; auto.
  - rewrite Hid, <- Ids. apply list_elem_of_fmap. eauto.
  - rewrite Hid. assert (Forall (fun z => server_id y <= z) (d_server_id <$> answers os)) as F
      by (rewrite <- Ids; by apply Forall_fmap). exact (proj1 (Forall_fmap _ _ _) F).
Qed.

End Environment.

(** A client with one server, whose own cloud connection is made. *)
Definition one_server : list Connections.op :=
  [ORegister 100 own_cloud; OSelector 100; ONew 0; ONewRequest].

Definition world_of (prog : list Connections.op) : World :=
  match execs connecting nothing_stored prog new_world with
  | Defined w => w
  | Undefined => new_world
  end.

Lemma cloud_connection_result_witness :
  exists c g w', grun connecting nothing_stored 100 true
    ([OpUpdate; OpUpdate; OpConnected c; OpUpdate] ++
     (OpCloud <$> ([OUpdate; OCloud [4; 3]] ++ [OUpdate; OServer (descriptor 4); OServer (descriptor 3)]
                   ++ [OUpdate])) ++ [OpUpdate; OpUpdate])
    (new_get 9 0 3) (world_of one_server) = Defined (g, w', [Result]).
Proof.
  destruct (cloud_connection_result connecting nothing_stored 100 one_server (world_of one_server)
    9 0 3 None {| server_list_ := [sample 1]; server_list_it_ := 1 |} (sample 1) [4; 3]
    [OUpdate; OServer (descriptor 4); OServer (descriptor 3)])
    as (c & g & w' & k & x & c' & conn & E & _);
    [vm_compute; reflexivity|vm_compute; reflexivity|vm_compute; reflexivity|vm_compute; reflexivity
    |eexists; vm_compute; reflexivity|vm_compute; reflexivity|discriminate|repeat constructor
    |reflexivity|].
  exists c, g, w'. exact E.
Defined.

(** With two servers the same client fails: after its own connection was made to
    the first of them the selection answers no server. *)
Theorem two_servers_fail :
  exists g w', grun connecting nothing_stored 100 true [OpUpdate; OpUpdate; OpUpdate] (new_get 9 0 3)
    (world_of [ORegister 100 other_cloud; OSelector 100; ONew 0; ONewRequest]) = Defined (g, w', [Error]).
Proof. eexists _, _. vm_compute. reflexivity. Qed.

(** When the manager of the connections is gone the failure is noticed but not
    returned from: the null pointer is used. *)
Theorem gone_manager_undefined initial load_root own_uid uid sel r w :
  GUpdate initial load_root own_uid false (new_get uid sel r) w = Undefined.
Proof. reflexivity. Qed.

End GetConnectionProperties.
