(* ===== verification/Registration.v ===== *)
(** * Registration of a client ([ae_actions/registration/registration.*])

    The action connects to one of the registration servers, asks for its key,
    asks for the parameters of the proof of work over an encrypted stream, sends
    the proof with a new master key, and resolves the servers it is given.  The
    requests and their answers are those of [methods/server_reg_api/] and
    [methods/client_reg_api/]; an answer is found by the identifier of its
    request in the protocol context, which all streams of the action share.

    The data of an answer is given by what it is read as ([Payload]).  Signature
    check and key generation are parameters, the hash of the proof of work as in
    [ProofOfWork].  A packet sealed with a key can be opened with this key only.
    [None] is a proof of work the fuel does not cover. *)

From stdpp Require Import gmap.
From S2P Require Import Prelude StateMachine ApiProtocol SocketTransport ServerList ProofOfWork.
Import Cloud ServerList PacketSend.

#[local] Set Warnings "-notation-overridden".

Module Registration.

(** ** Messages *)

Abbreviation Key := bytes.

Record SignedKey := { key : Key; sign : bytes }.

Record PowParams := {
  salt : bytes;
  password_suffix : bytes;
  pool_size : Z;
  max_hash_value : Z;
  global_key : SignedKey;
}.

Record RegistrationResponse := { r_ephemeral_uid : Z; r_uid : Z; r_cloud : list Z }.

(** [Extract<T>] for each type an answer is read as. *)
Record Payload := {
  as_signed_key : SignedKey;
  as_pow_params : PowParams;
  as_registration : RegistrationResponse;
  as_servers : list ServerDescriptor;
}.

(** The message the answer to a request is made of. *)
Inductive request := RGetKeys | RPow | RFinish | RResolve.

(** ** State *)

Inductive State :=
  | kConnection | kWaitingConnection | kConnected | kGetKeys | kWaitKeys | kGetPowParams
  | kMakeRegistration | kRequestCloudResolving | kRegistered | kRegistrationFailed.

#[export] Instance State_eq_dec : EqDecision State.
Proof. solve_decision. Defined.

(** [reg_server_stream_]: the simple one, or the one made by
    [CreateRegServerStream] with the public key of the server and the secret key
    of the answers. *)
Inductive RegStream := PlainStream | CryptStream (public_key secret_key : Key).

(** [Client::SetConfig] *)
Record Config := { uid : Z; ephemeral_uid : Z; master_key : Key; c_cloud : Cloud }.

Record Registration := {
  server_transport_list_ : list Server;
  server_transport_list_iterator_ : nat;
  connection_subscriptions_ : bool * bool;   (* success and error, taken once *)
  state_ : StateMachine State;
  last_request_time_ : TimePoint;
  server_pub_key_ : Key;
  master_key_ : Key;
  uid_ : Z;
  ephemeral_uid_ : Z;
  pow_params_ : option PowParams;
  aether_global_key_ : Key;
  cloud_ : list Z;
  server_sync_key_provider_ : option Key;
  reg_server_stream_ : option RegStream;
  global_reg_server_stream_ : option (Key * Key);
  raw_transport_send_action_subscription_ : bool;
  reg_server_write_subscription_ : bool;
  send_result_callbacks_ : gmap Z request;
  next_request_id : Z;
  generated : nat;
  client_ : option Config;
}.

(** What is written, with the key of the stream, and how the action ends. *)
Inductive output :=
  | SendGetKeys (request_id : Z)
  | SendPow (stream : RegStream) (request_id : Z) (return_key : Key)
  | SendRegistration (stream : RegStream) (proofs : list Z) (return_key : Key)
                     (global_key master_key : Key) (request_id : Z)
  | SendResolve (stream : RegStream) (request_id : Z) (cloud : list Z)
  | SetConfig (c : Config)
  | Done (d : done).

Section Environment.
Context (sign_pk_ : Key) (verify : bytes -> Key -> Key -> bool) (keygen : nat -> Key)
        (bcrypt_hashpw : bytes -> bytes -> bytes) (fuel : nat)
        (adapter : option Z) (aether : bool).

(** Twenty seconds in ticks of the clock. *)
Context (response_timeout_ : Duration).

(** The constructor, for the list of the registration servers and the value of
    the static request counter. *)
Definition new_registration (servers : list Server) (request_id : Z) : Registration :=
  {| server_transport_list_ := servers; server_transport_list_iterator_ := 0;
     connection_subscriptions_ := (false, false); state_ := SM.make kConnection;
     last_request_time_ := 0; server_pub_key_ := []; master_key_ := []; uid_ := 0;
     ephemeral_uid_ := 0; pow_params_ := None; aether_global_key_ := []; cloud_ := [];
     server_sync_key_provider_ := None; reg_server_stream_ := None;
     global_reg_server_stream_ := None; raw_transport_send_action_subscription_ := false;
     reg_server_write_subscription_ := false; send_result_callbacks_ := ∅;
     next_request_id := request_id; generated := 0; client_ := None |}.

Definition upd_state (m : StateMachine State) (r : Registration) : Registration :=
  {| server_transport_list_ := server_transport_list_ r;
     server_transport_list_iterator_ := server_transport_list_iterator_ r;
     connection_subscriptions_ := connection_subscriptions_ r; state_ := m;
     last_request_time_ := last_request_time_ r; server_pub_key_ := server_pub_key_ r;
     master_key_ := master_key_ r; uid_ := uid_ r; ephemeral_uid_ := ephemeral_uid_ r;
     pow_params_ := pow_params_ r; aether_global_key_ := aether_global_key_ r; cloud_ := cloud_ r;
     server_sync_key_provider_ := server_sync_key_provider_ r;
     reg_server_stream_ := reg_server_stream_ r;
     global_reg_server_stream_ := global_reg_server_stream_ r;
     raw_transport_send_action_subscription_ := raw_transport_send_action_subscription_ r;
     reg_server_write_subscription_ := reg_server_write_subscription_ r;
     send_result_callbacks_ := send_result_callbacks_ r; next_request_id := next_request_id r;
     generated := generated r; client_ := client_ r |}.

Definition set_state (s : State) (r : Registration) : Registration :=
  upd_state (SM.set s (state_ r)) r.

(** ** Connection *)

Definition set_connection (it : nat) (subs : bool * bool) (r : Registration) : Registration :=
  {| server_transport_list_ := server_transport_list_ r; server_transport_list_iterator_ := it;
     connection_subscriptions_ := subs; state_ := state_ r;
     last_request_time_ := last_request_time_ r; server_pub_key_ := server_pub_key_ r;
     master_key_ := master_key_ r; uid_ := uid_ r; ephemeral_uid_ := ephemeral_uid_ r;
     pow_params_ := pow_params_ r; aether_global_key_ := aether_global_key_ r; cloud_ := cloud_ r;
     server_sync_key_provider_ := server_sync_key_provider_ r;
     reg_server_stream_ := reg_server_stream_ r;
     global_reg_server_stream_ := global_reg_server_stream_ r;
     raw_transport_send_action_subscription_ := raw_transport_send_action_subscription_ r;
     reg_server_write_subscription_ := reg_server_write_subscription_ r;
     send_result_callbacks_ := send_result_callbacks_ r; next_request_id := next_request_id r;
     generated := generated r; client_ := client_ r |}.

Definition IterateConnection (r : Registration) : Registration :=
  match server_transport_list_ r !! server_transport_list_iterator_ r with
  | None => set_state kRegistrationFailed r
  | Some _ =>
      set_state kWaitingConnection
        (set_connection (S (server_transport_list_iterator_ r)) (true, true) r)
  end.

(** The events of the transport in use. *)
Definition OnConnectionSuccess (r : Registration) : Registration :=
  let '(ok, err) := connection_subscriptions_ r in
  if ok then set_state kConnected
               (set_connection (server_transport_list_iterator_ r) (false, err) r) else r.

Definition OnConnectionError (r : Registration) : Registration :=
  let '(ok, err) := connection_subscriptions_ r in
  if err then set_state kConnection
                (set_connection (server_transport_list_iterator_ r) (ok, false) r) else r.

Definition set_streams (s : option RegStream) (g : option (Key * Key)) (r : Registration) : Registration :=
  {| server_transport_list_ := server_transport_list_ r;
     server_transport_list_iterator_ := server_transport_list_iterator_ r;
     connection_subscriptions_ := connection_subscriptions_ r; state_ := state_ r;
     last_request_time_ := last_request_time_ r; server_pub_key_ := server_pub_key_ r;
     master_key_ := master_key_ r; uid_ := uid_ r; ephemeral_uid_ := ephemeral_uid_ r;
     pow_params_ := pow_params_ r; aether_global_key_ := aether_global_key_ r; cloud_ := cloud_ r;
     server_sync_key_provider_ := server_sync_key_provider_ r; reg_server_stream_ := s;
     global_reg_server_stream_ := g;
     raw_transport_send_action_subscription_ := raw_transport_send_action_subscription_ r;
     reg_server_write_subscription_ := reg_server_write_subscription_ r;
     send_result_callbacks_ := send_result_callbacks_ r; next_request_id := next_request_id r;
     generated := generated r; client_ := client_ r |}.

Definition Connected (r : Registration) : Registration :=
  if aether then set_state kGetKeys (set_streams (Some PlainStream) (global_reg_server_stream_ r) r) else r.

(** ** Requests *)

(** A new request identifier with its callback ([SendResult::OnResponse]), and the
    subscription to the error of its write. *)
Definition new_request (q : request) (r : Registration) : Z * Registration :=
  let '(id, next) := GenRequestId (next_request_id r) in
  (id,
   {| server_transport_list_ := server_transport_list_ r;
      server_transport_list_iterator_ := server_transport_list_iterator_ r;
      connection_subscriptions_ := connection_subscriptions_ r; state_ := state_ r;
      last_request_time_ := last_request_time_ r; server_pub_key_ := server_pub_key_ r;
      master_key_ := master_key_ r; uid_ := uid_ r; ephemeral_uid_ := ephemeral_uid_ r;
      pow_params_ := pow_params_ r; aether_global_key_ := aether_global_key_ r; cloud_ := cloud_ r;
      server_sync_key_provider_ := server_sync_key_provider_ r;
      reg_server_stream_ := reg_server_stream_ r;
      global_reg_server_stream_ := global_reg_server_stream_ r;
      raw_transport_send_action_subscription_ :=
        match q with RGetKeys => true | _ => raw_transport_send_action_subscription_ r end;
      reg_server_write_subscription_ :=
        match q with RGetKeys => reg_server_write_subscription_ r | _ => true end;
      send_result_callbacks_ :=
        match send_result_callbacks_ r !! id with
        | Some _ => send_result_callbacks_ r
        | None => <[id := q]> (send_result_callbacks_ r)
        end;
      next_request_id := next; generated := generated r; client_ := client_ r |}).

Definition set_time (t : TimePoint) (r : Registration) : Registration :=
  {| server_transport_list_ := server_transport_list_ r;
     server_transport_list_iterator_ := server_transport_list_iterator_ r;
     connection_subscriptions_ := connection_subscriptions_ r; state_ := state_ r;
     last_request_time_ := t; server_pub_key_ := server_pub_key_ r;
     master_key_ := master_key_ r; uid_ := uid_ r; ephemeral_uid_ := ephemeral_uid_ r;
     pow_params_ := pow_params_ r; aether_global_key_ := aether_global_key_ r; cloud_ := cloud_ r;
     server_sync_key_provider_ := server_sync_key_provider_ r;
     reg_server_stream_ := reg_server_stream_ r;
     global_reg_server_stream_ := global_reg_server_stream_ r;
     raw_transport_send_action_subscription_ := raw_transport_send_action_subscription_ r;
     reg_server_write_subscription_ := reg_server_write_subscription_ r;
     send_result_callbacks_ := send_result_callbacks_ r; next_request_id := next_request_id r;
     generated := generated r; client_ := client_ r |}.

Definition GetKeys (t : TimePoint) (r : Registration) : outcome (Registration * list output) :=
  let r := set_state kWaitKeys r in
  let '(id, r) := new_request RGetKeys r in
  match reg_server_stream_ r with
  | None => Undefined
  | Some _ => Defined (set_time t r, [SendGetKeys id])
  end.

Definition WaitKeys (t : TimePoint) (r : Registration) : Registration * TimePoint :=
  if last_request_time_ r + response_timeout_ <? t then (set_state kGetKeys r, t)
  else (r, last_request_time_ r + response_timeout_).

(** The keys: [CryptoSyncKeygen] into the provider, or into [master_key_]. *)
Definition set_sync_key (r : Registration) : Registration :=
  {| server_transport_list_ := server_transport_list_ r;
     server_transport_list_iterator_ := server_transport_list_iterator_ r;
     connection_subscriptions_ := connection_subscriptions_ r; state_ := state_ r;
     last_request_time_ := last_request_time_ r; server_pub_key_ := server_pub_key_ r;
     master_key_ := master_key_ r; uid_ := uid_ r; ephemeral_uid_ := ephemeral_uid_ r;
     pow_params_ := pow_params_ r; aether_global_key_ := aether_global_key_ r; cloud_ := cloud_ r;
     server_sync_key_provider_ := Some (keygen (generated r));
     reg_server_stream_ := reg_server_stream_ r;
     global_reg_server_stream_ := global_reg_server_stream_ r;
     raw_transport_send_action_subscription_ := raw_transport_send_action_subscription_ r;
     reg_server_write_subscription_ := reg_server_write_subscription_ r;
     send_result_callbacks_ := send_result_callbacks_ r; next_request_id := next_request_id r;
     generated := S (generated r); client_ := client_ r |}.

Definition set_master_key (r : Registration) : Registration :=
  {| server_transport_list_ := server_transport_list_ r;
     server_transport_list_iterator_ := server_transport_list_iterator_ r;
     connection_subscriptions_ := connection_subscriptions_ r; state_ := state_ r;
     last_request_time_ := last_request_time_ r; server_pub_key_ := server_pub_key_ r;
     master_key_ := keygen (generated r); uid_ := uid_ r; ephemeral_uid_ := ephemeral_uid_ r;
     pow_params_ := pow_params_ r; aether_global_key_ := aether_global_key_ r; cloud_ := cloud_ r;
     server_sync_key_provider_ := server_sync_key_provider_ r;
     reg_server_stream_ := reg_server_stream_ r;
     global_reg_server_stream_ := global_reg_server_stream_ r;
     raw_transport_send_action_subscription_ := raw_transport_send_action_subscription_ r;
     reg_server_write_subscription_ := reg_server_write_subscription_ r;
     send_result_callbacks_ := send_result_callbacks_ r; next_request_id := next_request_id r;
     generated := S (generated r); client_ := client_ r |}.

(** [CreateRegServerStream] gives a null stream when there is no [Aether]. *)
Definition CreateRegServerStream (public_key secret_key : Key) : option RegStream :=
  if aether then Some (CryptStream public_key secret_key) else None.

Definition RequestPowParams (r : Registration) : outcome (Registration * list output) :=
  let secret_key := keygen (generated r) in
  let r := set_sync_key r in
  let r := set_streams (CreateRegServerStream (server_pub_key_ r) secret_key)
             (global_reg_server_stream_ r) r in
  let '(id, r) := new_request RPow r in
  match reg_server_stream_ r with
  | None => Undefined
  | Some s => Defined (r, [SendPow s id secret_key])
  end.

Definition MakeRegistration (r : Registration) : option (outcome (Registration * list output)) :=
  match pow_params_ r with
  | None => Some Undefined
  | Some p =>
      match PoW.ComputeProofOfWork bcrypt_hashpw (salt p) (password_suffix p) (max_hash_value p)
              fuel (pool_size p) with
      | None => None
      | Some Undefined => Some Undefined
      | Some (Defined proofs) =>
          let r := set_master_key r in
          match server_sync_key_provider_ r, reg_server_stream_ r with
          | Some return_key, Some s =>
              let r := set_streams (Some s) (Some (aether_global_key_ r, master_key_ r)) r in
              let '(id, r) := new_request RFinish r in
              Some (Defined (r, [SendRegistration s proofs return_key (aether_global_key_ r)
                                   (master_key_ r) id]))
          | _, _ => Some Undefined
          end
      end
  end.

Definition ResolveCloud (r : Registration) : outcome (Registration * list output) :=
  let '(id, r) := new_request RResolve r in
  match reg_server_stream_ r with
  | None => Undefined
  | Some s => Defined (r, [SendResolve s id (cloud_ r)])
  end.

(** [Update]; the time it returns is that of the next update. *)
Definition Update (t : TimePoint) (r : Registration)
  : option (outcome (Registration * list output * TimePoint)) :=
  let step :=
    if changed_ (state_ r) then
      let '(s, m) := SM.Acquire (state_ r) in
      let r := upd_state m r in
      match s with
      | kConnection => Some (Defined (IterateConnection r, []))
      | kConnected => Some (Defined (Connected r, []))
      | kGetKeys => Some (GetKeys t r)
      | kGetPowParams => Some (RequestPowParams r)
      | kMakeRegistration => MakeRegistration r
      | kRequestCloudResolving => Some (ResolveCloud r)
      | kRegistered => Some (Defined (r, [Done Result]))
      | kRegistrationFailed => Some (Defined (r, [Done Error]))
      | kWaitingConnection | kWaitKeys => Some (Defined (r, []))
      end
    else Some (Defined (r, [])) in
  match step with
  | None => None
  | Some Undefined => Some Undefined
  | Some (Defined (r, out)) =>
      match StateMachine.state_ (state_ r) with
      | kWaitKeys => let '(r, t') := WaitKeys t r in Some (Defined (r, out, t'))
      | _ => Some (Defined (r, out, t))
      end
  end.

(** ** Answers *)

Definition upd_keys (server_pub global : Key) (pow : option PowParams) (r : Registration) : Registration :=
  {| server_transport_list_ := server_transport_list_ r;
     server_transport_list_iterator_ := server_transport_list_iterator_ r;
     connection_subscriptions_ := connection_subscriptions_ r; state_ := state_ r;
     last_request_time_ := last_request_time_ r; server_pub_key_ := server_pub;
     master_key_ := master_key_ r; uid_ := uid_ r; ephemeral_uid_ := ephemeral_uid_ r;
     pow_params_ := pow; aether_global_key_ := global; cloud_ := cloud_ r;
     server_sync_key_provider_ := server_sync_key_provider_ r;
     reg_server_stream_ := reg_server_stream_ r;
     global_reg_server_stream_ := global_reg_server_stream_ r;
     raw_transport_send_action_subscription_ := raw_transport_send_action_subscription_ r;
     reg_server_write_subscription_ := reg_server_write_subscription_ r;
     send_result_callbacks_ := send_result_callbacks_ r; next_request_id := next_request_id r;
     generated := generated r; client_ := client_ r |}.

Definition OnGetKeysResponse (k : SignedKey) (r : Registration) : Registration :=
  if verify (sign k) (key k) sign_pk_
  then set_state kGetPowParams (upd_keys (key k) (aether_global_key_ r) (pow_params_ r) r)
  else set_state kRegistrationFailed r.

Definition OnResponsePowParams (p : PowParams) (r : Registration) : Registration :=
  if verify (sign (global_key p)) (key (global_key p)) sign_pk_
  then set_state kMakeRegistration (upd_keys (server_pub_key_ r) (key (global_key p)) (Some p) r)
  else set_state kRegistrationFailed r.

Definition set_registered (e u : Z) (c : list Z) (cfg : option Config) (r : Registration) : Registration :=
  {| server_transport_list_ := server_transport_list_ r;
     server_transport_list_iterator_ := server_transport_list_iterator_ r;
     connection_subscriptions_ := connection_subscriptions_ r; state_ := state_ r;
     last_request_time_ := last_request_time_ r; server_pub_key_ := server_pub_key_ r;
     master_key_ := master_key_ r; uid_ := u; ephemeral_uid_ := e;
     pow_params_ := pow_params_ r; aether_global_key_ := aether_global_key_ r; cloud_ := c;
     server_sync_key_provider_ := server_sync_key_provider_ r;
     reg_server_stream_ := reg_server_stream_ r;
     global_reg_server_stream_ := global_reg_server_stream_ r;
     raw_transport_send_action_subscription_ := raw_transport_send_action_subscription_ r;
     reg_server_write_subscription_ := reg_server_write_subscription_ r;
     send_result_callbacks_ := send_result_callbacks_ r; next_request_id := next_request_id r;
     generated := generated r; client_ := cfg |}.

Definition OnConfirmRegistration (m : RegistrationResponse) (r : Registration) : Registration :=
  set_state kRequestCloudResolving
    (set_registered (r_ephemeral_uid m) (r_uid m) (r_cloud m) (client_ r) r).

Definition OnResolveCloudResponse (ds : list ServerDescriptor) (r : Registration)
  : Registration * list output :=
  if aether then
    let new_cloud := foldl (fun c d => AddServer (make_server d) c)
                       {| servers_ := []; adapter_ := adapter |} ds in
    let cfg := {| uid := uid_ r; ephemeral_uid := ephemeral_uid_ r; master_key := master_key_ r;
                  c_cloud := new_cloud |} in
    (set_state kRegistered (set_registered (ephemeral_uid_ r) (uid_ r) (cloud_ r) (Some cfg) r),
     [SetConfig cfg])
  else (r, []).

Definition drop_callback (id : Z) (r : Registration) : Registration :=
  {| server_transport_list_ := server_transport_list_ r;
     server_transport_list_iterator_ := server_transport_list_iterator_ r;
     connection_subscriptions_ := connection_subscriptions_ r; state_ := state_ r;
     last_request_time_ := last_request_time_ r; server_pub_key_ := server_pub_key_ r;
     master_key_ := master_key_ r; uid_ := uid_ r; ephemeral_uid_ := ephemeral_uid_ r;
     pow_params_ := pow_params_ r; aether_global_key_ := aether_global_key_ r; cloud_ := cloud_ r;
     server_sync_key_provider_ := server_sync_key_provider_ r;
     reg_server_stream_ := reg_server_stream_ r;
     global_reg_server_stream_ := global_reg_server_stream_ r;
     raw_transport_send_action_subscription_ := raw_transport_send_action_subscription_ r;
     reg_server_write_subscription_ := reg_server_write_subscription_ r;
     send_result_callbacks_ := delete id (send_result_callbacks_ r);
     next_request_id := next_request_id r; generated := generated r; client_ := client_ r |}.

(** [SetSendResultResponse] with the callback of the request. *)
Definition OnAnswer (id : Z) (p : Payload) (r : Registration) : Registration * list output :=
  match send_result_callbacks_ r !! id with
  | None => (r, [])
  | Some q =>
      let '(r, out) :=
        match q with
        | RGetKeys => (OnGetKeysResponse (as_signed_key p) r, [])
        | RPow => (OnResponsePowParams (as_pow_params p) r, [])
        | RFinish => (OnConfirmRegistration (as_registration p) r, [])
        | RResolve => OnResolveCloudResponse (as_servers p) r
        end in
      (drop_callback id r, out)
  end.

(** A packet of the transport: an answer as it is, in the stream of the
    registration, or in the global stream within it. *)
Inductive packet :=
  | PlainAnswer (id : Z) (p : Payload)
  | SealedAnswer (k : Key) (id : Z) (p : Payload)
  | GlobalAnswer (k1 k2 : Key) (id : Z) (p : Payload).

(** The read gates of the streams: the root API reads every packet. *)
Definition OnPacket (m : packet) (r : Registration) : outcome (Registration * list output) :=
  match reg_server_stream_ r, m with
  | None, _ => Defined (r, [])
  | Some _, PlainAnswer id p => Defined (OnAnswer id p r)
  | Some PlainStream, _ => Defined (r, [])
  | Some (CryptStream _ k), SealedAnswer k' id p =>
      if decide (k' = k) then Defined (OnAnswer id p r) else Undefined
  | Some (CryptStream _ k), GlobalAnswer k1 k2 id p =>
      if decide (k1 = k) then
        match global_reg_server_stream_ r with
        | None => Defined (r, [])
        | Some (_, mk) => if decide (k2 = mk) then Defined (OnAnswer id p r) else Undefined
        end
      else Undefined
  end.

(** The errors of the writes. *)
Definition OnRawWriteError (r : Registration) : Registration :=
  if raw_transport_send_action_subscription_ r then set_state kConnection r else r.

Definition OnRegWriteError (r : Registration) : Registration :=
  if reg_server_write_subscription_ r then set_state kRegistrationFailed r else r.

(** ** Runs *)

Inductive op :=
  | OUpdate (t : TimePoint)
  | OConnected
  | OConnectionError
  | OPacket (m : packet)
  | ORawWriteError
  | ORegWriteError.

Definition exec (o : op) (r : Registration) : option (outcome (Registration * list output)) :=
  match o with
  | OUpdate t =>
      match Update t r with
      | None => None
      | Some Undefined => Some Undefined
      | Some (Defined (r, out, _)) => Some (Defined (r, out))
      end
  | OConnected => Some (Defined (OnConnectionSuccess r, []))
  | OConnectionError => Some (Defined (OnConnectionError r, []))
  | OPacket m => Some (OnPacket m r)
  | ORawWriteError => Some (Defined (OnRawWriteError r, []))
  | ORegWriteError => Some (Defined (OnRegWriteError r, []))
  end.

(** The run with what it has put out. *)
Fixpoint run (os : list op) (r : Registration) (out : list output)
  : option (outcome (Registration * list output)) :=
  match os with
  | [] => Some (Defined (r, out))
  | o :: os =>
      match exec o r with
      | None => None
      | Some Undefined => Some Undefined
      | Some (Defined (r, out')) => run os r (out ++ out')
      end
  end.

End Environment.
End Registration.

Module RegistrationProperties.
Import Registration.

Section Environment.
Context (sign_pk_ : Key) (verify : bytes -> Key -> Key -> bool) (keygen : nat -> Key)
        (bcrypt_hashpw : bytes -> bytes -> bytes) (fuel : nat)
        (adapter : option Z) (aether : bool) (response_timeout_ : Duration).

Abbreviation exec := (exec sign_pk_ verify keygen bcrypt_hashpw fuel adapter aether response_timeout_).
Abbreviation run := (run sign_pk_ verify keygen bcrypt_hashpw fuel adapter aether response_timeout_).
Abbreviation Update := (Update keygen bcrypt_hashpw fuel aether response_timeout_).

(** ** What is sent under which key *)

(** A key the owner of the signing key has signed. *)
Definition signed (k : Key) : Prop := exists sig, verify sig k sign_pk_ = true.

Definition sent (mk : Key) (out : list output) : Prop :=
  exists s proofs rk gk id, SendRegistration s proofs rk gk mk id ∈ out.

Definition good (out : list output) (o : output) : Prop :=
  match o with
  | SendPow (CryptStream k _) _ _ => signed k
  | SendPow PlainStream _ _ => False
  | SendRegistration _ _ _ gk _ _ => signed gk
  | SetConfig cfg => sent (master_key cfg) out
  | _ => True
  end.

Lemma sent_app mk out out' : sent mk out -> sent mk (out ++ out').
Proof. intros (s & pr & rk & gk & id & H). exists s, pr, rk, gk, id. apply elem_of_app. by left. Qed.

Lemma good_app out out' o : good out o -> good (out ++ out') o.
Proof. destruct o; try done. apply sent_app. Qed.

Abbreviation st r := (StateMachine.state_ (state_ r)).

(** A request whose answer tells that the registration was sent. *)
Definition after_registration (q : request) : Prop := q = RFinish \/ q = RResolve.

Record inv (r : Registration) (out : list output) : Prop := {
  inv_pow : st r = kGetPowParams -> signed (server_pub_key_ r);
  inv_make : st r = kMakeRegistration -> signed (aether_global_key_ r);
  inv_resolving : st r = kRequestCloudResolving -> sent (master_key_ r) out;
  inv_pending : forall id q, send_result_callbacks_ r !! id = Some q -> after_registration q ->
    sent (master_key_ r) out;
  inv_out : Forall (good out) out;
}.

(** The parts of the state the invariant looks at. *)
Definition view (r : Registration) : State * Key * Key * Key * gmap Z request :=
  (st r, server_pub_key_ r, aether_global_key_ r, master_key_ r, send_result_callbacks_ r).

Lemma inv_view r r' out : view r' = view r -> inv r out -> inv r' out.
Proof. intros E []. injection E as E1 E2 E3 E4 E5. constructor; rewrite ?E1, ?E2, ?E3, ?E4, ?E5; done. Qed.

(** A state no later step relies on. *)
Definition free (s : State) : Prop :=
  s <> kGetPowParams /\ s <> kMakeRegistration /\ s <> kRequestCloudResolving.

Lemma inv_free s r out : free s -> inv r out -> inv (set_state s r) out.
Proof.
  intros (A & B & C) []. constructor; auto; unfold set_state; cbn; rewrite SM.state_set; done.
Qed.

Lemma inv_put r out out' : inv r out -> Forall (good (out ++ out')) out' -> inv r (out ++ out').
Proof.
  intros [] F. constructor; eauto using sent_app. apply Forall_app. split; [|done].
  revert inv_out0. apply List.Forall_impl. intros o. apply good_app.
Qed.

(** A request does not change what was sent; one that tells of the registration
    is made after it. *)
Lemma inv_request q r out id r' :
  inv r out -> new_request q r = (id, r') -> (after_registration q -> sent (master_key_ r) out) ->
  inv r' out.
Proof.
  intros I E Hq. destruct I. cbn in E. injection E as <- <-. constructor; auto. cbn.
  intros i q' Hi Ha. destruct (send_result_callbacks_ r !! next_request_id r); [eauto|].
  apply lookup_insert_Some in Hi as [[_ <-]|[_ Hi]]; eauto.
Qed.

Lemma inv_acquire r out : inv r out -> inv (upd_state (SM.Acquire (state_ r)).2 r) out.
Proof. by apply inv_view. Qed.

#[local] Hint Resolve inv_free : core.

Lemma free_states s :
  s ∈ [kConnection; kWaitingConnection; kConnected; kGetKeys; kWaitKeys; kRegistered; kRegistrationFailed] ->
  free s.
Proof. intros H. repeat (apply elem_of_cons in H as [->|H]; [done|]). by apply elem_of_nil in H. Qed.

Ltac free_state := apply free_states; set_solver.

Lemma GetKeys_inv t r out r' out' :
  inv r out -> GetKeys t r = Defined (r', out') -> inv r' (out ++ out').
Proof.
  intros I E. unfold GetKeys in E. destruct (new_request RGetKeys (set_state kWaitKeys r)) as [id r1] eqn:E1.
  destruct (reg_server_stream_ r1); [|done]. simplify_eq.
  apply inv_put; [|by repeat constructor]. apply (inv_view r1); [reflexivity|].
  eapply inv_request; [|exact E1|by intros [|]]. apply inv_free; [free_state|done].
Qed.

Lemma RequestPowParams_inv r out r' out' :
  inv r out -> signed (server_pub_key_ r) ->
  RequestPowParams keygen aether r = Defined (r', out') -> inv r' (out ++ out').
Proof.
  intros I Hs E. unfold RequestPowParams in E. set (r1 := set_streams _ _ _) in E.
  destruct (new_request RPow r1) as [id r2] eqn:E1.
  assert (reg_server_stream_ r2 = CreateRegServerStream aether (server_pub_key_ r) (keygen (generated r))) as Er
    by (cbn in E1; by injection E1 as <- <-).
  rewrite Er in E. unfold CreateRegServerStream in E. destruct aether; [|done]. simplify_eq.
  apply inv_put; [|by repeat constructor].
  eapply inv_request; [|exact E1|by intros [|]]. by eapply inv_view; [|exact I].
Qed.

Lemma MakeRegistration_inv r out r' out' :
  inv r out -> signed (aether_global_key_ r) -> st r <> kRequestCloudResolving ->
  MakeRegistration keygen bcrypt_hashpw fuel r = Some (Defined (r', out')) -> inv r' (out ++ out').
Proof.
  intros I Hs Hst E. unfold MakeRegistration in E. destruct (pow_params_ r) as [p|]; [|done].
  destruct (PoW.ComputeProofOfWork _ _ _ _ _ _) as [[proofs|]|]; [|done..].
  destruct (server_sync_key_provider_ (set_master_key keygen r)) as [rk|]; [|done].
  destruct (reg_server_stream_ (set_master_key keygen r)) as [s|]; [|done].
  set (r1 := set_streams _ _ _) in E. destruct (new_request RFinish r1) as [id r2] eqn:E1. simplify_eq.
  assert (aether_global_key_ r' = aether_global_key_ r /\ master_key_ r' = master_key_ r1) as [Eg Em]
    by (cbn in E1; by injection E1 as <- <-).
  set (o := SendRegistration _ _ _ _ _ _).
  assert (sent (master_key_ r1) (out ++ [o])) as Hsent.
  { exists s, proofs, rk, (aether_global_key_ r'), id. rewrite <- Em. apply elem_of_app. right. by left. }
  eapply inv_request; [|exact E1|done].
  assert (inv r (out ++ [o])) as [A B C D F].
  { apply inv_put; [done|]. constructor; [|done]. cbn. by rewrite Eg. }
  constructor; auto.
Qed.

Lemma ResolveCloud_inv r out r' out' :
  inv r out -> sent (master_key_ r) out -> ResolveCloud r = Defined (r', out') -> inv r' (out ++ out').
Proof.
  intros I Hs E. unfold ResolveCloud in E. destruct (new_request RResolve r) as [id r1] eqn:E1.
  destruct (reg_server_stream_ r1); [|done]. simplify_eq. apply inv_put; [|by repeat constructor].
  by eapply inv_request.
Qed.

Lemma Update_inv t r out r' out' t' :
  inv r out -> Update t r = Some (Defined (r', out', t')) -> inv r' (out ++ out').
Proof.
  intros I E. unfold Registration.Update in E.
  match type of E with (match ?x with _ => _ end) = _ => destruct x as [[[r1 out1]|]|] eqn:E1; [|done..] end.
  assert (inv r1 (out ++ out1)) as I1.
  { clear E. destruct (changed_ (state_ r)).
    2:{ simplify_eq. by rewrite app_nil_r. }
    cbn [SM.Acquire] in E1. pose proof (inv_acquire r out I) as Ia. cbn [SM.Acquire snd] in Ia.
    destruct (st r) eqn:Es; simplify_eq; try (rewrite ?app_nil_r; done).
    - rewrite app_nil_r. unfold IterateConnection. cbn. case_match; (apply inv_free; [free_state|]); [|done].
      by eapply inv_view; [|exact Ia].
    - rewrite app_nil_r. unfold Connected. destruct aether; [|done].
      apply inv_free; [free_state|]. by eapply inv_view; [|exact Ia].
    - by eapply GetKeys_inv.
    - eapply RequestPowParams_inv; [exact Ia|by apply I|done].
    - eapply MakeRegistration_inv; [exact Ia|by apply I|done|done].
    - eapply ResolveCloud_inv; [exact Ia|by apply I|done].
    - apply inv_put; [done|by repeat constructor].
    - apply inv_put; [done|by repeat constructor]. }
  destruct (st r1) eqn:Es; simplify_eq; try done.
  unfold WaitKeys in E. destruct (_ <? t); simplify_eq; [|done]. apply inv_free; [free_state|done].
Qed.

Lemma OnAnswer_inv id p r out :
  inv r out -> inv (OnAnswer sign_pk_ verify adapter aether id p r).1
                   (out ++ (OnAnswer sign_pk_ verify adapter aether id p r).2).
Proof.
  intros I. unfold OnAnswer. destruct (send_result_callbacks_ r !! id) as [q|] eqn:Eq;
    [|cbn; by rewrite app_nil_r].
  assert (forall r1 out1, inv r1 (out ++ out1) -> inv (drop_callback id r1) (out ++ out1)) as G.
  { intros r1 out1 []. constructor; auto. cbn. intros i q' Hi. apply lookup_delete_Some in Hi as [_ Hi]. eauto. }
  destruct q; cbn [fst snd].
  - rewrite app_nil_r. rewrite <- (app_nil_r out). apply G. rewrite app_nil_r. unfold OnGetKeysResponse.
    destruct (verify _ _ _) eqn:Ev; [|apply inv_free; [free_state|done]].
    destruct I. constructor; auto; unfold set_state; cbn; rewrite ?SM.state_set; try done. intros _. by eexists.
  - rewrite app_nil_r. rewrite <- (app_nil_r out). apply G. rewrite app_nil_r. unfold OnResponsePowParams.
    destruct (verify _ _ _) eqn:Ev; [|apply inv_free; [free_state|done]].
    destruct I. constructor; auto; unfold set_state; cbn; rewrite ?SM.state_set; try done. intros _. by eexists.
  - rewrite app_nil_r. rewrite <- (app_nil_r out). apply G. rewrite app_nil_r. unfold OnConfirmRegistration.
    pose proof (inv_pending _ _ I _ _ Eq (or_introl eq_refl)) as Hs.
    destruct I. constructor; auto; unfold set_state; cbn; rewrite ?SM.state_set; done.
  - pose proof (inv_pending _ _ I _ _ Eq (or_intror eq_refl)) as Hs.
    unfold OnResolveCloudResponse. destruct aether; cbn [fst snd]; apply G.
    + set (cfg := {| uid := _ |}). assert (inv r (out ++ [SetConfig cfg])) as J.
      { apply inv_put; [done|]. constructor; [|done]. cbn. by apply sent_app. }
      apply inv_free; [free_state|]. by eapply inv_view; [|exact J].
    + by rewrite app_nil_r.
Qed.

Lemma reg_exec_inv o r out r' out' :
  inv r out -> exec o r = Some (Defined (r', out')) -> inv r' (out ++ out').
Proof.
  intros I E. destruct o; cbn [Registration.exec] in E.
  - destruct (Update t r) as [[[[r1 out1] t']|]|] eqn:Eu; simplify_eq. by eapply Update_inv.
  - simplify_eq. rewrite app_nil_r. unfold OnConnectionSuccess. destruct (connection_subscriptions_ r) as [[] ?];
      [|done]. apply inv_free; [free_state|]. by eapply inv_view; [|exact I].
  - simplify_eq. rewrite app_nil_r. unfold OnConnectionError. destruct (connection_subscriptions_ r) as [? []];
      [|done]. apply inv_free; [free_state|]. by eapply inv_view; [|exact I].
  - assert (out' = [] /\ r' = r \/ exists id p, OnAnswer sign_pk_ verify adapter aether id p r = (r', out'))
      as [[-> ->]|(id & p & Ea)].
    { unfold OnPacket in E. repeat case_match; simplify_eq; eauto. }
    + by rewrite app_nil_r.
    + pose proof (OnAnswer_inv id p r out I) as J. by rewrite Ea in J.
  - simplify_eq. rewrite app_nil_r. unfold OnRawWriteError. case_match; [|done].
    apply inv_free; [free_state|done].
  - simplify_eq. rewrite app_nil_r. unfold OnRegWriteError. case_match; [|done].
    apply inv_free; [free_state|done].
Qed.

Lemma reg_run_inv os r out r' out' :
  inv r out -> run os r out = Some (Defined (r', out')) -> inv r' out'.
Proof.
  revert r out. induction os as [|o os IH]; intros r out I E; cbn [Registration.run] in E; [by simplify_eq|].
  destruct (exec o r) as [[[r1 out1]|]|] eqn:E1; [|done..]. eapply IH; [|exact E]. by eapply reg_exec_inv.
Qed.

Lemma new_inv servers id : inv (new_registration servers id) [].
Proof. by constructor. Qed.

(** C8: Whatever the network and the servers do, the request of the proof of work
    is sent only under a key that carries the signature of the signing key,
    the master key only under a global key that does, and a client is only
    configured with a master key that was sent. *)
Theorem registration_keys_signed servers id os r out :
  run os (new_registration servers id) [] = Some (Defined (r, out)) -> Forall (good out) out.
Proof. intros E. apply (inv_out r out). by eapply reg_run_inv; [apply new_inv|]. Qed.

(** ** The operations on their branches *)

Abbreviation changed s := {| changed_ := true; StateMachine.state_ := s |}.
Abbreviation ok r out := (Some (Defined (r, out))).

Lemma set_state_ne s r : st r <> s -> set_state s r = upd_state (changed s) r.
Proof. intros Hne. unfold set_state, SM.set, SM.Set_. by rewrite decide_False. Qed.

Lemma update_connection t r sv :
  state_ r = changed kConnection ->
  server_transport_list_ r !! server_transport_list_iterator_ r = Some sv ->
  exec (OUpdate t) r = ok (upd_state (changed kWaitingConnection)
    (set_connection (S (server_transport_list_iterator_ r)) (true, true) r)) [].
Proof.
  intros Hs Hl. unfold Registration.exec, Registration.Update, IterateConnection. rewrite Hs. cbn.
  rewrite Hl, set_state_ne by done. done.
Qed.

(** Without a server left the registration fails. *)
Lemma update_no_server t r :
  state_ r = changed kConnection ->
  server_transport_list_ r !! server_transport_list_iterator_ r = None ->
  exec (OUpdate t) r = ok (upd_state (changed kRegistrationFailed) r) [].
Proof.
  intros Hs Hl. unfold Registration.exec, Registration.Update, IterateConnection. rewrite Hs. cbn.
  rewrite Hl, set_state_ne by done. done.
Qed.

Lemma connection_error r b :
  connection_subscriptions_ r = (b, true) -> st r <> kConnection ->
  exec OConnectionError r = ok (upd_state (changed kConnection)
    (set_connection (server_transport_list_iterator_ r) (b, false) r)) [].
Proof.
  intros Hc Hs. unfold Registration.exec, OnConnectionError. by rewrite Hc, set_state_ne.
Qed.

Lemma connection_success r b :
  connection_subscriptions_ r = (true, b) -> st r <> kConnected ->
  exec OConnected r = ok (upd_state (changed kConnected)
    (set_connection (server_transport_list_iterator_ r) (false, b) r)) [].
Proof.
  intros Hc Hs. unfold Registration.exec, OnConnectionSuccess. by rewrite Hc, set_state_ne.
Qed.

Lemma update_connected t r :
  aether = true -> state_ r = changed kConnected ->
  exec (OUpdate t) r = ok (upd_state (changed kGetKeys)
    (set_streams (Some PlainStream) (global_reg_server_stream_ r) r)) [].
Proof.
  intros Ha Hs. unfold Registration.exec, Registration.Update, Connected. rewrite Hs, Ha.
  cbn [changed_ SM.Acquire]. by rewrite set_state_ne.
Qed.

Lemma update_get_keys t r s :
  0 <= response_timeout_ -> state_ r = changed kGetKeys -> reg_server_stream_ r = Some s ->
  exec (OUpdate t) r = ok (set_time t (new_request RGetKeys (upd_state (changed kWaitKeys) r)).2)
                          [SendGetKeys (next_request_id r)].
Proof.
  intros Ht Hs Hr. unfold Registration.exec, Registration.Update. rewrite Hs.
  cbn [changed_ SM.Acquire]. unfold GetKeys. rewrite set_state_ne by done.
  cbn. rewrite Hr. cbn. unfold WaitKeys. cbn.
  replace (t + response_timeout_ <? t) with false by (symmetry; apply Z.ltb_ge; lia). done.
Qed.

(** Keys that are not answered in time are asked for again. *)
Lemma keys_asked_again t r s :
  0 <= response_timeout_ -> state_ r = {| changed_ := false; StateMachine.state_ := kWaitKeys |} ->
  reg_server_stream_ r = Some s -> last_request_time_ r + response_timeout_ < t ->
  exists r1 r2, exec (OUpdate t) r = ok r1 [] /\ exec (OUpdate t) r1 = ok r2 [SendGetKeys (next_request_id r)].
Proof.
  intros Ht Hs Hr Hl. exists (upd_state (changed kGetKeys) r). eexists. split.
  - unfold Registration.exec, Registration.Update. rewrite Hs. cbn [changed_ StateMachine.state_].
    rewrite Hs. unfold WaitKeys. rewrite (proj2 (Z.ltb_lt _ _) Hl), set_state_ne by (by rewrite Hs). done.
  - by eapply (update_get_keys t (upd_state (changed kGetKeys) r)).
Qed.

Lemma answer_keys id p r :
  send_result_callbacks_ r !! id = Some RGetKeys -> st r <> kGetPowParams ->
  verify (sign (as_signed_key p)) (key (as_signed_key p)) sign_pk_ = true ->
  OnAnswer sign_pk_ verify adapter aether id p r =
    (drop_callback id (upd_state (changed kGetPowParams)
       (upd_keys (key (as_signed_key p)) (aether_global_key_ r) (pow_params_ r) r)), []).
Proof.
  intros Hc Hs Hv. unfold OnAnswer, OnGetKeysResponse. by rewrite Hc, Hv, set_state_ne.
Qed.

Lemma answer_pow id p r :
  send_result_callbacks_ r !! id = Some RPow -> st r <> kMakeRegistration ->
  verify (sign (global_key (as_pow_params p))) (key (global_key (as_pow_params p))) sign_pk_ = true ->
  OnAnswer sign_pk_ verify adapter aether id p r =
    (drop_callback id (upd_state (changed kMakeRegistration)
       (upd_keys (server_pub_key_ r) (key (global_key (as_pow_params p))) (Some (as_pow_params p)) r)), []).
Proof.
  intros Hc Hs Hv. unfold OnAnswer, OnResponsePowParams. by rewrite Hc, Hv, set_state_ne.
Qed.

(** A key without a valid signature ends the registration with an error. *)
Lemma answer_unsigned id p r :
  send_result_callbacks_ r !! id = Some RGetKeys -> st r <> kRegistrationFailed ->
  verify (sign (as_signed_key p)) (key (as_signed_key p)) sign_pk_ = false ->
  OnAnswer sign_pk_ verify adapter aether id p r =
    (drop_callback id (upd_state (changed kRegistrationFailed) r), []).
Proof.
  intros Hc Hs Hv. unfold OnAnswer, OnGetKeysResponse. by rewrite Hc, Hv, set_state_ne.
Qed.

Lemma answer_confirm id p r :
  send_result_callbacks_ r !! id = Some RFinish -> st r <> kRequestCloudResolving ->
  let m := as_registration p in
  OnAnswer sign_pk_ verify adapter aether id p r =
    (drop_callback id (upd_state (changed kRequestCloudResolving)
       (set_registered (r_ephemeral_uid m) (r_uid m) (r_cloud m) (client_ r) r)), []).
Proof. intros Hc Hs. unfold OnAnswer, OnConfirmRegistration. by rewrite Hc, set_state_ne. Qed.

Lemma answer_resolve id p r :
  aether = true -> send_result_callbacks_ r !! id = Some RResolve -> st r <> kRegistered ->
  let cfg := {| uid := uid_ r; ephemeral_uid := ephemeral_uid_ r; master_key := master_key_ r;
                c_cloud := foldl (fun c d => AddServer (make_server d) c)
                             {| servers_ := []; adapter_ := adapter |} (as_servers p) |} in
  OnAnswer sign_pk_ verify adapter aether id p r =
    (drop_callback id (upd_state (changed kRegistered)
       (set_registered (ephemeral_uid_ r) (uid_ r) (cloud_ r) (Some cfg) r)), [SetConfig cfg]).
Proof.
  intros Ha Hc Hs. unfold OnAnswer, OnResolveCloudResponse. rewrite Hc, Ha. by rewrite set_state_ne.
Qed.

Lemma update_pow t r :
  aether = true -> state_ r = changed kGetPowParams ->
  exec (OUpdate t) r =
    let sk := keygen (generated r) in
    ok (new_request RPow (set_streams (Some (CryptStream (server_pub_key_ r) sk))
          (global_reg_server_stream_ r) (set_sync_key keygen
            (upd_state {| changed_ := false; StateMachine.state_ := kGetPowParams |} r)))).2
       [SendPow (CryptStream (server_pub_key_ r) sk) (next_request_id r) sk].
Proof.
  intros Ha Hs. unfold Registration.exec, Registration.Update, RequestPowParams, CreateRegServerStream.
  rewrite Hs, Ha. done.
Qed.

Lemma update_register t r p proofs s rk :
  state_ r = changed kMakeRegistration -> pow_params_ r = Some p ->
  PoW.ComputeProofOfWork bcrypt_hashpw (salt p) (password_suffix p) (max_hash_value p)
    fuel (pool_size p) = Some (Defined proofs) ->
  server_sync_key_provider_ r = Some rk -> reg_server_stream_ r = Some s ->
  exec (OUpdate t) r =
    let mk := keygen (generated r) in
    ok (new_request RFinish (set_streams (Some s) (Some (aether_global_key_ r, mk))
          (set_master_key keygen
            (upd_state {| changed_ := false; StateMachine.state_ := kMakeRegistration |} r)))).2
       [SendRegistration s proofs rk (aether_global_key_ r) mk (next_request_id r)].
Proof.
  intros Hs Hp Hw Hk Hr. unfold Registration.exec, Registration.Update, MakeRegistration. rewrite Hs.
  cbn -[PoW.ComputeProofOfWork]. rewrite Hp, Hw, Hk, Hr. done.
Qed.

Lemma update_resolve t r s :
  state_ r = changed kRequestCloudResolving -> reg_server_stream_ r = Some s ->
  exec (OUpdate t) r =
    ok (new_request RResolve (upd_state {| changed_ := false; StateMachine.state_ := kRequestCloudResolving |} r)).2
       [SendResolve s (next_request_id r) (cloud_ r)].
Proof.
  intros Hs Hr. unfold Registration.exec, Registration.Update, ResolveCloud. rewrite Hs. cbn. by rewrite Hr.
Qed.

Lemma update_registered t r :
  state_ r = changed kRegistered ->
  exec (OUpdate t) r = ok (upd_state {| changed_ := false; StateMachine.state_ := kRegistered |} r) [Done Result].
Proof. intros Hs. unfold Registration.exec, Registration.Update. by rewrite Hs. Qed.

Lemma update_failed t r :
  state_ r = changed kRegistrationFailed ->
  exec (OUpdate t) r =
    ok (upd_state {| changed_ := false; StateMachine.state_ := kRegistrationFailed |} r) [Done Error].
Proof. intros Hs. unfold Registration.exec, Registration.Update. by rewrite Hs. Qed.

(** One request at a time: its callback is found, and no other is left. *)
Lemma callback_found (cs : gmap Z request) id q :
  cs = ∅ -> match cs !! id with Some _ => cs | None => <[id := q]> cs end !! id = Some q.
Proof. intros ->. apply lookup_insert_eq. Qed.

Lemma callback_dropped (cs : gmap Z request) id q :
  cs = ∅ -> delete id (match cs !! id with Some _ => cs | None => <[id := q]> cs end) = ∅.
Proof. intros ->. rewrite lookup_empty. by rewrite delete_insert_eq, delete_empty. Qed.

Lemma run_cons o os r out r1 out1 :
  exec o r = ok r1 out1 -> run (o :: os) r out = run os r1 (out ++ out1).
Proof. intros E. cbn [Registration.run]. by rewrite E. Qed.

(** The packets the streams let through. *)
Lemma exec_plain id p r s :
  reg_server_stream_ r = Some s ->
  exec (OPacket (PlainAnswer id p)) r = Some (Defined (OnAnswer sign_pk_ verify adapter aether id p r)).
Proof. intros Hr. cbn. unfold OnPacket. rewrite Hr. by destruct s. Qed.

Lemma exec_sealed (plain : bool) id p r pk k :
  reg_server_stream_ r = Some (CryptStream pk k) ->
  exec (OPacket (if plain then PlainAnswer id p else SealedAnswer k id p)) r
    = Some (Defined (OnAnswer sign_pk_ verify adapter aether id p r)).
Proof.
  intros Hr. destruct plain; [by eapply exec_plain|]. cbn. unfold OnPacket. by rewrite Hr, decide_True.
Qed.

Lemma exec_global (plain : bool) id p r pk k gk mk :
  reg_server_stream_ r = Some (CryptStream pk k) -> global_reg_server_stream_ r = Some (gk, mk) ->
  exec (OPacket (if plain then PlainAnswer id p else GlobalAnswer k mk id p)) r
    = Some (Defined (OnAnswer sign_pk_ verify adapter aether id p r)).
Proof.
  intros Hr Hg. destruct plain; [by eapply exec_plain|]. cbn. unfold OnPacket.
  rewrite Hr, decide_True by done. by rewrite Hg, decide_True.
Qed.

Lemma added_servers c ds :
  servers_ (foldl (fun c d => AddServer (make_server d) c) c ds)
    = servers_ c ++ (Loaded ∘ make_server <$> ds).
Proof.
  revert c. induction ds as [|d ds IH]; intros c; cbn; [by rewrite app_nil_r|].
  rewrite IH. cbn. by rewrite <- (assoc_L (++)).
Qed.

Ltac pending :=
  cbn [send_result_callbacks_ upd_state set_streams set_sync_key set_master_key new_request
       drop_callback upd_keys set_registered set_connection set_time new_registration
       next_request_id fst snd GenRequestId];
  apply callback_found; repeat apply callback_dropped; reflexivity.

(** The operations of a registration without errors.  The answers after the
    first one come sealed with the keys of their streams, or, when [plain] is
    set, as they are. *)
Definition straight (plain : bool) (ts : nat -> TimePoint) (id : Z) (pk pp pm ps : Payload) : list op :=
  let next i := wrap 16 (i + 1) in
  let sealed i p := OPacket (if plain then PlainAnswer i p else SealedAnswer (keygen 0) i p) in
  let global i p := OPacket (if plain then PlainAnswer i p else GlobalAnswer (keygen 0) (keygen 1) i p) in
  [OUpdate (ts 0%nat); OConnected; OUpdate (ts 1%nat); OUpdate (ts 2%nat); OPacket (PlainAnswer id pk);
   OUpdate (ts 3%nat); OPacket (SealedAnswer (keygen 0) (next id) pp);
   OUpdate (ts 4%nat); global (next (next id)) pm;
   OUpdate (ts 5%nat); sealed (next (next (next id))) ps; OUpdate (ts 6%nat)].

(** What such a registration puts out. *)
Definition straight_out (id : Z) (pk pp pm : Payload) (proofs : list Z) (cfg : Config) : list output :=
  let next i := wrap 16 (i + 1) in
  let stream := CryptStream (key (as_signed_key pk)) (keygen 0) in
  [SendGetKeys id; SendPow stream (next id) (keygen 0);
   SendRegistration stream proofs (keygen 0) (key (global_key (as_pow_params pp))) (keygen 1)
     (next (next id));
   SendResolve stream (next (next (next id))) (r_cloud (as_registration pm)); SetConfig cfg; Done Result].

Definition straight_config (pm ps : Payload) : Config :=
  {| uid := r_uid (as_registration pm); ephemeral_uid := r_ephemeral_uid (as_registration pm);
     master_key := keygen 1;
     c_cloud := foldl (fun c d => AddServer (make_server d) c)
                  {| servers_ := []; adapter_ := adapter |} (as_servers ps) |}.

Lemma straight_run plain sv rest id ts pk pp pm ps proofs :
  aether = true -> 0 <= response_timeout_ ->
  verify (sign (as_signed_key pk)) (key (as_signed_key pk)) sign_pk_ = true ->
  verify (sign (global_key (as_pow_params pp))) (key (global_key (as_pow_params pp))) sign_pk_ = true ->
  PoW.ComputeProofOfWork bcrypt_hashpw (salt (as_pow_params pp)) (password_suffix (as_pow_params pp))
    (max_hash_value (as_pow_params pp)) fuel (pool_size (as_pow_params pp)) = Some (Defined proofs) ->
  exists r, run (straight plain ts id pk pp pm ps) (new_registration (sv :: rest) id) []
    = ok r (straight_out id pk pp pm proofs (straight_config pm ps)) /\
    client_ r = Some (straight_config pm ps).
Proof.
  intros Ha Ht Hvk Hvp Hpow. eexists. unfold straight.
  erewrite run_cons by (apply (update_connection _ _ sv); reflexivity).
  erewrite run_cons by (apply connection_success; [reflexivity|done]).
  erewrite run_cons by (apply update_connected; [done|reflexivity]).
  erewrite run_cons by (eapply update_get_keys; [done|reflexivity|reflexivity]).
  erewrite run_cons.
  2:{ erewrite exec_plain by reflexivity. rewrite answer_keys; [reflexivity|pending|done|done]. }
  erewrite run_cons by (apply update_pow; [done|reflexivity]).
  erewrite run_cons.
  2:{ erewrite (exec_sealed false) by reflexivity. rewrite answer_pow; [reflexivity|pending|done|done]. }
  erewrite run_cons by (eapply update_register; [reflexivity|reflexivity|exact Hpow|reflexivity|reflexivity]).
  erewrite run_cons.
  2:{ erewrite exec_global by reflexivity. rewrite answer_confirm; [reflexivity|pending|done]. }
  erewrite run_cons by (eapply update_resolve; reflexivity).
  erewrite run_cons.
  2:{ erewrite exec_sealed by reflexivity. rewrite answer_resolve; [reflexivity|done|pending|done]. }
  erewrite run_cons by (apply update_registered; reflexivity).
  split; reflexivity.
Qed.

(** C29: A registration that is not disturbed: the connection to the first server is
    made, the answers come sealed with the keys of their streams and one at a
    time, between two updates, the keys in them are signed, and the proof of
    work can be done: [pool_size] different numbers are accepted, among those the
    fuel lets the search try.  Then the search ends with the first accepted
    numbers, the client is configured with the identifiers it was given, the
    master key it sent and the servers it was answered with, and the action ends
    with a result. *)
Theorem registration_completes sv rest id ts pk pp pm ps numbers :
  let p := as_pow_params pp in
  aether = true -> 0 <= response_timeout_ ->
  verify (sign (as_signed_key pk)) (key (as_signed_key pk)) sign_pk_ = true ->
  verify (sign (global_key p)) (key (global_key p)) sign_pk_ = true ->
  PoWProperties.terminated bcrypt_hashpw -> zlen (password_suffix p) <= 62 ->
  zlen numbers = pool_size p -> List.NoDup numbers ->
  Forall (fun w => 0 < w <= Z.of_nat fuel /\ w < 2 ^ 32 /\
    PoWProperties.accepted bcrypt_hashpw (salt p) (password_suffix p) (max_hash_value p) w = true) numbers ->
  exists proofs r cfg,
    PoWProperties.first_accepted bcrypt_hashpw (salt p) (password_suffix p) (max_hash_value p) 0 proofs /\
    run (straight false ts id pk pp pm ps) (new_registration (sv :: rest) id) []
    = ok r (straight_out id pk pp pm proofs cfg) /\
    client_ r = Some cfg /\ uid cfg = r_uid (as_registration pm) /\
    ephemeral_uid cfg = r_ephemeral_uid (as_registration pm) /\ master_key cfg = keygen 1 /\
    servers_ (c_cloud cfg) = (Loaded ∘ make_server <$> as_servers ps).
Proof.
  intros p Ha Ht Hvk Hvp Hterm Hsuf Hsize Hd Hnum.
  destruct (PoWProperties.proof_of_work_found _ (salt p) (password_suffix p) (max_hash_value p) fuel numbers
              Hterm Hsuf Hd Hnum) as (proofs & Hf & Hpow).
  rewrite Hsize in Hpow.
  destruct (straight_run false sv rest id ts pk pp pm ps proofs) as (r & E & Hc); try done.
  exists proofs, r, (straight_config pm ps). split_and!; try done. unfold straight_config. cbn.
  by rewrite added_servers.
Qed.

(** The same answers are taken when they are not sealed: whoever can put packets
    into the connection, without any key, chooses the identifiers and the
    servers of the client. *)
Theorem plain_answers_register sv rest id ts pk pp pm ps proofs :
  aether = true -> 0 <= response_timeout_ ->
  verify (sign (as_signed_key pk)) (key (as_signed_key pk)) sign_pk_ = true ->
  verify (sign (global_key (as_pow_params pp))) (key (global_key (as_pow_params pp))) sign_pk_ = true ->
  PoW.ComputeProofOfWork bcrypt_hashpw (salt (as_pow_params pp)) (password_suffix (as_pow_params pp))
    (max_hash_value (as_pow_params pp)) fuel (pool_size (as_pow_params pp)) = Some (Defined proofs) ->
  exists r cfg, run (straight true ts id pk pp pm ps) (new_registration (sv :: rest) id) []
    = ok r (straight_out id pk pp pm proofs cfg) /\
    client_ r = Some cfg /\ uid cfg = r_uid (as_registration pm) /\
    servers_ (c_cloud cfg) = (Loaded ∘ make_server <$> as_servers ps).
Proof.
  intros Ha Ht Hvk Hvp Hpow.
  destruct (straight_run true sv rest id ts pk pp pm ps proofs) as (r & E & Hc); try done.
  exists r, (straight_config pm ps). split_and!; try done. unfold straight_config. cbn.
  by rewrite added_servers.
Qed.

(** ** Failures *)

Lemma tries_from ts r out :
  state_ r = changed kConnection ->
  length (server_transport_list_ r) = (server_transport_list_iterator_ r + length ts)%nat ->
  exists r', run (ts ≫= fun t => [OUpdate t; OConnectionError]) r out = ok r' out /\
    state_ r' = changed kConnection /\
    server_transport_list_ r' !! server_transport_list_iterator_ r' = None.
Proof.
  revert r. induction ts as [|t ts IH]; intros r Hs Hl; cbn in Hl.
  { exists r. split; [done|]. split; [done|]. apply lookup_ge_None. lia. }
  destruct (lookup_lt_is_Some_2 (server_transport_list_ r) (server_transport_list_iterator_ r)) as [sv Hsv];
    [lia|].
  rewrite bind_cons. cbn [app].
  rewrite (run_cons _ _ _ _ _ _ (update_connection t r sv Hs Hsv)), app_nil_r.
  erewrite run_cons by (apply (connection_error _ true); [reflexivity|done]). rewrite app_nil_r.
  apply IH; cbn; [done|lia].
Qed.

Lemma reg_run_app os1 os2 r out r1 out1 :
  run os1 r out = ok r1 out1 -> run (os1 ++ os2) r out = run os2 r1 out1.
Proof.
  revert r out. induction os1 as [|o os1 IH]; intros r out E; cbn [Registration.run app] in *; [by simplify_eq|].
  destruct (exec o r) as [[[r' out']|]|]; [|done..]. by apply IH.
Qed.

(** When no server can be connected to, each of them is tried once, and then the
    action ends with an error. *)
Theorem registration_tries_all servers id ts t1 t2 :
  length ts = length servers ->
  exists r, run ((ts ≫= fun t => [OUpdate t; OConnectionError]) ++ [OUpdate t1; OUpdate t2])
    (new_registration servers id) [] = ok r [Done Error].
Proof.
  intros Hl. destruct (tries_from ts (new_registration servers id) []) as (r & E & Hs & Hn); [done|done|].
  rewrite (reg_run_app _ _ _ _ _ _ E).
  rewrite (run_cons _ _ _ _ _ _ (update_no_server t1 r Hs Hn)).
  erewrite run_cons by (apply update_failed; reflexivity). by eexists.
Qed.

(** A lost answer to any request but the first is never asked for again. *)
Theorem lost_answer_hangs r out ts :
  changed_ (state_ r) = false -> st r <> kWaitKeys ->
  run (OUpdate <$> ts) r out = ok r out.
Proof.
  intros Hc Hs. induction ts as [|t ts IH]; [done|]. cbn [fmap list_fmap].
  rewrite (run_cons _ _ _ _ r []); [by rewrite app_nil_r|].
  unfold Registration.exec, Registration.Update. rewrite Hc. by destruct (st r).
Qed.

End Environment.

(** ** Runs *)

(** A key is signed when its signature is the key itself; the keys generated
    are numbered. *)
Definition self_signed (sig k sign_pk : bytes) : bool := bool_decide (sig = k).
Definition numbered (n : nat) : Key := [100 + Z.of_nat n].
Definition plain_hash (pass salt : bytes) : bytes := [65; 0].

Definition sample_payload : Payload :=
  {| as_signed_key := {| key := [7]; sign := [7] |};
     as_pow_params := {| salt := [1]; password_suffix := [2]; pool_size := 1;
                         max_hash_value := 2 ^ 32 - 1; global_key := {| key := [8]; sign := [8] |} |};
     as_registration := {| r_ephemeral_uid := 11; r_uid := 12; r_cloud := [3] |};
     as_servers := [{| d_server_id := 3; ips := [] |}] |}.

Definition sample_server : Server := {| server_id := 1; channels := [] |}.

Abbreviation sample_run := (Registration.run [] self_signed numbered plain_hash 1 None true 20).

Lemma plain_hash_terminated : PoWProperties.terminated plain_hash.
Proof. intros pass salt. exists [65], []. split; [done|]. by apply List.Forall_cons. Qed.

Lemma registration_completes_witness :
  exists proofs r cfg, sample_run (straight numbered false Z.of_nat 5 sample_payload sample_payload
      sample_payload sample_payload) (new_registration [sample_server] 5) []
    = Some (Defined (r, straight_out numbered 5 sample_payload sample_payload sample_payload proofs cfg)) /\
    uid cfg = 12.
Proof.
  destruct (registration_completes [] self_signed numbered plain_hash 1 None true 20 sample_server [] 5
    Z.of_nat sample_payload sample_payload sample_payload sample_payload [1])
    as (proofs & r & cfg & _ & E & _ & U & _);
    [reflexivity|lia|reflexivity|reflexivity|exact plain_hash_terminated|vm_compute; discriminate|reflexivity
    |repeat constructor; intros []
    |apply List.Forall_cons; [split; [split; reflexivity || lia|split; vm_compute; reflexivity]|apply List.Forall_nil]|].
  exists proofs, r, cfg. split; [exact E|exact U].
Defined.

Lemma plain_answers_register_witness :
  exists r cfg, sample_run (straight numbered true Z.of_nat 5 sample_payload sample_payload
      sample_payload sample_payload) (new_registration [sample_server] 5) []
    = Some (Defined (r, straight_out numbered 5 sample_payload sample_payload sample_payload [1] cfg)) /\
    uid cfg = 12.
Proof.
  destruct (plain_answers_register [] self_signed numbered plain_hash 1 None true 20 sample_server [] 5
    Z.of_nat sample_payload sample_payload sample_payload sample_payload [1])
    as (r & cfg & E & _ & U & _); [reflexivity|lia|reflexivity|reflexivity|vm_compute; reflexivity|].
  exists r, cfg. split; [exact E|exact U].
Defined.

Definition first_steps : list op :=
  [OUpdate 0; OConnected; OUpdate 0; OUpdate 0; OPacket (PlainAnswer 5 sample_payload); OUpdate 0].

Lemma registration_keys_signed_witness :
  exists r out, sample_run first_steps (new_registration [sample_server] 5) [] = Some (Defined (r, out)) /\
    out = [SendGetKeys 5; SendPow (CryptStream [7] [100]) 6 [100]] /\
    Forall (good [] self_signed out) out.
Proof.
  eexists _, _. split; [vm_compute; reflexivity|]. split; [reflexivity|].
  eapply (registration_keys_signed [] self_signed numbered plain_hash 1 None true 20 [sample_server] 5 first_steps).
  vm_compute. reflexivity.
Defined.

Lemma registration_tries_all_witness :
  exists r, sample_run (([0; 0] ≫= fun t => [OUpdate t; OConnectionError]) ++ [OUpdate 0; OUpdate 0])
      (new_registration [sample_server; sample_server] 5) [] = Some (Defined (r, [Done Error])).
Proof.
  apply (registration_tries_all [] self_signed numbered plain_hash 1 None true 20
    [sample_server; sample_server] 5 [0; 0] 0 0). reflexivity.
Defined.

(** After a connection is lost the next one starts with the simple stream, but an
    answer to the earlier request for the parameters is still taken: the
    registration is then sent over the simple stream, with the secret key of the
    answers in it. *)
Theorem return_key_leaks :
  exists r pre proofs, sample_run
    (first_steps ++ [OConnectionError; OUpdate 0; OConnected; OUpdate 0;
                     OPacket (PlainAnswer 6 sample_payload); OUpdate 0])
    (new_registration [sample_server; sample_server] 5) []
  = Some (Defined (r, pre ++ [SendRegistration PlainStream proofs (numbered 0) [8] (numbered 1) 7])) /\
    SendPow (CryptStream [7] (numbered 0)) 6 (numbered 0) ∈ pre.
Proof.
  eexists _, [SendGetKeys 5; SendPow (CryptStream [7] [100]) 6 [100]], _.
  split; [vm_compute; reflexivity|]. right. left.
Qed.

Lemma lost_answer_hangs_witness :
  exists r out, sample_run first_steps (new_registration [sample_server] 5) [] = Some (Defined (r, out)) /\
    sample_run (OUpdate <$> [1000; 2000000]) r out = Some (Defined (r, out)).
Proof.
  eexists _, _. split; [vm_compute; reflexivity|].
  apply (lost_answer_hangs [] self_signed numbered plain_hash 1 None true 20); [reflexivity|discriminate].
Defined.

End RegistrationProperties.
