(* ===== verification/FileSystems.v ===== *)
(** * File systems that keep the objects of a domain ([aether/port/file_systems/])

    A facility stores the serialized parts of objects under the identifier of the
    object, the identifier of a class and a version.  [DomainFacility] has the
    operations of [IDomainFacility] and [FileSystemBase], [FacilityOk] says that
    they are those of a table, and [facility_refines] that every program over a
    facility with this property gives the answers of the table.

    This file has the facilities that keep a tree of maps: in memory
    ([file_system_ram.*]), in a header file ([file_system_header.*] with
    [driver_header.*]) and in one file of a flash file system
    ([file_system_spifs_v1.*] with [driver_spifs.*]).  Files are contents under
    their paths; a disk that is full or fails is not modelled. *)

From stdpp Require Import gmap.
From Stdlib Require Import String.
From S2P Require Import Prelude Text MStream PackedInt OrderedMap.
Import Text OrderedMap PackedSize.

#[local] Set Warnings "-notation-overridden".

Module Facility.

(** ** Interface *)

(** [IDomainFacility] and [FileSystemBase].  [Load] is given what the vector
    holds. *)
Class DomainFacility (FS : Type) := {
  Enumerate : Z -> FS -> outcome (list Z);
  Store : Z -> Z -> Z -> bytes -> FS -> outcome FS;
  Load : Z -> Z -> Z -> bytes -> FS -> outcome bytes;
  Remove : Z -> FS -> outcome FS;
  remove_all : FS -> outcome FS;
}.

Inductive op :=
  | OEnumerate (obj_id : Z)
  | OStore (obj_id class_id version : Z) (os : bytes)
  | OLoad (obj_id class_id version : Z) (buf : bytes)
  | ORemove (obj_id : Z)
  | ORemoveAll.

Inductive answer := Nothing | Classes (l : list Z) | Data (d : bytes).

Section Programs.
Context {FS : Type} `{DomainFacility FS}.

Definition exec (o : op) (fs : FS) : outcome (FS * answer) :=
  match o with
  | OEnumerate i => let* l := Enumerate i fs in Defined (fs, Classes l)
  | OStore i c v d => let* fs := Store i c v d fs in Defined (fs, Nothing)
  | OLoad i c v buf => let* d := Load i c v buf fs in Defined (fs, Data d)
  | ORemove i => let* fs := Remove i fs in Defined (fs, Nothing)
  | ORemoveAll => let* fs := remove_all fs in Defined (fs, Nothing)
  end.

Fixpoint run (os : list op) (fs : FS) : outcome (FS * list answer) :=
  match os with
  | [] => Defined (fs, [])
  | o :: os =>
      let* (fs, a) := exec o fs in
      let* (fs, l) := run os fs in
      Defined (fs, a :: l)
  end.
End Programs.

(** ** Specification *)

(** The table of what is stored, by object, class and version. *)
Abbreviation objects := (gmap (Z * Z * Z) bytes).

Definition classes_of (i : Z) (st : objects) : gset Z :=
  set_map (fun k => k.1.2) (filter (fun k => k.1.1 = i) (dom st)).

Definition spec_exec (o : op) (st : objects) : objects * answer :=
  match o with
  | OEnumerate i => (st, Classes (elements (classes_of i st)))
  | OStore i c v d => (<[(i, c, v) := d]> st, Nothing)
  | OLoad i c v buf => (st, Data (default buf (st !! (i, c, v))))
  | ORemove i => (filter (fun kv => kv.1.1.1 <> i) st, Nothing)
  | ORemoveAll => (∅, Nothing)
  end.

Fixpoint spec_run (os : list op) (st : objects) : objects * list answer :=
  match os with
  | [] => (st, [])
  | o :: os =>
      let '(st, a) := spec_exec o st in let '(st, l) := spec_run os st in (st, a :: l)
  end.

(** The order of the classes of an object, and how often one is named, is left
    open. *)
Definition agree (a b : answer) : Prop :=
  match a, b with
  | Classes l, Classes k => forall c, c ∈ l <-> c ∈ k
  | Nothing, Nothing => True
  | Data d, Data e => d = e
  | _, _ => False
  end.

#[export] Instance agree_refl : Reflexive agree.
Proof. by intros []. Qed.

(** The table stays within what the facility can hold, and the program uses only
    operations it supports. *)
Fixpoint within (supports : op -> bool) (fits : objects -> Prop) (os : list op) (st : objects) : Prop :=
  match os with
  | [] => True
  | o :: os => supports o = true /\ fits (spec_exec o st).1 /\
               within supports fits os (spec_exec o st).1
  end.

(** The states [rep] relates to a table are used like it. *)
Class FacilityOk (FS : Type) `{DomainFacility FS} := {
  rep : FS -> objects -> Prop;
  fits : objects -> Prop;
  supports : op -> bool;
  exec_ok : forall o fs st,
    rep fs st -> supports o = true -> fits (spec_exec o st).1 ->
    exists fs' a, exec o fs = Defined (fs', a) /\ rep fs' (spec_exec o st).1 /\
      agree a (spec_exec o st).2;
}.

Lemma run_ok {FS : Type} `{FacilityOk FS} os (fs : FS) st :
  rep fs st -> within supports fits os st ->
  exists fs' l, run os fs = Defined (fs', l) /\ rep fs' (spec_run os st).1 /\
    Forall2 agree l (spec_run os st).2.
Proof.
  revert fs st. induction os as [|o os IH]; intros fs st R W; [by exists fs, []|].
  destruct W as (Hs & Hf & W). destruct (exec_ok o fs st R Hs Hf) as (fs1 & a & E & R1 & A).
  destruct (IH fs1 _ R1 W) as (fs2 & l & E2 & R2 & A2).
  exists fs2, (a :: l). cbn [run spec_run]. rewrite E, E2.
  destruct (spec_exec o st) as [st1 b]. simpl in *.
  destruct (spec_run os st1) as [st2 k]. split_and!; [done..|by constructor].
Qed.

Lemma elem_of_classes_of i st c : c ∈ classes_of i st <-> exists v, is_Some (st !! (i, c, v)).
Proof.
  unfold classes_of. rewrite elem_of_map. split.
  - intros ([[i' c'] v] & -> & [? ?]%elem_of_filter). simplify_eq/=. exists v. by apply elem_of_dom.
  - intros [v Hv]. exists (i, c, v). split; [done|]. apply elem_of_filter. split; [done|]. by apply elem_of_dom.
Qed.

Lemma lookup_removed (i : Z) (st : objects) (k : Z * Z * Z) :
  filter (fun kv : Z * Z * Z * bytes => kv.1.1.1 <> i) st !! k
  = if decide (k.1.1 = i) then None else st !! k.
Proof.
  destruct (decide (k.1.1 = i)) as [E|E].
  - apply map_lookup_filter_None. right. intros d _ Hne. by apply Hne.
  - destruct (st !! k) as [d|] eqn:Ek.
    + apply map_lookup_filter_Some. split; [done|]. intros Hi. by apply E.
    + apply map_lookup_filter_None. by left.
Qed.

End Facility.

(** ** Trees of maps: [ObjClassData] *)
Module Tree.
Import Facility.

Definition VersionData := zmap 1 (list (uint 1)).
Definition ClassData := zmap 4 VersionData.
Definition ObjClassData := zmap 4 ClassData.

#[export] Instance ObjClassData_serial : Serial ObjClassData := serial_zmap.

Definition find_class (i : Z) (t : ObjClassData) : option ClassData := (t : gmap Z ClassData) !! i.
Definition find_version (c : Z) (m : ClassData) : option VersionData := (m : gmap Z VersionData) !! c.
Definition find_data (v : Z) (m : VersionData) : option bytes := (m : gmap Z bytes) !! v.

Definition lookup3 (i c v : Z) (t : ObjClassData) : option bytes :=
  match find_class i t with
  | None => None
  | Some m => match find_version c m with None => None | Some vs => find_data v vs end
  end.

(** The loop of [Enumerate]. *)
Definition tree_enumerate (i : Z) (t : ObjClassData) : list Z :=
  match find_class i t with Some m => keys (m : gmap Z VersionData) | None => [] end.

(** [state_[obj_id][class_id][version] = os] *)
Definition tree_store (i c v : Z) (d : bytes) (t : ObjClassData) : ObjClassData :=
  let m : gmap Z VersionData := default ∅ (find_class i t) in
  let vs : gmap Z bytes := default ∅ (find_version c m) in
  <[i := (<[c := (<[v := d]> vs : VersionData)]> m : ClassData)]> (t : gmap Z ClassData).

Definition tree_load (i c v : Z) (buf : bytes) (t : ObjClassData) : bytes :=
  match find_class i t with
  | None => buf
  | Some m =>
      match find_version c m with
      | None => buf
      | Some vs => match find_data v vs with None => buf | Some d => d end
      end
  end.

Definition tree_remove (i : Z) (t : ObjClassData) : ObjClassData := delete i (t : gmap Z ClassData).

(** *** The table a tree holds *)

(** No map of a tree is empty. *)
Record tree_rep (t : ObjClassData) (st : objects) : Prop := {
  rep_lookup : forall i c v, st !! (i, c, v) = lookup3 i c v t;
  rep_class : forall i m, find_class i t = Some m -> exists c, is_Some (find_version c m);
  rep_version : forall i m c vs, find_class i t = Some m -> find_version c m = Some vs ->
    exists v, is_Some (find_data v vs);
}.

Lemma find_version_insert c (x : VersionData) (m : gmap Z VersionData) c' :
  find_version c' (<[c := x]> m) = if decide (c = c') then Some x else find_version c' m.
Proof. apply lookup_insert. Qed.

Lemma find_data_insert v d (m : gmap Z bytes) v' :
  find_data v' (<[v := d]> m) = if decide (v = v') then Some d else find_data v' m.
Proof. apply lookup_insert. Qed.

Lemma find_class_store i c v d t j :
  find_class j (tree_store i c v d t)
  = if decide (i = j)
    then Some (<[c := (<[v := d]> (default ∅ (find_version c (default ∅ (find_class i t)))) : VersionData)]>
                 (default ∅ (find_class i t)) : gmap Z VersionData)
    else find_class j t.
Proof. unfold find_class, tree_store. by rewrite lookup_insert. Qed.

Lemma lookup3_store i c v d t i' c' v' :
  lookup3 i' c' v' (tree_store i c v d t)
  = if decide ((i, c, v) = (i', c', v')) then Some d else lookup3 i' c' v' t.
Proof.
  unfold lookup3 at 1. rewrite find_class_store.
  destruct (decide (i = i')) as [<-|]; [|by rewrite decide_False by congruence].
  rewrite find_version_insert. destruct (decide (c = c')) as [<-|].
  - rewrite find_data_insert. destruct (decide (v = v')) as [<-|].
    + by rewrite decide_True.
    + rewrite decide_False by congruence. unfold lookup3.
      destruct (find_class i t) as [m|]; simpl; [|done].
      by destruct (find_version c m).
  - rewrite decide_False by congruence. unfold lookup3.
    destruct (find_class i t) as [m|]; simpl; done.
Qed.

Lemma tree_rep_store i c v d t st :
  tree_rep t st -> tree_rep (tree_store i c v d t) (<[(i, c, v) := d]> st).
Proof.
  intros [R1 R2 R3]. split.
  - intros i' c' v'. rewrite lookup_insert, lookup3_store, R1. done.
  - intros j m. rewrite find_class_store. case_decide as E; [|apply R2].
    intros [= <-]. exists c. rewrite find_version_insert, decide_True; eauto.
  - intros j m c' vs. rewrite find_class_store. case_decide as E; [|apply R3]. subst j.
    intros [= <-]. rewrite find_version_insert. case_decide as E.
    + intros [= <-]. exists v. rewrite find_data_insert, decide_True; eauto.
    + destruct (find_class i t) as [m|] eqn:Em; simpl; [|done].
      intros Ev. by apply (R3 i m c').
Qed.

Lemma find_class_remove i t j :
  find_class j (tree_remove i t) = if decide (i = j) then None else find_class j t.
Proof. unfold find_class, tree_remove. by rewrite lookup_delete. Qed.

Lemma tree_rep_remove i t st :
  tree_rep t st -> tree_rep (tree_remove i t) (spec_exec (ORemove i) st).1.
Proof.
  intros [R1 R2 R3]. split.
  - intros i' c' v'. cbn [spec_exec fst]. rewrite lookup_removed, R1. unfold lookup3.
    rewrite find_class_remove. cbn [fst]. by repeat case_decide.
  - intros j m. rewrite find_class_remove. case_decide; [done|apply R2].
  - intros j m c vs. rewrite find_class_remove. case_decide; [done|apply R3].
Qed.

Lemma tree_rep_empty : tree_rep (∅ : gmap Z ClassData) ∅.
Proof. by split. Qed.

Lemma tree_load_rep i c v buf t st :
  tree_rep t st -> tree_load i c v buf t = default buf (st !! (i, c, v)).
Proof.
  intros R. rewrite (rep_lookup t st R). unfold tree_load, lookup3.
  destruct (find_class i t) as [m|]; [|done]. destruct (find_version c m) as [vs|]; [|done].
  by destruct (find_data v vs).
Qed.

Lemma tree_enumerate_rep i t st c :
  tree_rep t st -> c ∈ tree_enumerate i t <-> c ∈ elements (classes_of i st).
Proof.
  intros R. rewrite elem_of_elements, elem_of_classes_of. unfold tree_enumerate.
  split.
  - destruct (find_class i t) as [m|] eqn:Em; [|by intros ?%not_elem_of_nil].
    rewrite elem_of_keys, elem_of_dom. intros [vs Hvs].
    destruct (rep_version t st R i m c vs Em Hvs) as [v Hv]. exists v.
    rewrite (rep_lookup t st R). unfold lookup3. rewrite Em. unfold find_version. by rewrite Hvs.
  - intros [v [d Hd]]. rewrite (rep_lookup t st R) in Hd. unfold lookup3 in Hd.
    destruct (find_class i t) as [m|]; [|done]. rewrite elem_of_keys, elem_of_dom.
    unfold find_version in Hd. destruct (_ !! c); [eauto|done].
Qed.

(** *** What can be written *)

(** A table with identifiers and versions of their widths, bytes, and sizes that
    the stream can write. *)
Definition table_fits (st : objects) : Prop :=
  Z.of_nat (size st) < kUpper /\
  forall i c v d, st !! (i, c, v) = Some d ->
    small i /\ small c /\ in_width 8 v /\ zlen d < kUpper /\ byte_list d.

Lemma size_le_table {A} (m : gmap Z A) (st : objects) (f : Z * Z * Z -> Z) :
  (forall k, is_Some (m !! k) -> exists key, is_Some (st !! key) /\ f key = k) ->
  (size m <= size st)%nat.
Proof.
  intros H. rewrite <- length_entries, <- (length_fmap fst), entries_keys.
  rewrite <- (length_map_to_list st), <- (length_fmap (fun kv => f kv.1)).
  apply submseteq_length, NoDup_submseteq; [apply NoDup_keys|].
  intros k Hk. rewrite elem_of_keys, elem_of_dom in Hk. destruct (H k Hk) as (key & [d Hd] & <-).
  apply list_elem_of_fmap. exists (key, d). by rewrite elem_of_map_to_list.
Qed.

#[export] Instance ObjClassData_ok : SerialOk ObjClassData := serial_zmap_ok 3 ClassData.

Lemma lookup3_some i c v t m vs d :
  find_class i t = Some m -> find_version c m = Some vs -> find_data v vs = Some d ->
  lookup3 i c v t = Some d.
Proof. intros E1 E2 E3. unfold lookup3. by rewrite E1, E2. Qed.

Lemma below (st : objects) (n : nat) :
  Z.of_nat (size st) < kUpper -> (n <= size st)%nat -> Z.of_nat n < kUpper.
Proof. lia. Qed.

Lemma tree_valid t st : tree_rep t st -> table_fits st -> valid t.
Proof.
  intros R [Hs Hv]. pose proof (rep_lookup t st R) as L. split.
  { apply (below st _ Hs).
    apply (size_le_table _ _ (fun k => k.1.1)). intros i [m Hm].
    destruct (rep_class t st R i m Hm) as [c [vs Hc]].
    destruct (rep_version t st R i m c vs Hm Hc) as [v [d Hd]].
    exists (i, c, v). rewrite L, (lookup3_some i c v t m vs d); eauto. }
  intros i m Hm. destruct (rep_class t st R i m Hm) as [c0 [vs0 Hc0]].
  destruct (rep_version t st R i m c0 vs0 Hm Hc0) as [v0 [d0 Hd0]].
  destruct (Hv i c0 v0 d0) as (Hi & _); [by rewrite L, (lookup3_some i c0 v0 t m vs0 d0)|].
  split; [exact Hi|]. split.
  { apply (below st _ Hs).
    apply (size_le_table _ _ (fun k => k.1.2)). intros c [vs Hc].
    destruct (rep_version t st R i m c vs Hm Hc) as [v [d Hd]].
    exists (i, c, v). rewrite L, (lookup3_some i c v t m vs d); eauto. }
  intros c vs Hc. destruct (rep_version t st R i m c vs Hm Hc) as [v1 [d1 Hd1]].
  destruct (Hv i c v1 d1) as (_ & Hcw & _); [by rewrite L, (lookup3_some i c v1 t m vs d1)|].
  split; [exact Hcw|]. split.
  { apply (below st _ Hs).
    apply (size_le_table _ _ (fun k => k.2)). intros v [d Hd].
    exists (i, c, v). rewrite L, (lookup3_some i c v t m vs d); eauto. }
  intros v d Hd. destruct (Hv i c v d) as (_ & _ & Hvw & Hl & Hb);
    [by rewrite L, (lookup3_some i c v t m vs d)|].
  split; [exact Hvw|]. by split.
Qed.

(** A tree is written as bytes. *)
Lemma save_vector_bytes {T} `{Serial T} (l : list T) :
  (forall x, byte_list (save x)) -> byte_list (save_vector l).
Proof.
  intros Hs. apply Forall_app. split; [apply Packed.Serialize_bytes|].
  unfold save_each. induction l as [|x l IH]; [constructor|]. rewrite bind_cons. apply Forall_app.
  split; [apply Hs|exact IH].
Qed.

Lemma pair_bytes {n} {T} `{Serial T} (e : uint n * T) :
  (forall x : T, byte_list (save x)) -> byte_list (save e).
Proof. intros Hs. destruct e as [k x]. cbn. apply Forall_app. split; [apply le_bytes_range|apply Hs]. Qed.

Lemma data_bytes (d : list (uint 1)) : byte_list (save d).
Proof.
  apply Forall_app. split; [apply Packed.Serialize_bytes|].
  induction d as [|b d IH]; [constructor|]. apply Forall_app. split; [apply le_bytes_range|exact IH].
Qed.

Lemma tree_bytes (t : ObjClassData) : byte_list (save t).
Proof.
  apply save_vector_bytes. intros e. apply pair_bytes. intros m.
  apply save_vector_bytes. intros e'. apply pair_bytes. intros vs.
  apply save_vector_bytes. intros e''. apply pair_bytes. apply data_bytes.
Qed.

End Tree.

(** ** [DriverHeader]: bytes in a header file *)
Module DriverHeader.

Definition string1 := lit "#ifndef CONFIG_FILE_SYSTEM_INIT_H_".
Definition string2 := lit "#define CONFIG_FILE_SYSTEM_INIT_H_".
Definition string3 := lit "".
Definition string4 := lit "#include <array>".
Definition string5 := lit "".
Definition string6a := lit "constexpr std::array<std::uint8_t, ".
Definition string6b := lit "> init_fs{".
Definition string7 := lit "};".
Definition string8 := lit "".
Definition string9 := lit "#endif /* CONFIG_FILE_SYSTEM_INIT_H_ */".
Definition string10 := lit "".

Definition ByteToHex (ch : Z) : bytes := lit "0x" ++ hex2 ch.

Definition HexToByte (hex : bytes) : outcome Z := let* v := stoul 16 hex in Defined (wrap 8 v).

(** *** [DriverHeaderWrite] *)

(** The loop over the bytes: twelve on a line. *)
Fixpoint write_bytes (cnt : Z) (data : bytes) : bytes :=
  match data with
  | [] => if cnt =? 0 then [] else [newline]
  | byte :: data =>
      ByteToHex byte ++ lit ", " ++
      (let cnt := wrap 8 (cnt + 1) in
       if cnt =? 12 then newline :: write_bytes 0 data else write_bytes cnt data)
  end.

Definition DriverHeaderWrite (data : bytes) : bytes :=
  string1 ++ newline :: string2 ++ newline :: string3 ++ newline :: string4 ++ newline ::
  string5 ++ newline :: (string6a ++ digits 20 (zlen data) [] ++ string6b) ++ newline ::
  write_bytes 0 data ++
  string7 ++ newline :: string8 ++ newline :: string9 ++ newline :: string10 ++ [newline].

(** *** [DriverHeaderRead] *)

(** The bytes of a line.  Every step moves [i] forward, so the length of the line
    is enough fuel. *)
Fixpoint line_bytes (fuel i : nat) (line data : bytes) : outcome bytes :=
  if (i <? length line)%nat
  then match fuel with
       | O => Defined data
       | S fuel =>
           let* byteString := substr (i + 2) 2 line in
           let* byte := HexToByte byteString in
           line_bytes fuel (i + 6) line (data ++ [byte])
       end
  else Defined data.

(** The lines up to the closing one.  A line that was read is taken from the
    stream, so one more than its length is enough fuel. *)
Fixpoint read_lines (fuel : nat) (line : bytes) (f : ifstream) (data : bytes) : outcome bytes :=
  match fuel with
  | O => Defined data
  | S fuel =>
      let '(ok, line, f) := getline line f in
      if ok then
        if bool_decide (line = string7) then Defined data
        else let* data := line_bytes (length line) 0 line data in read_lines fuel line f data
      else Defined data
  end.

(** The lines in front of the data; another one makes the function return. *)
Fixpoint check_lines (expected : list bytes) (line : bytes) (f : ifstream) : option (bytes * ifstream) :=
  match expected with
  | [] => Some (line, f)
  | s :: expected =>
      let '(_, line, f) := getline line f in
      if bool_decide (line = s) then check_lines expected line f else None
  end.

Definition DriverHeaderRead (file : option bytes) (data : bytes) : outcome bytes :=
  match file with
  | None => Defined data
  | Some text =>
      match check_lines [string1; string2; string3; string4; string5] [] {| rest := text; eof := false |} with
      | None => Defined data
      | Some (line, f) =>
          let '(_, line, f) := getline line f in
          read_lines (S (length text)) line f data
      end
  end.

(** *** What is written is read again *)

Definition entry (b : Z) : bytes := ByteToHex b ++ lit ", ".
Definition hex_line (l : bytes) : bytes := l ≫= entry.

Lemma hex_line_cons b l : hex_line (b :: l) = entry b ++ hex_line l.
Proof. reflexivity. Qed.

Lemma length_hex_line l : length (hex_line l) = (6 * length l)%nat.
Proof. induction l as [|b l IH]; [done|]. rewrite hex_line_cons, length_app, IH. simpl. lia. Qed.

Lemma hex_digit_range v : 0 <= v < 16 -> 48 <= hex_digit v <= 102.
Proof. intros. unfold hex_digit. zcase; lia. Qed.

Lemma newline_hex_line l : byte_list l -> newline ∉ hex_line l.
Proof.
  unfold newline. induction 1 as [|b l Hb _ IH]; [apply not_elem_of_nil|].
  rewrite hex_line_cons, not_elem_of_app. split; [|done].
  unfold in_width in Hb; change (2 ^ 8) with 256 in Hb.
  assert (48 <= hex_digit (b / 16)) by (apply hex_digit_range; split; [apply Z.div_pos; lia|];
    apply Z.div_lt_upper_bound; lia).
  assert (48 <= hex_digit (b mod 16)) by (apply hex_digit_range, Z.mod_pos_bound; lia).
  cbn. rewrite !not_elem_of_cons. split_and!; try lia. apply not_elem_of_nil.
Qed.

Lemma line_bytes_spec front l data fuel :
  byte_list l -> (length l <= fuel)%nat ->
  line_bytes fuel (6 * length front) (hex_line (front ++ l)) data = Defined (data ++ l).
Proof.
  intros Hl. revert front data fuel. induction Hl as [|b l Hb Hl IH]; intros front data fuel Hf.
  - destruct fuel; cbn [line_bytes]; rewrite app_nil_r, length_hex_line, Nat.ltb_irrefl;
      by rewrite app_nil_r.
  - destruct fuel as [|fuel]; [simpl in Hf; lia|]. cbn [line_bytes].
    rewrite length_hex_line, length_app. destruct (Nat.ltb_spec (6 * length front)
      (6 * (length front + length (b :: l)))); [|simpl in *; lia].
    assert (substr (6 * length front + 2) 2 (hex_line (front ++ b :: l)) = Defined (hex2 b)) as ->.
    { unfold substr. rewrite length_hex_line, length_app.
      destruct (Nat.leb_spec (6 * length front + 2) (6 * (length front + length (b :: l))));
        [|simpl in *; lia].
      unfold hex_line. rewrite bind_app. fold (hex_line front) (hex_line (b :: l)).
      rewrite <- length_hex_line, drop_app_add. reflexivity. }
    unfold HexToByte. rewrite stoul_hex2, wrap_small by done.
    replace (6 * length front + 6)%nat with (6 * length (front ++ [b]))%nat
      by (rewrite length_app; simpl; lia).
    replace (front ++ b :: l) with ((front ++ [b]) ++ l) by (by rewrite <- app_assoc).
    rewrite IH by (simpl in Hf; lia). by rewrite <- app_assoc.
Qed.

(** The text is cut into lines of twelve bytes. *)
Lemma write_bytes_line k data :
  (k < 12)%nat -> (0 < k + length data)%nat ->
  write_bytes (Z.of_nat k) data
  = hex_line (take (12 - k) data) ++ newline :: write_bytes 0 (drop (12 - k) data).
Proof.
  revert k. induction data as [|b data IH]; intros k Hk Hd.
  - simpl in Hd. cbn [write_bytes]. destruct (Z.eqb_spec (Z.of_nat k) 0); [lia|].
    by rewrite take_nil, drop_nil.
  - cbn [write_bytes]. rewrite wrap_small by (unfold in_width; change (2 ^ 8) with 256; lia).
    replace (12 - k)%nat with (S (11 - k)) by lia. cbn [take drop]. rewrite hex_line_cons.
    unfold entry. rewrite <- !app_assoc. do 2 f_equal.
    destruct (Z.eqb_spec (Z.of_nat k + 1) 12).
    + replace (11 - k)%nat with 0%nat by lia. by rewrite take_0, drop_0.
    + replace (Z.of_nat k + 1) with (Z.of_nat (S k)) by lia. rewrite IH by lia.
      by replace (12 - S k)%nat with (11 - k)%nat by lia.
Qed.

Lemma read_lines_spec n data : forall fuel line tail acc,
  (length data <= n)%nat -> (n < fuel)%nat -> byte_list data ->
  read_lines fuel line {| rest := write_bytes 0 data ++ string7 ++ newline :: tail; eof := false |} acc
  = Defined (acc ++ data).
Proof.
  revert data. induction n as [|n IH]; intros data fuel line tail acc Hn Hf Hb;
    (destruct fuel as [|fuel]; [lia|]); (destruct data as [|b data]; [|try (simpl in Hn; lia)]).
  1,2: cbn [write_bytes app Z.eqb read_lines]; rewrite getline_line by (by apply no_newline);
    by rewrite bool_decide_true, app_nil_r.
  change 0 with (Z.of_nat 0). rewrite write_bytes_line by (simpl; lia).
  cbn [read_lines]. rewrite <- !app_assoc. cbn [app].
  assert (byte_list (take (12 - 0) (b :: data)) /\ byte_list (drop (12 - 0) (b :: data))) as [Ht Hd]
    by (split; [by apply Forall_take|by apply Forall_drop]).
  rewrite getline_line by (by apply newline_hex_line).
  rewrite bool_decide_false by (cbn; discriminate).
  rewrite (line_bytes_spec [] (take (12 - 0) (b :: data))) by (rewrite ?length_hex_line; auto; lia).
  rewrite IH by (rewrite ?length_drop; auto; simpl in *; lia).
  by rewrite <- app_assoc, take_drop.
Qed.

Lemma size_line_ok n : newline ∉ string6a ++ digits 20 n [] ++ string6b.
Proof.
  assert (newline ∉ digits 20 n []).
  { intros Hn. pose proof (digits_are_digits 20 n [] (Forall_nil_2 _)) as F.
    apply list_elem_of_In in Hn. rewrite Forall_forall in F. specialize (F _ Hn).
    unfold is_digit, newline in F. lia. }
  rewrite !not_elem_of_app. split_and!; [by apply no_newline|done|by apply no_newline].
Qed.

Lemma header_roundtrip data :
  byte_list data -> DriverHeaderRead (Some (DriverHeaderWrite data)) [] = Defined data.
Proof.
  intros Hb. unfold DriverHeaderRead, DriverHeaderWrite. cbn [check_lines].
  repeat (rewrite getline_line by (by apply no_newline); rewrite bool_decide_true by done).
  rewrite getline_line by apply size_line_ok.
  apply (read_lines_spec (length data)); [done| |done].
  rewrite !length_app. cbn [length]. repeat (rewrite length_app; cbn [length]).
  enough (length data <= length (write_bytes 0 data))%nat by lia.
  clear Hb. generalize 0. induction data as [|b data IH]; intros cnt; cbn [write_bytes length]; [lia|].
  rewrite !length_app. destruct (_ =? 12); cbn [length];
    [specialize (IH 0)|specialize (IH (wrap 8 (cnt + 1)))]; cbn; lia.
Qed.
End DriverHeader.

(** ** [FileSystemRamFacility] *)
Module Ram.
Import Facility Tree DriverHeader.

Record FileSystemRam := { state_ : ObjClassData }.

#[export] Instance FileSystemRamFacility : DomainFacility FileSystemRam := {
  Enumerate i fs := Defined (tree_enumerate i (state_ fs));
  Store i c v d fs := Defined {| state_ := tree_store i c v d (state_ fs) |};
  Load i c v buf fs := Defined (tree_load i c v buf (state_ fs));
  Remove i fs := Defined {| state_ := tree_remove i (state_ fs) |};
  remove_all fs := Defined {| state_ := (∅ : gmap Z ClassData) |};
}.

(** The header file it writes. *)
Definition out_header (fs : FileSystemRam) : bytes := DriverHeaderWrite (save (state_ fs)).

#[export] Program Instance FileSystemRam_ok : FacilityOk FileSystemRam := {
  rep fs st := tree_rep (state_ fs) st;
  fits _ := True;
  supports _ := true;
}.
Next Obligation.
  intros [i|i c v d|i c v buf|i|] fs st R _ _; cbn [exec spec_exec fst snd];
    (eexists _, _; split; [reflexivity|]); cbn [state_]; split; try done.
  - intros c. by apply tree_enumerate_rep.
  - by apply tree_rep_store.
  - by apply tree_load_rep.
  - by apply tree_rep_remove.
Qed.
End Ram.

(** ** Trees kept as bytes

    [FileSystemHeaderFacility] and [FileSystemSpiFsV1Facility] read the whole tree
    before an operation and write it after one that changes it. *)
Module Blob.
Import Facility Tree.

Section Blob.
Context {FS : Type} (read_data : FS -> outcome bytes) (write_data : bytes -> FS -> FS)
        (clear : FS -> FS).

Definition LoadObjData (fs : FS) : outcome ObjClassData :=
  let* data_vector := read_data fs in Defined (load dflt (new_reader data_vector)).1.

Definition SaveObjData (obj_data : ObjClassData) (fs : FS) : FS :=
  write_data (vector_write [] (save obj_data)) fs.

Definition blob_facility : DomainFacility FS := {|
  Enumerate i fs := let* t := LoadObjData fs in Defined (tree_enumerate i t);
  Store i c v d fs := let* t := LoadObjData fs in Defined (SaveObjData (tree_store i c v d t) fs);
  Load i c v buf fs := let* t := LoadObjData fs in Defined (tree_load i c v buf t);
  Remove i fs := let* t := LoadObjData fs in Defined (SaveObjData (tree_remove i t) fs);
  remove_all fs := Defined (clear fs);
|}.

(** *** The facility is a table *)

Context (usable : FS -> Prop).
Hypothesis read_write : forall d fs, usable fs -> byte_list d -> read_data (write_data d fs) = Defined d.
Hypothesis write_usable : forall d fs, usable fs -> usable (write_data d fs).

Definition blob_rep (fs : FS) (st : objects) : Prop :=
  usable fs /\ exists t, LoadObjData fs = Defined t /\ tree_rep t st.

Lemma load_fresh t : valid t -> load dflt (new_reader (save t)) = (t, past [] (save t) [] kNo).
Proof. intros V. rewrite <- (load_save t [] [] kNo V). unfold at_pos. simpl. by rewrite app_nil_r. Qed.

Lemma save_rep t st fs :
  usable fs -> tree_rep t st -> table_fits st -> blob_rep (SaveObjData t fs) st.
Proof.
  intros U R F. pose proof (tree_bytes t) as B. split; [by apply write_usable|]. exists t. split; [|done].
  unfold LoadObjData, SaveObjData, vector_write. cbn [app]. rewrite read_write by done.
  by rewrite (load_fresh t (tree_valid t st R F)).
Qed.

(** [clear] is left to the drivers. *)
Context (clears : bool).
Hypothesis clear_rep : forall fs st, clears = true -> blob_rep fs st -> blob_rep (clear fs) ∅.

Definition blob_supports (o : op) : bool := match o with ORemoveAll => clears | _ => true end.

Lemma blob_exec_ok o fs st :
  blob_rep fs st -> blob_supports o = true -> table_fits (spec_exec o st).1 ->
  exists fs' a, @exec FS blob_facility o fs = Defined (fs', a) /\ blob_rep fs' (spec_exec o st).1 /\
    agree a (spec_exec o st).2.
Proof.
  intros B S F. pose proof B as (U & t & L & R).
  destruct o as [i|i c v d|i c v buf|i|]; cbn [exec blob_facility Enumerate Store Load Remove remove_all];
    rewrite ?L; (eexists _, _; split; [reflexivity|]); split; try done.
  - intros c. by apply tree_enumerate_rep.
  - by apply save_rep; [|apply tree_rep_store|].
  - by apply tree_load_rep.
  - by apply save_rep; [|apply tree_rep_remove|].
  - by apply (clear_rep fs st).
Qed.
End Blob.
End Blob.

(** ** [FileSystemHeaderFacility] *)
Module Header.
Import Facility Tree DriverHeader Blob.

(** In a build that distills the objects the data is the header file, which may
    not exist. *)
Definition HeaderFile := option bytes.

#[export] Instance FileSystemHeaderFacility : DomainFacility HeaderFile :=
  blob_facility (fun file => DriverHeaderRead file []) (fun d _ => Some (DriverHeaderWrite d))
                (fun _ => None).

Lemma load_nothing : (load (T := ObjClassData) dflt (new_reader [])).1 = (∅ : gmap Z ClassData).
Proof. reflexivity. Qed.

#[export] Program Instance FileSystemHeader_ok : FacilityOk HeaderFile := {
  rep := blob_rep (fun file => DriverHeaderRead file []) (fun _ => True);
  fits := table_fits;
  supports _ := true;
}.
Next Obligation.
  intros o fs st R _ F.
  apply (blob_exec_ok _ _ _ (fun _ => True)) with (clears := true); try done.
  - intros d file _ Hd. by apply header_roundtrip.
  - intros file st' _ _. split; [done|]. exists (∅ : gmap Z ClassData). split; [|apply tree_rep_empty].
    unfold LoadObjData, DriverHeaderRead. by rewrite load_nothing.
  - by destruct o.
Qed.

(** In any other build the data is the array of the header the program was
    compiled with; what is saved is written behind a copy of it and dropped. *)
Section Compiled.
Context (init_fs : bytes).

Definition FileSystemHeaderCompiled : DomainFacility unit :=
  blob_facility (fun _ => Defined init_fs)
                (fun d _ => let data_vector := vector_write init_fs d in tt) (fun fs => fs).
End Compiled.
End Header.

(** ** [DriverSpifs] and [FileSystemSpiFsV1Facility] *)
Module Spifs.
Import Facility Tree Blob.

(** The mounted file system: files by their whole paths. *)
Record DriverSpifs := { _initialized : bool; files : gmap bytes bytes }.

Definition BASE_PATH : bytes := lit "/spiffs".

Definition res_path (path : bytes) : bytes := BASE_PATH ++ lit "/" ++ path.

Definition DriverSpifsRead (path data_vector : bytes) (fs : DriverSpifs) : bytes :=
  if _initialized fs
  then match files fs !! res_path path with Some d => d | None => data_vector end
  else data_vector.

Definition DriverSpifsWrite (path data_vector : bytes) (fs : DriverSpifs) : DriverSpifs :=
  if _initialized fs
  then {| _initialized := true; files := <[res_path path := data_vector]> (files fs) |}
  else fs.

(** The path that is tested and deleted is the one without the mount point. *)
Definition DriverSpifsDelete (path : bytes) (fs : DriverSpifs) : DriverSpifs :=
  if _initialized fs
  then match files fs !! path with
       | Some _ => {| _initialized := true; files := delete path (files fs) |}
       | None => fs
       end
  else fs.

Definition dump : bytes := lit "dump".

Definition spifs_read (fs : DriverSpifs) : outcome bytes := Defined (DriverSpifsRead dump [] fs).

Definition FileSystemSpiFsV1Facility : DomainFacility DriverSpifs :=
  blob_facility spifs_read (DriverSpifsWrite dump) (DriverSpifsDelete dump).

Definition mounted (fs : DriverSpifs) : Prop :=
  _initialized fs = true /\ forall p, is_Some (files fs !! p) -> exists q, p = res_path q.

Lemma not_mounted p q : head p <> Some 47 -> p <> res_path q.
Proof. intros Hp ->. by apply Hp. Qed.

Lemma res_path_inj p q : res_path p = res_path q -> p = q.
Proof. unfold res_path. intros E. by simplify_eq. Qed.

Lemma mounted_write p d fs : mounted fs -> mounted (DriverSpifsWrite p d fs).
Proof.
  intros [Hi Hp]. unfold DriverSpifsWrite. rewrite Hi. split; [done|]. cbn [files].
  intros q. rewrite lookup_insert. case_decide as E; [|apply Hp]. subst q. eauto.
Qed.

(** Deleting a path that does not begin with a slash does nothing. *)
Lemma delete_nothing p fs : mounted fs -> head p <> Some 47 -> DriverSpifsDelete p fs = fs.
Proof.
  intros [Hi Hp] Hh. unfold DriverSpifsDelete. rewrite Hi.
  destruct (files fs !! p) as [d|] eqn:E; [|done].
  destruct (Hp p) as [q Hq]; [eauto|]. by apply (not_mounted p q) in Hh.
Qed.

Definition FileSystemSpiFsV1_ok : @FacilityOk DriverSpifs FileSystemSpiFsV1Facility.
Proof.
  refine (@Build_FacilityOk _ FileSystemSpiFsV1Facility
            (blob_rep spifs_read mounted) table_fits (blob_supports false) _).
  intros o fs st R S F. apply (blob_exec_ok _ _ _ mounted) with (clears := false); try done.
  - intros d fs' [Hi _] _. unfold spifs_read, DriverSpifsRead, DriverSpifsWrite. rewrite Hi. cbn.
    by rewrite lookup_insert_eq.
  - intros d fs'. apply mounted_write.
Defined.
End Spifs.
