(* ===== verification/FileSystemPaths.v ===== *)
(** * File systems that keep one file per part of an object

    [FileSystemSpiFsV2Facility] ([file_system_spifs_v2.*]) and
    [FileSystemStdFacility] ([file_system_std.*]) store a part under the path
    [state/<version>/<object>/<class>].  The flash file system is flat: a
    directory is listed with the rest of the paths that begin with it, which is a
    parameter with its documented behaviour.  The standard file system is a tree
    of directories and files. *)

From stdpp Require Import gmap sorting.
From Stdlib Require Import String.
From S2P Require Import Prelude Text MStream FileSystems.
Import Text Facility Spifs.

#[local] Set Warnings "-notation-overridden".

(** ** Names of the paths *)
Module Names.

Definition slash : Z := 47.
Definition state : bytes := lit "state".

(** The arguments of an operation have their widths. *)
Definition smallb (v : Z) : bool := (0 <=? v) && (v <? 2 ^ 32).

Definition in_range (o : op) : bool :=
  match o with
  | OEnumerate i | ORemove i => smallb i
  | OStore i c v _ | OLoad i c v _ => smallb i && smallb c && smallb v
  | ORemoveAll => true
  end.

(** The path below [state]. *)
Definition rel_path (i c v : Z) : bytes := to_string v ++ slash :: to_string i ++ slash :: to_string c.

Lemma no_slash v : slash ∉ to_string v.
Proof.
  intros H. apply list_elem_of_In in H. pose proof (to_string_digits v) as F.
  rewrite Forall_forall in F. specialize (F _ H). unfold is_digit, slash in F. lia.
Qed.

Lemma split_slash a b a' b' :
  slash ∉ a -> slash ∉ a' -> a ++ slash :: b = a' ++ slash :: b' -> a = a' /\ b = b'.
Proof.
  revert a'. induction a as [|x a IH]; intros [|y a'] Ha Ha' E; [by injection E|injection E as E1 E2..].
  - by apply not_elem_of_cons in Ha' as [? _].
  - by apply not_elem_of_cons in Ha as [? _].
  - apply not_elem_of_cons in Ha as [_ Ha], Ha' as [_ Ha'].
    destruct (IH a' Ha Ha' E2) as [-> ->]. by rewrite E1.
Qed.

(** An identifier, a class or a version of its width. *)
Definition key_ok (k : Z * Z * Z) : Prop := small k.1.1 /\ small k.1.2 /\ small k.2.

Definition keys_ok (st : objects) : Prop := forall k, is_Some (st !! k) -> key_ok k.

Lemma keys_ok_insert st k d : keys_ok st -> key_ok k -> keys_ok (<[k := d]> st).
Proof. intros K Hk j. rewrite lookup_insert. case_decide as E; [by subst j|apply K]. Qed.

Lemma smallb_small v : smallb v = true -> small v.
Proof. unfold smallb, small. intros. zbool. lia. Qed.

Lemma in_range_ok o :
  in_range o = true ->
  match o with
  | OEnumerate i | ORemove i => small i
  | OStore i c v _ | OLoad i c v _ => key_ok (i, c, v)
  | ORemoveAll => True
  end.
Proof.
  destruct o; cbn [in_range]; try done; intros H; zbool; auto using smallb_small;
    repeat split; by apply smallb_small.
Qed.

Lemma rel_path_inj i c v i' c' v' :
  key_ok (i, c, v) -> key_ok (i', c', v') -> rel_path i c v = rel_path i' c' v' ->
  (i, c, v) = (i', c', v').
Proof.
  intros (? & ? & ?) (? & ? & ?) E. unfold rel_path in E.
  apply split_slash in E as [E1 E]; [|apply no_slash..].
  apply split_slash in E as [E2 E3]; [|apply no_slash..].
  apply to_string_inj in E1, E2, E3; [|done..]. congruence.
Qed.

Definition slashes (s : bytes) : nat := length (List.filter (Z.eqb slash) s).

Lemma slashes_app s t : slashes (s ++ t) = (slashes s + slashes t)%nat.
Proof. unfold slashes. by rewrite List.filter_app, length_app. Qed.

Lemma slashes_none s : slash ∉ s <-> slashes s = 0%nat.
Proof.
  unfold slashes. induction s as [|x s IH]; [split; [done|intros; apply not_elem_of_nil]|].
  rewrite not_elem_of_cons. cbn [List.filter]. destruct (Z.eqb_spec slash x) as [E|E]; simpl.
  - split; [by intros [? _]|done].
  - rewrite <- IH. split; [by intros [_ ?]|done].
Qed.

(** The search for an identifier between slashes finds the paths of the object. *)
Lemma find_object j i c v :
  small j -> small i -> is_Some (find (slash :: to_string j ++ [slash]) (rel_path i c v)) <-> j = i.
Proof.
  intros Hj Hi. rewrite find_iff. unfold rel_path. split.
  - intros (a & b & E). assert (slash ∉ a) as Ha.
    { apply slashes_none. apply (f_equal slashes) in E.
      pose proof (fun v => proj1 (slashes_none (to_string v)) (no_slash v)) as Z.
      change (slash :: ?l) with ([slash] ++ l) in E. rewrite !slashes_app, !Z in E.
      change (slashes [slash]) with 1%nat in E. simpl in E.
      repeat rewrite ?slashes_app, ?Z in E. change (slash :: ?l) with ([slash] ++ l) in E.
      repeat rewrite ?slashes_app, ?Z in E. change (slashes [slash]) with 1%nat in E. lia. }
    cbn [app] in E. rewrite <- app_assoc in E.
    apply split_slash in E as [_ E]; [|apply no_slash|done]. cbn [app] in E.
    apply split_slash in E as [E _]; [|apply no_slash..]. symmetry. by apply to_string_inj.
  - intros ->. exists (to_string v), (to_string c). cbn [app]. by rewrite <- app_assoc.
Qed.

(** The class is what follows the last slash. *)
Lemma rfind_class i c v :
  rfind slash (rel_path i c v) = Some (length (to_string v ++ slash :: to_string i)) /\
  drop (length (to_string v ++ slash :: to_string i) + 1) (rel_path i c v) = to_string c.
Proof.
  assert (rel_path i c v = (to_string v ++ slash :: to_string i) ++ slash :: to_string c) as ->
    by (unfold rel_path; by rewrite <- app_assoc).
  split; [apply rfind_last, no_slash|]. by rewrite drop_app_add.
Qed.
End Names.

(** ** [FileSystemSpiFsV2Facility] *)
Module SpifsV2.
Import Names.

Section V2.
(** [opendir] and [readdir]: no list when the directory cannot be opened. *)
Context (readdir : bytes -> gmap bytes bytes -> option (list bytes)).

Definition DriverSpifsDir (path : bytes) (fs : DriverSpifs) : list bytes :=
  if _initialized fs
  then match readdir (res_path path) (files fs) with Some l => l | None => [] end
  else [].

Definition object_path (i c v : Z) : bytes :=
  lit "state/" ++ to_string v ++ lit "/" ++ to_string i ++ lit "/" ++ to_string c.

Definition of_object (i : Z) (dir : bytes) : bool :=
  match find (lit "/" ++ to_string i ++ lit "/") dir with Some _ => true | None => false end.

(** The loop of [Enumerate]. *)
Fixpoint enumerate_dirs (i : Z) (dirs_list : list bytes) (classes : list Z) : outcome (list Z) :=
  match dirs_list with
  | [] => Defined classes
  | dir :: dirs_list =>
      if of_object i dir then
        match rfind slash dir with
        | None => enumerate_dirs i dirs_list classes
        | Some pos2 =>
            let* enum_class := stoul 10 (take (length dir - pos2 - 1) (drop (pos2 + 1) dir)) in
            enumerate_dirs i dirs_list (classes ++ [wrap 32 enum_class])
        end
      else enumerate_dirs i dirs_list classes
  end.

(** The loop of [Remove]. *)
Fixpoint remove_dirs (i : Z) (dirs_list : list bytes) (fs : DriverSpifs) : DriverSpifs :=
  match dirs_list with
  | [] => fs
  | dir :: dirs_list =>
      remove_dirs i dirs_list (if of_object i dir then DriverSpifsDelete dir fs else fs)
  end.

Definition FileSystemSpiFsV2Facility : DomainFacility DriverSpifs := {|
  Enumerate i fs := enumerate_dirs i (DriverSpifsDir state fs) [];
  Store i c v d fs := Defined (DriverSpifsWrite (object_path i c v) d fs);
  Load i c v buf fs := Defined (DriverSpifsRead (object_path i c v) buf fs);
  Remove i fs := Defined (remove_dirs i (DriverSpifsDir state fs) fs);
  remove_all fs := Defined (DriverSpifsDelete state fs);
|}.

(** *** Storing, loading and listing are those of a table *)

(** A directory of the flat file system has the files whose path begins with its
    path, under the rest of their paths. *)
Hypothesis readdir_lists : forall dir (fs : gmap bytes bytes) name,
  name ∈ default [] (readdir dir fs) <-> is_Some (fs !! (dir ++ slash :: name)).

Lemma object_path_rel i c v : res_path (object_path i c v) = res_path state ++ slash :: rel_path i c v.
Proof. reflexivity. Qed.

Definition v2_rep (fs : DriverSpifs) (st : objects) : Prop :=
  mounted fs /\ keys_ok st /\
  forall name d, files fs !! (res_path state ++ slash :: name) = Some d <->
    exists i c v, name = rel_path i c v /\ st !! (i, c, v) = Some d.

Lemma v2_lookup fs st i c v :
  v2_rep fs st -> key_ok (i, c, v) -> files fs !! res_path (object_path i c v) = st !! (i, c, v).
Proof.
  intros (_ & K & R) Hk. rewrite object_path_rel. apply option_eq. intros d. rewrite R. split.
  - intros (i' & c' & v' & E & Hd). apply rel_path_inj in E; [congruence|done|]. apply K. eauto.
  - intros Hd. eauto.
Qed.

Lemma of_object_iff i j c v : small i -> small j -> of_object i (rel_path j c v) = true <-> i = j.
Proof.
  intros Hi Hj. rewrite <- (find_object i j c v Hi Hj). unfold of_object.
  change (lit "/" ++ to_string i ++ lit "/") with (slash :: to_string i ++ [slash]).
  destruct (find _ _); split; try done.
Qed.

Lemma enumerate_spec i dirs_list classes :
  small i -> (forall n, n ∈ dirs_list -> exists j c v, n = rel_path j c v /\ key_ok (j, c, v)) ->
  exists l, enumerate_dirs i dirs_list classes = Defined (classes ++ l) /\
    forall c, c ∈ l <-> exists v, small c /\ rel_path i c v ∈ dirs_list /\ key_ok (i, c, v).
Proof.
  intros Hi. revert classes. induction dirs_list as [|dir dirs_list IH]; intros classes Hn.
  - exists []. rewrite app_nil_r. split; [done|]. intros c. split; [by intros ?%not_elem_of_nil|].
    intros (v & _ & H & _). by apply not_elem_of_nil in H.
  - destruct (Hn dir) as (j & c & v & -> & Hk); [left|].
    assert (forall n, n ∈ dirs_list -> exists j c v, n = rel_path j c v /\ key_ok (j, c, v)) as Hn'
      by (intros n ?; apply Hn; by right).
    pose proof Hk as (Hj & Hc & Hv). cbn [fst snd] in Hj, Hc, Hv. cbn [enumerate_dirs].
    destruct (of_object i (rel_path j c v)) eqn:Eo.
    + apply (of_object_iff i j c v Hi Hj) in Eo as <-.
      destruct (rfind_class i c v) as [-> Hd]. rewrite Hd.
      rewrite take_ge by (rewrite <- Hd, length_drop; lia). rewrite stoul_to_string by done.
      rewrite wrap_small by (unfold in_width; unfold small in Hc; lia).
      destruct (IH (classes ++ [c]) Hn') as (l & -> & Hl). exists (c :: l).
      split; [by rewrite <- app_assoc|]. intros c'. rewrite elem_of_cons, Hl. split.
      * intros [->|(v' & ? & ? & ?)]; [exists v|exists v']; split_and!; auto; [by left|by right].
      * intros (v' & ? & [E|?]%elem_of_cons & Hk'); [|right; eauto]. left.
        apply rel_path_inj in E; [congruence|done|done].
    + destruct (IH classes Hn') as (l & -> & Hl). exists l. split; [done|]. intros c'. rewrite Hl.
      split; intros (v' & ? & Hin & Hk'); exists v'; split_and!; auto; [by right|].
      apply elem_of_cons in Hin as [E|?]; [|done].
      apply rel_path_inj in E; [|done..]. simplify_eq.
      assert (of_object j (rel_path j c v) = true) by (by apply of_object_iff). congruence.
Qed.

Definition v2_supports (o : op) : bool :=
  match o with ORemove _ | ORemoveAll => false | _ => in_range o end.

Lemma v2_store fs st i c v d :
  v2_rep fs st -> key_ok (i, c, v) ->
  v2_rep (DriverSpifsWrite (object_path i c v) d fs) (<[(i, c, v) := d]> st).
Proof.
  intros (M & K & R) Hk. split; [by apply mounted_write|]. split; [by apply keys_ok_insert|].
  destruct M as [Hi _]. unfold DriverSpifsWrite. rewrite Hi. cbn [files]. intros name d'.
  rewrite object_path_rel, lookup_insert. case_decide as E.
  - apply app_inv_head in E. injection E as <-. split.
    + intros [= <-]. exists i, c, v. by rewrite lookup_insert_eq.
    + intros (i' & c' & v' & En & Hd). rewrite lookup_insert in Hd. case_decide as E'; [done|].
      destruct E'. apply rel_path_inj; [done| |done]. apply K. eauto.
  - rewrite R. split; intros (i' & c' & v' & -> & Hd); exists i', c', v'; (split; [done|]).
    + rewrite lookup_insert_ne; [done|]. intros [= -> -> ->]. by apply E.
    + rewrite lookup_insert_ne in Hd; [done|]. intros [= -> -> ->]. by apply E.
Qed.

Lemma v2_dir fs st n :
  v2_rep fs st -> n ∈ DriverSpifsDir state fs <-> exists i c v, n = rel_path i c v /\ is_Some (st !! (i, c, v)).
Proof.
  intros ((Hi & _) & _ & R). unfold DriverSpifsDir. rewrite Hi.
  change (match readdir (res_path state) (files fs) with Some l => l | None => [] end)
    with (default [] (readdir (res_path state) (files fs))).
  rewrite readdir_lists. split.
  - intros [d Hd]. apply R in Hd as (i & c & v & -> & Hd). exists i, c, v. eauto.
  - intros (i & c & v & -> & [d Hd]). exists d. apply R. eauto.
Qed.

Definition FileSystemSpiFsV2_ok : @FacilityOk DriverSpifs FileSystemSpiFsV2Facility.
Proof.
  refine (@Build_FacilityOk _ FileSystemSpiFsV2Facility v2_rep (fun _ => True) v2_supports _).
  intros o fs st R Hs _. assert (in_range o = true) as S%in_range_ok by (by destruct o).
  destruct o as [i|i c v d|i c v buf|i|]; try done;
    cbn [exec Enumerate Store Load FileSystemSpiFsV2Facility]; clear Hs.
  - destruct (enumerate_spec i (DriverSpifsDir state fs) []) as (l & -> & Hl); [done| |].
    { intros n Hn. apply (v2_dir fs st n R) in Hn as (j & c & v & -> & Hs).
      exists j, c, v. split; [done|]. by apply R. }
    eexists _, _. split; [reflexivity|]. split; [done|]. intros c. cbn [app].
    rewrite Hl, elem_of_elements, elem_of_classes_of. split.
    + intros (v & _ & Hn & Hk). apply (v2_dir fs st _ R) in Hn as (j & c' & v' & E & Hs).
      apply rel_path_inj in E; [|done|by apply R]. simplify_eq. eauto.
    + intros [v Hs]. assert (key_ok (i, c, v)) as Hk by (by apply R). exists v.
      split_and!; [apply Hk| |done]. apply (v2_dir fs st _ R). eauto.
  - eexists _, _. split; [reflexivity|]. split; [by apply v2_store|done].
  - eexists _, _. split; [reflexivity|]. split; [done|].
    cbn [spec_exec snd agree]. unfold DriverSpifsRead. pose proof R as ((Hi & _) & _). rewrite Hi.
    rewrite (v2_lookup fs st) by done. by destruct (st !! _).
Defined.

(** Nothing is ever removed. *)
Lemma head_to_string v s : head (to_string v ++ s) <> Some slash.
Proof.
  pose proof (no_slash v) as H. pose proof (to_string_nonempty v). destruct (to_string v) as [|x l]; [done|].
  cbn. intros [= ->]. by apply not_elem_of_cons in H as [? _].
Qed.

Lemma v2_remove fs st i : v2_rep fs st -> remove_dirs i (DriverSpifsDir state fs) fs = fs.
Proof.
  intros R. assert (forall n, n ∈ DriverSpifsDir state fs -> head n <> Some slash) as Hh.
  { intros n Hn. apply (v2_dir fs st n R) in Hn as (j & c & v & -> & _). apply head_to_string. }
  revert Hh. generalize (DriverSpifsDir state fs) as l. destruct R as (M & _).
  induction l as [|n l IH]; intros Hh; [done|]. cbn [remove_dirs].
  rewrite (delete_nothing n fs M) by (apply Hh; left).
  destruct (of_object i n); apply IH; intros m Hm; apply Hh; by right.
Qed.
End V2.
End SpifsV2.

(** ** [FileSystemStdFacility] *)
Module Std.
Import Names.

(** A path is the list of its names. *)
Abbreviation path := (list bytes).

Record StdFs := { dirs : gset path; std_files : gmap path bytes }.

Fixpoint strip (p q : path) : option path :=
  match p, q with
  | [], q => Some q
  | a :: p, b :: q => if decide (a = b) then strip p q else None
  | _ :: _, [] => None
  end.

Definition child (p q : path) : option bytes :=
  match strip p q with Some [n] => Some n | _ => None end.

(** [std::filesystem::directory_iterator]; no list when it gives an error. *)
Definition directory (p : path) (fs : StdFs) : option (list bytes) :=
  if decide (p ∈ dirs fs)
  then Some (omap (child p) (elements (dirs fs ∪ dom (std_files fs))))
  else None.

(** The prefixes of a path, itself included. *)
Definition prefixes (p : path) : list path := (fun n => take (S n) p) <$> seq 0 (length p).

(** [std::filesystem::create_directories]; it throws when a file is in the way. *)
Definition create_directories (p : path) (fs : StdFs) : outcome StdFs :=
  if decide (Exists (fun q => is_Some (std_files fs !! q)) (prefixes p)) then Undefined
  else Defined {| dirs := list_to_set (prefixes p) ∪ dirs fs; std_files := std_files fs |}.

(** [std::filesystem::remove_all] *)
Definition remove_tree (p : path) (fs : StdFs) : StdFs :=
  {| dirs := filter (fun q => strip p q = None) (dirs fs);
     std_files := filter (fun qd => strip p qd.1 = None) (std_files fs) |}.

Definition obj_dir (i : Z) (version : bytes) : path := [state; version; to_string i].

(** The loops of [Enumerate], which collect the classes in a [std::set]. *)
Fixpoint insert_classes (names : list bytes) (classes : gset Z) : outcome (gset Z) :=
  match names with
  | [] => Defined classes
  | n :: names =>
      let* c := stoul 10 n in insert_classes names ({[wrap 32 c]} ∪ classes)
  end.

Fixpoint enumerate_versions (i : Z) (versions : list bytes) (fs : StdFs) (classes : gset Z)
  : outcome (gset Z) :=
  match versions with
  | [] => Defined classes
  | v :: versions =>
      let* classes := match directory (obj_dir i v) fs with
                      | Some names => insert_classes names classes
                      | None => Defined classes
                      end in
      enumerate_versions i versions fs classes
  end.

Fixpoint remove_versions (i : Z) (versions : list bytes) (fs : StdFs) : StdFs :=
  match versions with
  | [] => fs
  | v :: versions => remove_versions i versions (remove_tree (obj_dir i v) fs)
  end.

(** The file is written when it can be opened. *)
Definition write_file (p : path) (d : bytes) (fs : StdFs) : StdFs :=
  if decide (p ∈ dirs fs) then fs
  else {| dirs := dirs fs; std_files := <[p := d]> (std_files fs) |}.

#[export] Instance FileSystemStdFacility : DomainFacility StdFs := {|
  Enumerate i fs :=
    let versions := match directory [state] fs with Some l => l | None => [] end in
    let* classes := enumerate_versions i versions fs ∅ in
    Defined (merge_sort Z.le (elements classes));
  Store i c v d fs :=
    let dir := obj_dir i (to_string v) in
    let* fs := create_directories dir fs in
    Defined (write_file (dir ++ [to_string c]) d fs);
  Load i c v buf fs :=
    match std_files fs !! (obj_dir i (to_string v) ++ [to_string c]) with
    | Some d => Defined d
    | None => Defined buf
    end;
  Remove i fs :=
    Defined (remove_versions i (match directory [state] fs with Some l => l | None => [] end) fs);
  remove_all fs := Defined (remove_tree [state] fs);
|}.

(** *** The facility is a table *)

Definition object_file (k : Z * Z * Z) : path := [to_string k.2; to_string k.1.1; to_string k.1.2].

Record std_rep (fs : StdFs) (st : objects) : Prop := {
  std_keys : keys_ok st;
  std_lookup : forall q d, std_files fs !! (state :: q) = Some d <->
    exists k, q = object_file k /\ st !! k = Some d;
  std_dirs : forall k, is_Some (st !! k) ->
    [state] ∈ dirs fs /\ [state; to_string k.2] ∈ dirs fs /\ obj_dir k.1.1 (to_string k.2) ∈ dirs fs;
  std_depth : forall q, state :: q ∈ dirs fs -> (length q <= 2)%nat;
}.

Lemma object_file_inj k k' : key_ok k -> key_ok k' -> object_file k = object_file k' -> k = k'.
Proof.
  destruct k as [[i c] v], k' as [[i' c'] v']. intros (? & ? & ?) (? & ? & ?) E.
  unfold object_file in E. cbn [fst snd] in *. injection E as E1 E2 E3.
  apply to_string_inj in E1, E2, E3; [|done..]. congruence.
Qed.

Lemma strip_Some p q r : strip p q = Some r <-> q = p ++ r.
Proof.
  revert q. induction p as [|a p IH]; intros [|b q]; cbn [strip app].
  - split; congruence.
  - split; congruence.
  - done.
  - case_decide as E; [subst; rewrite IH; split; congruence|]. split; [done|congruence].
Qed.

Lemma elem_of_directory p fs l n :
  directory p fs = Some l -> n ∈ l <-> p ++ [n] ∈ dirs fs \/ is_Some (std_files fs !! (p ++ [n])).
Proof.
  unfold directory. case_decide; [|done]. intros [= <-].
  rewrite <- elem_of_dom, <- elem_of_union, list_elem_of_omap. unfold child. split.
  - intros (q & Hq%elem_of_elements & E). destruct (strip p q) as [[|m [|? ?]]|] eqn:Es; simplify_eq.
    apply strip_Some in Es as ->. done.
  - intros H'. exists (p ++ [n]). rewrite elem_of_elements. split; [done|].
    by rewrite (proj2 (strip_Some p (p ++ [n]) [n]) eq_refl).
Qed.

Lemma std_get fs st k : std_rep fs st -> key_ok k -> std_files fs !! (state :: object_file k) = st !! k.
Proof.
  intros R Hk. apply option_eq. intros d. rewrite (std_lookup fs st R). split.
  - intros (k' & E & Hd). apply object_file_inj in E as <-; [done..|]. apply (std_keys fs st R). eauto.
  - eauto.
Qed.

(** **** Storing *)

Lemma std_store fs st i c v d :
  std_rep fs st -> key_ok (i, c, v) ->
  exists fs', Store i c v d fs = Defined fs' /\ std_rep fs' (<[(i, c, v) := d]> st).
Proof.
  intros R Hk. cbn [Store FileSystemStdFacility]. unfold create_directories.
  assert (forall q, (length q < 3)%nat -> std_files fs !! (state :: q) = None) as Hnone.
  { intros q Hq. destruct (std_files fs !! (state :: q)) as [e|] eqn:E; [|done].
    apply (std_lookup fs st R) in E as (k & -> & _). simpl in Hq. lia. }
  rewrite decide_False.
  2:{ intros (q & Hq & [e He])%Exists_exists. cbn in Hq.
      destruct Hq as [<-|[<-|[<-|[]]]]; rewrite Hnone in He by (simpl; lia); done. }
  eexists. split; [reflexivity|]. unfold write_file. cbn [dirs std_files].
  change (obj_dir i (to_string v) ++ [to_string c]) with (state :: object_file (i, c, v)).
  rewrite decide_False.
  2:{ rewrite elem_of_union, elem_of_list_to_set. intros [Hp|Hp].
      - cbn in Hp. rewrite !elem_of_cons, elem_of_nil in Hp. by destruct Hp as [?|[?|[?|[]]]].
      - apply (std_depth fs st R) in Hp. simpl in Hp. lia. }
  split; cbn [dirs std_files].
  - apply keys_ok_insert; [apply R|done].
  - intros q e. rewrite lookup_insert. case_decide as E.
    + injection E as <-. split.
      * intros [= <-]. exists (i, c, v). by rewrite lookup_insert_eq.
      * intros (k & En & Hd). rewrite lookup_insert in Hd. case_decide as E'; [done|].
        destruct E'. apply object_file_inj; [done| |done]. apply (std_keys fs st R). eauto.
    + rewrite (std_lookup fs st R). split; intros (k & -> & Hd); exists k; (split; [done|]).
      * rewrite lookup_insert_ne; [done|]. by intros <-.
      * rewrite lookup_insert_ne in Hd; [done|]. by intros <-.
  - intros k. rewrite lookup_insert. rewrite !elem_of_union, !elem_of_list_to_set.
    case_decide as E; [subst k; intros _|intros Hs; destruct (std_dirs fs st R k Hs) as (? & ? & ?); auto].
    cbn. rewrite !elem_of_cons. auto 10.
  - intros q. rewrite elem_of_union, elem_of_list_to_set. intros [Hq|Hq]; [|by apply (std_depth fs st R)].
    cbn in Hq. rewrite !elem_of_cons, elem_of_nil in Hq.
    destruct Hq as [E|[E|[E|[]]]]; injection E as ->; simpl; lia.
Qed.

(** **** Listing *)

Lemma insert_classes_spec names classes :
  (forall n, n ∈ names -> exists c, small c /\ n = to_string c) ->
  exists s, insert_classes names classes = Defined s /\
    forall c, c ∈ s <-> c ∈ classes \/ (small c /\ to_string c ∈ names).
Proof.
  revert classes. induction names as [|n names IH]; intros classes Hn; cbn [insert_classes].
  - exists classes. split; [done|]. intros c. rewrite elem_of_nil. naive_solver.
  - destruct (Hn n) as (c & Hc & ->); [left|]. rewrite stoul_to_string by done.
    rewrite wrap_small by (unfold in_width; unfold small in Hc; lia).
    destruct (IH ({[c]} ∪ classes)) as (s & -> & Hs); [intros m Hm; apply Hn; by right|].
    exists s. split; [done|]. intros c'. rewrite Hs, elem_of_union, elem_of_singleton, elem_of_cons.
    split; [naive_solver|]. intros [?|(? & [E|?])]; [by auto| |by auto].
    apply to_string_inj in E; auto.
Qed.

(** The files of the directory of an object are its classes. *)
Lemma object_directory fs st i v names n :
  std_rep fs st -> small i -> directory (obj_dir i v) fs = Some names ->
  n ∈ names <-> exists c v', small c /\ n = to_string c /\ v = to_string v' /\ is_Some (st !! (i, c, v')).
Proof.
  intros R Hi Ed. rewrite (elem_of_directory _ _ _ _ Ed). cbn [obj_dir app]. split.
  - intros [Hp%(std_depth fs st R)|[d Hd]]; [simpl in Hp; lia|].
    apply (std_lookup fs st R) in Hd as ([[j c] v'] & E & Hd).
    assert (key_ok (j, c, v')) as (Hj & Hc & _) by (apply (std_keys fs st R); eauto).
    unfold object_file in E. cbn [fst snd] in *. injection E as -> E ->.
    apply to_string_inj in E as <-; [|done..]. exists c, v'. eauto.
  - intros (c & v' & _ & -> & -> & [d Hd]). right. exists d. apply (std_lookup fs st R).
    exists (i, c, v'). done.
Qed.

Lemma enumerate_versions_spec fs st i versions classes :
  std_rep fs st -> small i ->
  exists s, enumerate_versions i versions fs classes = Defined s /\
    forall c, c ∈ s <-> c ∈ classes \/ exists v, to_string v ∈ versions /\ is_Some (st !! (i, c, v)).
Proof.
  intros R Hi. revert classes. induction versions as [|v versions IH]; intros classes;
    cbn [enumerate_versions].
  - exists classes. split; [done|]. intros c. split; [auto|]. intros [?|(v & Hv & _)]; [done|].
    by apply not_elem_of_nil in Hv.
  - destruct (directory (obj_dir i v) fs) as [names|] eqn:Ed.
    + destruct (insert_classes_spec names classes) as (s1 & -> & H1).
      { intros n (c & v' & ? & -> & _)%(object_directory fs st i v names n R Hi Ed). eauto. }
      destruct (IH s1) as (s & -> & Hs). exists s. split; [done|]. intros c.
      rewrite Hs, H1. setoid_rewrite (object_directory fs st i v names _ R Hi Ed).
      setoid_rewrite elem_of_cons. split.
      * intros [[?|(Hc & c' & v' & Hc' & E & -> & ?)]|(v' & ? & ?)]; [by auto| |by eauto].
        apply to_string_inj in E as <-; eauto.
      * intros [?|(v' & [<-|?] & ?)]; [by auto| |by eauto]. left. right.
        assert (small c) by (by apply (std_keys fs st R) in H as (_ & ? & _)). eauto 8.
    + destruct (IH classes) as (s & -> & Hs). exists s. split; [done|]. intros c. rewrite Hs.
      setoid_rewrite elem_of_cons. split; [naive_solver|].
      intros [?|(v' & [<-|?] & Hst)]; [by auto| |by eauto].
      apply (std_dirs fs st R) in Hst as (_ & _ & Hd). unfold directory in Ed. cbn [fst snd] in Hd.
      by case_decide.
Qed.

Lemma versions_listed fs st k :
  std_rep fs st -> is_Some (st !! k) ->
  to_string k.2 ∈ (match directory [state] fs with Some l => l | None => [] end).
Proof.
  intros R Hk. destruct (std_dirs fs st R k Hk) as (H1 & H2 & _).
  destruct (directory [state] fs) as [l|] eqn:Ed.
  - rewrite (elem_of_directory _ _ _ _ Ed). auto.
  - unfold directory in Ed. by case_decide.
Qed.

(** **** Removing *)

(** A path that is removed with the object. *)
Definition under (i : Z) (versions : list bytes) (q : path) : Prop :=
  Exists (fun v => strip (obj_dir i v) q <> None) versions.

#[export] Instance under_dec i versions q : Decision (under i versions q).
Proof. unfold under. apply _. Defined.

Lemma remove_versions_spec i versions fs q :
  (q ∈ dirs (remove_versions i versions fs) <-> q ∈ dirs fs /\ ~ under i versions q) /\
  std_files (remove_versions i versions fs) !! q
  = if decide (under i versions q) then None else std_files fs !! q.
Proof.
  revert fs. induction versions as [|v versions IH]; intros fs; cbn [remove_versions].
  - assert (~ under i [] q) by (intros H; inversion H). rewrite decide_False by done. naive_solver.
  - destruct (IH (remove_tree (obj_dir i v) fs)) as [-> ->].
    assert (under i (v :: versions) q <-> strip (obj_dir i v) q <> None \/ under i versions q) as E
      by apply Exists_cons. split.
    + rewrite E. cbn [remove_tree dirs]. rewrite elem_of_filter.
      destruct (strip (obj_dir i v) q) eqn:Es; naive_solver.
    + cbn [remove_tree std_files]. destruct (strip (obj_dir i v) q) eqn:Es.
      * rewrite (decide_True (P := under i (v :: versions) q)) by (rewrite E; auto).
        case_decide; [done|]. apply map_lookup_filter_None. right. intros d _ H'. cbn [fst] in H'. congruence.
      * destruct (decide (under i versions q)).
        { rewrite decide_True; [done|]. rewrite E. auto. }
        rewrite decide_False by (rewrite E; tauto).
        destruct (std_files fs !! q) eqn:Eq; [by apply map_lookup_filter_Some|].
        apply map_lookup_filter_None. by left.
Qed.

Lemma under_object i versions k :
  small i -> key_ok k -> under i versions (state :: object_file k) <->
    to_string k.2 ∈ versions /\ k.1.1 = i.
Proof.
  destruct k as [[j c] v]. intros Hi (Hj & _ & _). cbn [fst snd] in *. unfold under, obj_dir, object_file.
  rewrite Exists_exists. setoid_rewrite <- list_elem_of_In. cbn [fst snd strip]. split.
  - intros (w & Hw & H'). repeat (case_decide; [|done]). subst.
    split; [done|]. symmetry. by apply to_string_inj.
  - intros [Hv ->]. exists (to_string v). split; [done|]. by rewrite !decide_True.
Qed.

Lemma std_remove fs st i :
  std_rep fs st -> small i ->
  std_rep (remove_versions i (match directory [state] fs with Some l => l | None => [] end) fs)
          (spec_exec (ORemove i) st).1.
Proof.
  intros R Hi. set (vs := match directory [state] fs with Some l => l | None => [] end).
  cbn [spec_exec fst].
  assert (forall k, is_Some (st !! k) -> under i vs (state :: object_file k) <-> k.1.1 = i) as Hu.
  { intros k Hk. rewrite under_object by (done || by apply (std_keys fs st R)).
    split; [by intros [_ ?]|]. intros ?. split; [|done]. by apply (versions_listed fs st). }
  split.
  - intros k. rewrite lookup_removed. case_decide; [by intros []|apply R].
  - intros q d. rewrite (proj2 (remove_versions_spec i vs fs (state :: q))). split.
    + case_decide as E; [done|]. intros (k & -> & Hd)%(std_lookup fs st R).
      exists k. split; [done|]. rewrite lookup_removed, decide_False; [done|]. rewrite <- Hu by eauto. done.
    + intros (k & -> & Hd). rewrite lookup_removed in Hd. case_decide as E; [done|].
      rewrite decide_False by (by rewrite Hu by eauto). apply (std_lookup fs st R). eauto.
  - intros k. rewrite lookup_removed. case_decide as E; [by intros []|]. intros Hk.
    destruct (std_dirs fs st R k Hk) as (H1 & H2 & H3).
    split_and!; apply remove_versions_spec; (split; [done|]); unfold under; rewrite Exists_exists;
      intros (v & _ & Hs); apply Hs; cbn; repeat (case_decide; [|done]); try done.
    destruct E. apply (std_keys fs st R) in Hk as (Hj & _). symmetry. by apply to_string_inj.
  - intros q [Hq _]%remove_versions_spec. by apply (std_depth fs st R).
Qed.

Lemma std_remove_all fs st : std_rep fs st -> std_rep (remove_tree [state] fs) ∅.
Proof.
  intros R. split; cbn [remove_tree dirs std_files].
  - by intros k [].
  - intros q d. split.
    + intros [_ H]%map_lookup_filter_Some. cbn in H. by rewrite decide_True in H.
    + by intros (k & _ & ?).
  - by intros k [].
  - intros q [H _]%elem_of_filter. cbn in H. by rewrite decide_True in H.
Qed.

#[export] Program Instance FileSystemStd_ok : FacilityOk StdFs := {
  rep := std_rep;
  fits _ := True;
  supports := in_range;
}.
Next Obligation.
  intros o fs st R S%in_range_ok _.
  destruct o as [i|i c v d|i c v buf|i|]; cbn [exec].
  - cbn [Enumerate FileSystemStdFacility].
    destruct (enumerate_versions_spec fs st i
      (match directory [state] fs with Some l => l | None => [] end) ∅ R S) as (s & -> & Hs).
    eexists _, _. split; [reflexivity|]. split; [done|]. intros c.
    rewrite merge_sort_Permutation, !elem_of_elements, Hs, elem_of_classes_of. split.
    + intros [[]%elem_of_empty|(v & _ & ?)]. eauto.
    + intros [v Hv]. right. exists v. split; [|done]. by apply (versions_listed fs st (i, c, v)).
  - destruct (std_store fs st i c v d R S) as (fs' & -> & R'). eexists _, _. by split.
  - cbn [Load FileSystemStdFacility].
    change (obj_dir i (to_string v) ++ [to_string c]) with (state :: object_file (i, c, v)).
    rewrite (std_get fs st) by done. cbn [spec_exec fst snd].
    destruct (st !! (i, c, v)); (eexists _, _; split; [reflexivity|]); done.
  - eexists _, _. split; [reflexivity|]. split; [by apply std_remove|done].
  - eexists _, _. split; [reflexivity|]. split; [by eapply std_remove_all|done].
Qed.
End Std.

Module FileSystemProperties.
Import Tree Ram Blob Header Names SpifsV2 Std.

(** The answers of a program that starts with nothing stored are those of the
    table. *)
Definition refines {FS : Type} (H : DomainFacility FS) (fs : FS) (os : list op) : Prop :=
  exists fs' l, run os fs = Defined (fs', l) /\ Forall2 agree l (spec_run os ∅).2.

Lemma facility_run_refines {FS : Type} `{FacilityOk FS} (fs : FS) os :
  rep fs ∅ -> within supports fits os ∅ -> refines _ fs os.
Proof. intros R W. destruct (run_ok os fs ∅ R W) as (fs' & l & E & _ & A). by exists fs', l. Qed.

Definition no_state : StdFs := {| dirs := ∅; std_files := ∅ |}.
Definition new_flash : DriverSpifs := {| _initialized := true; files := ∅ |}.

Lemma mounted_new : mounted new_flash.
Proof. split; [done|]. by intros p []. Qed.

Lemma rep_header : @rep HeaderFile _ _ None ∅.
Proof. split; [done|]. exists (∅ : gmap Z ClassData). split; [reflexivity|apply tree_rep_empty]. Qed.

Lemma rep_flash : blob_rep spifs_read mounted new_flash ∅.
Proof.
  split; [apply mounted_new|]. exists (∅ : gmap Z ClassData). split; [reflexivity|apply tree_rep_empty].
Qed.

Lemma rep_std : std_rep no_state ∅.
Proof.
  split.
  - by intros k [].
  - intros q d. cbn. rewrite lookup_empty. split; [done|]. by intros (k & _ & ?).
  - by intros k [].
  - by intros q ?%elem_of_empty.
Qed.

Lemma rep_v2 : v2_rep new_flash ∅.
Proof.
  split; [apply mounted_new|]. split; [by intros k []|].
  intros n d. cbn. rewrite lookup_empty. split; [done|]. by intros (i & c & v & _ & ?).
Qed.

(** Names of the files of a directory of a flat file system. *)
Definition lists (readdir : bytes -> gmap bytes bytes -> option (list bytes)) : Prop :=
  forall dir (fs : gmap bytes bytes) name,
    name ∈ default [] (readdir dir fs) <-> is_Some (fs !! (dir ++ slash :: name)).

(** C6: All file systems implement one table: a program that stores, loads,
    lists and removes parts of objects gets from each of them the answers of the
    table of what was stored, by object, class and version, starting with
    nothing stored, an empty directory or a mounted flash.  The memory does so for
    all programs.  The header file does when it is written, as distillation does (a
    program compiled with one keeps nothing: [compiled_header_keeps_nothing]), for
    tables of its format ([table_fits]); the flash file of the first version for
    such tables, unless everything is removed; the flash files of the second
    version for identifiers in range, unless something is removed; the files of the
    disk for identifiers in range. *)
Theorem file_systems_refine readdir os :
  lists readdir ->
  refines FileSystemRamFacility {| state_ := (∅ : gmap Z ClassData) |} os /\
  (within (fun _ => true) table_fits os ∅ -> refines FileSystemHeaderFacility None os) /\
  (within (blob_supports false) table_fits os ∅ -> refines FileSystemSpiFsV1Facility new_flash os) /\
  (within v2_supports (fun _ => True) os ∅ -> refines (FileSystemSpiFsV2Facility readdir) new_flash os) /\
  (within in_range (fun _ => True) os ∅ -> refines FileSystemStdFacility no_state os).
Proof.
  intros HL. split_and!.
  - apply facility_run_refines; [apply tree_rep_empty|].
    generalize (∅ : objects). induction os as [|o os IH]; intros st; [done|]. by split_and!.
  - intros W. by apply facility_run_refines; [apply rep_header|].
  - intros W. apply (@facility_run_refines _ _ FileSystemSpiFsV1_ok); [apply rep_flash|done].
  - intros W. apply (@facility_run_refines _ _ (FileSystemSpiFsV2_ok readdir HL)); [apply rep_v2|done].
  - intros W. by apply facility_run_refines; [apply rep_std|].
Qed.

(** A table that was kept in memory and written to a header file is what a
    program compiled from that file, or run with it, finds: whatever the table,
    the file is read back as the same objects. *)
Theorem header_export_roundtrip fs st :
  rep fs st -> table_fits st ->
  @rep HeaderFile _ _ (Some (out_header fs)) st /\
  (forall i c v buf, Load i c v buf (Some (out_header fs)) = Defined (default buf (st !! (i, c, v)))) /\
  (forall i c v buf, @Load unit (FileSystemHeaderCompiled (save (state_ fs))) i c v buf tt
                     = Defined (default buf (st !! (i, c, v)))).
Proof.
  intros R F. pose proof (tree_valid _ _ R F) as V.
  assert (LoadObjData (fun file => DriverHeader.DriverHeaderRead file []) (Some (out_header fs))
          = Defined (state_ fs)) as L.
  { unfold LoadObjData, out_header. rewrite DriverHeader.header_roundtrip by apply tree_bytes.
    by rewrite load_fresh. }
  split_and!.
  - split; [done|]. by exists (state_ fs).
  - intros i c v buf. cbn [Load FileSystemHeaderFacility blob_facility]. rewrite L.
    by rewrite (tree_load_rep _ _ _ _ _ st).
  - intros i c v buf. cbn [Load FileSystemHeaderCompiled blob_facility].
    unfold LoadObjData. rewrite load_fresh by done. by rewrite (tree_load_rep _ _ _ _ _ st).
Qed.

(** The file systems on flash never remove anything: the file that is deleted is
    looked for outside of the mount point. *)
Theorem flash_never_removes readdir fs st :
  lists readdir ->
  (blob_rep spifs_read mounted fs st -> @remove_all _ FileSystemSpiFsV1Facility fs = Defined fs) /\
  (v2_rep fs st ->
   (forall i, @Remove _ (FileSystemSpiFsV2Facility readdir) i fs = Defined fs) /\
   @remove_all _ (FileSystemSpiFsV2Facility readdir) fs = Defined fs).
Proof.
  intros HL. split.
  - intros [M _]. cbn. by rewrite delete_nothing.
  - intros R. split.
    + intros i. cbn [Remove FileSystemSpiFsV2Facility]. by rewrite (v2_remove readdir HL fs st i R).
    + cbn. destruct R as (M & _). by rewrite delete_nothing.
Qed.

(** A program compiled with a header keeps nothing: every operation answers as
    if it were the first one. *)
Theorem compiled_header_keeps_nothing init_fs os :
  exists l, @run _ (FileSystemHeaderCompiled init_fs) os tt = Defined (tt, l) /\
    Forall2 (fun o a => @exec _ (FileSystemHeaderCompiled init_fs) o tt = Defined (tt, a)) os l.
Proof.
  induction os as [|o os (l & E & A)]; [by exists []|].
  assert (exists a, @exec _ (FileSystemHeaderCompiled init_fs) o tt = Defined (tt, a)) as [a Ea]
    by (destruct o; cbn; eauto).
  exists (a :: l). cbn [run]. rewrite Ea, E. split; [done|]. by constructor.
Qed.

(** ** Instances *)

(** A directory list of the flat file system. *)
Definition cut (p s : bytes) : option bytes := if starts p s then Some (drop (length p) s) else None.

Definition flat_readdir (dir : bytes) (fs : gmap bytes bytes) : option (list bytes) :=
  Some (omap (cut (dir ++ [slash])) (elements (dom fs))).

Lemma flat_readdir_lists : lists flat_readdir.
Proof.
  intros dir fs name. unfold flat_readdir. cbn [default from_option id]. rewrite <- elem_of_dom, list_elem_of_omap.
  unfold cut.
  split.
  - intros (p & Hp%elem_of_elements & E). destruct (starts (dir ++ [slash]) p) eqn:Es; [|done].
    apply starts_iff in Es as [t ->]. rewrite drop_app_length in E. injection E as <-.
    by rewrite <- app_assoc in Hp.
  - intros H. exists (dir ++ slash :: name). rewrite elem_of_elements. split; [done|].
    replace (dir ++ slash :: name) with ((dir ++ [slash]) ++ name) by (by rewrite <- app_assoc).
    rewrite (proj2 (starts_iff _ _)) by eauto. by rewrite drop_app_length.
Qed.

Definition sample_table : objects := {[ (1, 7, 0) := [5; 200] ]}.

Lemma sample_fits : table_fits sample_table.
Proof.
  split; [vm_compute; reflexivity|]. intros i c v d Hd. unfold sample_table in Hd.
  apply lookup_singleton_Some in Hd as [E <-]. injection E as <- <- <-.
  unfold small, in_width, zlen. split_and!; try (vm_compute; done). by repeat constructor.
Qed.

Definition sample_program : list op := [OStore 1 7 0 [5; 200]; OEnumerate 1; OLoad 1 7 0 []; OLoad 2 7 0 [9]].

Lemma sample_within supports :
  (forall o, o ∈ sample_program -> supports o = true) -> within supports table_fits sample_program ∅.
Proof.
  intros S. cbn [within sample_program spec_exec fst].
  repeat (split; [apply S; set_solver|split; [exact sample_fits|]]). done.
Qed.

Lemma file_systems_refine_witness :
  refines FileSystemHeaderFacility None sample_program /\
  refines FileSystemSpiFsV1Facility new_flash sample_program /\
  refines (FileSystemSpiFsV2Facility flat_readdir) new_flash sample_program /\
  refines FileSystemStdFacility no_state sample_program /\
  Forall2 agree [Nothing; Classes [7]; Data [5; 200]; Data [9]] (spec_run sample_program ∅).2.
Proof.
  destruct (file_systems_refine flat_readdir sample_program flat_readdir_lists) as (_ & H1 & H2 & H3 & H4).
  split_and!.
  - apply H1, sample_within. done.
  - apply H2, sample_within. intros o Ho. repeat (apply elem_of_cons in Ho as [->|Ho]; [done|]).
    by apply not_elem_of_nil in Ho.
  - apply H3. vm_compute. done.
  - apply H4. vm_compute. done.
  - assert ((spec_run sample_program ∅).2 = [Nothing; Classes [7]; Data [5; 200]; Data [9]]) as ->
      by (vm_compute; reflexivity).
    reflexivity.
Defined.

Lemma header_export_roundtrip_witness :
  let fs := {| state_ := tree_store 1 7 0 [5; 200] (∅ : gmap Z ClassData) |} in
  Load 1 7 0 [] (Some (out_header fs)) = Defined [5; 200].
Proof.
  assert (tree_rep (tree_store 1 7 0 [5; 200] (∅ : gmap Z ClassData)) sample_table) as R
    by (apply (tree_rep_store 1 7 0 [5; 200] _ ∅), tree_rep_empty).
  exact (proj1 (proj2 (header_export_roundtrip {| state_ := _ |} sample_table R sample_fits)) 1 7 0 []).
Defined.
End FileSystemProperties.
