(* ===== verification/Statistics.v ===== *)
(** * Telemetry statistics ([aether/tele/traps/statistics_trap.*], [tele/collectors.h])

    A trap keeps what a program logs and measures: log entries in the order they
    were made, and metrics by their index.  The store has a current and a
    previous [Statistics]; a current one that is full is moved to the previous
    and a new one started.  Log and metric streams are proxies that add to the
    size of the statistics when they are destroyed.

    [Statistics] objects are shared by pointers: they are numbers, looked up in
    the [World].  A telemetry macro declares a [Tele] object, which lives to the end
    of the scope: [Tele_new] is its constructor and [Tele_delete] its destructor, and
    the objects of a run are a stack. *)

From stdpp Require Import gmap.
From S2P Require Import Prelude MStream PackedInt OrderedMap.
Import OrderedMap PackedSize.

#[local] Set Warnings "-notation-overridden".

Module Statistics.

(** ** State *)

Record Metric := {
  invocations_count : Z;
  max_duration : Z;
  sum_duration : Z;
  min_duration : Z;
}.

(** [Metric{}] *)
Definition new_metric : Metric :=
  {| invocations_count := 0; max_duration := 0; sum_duration := 0; min_duration := 0 |}.

(** Four [Packed<std::uint32_t, ...>]. *)
Definition sizeof_Metric : Z := 16.

Record Statistics := { logs : list bytes; metrics : gmap Z Metric; size_ : Z }.

Definition new_statistics : Statistics := {| logs := []; metrics := ∅; size_ := 0 |}.

Record EnvStore := {
  platform_type : bytes;
  platform_version : bytes;
  compiler : bytes;
  compiler_version : bytes;
  library_version : bytes;
  api_version : bytes;
  cpu_type : bytes;
  endianness : Z;
  compile_options : list (Z * Z);
}.

Definition new_env : EnvStore :=
  {| platform_type := []; platform_version := []; compiler := []; compiler_version := [];
     library_version := []; api_version := []; cpu_type := []; endianness := 0;
     compile_options := [] |}.

Record StatisticsStore := {
  statistics_size_limit_ : Z;
  env_store_ : EnvStore;
  prev_ : option nat;
  current_ : nat;
}.

Record World := { heap : gmap nat Statistics; next : nat }.

Definition kMaxSize : Z := 10 * 1024.

Definition make_shared (s : Statistics) (w : World) : nat * World :=
  (next w, {| heap := <[next w := s]> (heap w); next := S (next w) |}).

Definition update (a : nat) (f : Statistics -> Statistics) (w : World) : World :=
  {| heap := alter f a (heap w); next := next w |}.

(** The constructor of the store. *)
Definition new_store (w : World) : StatisticsStore * World :=
  let '(a, w) := make_shared new_statistics w in
  ({| statistics_size_limit_ := kMaxSize; env_store_ := new_env; prev_ := None; current_ := a |}, w).

(** ** [Statistics] *)

Definition set_size (n : Z) (s : Statistics) : Statistics :=
  {| logs := logs s; metrics := metrics s; size_ := wrap 64 n |}.

Definition set_logs (l : list bytes) (s : Statistics) : Statistics :=
  {| logs := l; metrics := metrics s; size_ := size_ s |}.

Definition set_metrics (m : gmap Z Metric) (s : Statistics) : Statistics :=
  {| logs := logs s; metrics := m; size_ := size_ s |}.

(** The loop of [UpdateSize] over the logs: the iterator stays at the last one. *)
Fixpoint sum_last (delta_size : nat) (data : list bytes) : outcome Z :=
  match delta_size with
  | O => Defined 0
  | S n =>
      match back data with
      | None => Undefined
      | Some e => let* sum := sum_last n data in Defined (wrap 64 (sum + zlen e))
      end
  end.

Definition UpdateSize_logs (delta_size : nat) (s : Statistics) : outcome Statistics :=
  let* sum := sum_last delta_size (logs s) in Defined (set_size (size_ s + sum) s).

Definition UpdateSize_metrics (delta_size : nat) (s : Statistics) : Statistics :=
  set_size (size_ s + Z.of_nat delta_size * sizeof_Metric) s.

Definition append_metric (mine other : Metric) : Metric :=
  {| invocations_count := wrap 32 (invocations_count mine + invocations_count other);
     max_duration := Z.max (max_duration mine) (max_duration other);
     sum_duration := wrap 32 (sum_duration mine + sum_duration other);
     min_duration := Z.min (min_duration mine) (min_duration other) |}.

(** The loop of [Append] over the metrics, in their order. *)
Definition append_metrics (others : gmap Z Metric) (m : gmap Z Metric) : gmap Z Metric :=
  foldl (fun m e => <[e.1 := match m !! e.1 with
                             | None => e.2
                             | Some mine => append_metric mine e.2
                             end]> m) m (entries others).

Definition Append (other s : Statistics) : Statistics :=
  {| logs := logs s ++ logs other; metrics := append_metrics (metrics other) (metrics s);
     size_ := size_ s |}.

(** ** [StatisticsStore] *)

Definition IsCurrentFull (st : StatisticsStore) (w : World) : outcome bool :=
  match heap w !! current_ st with
  | None => Undefined
  | Some s => Defined (statistics_size_limit_ st <=? size_ s)
  end.

Definition Rotate (st : StatisticsStore) (w : World) : StatisticsStore * World :=
  let '(a, w) := make_shared new_statistics w in
  ({| statistics_size_limit_ := statistics_size_limit_ st; env_store_ := env_store_ st;
      prev_ := Some (current_ st); current_ := a |}, w).

Definition Get (st : StatisticsStore) (w : World) : outcome (nat * StatisticsStore * World) :=
  let* full := IsCurrentFull st w in
  let '(st, w) := if full : bool then Rotate st w else (st, w) in
  Defined (current_ st, st, w).

Definition SetSizeLimit (limit : Z) (st : StatisticsStore) : StatisticsStore :=
  {| statistics_size_limit_ := limit; env_store_ := env_store_ st; prev_ := prev_ st;
     current_ := current_ st |}.

Definition Merge (newer st : StatisticsStore) (w : World) : outcome (StatisticsStore * World) :=
  match heap w !! current_ newer with
  | None => Undefined
  | Some _ =>
      let* (current, st, w) := Get st w in
      match heap w !! current_ newer with
      | None => Undefined
      | Some other =>
          Defined ({| statistics_size_limit_ := statistics_size_limit_ st;
                      env_store_ := env_store_ newer;
                      prev_ := match prev_ newer with Some p => Some p | None => prev_ st end;
                      current_ := current_ st |},
                   update current (Append other) w)
      end
  end.

(** ** Streams *)

(** [ProxyStatistics] with the entry or metric the stream writes to. *)
Record LogStream := { log_statistics : nat; log_size : nat; log_entry : nat }.
Record MetricStream := { metric_statistics : nat; metric_size : nat; metric_index : Z }.

Definition log_stream (st : StatisticsStore) (w : World) : outcome (LogStream * StatisticsStore * World) :=
  let* (a, st, w) := Get st w in
  match heap w !! a with
  | None => Undefined
  | Some s =>
      Defined ({| log_statistics := a; log_size := length (logs s); log_entry := length (logs s) |}, st,
               update a (fun s => set_logs (logs s ++ [[]]) s) w)
  end.

(** [log_writer << v] *)
Definition log_write (l : LogStream) (bs : bytes) (w : World) : World :=
  update (log_statistics l)
    (fun s => set_logs (alter (fun e => vector_write e bs) (log_entry l) (logs s)) s) w.

(** The end of a log stream: [~ProxyStatistics]. *)
Definition close_log (l : LogStream) (w : World) : outcome World :=
  match heap w !! log_statistics l with
  | None => Undefined
  | Some s =>
      if (length (logs s) <=? log_size l)%nat then Defined w
      else let* s := UpdateSize_logs (length (logs s) - log_size l) s in
           Defined (update (log_statistics l) (fun _ => s) w)
  end.

Definition metric_stream (index : Z) (st : StatisticsStore) (w : World)
  : outcome (MetricStream * StatisticsStore * World) :=
  let* (a, st, w) := Get st w in
  match heap w !! a with
  | None => Undefined
  | Some s =>
      let i := wrap 32 index in
      Defined ({| metric_statistics := a; metric_size := size (metrics s); metric_index := i |}, st,
               update a (fun s => set_metrics (<[i := default new_metric (metrics s !! i)]> (metrics s)) s) w)
  end.

Definition add_count (count : Z) (m : Metric) : Metric :=
  {| invocations_count := wrap 32 (invocations_count m + count); max_duration := max_duration m;
     sum_duration := sum_duration m; min_duration := min_duration m |}.

Definition add_duration (duration : Z) (m : Metric) : Metric :=
  {| invocations_count := invocations_count m;
     max_duration := Z.max (max_duration m) duration;
     sum_duration := wrap 32 (sum_duration m + duration);
     min_duration := Z.min (min_duration m) duration |}.

Definition with_metric (f : Metric -> Metric) (l : MetricStream) (w : World) : World :=
  update (metric_statistics l) (fun s => set_metrics (alter f (metric_index l) (metrics s)) s) w.

Definition close_metric (l : MetricStream) (w : World) : outcome World :=
  match heap w !! metric_statistics l with
  | None => Undefined
  | Some s =>
      if (size (metrics s) <=? metric_size l)%nat then Defined w
      else Defined (update (metric_statistics l)
             (UpdateSize_metrics (size (metrics s) - metric_size l)) w)
  end.

(** ** [Tele] *)

(** [TeleConfig] of a level and module. *)
Record TeleConfig := {
  count_metrics_ : bool;
  time_metrics_ : bool;
  index_logs_ : bool;
  start_time_logs_ : bool;
  level_module_logs_ : bool;
  location_logs_ : bool;
  name_logs_ : bool;
  blob_logs_ : bool;
}.

(** One call: what it is given, when it starts and how many nanoseconds it
    lives.  [format] is the text of the blob, when there is one. *)
Record event := {
  index_ : Z;
  level : Z;
  module : Z;
  start : Z;
  file : bytes;
  line : Z;
  name : bytes;
  format : option bytes;
  elapsed : Z;
}.

Definition IsAnyLogs (c : TeleConfig) : bool :=
  index_logs_ c || start_time_logs_ c || level_module_logs_ c || location_logs_ c || name_logs_ c ||
  blob_logs_ c.

Definition IsAnyMetrics (c : TeleConfig) : bool := count_metrics_ c || time_metrics_ c.

(** What is written to the entry of a log, piece by piece. *)
Definition log_string (s : bytes) : bytes := packed_save (zlen s) ++ s.

Definition pieces (c : TeleConfig) (e : event) : list bytes :=
  (if index_logs_ c then [packed_save (index_ e)] else []) ++
  (if start_time_logs_ c then [le_bytes 8 (wrap 64 (start e))] else []) ++
  (if level_module_logs_ c then [le_bytes 1 (level e); le_bytes 4 (module e)] else []) ++
  (if location_logs_ c then [log_string (file e); packed_save (wrap 32 (line e))] else []) ++
  (if name_logs_ c then [log_string (name e)] else []) ++
  (match format e with Some b => if blob_logs_ c then [log_string b] else [] | None => [] end).

Definition tele_logs (c : TeleConfig) (e : event) (st : StatisticsStore) (w : World)
  : outcome (StatisticsStore * World) :=
  if IsAnyLogs c then
    let* (l, st, w) := log_stream st w in
    let w := foldl (fun w bs => log_write l bs w) w (pieces c e) in
    let* w := close_log l w in
    Defined (st, w)
  else Defined (st, w).

(** The object of a macro: its configuration, what it was given, and its metric
    stream when it has one. *)
Record Tele := { config : TeleConfig; given : event; tele_metric_stream : option MetricStream }.

(** The constructor *)
Definition Tele_new (c : TeleConfig) (e : event) (st : StatisticsStore) (w : World)
  : outcome (Tele * StatisticsStore * World) :=
  if IsAnyMetrics c then
    let* (m, st, w) := metric_stream (index_ e) st w in
    let w := if count_metrics_ c then with_metric (add_count 1) m w else w in
    let* (st, w) := tele_logs c e st w in
    Defined ({| config := c; given := e; tele_metric_stream := Some m |}, st, w)
  else
    let* (st, w) := tele_logs c e st w in
    Defined ({| config := c; given := e; tele_metric_stream := None |}, st, w).

(** The destructor *)
Definition Tele_delete (x : Tele) (w : World) : outcome World :=
  match tele_metric_stream x with
  | None => Defined w
  | Some m =>
      let w := if time_metrics_ (config x) then with_metric (add_duration (wrap 32 (elapsed (given x)))) m w
               else w in
      close_metric m w
  end.

(** ** Runs

    The objects that are alive, the innermost first.  [SOpen] is a macro, [SClose]
    the end of the life of the innermost object. *)
Inductive step := SGet | SLimit (limit : Z) | SOpen (c : TeleConfig) (e : event) | SClose.

Definition exec (x : step) (sc : list Tele) (st : StatisticsStore) (w : World)
  : outcome (list Tele * StatisticsStore * World) :=
  match x with
  | SGet => let* (_, st, w) := Get st w in Defined (sc, st, w)
  | SLimit n => Defined (sc, SetSizeLimit n st, w)
  | SOpen c e => let* (x, st, w) := Tele_new c e st w in Defined (x :: sc, st, w)
  | SClose =>
      match sc with
      | [] => Defined (sc, st, w)
      | x :: sc => let* w := Tele_delete x w in Defined (sc, st, w)
      end
  end.

Fixpoint run (xs : list step) (sc : list Tele) (st : StatisticsStore) (w : World)
  : outcome (list Tele * StatisticsStore * World) :=
  match xs with
  | [] => Defined (sc, st, w)
  | x :: xs => let* (sc, st, w) := exec x sc st w in run xs sc st w
  end.

Definition empty_world : World := {| heap := ∅; next := 0 |}.
End Statistics.

Module StatisticsProperties.
Import Statistics.

(** ** The size of the statistics *)

(** The bytes of the logs and of the metrics. *)
Definition bytes_of (l : list bytes) : Z := zlen (mjoin l).

Definition total (s : Statistics) : Z := bytes_of (logs s) + sizeof_Metric * Z.of_nat (size (metrics s)).

(** The size is that of what is stored, but for [D x] bytes of the statistics at
    [x]: more than nothing when something is not counted yet, less when something
    was counted again. *)
Record counted (D : nat -> Z) (st : StatisticsStore) (w : World) : Prop := {
  ct_size : forall x s, heap w !! x = Some s -> size_ s = wrap 64 (total s - D x);
  ct_current : is_Some (heap w !! current_ st);
  ct_next : forall x, is_Some (heap w !! x) -> (x < next w)%nat;
  ct_fresh : forall x, (next w <= x)%nat -> D x = 0;
}.

Definition logs_at (w : World) (a : nat) : list bytes :=
  match heap w !! a with Some s => logs s | None => [] end.

(** The logs that are kept, from the oldest on. *)
Definition kept (st : StatisticsStore) (w : World) : list bytes :=
  match prev_ st with Some p => logs_at w p | None => [] end ++ logs_at w (current_ st).

(** What is kept at the end are the last of the entries kept before and of the
    new ones; before the first rotation, these are all of them. *)
Definition keeps (st : StatisticsStore) (w : World) (entries : list bytes) (st' : StatisticsStore)
  (w' : World) : Prop :=
  exists dropped, kept st w ++ entries = dropped ++ kept st' w' /\
    (prev_ st' = None -> prev_ st = None /\ dropped = []).

(** The previous statistics are other ones than the current ones. *)
Definition apart (st : StatisticsStore) : Prop := prev_ st <> Some (current_ st).

(** Existing statistics keep the number of their metrics, and others are new. *)
Definition same_metrics (w w' : World) : Prop :=
  (forall x s, heap w !! x = Some s -> exists s', heap w' !! x = Some s' /\ size (metrics s') = size (metrics s)) /\
  (forall x, is_Some (heap w' !! x) -> is_Some (heap w !! x) \/ (next w <= x)%nat) /\
  (next w <= next w')%nat.

#[export] Instance same_metrics_preorder : PreOrder same_metrics.
Proof.
  split; [intros w; split_and!; [intros x s H; eauto|by left|done]|].
  intros w1 w2 w3 (H1 & N1 & L1) (H2 & N2 & L2). split_and!; [| |lia].
  - intros x s (s2 & E2 & M2)%H1. destruct (H2 x s2 E2) as (s3 & E3 & M3). exists s3. split; [done|congruence].
  - intros x [Hx|Hx]%N2; [by apply N1|right; lia].
Qed.

Lemma keeps_same st w w' : kept st w' = kept st w -> keeps st w [] st w'.
Proof. intros E. exists []. by rewrite app_nil_r, E. Qed.

Lemma keeps_trans st w a st1 w1 b st2 w2 :
  keeps st w a st1 w1 -> keeps st1 w1 b st2 w2 -> keeps st w (a ++ b) st2 w2.
Proof.
  intros (d1 & E1 & P1) (d2 & E2 & P2). exists (d1 ++ d2).
  rewrite app_assoc, E1, <- app_assoc, E2, app_assoc. split; [done|].
  intros [H2 ->]%P2. by destruct (P1 H2) as [? ->].
Qed.

Lemma wrap_add_l w a b : wrap w (wrap w a + b) = wrap w (a + b).
Proof. apply Zplus_mod_idemp_l. Qed.

Lemma heap_update a f w x :
  heap (update a f w) !! x = if decide (x = a) then f <$> heap w !! a else heap w !! x.
Proof.
  cbn. case_decide as E; [subst; apply lookup_alter_eq|by apply lookup_alter_ne].
Qed.

Lemma logs_at_update a f w x s :
  heap w !! a = Some s -> logs_at (update a f w) x = if decide (x = a) then logs (f s) else logs_at w x.
Proof. intros E. unfold logs_at. rewrite heap_update. case_decide; [by rewrite E|done]. Qed.

Lemma bytes_of_snoc l e : bytes_of (l ++ [e]) = bytes_of l + zlen e.
Proof. unfold bytes_of. rewrite join_app, zlen_app. simpl. by rewrite app_nil_r. Qed.

(** An update of the statistics at [x] that moves its debt. *)
Lemma counted_update D D' f x s st w :
  counted D st w -> heap w !! x = Some s ->
  size_ (f s) = wrap 64 (total (f s) - D' x) -> (forall y, y <> x -> D' y = D y) ->
  counted D' st (update x f w).
Proof.
  intros [C1 C2 C3 C4] E Hf Hx. assert (x < next w)%nat by (apply C3; eauto). split.
  - intros y t. rewrite heap_update. destruct (decide (y = x)) as [->|Ey].
    + rewrite E. intros Ht. by simplify_eq/=.
    + intros Ht. by rewrite (C1 y t Ht), Hx.
  - rewrite heap_update. destruct (decide (current_ st = x)); [rewrite E; cbn; eauto|done].
  - intros y. rewrite heap_update. destruct (decide (y = x)) as [->|]; [|apply C3]. intros _.
    apply C3. eauto.
  - intros y Hy. cbn in Hy. rewrite Hx by lia. by apply C4.
Qed.

(** ** Rotation *)

Lemma Get_spec D st w :
  counted D st w -> apart st ->
  exists st' w', Get st w = Defined (current_ st', st', w') /\
    counted D st' w' /\ apart st' /\ same_metrics w w' /\
    statistics_size_limit_ st' = statistics_size_limit_ st /\
    keeps st w [] st' w'.
Proof.
  intros C A. pose proof C as [C1 [s Hs] C3 C4]. unfold Get, IsCurrentFull. rewrite Hs.
  destruct (statistics_size_limit_ st <=? size_ s).
  - eexists _, _. split; [reflexivity|].
    assert (heap w !! next w = None) as Hn.
    { destruct (heap w !! next w) eqn:E; [|done].
      assert (next w < next w)%nat by (apply C3; eauto). lia. }
    assert (current_ st <> next w) as Hne by (intros E; rewrite E in Hs; congruence).
    split_and!; cbn [Rotate make_shared current_ prev_ statistics_size_limit_ next heap]; try done; try lia.
    + split; cbn [heap next current_].
      * intros x t. rewrite lookup_insert. case_decide as E; [|apply C1].
        intros [= <-]. subst x. rewrite C4 by lia. reflexivity.
      * rewrite lookup_insert_eq. eauto.
      * intros x. rewrite lookup_insert. case_decide; [lia|]. intros Hx%C3. lia.
      * intros x Hx. apply C4. lia.
    + unfold apart. cbn. congruence.
    + split_and!; cbn [heap next].
      * intros x t Hx. exists t. split; [|done]. rewrite lookup_insert_ne; [done|congruence].
      * intros x. rewrite lookup_insert. case_decide; [right; lia|by left].
      * lia.
    + exists (match prev_ st with Some p => logs_at w p | None => [] end). split; [|done].
      rewrite app_nil_r. unfold kept. cbn [Rotate make_shared prev_ current_ heap]. f_equal.
      unfold logs_at. cbn [heap]. rewrite lookup_insert_ne, lookup_insert_eq by congruence.
      by rewrite app_nil_r.
  - exists st, w. split_and!; try done. by apply keeps_same.
Qed.

(** ** A log entry *)

Lemma update_id a f w : (forall s, heap w !! a = Some s -> f s = s) -> update a f w = w.
Proof.
  intros H. destruct w as [h n]. unfold update. cbn [heap next] in *. f_equal.
  apply map_eq. intros x. destruct (decide (x = a)) as [->|]; [|by rewrite lookup_alter_ne].
  rewrite lookup_alter_eq. destruct (h !! a) eqn:E; [|done]. cbn. by rewrite H.
Qed.

Lemma update_update a f g w : update a f (update a g w) = update a (fun s => f (g s)) w.
Proof. unfold update. cbn. by rewrite alter_alter_eq. Qed.

Lemma log_write_nil l w : log_write l [] w = w.
Proof.
  apply update_id. intros s _. destruct s as [lg m z]. unfold set_logs. cbn. f_equal.
  apply list_alter_id. intros e. apply app_nil_r.
Qed.

Lemma log_write_app l b c w : log_write l c (log_write l b w) = log_write l (b ++ c) w.
Proof.
  unfold log_write. rewrite update_update. unfold update. f_equal. apply alter_ext.
  intros s _. unfold set_logs. cbn. f_equal. rewrite list_alter_alter_eq.
  apply list_alter_ext; [|done]. intros e _. unfold vector_write. cbn. by rewrite app_assoc.
Qed.

(** The pieces of an entry are written behind each other. *)
Lemma log_writes l bs w : foldl (fun w b => log_write l b w) w bs = log_write l (mjoin bs) w.
Proof.
  revert w. induction bs as [|b bs IH]; intros w; cbn [foldl]; [by rewrite log_write_nil|].
  by rewrite IH, log_write_app.
Qed.

(** Opening, writing and closing a log stream. *)
Lemma log_event D st w e :
  counted D st w -> apart st ->
  exists st' w' l w1, log_stream st w = Defined (l, st', w1) /\
    close_log l (log_write l e w1) = Defined w' /\
    counted D st' w' /\ apart st' /\ same_metrics w w' /\
    statistics_size_limit_ st' = statistics_size_limit_ st /\
    keeps st w [e] st' w'.
Proof.
  intros C A. destruct (Get_spec D st w C A) as (st' & w0 & EG & C0 & A0 & M0 & Hl & K0).
  unfold log_stream. rewrite EG. pose proof C0 as [C1 [s Hs] C3 C4]. rewrite Hs.
  eexists st', _, _, _. split; [reflexivity|].
  set (l := {| log_statistics := current_ st'; log_size := _; log_entry := _ |}).
  assert (log_write l e (update (current_ st') (fun s => set_logs (logs s ++ [[]]) s) w0)
          = update (current_ st') (set_logs (logs s ++ [e])) w0) as ->.
  { unfold log_write. cbn [log_statistics log_entry l]. rewrite update_update. unfold update. f_equal.
    apply alter_ext. intros s' Hs'. rewrite Hs in Hs'. injection Hs' as <-. unfold set_logs. cbn. f_equal.
    replace (length (logs s)) with (length (logs s) + 0)%nat by lia. by rewrite alter_app_r. }
  unfold close_log. cbn [log_statistics log_size l]. rewrite heap_update, decide_True, Hs by done.
  cbn [fmap option_fmap option_map logs set_logs]. rewrite length_app. cbn [length].
  destruct (Nat.leb_spec (length (logs s) + 1) (length (logs s))); [lia|].
  replace (length (logs s) + 1 - length (logs s))%nat with 1%nat by lia.
  unfold UpdateSize_logs. cbn [sum_last logs set_logs]. rewrite back_snoc.
  split; [reflexivity|]. rewrite update_update.
  set (f := fun _ : Statistics => set_size _ _).
  assert (Hf : logs (f s) = logs s ++ [e] /\ metrics (f s) = metrics s /\
               size_ (f s) = wrap 64 (size_ s + zlen e)).
  { split_and!; try done. cbn. unfold wrap at 1 2. rewrite Z.add_0_l. apply Zplus_mod_idemp_r. }
  destruct Hf as (F1 & F2 & F3). split_and!.
  - apply (counted_update D D f (current_ st') s); auto.
    rewrite F3, (C1 _ s Hs), wrap_add_l. f_equal. unfold total. rewrite F1, F2, bytes_of_snoc. lia.
  - done.
  - etrans; [exact M0|]. split_and!; [| |done].
    + intros x t Hx. rewrite heap_update.
      destruct (decide (x = current_ st')) as [E|E]; [|eauto]. rewrite E, Hs in Hx. injection Hx as <-.
      exists (f s). split; [by rewrite Hs|done].
    + intros x. rewrite heap_update. destruct (decide (x = current_ st')) as [->|E]; left; eauto.
  - done.
  - apply (keeps_trans st w [] st' w0 [e]); [exact K0|]. exists []. split; [|done]. cbn. unfold kept.
    rewrite (logs_at_update _ f w0 (current_ st') s Hs), decide_True, F1 by done.
    replace (logs_at w0 (current_ st')) with (logs s) by (unfold logs_at; by rewrite Hs).
    rewrite <- app_assoc. f_equal. unfold apart in A0. destruct (prev_ st') as [p|] eqn:Ep; [|done].
    rewrite (logs_at_update _ f w0 p s Hs), decide_False by congruence. done.
Qed.

(** The entry an event makes. *)
Definition entry_of (c : TeleConfig) (e : event) : list bytes :=
  if IsAnyLogs c then [mjoin (pieces c e)] else [].

Lemma tele_logs_spec D c e st w :
  counted D st w -> apart st ->
  exists st' w', tele_logs c e st w = Defined (st', w') /\
    counted D st' w' /\ apart st' /\ same_metrics w w' /\
    statistics_size_limit_ st' = statistics_size_limit_ st /\
    keeps st w (entry_of c e) st' w'.
Proof.
  intros C A. unfold tele_logs, entry_of. destruct (IsAnyLogs c).
  - destruct (log_event D st w (mjoin (pieces c e)) C A) as (st' & w' & l & w1 & -> & E & H).
    exists st', w'. by rewrite log_writes, E.
  - exists st, w. split_and!; try done. by apply keeps_same.
Qed.

(** ** Metrics *)

(** The metric streams that are open, the innermost first. *)
Definition open_streams (sc : list Tele) : list MetricStream := omap tele_metric_stream sc.

(** The metrics of the statistics at [x], of which there are [n], made since each of
    its streams was opened. *)
Fixpoint owed (ms : list MetricStream) (x : nat) (n : Z) : Z :=
  match ms with
  | [] => 0
  | m :: ms => (if decide (metric_statistics m = x) then n - Z.of_nat (metric_size m) else 0) + owed ms x n
  end.

Fixpoint depth (ms : list MetricStream) (x : nat) : nat :=
  match ms with
  | [] => 0
  | m :: ms => (if decide (metric_statistics m = x) then 1 else 0) + depth ms x
  end.

Lemma owed_add ms x n g : owed ms x (n + g) = owed ms x n + g * Z.of_nat (depth ms x).
Proof. induction ms as [|m ms IH]; cbn [owed depth]; [lia|]. rewrite IH. case_decide; lia. Qed.

(** [again x] is how often a metric of the statistics at [x] was or will be counted
    again: for each further stream that was open when it was made. *)
Record scopes (ms : list MetricStream) (again : nat -> nat) (D : nat -> Z) (w : World) : Prop := {
  sc_open : Forall (fun m => exists s, heap w !! metric_statistics m = Some s /\
                                     (metric_size m <= size (metrics s))%nat) ms;
  sc_debt : forall x s, heap w !! x = Some s ->
    D x = sizeof_Metric * (owed ms x (Z.of_nat (size (metrics s))) - Z.of_nat (again x));
  sc_fresh : forall x, (next w <= x)%nat -> again x = 0%nat;
}.

(** The metrics of the statistics at [x], and how many a step made. *)
Definition metrics_in (w : World) (x : nat) : nat := from_option (fun s => size (metrics s)) 0%nat (heap w !! x).
Definition made (w w' : World) (x : nat) : nat := metrics_in w' x - metrics_in w x.

Lemma depth_alive ms again D w x : scopes ms again D w -> depth ms x <> 0%nat -> is_Some (heap w !! x).
Proof.
  intros [So _ _]. induction So as [|m ms (s & Hs & _) _ IH]; cbn [depth]; [done|].
  case_decide as E; [intros _; rewrite <- E; eauto|]. intros H. by apply IH.
Qed.

Lemma metrics_in_same w w' x : same_metrics w w' -> is_Some (heap w !! x) -> metrics_in w' x = metrics_in w x.
Proof. intros (K & _) [s Hs]. destruct (K x s Hs) as (t & Ht & M). unfold metrics_in. by rewrite Hs, Ht. Qed.

(** A step that makes no metric has no effect on the size. *)
Lemma made_none ms again D w w' x : scopes ms again D w -> same_metrics w w' -> (made w w' x * depth ms x = 0)%nat.
Proof.
  intros S M. destruct (decide (depth ms x = 0%nat)) as [->|Hd]; [lia|].
  unfold made. rewrite (metrics_in_same w w' x M); [lia|by eapply depth_alive].
Qed.

Lemma owed_none ms x n : Forall (fun m => metric_statistics m <> x) ms -> owed ms x n = 0.
Proof. induction 1 as [|m ms Hm _ IH]; cbn [owed]; [done|]. rewrite decide_False by done. lia. Qed.

Lemma scopes_grow ms again D st w w' :
  counted D st w -> scopes ms again D w -> same_metrics w w' -> scopes ms again D w'.
Proof.
  intros C [So Sd Sf] (K & N & L). split.
  - eapply list.Forall_impl; [exact So|]. intros m (s & (s' & E' & M')%K & Hs). exists s'. by rewrite M'.
  - intros x s' Hs'. destruct (N x ltac:(eauto)) as [[s Hs]|Hx].
    + destruct (K x s Hs) as (t & Ht & M). rewrite Hs' in Ht. injection Ht as <-. by rewrite M, (Sd x s Hs).
    + rewrite (ct_fresh _ _ _ C x Hx), Sf by done. rewrite owed_none; [done|].
      eapply list.Forall_impl; [exact So|]. intros m (s & Hs & _) Hm. rewrite Hm in Hs.
      assert (x < next w)%nat by (apply (ct_next _ _ _ C); eauto). lia.
  - intros x Hx. apply Sf. lia.
Qed.

(** A change of the metrics is not counted at once. *)
Lemma counted_set_metrics a D D' g st w s :
  counted D st w -> heap w !! a = Some s ->
  D' a = D a + sizeof_Metric * (Z.of_nat (size (g (metrics s))) - Z.of_nat (size (metrics s))) ->
  (forall y, y <> a -> D' y = D y) ->
  counted D' st (update a (fun s => set_metrics (g (metrics s)) s) w).
Proof.
  intros C Hs HD Hy. apply (counted_update D _ _ a s); [done..| |done].
  cbn [set_metrics size_]. rewrite (ct_size _ _ _ C a s Hs), HD.
  f_equal. unfold total. cbn [set_metrics metrics logs]. lia.
Qed.

Lemma kept_update x f st w : (forall s, logs (f s) = logs s) -> kept st (update x f w) = kept st w.
Proof.
  intros Hf. assert (forall y, logs_at (update x f w) y = logs_at w y) as E.
  { intros y. unfold logs_at. rewrite heap_update. destruct (decide (y = x)) as [->|]; [|done].
    destruct (heap w !! x); [apply Hf|done]. }
  unfold kept. rewrite E. destruct (prev_ st); [by rewrite E|done].
Qed.

Lemma size_alter_metric (f : Metric -> Metric) i (m : gmap Z Metric) : size (alter f i m) = size m.
Proof. by rewrite <- !size_dom, dom_alter_L. Qed.

Lemma same_metrics_update a f w :
  (forall s, heap w !! a = Some s -> size (metrics (f s)) = size (metrics s)) -> same_metrics w (update a f w).
Proof.
  intros Hf. split_and!; [| |done].
  - intros x s Hs. rewrite heap_update. case_decide as E; [subst|by exists s].
    rewrite Hs. exists (f s). split; [done|by apply Hf].
  - intros x. rewrite heap_update. case_decide as E; [subst|by left]. intros Hx. left. by apply fmap_is_Some in Hx.
Qed.

(** An operation of an open metric stream. *)
Lemma with_metric_spec (b : bool) f l D st w s :
  counted D st w -> heap w !! metric_statistics l = Some s ->
  let w' := if b then with_metric f l w else w in
  counted D st w' /\ kept st w' = kept st w /\ same_metrics w w'.
Proof.
  intros C Hs. destruct b; cbn zeta; [|done]. unfold with_metric. split_and!.
  - apply (counted_set_metrics _ D D (alter f (metric_index l)) st w s); [done..| |done].
    rewrite size_alter_metric. lia.
  - by apply kept_update.
  - apply same_metrics_update. intros t _. apply size_alter_metric.
Qed.

(** Opening a metric stream. *)
Lemma metric_stream_spec ms again D i st w :
  counted D st w -> apart st -> scopes ms again D w ->
  exists m st' w' D' again', metric_stream i st w = Defined (m, st', w') /\
    counted D' st' w' /\ apart st' /\ scopes (m :: ms) again' D' w' /\ keeps st w [] st' w' /\
    (forall x, again' x = again x + made w w' x * depth ms x)%nat.
Proof.
  intros C A S. unfold metric_stream. destruct (Get_spec D st w C A) as (st1 & w1 & -> & C1 & A1 & M1 & _ & K1).
  pose proof (scopes_grow _ _ _ _ _ _ C S M1) as [So Sd Sf]. pose proof (ct_current _ _ _ C1) as [s1 Hs1]. rewrite Hs1.
  set (x := current_ st1) in *. set (j := wrap 32 i). set (g := fun q : gmap Z Metric => <[j := default new_metric (q !! j)]> q).
  set (gain := (size (g (metrics s1)) - size (metrics s1))%nat).
  assert (size (g (metrics s1)) = size (metrics s1) + gain)%nat as Hg.
  { unfold gain, g. rewrite map_size_insert. destruct (metrics s1 !! j); cbn; lia. }
  eexists _, st1, _, (fun y => if decide (y = x) then D y + sizeof_Metric * Z.of_nat gain else D y),
    (fun y => if decide (y = x) then (again y + gain * depth ms x)%nat else again y).
  split; [reflexivity|]. change (update x _ w1) with (update x (fun s => set_metrics (g (metrics s)) s) w1).
  split_and!; [|done| |by (eapply keeps_trans with (a := []); [exact K1|]; apply keeps_same, kept_update)|].
  - apply (counted_set_metrics x D _ g st1 w1 s1 C1 Hs1); [|by intros y Hy; rewrite decide_False].
    rewrite decide_True by done. rewrite Hg. lia.
  - split.
    + assert (forall m s, heap w1 !! metric_statistics m = Some s -> (metric_size m <= size (metrics s))%nat ->
        exists s, heap (update x (fun s => set_metrics (g (metrics s)) s) w1) !! metric_statistics m = Some s /\
          (metric_size m <= size (metrics s))%nat) as Hm.
      { intros m s Hs Hl. rewrite heap_update. case_decide as E; [|by exists s]. rewrite <- E, Hs. eexists. split; [done|].
        cbn. rewrite E, Hs1 in Hs. injection Hs as <-. lia. }
      constructor; [|eapply list.Forall_impl; [exact So|]; intros m (s & Hs & Hl); by apply (Hm m s)].
      apply (Hm {| metric_statistics := x; metric_size := size (metrics s1); metric_index := j |} s1 Hs1). done.
    + intros y s. rewrite heap_update. cbn [owed metric_statistics metric_size]. case_decide as E.
      * subst y. rewrite Hs1. intros [= <-]. cbn [metrics set_metrics]. rewrite decide_True by done.
        rewrite (Sd x s1 Hs1), Hg. unfold sizeof_Metric. rewrite !Nat2Z.inj_add, owed_add, Nat2Z.inj_mul. nia.
      * intros Hs. rewrite decide_False by congruence. by rewrite (Sd y s Hs).
    + intros y Hy. cbn in Hy. assert (x < next w1)%nat by (apply (ct_next _ _ _ C1); eauto).
      rewrite decide_False by lia. by apply Sf.
  - intros y. destruct (decide (depth ms y = 0%nat)) as [H0|Hd]; [rewrite H0; case_decide as E; [rewrite <- E, H0|]; lia|].
    pose proof (depth_alive _ _ _ _ y S Hd) as Hy. unfold made. rewrite <- (metrics_in_same w w1 y M1 Hy).
    unfold metrics_in. rewrite heap_update. case_decide as E; [|rewrite Nat.sub_diag; lia].
    rewrite E, Hs1. cbn. f_equal.
Qed.

Lemma close_metric_spec m ms again D st w :
  counted D st w -> scopes (m :: ms) again D w ->
  exists w' D', close_metric m w = Defined w' /\ counted D' st w' /\ scopes ms again D' w' /\
    kept st w' = kept st w /\ same_metrics w w'.
Proof.
  intros C [So Sd Sf]. inversion So as [|? ? (s & Hs & Hl) So']; subst. unfold close_metric. rewrite Hs.
  set (x := metric_statistics m) in *. set (d := (size (metrics s) - metric_size m)%nat).
  set (D' := fun y => if decide (y = x) then D y - sizeof_Metric * Z.of_nat d else D y).
  assert (forall y t, heap w !! y = Some t ->
    D' y = sizeof_Metric * (owed ms y (Z.of_nat (size (metrics t))) - Z.of_nat (again y))) as Hd.
  { intros y t Ht. unfold D'. rewrite (Sd y t Ht). cbn [owed]. fold x. unfold sizeof_Metric.
    destruct (decide (y = x)) as [->|Hy]; [|rewrite decide_False by congruence; lia].
    rewrite decide_True by done. rewrite Hs in Ht. injection Ht as <-. lia. }
  destruct (Nat.leb_spec (size (metrics s)) (metric_size m)) as [Hle|Hlt].
  - assert (forall y, D' y = D y) as ED by (intros y; unfold D'; case_decide; unfold d; lia).
    exists w, D'. split_and!; [done| |by split|done|split_and!; [eauto|by left|done]].
    destruct C as [C1 C2 C3 C4]. split; [|done..|]; intros y; [intros t Ht; rewrite ED; by apply C1|rewrite ED; apply C4].
  - eexists _, D'. split; [reflexivity|].
    assert (same_metrics w (update x (UpdateSize_metrics d) w)) as M
      by (apply same_metrics_update; intros t _; reflexivity).
    split_and!; [| |by apply kept_update|done].
    + apply (counted_update D _ _ x s); [done..| |by intros y Hy; unfold D'; rewrite decide_False].
      cbn [UpdateSize_metrics set_size size_]. rewrite (ct_size _ _ _ C x s Hs), wrap_add_l. f_equal.
      unfold D', total. rewrite decide_True by done. cbn [logs metrics set_size UpdateSize_metrics]. unfold sizeof_Metric. lia.
    + destruct M as (K & N & _). split.
      * eapply list.Forall_impl; [exact So'|]. intros m' (s' & (t & Et & Mt)%K & Hl'). exists t. by rewrite Mt.
      * intros y t. rewrite heap_update. case_decide as E; [subst y; rewrite Hs; intros [= <-]; cbn [metrics]|].
        -- exact (Hd x s Hs).
        -- apply Hd.
      * done.
Qed.

(** ** Objects *)

Lemma Tele_new_spec sc again D c e st w :
  counted D st w -> apart st -> scopes (open_streams sc) again D w ->
  exists x st' w' D' again', Tele_new c e st w = Defined (x, st', w') /\
    counted D' st' w' /\ apart st' /\ scopes (open_streams (x :: sc)) again' D' w' /\
    keeps st w (entry_of c e) st' w' /\
    (forall y, again' y = again y + made w w' y * depth (open_streams sc) y)%nat.
Proof.
  intros C A S. unfold Tele_new. destruct (IsAnyMetrics c).
  - destruct (metric_stream_spec _ _ _ (index_ e) _ _ C A S) as (m & st1 & w1 & D1 & a1 & -> & C1 & A1 & S1 & K1 & F1).
    assert (exists s, heap w1 !! metric_statistics m = Some s) as [s Hs].
    { pose proof (sc_open _ _ _ _ S1) as H. inversion H as [|? ? (s & Hs & _)]; subst. by exists s. }
    destruct (with_metric_spec (count_metrics_ c) (add_count 1) m _ st1 w1 s C1 Hs) as (C2 & K2 & M2).
    set (w2 := if count_metrics_ c then _ else w1) in *.
    destruct (tele_logs_spec _ c e st1 w2 C2 A1) as (st3 & w3 & -> & C3 & A3 & M3 & _ & K3).
    eexists _, st3, w3, D1, a1. split_and!; [reflexivity|done|done| | |].
    + cbn. apply (scopes_grow _ _ _ st1 w2 _ C2); [|exact M3]. by apply (scopes_grow _ _ _ st1 w1 _ C1).
    + apply (keeps_trans st w [] st1 w1 (entry_of c e)); [exact K1|].
      apply (keeps_trans st1 w1 [] st1 w2 (entry_of c e)); [by apply keeps_same|exact K3].
    + intros y. rewrite F1. f_equal. assert (same_metrics w1 w3) as M by (by etrans).
      destruct (decide (depth (open_streams sc) y = 0%nat)) as [->|Hd]; [lia|]. f_equal. unfold made. f_equal.
      symmetry. apply metrics_in_same; [done|].
      apply (depth_alive _ _ _ _ y S1). cbn [depth]. lia.
  - destruct (tele_logs_spec _ c e st w C A) as (st3 & w3 & -> & C3 & A3 & M3 & _ & K3).
    eexists _, st3, w3, D, again. split_and!; [reflexivity|done|done| |done|].
    + cbn. by apply (scopes_grow _ _ _ st w _ C).
    + intros y. rewrite (made_none _ _ _ _ _ y S M3). lia.
Qed.

Lemma Tele_delete_spec x sc again D st w :
  counted D st w -> scopes (open_streams (x :: sc)) again D w ->
  exists w' D', Tele_delete x w = Defined w' /\ counted D' st w' /\ scopes (open_streams sc) again D' w' /\
    kept st w' = kept st w /\ same_metrics w w'.
Proof.
  intros C S. unfold Tele_delete. cbn in S. destruct (tele_metric_stream x) as [m|].
  2: { exists w, D. split_and!; try done. }
  assert (exists s, heap w !! metric_statistics m = Some s) as [s Hs].
  { pose proof (sc_open _ _ _ _ S) as H. inversion H as [|? ? (s & Hs & _)]; subst. by exists s. }
  destruct (with_metric_spec (time_metrics_ (config x)) (add_duration (wrap 32 (elapsed (given x)))) m _ st w s C Hs)
    as (C2 & K2 & M2).
  set (w2 := if time_metrics_ (config x) then _ else w) in *.
  destruct (close_metric_spec m (open_streams sc) again D st w2 C2) as (w3 & D3 & E & C3 & S3 & K3 & M3).
  { by apply (scopes_grow _ _ _ st w _ C). }
  exists w3, D3. split_and!; [exact E|done|done|congruence|by etrans].
Qed.

(** ** Runs *)

Definition entries_of (xs : list step) : list bytes :=
  xs ≫= fun x => match x with SOpen c e => entry_of c e | _ => [] end.

(** No object is made while another one is alive. *)
Fixpoint flat (alive : bool) (xs : list step) : Prop :=
  match xs with
  | [] => True
  | SOpen _ _ :: xs => alive = false /\ flat true xs
  | SClose :: xs => flat false xs
  | _ :: xs => flat alive xs
  end.

(** How often metrics are counted again in a run: each that is made, once for every
    stream of its statistics that is open by then. *)
Fixpoint counted_again (xs : list step) (sc : list Tele) (st : StatisticsStore) (w : World) (x : nat) : nat :=
  match xs with
  | [] => 0
  | s :: xs =>
      match exec s sc st w with
      | Defined (sc', st', w') => made w w' x * depth (open_streams sc) x + counted_again xs sc' st' w' x
      | Undefined => 0
      end
  end.

Lemma step_spec x sc again D st w :
  counted D st w -> apart st -> scopes (open_streams sc) again D w ->
  exists sc1 st1 w1 D1 again1, exec x sc st w = Defined (sc1, st1, w1) /\ counted D1 st1 w1 /\ apart st1 /\
    scopes (open_streams sc1) again1 D1 w1 /\ keeps st w (entries_of [x]) st1 w1 /\
    (forall y, again1 y = again y + made w w1 y * depth (open_streams sc) y)%nat /\
    (forall alive xs, flat alive (x :: xs) -> (length sc <= if alive then 1 else 0)%nat ->
      (forall y, made w w1 y * depth (open_streams sc) y = 0)%nat /\
      exists alive', flat alive' xs /\ (length sc1 <= if alive' then 1 else 0)%nat).
Proof.
  intros C A S.
  assert (forall w1, same_metrics w w1 ->
    (forall y, again y = again y + made w w1 y * depth (open_streams sc) y)%nat /\
    (forall y, made w w1 y * depth (open_streams sc) y = 0)%nat) as Hsame.
  { intros w1 M. split; intros y; rewrite (made_none _ _ _ _ _ y S M); lia. }
  destruct x as [|n|c e|]; cbn [exec].
  - destruct (Get_spec _ st w C A) as (st1 & w1 & -> & C1 & A1 & M1 & _ & K). destruct (Hsame w1 M1) as [H1 H2].
    exists sc, st1, w1, D, again. split_and!; try done; [by apply (scopes_grow _ _ _ st w _ C)|]. eauto.
  - destruct (Hsame w (reflexivity w)) as [H1 H2].
    exists sc, (SetSizeLimit n st), w, D, again. split_and!; try done; [by destruct C| |eauto].
    exists []. by rewrite app_nil_r.
  - destruct (Tele_new_spec sc again D c e st w C A S) as (x & st1 & w1 & D1 & a1 & -> & C1 & A1 & S1 & K & F).
    exists (x :: sc), st1, w1, D1, a1. split_and!; try done.
    + unfold entries_of. cbn. by rewrite app_nil_r.
    + intros alive xs [-> Hf] Hl. destruct sc; [|cbn in Hl; lia]. split; [intros y; cbn; lia|]. by exists true.
  - destruct sc as [|x sc].
    + destruct (Hsame w (reflexivity w)) as [H1 H2].
      exists [], st, w, D, again. split_and!; try done; [by apply keeps_same|]. intros alive xs Hf _. eauto.
    + destruct (Tele_delete_spec x sc again D st w C S) as (w1 & D1 & -> & C1 & S1 & K & M).
      destruct (Hsame w1 M) as [H1 H2].
      exists sc, st, w1, D1, again. split_and!; try done; [by apply keeps_same|].
      intros alive xs Hf Hl. split; [done|]. exists false. split; [done|]. destruct alive; cbn in Hl; lia.
Qed.

Lemma telemetry_run_spec xs sc again D st w :
  counted D st w -> apart st -> scopes (open_streams sc) again D w ->
  exists sc' st' w' D' again', run xs sc st w = Defined (sc', st', w') /\
    counted D' st' w' /\ apart st' /\ scopes (open_streams sc') again' D' w' /\
    keeps st w (entries_of xs) st' w' /\
    (forall y, again' y = again y + counted_again xs sc st w y)%nat /\
    (forall alive, flat alive xs -> (length sc <= if alive then 1 else 0)%nat ->
       forall y, counted_again xs sc st w y = 0%nat).
Proof.
  revert sc again D st w. induction xs as [|x xs IH]; intros sc again D st w C A S.
  { exists sc, st, w, D, again. split_and!; try done. by apply keeps_same. }
  destruct (step_spec x sc again D st w C A S) as (sc1 & st1 & w1 & D1 & a1 & E & C1 & A1 & S1 & K1 & G1 & F1).
  destruct (IH sc1 a1 D1 st1 w1 C1 A1 S1) as (sc' & st' & w' & D' & a' & E' & C' & A' & S' & K' & G' & F').
  exists sc', st', w', D', a'. cbn [run counted_again]. rewrite E, E'. split_and!; try done.
  - assert (entries_of (x :: xs) = entries_of [x] ++ entries_of xs) as ->
      by (unfold entries_of; cbn; by rewrite app_nil_r).
    by eapply keeps_trans.
  - intros y. rewrite G', G1. lia.
  - intros alive Hf Hl y. destruct (F1 alive xs Hf Hl) as (H1 & alive' & Hf' & Hl').
    rewrite (F' alive' Hf' Hl' y), H1. done.
Qed.
End StatisticsProperties.

(** ** Stream operators

    The counters and indices are [Packed<std::uint32_t, std::uint8_t, 250>]. *)
Module StatisticsCodec.
Import Statistics.

Definition PackedValue : Type := Z.

#[export] Typeclasses Opaque PackedValue.

Definition packed32_save (v : PackedValue) : bytes := Packed.Serialize 0 250 2 (wrap 32 v).

Definition packed32_load (v : PackedValue) (r : VectorReader) : PackedValue * VectorReader :=
  let '(_, v', r') := Packed.Deserialize 0 250 2 v r in (v', r').

#[export] Instance serial_packed32 : Serial PackedValue := {
  dflt := 0; save := packed32_save; load := packed32_load;
}.

Definition kUpper32 : Z := Packed.kUpper (Packed.limit 0 250 2).

#[export] Program Instance serial_packed32_ok : SerialOk PackedValue := {
  valid v := 0 <= v < kUpper32;
}.
Next Obligation.
  intros v pre post r Hv. cbn beta in Hv. unfold PackedValue in v.
  cbn [load save dflt serial_packed32]. unfold packed32_load, packed32_save.
  change kUpper32 with 1049835 in Hv. rewrite wrap_small by (unfold in_width; lia).
  rewrite Packed.Deserialize_Serialize.
  - unfold Packed.decoded. fold kUpper32. change kUpper32 with 1049835.
    by rewrite (proj2 (Z.ltb_lt _ _)) by lia.
  - apply config_packed_size; lia.
  - change (Packed.capacity 0 250 2) with 1050091. lia.
Qed.

(** [Metric] *)
Definition metric_fields (m : Metric) : PackedValue * PackedValue * PackedValue * PackedValue :=
  (invocations_count m, max_duration m, sum_duration m, min_duration m).

Definition make_metric (f : PackedValue * PackedValue * PackedValue * PackedValue) : Metric :=
  let '(a, b, c, d) := f in
  {| invocations_count := a; max_duration := b; sum_duration := c; min_duration := d |}.

#[export] Instance serial_metric : Serial Metric := serial_via metric_fields make_metric.

#[export] Instance serial_metric_ok : SerialOk Metric :=
  serial_via_ok metric_fields make_metric ltac:(by intros []) eq_refl.

(** [std::string] *)
Definition str : Type := list (uint 1).

(** [std::vector] of pairs. *)
Definition options : Type := list (PackedValue * uint 4).

#[export] Typeclasses Opaque options.

#[export] Instance serial_options : Serial options := {
  dflt := []; save := save_vector; load := load_vector;
}.

#[export] Program Instance serial_options_ok : SerialOk options := {
  valid l := zlen l < size_bound /\ Forall valid l;
}.
Next Obligation. intros l pre post r [? ?]. by apply load_vector_at. Qed.

(** [EnvStore] *)
Definition env_fields (v : EnvStore) : str * str * str * str * str * str * str * uint 1 * options :=
  (platform_type v, platform_version v, compiler v, compiler_version v, library_version v,
   api_version v, cpu_type v, endianness v, compile_options v).

Definition make_env (f : str * str * str * str * str * str * str * uint 1 * options) : EnvStore :=
  let '(a, b, c, d, e, f, g, h, i) := f in
  {| platform_type := a; platform_version := b; compiler := c; compiler_version := d;
     library_version := e; api_version := f; cpu_type := g; endianness := h; compile_options := i |}.

#[export] Instance serial_env : Serial EnvStore := serial_via env_fields make_env.

#[export] Instance serial_env_ok : SerialOk EnvStore :=
  serial_via_ok env_fields make_env ltac:(by intros []) eq_refl.

(** [std::list] of the entries, [std::map] of the metrics. *)
Definition log_list : Type := list (list (uint 1)).

#[export] Typeclasses Opaque log_list.

#[export] Instance serial_logs : Serial log_list := {
  dflt := []; save := save_vector; load := load_list;
}.

#[export] Program Instance serial_logs_ok : SerialOk log_list := {
  valid l := zlen l < size_bound /\ Forall valid l;
}.
Next Obligation. intros l pre post r [? ?]. by apply load_list_at. Qed.

Definition metric_map : Type := gmap Z Metric.

#[export] Typeclasses Opaque metric_map.

#[export] Instance serial_metrics : Serial metric_map := serial_map serial_packed32.

#[export] Program Instance serial_metrics_ok : SerialOk metric_map := {
  valid := valid_map serial_packed32 (SerialOk0 := serial_packed32_ok);
}.
Next Obligation. intros m pre post r Hv. by apply (load_zmap_at serial_packed32 (SerialOk0 := serial_packed32_ok)). Qed.

(** [Statistics::Serializator] *)
Definition statistics_fields (s : Statistics) : uint 8 * log_list * metric_map :=
  (size_ s, logs s, metrics s).

Definition make_statistics (f : uint 8 * log_list * metric_map) : Statistics :=
  let '(n, l, m) := f in {| logs := l; metrics := m; size_ := n |}.

#[export] Instance serial_statistics : Serial Statistics := serial_via statistics_fields make_statistics.

#[export] Instance serial_statistics_ok : SerialOk Statistics :=
  serial_via_ok statistics_fields make_statistics ltac:(by intros []) eq_refl.

(** [StatisticsStore::Serializator], writing and reading. *)
Definition save_store (st : StatisticsStore) (w : World) : outcome bytes :=
  let* prev := match prev_ st with
               | None => Defined None
               | Some p => match heap w !! p with Some s => Defined (Some s) | None => Undefined end
               end in
  match heap w !! current_ st with
  | None => Undefined
  | Some s =>
      Defined (save (statistics_size_limit_ st : uint 8) ++ save (env_store_ st) ++ save_ptr prev ++
               save_ptr (Some s))
  end.

(** A value that was read is allocated, otherwise the pointer stays. *)
Definition load_shared (old : option nat) (r : VectorReader) (w : World)
  : option nat * VectorReader * World :=
  let '(v, r) := load_ptr (T := Statistics) None r in
  match v with
  | Some s => let '(a, w) := make_shared s w in (Some a, r, w)
  | None => (old, r, w)
  end.

Definition load_store (st : StatisticsStore) (r : VectorReader) (w : World)
  : StatisticsStore * VectorReader * World :=
  let '(limit, r) := load (T := uint 8) (statistics_size_limit_ st) r in
  let '(env, r) := load (env_store_ st) r in
  let '(prev, r, w) := load_shared (prev_ st) r w in
  let '(current, r, w) := load_shared (Some (current_ st)) r w in
  ({| statistics_size_limit_ := limit; env_store_ := env; prev_ := prev;
      current_ := default (current_ st) current |}, r, w).

(** ** Environment ([EnvStream]) *)
Inductive env_record :=
| EPlatformType (s : bytes)
| ECompiler (s : bytes)
| ECompilerVersion (s : bytes)
| EOption (index value : Z)
| ELibraryVersion (s : bytes)
| EApiVersion (s : bytes)
| ECpuType (s : bytes)
| EEndianness (e : Z).

Definition EnvStream (x : env_record) (v : EnvStore) : EnvStore :=
  match x with
  | EPlatformType s =>
      {| platform_type := s; platform_version := platform_version v; compiler := compiler v;
         compiler_version := compiler_version v; library_version := library_version v;
         api_version := api_version v; cpu_type := cpu_type v; endianness := endianness v;
         compile_options := compile_options v |}
  | ECompiler s =>
      {| platform_type := platform_type v; platform_version := platform_version v; compiler := s;
         compiler_version := compiler_version v; library_version := library_version v;
         api_version := api_version v; cpu_type := cpu_type v; endianness := endianness v;
         compile_options := compile_options v |}
  | ECompilerVersion s =>
      {| platform_type := platform_type v; platform_version := platform_version v; compiler := compiler v;
         compiler_version := s; library_version := library_version v;
         api_version := api_version v; cpu_type := cpu_type v; endianness := endianness v;
         compile_options := compile_options v |}
  | EOption i x =>
      {| platform_type := platform_type v; platform_version := platform_version v; compiler := compiler v;
         compiler_version := compiler_version v; library_version := library_version v;
         api_version := api_version v; cpu_type := cpu_type v; endianness := endianness v;
         compile_options := compile_options v ++ [(wrap 32 i, wrap 32 x)] |}
  | ELibraryVersion s =>
      {| platform_type := platform_type v; platform_version := platform_version v; compiler := compiler v;
         compiler_version := compiler_version v; library_version := s;
         api_version := api_version v; cpu_type := cpu_type v; endianness := endianness v;
         compile_options := compile_options v |}
  | EApiVersion s =>
      {| platform_type := platform_type v; platform_version := platform_version v; compiler := compiler v;
         compiler_version := compiler_version v; library_version := library_version v;
         api_version := s; cpu_type := cpu_type v; endianness := endianness v;
         compile_options := compile_options v |}
  | ECpuType s =>
      {| platform_type := platform_type v; platform_version := platform_version v; compiler := compiler v;
         compiler_version := compiler_version v; library_version := library_version v;
         api_version := api_version v; cpu_type := s; endianness := endianness v;
         compile_options := compile_options v |}
  | EEndianness e =>
      {| platform_type := platform_type v; platform_version := platform_version v; compiler := compiler v;
         compiler_version := compiler_version v; library_version := library_version v;
         api_version := api_version v; cpu_type := cpu_type v; endianness := wrap 8 e;
         compile_options := compile_options v |}
  end.

(** The environment, a record of its own, is shared with the stream that writes
    it. *)
Definition env_stream (x : env_record) (st : StatisticsStore) : StatisticsStore :=
  {| statistics_size_limit_ := statistics_size_limit_ st; env_store_ := EnvStream x (env_store_ st);
     prev_ := prev_ st; current_ := current_ st |}.
End StatisticsCodec.

(** ** Properties *)
Module StatisticsClaims.
Import Statistics StatisticsProperties StatisticsCodec.

(** *** What holds of every metric *)
Section Invariant.
Context (P : Metric -> Prop) (P_new : P new_metric).
Context (P_count : forall n m, P m -> P (add_count n m)).
Context (P_duration : forall d m, 0 <= d -> P m -> P (add_duration d m)).

Definition metrics_ok (w : World) : Prop := forall x s, heap w !! x = Some s -> map_Forall (fun _ => P) (metrics s).

Lemma metrics_update x f w :
  metrics_ok w ->
  (forall s, map_Forall (fun _ => P) (metrics s) -> map_Forall (fun _ => P) (metrics (f s))) ->
  metrics_ok (update x f w).
Proof.
  intros H Hf y s. rewrite heap_update. destruct (decide (y = x)); [|apply H].
  destruct (heap w !! x) as [t|] eqn:E; intros ?; simplify_eq/=. eapply Hf, H, E.
Qed.

Lemma metrics_Get st w a st' w' : Get st w = Defined (a, st', w') -> metrics_ok w -> metrics_ok w'.
Proof.
  unfold Get, IsCurrentFull. destruct (heap w !! current_ st) as [s|]; [|done]. cbn.
  destruct (_ <=? _); cbn; intros [= _ _ <-] H; [|done].
  intros x t. cbn. rewrite lookup_insert. case_decide; [|apply H]. intros [= <-]. apply map_Forall_empty.
Qed.

Lemma metrics_logs c e st w st' w' :
  tele_logs c e st w = Defined (st', w') -> metrics_ok w -> metrics_ok w'.
Proof.
  unfold tele_logs, log_stream. destruct (IsAnyLogs c); [|by intros [= _ <-]].
  destruct (Get st w) as [[[a st1] w1]|] eqn:E; [|done]. cbn.
  destruct (heap w1 !! a) as [s|]; [|done]. cbn. rewrite log_writes. intros Hc H.
  pose proof (metrics_Get _ _ _ _ _ E H) as H1.
  set (l := {| log_statistics := a; log_size := _; log_entry := _ |}) in *.
  assert (metrics_ok (log_write l (mjoin (pieces c e)) (update a (fun s => set_logs (logs s ++ [[]]) s) w1)))
    as H2 by (by repeat apply metrics_update).
  set (w2 := log_write l _ _) in *. unfold close_log in Hc.
  destruct (heap w2 !! log_statistics l) as [t|] eqn:Et; [|done]. cbn in Hc.
  destruct (_ <=? _)%nat; [by simplify_eq/=|]. unfold UpdateSize_logs in Hc.
  destruct (sum_last _ _); [|done]. cbn in Hc. injection Hc as _ <-.
  apply metrics_update; [done|]. intros _ _. exact (H2 _ _ Et).
Qed.

Lemma metrics_with b f l w :
  (forall m, P m -> P (f m)) -> metrics_ok w -> metrics_ok (if b : bool then with_metric f l w else w).
Proof.
  intros Hf H. destruct b; [|done]. apply metrics_update; [done|]. intros s Hs i m.
  cbn. rewrite lookup_alter. case_decide; [|apply Hs].
  destruct (metrics s !! metric_index l) eqn:E; intros ?; simplify_eq/=. eapply Hf, Hs, E.
Qed.

Lemma metrics_new c e st w x st' w' : Tele_new c e st w = Defined (x, st', w') -> metrics_ok w -> metrics_ok w'.
Proof.
  unfold Tele_new. destruct (IsAnyMetrics c).
  2: { destruct (tele_logs c e st w) as [[st1 w1]|] eqn:E; [|done]. intros [= <- <- <-]. by apply (metrics_logs _ _ _ _ _ _ E). }
  unfold metric_stream.
  destruct (Get st w) as [[[a st1] w1]|] eqn:E; [|done]. cbn.
  destruct (heap w1 !! a) as [s|]; [|done]. cbn. intros Ht H.
  pose proof (metrics_Get _ _ _ _ _ E H) as H1.
  set (l := {| metric_statistics := a; metric_size := _; metric_index := _ |}) in *.
  match type of Ht with context[tele_logs _ _ _ ?w2] => set (w3 := w2) in * end.
  assert (metrics_ok w3) as H3.
  { apply metrics_with; [apply P_count|]. apply metrics_update; [done|]. intros t Hi.
    apply map_Forall_insert_2; [|done]. destruct (metrics t !! _) eqn:Ei; [exact (Hi _ _ Ei)|done]. }
  destruct (tele_logs c e st1 w3) as [[st4 w4]|] eqn:E4; [|done]. injection Ht as <- <- <-.
  exact (metrics_logs _ _ _ _ _ _ E4 H3).
Qed.

Lemma metrics_delete x w w' : Tele_delete x w = Defined w' -> metrics_ok w -> metrics_ok w'.
Proof.
  unfold Tele_delete. destruct (tele_metric_stream x) as [l|]; [|by intros [= <-]]. intros Ht H.
  match type of Ht with context[close_metric _ ?w2] => set (w5 := w2) in * end.
  assert (metrics_ok w5) as H5.
  { apply metrics_with; [|done]. intros m. apply P_duration. by apply in_width_wrap. }
  unfold close_metric in Ht. destruct (heap w5 !! _) as [t|]; [|done]. cbn in Ht.
  destruct (_ <=? _)%nat; simplify_eq/=; [done|]. by apply metrics_update.
Qed.

Lemma metrics_run xs sc st w sc' st' w' :
  run xs sc st w = Defined (sc', st', w') -> metrics_ok w -> metrics_ok w'.
Proof.
  revert sc st w. induction xs as [|x xs IH]; intros sc st w; cbn [run]; [by intros [= _ _ <-]|].
  destruct (exec x sc st w) as [[[sc1 st1] w1]|] eqn:E; [|done]. cbn. intros Hr H. apply (IH _ _ _ Hr).
  destruct x as [|n|c e|]; cbn [exec] in E.
  - destruct (Get st w) as [[[a st2] w2]|] eqn:G; simplify_eq/=. by apply (metrics_Get _ _ _ _ _ G).
  - by simplify_eq/=.
  - destruct (Tele_new c e st w) as [[[y st2] w2]|] eqn:G; simplify_eq/=. by apply (metrics_new _ _ _ _ _ _ _ G).
  - destruct sc as [|y sc]; [by simplify_eq/=|].
    destruct (Tele_delete y w) as [w2|] eqn:G; simplify_eq/=. by apply (metrics_delete _ _ _ G).
Qed.
End Invariant.

(** *** Round trip of the store *)

Lemma load_shared_at (v : option Statistics) old pre post r w :
  (forall s, v = Some s -> valid s) ->
  load_shared old (at_pos pre (save_ptr v) post r) w =
  match v with
  | Some s => (Some (next w), past pre (save_ptr v) post r, (make_shared s w).2)
  | None => (old, past pre (save_ptr v) post r, w)
  end.
Proof. intros Hv. unfold load_shared. rewrite load_ptr_at by done. by destruct v. Qed.

(** The contents of the store. *)
Definition statistics_at (w : World) (a : nat) : option Statistics := heap w !! a.

Record storable (st : StatisticsStore) (w : World) : Prop := {
  sb_limit : valid (statistics_size_limit_ st : uint 8);
  sb_env : valid (env_store_ st);
  sb_prev : forall p, prev_ st = Some p -> exists s, heap w !! p = Some s /\ valid s;
  sb_current : exists s, heap w !! current_ st = Some s /\ valid s;
}.

Lemma dflt_env : dflt = new_env.
Proof. reflexivity. Qed.

Lemma new_run xs :
  let '(st0, w0) := new_store empty_world in
  exists sc st w D again, run xs [] st0 w0 = Defined (sc, st, w) /\ counted D st w /\
    scopes (open_streams sc) again D w /\ keeps st0 w0 (entries_of xs) st w /\
    (forall y, again y = counted_again xs [] st0 w0 y) /\
    (flat false xs -> forall y, counted_again xs [] st0 w0 y = 0%nat).
Proof.
  cbn. match goal with |- context[run xs _ ?s ?v] => set (st0 := s); set (w0 := v) end.
  assert (counted (fun _ => 0) st0 w0) as C.
  { split; cbn; [| | |done].
    - intros x s. rewrite lookup_insert. case_decide; [|by rewrite lookup_empty].
      intros [= <-]. subst. reflexivity.
    - rewrite lookup_insert_eq. eauto.
    - intros x. rewrite lookup_insert. case_decide; [lia|]. rewrite lookup_empty. by intros []. }
  destruct (telemetry_run_spec xs [] (fun _ => 0%nat) _ st0 w0 C)
    as (sc & st & w & D & a & E & C' & _ & S & K & G & F); [done|by split|].
  exists sc, st, w, D, a. split_and!; try done. intros Hf. by apply (F false Hf).
Qed.

(** C36: every run of telemetry objects, nested in any way, from a new store succeeds,
    and the entries that are kept are the most recent ones, in order: all that were
    logged until the first rotation, a suffix of them afterwards.  The size of each
    [Statistics] is that of its entries and metrics (modulo 2^64), without the
    metrics its open objects still have to count, and with every metric once more
    for each further object that was alive when it was made ([counted_again]): none
    when objects are not nested. *)
Theorem statistics_keep_recent xs :
  let '(st0, w0) := new_store empty_world in
  exists sc st w dropped,
    run xs [] st0 w0 = Defined (sc, st, w) /\
    (forall x s, heap w !! x = Some s ->
       size_ s = wrap 64 (total s + sizeof_Metric *
         (Z.of_nat (counted_again xs [] st0 w0 x) - owed (open_streams sc) x (Z.of_nat (size (metrics s)))))) /\
    (flat false xs -> forall x, counted_again xs [] st0 w0 x = 0%nat) /\
    entries_of xs = dropped ++ kept st w /\ (prev_ st = None -> dropped = []).
Proof.
  pose proof (new_run xs) as H. cbn -[counted_again] in *.
  destruct H as (sc & st & w & D & a & E & C & S & (dr & K & Hp) & G & F).
  exists sc, st, w, dr. split_and!; [done| |done|exact K|by intros []%Hp].
  intros x s Hs. rewrite (ct_size _ _ _ C x s Hs), (sc_debt _ _ _ _ S x s Hs), <- G. f_equal. lia.
Qed.

(** Two objects with new metrics in one scope: the metric of the inner one is counted
    by both, so 32 bytes are counted as 48. *)
Definition count_only : TeleConfig :=
  {| count_metrics_ := true; time_metrics_ := false; index_logs_ := false; start_time_logs_ := false;
     level_module_logs_ := false; location_logs_ := false; name_logs_ := false; blob_logs_ := false |}.

Definition sample_event (i : Z) : event :=
  {| index_ := i; level := 0; module := 0; start := 0; file := []; line := 0; name := []; format := None;
     elapsed := 0 |}.

Theorem nested_metrics_counted_again :
  exists st w s,
    run [SOpen count_only (sample_event 1); SOpen count_only (sample_event 2); SClose; SClose] []
      (new_store empty_world).1 (new_store empty_world).2 = Defined ([], st, w) /\
    heap w !! current_ st = Some s /\ total s = 32 /\ size_ s = 48.
Proof. eexists _, _, _. split; [vm_compute; reflexivity|]. by vm_compute. Qed.

(** A metric starts with the minimum 0, so no call ever records a shortest
    duration: in every run the minimum of every metric is 0. *)
Theorem min_duration_stays_zero xs :
  let '(st0, w0) := new_store empty_world in
  exists sc st w, run xs [] st0 w0 = Defined (sc, st, w) /\
    forall x s i m, heap w !! x = Some s -> metrics s !! i = Some m -> min_duration m = 0.
Proof.
  pose proof (new_run xs) as H. cbn in *. destruct H as (sc & st & w & D & a & E & _).
  exists sc, st, w. split; [done|]. intros x s i m Hs Hm.
  eapply (metrics_run (fun m => min_duration m = 0)) in E; [exact (E _ _ Hs _ _ Hm)|done|done| |].
  - intros d t Hd Ht. cbn. rewrite Ht. lia.
  - intros y t. cbn. rewrite lookup_insert. case_decide; [|by rewrite lookup_empty].
    intros [= <-]. apply map_Forall_empty.
Qed.

(** The contents of a pointer that may be null. *)
Definition pointee (w : World) (p : option nat) : option Statistics := p ≫= fun a => heap w !! a.

Lemma load_store_at st0 limit env v s pre post r w bs :
  env_store_ st0 = new_env -> valid (limit : uint 8) -> valid env ->
  (forall t, v = Some t -> valid t) -> valid s ->
  bs = save (limit : uint 8) ++ save env ++ save_ptr v ++ save_ptr (Some s) ->
  exists st' w', load_store st0 (at_pos pre bs post r) w = (st', past pre bs post r, w') /\
    statistics_size_limit_ st' = limit /\ env_store_ st' = env /\
    heap w' !! current_ st' = Some s /\
    match v with Some t => pointee w' (prev_ st') = Some t | None => prev_ st' = prev_ st0 end.
Proof.
  intros E0 Hl He Hv Hs ->. unfold load_store. rewrite E0, <- dflt_env.
  rewrite at_pos_app. cbn [load save serial_uint].
  rewrite load_uint_at by done. rewrite past_at_pos, at_pos_app, (load_save env) by done.
  rewrite past_at_pos, at_pos_app, load_shared_at by done.
  destruct v as [t|]; cbn [make_shared snd]; rewrite past_at_pos, load_shared_at by (by intros ? [= <-]);
    cbn [make_shared snd default statistics_size_limit_ env_store_ current_ prev_ heap next];
    (eexists _, _; split; [rewrite !past_app; reflexivity|]; split_and!; try done;
     cbn [statistics_size_limit_ env_store_ current_ prev_ heap next pointee]; rewrite ?lookup_insert_eq;
     try done).
  cbn. rewrite lookup_insert_ne, lookup_insert_eq by lia. done.
Qed.

(** A store whose counters are below the limit of their packed integers is
    read back from what it writes, into a new store, with the same limit,
    environment and statistics. *)
Theorem statistics_store_roundtrip st w w1 pre post r :
  storable st w ->
  exists bs, save_store st w = Defined bs /\
    let '(st0, w0) := new_store w1 in
    exists st' w', load_store st0 (at_pos pre bs post r) w0 = (st', past pre bs post r, w') /\
    statistics_size_limit_ st' = statistics_size_limit_ st /\ env_store_ st' = env_store_ st /\
    heap w' !! current_ st' = heap w !! current_ st /\
    pointee w' (prev_ st') = pointee w (prev_ st).
Proof.
  intros [Hl He Hp (s & Hs & Vs)]. unfold save_store.
  destruct (prev_ st) as [p|].
  - destruct (Hp p eq_refl) as (t & Ht & Vt). cbn [pointee mbind option_bind].
    rewrite Ht, Hs. eexists. split; [reflexivity|]. cbn [new_store make_shared].
    eapply (load_store_at _ _ _ (Some t)); try done. by intros ? [= <-].
  - rewrite Hs. eexists. split; [reflexivity|]. cbn [new_store make_shared].
    edestruct (load_store_at) with (v := @None Statistics) as (st' & w' & E & H1 & H2 & H3 & H4);
      [..|exists st', w'; rewrite E, H1, H2, H3; split_and!; try done; by rewrite H4]; done.
Qed.

(** *** Witnesses and what goes wrong *)

Definition sample_metric : Metric :=
  {| invocations_count := 2; max_duration := 1500; sum_duration := 2900; min_duration := 0 |}.

Definition sample_statistics : Statistics :=
  {| logs := [[3; 2; 5]; []]; metrics := {[3 := sample_metric]}; size_ := 19 |}.

Definition sample_world : World := {| heap := {[4%nat := sample_statistics]}; next := 5 |}.

Definition sample_store : StatisticsStore :=
  {| statistics_size_limit_ := 100; env_store_ := new_env; prev_ := Some 4%nat; current_ := 4%nat |}.

Lemma sample_valid : valid sample_statistics.
Proof.
  assert (valid ([[3; 2; 5]; []] : log_list)) as V.
  { split; [by vm_compute|]. apply Forall_cons_2; [|apply Forall_cons_2; [|apply Forall_nil_2]];
      (split; [by vm_compute|]); [|apply Forall_nil_2].
    apply Forall_cons_2; [by vm_compute|]. apply Forall_cons_2; [by vm_compute|].
    apply Forall_cons_2; [by vm_compute|apply Forall_nil_2]. }
  split; [split; [by vm_compute|exact V]|]. split; [by vm_compute|].
  intros k v Hk. change (({[3 := sample_metric]} : gmap Z Metric) !! k = Some v) in Hk.
  apply lookup_singleton_Some in Hk as [<- <-]. by vm_compute.
Qed.

Lemma sample_storable : storable sample_store sample_world.
Proof.
  assert (valid ([] : str)) as V by (split; [by vm_compute|apply Forall_nil_2]).
  split.
  - by vm_compute.
  - refine (conj (conj (conj (conj (conj (conj (conj (conj V V) V) V) V) V) V) _) _); [by vm_compute|].
    split; [by vm_compute|apply Forall_nil_2].
  - intros p [= <-]. exists sample_statistics. split; [done|apply sample_valid].
  - exists sample_statistics. split; [done|apply sample_valid].
Qed.

Lemma statistics_store_roundtrip_witness :
  exists bs, save_store sample_store sample_world = Defined bs /\
    let '(st0, w0) := new_store empty_world in
    exists st' w', load_store st0 (at_pos [] bs [1] kNo) w0 = (st', past [] bs [1] kNo, w') /\
    heap w' !! current_ st' = Some sample_statistics /\
    pointee w' (prev_ st') = Some sample_statistics.
Proof.
  destruct (statistics_store_roundtrip sample_store sample_world empty_world [] [1] kNo sample_storable)
    as (bs & E & st' & w' & L & _ & _ & H1 & H2).
  exists bs. split; [exact E|]. exists st', w'. split; [exact L|]. split; [exact H1|exact H2].
Defined.

(** *** Values above the limit *)

Lemma load_uint_range n d o r :
  byte_list d ->
  exists v o' r', load_uint n 0 (Reader d o r) = (v, Reader d o' r') /\ 0 <= v < 2 ^ (8 * Z.of_nat n).
Proof.
  intros Hd. unfold load_uint, read. cbn [data_ offset_]. destruct (Nat.ltb_spec (length d) (o + n)).
  - eexists _, _, _. split; [reflexivity|]. pose proof (Z.pow_pos_nonneg 2 (8 * Z.of_nat n)). lia.
  - eexists _, _, _. split; [reflexivity|].
    pose proof (le_val_range _ (Packed.byte_list_sub o n d Hd)) as R. unfold zlen in R.
    by rewrite length_sub in R.
Qed.

Lemma packed32_load_range d o r : byte_list d -> (packed32_load 0 (Reader d o r)).1 < kUpper32.
Proof.
  intros Hd. unfold packed32_load. change kUpper32 with 1049835.
  cbn [Packed.Deserialize Nat.add]. change (Packed.range_bytes 0) with 1%nat.
  change (Packed.range_bytes 1) with 2%nat.
  change (Packed.kUpper (Packed.limit 0 250 0)) with 251.
  change (Packed.kUpper (Packed.limit 0 250 1)) with 1515.
  change (Packed.kUpper (Packed.limit 0 250 2)) with 1049835.
  change (Packed.range_width 0) with 8. change (Packed.range_width 1) with 16.
  change (Packed.range_width 2) with 32. change (0 mod 2 ^ 8) with 0. change (0 mod 2 ^ 16) with 0.
  destruct (load_uint_range 1 d o r Hd) as (v0 & o0 & r0 & -> & H0). change (8 * Z.of_nat 1) with 8 in H0.
  destruct (data_was_read _); [|cbn [fst]; lia]. zcase; [|cbn [fst]; lia].
  destruct (load_uint_range 1 d o0 r0 Hd) as (v1 & o1 & r1 & -> & H1). change (8 * Z.of_nat 1) with 8 in H1.
  destruct (data_was_read _); [|cbn [fst]; lia].
  rewrite !wrap_small by (unfold in_width; rewrite ?wrap_small by (unfold in_width; lia); lia).
  zcase; [|cbn [fst]; lia].
  destruct (load_uint_range 2 d o1 r1 Hd) as (v2 & o2 & r2 & -> & H2). change (8 * Z.of_nat 2) with 16 in H2.
  rewrite (wrap_small 16 (_ - 1515)) by (unfold in_width; lia).
  destruct (data_was_read _); [|cbn [fst]; lia].
  rewrite (wrap_small 32 (_ + 1515)) by (unfold in_width; lia).
  zcase; cbn [fst]; rewrite ?wrap_small by (unfold in_width; lia); lia.
Qed.

(** A counter or a duration of a metric from 1049835 on (about a millisecond, in
    nanoseconds) is never read back from what is written for it. *)
Theorem long_durations_lost v pre post r :
  kUpper32 <= v < 2 ^ 32 -> byte_list pre -> byte_list post ->
  (load (T := PackedValue) dflt (at_pos pre (save (v : PackedValue)) post r)).1 <> v.
Proof.
  intros Hv Hp Hq. cbn [load save dflt serial_packed32]. unfold at_pos.
  assert (forall d o r', byte_list d -> (packed32_load 0 (Reader d o r')).1 <> v) as H.
  { intros d o r' Hd. pose proof (packed32_load_range d o r' Hd). lia. }
  apply H. repeat apply Forall_app_2; try done. apply Packed.Serialize_bytes.
Qed.

Lemma long_durations_lost_witness :
  load (T := PackedValue) dflt (at_pos [] (save (2000000 : PackedValue)) [] kNo)
    = (0, Reader [0; 14; 149; 126] 1 kYes) /\
  (load (T := PackedValue) dflt (at_pos [] (save (2000000 : PackedValue)) [] kNo)).1 <> 2000000.
Proof.
  split; [vm_compute; reflexivity|].
  apply (long_durations_lost 2000000 [] [] kNo); [by vm_compute|constructor|constructor].
Defined.

(** *** Sizes that are not counted *)

(** Two log streams that are open at once: the one closed last counts the last
    entry for each of the two. *)
Theorem nested_logs_miscounted s l a b :
  logs s = l ++ [a; b] ->
  UpdateSize_logs 2 s = Defined (set_size (size_ s + 2 * zlen b) s).
Proof.
  intros E. unfold UpdateSize_logs. rewrite E. replace (l ++ [a; b]) with ((l ++ [a]) ++ [b]) by
    (by rewrite <- app_assoc).
  cbn [sum_last]. rewrite back_snoc. cbn. unfold set_size, wrap. do 2 f_equal.
  rewrite Zplus_mod_idemp_r, Z.add_0_l, (Z.add_comm (_ mod _) (zlen b)), Z.add_assoc, Zplus_mod_idemp_r.
  f_equal. lia.
Qed.

Lemma nested_logs_miscounted_witness :
  UpdateSize_logs 2 (set_logs [[1; 2; 3; 4; 5]; [1]] new_statistics)
  = Defined (set_size (0 + 2 * zlen [1]) (set_logs [[1; 2; 3; 4; 5]; [1]] new_statistics)) /\
  total (set_logs [[1; 2; 3; 4; 5]; [1]] new_statistics) = 6.
Proof.
  split; [|by vm_compute].
  exact (nested_logs_miscounted (set_logs [[1; 2; 3; 4; 5]; [1]] new_statistics) [] [1; 2; 3; 4; 5] [1] eq_refl).
Defined.

(** Merged entries do not count for the size, and the previous statistics of the
    newer store are shared with it from then on. *)
Theorem merge_not_counted newer st w s other :
  heap w !! current_ st = Some s -> heap w !! current_ newer = Some other ->
  size_ s < statistics_size_limit_ st ->
  exists st' w' s', Merge newer st w = Defined (st', w') /\
    heap w' !! current_ st' = Some s' /\ logs s' = logs s ++ logs other /\ size_ s' = size_ s /\
    (forall p, prev_ newer = Some p -> prev_ st' = Some p).
Proof.
  intros Hs Ho Hl. unfold Merge, Get, IsCurrentFull. rewrite Hs, Ho.
  destruct (Z.leb_spec (statistics_size_limit_ st) (size_ s)); [lia|]. cbn [current_]. rewrite Ho.
  eexists _, _, _. split; [reflexivity|]. cbn [current_]. rewrite heap_update, decide_True, Hs by done.
  split_and!; [reflexivity..|]. by intros p ->.
Qed.

Lemma merge_not_counted_witness :
  exists st' w' s', Merge sample_store (new_store sample_world).1 (new_store sample_world).2 = Defined (st', w') /\
    heap w' !! current_ st' = Some s' /\ logs s' = [[3; 2; 5]; []] /\ size_ s' = 0 /\
    prev_ st' = Some 4%nat.
Proof.
  destruct (merge_not_counted sample_store (new_store sample_world).1 (new_store sample_world).2
              new_statistics sample_statistics) as (st' & w' & s' & E & H1 & H2 & H3 & H4);
    [by vm_compute..|].
  exists st', w', s'. split_and!; [exact E|exact H1|exact H2|exact H3|by apply H4].
Defined.
End StatisticsClaims.
