(* ===== verification/WireTypes.v ===== *)
(** * Types of the wire format

    [variant_type.h], [crypto/key.h], [crypto/sign.h], [crypto/signed_key.h],
    [uid.h], [address.*] and [methods/server_descriptor.h]: tagged variants, keys
    and signatures in every configuration of the crypto libraries, identifiers,
    addresses with their order and text, and the descriptors of servers, all with
    their stream operators.

    A variant writes the index of its alternative and the alternative.  The
    libraries' sizes of keys and signatures are parameters.  An index without an
    alternative fails an [assert]; what is modelled is the order 0 returned
    after it. *)

From S2P Require Import Prelude MStream PackedInt Text ServerList.
Import PackedSize Cloud.

(** ** Arrays of bytes *)

(** [std::array<std::uint8_t, n>] *)
Definition array (n : nat) : Type := list Z.

#[export] Typeclasses Opaque array.

#[export] Instance serial_array n : Serial (array n) := {
  dflt := replicate n 0; save := scalar_image 1; load := load_scalar_array 1;
}.

Definition array_ok (n : nat) (v : bytes) : Prop := length v = n /\ byte_list v.

Lemma load_array_at n (v old : array n) pre post r :
  array_ok n v -> length old = n -> n <> O \/ r = kYes ->
  load old (at_pos pre (save v) post r) = (v, past pre (save v) post r).
Proof.
  intros [Hl Hb] Ho Hr. apply load_scalar_array_at; [congruence| |done].
  destruct Hr as [Hn|]; [left|by right]. intros E. apply (f_equal length) in E.
  rewrite length_scalar_image in E. simpl in E. lia.
Qed.

#[export] Program Instance serial_array_ok n : SerialOk (array (S n)) := { valid := array_ok (S n) }.
Next Obligation. intros n v pre post r Hv. apply load_array_at; [done|apply length_replicate|by left]. Qed.

(** [Uid] *)
Definition kSize : nat := 16.
Abbreviation Uid := (array kSize).

(** [std::array]'s operators: lexicographic. *)
Fixpoint lexicographical_compare (a b : bytes) : bool :=
  match a, b with
  | _, [] => false
  | [], _ :: _ => true
  | x :: a, y :: b => if x <? y then true else if y <? x then false else lexicographical_compare a b
  end.

(** ** Variants *)
Module Variant.
Section VariantType.
(** [order] is the index of the [std::variant]. *)
Context {A : Type} (order : A -> nat) (save_alternative : A -> bytes).
Context (LoadElement : nat -> VectorReader -> option (A * VectorReader)).
Context (OrderToIndex : nat -> Z) (IndexToOrder : Z -> nat).

Definition variant_save (v : A) : bytes :=
  save (OrderToIndex (order v) : uint 1) ++ save_alternative v.

Definition variant_load (old : A) (r : VectorReader) : A * VectorReader :=
  let '(index, r) := load_uint 1 0 r in
  match LoadElement (IndexToOrder index) r with
  | Some vr => vr
  | None => (old, r)
  end.

Lemma variant_load_at v old pre post r :
  in_width 8 (OrderToIndex (order v)) -> IndexToOrder (OrderToIndex (order v)) = order v ->
  (forall pre, LoadElement (order v) (at_pos pre (save_alternative v) post kYes)
               = Some (v, past pre (save_alternative v) post kYes)) ->
  variant_load old (at_pos pre (variant_save v) post r) = (v, past pre (variant_save v) post r).
Proof.
  intros Hw Ho Hl. unfold variant_load, variant_save. cbn [save serial_uint].
  rewrite at_pos_app, load_uint_at by done. rewrite past_at_pos, Ho.
  rewrite yes_if_nonempty by (by apply le_bytes_nonempty). rewrite Hl. f_equal.
  rewrite <- past_app. by rewrite yes_if_nonempty by (by apply le_bytes_nonempty).
Qed.
End VariantType.
End Variant.

(** ** Keys and signatures *)
Module Keys.
Import Variant.

(** The configuration of the crypto libraries; [None] is [AE_NONE]. *)
Inductive crypto_async := AE_SODIUM_BOX_SEAL | AE_HYDRO_CRYPTO_PK.
Inductive crypto_sync := AE_CHACHA20_POLY1305 | AE_HYDRO_CRYPTO_SK.
Inductive signature := AE_ED25519 | AE_HYDRO_SIGNATURE.

Inductive CryptoKeyType :=
  | kSodiumCurvePublic | kSodiumCurveSecret | kSodiumChacha | kSodiumSignPublic | kSodiumSignSecret
  | kHydrogenSignPublic | kHydrogenSignPrivate | kHydrogenCurvePublic | kHydrogenCurveSecret
  | kHydrogenSecretBox.

Definition key_types : list CryptoKeyType :=
  [kSodiumCurvePublic; kSodiumCurveSecret; kSodiumChacha; kSodiumSignPublic; kSodiumSignSecret;
   kHydrogenSignPublic; kHydrogenSignPrivate; kHydrogenCurvePublic; kHydrogenCurveSecret;
   kHydrogenSecretBox].

(** The number of an enumerator. *)
Definition index_of (t : CryptoKeyType) : nat :=
  match t with
  | kSodiumCurvePublic => 0
  | kSodiumCurveSecret => 1
  | kSodiumChacha => 2
  | kSodiumSignPublic => 3
  | kSodiumSignSecret => 4
  | kHydrogenSignPublic => 5
  | kHydrogenSignPrivate => 6
  | kHydrogenCurvePublic => 7
  | kHydrogenCurveSecret => 8
  | kHydrogenSecretBox => 9
  end.

Inductive SignatureMethod := kEd25519 | kHydroSignature.

(** What a build is configured with, and the sizes the libraries define. *)
Class Config := {
  AE_CRYPTO_ASYNC : option crypto_async;
  AE_CRYPTO_SYNC : option crypto_sync;
  AE_SIGNATURE : option signature;
  key_bytes : CryptoKeyType -> nat;
  sign_bytes : nat;
}.

Section Config.
Context `{Config}.

(** The alternatives of [Key]; [None] is [BlankKey]. *)
Definition alternatives : list (option CryptoKeyType) :=
  match AE_CRYPTO_ASYNC with
  | Some AE_SODIUM_BOX_SEAL => [Some kSodiumCurvePublic; Some kSodiumCurveSecret]
  | _ => []
  end ++
  match AE_CRYPTO_SYNC with Some AE_CHACHA20_POLY1305 => [Some kSodiumChacha] | _ => [] end ++
  match AE_SIGNATURE with
  | Some AE_ED25519 => [Some kSodiumSignPublic; Some kSodiumSignSecret]
  | _ => []
  end ++
  match AE_SIGNATURE with
  | Some AE_HYDRO_SIGNATURE => [Some kHydrogenSignPublic; Some kHydrogenSignPrivate]
  | _ => []
  end ++
  match AE_CRYPTO_ASYNC with
  | Some AE_HYDRO_CRYPTO_PK => [Some kHydrogenCurvePublic; Some kHydrogenCurveSecret]
  | _ => []
  end ++
  match AE_CRYPTO_SYNC with Some AE_HYDRO_CRYPTO_SK => [Some kHydrogenSecretBox] | _ => [] end ++
  [None].

Definition kSodiumCurveOffset : nat := 0.
Definition kChachaOffset : nat :=
  kSodiumCurveOffset + match AE_CRYPTO_ASYNC with Some AE_SODIUM_BOX_SEAL => 2 | _ => 0 end.
Definition kSodiumSignOffset : nat :=
  kChachaOffset + match AE_CRYPTO_SYNC with Some AE_CHACHA20_POLY1305 => 1 | _ => 0 end.
Definition kHydrogenSignOffset : nat :=
  kChachaOffset + match AE_CRYPTO_SYNC with Some AE_CHACHA20_POLY1305 => 1 | _ => 0 end.
Definition kHydrogenCurveOffset : nat :=
  kHydrogenSignOffset + match AE_SIGNATURE with Some _ => 2 | None => 0 end.
Definition kHydrogenSecretBoxOffset : nat :=
  kHydrogenCurveOffset + match AE_CRYPTO_ASYNC with Some AE_HYDRO_CRYPTO_PK => 2 | _ => 0 end.

Definition IndexToOrder (index : Z) : nat :=
  let i := Z.to_nat index in
  match key_types !! i with
  | Some kSodiumCurvePublic | Some kSodiumCurveSecret =>
      match AE_CRYPTO_ASYNC with
      | Some AE_SODIUM_BOX_SEAL => kSodiumCurveOffset + i - index_of kSodiumCurvePublic
      | _ => 0
      end
  | Some kSodiumChacha =>
      match AE_CRYPTO_SYNC with
      | Some AE_CHACHA20_POLY1305 => kChachaOffset + i - index_of kSodiumChacha
      | _ => 0
      end
  | Some kSodiumSignPublic | Some kSodiumSignSecret =>
      match AE_SIGNATURE with
      | Some AE_ED25519 => kSodiumSignOffset + i - index_of kSodiumSignPublic
      | _ => 0
      end
  | Some kHydrogenSignPublic | Some kHydrogenSignPrivate =>
      match AE_SIGNATURE with
      | Some AE_HYDRO_SIGNATURE => kHydrogenSignOffset + i - index_of kHydrogenSignPublic
      | _ => 0
      end
  | Some kHydrogenCurvePublic | Some kHydrogenCurveSecret =>
      match AE_CRYPTO_ASYNC with
      | Some AE_HYDRO_CRYPTO_PK => kHydrogenCurveOffset + i - index_of kHydrogenCurvePublic
      | _ => 0
      end
  | Some kHydrogenSecretBox =>
      match AE_CRYPTO_SYNC with
      | Some AE_HYDRO_CRYPTO_SK => kHydrogenSecretBoxOffset + i - index_of kHydrogenSecretBox
      | _ => 0
      end
  | None => 0
  end%nat.

(** The tests of [OrderToIndex] that are compiled in, with their answers. *)
Definition order_tests (order : nat) : list (bool * nat) :=
  match AE_CRYPTO_ASYNC with
  | Some AE_SODIUM_BOX_SEAL =>
      [((order <? kSodiumCurveOffset + 2)%nat, index_of kSodiumCurvePublic + (order - kSodiumCurveOffset))%nat]
  | _ => []
  end ++
  match AE_CRYPTO_SYNC with
  | Some AE_CHACHA20_POLY1305 => [((order =? kChachaOffset)%nat, index_of kSodiumChacha)]
  | _ => []
  end ++
  match AE_SIGNATURE with
  | Some AE_ED25519 =>
      [((order <? kSodiumSignOffset + 2)%nat, index_of kSodiumSignPublic + (order - kSodiumSignOffset))%nat]
  | Some AE_HYDRO_SIGNATURE =>
      [((order <? kHydrogenSignOffset + 2)%nat,
        index_of kHydrogenSignPublic + (order - kHydrogenSignOffset))%nat]
  | None => []
  end ++
  match AE_CRYPTO_ASYNC with
  | Some AE_HYDRO_CRYPTO_PK =>
      [((order <? kHydrogenCurveOffset + 2)%nat,
        index_of kHydrogenCurvePublic + (order - kHydrogenCurveOffset))%nat]
  | _ => []
  end ++
  match AE_CRYPTO_SYNC with
  | Some AE_HYDRO_CRYPTO_SK => [((order =? kHydrogenSecretBoxOffset)%nat, index_of kHydrogenSecretBox)]
  | _ => []
  end.

(** The first test that holds; else an assert, then the first enumerator. *)
Fixpoint first_test (tests : list (bool * nat)) : nat :=
  match tests with
  | [] => 0
  | (true, i) :: _ => i
  | (false, _) :: tests => first_test tests
  end.

Definition OrderToIndex (order : nat) : Z := Z.of_nat (first_test (order_tests order)).

(** A key: the alternative it holds, with its bytes. *)
Record Key := { key_order : nat; key : bytes }.

Definition size_of (t : option CryptoKeyType) : nat :=
  match t with Some t => key_bytes t | None => 0 end.

(** The alternative a key holds. *)
Definition key_type (k : Key) : option CryptoKeyType := default None (alternatives !! key_order k).

Definition LoadElement (order : nat) (r : VectorReader) : option (Key * VectorReader) :=
  match alternatives !! order with
  | Some t =>
      let '(bs, r) := load (dflt : array (size_of t)) r in Some ({| key_order := order; key := bs |}, r)
  | None => None
  end.

Definition new_key : Key :=
  {| key_order := 0; key := match alternatives !! 0%nat with Some t => replicate (size_of t) 0 | None => [] end |}.

#[export] Instance serial_key : Serial Key := {
  dflt := new_key;
  save := variant_save key_order (fun k => save (key k : array (size_of (key_type k)))) OrderToIndex;
  load := variant_load LoadElement IndexToOrder;
}.

(** [Data] with [Size]. *)
Definition Data (k : Key) : bytes := key k.
Definition KeySize (k : Key) : nat := length (key k).

(** [text]: the bytes in hexadecimal digits, without leading zeros. *)
Definition hex_digit (d : Z) : Z := if d <? 10 then 48 + d else 87 + d.
Definition hex_byte (b : Z) : bytes :=
  if b <? 16 then [hex_digit b] else [hex_digit (b / 16); hex_digit (b mod 16)].
Definition text (bs : bytes) : bytes := [91] ++ (bs ≫= hex_byte) ++ [93].

(** A key of one of the libraries. *)
Definition key_ok (k : Key) : Prop :=
  exists t, alternatives !! key_order k = Some (Some t) /\ array_ok (key_bytes t) (key k).

(** ** Signatures *)

Definition sign_method : SignatureMethod :=
  match AE_SIGNATURE with Some AE_HYDRO_SIGNATURE => kHydroSignature | _ => kEd25519 end.

Definition method_index (m : SignatureMethod) : nat := match m with kEd25519 => 0 | kHydroSignature => 1 end.

Definition SignIndexToOrder (index : Z) : nat :=
  match sign_method with
  | kEd25519 => if (Z.to_nat index =? method_index kEd25519)%nat then Z.to_nat index else 0
  | kHydroSignature =>
      if (Z.to_nat index =? method_index kHydroSignature)%nat
      then Z.to_nat index - method_index kHydroSignature else 0
  end%nat.

Definition SignOrderToIndex (order : nat) : Z :=
  match sign_method with
  | kEd25519 => Z.of_nat order
  | kHydroSignature => Z.of_nat (order + method_index kHydroSignature)
  end.

(** The only alternative. *)
Record Sign := { sign : bytes }.

Definition LoadSign (order : nat) (r : VectorReader) : option (Sign * VectorReader) :=
  if (order =? 0)%nat
  then let '(bs, r) := load (dflt : array sign_bytes) r in Some ({| sign := bs |}, r)
  else None.

#[export] Instance serial_sign : Serial Sign := {
  dflt := {| sign := replicate sign_bytes 0 |};
  save := variant_save (fun _ => O) (fun s => save (sign s : array sign_bytes)) SignOrderToIndex;
  load := variant_load LoadSign SignIndexToOrder;
}.

(** [SignedKey] *)
Record SignedKey := { sk_key : Key; sk_sign : Sign }.

Definition signed_key_fields (s : SignedKey) : Key * Sign := (sk_key s, sk_sign s).
Definition make_signed_key (f : Key * Sign) : SignedKey := {| sk_key := f.1; sk_sign := f.2 |}.

#[export] Instance serial_signed_key : Serial SignedKey := serial_via signed_key_fields make_signed_key.

(** ** Lemmas *)

(** Each alternative has an index and is found by it. *)
Lemma orders_agree order t :
  alternatives !! order = Some (Some t) ->
  OrderToIndex order = Z.of_nat (index_of t) /\ IndexToOrder (Z.of_nat (index_of t)) = order.
Proof.
  unfold alternatives, OrderToIndex, order_tests, IndexToOrder, kHydrogenSecretBoxOffset, kHydrogenCurveOffset,
    kHydrogenSignOffset, kSodiumSignOffset, kChachaOffset, kSodiumCurveOffset.
  destruct AE_CRYPTO_ASYNC as [[]|], AE_CRYPTO_SYNC as [[]|], AE_SIGNATURE as [[]|];
    do 7 (destruct order as [|order]; [intros E; simplify_eq/=; done|]);
    intros E; simplify_eq/=.
Qed.

Lemma index_width t : in_width 8 (Z.of_nat (index_of t)).
Proof. destruct t; done. Qed.

Lemma key_load_at (k old : Key) pre post r :
  key_ok k -> load old (at_pos pre (save k) post r) = (k, past pre (save k) post r).
Proof.
  intros (t & Ht & Hk). cbn [load save dflt serial_key].
  destruct (orders_agree _ _ Ht) as [E1 E2].
  apply variant_load_at; [rewrite E1; apply index_width|by rewrite E1|].
  intros pre'. unfold LoadElement, key_type. rewrite Ht. cbn [size_of default].
  pose proof (load_array_at (key_bytes t) (key k) (replicate (key_bytes t) 0) pre' post kYes) as L.
  cbn [load save dflt serial_array] in *.
  rewrite L; [by destruct k|done|by rewrite length_replicate|by right].
Qed.

#[export] Program Instance serial_key_ok : SerialOk Key := { valid := key_ok }.
Next Obligation. intros. by apply key_load_at. Qed.

#[export] Program Instance serial_sign_ok : SerialOk Sign := { valid s := array_ok sign_bytes (sign s) }.
Next Obligation.
  intros s pre post r Hs. cbn [load save dflt serial_sign].
  apply variant_load_at; unfold SignOrderToIndex, SignIndexToOrder; [by destruct sign_method|by destruct sign_method|].
  intros pre'. unfold LoadSign. cbn [Nat.eqb].
  rewrite (load_array_at sign_bytes); [by destruct s|done|apply length_replicate|by right].
Qed.

#[export] Instance serial_signed_key_ok : SerialOk SignedKey :=
  serial_via_ok signed_key_fields make_signed_key ltac:(by intros []) eq_refl.
End Config.
End Keys.

(** ** Vectors of structures *)
Definition vector (T : Type) : Type := list T.

#[export] Typeclasses Opaque vector.

#[export] Instance serial_vector {T} `{Serial T} : Serial (vector T) := {
  dflt := []; save := save_vector; load := load_vector;
}.

#[export] Program Instance serial_vector_ok {T} `{SerialOk T} : SerialOk (vector T) := {
  valid l := zlen l < size_bound /\ Forall valid l;
}.
Next Obligation. intros T ? ? l pre post r [? ?]. by apply load_vector_at. Qed.

(** ** Addresses *)
Module Addresses.
Import Variant.

Definition version_index (v : Version) : Z :=
  match v with kIpV4 => 0 | kIpV6 => 1 | OtherVersion n => n end.

Definition to_version (n : Z) : Version :=
  if n =? 0 then kIpV4 else if n =? 1 then kIpV6 else OtherVersion n.

Definition protocol_index (p : Protocol) : Z := match p with kTcp => 0 | OtherProtocol n => n end.

Definition to_protocol (n : Z) : Protocol := if n =? 0 then kTcp else OtherProtocol n.

#[export] Instance serial_protocol : Serial Protocol := serial_enum 1 protocol_index to_protocol kTcp.

(** The bytes of the union a version uses. *)
Definition ip_bytes (v : Version) : nat := match v with kIpV4 => 4 | kIpV6 => 16 | OtherVersion _ => 0 end.

Definition set_value (val : bytes) (a : IpAddress) : outcome IpAddress :=
  match version a with
  | OtherVersion _ => Undefined
  | v =>
      if (length val <? ip_bytes v)%nat then Undefined
      else Defined {| version := v; value := take (ip_bytes v) val |}
  end.

Definition ip_save (a : IpAddress) : bytes :=
  save (version_index (version a) : uint 1) ++
  match version a with OtherVersion _ => [] | _ => scalar_image 1 (value a) end.

(** The bytes of the union beyond those of the old version count as zero. *)
Definition ip_load (old : IpAddress) (r : VectorReader) : IpAddress * VectorReader :=
  let '(v, r) := load_enum 1 to_version (version old) r in
  match v with
  | OtherVersion _ => ({| version := v; value := value old |}, r)
  | _ =>
      let '(bs, r) := load_scalar_array 1 (resize 0 (ip_bytes v) (value old)) r in
      ({| version := v; value := bs |}, r)
  end.

#[export] Instance serial_ip : Serial IpAddress := {
  dflt := {| version := kIpV4; value := replicate 4 0 |}; save := ip_save; load := ip_load;
}.

(** *** Comparisons *)

Definition equal (a b : bytes) : bool := bool_decide (a = b).

Definition ip_eqb (left right : IpAddress) : bool :=
  if negb (version_index (version left) =? version_index (version right)) then false
  else match version left with
       | OtherVersion _ => false
       | _ => equal (value left) (value right)
       end.

Definition ip_ltb (left right : IpAddress) : bool :=
  if version_index (version left) =? version_index (version right)
  then match version left with
       | OtherVersion _ => version_index (version left) <? version_index (version right)
       | _ => lexicographical_compare (value left) (value right)
       end
  else version_index (version left) <? version_index (version right).

Definition address_ltb (left right : IpAddressPortProtocol) : bool :=
  if ip_eqb (ip left) (ip right)
  then if port left =? port right
       then protocol_index (protocol left) <? protocol_index (protocol right)
       else port left <? port right
  else ip_ltb (ip left) (ip right).

(** *** Text *)

Fixpoint separated (sep : Z) (l : list bytes) : bytes :=
  match l with
  | [] => []
  | [x] => x
  | x :: l => x ++ sep :: separated sep l
  end.

(** An [std::uint8_t] is written as a character. *)
Definition ip_text (a : IpAddress) : bytes :=
  match version a with
  | kIpV4 => separated 46 (map Text.to_string (value a))
  | kIpV6 => separated 58 (map (fun b => [b]) (value a))
  | OtherVersion _ => []
  end.

Definition ip_port_text (a : IpAddress) (p : Z) : bytes := ip_text a ++ 58 :: Text.to_string p.

(** *** Structures with addresses *)

Definition address_fields (a : IpAddressPortProtocol) : IpAddress * uint 2 * Protocol :=
  (ip a, port a, protocol a).
Definition make_address (f : IpAddress * uint 2 * Protocol) : IpAddressPortProtocol :=
  {| ip := f.1.1; port := f.1.2; protocol := f.2 |}.

#[export] Instance serial_address : Serial IpAddressPortProtocol := serial_via address_fields make_address.

Record NameAddress := { na_name : bytes; na_port : Z; na_protocol : Protocol }.

Definition name_fields (a : NameAddress) : list (uint 1) * uint 2 * Protocol :=
  (na_name a, na_port a, na_protocol a).
Definition make_name (f : list (uint 1) * uint 2 * Protocol) : NameAddress :=
  {| na_name := f.1.1; na_port := f.1.2; na_protocol := f.2 |}.

#[export] Instance serial_name : Serial NameAddress := serial_via name_fields make_name.

(** [UnifiedAddress]: a variant with the indices of [AddressType]. *)
Inductive UnifiedAddress :=
  | kResolvedAddress (a : IpAddressPortProtocol)
  | kUnresolvedAddress (a : NameAddress).

Definition address_order (u : UnifiedAddress) : nat :=
  match u with kResolvedAddress _ => 0 | kUnresolvedAddress _ => 1 end.

Definition save_address (u : UnifiedAddress) : bytes :=
  match u with kResolvedAddress a => save a | kUnresolvedAddress a => save a end.

Definition load_address (order : nat) (r : VectorReader) : option (UnifiedAddress * VectorReader) :=
  match order with
  | O => let '(a, r) := load dflt r in Some (kResolvedAddress a, r)
  | S O => let '(a, r) := load dflt r in Some (kUnresolvedAddress a, r)
  | _ => None
  end.

#[export] Instance serial_unified : Serial UnifiedAddress := {
  dflt := kResolvedAddress dflt;
  save := variant_save address_order save_address Z.of_nat;
  load := variant_load load_address Z.to_nat;
}.

Definition coder_fields (c : CoderAndPort) : Protocol * uint 2 := (cp_protocol c, cp_port c).
Definition make_coder (f : Protocol * uint 2) : CoderAndPort := {| cp_protocol := f.1; cp_port := f.2 |}.

#[export] Instance serial_coder : Serial CoderAndPort := serial_via coder_fields make_coder.

Definition endpoint_fields (e : IpAddressAndPort) : IpAddress * vector CoderAndPort :=
  (ep_ip e, protocol_and_ports e).
Definition make_endpoint (f : IpAddress * vector CoderAndPort) : IpAddressAndPort :=
  {| ep_ip := f.1; protocol_and_ports := f.2 |}.

#[export] Instance serial_endpoint : Serial IpAddressAndPort := serial_via endpoint_fields make_endpoint.

Definition descriptor_fields (d : ServerDescriptor) : uint 2 * vector IpAddressAndPort :=
  (d_server_id d, ips d).
Definition make_descriptor (f : uint 2 * vector IpAddressAndPort) : ServerDescriptor :=
  {| d_server_id := f.1; ips := f.2 |}.

#[export] Instance serial_descriptor : Serial ServerDescriptor := serial_via descriptor_fields make_descriptor.

(** *** Round trips *)

Definition protocol_ok (p : Protocol) : Prop := in_width 8 (protocol_index p) /\ to_protocol (protocol_index p) = p.

#[export] Program Instance serial_protocol_ok : SerialOk Protocol := { valid := protocol_ok }.
Next Obligation. intros p pre post r [Hw Hp]. by apply load_enum_at. Qed.

Definition ip_ok (a : IpAddress) : Prop :=
  match version a with OtherVersion _ => False | v => array_ok (ip_bytes v) (value a) end.

Lemma ip_load_at a pre post r :
  ip_ok a -> ip_load dflt (at_pos pre (ip_save a) post r) = (a, past pre (ip_save a) post r).
Proof.
  intros Ha. unfold ip_load, ip_save. cbn [save serial_uint]. rewrite at_pos_app.
  assert (Hv : in_width 8 (version_index (version a)) /\ to_version (version_index (version a)) = version a)
    by (unfold ip_ok in Ha; by destruct (version a)).
  rewrite load_enum_at by (try done; apply Hv). rewrite past_at_pos.
  unfold ip_ok in Ha. destruct a as [v bs]. cbn [version value] in *. destruct v; [| |done];
    destruct Ha as [Hl Hb]; (rewrite load_scalar_array_at;
      [by rewrite <- past_app|rewrite Hl; reflexivity|right; by rewrite yes_if_nonempty|done]).
Qed.

#[export] Program Instance serial_ip_ok : SerialOk IpAddress := { valid := ip_ok }.
Next Obligation. intros. by apply ip_load_at. Qed.

#[export] Instance serial_address_ok : SerialOk IpAddressPortProtocol :=
  serial_via_ok address_fields make_address ltac:(by intros []) eq_refl.
#[export] Instance serial_name_ok : SerialOk NameAddress :=
  serial_via_ok name_fields make_name ltac:(by intros []) eq_refl.
#[export] Instance serial_coder_ok : SerialOk CoderAndPort :=
  serial_via_ok coder_fields make_coder ltac:(by intros []) eq_refl.
#[export] Instance serial_endpoint_ok : SerialOk IpAddressAndPort :=
  serial_via_ok endpoint_fields make_endpoint ltac:(by intros []) eq_refl.
#[export] Instance serial_descriptor_ok : SerialOk ServerDescriptor :=
  serial_via_ok descriptor_fields make_descriptor ltac:(by intros []) eq_refl.

#[export] Program Instance serial_unified_ok : SerialOk UnifiedAddress := {
  valid u := match u with kResolvedAddress a => valid a | kUnresolvedAddress a => valid a end;
}.
Next Obligation.
  intros u pre post r Hu. apply variant_load_at; [by destruct u|by destruct u|].
  intros pre'. destruct u as [a|a]; cbn [address_order save_address load_address];
    by rewrite (load_save a _ _ _ Hu).
Qed.
End Addresses.

(** ** Properties *)
Module WireProperties.
Import Variant Keys Addresses.

Lemma lex_irrefl a : lexicographical_compare a a = false.
Proof. induction a as [|x a IH]; [done|]. cbn. by rewrite Z.ltb_irrefl. Qed.

Lemma lex_trans a b c :
  lexicographical_compare a b = true -> lexicographical_compare b c = true ->
  lexicographical_compare a c = true.
Proof.
  revert b c. induction a as [|x a IH]; intros [|y b] [|z c]; try done. cbn.
  repeat zcase; intros; try done; try lia. by eapply IH.
Qed.

Lemma lex_total a b :
  lexicographical_compare a b = false -> lexicographical_compare b a = false -> a = b.
Proof.
  revert b. induction a as [|x a IH]; intros [|y b]; try done. cbn.
  repeat zcase; intros; try done; try lia. f_equal; [lia|by apply IH].
Qed.

Lemma lex_app a b c d :
  length a = length b ->
  lexicographical_compare (a ++ c) (b ++ d) =
  if decide (a = b) then lexicographical_compare c d else lexicographical_compare a b.
Proof.
  revert b. induction a as [|x a IH]; intros [|y b] Hl; try done. injection Hl as Hl. cbn.
  rewrite IH by done. destruct (Z.ltb_spec x y), (Z.ltb_spec y x);
    [lia|rewrite decide_False by (intros [= -> ->]; lia); done
    |rewrite decide_False by (intros [= -> ->]; lia); done|].
  assert (x = y) as -> by lia. repeat case_decide; simplify_eq/=; done.
Qed.

(** An address as the list its order compares. *)
Definition address_list (a : IpAddressPortProtocol) : bytes :=
  version_index (version (ip a)) :: value (ip a) ++ [port a; protocol_index (protocol a)].

Lemma lex2 a b c d :
  lexicographical_compare [a; b] [c; d] = if a =? c then b <? d else a <? c.
Proof. cbn. repeat zcase; try done; lia. Qed.

Lemma version_index_inj v w :
  to_version (version_index v) = v -> to_version (version_index w) = w ->
  version_index v = version_index w -> v = w.
Proof. intros Hv Hw E. by rewrite <- Hv, <- Hw, E. Qed.

Lemma ip_ok_version a : ip_ok a -> to_version (version_index (version a)) = version a.
Proof. unfold ip_ok. by destruct (version a). Qed.

Lemma address_ltb_list a b :
  ip_ok (ip a) -> ip_ok (ip b) ->
  address_ltb a b = lexicographical_compare (address_list a) (address_list b).
Proof.
  intros Ha Hb. unfold address_ltb, ip_eqb, ip_ltb, address_list. cbn [lexicographical_compare].
  destruct (Z.eqb_spec (version_index (version (ip a))) (version_index (version (ip b)))) as [E|E];
    cbn [negb].
  - pose proof (version_index_inj _ _ (ip_ok_version _ Ha) (ip_ok_version _ Hb) E) as Ev.
    unfold ip_ok in *. rewrite E, Z.ltb_irrefl, <- Ev in *.
    destruct (version (ip a)) eqn:Va; [| |done]; destruct Ha as [La _], Hb as [Lb _];
      rewrite lex_app, lex2 by congruence; unfold equal; repeat case_decide; case_bool_decide;
      try done.
  - repeat zcase; try done; lia.
Qed.

Lemma address_list_inj a b :
  ip_ok (ip a) -> ip_ok (ip b) -> protocol_ok (protocol a) -> protocol_ok (protocol b) ->
  address_list a = address_list b -> a = b.
Proof.
  intros Ha Hb Pa Pb E. destruct a as [[va xa] pa ta], b as [[vb xb] pb tb].
  unfold address_list in E. cbn [ip port protocol version value] in *. injection E as Ev El.
  apply (version_index_inj va vb (ip_ok_version _ Ha) (ip_ok_version _ Hb)) in Ev as ->.
  assert (length xa = length xb).
  { apply (f_equal length) in El. rewrite !length_app in El. simpl in El. lia. }
  apply app_inj_1 in El as [-> Ep]; [|done]. injection Ep as -> Et.
  destruct Pa as [_ Pa], Pb as [_ Pb]. rewrite Et, Pb in Pa. by subst.
Qed.

(** The order of addresses is a strict total order on the addresses of a known
    version: no address precedes itself, it is transitive, and of two different
    addresses one precedes the other. *)
Theorem address_order_strict a b c :
  Forall (fun x => ip_ok (ip x) /\ protocol_ok (protocol x)) [a; b; c] ->
  address_ltb a a = false /\
  (address_ltb a b = true -> address_ltb b c = true -> address_ltb a c = true) /\
  (address_ltb a b = false -> address_ltb b a = false -> a = b).
Proof.
  intros H. inversion H as [|? ? [Ha Pa] H1]; subst. inversion H1 as [|? ? [Hb Pb] H2]; subst.
  inversion H2 as [|? ? [Hc _] _]; subst. rewrite !address_ltb_list by done. split_and!.
  - apply lex_irrefl.
  - apply lex_trans.
  - intros E1 E2. apply address_list_inj; try done. by apply lex_total.
Qed.

Definition v4 (x : Z) (p : Z) : IpAddressPortProtocol :=
  {| ip := {| version := kIpV4; value := [10; 0; 0; x] |}; port := p; protocol := kTcp |}.

Lemma v4_ok x p : in_width 8 x -> ip_ok (ip (v4 x p)) /\ protocol_ok (protocol (v4 x p)).
Proof.
  intros Hx. split; [|done]. split; [done|].
  repeat (apply Forall_cons_2; [done|]). apply Forall_nil_2.
Qed.

Lemma address_order_strict_witness :
  address_ltb (v4 1 80) (v4 1 81) = true /\ address_ltb (v4 1 81) (v4 2 80) = true /\
  address_ltb (v4 1 80) (v4 2 80) = true.
Proof.
  split; [reflexivity|]. split; [reflexivity|].
  apply (address_order_strict (v4 1 80) (v4 1 81) (v4 2 80)); [|reflexivity|reflexivity].
  apply Forall_cons_2; [by apply v4_ok|]. apply Forall_cons_2; [by apply v4_ok|].
  apply Forall_cons_2; [by apply v4_ok|apply Forall_nil_2].
Defined.

(** In every configuration of the crypto libraries, the index written for an
    alternative of a key leads back to it, and a key of any of the libraries is
    read back from what is written, whatever the destination held. *)
Theorem key_roundtrip (C : Config) (k old : Key) pre post r :
  key_ok k ->
  IndexToOrder (OrderToIndex (key_order k)) = key_order k /\
  load old (at_pos pre (save k) post r) = (k, past pre (save k) post r).
Proof.
  intros Hk. split; [|by apply key_load_at]. destruct Hk as (t & Ht & _).
  destruct (orders_agree _ _ Ht) as [-> E]. exact E.
Qed.

(** The sizes of the libraries do not matter: here every key has one byte more than
    its index. *)
Definition sample_build : Config := {|
  AE_CRYPTO_ASYNC := Some AE_HYDRO_CRYPTO_PK; AE_CRYPTO_SYNC := Some AE_CHACHA20_POLY1305;
  AE_SIGNATURE := Some AE_ED25519; key_bytes t := S (index_of t); sign_bytes := 2 |}.

Lemma key_roundtrip_witness :
  let k := {| key_order := 0; key := [1; 2; 3] |} in
  load (Serial := @serial_key sample_build) k (at_pos [] (save (Serial := @serial_key sample_build) k) [9] kNo)
  = (k, Reader [2; 1; 2; 3; 9] 4 kYes).
Proof.
  apply (key_roundtrip sample_build). exists kSodiumChacha. split; [done|]. split; [done|].
  repeat (apply Forall_cons_2; [done|]). apply Forall_nil_2.
Defined.

(** A key type without an alternative is taken for the first alternative. *)
Theorem foreign_key_first (C : Config) t :
  Some t ∉ alternatives -> IndexToOrder (Z.of_nat (index_of t)) = O.
Proof.
  unfold alternatives, IndexToOrder.
  destruct AE_CRYPTO_ASYNC as [[]|], AE_CRYPTO_SYNC as [[]|], AE_SIGNATURE as [[]|], t;
    intros E; try done; destruct E; apply list_elem_of_In; cbn; tauto.
Qed.

(** Different keys with the same text. *)
Theorem key_text_ambiguous :
  text [1; 35] = text [18; 3] /\ array_ok 2 [1; 35] /\ array_ok 2 [18; 3].
Proof. repeat split; repeat constructor; done. Qed.
End WireProperties.
