(* ===== verification/ApiMessages.v ===== *)
(** * The APIs of the servers and of the client ([aether/methods/])

    The messages the client sends to the registration and work servers
    ([RootApi], [ServerRegistrationApi], [GlobalRegServerApi], [LoginApi],
    [AuthorizedApi]), with their codes and fields, and the APIs the client reads
    ([ClientSafeApi], [ClientApiRegSafe], [ClientGlobalRegApi]).  Packing a request
    registers a callback under its identifier; the answer to it is a [SendResult]
    whose data the callback extracts from the packet, and a message is notified
    with it.

    What is notified is collected in a list.  The callbacks are the inductive type
    [callback], one constructor per lambda of the code.  A failed [assert] is
    [Undefined]. *)

From stdpp Require Import gmap.
From S2P Require Import Prelude MStream PackedInt ApiProtocol Crc ServerList WireTypes.
Import PackedSize Cloud Keys Addresses Crc.

#[local] Set Warnings "-notation-overridden".

Module Api.

(** ** Data of the messages *)

Inductive CryptoLibProfile := kSodiumLib | kHydrogenLib | OtherProfile (n : Z).

Definition profile_index (p : CryptoLibProfile) : Z :=
  match p with kSodiumLib => 0 | kHydrogenLib => 1 | OtherProfile n => n end.
Definition to_profile (n : Z) : CryptoLibProfile :=
  if n =? 0 then kSodiumLib else if n =? 1 then kHydrogenLib else OtherProfile n.

#[export] Instance serial_profile : Serial CryptoLibProfile := serial_enum 1 profile_index to_profile kSodiumLib.

#[export] Program Instance serial_profile_ok : SerialOk CryptoLibProfile := {
  valid p := in_width 8 (profile_index p) /\ to_profile (profile_index p) = p;
}.
Next Obligation. intros p pre post r [Hw Hp]. by apply load_enum_at. Qed.

Inductive PowMethod := kBCryptCrc32 | OtherMethod (n : Z).

Definition pow_index (p : PowMethod) : Z := match p with kBCryptCrc32 => 0 | OtherMethod n => n end.
Definition to_pow (n : Z) : PowMethod := if n =? 0 then kBCryptCrc32 else OtherMethod n.

#[export] Instance serial_pow : Serial PowMethod := serial_enum 1 pow_index to_pow kBCryptCrc32.

#[export] Program Instance serial_pow_ok : SerialOk PowMethod := {
  valid p := in_width 8 (pow_index p) /\ to_pow (pow_index p) = p;
}.
Next Obligation. intros p pre post r [Hw Hp]. by apply load_enum_at. Qed.

(** [std::string] and [DataBuffer]; [std::vector] of server identifiers and of
    passwords. *)
Abbreviation string := (list (uint 1)).
Abbreviation server_ids := (list (uint 2)).
Abbreviation passwords_t := (list (uint 4)).

Record PowParams := {
  salt : string;
  password_suffix : string;
  pool_size : Z;
  max_hash_value : Z;
  global_key : SignedKey;
}.

Record RegistrationResponse := { ephemeral_uid : Uid; uid : Uid; cloud : server_ids }.

Record UidAndCloud := { uc_uid : Uid; uc_cloud : server_ids }.

Section Config.
Context `{Config}.

Definition pow_fields (p : PowParams) : string * string * uint 1 * uint 4 * SignedKey :=
  (salt p, password_suffix p, pool_size p, max_hash_value p, global_key p).
Definition make_pow (f : string * string * uint 1 * uint 4 * SignedKey) : PowParams :=
  let '(a, b, c, d, e) := f in
  {| salt := a; password_suffix := b; pool_size := c; max_hash_value := d; global_key := e |}.

#[export] Instance serial_pow_params : Serial PowParams := serial_via pow_fields make_pow.
#[export] Instance serial_pow_params_ok : SerialOk PowParams :=
  serial_via_ok pow_fields make_pow ltac:(by intros []) eq_refl.

Definition response_fields (p : RegistrationResponse) : Uid * Uid * server_ids :=
  (ephemeral_uid p, uid p, cloud p).
Definition make_response (f : Uid * Uid * server_ids) : RegistrationResponse :=
  let '(a, b, c) := f in {| ephemeral_uid := a; uid := b; cloud := c |}.

#[export] Instance serial_response : Serial RegistrationResponse := serial_via response_fields make_response.
#[export] Instance serial_response_ok : SerialOk RegistrationResponse :=
  serial_via_ok response_fields make_response ltac:(by intros []) eq_refl.

Definition uid_cloud_fields (p : UidAndCloud) : Uid * server_ids := (uc_uid p, uc_cloud p).
Definition make_uid_cloud (f : Uid * server_ids) : UidAndCloud := {| uc_uid := f.1; uc_cloud := f.2 |}.

#[export] Instance serial_uid_cloud : Serial UidAndCloud := serial_via uid_cloud_fields make_uid_cloud.
#[export] Instance serial_uid_cloud_ok : SerialOk UidAndCloud :=
  serial_via_ok uid_cloud_fields make_uid_cloud ltac:(by intros []) eq_refl.

(** ** Messages to the servers

    For each API its messages, their codes, [Message::Save] and [Message::Load] (for
    the type of message [like] has), and the values that fit. *)

(** *** [RootApi] *)

Inductive RootApi :=
  | GetAsymmetricPublicKey (request_id : Z) (crypto_lib_profile : CryptoLibProfile)
  | Enter (stream_id : Z) (crypto_lib_profile : CryptoLibProfile).

Definition root_code (m : RootApi) : Z :=
  match m with
  | GetAsymmetricPublicKey _ _ => 3
  | Enter _ _ => 4
  end.

Definition root_body (m : RootApi) : bytes :=
  match m with
  | GetAsymmetricPublicKey i p => save ((i, p) : uint 2 * CryptoLibProfile)
  | Enter s p => save ((s, p) : uint 1 * CryptoLibProfile)
  end.

Definition root_load (like : RootApi) (r : VectorReader) : RootApi * VectorReader :=
  match like with
  | GetAsymmetricPublicKey _ _ => let '((i, p), r) := load (dflt : uint 2 * CryptoLibProfile) r in (GetAsymmetricPublicKey i p, r)
  | Enter _ _ => let '((s, p), r) := load (dflt : uint 1 * CryptoLibProfile) r in (Enter s p, r)
  end.

Definition root_ok (m : RootApi) : Prop :=
  match m with
  | GetAsymmetricPublicKey i p => valid ((i, p) : uint 2 * CryptoLibProfile)
  | Enter s p => valid ((s, p) : uint 1 * CryptoLibProfile)
  end.

(** *** [ServerRegistrationApi] *)

Inductive ServerRegistrationApi :=
  | Registration (stream_id : Z) (salt password_suffix : string) (passwords : passwords_t)
      (parent_uid_ : Uid) (return_key : Key)
  | RequestProofOfWorkData (request_id : Z) (parent_id : Uid) (pow_method : PowMethod) (return_key : Key)
  | ResolveServers (request_id : Z) (servers : server_ids).

Definition server_reg_code (m : ServerRegistrationApi) : Z :=
  match m with
  | Registration _ _ _ _ _ _ => 30
  | RequestProofOfWorkData _ _ _ _ => 40
  | ResolveServers _ _ => 70
  end.

Definition server_reg_body (m : ServerRegistrationApi) : bytes :=
  match m with
  | Registration s a b c u k => save ((s, a, b, c, u, k) : uint 1 * string * string * passwords_t * Uid * Key)
  | RequestProofOfWorkData i u p k => save ((i, u, p, k) : uint 2 * Uid * PowMethod * Key)
  | ResolveServers i l => save ((i, l) : uint 2 * server_ids)
  end.

Definition server_reg_load (like : ServerRegistrationApi) (r : VectorReader) : ServerRegistrationApi * VectorReader :=
  match like with
  | Registration _ _ _ _ _ _ => let '((s, a, b, c, u, k), r) := load (dflt : uint 1 * string * string * passwords_t * Uid * Key) r in (Registration s a b c u k, r)
  | RequestProofOfWorkData _ _ _ _ => let '((i, u, p, k), r) := load (dflt : uint 2 * Uid * PowMethod * Key) r in (RequestProofOfWorkData i u p k, r)
  | ResolveServers _ _ => let '((i, l), r) := load (dflt : uint 2 * server_ids) r in (ResolveServers i l, r)
  end.

Definition server_reg_ok (m : ServerRegistrationApi) : Prop :=
  match m with
  | Registration s a b c u k => valid ((s, a, b, c, u, k) : uint 1 * string * string * passwords_t * Uid * Key)
  | RequestProofOfWorkData i u p k => valid ((i, u, p, k) : uint 2 * Uid * PowMethod * Key)
  | ResolveServers i l => valid ((i, l) : uint 2 * server_ids)
  end.

(** *** [GlobalRegServerApi] *)

Inductive GlobalRegServerApi :=
  | SetMasterKey (key : Key)
  | Finish (request_id : Z).

Definition global_reg_code (m : GlobalRegServerApi) : Z :=
  match m with
  | SetMasterKey _ => 3
  | Finish _ => 4
  end.

Definition global_reg_body (m : GlobalRegServerApi) : bytes :=
  match m with
  | SetMasterKey k => save (k : Key)
  | Finish i => save (i : uint 2)
  end.

Definition global_reg_load (like : GlobalRegServerApi) (r : VectorReader) : GlobalRegServerApi * VectorReader :=
  match like with
  | SetMasterKey _ => let '(k, r) := load (dflt : Key) r in (SetMasterKey k, r)
  | Finish _ => let '(i, r) := load (dflt : uint 2) r in (Finish i, r)
  end.

Definition global_reg_ok (m : GlobalRegServerApi) : Prop :=
  match m with
  | SetMasterKey k => valid (k : Key)
  | Finish i => valid (i : uint 2)
  end.

(** *** [LoginApi] *)

Inductive LoginApi :=
  | LoginByUid (stream_id : Z) (uid : Uid)
  | LoginByAlias (ephemeral_uid : Uid) (stream_id : Z).

Definition login_code (m : LoginApi) : Z :=
  match m with
  | LoginByUid _ _ => 3
  | LoginByAlias _ _ => 4
  end.

Definition login_body (m : LoginApi) : bytes :=
  match m with
  | LoginByUid s u => save ((s, u) : uint 1 * Uid)
  | LoginByAlias u s => save ((u, s) : Uid * uint 1)
  end.

Definition login_load (like : LoginApi) (r : VectorReader) : LoginApi * VectorReader :=
  match like with
  | LoginByUid _ _ => let '((s, u), r) := load (dflt : uint 1 * Uid) r in (LoginByUid s u, r)
  | LoginByAlias _ _ => let '((u, s), r) := load (dflt : Uid * uint 1) r in (LoginByAlias u s, r)
  end.

Definition login_ok (m : LoginApi) : Prop :=
  match m with
  | LoginByUid s u => valid ((s, u) : uint 1 * Uid)
  | LoginByAlias u s => valid ((u, s) : Uid * uint 1)
  end.

(** *** [AuthorizedApi] *)

Inductive AuthorizedApi :=
  | Ping
  | OpenStreamToClient (uid : Uid) (stream_id : Z)
  | AuthSendMessage (request_id : Z) (uid : Uid) (data : string)
  | Resolvers (servers_stream_id cloud_stream_id : Z).

Definition authorized_code (m : AuthorizedApi) : Z :=
  match m with
  | Ping => 6
  | OpenStreamToClient _ _ => 9
  | AuthSendMessage _ _ _ => 10
  | Resolvers _ _ => 12
  end.

Definition authorized_body (m : AuthorizedApi) : bytes :=
  match m with
  | Ping => save (tt : unit)
  | OpenStreamToClient u s => save ((u, s) : Uid * uint 1)
  | AuthSendMessage i u d => save ((i, u, d) : uint 2 * Uid * string)
  | Resolvers a b => save ((a, b) : uint 1 * uint 1)
  end.

Definition authorized_load (like : AuthorizedApi) (r : VectorReader) : AuthorizedApi * VectorReader :=
  match like with
  | Ping => let '(_, r) := load (dflt : unit) r in (Ping, r)
  | OpenStreamToClient _ _ => let '((u, s), r) := load (dflt : Uid * uint 1) r in (OpenStreamToClient u s, r)
  | AuthSendMessage _ _ _ => let '((i, u, d), r) := load (dflt : uint 2 * Uid * string) r in (AuthSendMessage i u d, r)
  | Resolvers _ _ => let '((a, b), r) := load (dflt : uint 1 * uint 1) r in (Resolvers a b, r)
  end.

Definition authorized_ok (m : AuthorizedApi) : Prop :=
  match m with
  | Ping => valid (tt : unit)
  | OpenStreamToClient u s => valid ((u, s) : Uid * uint 1)
  | AuthSendMessage i u d => valid ((i, u, d) : uint 2 * Uid * string)
  | Resolvers a b => valid ((a, b) : uint 1 * uint 1)
  end.

(** *** All of them *)

Inductive server_message :=
  | MRootApi (m : RootApi)
  | MServerRegistrationApi (m : ServerRegistrationApi)
  | MGlobalRegServerApi (m : GlobalRegServerApi)
  | MLoginApi (m : LoginApi)
  | MAuthorizedApi (m : AuthorizedApi).

Definition same_api (m m' : server_message) : bool :=
  match m, m' with
  | MRootApi _, MRootApi _ => true
  | MServerRegistrationApi _, MServerRegistrationApi _ => true
  | MGlobalRegServerApi _, MGlobalRegServerApi _ => true
  | MLoginApi _, MLoginApi _ => true
  | MAuthorizedApi _, MAuthorizedApi _ => true
  | _, _ => false
  end.

Definition message_code (m : server_message) : Z :=
  match m with
  | MRootApi m => root_code m
  | MServerRegistrationApi m => server_reg_code m
  | MGlobalRegServerApi m => global_reg_code m
  | MLoginApi m => login_code m
  | MAuthorizedApi m => authorized_code m
  end.

Definition body (m : server_message) : bytes :=
  match m with
  | MRootApi m => root_body m
  | MServerRegistrationApi m => server_reg_body m
  | MGlobalRegServerApi m => global_reg_body m
  | MLoginApi m => login_body m
  | MAuthorizedApi m => authorized_body m
  end.

Definition message_ok (m : server_message) : Prop :=
  match m with
  | MRootApi m => root_ok m
  | MServerRegistrationApi m => server_reg_ok m
  | MGlobalRegServerApi m => global_reg_ok m
  | MLoginApi m => login_ok m
  | MAuthorizedApi m => authorized_ok m
  end.

Definition load_body (like : server_message) (r : VectorReader) : server_message * VectorReader :=
  match like with
  | MRootApi m => let '(m, r) := root_load m r in (MRootApi m, r)
  | MServerRegistrationApi m => let '(m, r) := server_reg_load m r in (MServerRegistrationApi m, r)
  | MGlobalRegServerApi m => let '(m, r) := global_reg_load m r in (MGlobalRegServerApi m, r)
  | MLoginApi m => let '(m, r) := login_load m r in (MLoginApi m, r)
  | MAuthorizedApi m => let '(m, r) := authorized_load m r in (MAuthorizedApi m, r)
  end.

(** ** Requests and answers *)

(** The lambda a request registers, with the identifier it captures. *)
Inductive callback :=
  | OnGetKeys (req_id : Z)
  | OnWorkProofData (req_id : Z)
  | OnResolveServers (req_id : Z)
  | OnFinish (req_id : Z).

(** What is given to [MessageNotify]. *)
Inductive notification :=
  | GetKeysResponse (req_id : Z) (signed_key : SignedKey)
  | ResponseWorkProofData (req_id : Z) (pow_params : PowParams)
  | ResolveServersResponse (req_id : Z) (servers : vector ServerDescriptor)
  | ConfirmRegistration (req_id : Z) (registration_response : RegistrationResponse)
  | SendError (request_id error_code : Z)
  | StreamMessage (stream_id : Z) (child_data : bytes)
  | StreamToClient (uid : Uid) (stream_id : Z)
  | SendMessage (uid : Uid) (data : bytes).

(** [void const*] *)
Definition Ptr : Type := nat.
Abbreviation Context_t := (ProtocolContext Ptr callback).

(** [Pack] of the APIs: the bytes of the message, and the context with the
    callback of a request. *)
Definition root_callback (m : RootApi) : option (Z * callback) :=
  match m with GetAsymmetricPublicKey i _ => Some (i, OnGetKeys i) | Enter _ _ => None end.

Definition server_reg_callback (m : ServerRegistrationApi) : option (Z * callback) :=
  match m with
  | Registration _ _ _ _ _ _ => None
  | RequestProofOfWorkData i _ _ _ => Some (i, OnWorkProofData i)
  | ResolveServers i _ => Some (i, OnResolveServers i)
  end.

Definition global_reg_callback (m : GlobalRegServerApi) : option (Z * callback) :=
  match m with SetMasterKey _ => None | Finish i => Some (i, OnFinish i) end.

Definition request_callback (m : server_message) : option (Z * callback) :=
  match m with
  | MRootApi m => root_callback m
  | MServerRegistrationApi m => server_reg_callback m
  | MGlobalRegServerApi m => global_reg_callback m
  | MLoginApi _ | MAuthorizedApi _ => None
  end.

Definition api_Pack (m : server_message) (c : Context_t) : bytes * Context_t :=
  (save (message_code m : uint 1) ++ body m,
   match request_callback m with
   | Some (i, cb) => AddSendResultCallback i cb c
   | None => c
   end).

(** Messages packed one after another. *)
Fixpoint pack_all (ms : list server_message) (c : Context_t) : bytes * Context_t :=
  match ms with
  | [] => ([], c)
  | m :: ms =>
      let '(bs, c) := api_Pack m c in
      let '(rest, c) := pack_all ms c in (bs ++ rest, c)
  end.

(** Running a callback: [Extract] and [MessageNotify]. *)
Definition Extract {T} `{Serial T} (mk : T -> notification) (st : list notification) (c : Context_t)
  (r : VectorReader) : list notification * Context_t * VectorReader :=
  let '(result, r) := load dflt r in (st ++ [mk result], c, r).

Definition run_callback (cb : callback) : list notification -> Context_t -> VectorReader ->
    list notification * Context_t * VectorReader :=
  match cb with
  | OnGetKeys i => Extract (GetKeysResponse i)
  | OnWorkProofData i => Extract (ResponseWorkProofData i)
  | OnResolveServers i => Extract (ResolveServersResponse i)
  | OnFinish i => Extract (ConfirmRegistration i)
  end.

(** ** APIs of the client *)

(** ["StreamApi"] and ["ClientSafeApi"] *)
Definition stream_class_id : Z := checksum_from_literal [83; 116; 114; 101; 97; 109; 65; 112; 105].
Definition safe_class_id : Z :=
  checksum_from_literal [67; 108; 105; 101; 110; 116; 83; 97; 102; 101; 65; 112; 105].

(** [ApiParser::Load]: the class is known to the context while the message is
    executed; executing it is notifying it. *)
Definition Load {T} `{Serial T} (class_id : Z) (this : Ptr) (mk : T -> notification)
  (st : list notification) (c : Context_t) (r : VectorReader)
  : list notification * Context_t * VectorReader :=
  let '(msg, r) := load dflt r in
  let c := PushApiClass class_id this c in
  let st := st ++ [mk msg] in
  (st, PopApiClass class_id c, r).

(** [StreamApi::LoadResult] *)
Definition stream_LoadResult (message_id : Z) (st : list notification) (c : Context_t) (r : VectorReader)
  : (list notification * Context_t * VectorReader) * bool :=
  if message_id =? 2
  then (Load (T := uint 1 * string) stream_class_id 0%nat (fun '(sid, d) => StreamMessage sid d) st c r, true)
  else (st, c, r, false).

(** [ExtendsApi<ReturnResultApi, StreamApi>::LoadExtend] *)
Definition LoadExtend (message_id : Z) (st : list notification) (c : Context_t) (r : VectorReader)
  : (list notification * Context_t * VectorReader) * bool :=
  let '(x, res) := LoadResult run_callback (fun e st => st ++ [SendError e.1 e.2]) 0%nat message_id st c r in
  if res : bool then (x, true) else let '(st, c, r) := x in stream_LoadResult message_id st c r.

Definition state : Type := list notification * Context_t.

(** [ClientApiRegSafe::LoadFactory] and [ClientGlobalRegApi::LoadFactory] *)
Definition reg_LoadFactory (message_id : Z) (st : state) (r : VectorReader)
  : outcome (state * VectorReader) :=
  let '(st', c', r', res) := LoadExtend message_id st.1 st.2 r in
  if res then Defined (st', c', r') else Undefined.

(** [ClientSafeApi::LoadFactory] *)
Definition client_LoadFactory (message_id : Z) (st : state) (r : VectorReader)
  : outcome (state * VectorReader) :=
  if message_id =? 3
  then Defined (Load (T := Uid * uint 1) safe_class_id 0%nat (fun '(u, s) => StreamToClient u s) st.1 st.2 r)
  else if message_id =? 4
  then Defined (Load (T := Uid * string) safe_class_id 0%nat (fun '(u, d) => SendMessage u d) st.1 st.2 r)
  else reg_LoadFactory message_id st r.

Definition RegApi : ApiClass state := {| LoadFactory := reg_LoadFactory |}.
Definition SafeApi : ApiClass state := {| LoadFactory := client_LoadFactory |}.

(** ** Lemmas *)

(** What a server answers with. *)
Inductive answer :=
  | AKeys (k : SignedKey)
  | AWork (p : PowParams)
  | AServers (l : vector ServerDescriptor)
  | AConfirm (p : RegistrationResponse).

Definition answer_data (a : answer) : bytes :=
  match a with AKeys v => save v | AWork v => save v | AServers v => save v | AConfirm v => save v end.

Definition answer_ok (a : answer) : Prop :=
  match a with AKeys v => valid v | AWork v => valid v | AServers v => valid v | AConfirm v => valid v end.

(** The request an answer belongs to, and the message it becomes. *)
Definition callback_for (i : Z) (a : answer) : callback :=
  match a with
  | AKeys _ => OnGetKeys i
  | AWork _ => OnWorkProofData i
  | AServers _ => OnResolveServers i
  | AConfirm _ => OnFinish i
  end.

Definition note (ia : Z * answer) : notification :=
  match ia.2 with
  | AKeys v => GetKeysResponse ia.1 v
  | AWork v => ResponseWorkProofData ia.1 v
  | AServers v => ResolveServersResponse ia.1 v
  | AConfirm v => ConfirmRegistration ia.1 v
  end.

(** A packet of answers. *)
Definition answers_packet (l : list (Z * answer)) : bytes :=
  l ≫= fun ia => PackSendResult ia.1 (answer_data ia.2).

Lemma run_answer i a st c pre post :
  answer_ok a ->
  run_callback (callback_for i a) st c (at_pos pre (answer_data a) post kYes)
  = (st ++ [note (i, a)], c, past pre (answer_data a) post kYes).
Proof.
  intros Ha. destruct a as [v|v|v|v]; cbn [callback_for run_callback answer_data note fst snd];
    unfold Extract; by rewrite (load_save v pre post kYes Ha).
Qed.

Lemma Parse_step (A : ApiClass state) fuel st pre id bs r :
  in_width 8 id ->
  Parse_loop (S fuel) st (at_pos pre (save (id : uint 1) ++ bs) [] r)
  = match LoadFactory id st (at_pos (pre ++ save (id : uint 1)) bs [] kYes) with
    | Defined (st', r') => Parse_loop fuel st' r'
    | Undefined => Some Undefined
    end.
Proof.
  intros Hid. cbn [Parse_loop].
  destruct (Nat.ltb_spec (offset_ (at_pos pre (save (id : uint 1) ++ bs) [] r))
              (length (data_ (at_pos pre (save (id : uint 1) ++ bs) [] r)))) as [_|Hge].
  - rewrite at_pos_app. cbn [save serial_uint]. rewrite load_uint_at by done.
    rewrite past_at_pos, yes_if_nonempty by (by apply le_bytes_nonempty). by rewrite ?app_nil_r.
  - unfold at_pos in Hge. cbn [offset_ data_] in Hge. rewrite !length_app in Hge. cbn in Hge. lia.
Qed.

Lemma with_callbacks_same (c : Context_t) m n : with_callbacks m (with_callbacks n c) = with_callbacks m c.
Proof. reflexivity. Qed.

(** The context after the answer to the request [i]. *)
Definition answered (i : Z) (c : Context_t) : Context_t :=
  PopApiClass kReturnResultClassId
    (with_callbacks (delete i (send_result_callbacks_ c)) (PushApiClass kReturnResultClassId 0%nat c)).

(** One answer of a packet. *)
Lemma answer_step fuel i a bs st c pre r :
  in_width 16 i -> answer_ok a -> send_result_callbacks_ c !! i = Some (callback_for i a) ->
  Parse_loop (H := RegApi) (S fuel) (st, c) (at_pos pre (PackSendResult i (answer_data a) ++ bs) [] r)
  = Parse_loop (H := RegApi) fuel (st ++ [note (i, a)], answered i c)
      (at_pos (pre ++ PackSendResult i (answer_data a)) bs [] kYes).
Proof.
  intros Hi Ha Hc. unfold PackSendResult, Pack, kSendResult. rewrite <- !app_assoc, Parse_step by done.
  cbn [LoadFactory RegApi]. unfold reg_LoadFactory, LoadExtend, LoadResult, kSendResult. cbn [Z.eqb fst snd].
  rewrite at_pos_app. cbn [save serial_uint]. rewrite load_uint_at by done.
  rewrite past_at_pos, yes_if_nonempty, at_pos_app by (by apply le_bytes_nonempty).
  unfold SetSendResultResponse. cbn [PushApiClass send_result_callbacks_].
  rewrite Hc, run_answer by done. cbn [send_result_callbacks_].
  rewrite past_at_pos, yes_if_yes. by rewrite !app_assoc.
Qed.

Fixpoint drop_callbacks (l : list (Z * answer)) (m : gmap Z callback) : gmap Z callback :=
  match l with [] => m | ia :: l => drop_callbacks l (delete ia.1 m) end.

Lemma drop_callbacks_lookup l m i :
  drop_callbacks l m !! i = if decide (i ∈ l.*1) then None else m !! i.
Proof.
  revert m. induction l as [|[j a] l IH]; intros m; cbn [drop_callbacks fmap list_fmap fst]; [done|].
  rewrite IH. destruct (decide (i = j)) as [->|Hne].
  - rewrite lookup_delete_eq, (decide_True (P := j ∈ _ :: _)) by left. by case_decide.
  - rewrite lookup_delete_ne by done. destruct (decide (i ∈ l.*1)).
    + by rewrite decide_True by (by right).
    + rewrite decide_False; [done|]. by intros [->|?]%elem_of_cons.
Qed.

Lemma length_SendResult i d : length (PackSendResult i d) = S (S (S (length d))).
Proof.
  unfold PackSendResult, Pack. cbn [save serial_uint]. rewrite !length_app, !length_le_bytes. done.
Qed.

Lemma answers_parse l fuel st c pre r :
  (length (answers_packet l) <= fuel)%nat -> NoDup l.*1 ->
  Forall (fun ia => in_width 16 ia.1 /\ answer_ok ia.2 /\
            send_result_callbacks_ c !! ia.1 = Some (callback_for ia.1 ia.2)) l ->
  exists r' c', Parse_loop (H := RegApi) fuel (st, c) (at_pos pre (answers_packet l) [] r)
  = Some (Defined (st ++ map note l, c', r')) /\
    send_result_callbacks_ c' = drop_callbacks l (send_result_callbacks_ c).
Proof.
  revert fuel st c pre r. induction l as [|[i a] l IH]; intros fuel st c pre r Hf Hn Hl.
  { exists (at_pos pre [] [] r), c. split; [|done]. cbn [answers_packet mbind list_bind map].
    rewrite app_nil_r. destruct fuel; cbn [Parse_loop]; unfold at_pos; cbn [offset_ data_ app];
      by rewrite app_nil_r, Nat.ltb_irrefl. }
  inversion Hl as [|? ? (Hi & Ha & Hc) Hl']; subst. inversion Hn as [|? ? Hni Hn']; subst.
  unfold answers_packet in *. rewrite bind_cons in *. cbn [fst snd] in *.
  rewrite length_app in Hf. destruct fuel as [|fuel].
  { rewrite length_SendResult in Hf. lia. }
  rewrite answer_step by done.
  destruct (IH fuel (st ++ [note (i, a)]) (answered i c)
              (pre ++ PackSendResult i (answer_data a)) kYes) as (r' & c' & E & Ec).
  - rewrite length_SendResult in Hf. lia.
  - done.
  - apply Forall_forall. intros [j b] Hj. rewrite Forall_forall in Hl'. destruct (Hl' _ Hj) as (? & ? & Hc').
    split_and!; try done. cbn [answered PopApiClass send_result_callbacks_ with_callbacks fst snd].
    rewrite lookup_delete_ne; [done|].
    intros ->. apply Hni. apply list_elem_of_fmap. exists (j, b). split; [done|by apply list_elem_of_In].
  - exists r', c'. rewrite E. split; [|done]. cbn [map]. by rewrite <- app_assoc.
Qed.

(** The callbacks the requests leave. *)
Lemma pack_all_callbacks ms c :
  NoDup (omap request_callback ms).*1 ->
  (forall i, i ∈ (omap request_callback ms).*1 -> send_result_callbacks_ c !! i = None) ->
  forall i cb, (i, cb) ∈ omap request_callback ms -> send_result_callbacks_ (pack_all ms c).2 !! i = Some cb.
Proof.
  revert c. assert (forall ms c i cb, send_result_callbacks_ c !! i = Some cb ->
    send_result_callbacks_ (pack_all ms c).2 !! i = Some cb) as Keep.
  { clear ms. induction ms as [|m ms IH]; intros c i cb Hc; [done|]. cbn [pack_all api_Pack].
    destruct (pack_all ms _) as [rest c'] eqn:E. cbn. change c' with (rest, c').2. rewrite <- E. apply IH.
    destruct (request_callback m) as [[j cb']|]; [|done]. unfold AddSendResultCallback.
    destruct (send_result_callbacks_ c !! j) eqn:Ej; [done|]. cbn. rewrite lookup_insert_ne; congruence. }
  induction ms as [|m ms IH]; intros c Hn Hc i cb Hi; [by apply not_elem_of_nil in Hi|].
  cbn [pack_all api_Pack]. destruct (pack_all ms _) as [rest c'] eqn:E. cbn [snd].
  change c' with (rest, c').2. rewrite <- E. cbn [omap list_omap] in Hn, Hc, Hi.
  destruct (request_callback m) as [[j cb']|]; [|by apply IH].
  cbn [fmap list_fmap fst] in Hn, Hc. inversion Hn as [|? ? Hnj Hn']; subst.
  assert (AddSendResultCallback j cb' c = with_callbacks (<[j := cb']> (send_result_callbacks_ c)) c) as ->
    by (unfold AddSendResultCallback; by rewrite Hc by left).
  apply elem_of_cons in Hi as [[= -> ->]|Hi].
  - apply Keep. apply lookup_insert_eq.
  - apply IH; [done| |done]. intros k Hk. cbn. rewrite lookup_insert_ne; [apply Hc; by right|].
    intros ->. done.
Qed.
End Config.
End Api.

(** ** Properties *)
Module ApiMessagesProperties.
Import Api WireProperties.

Lemma load_body_at (C : Config) (m like : server_message) pre post r :
  message_ok m -> same_api like m = true -> message_code like = message_code m ->
  load_body like (at_pos pre (body m) post r) = (m, past pre (body m) post r).
Proof.
  intros Hm Ha Hc.
  destruct m as [m|m|m|m|m], like as [n|n|n|n|n]; try discriminate Ha; clear Ha;
    destruct m, n; try discriminate Hc; clear Hc;
    cbv [load_body body message_ok root_load root_body root_ok server_reg_load server_reg_body server_reg_ok
         global_reg_load global_reg_body global_reg_ok login_load login_body login_ok
         authorized_load authorized_body authorized_ok] in *;
    lazymatch goal with
    | |- context[@save ?T ?S ?v] => by rewrite (@load_save T S _ v pre post r Hm)
    end.
Qed.

(** One message of each type. *)
Definition message_types : list server_message :=
  [MRootApi (GetAsymmetricPublicKey 0 kSodiumLib); MRootApi (Enter 0 kSodiumLib);
   MServerRegistrationApi (Registration 0 [] [] [] [] {| key_order := 0; key := [] |});
   MServerRegistrationApi (RequestProofOfWorkData 0 [] kBCryptCrc32 {| key_order := 0; key := [] |});
   MServerRegistrationApi (ResolveServers 0 []);
   MGlobalRegServerApi (SetMasterKey {| key_order := 0; key := [] |}); MGlobalRegServerApi (Finish 0);
   MLoginApi (LoginByUid 0 []); MLoginApi (LoginByAlias [] 0);
   MAuthorizedApi Ping; MAuthorizedApi (OpenStreamToClient [] 0); MAuthorizedApi (AuthSendMessage 0 [] []);
   MAuthorizedApi (Resolvers 0 0)].

(** The type of message an API has under a code. *)
Definition type_of (api : server_message) (code : Z) : option server_message :=
  find (fun t => same_api api t && (message_code t =? code)) message_types.

(** A packet read as the messages of an API. *)
Fixpoint read_messages `{Config} (fuel : nat) (api : server_message) (r : VectorReader)
  : option (list server_message) :=
  if (offset_ r <? length (data_ r))%nat then
    match fuel with
    | O => None
    | S fuel =>
        let '(code, r) := load_uint 1 255 r in
        match type_of api code with
        | Some t => let '(m, r) := load_body t r in cons m <$> read_messages fuel api r
        | None => None
        end
    end
  else Some [].

Lemma type_of_message api m :
  same_api api m = true ->
  exists t, type_of api (message_code m) = Some t /\ same_api t m = true /\ message_code t = message_code m.
Proof.
  destruct api, m as [[]|[]|[]|[]|[]]; try done; intros _; eexists; (split; [reflexivity|done]).
Qed.

Lemma code_width m : in_width 8 (message_code m).
Proof. by destruct m as [[]|[]|[]|[]|[]]. Qed.

Lemma read_messages_at (C : Config) ms api fuel c pre r :
  Forall (fun m => message_ok m /\ same_api api m = true) ms ->
  (length (pack_all ms c).1 <= fuel)%nat ->
  read_messages fuel api (at_pos pre (pack_all ms c).1 [] r) = Some ms.
Proof.
  intros Hm. revert fuel c pre r. induction Hm as [|m ms [Hm Ha] _ IH]; intros fuel c pre r Hf.
  { destruct fuel; cbn [pack_all fst read_messages]; unfold at_pos; cbn [offset_ data_];
      by rewrite app_nil_r, Nat.ltb_irrefl. }
  cbn [pack_all api_Pack] in *. destruct (pack_all ms _) as [rest c'] eqn:E. cbn [fst] in *.
  rewrite !length_app in Hf. cbn [save serial_uint] in *. rewrite length_le_bytes in Hf.
  destruct fuel as [|fuel]; [lia|]. cbn [read_messages].
  destruct (Nat.ltb_spec (offset_ (at_pos pre ((le_bytes 1 (message_code m) ++ body m) ++ rest) [] r))
    (length (data_ (at_pos pre ((le_bytes 1 (message_code m) ++ body m) ++ rest) [] r)))) as [_|Hge].
  2:{ unfold at_pos in Hge. cbn [offset_ data_] in Hge. rewrite !length_app, length_le_bytes in Hge. lia. }
  rewrite <- app_assoc, at_pos_app, load_uint_at by (done || apply code_width).
  destruct (type_of_message api m Ha) as (t & -> & Ht & Hc).
  rewrite past_at_pos, at_pos_app, (load_body_at C m t), past_at_pos by done.
  change rest with (rest, c').1. rewrite <- E, IH; [done|]. rewrite E. cbn. lia.
Qed.

(** C33: whatever messages of one API are packed, reading the packet by the codes of
    that API gives the same messages, in every configuration of the crypto
    libraries. *)
Theorem api_messages_roundtrip (C : Config) ms api c :
  Forall (fun m => message_ok m /\ same_api api m = true) ms ->
  read_messages (length (pack_all ms c).1) api (new_reader (pack_all ms c).1) = Some ms.
Proof.
  intros Hm. pose proof (read_messages_at C ms api (length (pack_all ms c).1) c [] kNo Hm) as E.
  unfold at_pos in E. cbn [app length] in E. rewrite app_nil_r in E. by apply E.
Qed.

Definition sample_uid : Uid := [1; 2; 3; 4; 5; 6; 7; 8; 9; 10; 11; 12; 13; 14; 15; 16].

Lemma sample_uid_ok : valid sample_uid.
Proof. split; [done|]. repeat (apply Forall_cons_2; [done|]). apply Forall_nil_2. Qed.

Lemma api_messages_roundtrip_witness :
  let ms := [MLoginApi (LoginByAlias sample_uid 5); MLoginApi (LoginByUid 6 sample_uid)] in
  read_messages (H := sample_build) (length (pack_all (H := sample_build) ms new_context).1) (MLoginApi (LoginByUid 0 []))
    (new_reader (pack_all (H := sample_build) ms new_context).1) = Some ms.
Proof.
  apply (api_messages_roundtrip sample_build).
  apply Forall_cons_2; [|apply Forall_cons_2; [|apply Forall_nil_2]].
  - split; [split; [exact sample_uid_ok|done]|done].
  - split; [split; [done|exact sample_uid_ok]|done].
Defined.

(** The identifier of a request, and the answers it may get. *)
Definition request_id (m : server_message) : option Z :=
  match m with
  | MRootApi (GetAsymmetricPublicKey i _) => Some i
  | MServerRegistrationApi (RequestProofOfWorkData i _ _ _) => Some i
  | MServerRegistrationApi (ResolveServers i _) => Some i
  | MGlobalRegServerApi (Finish i) => Some i
  | _ => None
  end.

Definition answers_request (m : server_message) (a : answer) : bool :=
  match m, a with
  | MRootApi (GetAsymmetricPublicKey _ _), AKeys _ => true
  | MServerRegistrationApi (RequestProofOfWorkData _ _ _ _), AWork _ => true
  | MServerRegistrationApi (ResolveServers _ _), AServers _ => true
  | MGlobalRegServerApi (Finish _), AConfirm _ => true
  | _, _ => false
  end.

Lemma request_ids ms : (omap request_callback ms).*1 = omap request_id ms.
Proof.
  induction ms as [|m ms IH]; [done|]. cbn [omap list_omap].
  destruct m as [[]|[]|[]|[]|[]]; cbn [request_callback root_callback server_reg_callback
    global_reg_callback request_id]; rewrite <- ?IH; done.
Qed.

Lemma request_has_callback m i a :
  request_id m = Some i -> answers_request m a = true -> request_callback m = Some (i, callback_for i a).
Proof. destruct m as [[]|[]|[]|[]|[]], a; try done; by intros [= ->]. Qed.

Lemma request_some_callback m i : request_id m = Some i -> exists cb, request_callback m = Some (i, cb).
Proof. destruct m as [[]|[]|[]|[]|[]]; try done; intros [= ->]; eexists; reflexivity. Qed.

(** C10: however many requests are open, answers that arrive in any order and any
    number per packet are read completely, each becomes the message of the request
    with its identifier, and the callbacks that are left are those of the requests
    without an answer. *)
Theorem answers_matched (C : Config) ms l st :
  NoDup (omap request_id ms) -> NoDup l.*1 ->
  Forall (fun ia => in_width 16 ia.1 /\ answer_ok ia.2 /\
            exists m, m ∈ ms /\ request_id m = Some ia.1 /\ answers_request m ia.2 = true) l ->
  exists c r, Parse (H := RegApi) (st, (pack_all ms new_context).2) (answers_packet l)
              = Some (Defined (st ++ map note l, c, r)) /\
    forall m i, m ∈ ms -> request_id m = Some i ->
      (is_Some (send_result_callbacks_ c !! i) <-> i ∉ l.*1).
Proof.
  intros Hm Hl Ha. assert (forall i cb, (i, cb) ∈ omap request_callback ms ->
    send_result_callbacks_ (pack_all ms new_context).2 !! i = Some cb) as Hc
    by (apply pack_all_callbacks; rewrite ?request_ids; done).
  destruct (answers_parse l (length (answers_packet l)) st (pack_all ms new_context).2 [] kNo)
    as (r & c & E & Ec); [done|done| |].
  - eapply Forall_impl; [|exact Ha]. intros [i a] (H1 & H2 & m & H3 & H4 & H5). split_and!; [done|done|].
    apply Hc. apply list_elem_of_omap. exists m. split; [done|by apply request_has_callback].
  - unfold at_pos in E. cbn [app length] in E. rewrite app_nil_r in E.
    exists c, r. split; [exact E|]. intros m i Hin Hid. rewrite Ec.
    destruct (request_some_callback m i Hid) as [cb Hcb]. rewrite drop_callbacks_lookup, (Hc i cb).
    + by case_decide.
    + apply list_elem_of_omap. eauto.
Qed.

Lemma answers_matched_witness :
  exists c r, Parse (H := RegApi (H := sample_build))
      ([], (pack_all (H := sample_build)
              [MServerRegistrationApi (ResolveServers 7 [3]); MAuthorizedApi Ping;
               MGlobalRegServerApi (Finish 8); MGlobalRegServerApi (Finish 9)] new_context).2)
      (answers_packet (H := sample_build)
         [(9, AConfirm {| ephemeral_uid := sample_uid; uid := sample_uid; cloud := [3; 4] |});
          (7, AServers [])])
    = Some (Defined ([] ++ [ConfirmRegistration 9 {| ephemeral_uid := sample_uid; uid := sample_uid; cloud := [3; 4] |};
                       ResolveServersResponse 7 []], c, r)).
Proof.
  destruct (answers_matched sample_build [MServerRegistrationApi (ResolveServers 7 [3]); MAuthorizedApi Ping;
               MGlobalRegServerApi (Finish 8); MGlobalRegServerApi (Finish 9)]
    [(9, AConfirm {| ephemeral_uid := sample_uid; uid := sample_uid; cloud := [3; 4] |}); (7, AServers [])] [])
    as (c & r & E & _).
  - apply (bool_decide_unpack _). by vm_compute.
  - apply (bool_decide_unpack _). by vm_compute.
  - apply Forall_cons_2; [|apply Forall_cons_2; [|apply Forall_nil_2]]; (split; [done|split]).
    + split; [split; exact sample_uid_ok|]. split; [done|].
      apply Forall_cons_2; [done|]. apply Forall_cons_2; [done|apply Forall_nil_2].
    + exists (MGlobalRegServerApi (Finish 9)). split; [apply list_elem_of_In; cbn; tauto|done].
    + split; [done|apply Forall_nil_2].
    + exists (MServerRegistrationApi (ResolveServers 7 [3])). split; [apply list_elem_of_In; cbn; tauto|done].
  - exists c, r. exact E.
Defined.

(** An answer without a request ends the parsing: what follows it in the packet is
    never read. *)
Theorem stray_answer_drops_rest (C : Config) i data rest st c :
  in_width 16 i -> send_result_callbacks_ c !! i = None ->
  exists r, Parse (H := RegApi) (st, c) (PackSendResult i data ++ rest)
    = Some (Defined (st, PopApiClass kReturnResultClassId (PushApiClass kReturnResultClassId 0%nat c), r)).
Proof.
  intros Hi Hc. unfold Parse, new_reader.
  assert (exists f, length (PackSendResult i data ++ rest) = S f) as [f ->].
  { rewrite length_app, length_SendResult. eexists. reflexivity. }
  pose proof (Parse_step RegApi f (st, c) [] 0 (save (i : uint 2) ++ data ++ rest) kNo) as E.
  unfold at_pos at 1 in E. cbn [app length] in E. rewrite app_nil_r in E.
  unfold PackSendResult, Pack, kSendResult. rewrite <- !app_assoc. rewrite E by done. clear E.
  cbn [LoadFactory RegApi]. unfold reg_LoadFactory, LoadExtend, LoadResult, kSendResult. cbn [Z.eqb fst snd].
  rewrite at_pos_app. cbn [save serial_uint]. rewrite load_uint_at by done.
  rewrite past_at_pos. unfold SetSendResultResponse. cbn [PushApiClass send_result_callbacks_].
  rewrite Hc. unfold Cancel.
  eexists. destruct f; cbn [Parse_loop offset_ data_]; by rewrite Nat.ltb_irrefl.
Qed.

Lemma stray_answer_drops_rest_witness :
  let c := (pack_all (H := sample_build) [MGlobalRegServerApi (Finish 8)] new_context).2 in
  exists r, Parse (H := RegApi (H := sample_build)) ([], c) (PackSendResult 5 [1] ++ PackSendError 8 400)
    = Some (Defined ([], PopApiClass kReturnResultClassId (PushApiClass kReturnResultClassId 0%nat c), r)).
Proof. intros c. by apply (stray_answer_drops_rest sample_build). Defined.

(** ** Messages to the client *)

Inductive client_message :=
  | MStreamToClient (uid : Uid) (stream_id : Z)
  | MSendMessage (uid : Uid) (data : string).

Definition client_code (m : client_message) : Z :=
  match m with MStreamToClient _ _ => 3 | MSendMessage _ _ => 4 end.

Definition client_body (m : client_message) : bytes :=
  match m with
  | MStreamToClient u s => save ((u, s) : Uid * uint 1)
  | MSendMessage u d => save ((u, d) : Uid * string)
  end.

Definition client_ok (m : client_message) : Prop :=
  match m with
  | MStreamToClient u s => valid ((u, s) : Uid * uint 1)
  | MSendMessage u d => valid ((u, d) : Uid * string)
  end.

Definition client_note (m : client_message) : notification :=
  match m with MStreamToClient u s => StreamToClient u s | MSendMessage u d => SendMessage u d end.

Definition client_execute (m : client_message) (st : state) : outcome state :=
  Defined (st.1 ++ [client_note m], PopApiClass safe_class_id (PushApiClass safe_class_id 0%nat st.2)).

Lemma client_execute_all ms st :
  exists c, execute_all client_execute ms st = Defined (st.1 ++ map client_note ms, c) /\
    send_result_callbacks_ c = send_result_callbacks_ st.2.
Proof.
  revert st. induction ms as [|m ms IH]; intros [st c]; cbn [execute_all client_execute].
  - exists c. cbn. by rewrite app_nil_r.
  - destruct (IH (st ++ [client_note m], PopApiClass safe_class_id (PushApiClass safe_class_id 0%nat c)))
      as (c' & E & H). exists c'. cbn [fst snd map] in *. rewrite E, <- app_assoc. done.
Qed.

(** Every packet of messages to the client is read to its end, and the messages
    are notified in the order they were packed. *)
Theorem client_messages_notified (C : Config) ms st c :
  Forall client_ok ms ->
  exists c' r, Parse (H := SafeApi) (st, c) (PacketBuilder_Pack (pack_one client_code client_body) ms)
    = Some (Defined (st ++ map client_note ms, c', r)) /\
    send_result_callbacks_ c' = send_result_callbacks_ c.
Proof.
  intros Hm. rewrite (Parse_packed (H := SafeApi) client_code client_body client_ok client_execute).
  - destruct (client_execute_all ms (st, c)) as (c' & -> & H). exists c'. eexists. split; [reflexivity|done].
  - by intros [].
  - intros [u s|u d] [st' c''] pre post Hv; cbn [client_ok] in Hv;
      cbn [LoadFactory SafeApi client_code client_body client_execute fst snd]; unfold client_LoadFactory, Load;
      cbn [Z.eqb Pos.eqb fst snd].
    + by rewrite (load_save ((u, s) : Uid * uint 1) pre post kYes Hv).
    + by rewrite (load_save ((u, d) : Uid * string) pre post kYes Hv).
  - done.
Qed.

Lemma client_messages_notified_witness :
  exists c r, Parse (H := SafeApi (H := sample_build)) ([], new_context)
      (PacketBuilder_Pack (pack_one client_code client_body)
         [MSendMessage sample_uid [7]; MStreamToClient sample_uid 9])
    = Some (Defined ([] ++ [SendMessage sample_uid [7]; StreamToClient sample_uid 9], c, r)).
Proof.
  destruct (client_messages_notified sample_build [MSendMessage sample_uid [7]; MStreamToClient sample_uid 9]
              [] new_context) as (c & r & E & _).
  - apply Forall_cons_2; [|apply Forall_cons_2; [|apply Forall_nil_2]]; (split; [exact sample_uid_ok|]); [|done].
    split; [done|]. apply Forall_cons_2; [done|apply Forall_nil_2].
  - exists c, r. exact E.
Defined.
End ApiMessagesProperties.
