(* ===== verification/StreamStack.v ===== *)
(** * Chains of gates ([istream.h], [tied_stream.h] and the streams built of them)

    The class [IGate] is what a chain uses of a gate: the packet it hands to the
    gate behind, and the size of elements it leaves to the gate in front.  A pair
    is two gates tied together ([Tie], [TiedStream]); [IGateOk] says that an element
    within the advertised size gives a packet within the size of the gate behind,
    and is proved for every gate and for pairs.

    With them: the gates of [debug_gate.*], [protocol_stream.h],
    [serialize_stream.h], [transport_write_gate.*] and [unidirectional_gate.h], the
    stream of a client to a server ([client_to_server_stream.*]) and the streams of
    messages over it ([client_messages/]).

    The data a gate emits is returned.  A failed [assert] is [Undefined]. *)

From stdpp Require Import gmap.
From S2P Require Import Prelude MStream PackedInt ApiProtocol StateMachine BufferGate Streams Crypto.
From S2P Require Import SocketTransport ServerTransport ServerList WireTypes ApiMessages.
Import PackedSize Keys Api ServerKeys Cipher.

#[local] Set Warnings "-notation-overridden".
#[local] Existing Instance StreamWrite.State_eq_dec.

Module Stack.

(** ** Gates *)

Class IGate (G : Type) := {
  Write : G -> bytes -> G * bytes;
  stream_info : G -> StreamInfo -> StreamInfo;
}.

Class IGateOk (G : Type) `{IGate G} := {
  gate_ok : G -> Prop;
  Write_ok : forall g data, gate_ok g -> gate_ok (Write g data).1;
  Write_info : forall g data info, stream_info (Write g data).1 info = stream_info g info;
  info_shrinks : forall g info, gate_ok g -> 0 <= max_element_size info ->
    0 <= max_element_size (stream_info g info) <= max_element_size info;
  Write_fits : forall g data info, gate_ok g ->
    0 < max_element_size (stream_info g info) -> max_element_size info < kUpper ->
    0 <= max_element_size info ->
    zlen data <= max_element_size (stream_info g info) ->
    zlen (Write g data).2 <= max_element_size info;
}.

(** The left gate hands its packets to the right one. *)
Section Tie.
Context {A B : Type} `{IGate A} `{IGate B}.

#[export] Instance Tie : IGate (A * B) := {
  Write g data :=
    let '(a, p) := Write g.1 data in
    let '(b, p) := Write g.2 p in ((a, b), p);
  stream_info g info := stream_info g.1 (stream_info g.2 info);
}.

Context `{!IGateOk A} `{!IGateOk B}.

#[export] Program Instance Tie_ok : IGateOk (A * B) := {
  gate_ok g := gate_ok g.1 /\ gate_ok g.2;
}.
Next Obligation.
  intros [a b] data [Ha Hb]. cbn [Write Tie fst snd] in *. pose proof (Write_ok a data Ha) as H1.
  destruct (Write a data) as [a' p]. pose proof (Write_ok b p Hb) as H2.
  destruct (Write b p) as [b' q]. done.
Qed.
Next Obligation.
  intros [a b] data info. cbn [Write stream_info Tie fst snd]. pose proof (Write_info a data) as H1.
  destruct (Write a data) as [a' p]. pose proof (Write_info b p info) as H2.
  destruct (Write b p) as [b' q]. cbn [fst snd] in *. by rewrite H1, H2.
Qed.
Next Obligation.
  intros [a b] info [Ha Hb] Hi. cbn [stream_info Tie fst snd] in *.
  pose proof (info_shrinks b info Hb Hi) as H1. pose proof (info_shrinks a _ Ha (proj1 H1)). lia.
Qed.
Next Obligation.
  intros [a b] data info [Ha Hb] Hp Hu Hi Hd. cbn [stream_info Write Tie fst snd] in *.
  pose proof (info_shrinks b info Hb Hi) as H1. pose proof (info_shrinks a _ Ha (proj1 H1)) as H2.
  pose proof (Write_fits a data (stream_info b info) Ha) as F.
  destruct (Write a data) as [a' p]. cbn [snd] in F.
  pose proof (Write_fits b p info Hb) as F'. destruct (Write b p) as [b' q]. cbn [snd] in *.
  apply F'; [lia|done|done|]. apply F; lia.
Qed.
End Tie.

(** *** Gates that pass everything *)

(** [Gate<TIn, TOut, TIn, TOut>], [DebugGate] (which also logs), [WriteOnlyGate] and
    the writing side of [ProtocolReadGate]. *)
Record ByteGate := {}.

#[export] Instance ByteGate_gate : IGate ByteGate := {
  Write g data := (g, data); stream_info _ info := info;
}.

#[export] Program Instance ByteGate_ok : IGateOk ByteGate := { gate_ok _ := True }.
Next Obligation. done. Qed.
Next Obligation. done. Qed.
Next Obligation. cbn. lia. Qed.
Next Obligation. cbn. lia. Qed.

(** *** [AddHeaderGate] *)
Record AddHeaderGate := { header_ : bytes }.

#[export] Instance AddHeaderGate_gate : IGate AddHeaderGate := {
  Write g data := (g, Header.header_write (header_ g) data);
  stream_info g := Header.header_stream_info (header_ g);
}.

(** [ProtocolWriteGate]: the header is a packed message. *)
Definition ProtocolWriteGate `{Config} (m : server_message) : AddHeaderGate :=
  {| header_ := (api_Pack m new_context).1 |}.

Lemma less_overhead_range n info :
  0 <= n -> 0 <= max_element_size info ->
  0 <= max_element_size (less_overhead n info) <= max_element_size info.
Proof. intros Hn Hi. unfold less_overhead. cbn [max_element_size]. destruct (Z.gtb_spec (max_element_size info) n); lia. Qed.

Lemma less_overhead_fits n info x :
  0 < max_element_size (less_overhead n info) -> x <= max_element_size (less_overhead n info) ->
  x + n <= max_element_size info.
Proof. unfold less_overhead. cbn [max_element_size]. destruct (Z.gtb_spec (max_element_size info) n); lia. Qed.

#[export] Program Instance AddHeaderGate_ok : IGateOk AddHeaderGate := { gate_ok _ := True }.
Next Obligation. done. Qed.
Next Obligation. done. Qed.
Next Obligation. intros g info _ Hi. by apply less_overhead_range; [apply zlen_nonneg|]. Qed.
Next Obligation.
  intros g data info _ Hp _ _ Hd. cbn [Write AddHeaderGate_gate snd]. unfold Header.header_write, vector_write.
  rewrite !zlen_app. change (zlen []) with 0. pose proof (less_overhead_fits _ _ _ Hp Hd). lia.
Qed.

(** *** [StreamApiGate] *)

#[export] Instance StreamApiGate_gate : IGate Splitter.StreamApiGate := {
  Write g data := (g, Splitter.gate_write (Splitter.stream_id_ g) data);
  stream_info _ := Splitter.gate_stream_info;
}.

Lemma packed_save_short v : 0 <= v < kUpper -> zlen (packed_save v) <= 8.
Proof. intros Hv. unfold zlen. rewrite length_packed_save by done. repeat case_match; lia. Qed.

Lemma gate_write_bytes sid data :
  Splitter.gate_write sid data = le_bytes 1 2 ++ le_bytes 1 sid ++ packed_save (zlen data) ++ scalar_image 1 data.
Proof. unfold Splitter.gate_write, PacketBuilder_Pack. cbn. by rewrite app_nil_r. Qed.

#[export] Program Instance StreamApiGate_ok : IGateOk Splitter.StreamApiGate := { gate_ok _ := True }.
Next Obligation. done. Qed.
Next Obligation. done. Qed.
Next Obligation. intros g info _ Hi. by apply less_overhead_range. Qed.
Next Obligation.
  intros g data info _ Hp Hu Hi Hd. cbn [Write StreamApiGate_gate snd].
  pose proof (less_overhead_fits _ _ _ Hp Hd) as Hf. unfold Splitter.kStreamMessageOverhead in Hf.
  rewrite gate_write_bytes. assert (0 <= zlen data < kUpper) as Hz by (split; [apply zlen_nonneg|lia]).
  pose proof (packed_save_short _ Hz). rewrite !zlen_app.
  assert (zlen (scalar_image 1 data) = zlen data) as -> by (unfold zlen; rewrite length_scalar_image; lia).
  change (zlen (le_bytes 1 2)) with 1. unfold zlen at 1. rewrite length_le_bytes. lia.
Qed.

(** *** [CryptoGate] with the keys of a server *)
Section Crypto.
Context {SKey : Type} (kNonceSize ABYTES : nat).
Context (aead_encrypt : SKey -> bytes -> bytes -> bytes) (aead_decrypt : SKey -> bytes -> bytes -> option bytes).

Record CryptoGate := { keys_ : @ServerKeys SKey }.

#[export] Instance CryptoGate_gate : IGate CryptoGate := {
  Write g data := let '(k, p) := crypto_write aead_encrypt (keys_ g) data in ({| keys_ := k |}, p);
  stream_info _ := crypto_stream_info kNonceSize ABYTES;
}.

Context (Hauth : authentic kNonceSize ABYTES aead_encrypt aead_decrypt) (Hnonce : (8 <= kNonceSize)%nat).

Lemma CryptoGate_shrinks (g : CryptoGate) info :
  0 <= max_element_size info ->
  0 <= max_element_size (stream_info g info) <= max_element_size info.
Proof. intros Hi. apply less_overhead_range; [unfold EncryptOverhead; lia|done]. Qed.

Program Definition CryptoGate_ok : IGateOk CryptoGate := {|
  gate_ok g := length (nonce_ (keys_ g)) = kNonceSize;
|}.
Next Obligation.
  intros g data Hg. cbn [Write CryptoGate_gate crypto_write Encrypt provider_nonce fst keys_ nonce_ keys_next] in *.
  rewrite CryptoProperties.Next_length; lia.
Qed.
Next Obligation. done. Qed.
Next Obligation. intros g info _ Hi. by apply CryptoGate_shrinks. Qed.
Next Obligation.
  intros g data info Hg Hp _ _ Hd. pose proof (less_overhead_fits _ _ _ Hp Hd) as Hf.
  cbn [Write CryptoGate_gate crypto_write Encrypt provider_nonce snd]. unfold EncryptWithSymmetric, EncryptOverhead in *.
  assert (length (nonce_ (keys_next (keys_ g))) = kNonceSize) as N
    by (cbn [nonce_ keys_next]; rewrite CryptoProperties.Next_length; lia).
  destruct (Hauth (client_to_server_key_ (keys_next (keys_ g))) (nonce_ (keys_next (keys_ g))) data N) as [E _].
  rewrite zlen_app. unfold zlen in *. rewrite E, N. lia.
Qed.
End Crypto.

(** ** [SerializeGate] *)
Section Serialize.
Context {TIn TOut : Type} `{Serial TIn} `{Serial TOut}.

(** [Write], and what is emitted for the data of the gate behind. *)
Definition serialize_write (in_data : TIn) : bytes := save in_data.

Definition serialize_out_data (data : bytes) : TOut := (load dflt (new_reader data)).1.
End Serialize.

(** ** [TransportWriteGate] *)

Record TransportWriteGate := { stream_info_ : StreamInfo }.

Definition new_transport_gate (max_packet_size : Z) : TransportWriteGate :=
  {| stream_info_ := {| max_element_size := max_packet_size; is_linked := false; is_writeble := false;
                        is_soft_writable := false |} |}.

(** The handler of [ConnectionSuccess]; the event of the gate follows. *)
Definition on_connection_success (max_packet_size : Z) (g : TransportWriteGate) : TransportWriteGate :=
  {| stream_info_ := {| max_element_size := max_packet_size; is_linked := true; is_writeble := true;
                        is_soft_writable := true |} |}.

(** [ReceiveData]: the data is emitted. *)
Definition ReceiveData (data : bytes) : list bytes := [data].

(** [TransportStreamWriteAction]: the handlers of the end of the packet. *)
Definition on_packet_end (d : PacketSend.done) (packet_state : PacketSend.State)
  (m : StateMachine StreamWrite.State) : outcome (StateMachine StreamWrite.State * StreamWrite.ending) :=
  match d with
  | PacketSend.Result => Defined (SM.set StreamWrite.kDone m, StreamWrite.Result)
  | PacketSend.Error =>
      match packet_state with
      | PacketSend.kTimeout => Defined (SM.set StreamWrite.kTimeout m, StreamWrite.Error)
      | PacketSend.kFailed => Defined (SM.set StreamWrite.kFailed m, StreamWrite.Error)
      | _ => Undefined
      end
  | PacketSend.Stopped => Defined (SM.set StreamWrite.kStopped m, StreamWrite.Stop)
  end.

(** From the packet of a socket to the action of the writer: the action of the
    channel takes over how it ended, the packet of the server what the channel says,
    and the action of the writer what the packet of the server says. *)
Definition end_of_write (a : ChannelPacket.ChannelPacketSendAction) (p : ServerQueue.ServerSendPacketAction)
  (m : StateMachine StreamWrite.State) : outcome (option (StateMachine StreamWrite.State * StreamWrite.ending)) :=
  let '(a, d) := ChannelPacket.low_update a in
  match d with
  | None => Defined None
  | Some _ =>
      let '(p, d) := ServerQueue.Update
        (ServerQueue.low_level (state_ (ChannelPacket.cp_state a)) p) in
      match d with
      | None => Defined None
      | Some d =>
          let* x := on_packet_end d (state_ (ServerQueue.sp_state p)) m in Defined (Some x)
      end
  end.

(** ** [ParallelGate] of a write gate and a read gate *)
Section Parallel.
Context {W : Type} `{IGate W}.

Record ParallelGate := { write_gate_ : W }.

#[export] Instance ParallelGate_gate : IGate ParallelGate := {
  Write g data := let '(w, p) := Write (write_gate_ g) data in ({| write_gate_ := w |}, p);
  stream_info g := stream_info (write_gate_ g);
}.

#[export] Program Instance ParallelGate_ok `{!IGateOk W} : IGateOk ParallelGate := {
  gate_ok g := gate_ok (write_gate_ g);
}.
Next Obligation.
  intros ? g data Hg. cbn [Write ParallelGate_gate]. pose proof (Write_ok (write_gate_ g) data Hg) as Hw.
  by destruct (Write (write_gate_ g) data).
Qed.
Next Obligation.
  intros ? g data info. cbn [Write stream_info ParallelGate_gate]. pose proof (Write_info (write_gate_ g) data info).
  by destruct (Write (write_gate_ g) data).
Qed.
Next Obligation. intros ? g info Hg. apply (info_shrinks (write_gate_ g) info Hg). Qed.
Next Obligation.
  intros ? g data info Hg. cbn [Write stream_info ParallelGate_gate].
  pose proof (Write_fits (write_gate_ g) data info Hg) as Hw. by destruct (Write (write_gate_ g) data).
Qed.
End Parallel.

(** ** The stream to a server, and streams of messages over it *)
Section Streams.
Context `{Config} {SKey : Type} (kNonceSize ABYTES : nat).
Context (aead_encrypt : SKey -> bytes -> bytes -> bytes) (aead_decrypt : SKey -> bytes -> bytes -> option bytes).

#[local] Existing Instance CryptoGate_gate.
#[local] Instance crypto_gate : IGate CryptoGate := CryptoGate_gate kNonceSize ABYTES aead_encrypt.

(** [ClientToServerStream]: the gates of [InitStreams], from left to right:
    [DebugGate], [CryptoGate], [StreamApiGate], [ProtocolWriteGate],
    [ProtocolReadGate]; the [TransportWriteGate] is behind them. *)
Definition ServerStream : Type :=
  ByteGate * (@CryptoGate SKey * (Splitter.StreamApiGate * (AddHeaderGate * ByteGate))).

#[local] Instance ServerStream_gate : IGate ServerStream := Tie.

Definition server_stream (keys : @ServerKeys SKey) (uid : Uid) (stream_id : Z) : ServerStream :=
  (Build_ByteGate, ({| keys_ := keys |}, ({| Splitter.stream_id_ := stream_id |},
   (ProtocolWriteGate (MLoginApi (LoginByUid stream_id uid)), Build_ByteGate)))).

(** [InitStreams]: the identifier is taken, and a ping written. *)
Definition InitStreams (keys : @ServerKeys SKey) (uid : Uid) (next_id : Z) : ServerStream * Z * bytes :=
  let '(stream_id, next_id) := StreamIds.GetNextClientStreamId next_id in
  let '(g, p) := Write (server_stream keys uid stream_id) (api_Pack (MAuthorizedApi Ping) new_context).1 in
  (g, next_id, p).

(** A message of the stream is decrypted and emitted. *)
Definition on_stream_message (stream_id : Z) (key : SKey) (n : notification) : outcome (list bytes) :=
  match n with
  | StreamMessage i d =>
      if i =? stream_id
      then let* d := crypto_out_data kNonceSize ABYTES aead_decrypt key d in Defined [d]
      else Defined []
  | _ => Defined []
  end.

Fixpoint on_notifications (stream_id : Z) (key : SKey) (ns : list notification) : outcome (list bytes) :=
  match ns with
  | [] => Defined []
  | n :: ns =>
      let* a := on_stream_message stream_id key n in
      let* b := on_notifications stream_id key ns in Defined (a ++ b)
  end.

(** A packet from the transport: [ProtocolReadGate] parses it as [ClientSafeApi],
    whose messages are notified in the context of the stream. *)
Definition server_stream_receive (g : ServerStream) (c : (ProtocolContext Ptr callback)) (packet : bytes)
  : option (outcome (list bytes * (ProtocolContext Ptr callback))) :=
  match Parse (H := SafeApi) ([], c) packet with
  | Some (Defined (ns, c, _)) =>
      Some (let* out := on_notifications (Splitter.stream_id_ g.2.2.1) (server_to_client_key_ (keys_ g.2.1)) ns in
            Defined (out, c))
  | Some Undefined => Some Undefined
  | None => None
  end.

(** [MessageStream]: two gates that pass, [StreamApiGate] and the header that opens
    the stream; tied to the [ProtocolReadGate] of the dispatcher. *)
Definition MessageStream : Type :=
  ByteGate * (ByteGate * (Splitter.StreamApiGate * (AddHeaderGate * ByteGate))).

Definition message_stream (destination : Uid) (stream_id : Z) : MessageStream :=
  (Build_ByteGate, (Build_ByteGate, ({| Splitter.stream_id_ := stream_id |},
   (ProtocolWriteGate (MAuthorizedApi (OpenStreamToClient destination stream_id)), Build_ByteGate)))).

(** [set_stream_id] makes the gates anew. *)
Definition set_stream_id (destination : Uid) (stream_id : Z) (g : MessageStream) : MessageStream :=
  message_stream destination stream_id.

(** A stream of messages over the connection to the server. *)
Definition MessageChain : Type := MessageStream * (ByteGate * ServerStream).

#[local] Instance MessageChain_gate : IGate MessageChain := Tie.

(** Writes one after another. *)
Fixpoint write_packets {G} `{IGate G} (g : G) (ds : list bytes) : list bytes :=
  match ds with
  | [] => []
  | d :: ds => let '(g, p) := Write g d in p :: write_packets g ds
  end.
End Streams.
End Stack.

Module StackProperties.
Import Stack WireProperties ApiMessagesProperties CryptoProperties.

Section Properties.
Context (C : Config) {SKey : Type} (kNonceSize ABYTES : nat).
Context (aead_encrypt : SKey -> bytes -> bytes -> bytes) (aead_decrypt : SKey -> bytes -> bytes -> option bytes).

(** What libsodium documents, with keys and nonces of bytes. *)
Record cipher_ok : Prop := {
  co_authentic : authentic kNonceSize ABYTES aead_encrypt aead_decrypt;
  co_nonce : (8 <= kNonceSize)%nat;
  co_tag : (0 < ABYTES)%nat;
  co_bytes : forall k n d, byte_list n -> byte_list d -> byte_list (aead_encrypt k n d);
}.

#[local] Instance gate_crypto : IGate CryptoGate := CryptoGate_gate kNonceSize ABYTES aead_encrypt.

Definition keys_ok (k : @ServerKeys SKey) : Prop := length (nonce_ k) = kNonceSize /\ byte_list (nonce_ k).

(** *** Sizes *)

Lemma write_packets_fit {G} `{IGateOk G} ds (g : G) info :
  gate_ok g -> 0 <= max_element_size info < kUpper -> 0 < max_element_size (stream_info g info) ->
  Forall (fun d => zlen d <= max_element_size (stream_info g info)) ds ->
  Forall (fun p => zlen p <= max_element_size info) (write_packets g ds).
Proof.
  intros Hg Hi. revert g Hg. induction ds as [|d ds IH]; intros g Hg Hp Hd; cbn [write_packets]; [constructor|].
  pose proof (Write_fits g d info Hg Hp (proj2 Hi) (proj1 Hi)) as F. pose proof (Write_ok g d Hg) as Hg'.
  pose proof (Write_info g d info) as E.
  destruct (Write g d) as [g' p]. cbn [fst snd] in *. inversion Hd as [|? ? Hd1 Hd2]; subst.
  constructor; [by apply F|]. apply IH; [done|by rewrite E|].
  eapply Forall_impl; [|exact Hd2]. intros x Hx. cbn beta in *. by rewrite E.
Qed.

(** *** What is written can be read *)

(** A message to a server with a stream message behind it, read by the definitions
    that wrote them. *)
Definition read_two (like : server_message) (data : bytes) : option (server_message * Z * bytes) :=
  let '(code, r) := load_uint 1 255 (new_reader data) in
  if code =? message_code like then
    let '(m, r) := load_body like r in
    let '(code, r) := load_uint 1 255 r in
    if code =? Splitter.kMessageCode then
      let '((sid, d), r) := load (dflt : uint 1 * list (uint 1)) r in
      if (offset_ r =? length data)%nat then Some (m, sid, d) else None
    else None
  else None.

Lemma read_two_spec (m like : server_message) c sid d :
  message_ok m -> same_api like m = true -> message_code like = message_code m ->
  in_width 8 sid -> byte_list d -> zlen d < kUpper ->
  read_two like ((api_Pack m c).1 ++ Splitter.gate_write sid d) = Some (m, sid, d).
Proof.
  intros Hm Ha Hc Hs Hb Hz. unfold read_two, api_Pack. cbn [fst].
  assert (Splitter.gate_write sid d = save (2 : uint 1) ++ save ((sid, d) : uint 1 * list (uint 1))) as ->
    by (rewrite gate_write_bytes; cbn; by rewrite ?app_nil_r).
  set (a := save (message_code m : uint 1)). set (b := body m). set (c2 := save (2 : uint 1)).
  set (e := save ((sid, d) : uint 1 * list (uint 1))).
  assert (new_reader ((a ++ b) ++ c2 ++ e) = at_pos [] (a ++ b ++ c2 ++ e) [] kNo) as ->
    by (unfold at_pos, new_reader; cbn [app length]; by rewrite (app_nil_r (a ++ _)), <- (app_assoc a b)).
  assert (valid ((sid, d) : uint 1 * list (uint 1))) as Hv by (split; [done|split; done]).
  rewrite at_pos_app. unfold a at 1. cbn [save serial_uint].
  rewrite load_uint_at by (done || apply code_width). rewrite Hc, Z.eqb_refl, past_at_pos, at_pos_app.
  unfold b at 1. rewrite (load_body_at C m like), past_at_pos, at_pos_app by done.
  unfold c2 at 1. cbn [save serial_uint]. rewrite load_uint_at, past_at_pos by done.
  change (2 =? Splitter.kMessageCode) with true. cbn iota.
  unfold e at 1. rewrite (load_save ((sid, d) : uint 1 * list (uint 1))) by done. cbn [past offset_].
  fold a b c2 e. rewrite !length_app. unfold a, c2. cbn [save serial_uint length].
  destruct (Nat.eqb_spec (0 + length (le_bytes 1 (message_code m)) + length b + length (le_bytes 1 2) + length e)
    (length (le_bytes 1 (message_code m)) + length b + (length (le_bytes 1 2) + length e))) as [|Hn]; [done|lia].
Qed.

(** The packet of one write to the stream of a server. *)
Lemma server_write k uid sid data :
  Write (server_stream k uid sid) data =
  (server_stream (keys_next k) uid sid,
   (api_Pack (MLoginApi (LoginByUid sid uid)) new_context).1
     ++ Splitter.gate_write sid (crypto_write aead_encrypt k data).2).
Proof. reflexivity. Qed.

Lemma keys_ok_next k : cipher_ok -> keys_ok k -> keys_ok (keys_next k).
Proof.
  intros [_ Hn _ _] [Hl Hb]. split; cbn [nonce_ keys_next]; [rewrite Next_length; lia|].
  unfold Nonce.Next. apply Forall_app_2; [apply le_bytes_range|by apply Forall_drop].
Qed.

Lemma crypto_write_spec k data :
  cipher_ok -> keys_ok k -> byte_list data ->
  byte_list (crypto_write aead_encrypt k data).2 /\
  zlen (crypto_write aead_encrypt k data).2 = zlen data + EncryptOverhead kNonceSize ABYTES /\
  crypto_out_data kNonceSize ABYTES aead_decrypt (client_to_server_key_ k) (crypto_write aead_encrypt k data).2
    = Defined data.
Proof.
  intros Hc Hk Hd. destruct (keys_ok_next k Hc Hk) as [Hl Hb]. destruct Hc as [A N T B].
  cbn [crypto_write Encrypt provider_nonce snd]. unfold EncryptWithSymmetric at 1 2.
  change (client_to_server_key_ (keys_next k)) with (client_to_server_key_ k). split_and!.
  - apply Forall_app_2; [by apply B|done].
  - rewrite zlen_app. unfold zlen, EncryptOverhead. rewrite (proj1 (A _ _ _ Hl)), Hl. lia.
  - apply Decrypt_Encrypt; [done|done|by right].
Qed.

(** What the server finds in a packet: the login, the stream and the data. *)
Definition server_finds (key : SKey) (uid : Uid) (sid : Z) (data packet : bytes) : Prop :=
  exists x, read_two (MLoginApi (LoginByUid 0 [])) packet = Some (MLoginApi (LoginByUid sid uid), sid, x) /\
    crypto_out_data kNonceSize ABYTES aead_decrypt key x = Defined data.

Lemma server_packet k uid sid data :
  cipher_ok -> keys_ok k -> valid (uid : Uid) -> in_width 8 sid -> byte_list data ->
  zlen data + EncryptOverhead kNonceSize ABYTES < kUpper ->
  server_finds (client_to_server_key_ k) uid sid data (Write (server_stream k uid sid) data).2.
Proof.
  intros Hc Hk Hu Hs Hd Hz. destruct (crypto_write_spec k data Hc Hk Hd) as (Hb & Hl & Hx).
  exists (crypto_write aead_encrypt k data).2. rewrite server_write. cbn [snd]. split; [|exact Hx].
  apply read_two_spec; [done|done|done|done|done|lia].
Qed.

(** *** Messages over the stream *)

(** What a stream of messages hands to the stream of the server. *)
Definition message_packet (dest : Uid) (msid : Z) (data : bytes) : bytes :=
  (api_Pack (MAuthorizedApi (OpenStreamToClient dest msid)) new_context).1 ++ Splitter.gate_write msid data.

Lemma message_packet_bytes dest msid data : byte_list (message_packet dest msid data).
Proof.
  unfold message_packet. rewrite gate_write_bytes. cbn [api_Pack fst message_code authorized_code body authorized_body].
  cbn [save serial_uint serial_pair serial_array fst snd].
  repeat apply Forall_app_2;
    first [apply le_bytes_range | apply scalar_image_bytes | apply Packed.Serialize_bytes].
Qed.

Lemma message_packet_size dest msid data :
  array_ok 16 dest -> zlen data < kUpper -> zlen (message_packet dest msid data) <= zlen data + 28.
Proof.
  intros [Hl _] Hz. unfold message_packet. rewrite gate_write_bytes.
  cbn [api_Pack fst message_code authorized_code body authorized_body save serial_uint serial_pair serial_array snd].
  rewrite !zlen_app. pose proof (packed_save_short (zlen data) (conj (zlen_nonneg data) Hz)).
  assert (forall n vs, zlen (scalar_image n vs) = zlen vs * Z.of_nat n) as Hi
    by (intros; unfold zlen; rewrite length_scalar_image; lia).
  assert (forall x, zlen (le_bytes 1 x) = 1) as H1 by (intros; unfold zlen; by rewrite length_le_bytes).
  rewrite !Hi, !H1. unfold zlen at 1. rewrite Hl. lia.
Qed.

Definition client_chain (dest : Uid) (msid : Z) (k : @ServerKeys SKey) (uid : Uid) (sid : Z)
  : MessageChain (SKey := SKey) :=
  (message_stream dest msid, (Build_ByteGate, server_stream k uid sid)).

Lemma client_chain_write dest msid k uid sid data :
  Write (client_chain dest msid k uid sid) data =
  (client_chain dest msid (keys_next k) uid sid, (Write (server_stream k uid sid) (message_packet dest msid data)).2).
Proof. reflexivity. Qed.

(** C5: whatever is written to a stream of messages, every packet that reaches the
    transport is a login of the client followed by a message of its stream to the
    server, whose data decrypts to the request to open the stream to the destination
    followed by a message of that stream with exactly the data. *)
Theorem messages_reach_server dest msid k uid sid ds :
  cipher_ok -> keys_ok k -> array_ok 16 dest -> array_ok 16 uid -> in_width 8 msid -> in_width 8 sid ->
  Forall (fun d => byte_list d /\ zlen d + 28 + EncryptOverhead kNonceSize ABYTES < kUpper) ds ->
  Forall2 (fun d p => exists inner,
      server_finds (client_to_server_key_ k) uid sid inner p /\
      read_two (MAuthorizedApi (OpenStreamToClient [] 0)) inner
        = Some (MAuthorizedApi (OpenStreamToClient dest msid), msid, d))
    ds (write_packets (client_chain dest msid k uid sid) ds).
Proof.
  intros Hc Hk Hd Hu Hm Hs Hds. assert (0 <= EncryptOverhead kNonceSize ABYTES) by (unfold EncryptOverhead; lia).
  revert k Hk. induction Hds as [|d ds [Hb Hz] _ IH]; intros k Hk; cbn [write_packets]; [constructor|].
  rewrite client_chain_write. pose proof (zlen_nonneg d). constructor.
  - exists (message_packet dest msid d). split.
    + pose proof (message_packet_size dest msid d Hd ltac:(lia)).
      apply server_packet; try done; [apply message_packet_bytes|lia].
    + apply read_two_spec; [split; done|done|done|done|done|lia].
  - apply (IH (keys_next k)). by apply keys_ok_next.
Qed.

(** C21: an element of at most the size a stream of messages advertises gives a packet
    of at most the size of the transport, through all gates and for every sequence
    of writes. *)
Theorem message_packets_fit dest msid k uid sid ds info :
  cipher_ok -> length (nonce_ k) = kNonceSize -> 0 <= max_element_size info < kUpper ->
  0 < max_element_size (stream_info (client_chain dest msid k uid sid) info) ->
  Forall (fun d => zlen d <= max_element_size (stream_info (client_chain dest msid k uid sid) info)) ds ->
  Forall (fun p => zlen p <= max_element_size info) (write_packets (client_chain dest msid k uid sid) ds).
Proof.
  intros Hc Hk Hi Hp Hd.
  pose (ok := CryptoGate_ok kNonceSize ABYTES aead_encrypt aead_decrypt (co_authentic Hc) (co_nonce Hc)).
  apply (write_packets_fit (G := MessageChain)); [|done|done|done].
  repeat split. exact Hk.
Qed.

(** *** Messages of the stream *)

(** What a server sends: data of the stream of the client, encrypted with some
    nonce, and messages of other streams. *)
Inductive from_server := Own (nonce data : bytes) | Other (stream_id : Z) (data : bytes).

Definition wire (key : SKey) (sid : Z) (m : from_server) : Splitter.Stream :=
  match m with
  | Own n d => {| Splitter.stream_id := sid; Splitter.child_data := EncryptWithSymmetric aead_encrypt key n d |}
  | Other i x => {| Splitter.stream_id := i; Splitter.child_data := x |}
  end.

Definition delivered (m : from_server) : list bytes :=
  match m with Own _ d => [d] | Other _ _ => [] end.

Definition from_server_ok (sid : Z) (m : from_server) : Prop :=
  match m with
  | Own n d => length n = kNonceSize /\ byte_list n /\ byte_list d /\
               zlen d + EncryptOverhead kNonceSize ABYTES < kUpper
  | Other i x => in_width 8 i /\ i <> sid /\ byte_list x /\ zlen x < kUpper
  end.

Lemma wire_valid key sid m :
  cipher_ok -> in_width 8 sid -> from_server_ok sid m -> StreamProperties.stream_valid (wire key sid m).
Proof.
  intros [A _ _ B] Hs. destruct m as [n d|i x]; intros Hm.
  - destruct Hm as (Hl & Hn & Hd & Hz). cbn [wire]. unfold EncryptWithSymmetric. split; [done|]. split.
    + cbn [Splitter.child_data]. rewrite zlen_app. unfold zlen, EncryptOverhead in *.
      rewrite (proj1 (A key n d Hl)), Hl. lia.
    + apply Forall_app_2; [by apply B|done].
  - destruct Hm as (Hi & _ & Hx & Hz). done.
Qed.

(** [StreamMessage] as [ClientSafeApi] executes it. *)
Definition stream_note (m : Splitter.Stream) : notification :=
  StreamMessage (Splitter.stream_id m) (Splitter.child_data m).

Definition stream_execute (m : Splitter.Stream) (st : state) : outcome state :=
  Defined (st.1 ++ [stream_note m], PopApiClass stream_class_id (PushApiClass stream_class_id 0%nat st.2)).

Lemma stream_execute_all ms st :
  exists c, execute_all stream_execute ms st = Defined (st.1 ++ map stream_note ms, c) /\
    send_result_callbacks_ c = send_result_callbacks_ st.2.
Proof.
  revert st. induction ms as [|m ms IH]; intros [st c]; cbn [execute_all stream_execute].
  - exists c. cbn. by rewrite app_nil_r.
  - destruct (IH (st ++ [stream_note m], PopApiClass stream_class_id (PushApiClass stream_class_id 0%nat c)))
      as (c' & E & H). exists c'. cbn [fst snd map] in *. rewrite E, <- app_assoc. done.
Qed.

Lemma parse_stream_messages ms c :
  Forall StreamProperties.stream_valid ms ->
  exists c' r, Parse (H := SafeApi) ([], c) (PacketBuilder_Pack (pack_one Splitter.stream_code Splitter.stream_body) ms)
    = Some (Defined (map stream_note ms, c', r)) /\
    send_result_callbacks_ c' = send_result_callbacks_ c.
Proof.
  intros Hm. rewrite (Parse_packed (H := SafeApi) Splitter.stream_code Splitter.stream_body StreamProperties.stream_valid
    stream_execute).
  - destruct (stream_execute_all ms ([], c)) as (c' & -> & H). exists c'. eexists. split; [reflexivity|done].
  - done.
  - intros [i d] [st' c''] pre post Hv.
    cbn [LoadFactory SafeApi stream_execute stream_note fst snd].
    unfold client_LoadFactory, reg_LoadFactory, LoadExtend, LoadResult, stream_LoadResult, Load.
    change (Splitter.stream_code _) with 2. cbn [Z.eqb Pos.eqb kSendResult kSendError fst snd].
    unfold Splitter.stream_body. cbn [Splitter.stream_id Splitter.child_data].
    by rewrite (load_save ((i, d) : uint 1 * string)).
  - done.
Qed.

Lemma notifications_delivered key sid ms :
  cipher_ok -> Forall (from_server_ok sid) ms ->
  on_notifications kNonceSize ABYTES aead_decrypt sid key (map stream_note (map (wire key sid) ms))
  = Defined (ms ≫= delivered).
Proof.
  intros Hc. induction 1 as [|m ms Hm _ IH]; cbn [map on_notifications]; [done|].
  destruct m as [n d|i x]; cbn [stream_note wire on_stream_message Splitter.stream_id Splitter.child_data].
  - destruct Hm as (Hl & _). rewrite Z.eqb_refl. unfold crypto_out_data, Decrypt.
    rewrite Decrypt_Encrypt, IH; [done|apply Hc|done|right; apply Hc].
  - destruct Hm as (_ & Hi & _). rewrite (proj2 (Z.eqb_neq _ _) Hi). by rewrite IH.
Qed.

(** C16: of a packet of stream messages from the server, in any order and number, the
    stream emits exactly the data of the messages that carry its identifier, each
    decrypted, in the order of the packet; messages of other streams and requests in
    flight are left alone. *)
Theorem server_stream_delivers k uid sid ms c :
  cipher_ok -> in_width 8 sid -> Forall (from_server_ok sid) ms ->
  exists c', server_stream_receive kNonceSize ABYTES aead_decrypt (server_stream k uid sid) c
      (PacketBuilder_Pack (pack_one Splitter.stream_code Splitter.stream_body)
         (map (wire (server_to_client_key_ k) sid) ms))
    = Some (Defined (ms ≫= delivered, c')) /\
    send_result_callbacks_ c' = send_result_callbacks_ c.
Proof.
  intros Hc Hs Hm. destruct (parse_stream_messages (map (wire (server_to_client_key_ k) sid) ms) c) as (c' & r & E & H).
  - apply Forall_map. eapply Forall_impl; [|exact Hm]. intros m. by apply wire_valid.
  - exists c'. unfold server_stream_receive. rewrite E. split; [|done].
    change (Splitter.stream_id_ (server_stream k uid sid).2.2.1) with sid.
    change (server_to_client_key_ (keys_ (server_stream k uid sid).2.1)) with (server_to_client_key_ k).
    by rewrite notifications_delivered.
Qed.
End Properties.

(** *** How a write ends *)

(** What a writer is told of a packet in the state [s]. *)
Definition write_result (s : PacketSend.State) : outcome (option (StreamWrite.State * StreamWrite.ending)) :=
  match s with
  | PacketSend.kSuccess => Defined (Some (StreamWrite.kDone, StreamWrite.Result))
  | PacketSend.kTimeout => Defined (Some (StreamWrite.kTimeout, StreamWrite.Error))
  | PacketSend.kFailed => Defined (Some (StreamWrite.kFailed, StreamWrite.Error))
  | PacketSend.kStopped => Defined (Some (StreamWrite.kStopped, StreamWrite.Stop))
  | PacketSend.kQueued | PacketSend.kProgress => Defined None
  | PacketSend.kPanic => Undefined
  end.

(** C11: whatever becomes of the packet of a socket, the writer is told so: success,
    failure, a timeout and a stop reach the action of the write through the packets
    of the channel and of the server with the matching state and event; a packet
    still on its way is not reported; a panic of the socket is the one end that the
    gate does not handle. *)
Theorem write_ends_reported (a : ChannelPacket.ChannelPacketSendAction)
  (p : ServerQueue.ServerSendPacketAction) (m : StateMachine StreamWrite.State) :
  changed_ (ChannelPacket.low_level_state a) = true ->
  ServerQueue.send_action_ p = true -> state_ (ServerQueue.sp_state p) = PacketSend.kProgress ->
  end_of_write a p m =
  let* r := write_result (state_ (ChannelPacket.low_level_state a)) in
  Defined (option_map (fun '(s, e) => (SM.set s m, e)) r).
Proof.
  destruct a as [cp [lc ls] t], p as [[pc ps] d tr sa].
  cbn [ChannelPacket.low_level_state changed_ state_ ServerQueue.send_action_ ServerQueue.sp_state].
  intros -> -> ->. unfold end_of_write, ChannelPacket.low_update, PacketSend.Update.
  cbn [changed_ SM.Acquire ChannelPacket.low_level_state state_].
  destruct ls; cbn [ChannelPacket.cp_set ChannelPacket.cp_state]; try rewrite SM.state_set; reflexivity.
Qed.

(** A timeout is never reported as one: stopping the packet of the socket is what
    ends the packet of the channel, and the writer is told of a stop. *)
Theorem timeout_reported_as_stop now a (p : ServerQueue.ServerSendPacketAction) (m : StateMachine StreamWrite.State) :
  state_ (ChannelPacket.cp_state a) = PacketSend.kProgress ->
  state_ (ChannelPacket.low_level_state a) = PacketSend.kProgress ->
  now <= ChannelPacket.send_timeout_ a ->
  ServerQueue.send_action_ p = true -> state_ (ServerQueue.sp_state p) = PacketSend.kProgress ->
  state_ (ChannelPacket.cp_state (ChannelPacket.Update now a).1) = PacketSend.kTimeout /\
  end_of_write (ChannelPacket.Update now a).1 p m = Defined (Some (SM.set StreamWrite.kStopped m, StreamWrite.Stop)).
Proof.
  destruct a as [[cc cs] [lc ls] t], p as [[pc ps] d tr sa].
  cbn [ChannelPacket.low_level_state ChannelPacket.cp_state changed_ state_ ServerQueue.send_action_
       ServerQueue.sp_state ChannelPacket.send_timeout_].
  intros -> -> Ht -> ->. unfold ChannelPacket.Update, ChannelPacket.CheckTimeout.
  cbn [ChannelPacket.cp_state state_ ChannelPacket.send_timeout_]. rewrite decide_True by done.
  rewrite (proj2 (Z.ltb_ge _ _) Ht). by split.
Qed.

(** *** Witnesses *)

(** Two keys and a tag of one byte. *)
Definition tag_encrypt (key : bool) (nonce data : bytes) : bytes := data ++ [Z.b2z key].
Definition tag_decrypt (key : bool) (nonce cipher : bytes) : option bytes :=
  match back cipher with
  | Some t => if t =? Z.b2z key then Some (take (length cipher - 1) cipher) else None
  | None => None
  end.

Lemma tag_cipher_ok : cipher_ok 8 1 tag_encrypt tag_decrypt.
Proof.
  split; [|lia|lia|].
  - intros key nonce data _. unfold tag_encrypt, tag_decrypt. split; [by rewrite length_app|].
    rewrite back_snoc, Z.eqb_refl, length_app, Nat.add_sub. by rewrite take_app_length.
  - intros k n d _ Hd. apply Forall_app_2; [done|]. apply Forall_cons_2; [by destruct k|apply Forall_nil_2].
Qed.

Definition tag_keys : @ServerKeys bool :=
  {| server_id_ := 1; master_key_ := true; key_number_ := 0; nonce_ := [9; 9; 9; 9; 9; 9; 9; 9];
     client_to_server_key_ := true; server_to_client_key_ := false |}.

Lemma messages_reach_server_witness :
  Forall2 (fun d p => exists inner,
      server_finds sample_build 8 1 tag_decrypt true sample_uid 5 inner p /\
      read_two sample_build (MAuthorizedApi (OpenStreamToClient [] 0)) inner
        = Some (MAuthorizedApi (OpenStreamToClient sample_uid 7), 7, d))
    [[1; 2; 3]; []]
    (write_packets (H0 := MessageChain_gate 8 1 tag_encrypt) (client_chain sample_build sample_uid 7 tag_keys sample_uid 5)
       [[1; 2; 3]; []]).
Proof.
  apply (messages_reach_server sample_build 8 1 tag_encrypt tag_decrypt sample_uid 7 tag_keys sample_uid 5).
  - exact tag_cipher_ok.
  - split; [reflexivity|]. by apply (bool_decide_unpack _).
  - exact sample_uid_ok.
  - exact sample_uid_ok.
  - done.
  - done.
  - repeat apply Forall_cons_2; [| |apply Forall_nil_2]; (split; [by apply (bool_decide_unpack _)|zeval]).
Defined.

Lemma message_packets_fit_witness :
  Forall (fun p => zlen p <= 100)
    (write_packets (H0 := MessageChain_gate 8 1 tag_encrypt) (client_chain sample_build sample_uid 7 tag_keys sample_uid 5)
       [[1; 2; 3]; []]).
Proof.
  apply (message_packets_fit sample_build 8 1 tag_encrypt tag_decrypt sample_uid 7 tag_keys sample_uid 5 _
    {| max_element_size := 100; is_linked := true; is_writeble := true; is_soft_writable := true |}).
  - exact tag_cipher_ok.
  - reflexivity.
  - zeval.
  - by vm_compute.
  - repeat apply Forall_cons_2; [| |apply Forall_nil_2]; by vm_compute.
Defined.

Lemma server_stream_delivers_witness :
  exists c, server_stream_receive (H := sample_build) 8 1 tag_decrypt (server_stream (H := sample_build) tag_keys sample_uid 5) new_context
      (PacketBuilder_Pack (pack_one Splitter.stream_code Splitter.stream_body)
         (map (wire tag_encrypt false 5) [Own [0; 0; 0; 0; 0; 0; 0; 0] [4; 5]; Other 6 [1]; Own [1; 0; 0; 0; 0; 0; 0; 0] []]))
    = Some (Defined ([[4; 5]; []], c)).
Proof.
  destruct (server_stream_delivers sample_build 8 1 tag_encrypt tag_decrypt tag_keys sample_uid 5
    [Own [0; 0; 0; 0; 0; 0; 0; 0] [4; 5]; Other 6 [1]; Own [1; 0; 0; 0; 0; 0; 0; 0] []] new_context) as (c & E & _).
  - exact tag_cipher_ok.
  - done.
  - repeat apply Forall_cons_2; [| | |apply Forall_nil_2]; repeat split; try done;
      by apply (bool_decide_unpack _).
  - exists c. exact E.
Defined.

Lemma write_ends_reported_witness :
  end_of_write
    {| ChannelPacket.cp_state := SM.make PacketSend.kProgress;
       ChannelPacket.low_level_state := SM.make PacketSend.kFailed; ChannelPacket.send_timeout_ := 0 |}
    {| ServerQueue.sp_state := SM.default PacketSend.kProgress; ServerQueue.data_ := [1];
       ServerQueue.send_transport_ := Some 0%nat; ServerQueue.send_action_ := true |}
    (SM.make StreamWrite.kInProgress)
  = Defined (Some (SM.make StreamWrite.kFailed, StreamWrite.Error)).
Proof.
  apply (write_ends_reported
    {| ChannelPacket.cp_state := SM.make PacketSend.kProgress;
       ChannelPacket.low_level_state := SM.make PacketSend.kFailed; ChannelPacket.send_timeout_ := 0 |}
    {| ServerQueue.sp_state := SM.default PacketSend.kProgress; ServerQueue.data_ := [1];
       ServerQueue.send_transport_ := Some 0%nat; ServerQueue.send_action_ := true |}); reflexivity.
Defined.

(** *** [SerializeGate] *)

Lemma serialize_gate_roundtrip {T} `{SerialOk T} (x : T) :
  valid x -> serialize_out_data (serialize_write x) = x.
Proof.
  intros Hx. unfold serialize_out_data, serialize_write.
  assert (new_reader (save x) = at_pos [] (save x) [] kNo) as ->
    by (unfold at_pos, new_reader; cbn [app length]; by rewrite app_nil_r).
  by rewrite load_save.
Qed.

(** Data that is too short is emitted all the same, as the value it was not read
    into. *)
Lemma short_data_emitted : serialize_out_data (TOut := uint 4) [1; 2; 3] = 0.
Proof. reflexivity. Qed.
End StackProperties.
