(* ===== verification/Poller.v ===== *)
(** * Pollers ([aether/poller/])

    A poller calls a function when a descriptor is ready.  Each of the four has a
    thread that waits in the system and a map of functions behind a mutex: with
    epoll ([epoll_poller.*]), kqueue ([kqueue_poller.*]), the sockets of lwIP
    ([freertos_poller.*]) and completion ports ([win_poller.*]).

    The class [PollWorker] is one of them.  A [System] is a worker with what its
    thread has to handle: the thread takes its answer from the system without the
    mutex and handles it later with the mutex, so the operations of clients come
    between.  What the system answers is an argument of the operations.  A failed
    [assert] is [Undefined]. *)

From stdpp Require Import gmap.
From S2P Require Import Prelude.

#[local] Set Warnings "-clear-no-such-hyp".

Module Poller.

(** ** Events ([poller_types.h]) *)

(** [EventType] is an enumeration of bits; clients also make its value zero. *)
Definition READ : Z := 1.
Definition WRITE : Z := 2.
Definition ANY : Z := 3.

Record PollerEvent := { descriptor : Z; event_type : Z }.

(** The comparisons: only [operator==] looks at the type. *)
Definition event_ltb (l r : PollerEvent) : bool := descriptor l <? descriptor r.
Definition event_gtb (l r : PollerEvent) : bool := descriptor r <? descriptor l.
Definition event_eqb (l r : PollerEvent) : bool :=
  (descriptor l =? descriptor r) && (event_type l =? event_type r).

(** Functions given to a poller have numbers; [WakeUp] is the one an epoll worker
    gives to itself. *)
Inductive Callback := WakeUp | Client (f : nat).

#[export] Instance Callback_eq_dec : EqDecision Callback.
Proof. solve_decision. Defined.

Definition call : Type := Callback * PollerEvent.

(** ** Workers *)

(** [E] is an event of the system, [A] an answer to the wait.  [handle] is the part
    of the loop done under the mutex: the calls, and the events left for the next
    time the mutex is taken. *)
Class PollWorker (W A E : Type) := {
  Add : PollerEvent -> Callback -> bool -> W -> outcome W;
  Remove : PollerEvent -> bool -> W -> outcome W;
  wait : A -> W -> outcome (list E);
  handle : list E -> W -> outcome (list call * list E);
}.

(** ** A worker and its thread *)
Section System.
Context {W A E : Type} `{PollWorker W A E}.

Record System := { worker : W; pending : list E }.

(** [OClose] is a client closing a descriptor: nothing of the poller.  The thread
    waits only when it has nothing to handle. *)
Inductive op :=
  | OAdd (ev : PollerEvent) (cb : Callback) (ok : bool)
  | ORemove (ev : PollerEvent) (ok : bool)
  | OClose (fd : Z)
  | OWait (a : A)
  | OHandle.

Definition exec (o : op) (s : System) : outcome (System * list call) :=
  match o with
  | OAdd ev cb ok =>
      let* w := Add ev cb ok (worker s) in
      Defined ({| worker := w; pending := pending s |}, [])
  | ORemove ev ok =>
      let* w := Remove ev ok (worker s) in
      Defined ({| worker := w; pending := pending s |}, [])
  | OClose _ => Defined (s, [])
  | OWait a =>
      match pending s with
      | [] => let* es := wait a (worker s) in Defined ({| worker := worker s; pending := es |}, [])
      | _ => Defined (s, [])
      end
  | OHandle =>
      let* r := handle (pending s) (worker s) in
      Defined ({| worker := worker s; pending := r.2 |}, r.1)
  end.

Fixpoint run (os : list op) (s : System) : outcome (System * list call) :=
  match os with
  | [] => Defined (s, [])
  | o :: os =>
      let* x := exec o s in
      let* y := run os x.1 in Defined (y.1, x.2 ++ y.2)
  end.

Lemma run_app os os' s :
  run (os ++ os') s = let* x := run os s in let* y := run os' x.1 in Defined (y.1, x.2 ++ y.2).
Proof.
  revert s. induction os as [|o os IH]; intros s; cbn [run app].
  - cbn. destruct (run os' s) as [[? ?]|]; done.
  - destruct (exec o s) as [[s1 c1]|]; [|done]. cbn [fst snd]. rewrite IH.
    destruct (run os s1) as [[s2 c2]|]; [|done]. cbn [fst snd].
    destruct (run os' s2) as [[s3 c3]|]; [|done]. cbn [fst snd]. by rewrite app_assoc.
Qed.
End System.
Arguments System : clear implicits.
Arguments op : clear implicits.
Arguments Build_System {W E}.

End Poller.

(** ** epoll *)
Module Epoll.
Import Poller.

Definition EPOLLIN : Z := 1.
Definition EPOLLOUT : Z := 4.
Definition EPOLLET : Z := 2147483648.
Definition MAX_EVENTS : nat := 10.

(** [PollWorker] *)
Record Worker := { callbacks_ : gmap Z Callback }.

(** The events [Add] asks for; a type that is not one of the three leaves the field
    unset, and it is read. *)
Definition interest_mask (t : Z) : outcome Z :=
  if t =? READ then Defined (Z.lor EPOLLIN EPOLLET)
  else if t =? WRITE then Defined (Z.lor EPOLLOUT EPOLLET)
  else if t =? ANY then Defined (Z.lor (Z.lor EPOLLIN EPOLLOUT) EPOLLET)
  else Undefined.

(** [std::map::emplace] keeps an entry that is there. *)
Definition emplace_new {V} (k : Z) (v : V) (m : gmap Z V) : gmap Z V :=
  match m !! k with Some _ => m | None => <[k := v]> m end.

(** [PollWorker::Add]; [ok] tells whether [epoll_ctl] succeeded. *)
Definition worker_Add (ev : PollerEvent) (cb : Callback) (ok : bool) (w : Worker) : outcome Worker :=
  let* _ := interest_mask (event_type ev) in
  if ok then Defined {| callbacks_ := emplace_new (descriptor ev) cb (callbacks_ w) |} else Undefined.

Definition worker_Remove (ev : PollerEvent) (ok : bool) (w : Worker) : outcome Worker :=
  if ok then Defined {| callbacks_ := delete (descriptor ev) (callbacks_ w) |} else Undefined.

(** The constructor, with the read end of the pipe and the answers of the system. *)
Definition new_worker (pipe_ok epoll_ok add_ok : bool) (read_end : Z) : outcome Worker :=
  if pipe_ok && epoll_ok
  then worker_Add {| descriptor := read_end; event_type := READ |} WakeUp add_ok {| callbacks_ := ∅ |}
  else Undefined.

Definition FromEpollEvent (events : Z) : Z :=
  if events =? EPOLLIN then READ else if events =? EPOLLOUT then WRITE else ANY.

(** An event: the descriptor and the mask. *)
Definition epoll_event : Type := Z * Z.

(** [epoll_wait] *)
Inductive wait_answer := EINTR | WaitError | Events (es : list epoll_event).

Definition worker_wait (a : wait_answer) (w : Worker) : outcome (list epoll_event) :=
  match a with EINTR => Defined [] | WaitError => Undefined | Events es => Defined es end.

(** The rest of the loop: the mutex is held for the whole batch. *)
Fixpoint handle_events (es : list epoll_event) (w : Worker) : outcome (list call) :=
  match es with
  | [] => Defined []
  | (fd, mask) :: es =>
      match callbacks_ w !! fd with
      | None => Undefined
      | Some cb =>
          let* cs := handle_events es w in
          Defined ((cb, {| descriptor := fd; event_type := FromEpollEvent mask |}) :: cs)
      end
  end.

#[export] Instance epoll_worker : PollWorker Worker wait_answer epoll_event := {
  Add := worker_Add;
  Remove := worker_Remove;
  wait := worker_wait;
  handle es w := let* cs := handle_events es w in Defined (cs, []);
}.

(** [EpollPoller]: the worker is made by the first [Add]. *)
Definition EpollPoller : Type := option Worker.

Definition poller_Add (made : outcome Worker) (ev : PollerEvent) (cb : Callback) (ok : bool) (p : EpollPoller)
  : outcome EpollPoller :=
  let* w := match p with Some w => Defined w | None => made end in
  let* w := worker_Add ev cb ok w in Defined (Some w).

Definition poller_Remove (ev : PollerEvent) (ok : bool) (p : EpollPoller) : outcome EpollPoller :=
  match p with
  | None => Undefined
  | Some w => let* w := worker_Remove ev ok w in Defined (Some w)
  end.

End Epoll.

(** ** kqueue *)
Module Kqueue.
Import Poller.

Definition EVFILT_READ : Z := -1.
Definition EVFILT_WRITE : Z := -2.
Definition EVFILT_USER : Z := -10.

Record Worker := { callbacks_ : gmap Z Callback }.

Definition new_worker : Worker := {| callbacks_ := ∅ |}.

(** The end of [Add], which alone is under the mutex: [kevent] was called before,
    for one filter. *)
Definition store (ev : PollerEvent) (cb : Callback) (w : Worker) : Worker :=
  {| callbacks_ := Epoll.emplace_new (descriptor ev) cb (callbacks_ w) |}.

(** [Add]: the filters given to [kevent]; a type that is not one of the three leaves
    the change unset. *)
Definition filters (t : Z) : outcome (list Z) :=
  if t =? READ then Defined [EVFILT_READ]
  else if t =? WRITE then Defined [EVFILT_WRITE]
  else if t =? ANY then Defined [EVFILT_READ; EVFILT_WRITE]
  else Undefined.

Definition worker_Add (ev : PollerEvent) (cb : Callback) (ok : bool) (w : Worker) : outcome Worker :=
  let* fs := filters (event_type ev) in
  if ok then Defined (fold_left (fun w _ => store ev cb w) fs w) else Undefined.

(** The filter [Remove] names to [kevent]; a failure is only logged. *)
Definition remove_filter : Z := 0.

Definition worker_Remove (ev : PollerEvent) (ok : bool) (w : Worker) : outcome Worker :=
  Defined {| callbacks_ := delete (descriptor ev) (callbacks_ w) |}.

(** An event: the identifier and the filter. *)
Definition event : Type := Z * Z.

Inductive wait_answer := WaitError | Events (es : list event).

Definition worker_wait (a : wait_answer) (w : Worker) : outcome (list event) :=
  match a with WaitError => Undefined | Events es => Defined es end.

Definition FilterTypeToEventType (filter : Z) : outcome Z :=
  if filter =? EVFILT_READ then Defined READ
  else if filter =? EVFILT_WRITE then Defined WRITE else Undefined.

(** The mutex is taken for each event. *)
Definition handle_event (e : event) (w : Worker) : outcome (list call) :=
  if e.2 =? EVFILT_USER then Defined []
  else match callbacks_ w !! e.1 with
       | None => Undefined
       | Some cb =>
           let* t := FilterTypeToEventType e.2 in
           Defined [(cb, {| descriptor := e.1; event_type := t |})]
       end.

#[export] Instance kqueue_worker : PollWorker Worker wait_answer event := {
  Add := worker_Add;
  Remove := worker_Remove;
  wait := worker_wait;
  handle es w :=
    match es with
    | [] => Defined ([], [])
    | e :: es => let* cs := handle_event e w in Defined (cs, es)
    end;
}.

End Kqueue.

(** ** lwIP *)
Module Freertos.
Import Poller.

Definition POLLIN : Z := 1.
Definition POLLOUT : Z := 2.

(** [std::map<PollerEvent, Callback>]: its order is [event_ltb], so the descriptor is
    the key; the event of the first [emplace] stays. *)
Record Worker := { callbacks_ : gmap Z (PollerEvent * Callback) }.

Definition new_worker : Worker := {| callbacks_ := ∅ |}.

Definition worker_Add (ev : PollerEvent) (cb : Callback) (_ : bool) (w : Worker) : outcome Worker :=
  Defined {| callbacks_ := Epoll.emplace_new (descriptor ev) (ev, cb) (callbacks_ w) |}.

Definition worker_Remove (ev : PollerEvent) (_ : bool) (w : Worker) : outcome Worker :=
  Defined {| callbacks_ := delete (descriptor ev) (callbacks_ w) |}.

(** [FillFdsVector]: descriptors with the events asked for; for another type the
    field is what the entry before left, unset for the first. *)
Definition poll_mask (t : Z) (old : option Z) : option Z :=
  if t =? READ then Some POLLIN else if t =? WRITE then Some POLLOUT
  else if t =? ANY then Some (Z.lor POLLIN POLLOUT) else old.

Fixpoint fill (l : list (Z * (PollerEvent * Callback))) (old : option Z) : list (Z * option Z) :=
  match l with
  | [] => []
  | (_, (ev, _)) :: l =>
      let m := poll_mask (event_type ev) old in (descriptor ev, m) :: fill l m
  end.

Definition FillFdsVector (w : Worker) : list (Z * option Z) := fill (map_to_list (callbacks_ w)) None.

(** [lwip_poll]: [None] is an error, otherwise the events of each descriptor. *)
Definition wait_answer : Type := option (Z -> Z).

Definition worker_wait (a : wait_answer) (w : Worker) : outcome (list (Z * Z)) :=
  match a with
  | None => Defined []
  | Some revents => Defined (map (fun '(fd, _) => (fd, revents fd)) (FillFdsVector w))
  end.

Definition FromEpollEvent (events : Z) : Z :=
  if events =? POLLIN then READ else if events =? POLLOUT then WRITE else ANY.

(** Every descriptor that was polled is handled; one that is gone is logged. *)
Definition handle_events (es : list (Z * Z)) (w : Worker) : list call :=
  omap (fun '(fd, revents) =>
    match callbacks_ w !! fd with
    | None => None
    | Some (_, cb) => Some (cb, {| descriptor := fd; event_type := FromEpollEvent revents |})
    end) es.

#[export] Instance freertos_worker : PollWorker Worker wait_answer (Z * Z) := {
  Add := worker_Add;
  Remove := worker_Remove;
  wait := worker_wait;
  handle es w := Defined (handle_events es w, []);
}.

End Freertos.

(** ** Completion ports *)
Module WinIoCP.
Import Poller.

(** [IoCPPoller]: the events of each descriptor, in the order they were added. *)
Record Worker := { events_ : gmap Z (list (PollerEvent * Callback)) }.

Definition new_worker : Worker := {| events_ := ∅ |}.

(** [ok] tells whether [CreateIoCompletionPort] succeeded; it is called only for a
    descriptor without events. *)
Definition worker_Add (ev : PollerEvent) (cb : Callback) (ok : bool) (w : Worker) : outcome Worker :=
  match events_ w !! descriptor ev with
  | Some l => Defined {| events_ := <[descriptor ev := l ++ [(ev, cb)]]> (events_ w) |}
  | None =>
      if ok then Defined {| events_ := <[descriptor ev := [(ev, cb)]]> (events_ w) |} else Undefined
  end.

(** [erase] of what [find_if] finds. *)
Fixpoint erase_first (p : PollerEvent * Callback -> bool) (l : list (PollerEvent * Callback)) :=
  match l with
  | [] => []
  | x :: l => if p x then l else x :: erase_first p l
  end.

Definition worker_Remove (ev : PollerEvent) (_ : bool) (w : Worker) : outcome Worker :=
  match events_ w !! descriptor ev with
  | None => Defined w
  | Some l =>
      let l := erase_first (fun v => event_eqb v.1 ev) l in
      Defined {| events_ := match l with
                            | [] => delete (descriptor ev) (events_ w)
                            | _ => <[descriptor ev := l]> (events_ w)
                            end |}
  end.

(** A completion: the key, and the type in the overlapped structure when there is
    one. *)
Definition completion : Type := Z * option Z.

Definition worker_wait (c : completion) (w : Worker) : outcome (list completion) := Defined [c].

Definition find_type (t : Z) (l : list (PollerEvent * Callback)) : option (PollerEvent * Callback) :=
  List.find (fun v => event_type v.1 =? t) l.

Definition handle_completion (c : completion) (w : Worker) : outcome (list call) :=
  match events_ w !! c.1 with
  | None => Defined []
  | Some l =>
      match c.2 with
      | None => Undefined
      | Some t =>
          match find_type t l with
          | None => Undefined
          | Some (ev, cb) => Defined [(cb, ev)]
          end
      end
  end.

#[export] Instance win_worker : PollWorker Worker completion completion := {
  Add := worker_Add;
  Remove := worker_Remove;
  wait := worker_wait;
  handle cs w :=
    match cs with
    | [] => Defined ([], [])
    | c :: cs => let* r := handle_completion c w in Defined (r, cs)
    end;
}.

End WinIoCP.

(** ** What a poller promises *)
Module PollerSpec.
Import Poller.

(** Events with the same [key] share an entry; [regs_of] are the functions kept for
    an event, the oldest first.  A worker whose entries hold one function ignores an
    [Add] for an entry that is there; a worker that [keeps_second] appends it, and it
    shows when the first is removed. *)
Definition add_reg (keeps_second : bool) (cb : Callback) (l : list Callback) : list Callback :=
  match l with [] => [cb] | _ => if keeps_second then l ++ [cb] else l end.

Class PollWorkerOk (W A E : Type) `{PollWorker W A E} := {
  key : PollerEvent -> Z * Z;
  keeps_second : bool;
  wf : W -> Prop;
  regs_of : W -> PollerEvent -> list Callback;
  Add_law : forall ev cb ok w w', Add ev cb ok w = Defined w' -> wf w ->
    wf w' /\ forall e, regs_of w' e = if bool_decide (key ev = key e) then add_reg keeps_second cb (regs_of w e)
                                     else regs_of w e;
  Remove_law : forall ev ok w w', Remove ev ok w = Defined w' -> wf w ->
    wf w' /\ forall e, regs_of w' e = if bool_decide (key ev = key e) then tail (regs_of w e) else regs_of w e;
  handle_law : forall es w cs es', handle es w = Defined (cs, es') -> wf w ->
    Forall (fun c => head (regs_of w c.2) = Some c.1) cs;
}.

(** The registrations as a list, the oldest first: the specification of a worker. *)
Section Spec.
Context {W A E : Type} `{PollWorkerOk W A E}.

Definition registrations : Type := list (PollerEvent * Callback).

Definition same_entry (ev : PollerEvent) (x : PollerEvent * Callback) : bool := bool_decide (key ev = key x.1).

Definition regs (e : PollerEvent) (r : registrations) : list Callback := map snd (List.filter (same_entry e) r).

Definition find_reg (e : PollerEvent) (r : registrations) : option Callback := head (regs e r).

Fixpoint forget (ev : PollerEvent) (r : registrations) : registrations :=
  match r with [] => [] | x :: r => if same_entry ev x then r else x :: forget ev r end.

Definition spec_step (r : registrations) (o : op A) : registrations :=
  match o with
  | OAdd ev cb _ =>
      match regs ev r with [] => r ++ [(ev, cb)] | _ => if keeps_second then r ++ [(ev, cb)] else r end
  | ORemove ev _ => forget ev r
  | _ => r
  end.

Definition implements (w : W) (r : registrations) : Prop :=
  wf w /\ forall e, regs_of w e = regs e r.

Lemma same_entry_key ev e x :
  key ev = key e -> same_entry ev x = same_entry e x.
Proof. intros E1. unfold same_entry. by rewrite E1. Qed.

Lemma regs_key ev e r : key ev = key e -> regs ev r = regs e r.
Proof.
  intros E1. unfold regs. f_equal. induction r as [|x r IH]; cbn; [done|].
  by rewrite (same_entry_key ev e), IH.
Qed.

Lemma same_entry_sym e x : same_entry e x = bool_decide (key x.1 = key e).
Proof. unfold same_entry. by apply bool_decide_ext. Qed.

Lemma regs_snoc e r ev cb :
  regs e (r ++ [(ev, cb)]) = if bool_decide (key ev = key e) then regs e r ++ [cb] else regs e r.
Proof.
  unfold regs. rewrite List.filter_app, map_app. cbn [List.filter]. rewrite same_entry_sym. cbn [fst].
  case_bool_decide; cbn [map]; [done|by rewrite app_nil_r].
Qed.

Lemma regs_add e r ev cb ok :
  regs e (spec_step r (OAdd ev cb ok))
  = if bool_decide (key ev = key e) then add_reg keeps_second cb (regs e r) else regs e r.
Proof.
  cbn [spec_step]. case_bool_decide as Hk.
  - rewrite (regs_key _ _ _ Hk). unfold add_reg. destruct (regs e r) eqn:Er.
    + by rewrite regs_snoc, bool_decide_true, Er.
    + destruct keeps_second; [|done]. by rewrite regs_snoc, bool_decide_true, Er.
  - destruct (regs ev r); [|destruct keeps_second; [|done]]; by rewrite regs_snoc, bool_decide_false.
Qed.

Lemma regs_forget e ev r :
  regs e (forget ev r) = if bool_decide (key ev = key e) then tail (regs e r) else regs e r.
Proof.
  unfold regs. induction r as [|x r IH]; cbn [forget List.filter]; [by case_match|].
  destruct (same_entry ev x) eqn:Hx.
  - case_bool_decide as Hk.
    + rewrite (same_entry_key _ _ _ Hk) in Hx. by rewrite Hx.
    + unfold same_entry in *. apply bool_decide_eq_true in Hx. by rewrite (bool_decide_false (key e = _)) by congruence.
  - cbn [List.filter]. destruct (same_entry e x) eqn:Hy; cbn [map]; rewrite IH; [|done].
    rewrite bool_decide_false; [done|]. intros Hk. rewrite (same_entry_key _ _ _ Hk) in Hx. congruence.
Qed.

Lemma exec_implements o s s' cs r :
  exec o s = Defined (s', cs) -> implements (worker s) r -> implements (worker s') (spec_step r o).
Proof.
  destruct s as [w es]. cbn [worker pending]. intros Hx [Hw Hr].
  destruct o as [ev cb ok|ev ok|fd|a|]; cbn [exec worker pending] in *.
  - destruct (Add ev cb ok w) as [w'|] eqn:Ea; [|done]. injection Hx as <- <-.
    destruct (Add_law ev cb ok w w' Ea Hw) as [Hw' Hr']. split; [done|].
    intros e. by rewrite regs_add, Hr', Hr.
  - destruct (Remove ev ok w) as [w'|] eqn:Ea; [|done]. injection Hx as <- <-.
    destruct (Remove_law ev ok w w' Ea Hw) as [Hw' Hr']. split; [done|].
    intros e. cbn [spec_step]. by rewrite regs_forget, Hr', Hr.
  - by injection Hx as <- <-.
  - destruct es; [destruct (wait a w); [|done]|]; by injection Hx as <- <-.
  - destruct (handle es w) as [[? ?]|]; [|done]. by injection Hx as <- <-.
Qed.

Lemma run_implements os : forall s s' cs r,
  run os s = Defined (s', cs) -> implements (worker s) r ->
  implements (worker s') (fold_left spec_step os r).
Proof.
  induction os as [|o os IH]; intros s s' cs r; cbn [run fold_left].
  - by intros [= <- <-].
  - destruct (exec o s) as [[s1 c1]|] eqn:Ea; [|done]. cbn [fst snd].
    destruct (run os s1) as [[s2 c2]|] eqn:Eb; [|done]. intros [= <- <-] Hi.
    apply (IH s1 s2 c2); [done|]. by apply (exec_implements o s s1 c1).
Qed.

(** C14: whatever clients and the thread of a poller do, in whatever order, and with
    repeated additions of the same event, every function the poller calls is the one
    of the oldest registration of that entry.  An [Add] for an entry that is there
    is ignored, except with completion ports, which keep it behind the others;
    [Remove] takes the oldest away. *)
Theorem poller_calls_registered os s r s' log s'' cs :
  implements (worker s) r ->
  run os s = Defined (s', log) -> exec OHandle s' = Defined (s'', cs) ->
  Forall (fun c => find_reg c.2 (fold_left spec_step os r) = Some c.1) cs.
Proof.
  intros Hi Hr Hh. destruct (run_implements os s s' log r Hr Hi) as [Hw Hf].
  destruct s' as [w es]. cbn [exec worker pending] in *.
  destruct (handle es w) as [[cs' es']|] eqn:Ea; [|done]. injection Hh as _ <-.
  eapply Forall_impl; [|exact (handle_law es w cs' es' Ea Hw)]. intros c Hc. unfold find_reg. by rewrite <- Hf.
Qed.
End Spec.

(** *** The four pollers keep it *)

#[export] Existing Instances Epoll.epoll_worker Kqueue.kqueue_worker Freertos.freertos_worker WinIoCP.win_worker.

Lemma emplace_regs (k : Z) (v : Callback) m i :
  option_list (Epoll.emplace_new k v m !! i)
  = if bool_decide (k = i) then add_reg false v (option_list (m !! i)) else option_list (m !! i).
Proof.
  unfold Epoll.emplace_new. case_bool_decide as Hk; [subst i|].
  - destruct (m !! k) eqn:E; [by rewrite E|by rewrite lookup_insert_eq].
  - destruct (m !! k); [done|]. by rewrite lookup_insert_ne.
Qed.

Lemma lookup_delete_if {V} (k : Z) (m : gmap Z V) i :
  delete k m !! i = if bool_decide (k = i) then None else m !! i.
Proof. case_bool_decide as Hk; [subst; by rewrite lookup_delete_eq|by rewrite lookup_delete_ne]. Qed.

Lemma delete_regs {V} (k : Z) (m : gmap Z V) i :
  option_list (delete k m !! i) = if bool_decide (k = i) then tail (option_list (m !! i)) else option_list (m !! i).
Proof. rewrite lookup_delete_if. case_bool_decide; [|done]. by destruct (m !! i). Qed.

(** Entries of one descriptor. *)
Definition fd_key (e : PollerEvent) : Z * Z := (descriptor e, 0).

Lemma fd_key_decide ev e : bool_decide (fd_key ev = fd_key e) = bool_decide (descriptor ev = descriptor e).
Proof. apply bool_decide_ext. unfold fd_key. split; [by intros [= ->]|by intros ->]. Qed.

Lemma epoll_handle_law es w cs :
  Epoll.handle_events es w = Defined cs ->
  Forall (fun c : call => Epoll.callbacks_ w !! descriptor c.2 = Some c.1) cs.
Proof.
  revert cs. induction es as [|[fd mask] es IH]; intros cs; cbn [Epoll.handle_events]; [by intros [= <-]|].
  destruct (Epoll.callbacks_ w !! fd) as [cb|] eqn:E; [|done].
  destruct (Epoll.handle_events es w) as [cs'|]; [|done]. intros [= <-]. constructor; [done|by apply IH].
Qed.

#[export] Program Instance epoll_ok : PollWorkerOk Epoll.Worker Epoll.wait_answer Epoll.epoll_event := {
  key := fd_key; keeps_second := false; wf _ := True;
  regs_of w e := option_list (Epoll.callbacks_ w !! descriptor e);
}.
Next Obligation.
  intros ev cb ok w w' Ha _. cbn in Ha. unfold Epoll.worker_Add in Ha.
  destruct (Epoll.interest_mask (event_type ev)); [|done]. destruct ok; [|done]. injection Ha as <-.
  split; [done|]. intros e. rewrite fd_key_decide. apply emplace_regs.
Qed.
Next Obligation.
  intros ev ok w w' Ha _. cbn in Ha. unfold Epoll.worker_Remove in Ha. destruct ok; [|done]. injection Ha as <-.
  split; [done|]. intros e. cbn. rewrite fd_key_decide. apply delete_regs.
Qed.
Next Obligation.
  intros es w cs es' Hh _. cbn in Hh. destruct (Epoll.handle_events es w) as [cs'|] eqn:E; [|done].
  injection Hh as <- <-. eapply Forall_impl; [|by apply epoll_handle_law in E]. intros c Hc. cbn. by rewrite Hc.
Qed.

#[export] Program Instance kqueue_ok : PollWorkerOk Kqueue.Worker Kqueue.wait_answer Kqueue.event := {
  key := fd_key; keeps_second := false; wf _ := True;
  regs_of w e := option_list (Kqueue.callbacks_ w !! descriptor e);
}.
Next Obligation.
  intros ev cb ok w w' Ha _. cbn in Ha. unfold Kqueue.worker_Add, Kqueue.filters in Ha.
  split; [done|]. intros e. rewrite fd_key_decide, <- (emplace_regs _ cb).
  assert (forall m, Epoll.emplace_new (descriptor ev) cb (Epoll.emplace_new (descriptor ev) cb m)
    = Epoll.emplace_new (descriptor ev) cb m) as Hd.
  { intros m. unfold Epoll.emplace_new at 1 3. unfold Epoll.emplace_new.
    destruct (m !! descriptor ev) eqn:Em; [by rewrite Em|]. by rewrite lookup_insert_eq. }
  destruct (_ =? READ); [|destruct (_ =? WRITE); [|destruct (_ =? ANY); [|done]]];
    (destruct ok; [|done]); injection Ha as <-; cbn; by rewrite ?Hd.
Qed.
Next Obligation.
  intros ev ok w w' Ha _. cbn in Ha. injection Ha as <-.
  split; [done|]. intros e. cbn. rewrite fd_key_decide. apply delete_regs.
Qed.
Next Obligation.
  intros es w cs es' Hh _. cbn in Hh. destruct es as [|[i f] es]; [by injection Hh as <- <-|].
  unfold Kqueue.handle_event in Hh. cbn [fst snd] in Hh.
  destruct (f =? Kqueue.EVFILT_USER); [by injection Hh as <- <-|].
  destruct (Kqueue.callbacks_ w !! i) eqn:E; [|done].
  destruct (Kqueue.FilterTypeToEventType f); [|done]. injection Hh as <- <-.
  repeat constructor. cbn. by rewrite E.
Qed.

#[export] Program Instance freertos_ok : PollWorkerOk Freertos.Worker Freertos.wait_answer (Z * Z) := {
  key := fd_key; keeps_second := false; wf _ := True;
  regs_of w e := option_list (snd <$> Freertos.callbacks_ w !! descriptor e);
}.
Next Obligation.
  intros ev cb ok w w' Ha _. cbn in Ha. injection Ha as <-. split; [done|]. intros e. rewrite fd_key_decide.
  cbn [Freertos.callbacks_]. unfold Epoll.emplace_new. case_bool_decide as Hk; [rewrite <- Hk|].
  - destruct (Freertos.callbacks_ w !! descriptor ev) eqn:E; [by rewrite E|by rewrite lookup_insert_eq].
  - destruct (Freertos.callbacks_ w !! descriptor ev); [done|]. by rewrite lookup_insert_ne.
Qed.
Next Obligation.
  intros ev ok w w' Ha _. cbn in Ha. injection Ha as <-.
  split; [done|]. intros e. cbn. rewrite fd_key_decide, lookup_delete_if. case_bool_decide; [|done].
  by destruct (Freertos.callbacks_ w !! descriptor e).
Qed.
Next Obligation.
  intros es w cs es' Hh _. cbn in Hh. injection Hh as <- <-.
  induction es as [|[fd r] es IH]; cbn; [constructor|].
  destruct (Freertos.callbacks_ w !! fd) as [[ev cb]|] eqn:E; cbn; [|done]. constructor; [cbn; by rewrite E|done].
Qed.

(** Completion ports keep all events of a descriptor. *)
Section Win.
Import WinIoCP.

Definition win_wf (w : Worker) : Prop :=
  forall d l, events_ w !! d = Some l -> Forall (fun x => descriptor x.1 = d) l.

(** The list of a descriptor, empty when it has none, and its functions for a type. *)
Definition entries (w : Worker) (d : Z) : list (PollerEvent * Callback) := default [] (events_ w !! d).

Definition of_type (t : Z) (l : list (PollerEvent * Callback)) : list Callback :=
  map snd (List.filter (fun v => event_type v.1 =? t) l).

Definition win_regs (w : Worker) (e : PollerEvent) : list Callback := of_type (event_type e) (entries w (descriptor e)).

Lemma find_type_head t l : head (of_type t l) = snd <$> find_type t l.
Proof.
  unfold of_type, find_type. induction l as [|x l IH]; cbn; [done|]. by destruct (event_type x.1 =? t).
Qed.

Lemma of_type_snoc t l ev cb :
  of_type t (l ++ [(ev, cb)]) = if event_type ev =? t then of_type t l ++ [cb] else of_type t l.
Proof.
  unfold of_type. rewrite List.filter_app, map_app. cbn. destruct (_ =? t); [done|by rewrite app_nil_r].
Qed.

Lemma of_type_erase t ev l :
  Forall (fun x => descriptor x.1 = descriptor ev) l ->
  of_type t (erase_first (fun v => event_eqb v.1 ev) l)
  = if event_type ev =? t then tail (of_type t l) else of_type t l.
Proof.
  unfold of_type. induction 1 as [|x l Hx _ IH]; cbn; [by case_match|].
  unfold event_eqb at 1. rewrite Hx, Z.eqb_refl. cbn [andb].
  destruct (Z.eqb_spec (event_type x.1) (event_type ev)) as [Et|Et]; cbn [List.filter].
  - rewrite Et. by destruct (event_type ev =? t).
  - destruct (Z.eqb_spec (event_type x.1) t) as [E1|E1]; cbn [map]; rewrite IH; [|done].
    by rewrite (proj2 (Z.eqb_neq (event_type ev) t)) by congruence.
Qed.

Lemma erase_subset p l x : x ∈ erase_first p l -> x ∈ l.
Proof. induction l as [|y l IH]; cbn [erase_first]; [done|]. destruct (p y); set_solver. Qed.

Lemma erase_wf d p l :
  Forall (fun x : PollerEvent * Callback => descriptor x.1 = d) l ->
  Forall (fun x => descriptor x.1 = d) (erase_first p l).
Proof.
  rewrite !list.Forall_forall. intros Hl x Hx. apply erase_subset in Hx. by apply Hl.
Qed.

Lemma win_wf_insert d l w :
  win_wf w -> Forall (fun x => descriptor x.1 = d) l -> win_wf {| events_ := <[d := l]> (events_ w) |}.
Proof.
  intros Hw Hl d' l'. cbn. destruct (decide (d = d')) as [<-|Hd].
  - rewrite lookup_insert_eq. by intros [= <-].
  - rewrite lookup_insert_ne by done. apply Hw.
Qed.

Definition win_key (e : PollerEvent) : Z * Z := (descriptor e, event_type e).

Lemma win_key_decide ev e :
  bool_decide (win_key ev = win_key e) = bool_decide (descriptor ev = descriptor e) && (event_type ev =? event_type e).
Proof.
  destruct (bool_decide_reflect (descriptor ev = descriptor e)) as [Hd|Hd]; cbn [andb].
  - destruct (Z.eqb_spec (event_type ev) (event_type e)) as [Ht|Ht];
      [rewrite bool_decide_true|rewrite bool_decide_false]; unfold win_key; congruence.
  - rewrite bool_decide_false; unfold win_key; congruence.
Qed.

Lemma entries_insert d l w d' :
  entries {| events_ := <[d := l]> (events_ w) |} d' = if bool_decide (d = d') then l else entries w d'.
Proof.
  unfold entries. cbn. case_bool_decide as Hd; [subst; by rewrite lookup_insert_eq|by rewrite lookup_insert_ne].
Qed.

Lemma win_wf_entries w d : win_wf w -> Forall (fun x => descriptor x.1 = d) (entries w d).
Proof. intros Hw. unfold entries. destruct (events_ w !! d) eqn:E; cbn; [by apply Hw|constructor]. Qed.

Lemma win_Add_entries ev cb ok w w' :
  worker_Add ev cb ok w = Defined w' ->
  w' = {| events_ := <[descriptor ev := entries w (descriptor ev) ++ [(ev, cb)]]> (events_ w) |}.
Proof.
  unfold worker_Add, entries. destruct (events_ w !! descriptor ev); [by intros [= <-]|].
  destruct ok; [by intros [= <-]|done].
Qed.

Lemma win_Remove_entries ev ok w w' d :
  worker_Remove ev ok w = Defined w' ->
  entries w' d = if bool_decide (descriptor ev = d)
    then erase_first (fun v => event_eqb v.1 ev) (entries w (descriptor ev)) else entries w d.
Proof.
  unfold worker_Remove. unfold entries at 2. destruct (events_ w !! descriptor ev) as [l|] eqn:E;
    intros [= <-]; cbn [default id].
  - destruct (erase_first _ l) as [|y l'] eqn:El; [|by rewrite entries_insert].
    unfold entries. cbn. rewrite lookup_delete_if. by case_bool_decide.
  - unfold entries. case_bool_decide as Hd; [|done]. by rewrite <- Hd, E.
Qed.

#[export] Program Instance win_ok : PollWorkerOk Worker completion completion := {
  key := win_key; keeps_second := true; wf := win_wf; regs_of := win_regs;
}.
Next Obligation.
  intros ev cb ok w w' Ha Hw. apply win_Add_entries in Ha as ->. split.
  - apply win_wf_insert; [done|]. apply Forall_app_2; [by apply win_wf_entries|by repeat constructor].
  - intros e. unfold win_regs. rewrite entries_insert, win_key_decide. case_bool_decide as Hd; [|done]. cbn [andb].
    rewrite of_type_snoc, Hd. destruct (_ =? _); [|done]. unfold add_reg. by destruct (of_type _ _).
Qed.
Next Obligation.
  intros ev ok w w' Ha Hw. split.
  - cbn in Ha. unfold worker_Remove in Ha. destruct (events_ w !! descriptor ev) as [l|] eqn:E; injection Ha as <-; [|done].
    apply Hw in E as Hl. apply (erase_wf _ (fun v => event_eqb v.1 ev)) in Hl.
    destruct (erase_first _ l) as [|y l'] eqn:El; [|by apply win_wf_insert].
    intros d l'. cbn. rewrite lookup_delete_if. case_bool_decide; [done|]. apply Hw.
  - intros e. unfold win_regs. rewrite (win_Remove_entries _ _ _ _ _ Ha), win_key_decide.
    case_bool_decide as Hd; [|done]. cbn [andb]. rewrite of_type_erase by by apply win_wf_entries. by rewrite Hd.
Qed.
Next Obligation.
  intros es w cs es' Hh Hw. cbn in Hh. destruct es as [|[d o] es]; [by injection Hh as <- <-|].
  unfold handle_completion in Hh. cbn [fst snd] in Hh.
  destruct (events_ w !! d) as [l|] eqn:E; [|by injection Hh as <- <-].
  destruct o as [t|]; [|done]. destruct (find_type t l) as [[ev cb]|] eqn:Ef; [|done].
  injection Hh as <- <-. apply Forall_cons_2; [|done]. cbn [fst snd].
  destruct (List.find_some _ _ Ef) as [Hin Ht]. cbn in Ht. apply Z.eqb_eq in Ht.
  apply list_elem_of_In in Hin. pose proof (proj1 (list.Forall_forall _ _) (Hw d l E) _ Hin) as Hd. cbn in Hd.
  unfold win_regs, entries. rewrite Hd, E, Ht. change (default [] (Some l)) with l. by rewrite find_type_head, Ef.
Qed.
End Win.

(** A second [Add]: epoll goes on to call the first function; with completion ports
    the second shows when the first is removed. *)
Lemma poller_calls_registered_witness :
  Forall (fun c => find_reg (W := Epoll.Worker) (E := Epoll.epoll_event) c.2
      [({| descriptor := 7; event_type := ANY |}, Client 1)] = Some c.1)
    [(Client 1, {| descriptor := 7; event_type := READ |})] /\
  Forall (fun c => find_reg (W := WinIoCP.Worker) (E := WinIoCP.completion) c.2
      [({| descriptor := 7; event_type := READ |}, Client 2)] = Some c.1)
    [(Client 2, {| descriptor := 7; event_type := READ |})].
Proof.
  split.
  - refine (poller_calls_registered (W := Epoll.Worker) (E := Epoll.epoll_event)
      [OAdd {| descriptor := 7; event_type := ANY |} (Client 1) true;
       OAdd {| descriptor := 7; event_type := READ |} (Client 2) true; OWait (Epoll.Events [(7, 1)])]
      {| worker := {| Epoll.callbacks_ := ∅ |}; pending := [] |} []
      {| worker := {| Epoll.callbacks_ := {[7 := Client 1]} |}; pending := [(7, 1)] |} []
      {| worker := {| Epoll.callbacks_ := {[7 := Client 1]} |}; pending := [] |} _ _ eq_refl eq_refl).
    by repeat split.
  - refine (poller_calls_registered (W := WinIoCP.Worker) (E := WinIoCP.completion)
      [OAdd {| descriptor := 7; event_type := READ |} (Client 1) true;
       OAdd {| descriptor := 7; event_type := READ |} (Client 2) true;
       ORemove {| descriptor := 7; event_type := READ |} true; OWait (7, Some READ)]
      {| worker := WinIoCP.new_worker; pending := [] |} []
      {| worker := {| WinIoCP.events_ := {[7 := [({| descriptor := 7; event_type := READ |}, Client 2)]]} |};
         pending := [(7, Some READ)] |} []
      {| worker := {| WinIoCP.events_ := {[7 := [({| descriptor := 7; event_type := READ |}, Client 2)]]} |};
         pending := [] |} _ _ eq_refl eq_refl).
    split; [intros d l; done|done].
Defined.
End PollerSpec.

Module PollerProperties.
Import Poller PollerSpec.

(** ** epoll with clients that keep the rules *)
Section Epoll.
Import Epoll.

(** What clients and the system do: [R] are the functions by descriptor, [P] the
    events the thread has to handle.  Clients add a descriptor that is not there,
    remove one that is there and not about to be handled, and close it after that;
    the system then does what is asked ([epoll_ctl] fails for a descriptor that is
    in the list already, or not in it) and reports descriptors of the list.  The
    last argument are the calls to expect. *)
Inductive epoll_trace : gmap Z Callback -> list epoll_event -> list (op wait_answer) -> list call -> Prop :=
  | et_nil R P : epoll_trace R P [] []
  | et_add R P ev cb os cs :
      R !! descriptor ev = None -> event_type ev = READ \/ event_type ev = WRITE \/ event_type ev = ANY ->
      epoll_trace (<[descriptor ev := cb]> R) P os cs ->
      epoll_trace R P (OAdd ev cb true :: os) cs
  | et_remove R P ev os cs :
      is_Some (R !! descriptor ev) -> Forall (fun e => e.1 <> descriptor ev) P ->
      epoll_trace (delete (descriptor ev) R) P os cs ->
      epoll_trace R P (ORemove ev true :: os) cs
  | et_close R P fd os cs :
      R !! fd = None -> epoll_trace R P os cs -> epoll_trace R P (OClose fd :: os) cs
  | et_interrupted R os cs : epoll_trace R [] os cs -> epoll_trace R [] (OWait EINTR :: os) cs
  | et_wait R es os cs :
      (length es <= MAX_EVENTS)%nat -> Forall (fun e => is_Some (R !! e.1)) es ->
      epoll_trace R es os cs -> epoll_trace R [] (OWait (Events es) :: os) cs
  | et_handle R P os cs :
      epoll_trace R [] os cs ->
      epoll_trace R P (OHandle :: os)
        (omap (fun e => (fun cb => (cb, {| descriptor := e.1; event_type := FromEpollEvent e.2 |})) <$> R !! e.1) P
         ++ cs).

Lemma handle_events_registered P w :
  Forall (fun e => is_Some (callbacks_ w !! e.1)) P ->
  handle_events P w = Defined
    (omap (fun e => (fun cb => (cb, {| descriptor := e.1; event_type := FromEpollEvent e.2 |}))
       <$> callbacks_ w !! e.1) P).
Proof.
  induction 1 as [|[fd m] P [cb Hcb] _ IH]; [done|]. cbn [fst snd] in *.
  cbn [handle_events omap list_omap fst snd]. rewrite Hcb, IH. done.
Qed.

(** C7: an epoll poller whose clients add a descriptor once, and remove it before
    they close it and not while the thread is about to handle an event of it, never
    fails an assertion, and calls for every event the system reported the function
    of its descriptor, once and in order. *)
Theorem epoll_delivers R P os cs :
  epoll_trace R P os cs -> Forall (fun e => is_Some (R !! e.1)) P ->
  exists s, run os {| worker := {| callbacks_ := R |}; pending := P |} = Defined (s, cs).
Proof.
  induction 1 as [R P|R P ev cb os cs Hn Ht _ IH|R P ev os cs Hs Hp _ IH|R P fd os cs _ _ IH|R os cs _ IH
    |R es os cs _ Hes _ IH|R P os cs _ IH]; intros HP; cbn [run exec worker pending Add Remove wait handle epoll_worker].
  - by eexists.
  - unfold worker_Add. assert (exists m, interest_mask (event_type ev) = Defined m) as [m ->]
      by (destruct Ht as [->|[->| ->]]; by eexists). cbn [callbacks_]. unfold emplace_new. rewrite Hn. cbn [fst snd].
    destruct IH as [s E].
    + eapply Forall_impl; [|exact HP]. intros e He. rewrite lookup_insert_is_Some'. by right.
    + exists s. rewrite E. done.
  - unfold worker_Remove. cbn [callbacks_ fst snd]. destruct IH as [s E].
    + apply list.Forall_forall. intros e He. rewrite lookup_delete_ne;
        [exact (proj1 (list.Forall_forall _ _) HP e He)|].
      intros Hc. by apply (proj1 (list.Forall_forall _ _) Hp e He).
    + exists s. rewrite E. done.
  - destruct (IH HP) as [s E]. exists s. cbn [fst snd]. rewrite E. done.
  - destruct (IH HP) as [s E]. exists s. cbn [worker_wait fst snd]. rewrite E. done.
  - destruct (IH Hes) as [s E]. exists s. cbn [worker_wait fst snd]. rewrite E. done.
  - rewrite handle_events_registered by done. cbn [fst snd callbacks_].
    destruct IH as [s E]; [constructor|]. exists s. rewrite E. done.
Qed.

Lemma epoll_delivers_witness :
  exists s, run [OAdd {| descriptor := 7; event_type := ANY |} (Client 1) true; OWait EINTR;
                 OWait (Events [(7, 1); (3, 1); (7, 5)]); OAdd {| descriptor := 8; event_type := READ |} (Client 2) true;
                 OHandle; ORemove {| descriptor := 7; event_type := 0 |} true; OClose 7]
              {| worker := {| callbacks_ := {[3 := WakeUp]} |}; pending := [] |}
    = Defined (s, [(Client 1, {| descriptor := 7; event_type := READ |});
                   (WakeUp, {| descriptor := 3; event_type := READ |});
                   (Client 1, {| descriptor := 7; event_type := ANY |})]).
Proof.
  apply (epoll_delivers {[3 := WakeUp]} []); [|constructor].
  apply et_add; [done|by right; right|]. apply et_interrupted.
  apply et_wait; [cbn; unfold MAX_EVENTS; lia|repeat constructor; by eexists|].
  apply et_add; [done|by left|].
  match goal with |- epoll_trace ?R ?P (OHandle :: ?os) _ => exact (et_handle R P os []
    ltac:(apply et_remove; [by eexists|constructor|]; apply et_close; [done|]; apply et_nil)) end.
Defined.

(** An event whose descriptor is removed between the wait and the mutex is not
    found: the assertion of the loop fails. *)
Theorem epoll_remove_race w fd cb t mask :
  callbacks_ w !! fd = Some cb ->
  run [OWait (Events [(fd, mask)]); ORemove {| descriptor := fd; event_type := t |} true; OClose fd; OHandle]
    {| worker := w; pending := [] |} = Undefined.
Proof. intros _. cbn. by rewrite lookup_delete_eq. Qed.

(** A descriptor that was closed without being removed keeps its function: when the
    system gives the number to a new descriptor, the function added for that one is
    dropped, and its events go to the old function. *)
Theorem closed_descriptor_keeps_function w fd old new t mask :
  callbacks_ w !! fd = Some old -> t = READ \/ t = WRITE \/ t = ANY ->
  run [OClose fd; OAdd {| descriptor := fd; event_type := t |} new true; OWait (Events [(fd, mask)]); OHandle]
    {| worker := w; pending := [] |}
  = Defined ({| worker := w; pending := [] |},
             [(old, {| descriptor := fd; event_type := FromEpollEvent mask |})]).
Proof.
  intros Ho Ht. cbn [run exec worker pending Add wait handle epoll_worker fst snd]. unfold worker_Add.
  assert (exists m, interest_mask t = Defined m) as [m Hm] by (destruct Ht as [->|[->| ->]]; by eexists).
  cbn [event_type]. rewrite Hm. cbn [descriptor]. unfold emplace_new. rewrite Ho. destruct w as [w]. cbn in *. by rewrite Ho.
Qed.
End Epoll.

(** ** kqueue *)

(** [Remove] names no filter that was ever added, so the system keeps reporting the
    descriptor until it is closed; the function is gone and the assertion fails. *)
Theorem kqueue_remove_keeps_filters (w : Kqueue.Worker) ev ok f fs :
  Kqueue.filters (event_type ev) = Defined fs -> f ∈ fs ->
  (Kqueue.remove_filter ∉ fs) /\
  run [ORemove ev ok; OWait (Kqueue.Events [(descriptor ev, f)]); OHandle] {| worker := w; pending := [] |} = Undefined.
Proof.
  unfold Kqueue.filters. intros Hf Hi.
  assert (f = Kqueue.EVFILT_READ \/ f = Kqueue.EVFILT_WRITE) as Hv
    by (repeat case_match; simplify_eq; set_solver).
  split; [intros H0; repeat case_match; simplify_eq;
    repeat (apply elem_of_cons in H0 as [H0|H0]; [discriminate|]); by apply elem_of_nil in H0|].
  cbn. unfold Kqueue.handle_event. cbn. destruct Hv as [->| ->]; cbn; by rewrite lookup_delete_eq.
Qed.

(** [Add] tells the system before it stores the function, without the mutex: an event
    that comes between finds none. *)
Theorem kqueue_add_race (w : Kqueue.Worker) ev cb ok f :
  Kqueue.callbacks_ w !! descriptor ev = None -> f <> Kqueue.EVFILT_USER ->
  run [OWait (Kqueue.Events [(descriptor ev, f)]); OHandle; OAdd ev cb ok] {| worker := w; pending := [] |} = Undefined.
Proof.
  intros Hn Hf. cbn. unfold Kqueue.handle_event. cbn. by rewrite (proj2 (Z.eqb_neq _ _) Hf), Hn.
Qed.

(** ** lwIP *)

(** When nothing happened until the timeout, every function is called all the same,
    with both kinds of events. *)
Theorem freertos_timeout_calls_all (w : Freertos.Worker) :
  (forall d ev cb, Freertos.callbacks_ w !! d = Some (ev, cb) -> descriptor ev = d) ->
  run [OWait (Some (fun _ => 0)); OHandle] {| worker := w; pending := [] |}
  = Defined ({| worker := w; pending := [] |},
      map (fun x => (x.2.2, {| descriptor := x.1; event_type := ANY |})) (map_to_list (Freertos.callbacks_ w))).
Proof.
  intros Hd. cbn. do 2 f_equal. rewrite app_nil_r. unfold Freertos.FillFdsVector, Freertos.handle_events.
  assert (Forall (fun x => Freertos.callbacks_ w !! x.1 = Some x.2 /\ descriptor x.2.1 = x.1)
    (map_to_list (Freertos.callbacks_ w))) as Hl.
  { apply list.Forall_forall. intros [d [ev cb]] Hx%elem_of_map_to_list. split; [done|by eapply Hd]. }
  generalize (@None Z). induction Hl as [|[d [ev cb]] l [Hx Hk] _ IH]; intros old; [done|].
  cbn in *. rewrite Hk, Hx. by rewrite IH.
Qed.

(** A second event of a descriptor is dropped: descriptors alone are compared. *)
Theorem freertos_second_add_ignored (w : Freertos.Worker) d ev cb ev' cb' ok :
  Freertos.callbacks_ w !! d = Some (ev, cb) -> descriptor ev' = d ->
  Freertos.worker_Add ev' cb' ok w = Defined w.
Proof.
  intros Hd Hd'. unfold Freertos.worker_Add, Epoll.emplace_new. rewrite Hd', Hd. by destruct w.
Qed.

End PollerProperties.
