(* ===== verification/Dns.v ===== *)
(** * Resolving names ([aether/dns/])

    [dns_resolve.*]: the action of a query.  [dns_c_ares.*]: the resolver with c-ares,
    which asks the poller to watch the sockets of the library; what the library calls
    ([SocketState], [QueryResult]) are operations, and the poller is any
    [PollWorker].  [esp32_dns_resolve.*]: the resolver of lwIP.

    A failed [assert], and a lock of a mutex its thread holds, is [Undefined]. *)

From stdpp Require Import gmap.
From S2P Require Import Prelude MStream ServerList WireTypes Poller.
Import Cloud Addresses Poller.Poller.

#[local] Set Warnings "-clear-no-such-hyp".

Module Dns.

(** ** [ResolveAction] *)
Record ResolveAction := {
  is_resolved : bool;
  is_failed : bool;
  addresses : list IpAddressPortProtocol;
}.

Definition new_resolve : ResolveAction := {| is_resolved := false; is_failed := false; addresses := [] |}.

Definition SetAddress (addr : list IpAddressPortProtocol) (a : ResolveAction) : ResolveAction :=
  {| is_resolved := true; is_failed := is_failed a; addresses := addr |}.

Definition Failed (a : ResolveAction) : ResolveAction :=
  {| is_resolved := false; is_failed := true; addresses := addresses a |}.

(** What [Update] emits; the action is finished then. *)
Inductive resolve_event := Result (addresses : list IpAddressPortProtocol) | Error.

Definition resolve_update (a : ResolveAction) : option resolve_event :=
  if is_resolved a then Some (Result (addresses a))
  else if is_failed a then Some Error else None.

(** ** Queries of a resolver *)

Record QueryContext := { resolve_action : ResolveAction; name_address : NameAddress }.

(** [query_id] is static, of 32 bits. *)
Record Queries := { active_queries_ : gmap Z QueryContext; query_id : Z }.

(** The beginning of [Query]: the context, new unless the identifier is in use. *)
Definition new_query (name : NameAddress) (q : Queries) : Queries * Z :=
  let id := query_id q in
  ({| active_queries_ := Epoll.emplace_new id {| resolve_action := new_resolve; name_address := name |} (active_queries_ q);
      query_id := (id + 1) mod 2 ^ 32 |}, id).

Definition with_action (f : QueryContext -> ResolveAction) (id : Z) (q : Queries) : Queries :=
  match active_queries_ q !! id with
  | None => q
  | Some c =>
      {| active_queries_ := <[id := {| resolve_action := f c; name_address := name_address c |}]> (active_queries_ q);
         query_id := query_id q |}
  end.

(** [Update] of the action of a query: the subscriber of its end erases the query
    from the map the action lives in, and [Update] goes on to write a member; the
    last component tells that it did. *)
Definition update_query (id : Z) (q : Queries) : Queries * option resolve_event * bool :=
  match active_queries_ q !! id with
  | None => (q, None, false)
  | Some c =>
      match resolve_update (resolve_action c) with
      | None => (q, None, false)
      | Some e =>
          ({| active_queries_ := delete id (active_queries_ q); query_id := query_id q |}, Some e, true)
      end
  end.

(** ** c-ares *)

(** A node of the result of [ares_getaddrinfo]. *)
Inductive ares_node := AF_INET (sin_addr : bytes) | AF_INET6 (sin6_addr : bytes) | AF_OTHER.

Definition node_ip (n : ares_node) : outcome IpAddress :=
  match n with
  | AF_INET a => set_value a {| version := kIpV4; value := [] |}
  | AF_INET6 a => set_value a {| version := kIpV6; value := [] |}
  | AF_OTHER => Defined (dflt : IpAddress)
  end.

Definition node_address (name : NameAddress) (n : ares_node) : outcome IpAddressPortProtocol :=
  let* a := node_ip n in
  Defined {| ip := a; port := na_port name; protocol := na_protocol name |}.

Fixpoint node_addresses (name : NameAddress) (ns : list ares_node) : outcome (list IpAddressPortProtocol) :=
  match ns with
  | [] => Defined []
  | n :: ns =>
      let* a := node_address name n in
      let* l := node_addresses name ns in Defined (a :: l)
  end.

(** [QueryResult]; the result is [None] when c-ares gives no [ares_addrinfo]. *)
Definition ARES_SUCCESS : Z := 0.

Definition QueryResult (id status : Z) (result : option (list ares_node)) (q : Queries) : outcome Queries :=
  match active_queries_ q !! id with
  | None => Undefined
  | Some c =>
      if negb (status =? ARES_SUCCESS) then Defined (with_action (fun c => Failed (resolve_action c)) id q)
      else match result with
           | None => Undefined
           | Some ns =>
               let* l := node_addresses (name_address c) ns in
               Defined (with_action (fun c => SetAddress l (resolve_action c)) id q)
           end
  end.

Section Ares.
Context {W A E : Type} `{PollWorker W A E}.

(** [AresImpl], with the worker of its poller and the number of the function it
    gives to the poller. *)
Record AresImpl := {
  queries : Queries;
  poller_ : W;
  opened_sockets_ : gset Z;
  socket_function : nat;
}.

(** [Query]: c-ares is asked for addresses of both families. *)
Definition Query (name : NameAddress) (s : AresImpl) : AresImpl * Z :=
  let '(q, id) := new_query name (queries s) in
  ({| queries := q; poller_ := poller_ s; opened_sockets_ := opened_sockets_ s; socket_function := socket_function s |},
   id).

(** [SocketState]; [in_poll_thread]: it is called by [ares_process_fd] inside
    [SocketEvent], so the poller holds its mutex.  [ok] is the answer of the system
    to the poller. *)
Definition SocketState (socket_fd : Z) (readable writable in_poll_thread ok : bool) (s : AresImpl)
  : outcome AresImpl :=
  let opened := {[socket_fd]} ∪ opened_sockets_ s in
  let add t :=
    if in_poll_thread then Undefined
    else
      let* w := Add {| descriptor := socket_fd; event_type := t |} (Client (socket_function s)) ok (poller_ s) in
      Defined {| queries := queries s; poller_ := w; opened_sockets_ := opened;
                 socket_function := socket_function s |} in
  match readable, writable with
  | true, true => add ANY
  | true, false => add READ
  | false, true => add WRITE
  | false, false =>
      Defined {| queries := queries s; poller_ := poller_ s; opened_sockets_ := opened;
                 socket_function := socket_function s |}
  end.

(** [SocketEvent]: the sockets given to [ares_process_fd]. *)
Definition ARES_SOCKET_BAD : Z := -1.

Definition SocketEvent (ev : PollerEvent) : option (Z * Z) :=
  if event_type ev =? READ then Some (descriptor ev, ARES_SOCKET_BAD)
  else if event_type ev =? WRITE then Some (ARES_SOCKET_BAD, descriptor ev)
  else if event_type ev =? ANY then Some (descriptor ev, descriptor ev) else None.

(** [~AresImpl]: [ares_destroy] closes the sockets, then each one ever opened is
    removed from the poller; [answers] are the answers of the system. *)
Fixpoint remove_sockets (l : list Z) (answers : Z -> bool) (w : W) : outcome W :=
  match l with
  | [] => Defined w
  | sock :: l =>
      let* w := Remove {| descriptor := sock; event_type := 0 |} (answers sock) w in
      remove_sockets l answers w
  end.

Definition destroy (answers : Z -> bool) (s : AresImpl) : outcome W :=
  remove_sockets (elements (opened_sockets_ s)) answers (poller_ s).
End Ares.
Arguments AresImpl : clear implicits.

(** ** lwIP *)

(** [err_t] of [dns_gethostbyname], and its address. *)
Inductive dns_answer := ERR_OK (a : ares_node) | ERR_INPROGRESS | ERR_ARG | ERR_OTHER.

(** [QueryResult] of the lwIP resolver, with the address or null. *)
Definition esp_QueryResult (id : Z) (ipaddr : option ares_node) (q : Queries) : outcome Queries :=
  match active_queries_ q !! id with
  | None => Undefined
  | Some c =>
      match ipaddr with
      | None => Defined (with_action (fun c => Failed (resolve_action c)) id q)
      | Some n =>
          let* a := node_address (name_address c) n in
          Defined (with_action (fun c => SetAddress [a] (resolve_action c)) id q)
      end
  end.

Definition esp_Query (name : NameAddress) (res : dns_answer) (q : Queries) : outcome (Queries * Z) :=
  let '(q, id) := new_query name q in
  match res with
  | ERR_OK a => let* q := esp_QueryResult id (Some a) q in Defined (q, id)
  | ERR_ARG => Defined (with_action (fun c => Failed (resolve_action c)) id q, id)
  | ERR_INPROGRESS | ERR_OTHER => Defined (q, id)
  end.

End Dns.

Module DnsProperties.
Import Dns.

(** An address the library gives has the bytes of its family. *)
Definition node_ok (n : ares_node) : Prop :=
  match n with AF_INET a => (4 <= length a)%nat | AF_INET6 a => (16 <= length a)%nat | AF_OTHER => True end.

Definition node_value (n : ares_node) : IpAddress :=
  match n with
  | AF_INET a => {| version := kIpV4; value := take 4 a |}
  | AF_INET6 a => {| version := kIpV6; value := take 16 a |}
  | AF_OTHER => dflt
  end.

Definition named (name : NameAddress) (n : ares_node) : IpAddressPortProtocol :=
  {| ip := node_value n; port := na_port name; protocol := na_protocol name |}.

Lemma node_address_ok name n : node_ok n -> node_address name n = Defined (named name n).
Proof.
  destruct n as [a|a|]; cbn [node_ok]; intros Hn; [| |done];
    unfold node_address, node_ip, set_value, named; cbn [version ip_bytes];
    by rewrite (proj2 (Nat.ltb_ge _ _) Hn).
Qed.

Lemma node_addresses_ok name ns :
  Forall node_ok ns -> node_addresses name ns = Defined (map (named name) ns).
Proof. induction 1 as [|n ns Hn _ IH]; cbn; [done|]. by rewrite node_address_ok, IH. Qed.

(** What a query ends with. *)
Definition answer_of (name : NameAddress) (status : Z) (ns : list ares_node) : resolve_event :=
  if status =? ARES_SUCCESS then Result (map (named name) ns) else Error.

Lemma new_query_lookup name q :
  active_queries_ q !! query_id q = None ->
  active_queries_ (new_query name q).1 !! (new_query name q).2
    = Some {| resolve_action := new_resolve; name_address := name |} /\
  forall id, id <> query_id q -> active_queries_ (new_query name q).1 !! id = active_queries_ q !! id.
Proof.
  intros Hn. unfold new_query. cbn. unfold Epoll.emplace_new. rewrite Hn. split; [by rewrite lookup_insert_eq|].
  intros id Hid. by rewrite lookup_insert_ne.
Qed.

Lemma update_with_action f id q c e :
  active_queries_ q !! id = Some c -> resolve_update (f c) = Some e ->
  update_query id (with_action f id q)
  = ({| active_queries_ := delete id (active_queries_ q); query_id := query_id q |}, Some e, true).
Proof.
  intros Hc He. unfold with_action. rewrite Hc. unfold update_query. cbn. rewrite lookup_insert_eq. cbn.
  by rewrite He, delete_insert_eq.
Qed.

(** C35: a query is answered with its own addresses: whatever other queries are
    active, the answer of c-ares makes the update of its action emit all the
    addresses found, in their order and with the port and the protocol asked for,
    or the error; then the query is gone and the others are as they were. *)
Theorem query_answered (name : NameAddress) status ns q :
  active_queries_ q !! query_id q = None -> Forall node_ok ns ->
  let '(q1, id) := new_query name q in
  exists q2, QueryResult id status (Some ns) q1 = Defined q2 /\
  exists q3, update_query id q2 = (q3, Some (answer_of name status ns), true) /\
    active_queries_ q3 = active_queries_ q /\ query_id q3 = (query_id q + 1) mod 2 ^ 32.
Proof.
  intros Hn Hns. pose proof (new_query_lookup name q Hn) as [Hl _].
  destruct (new_query name q) as [q1 id] eqn:Eq. cbn [fst snd] in Hl.
  assert (delete id (active_queries_ q1) = active_queries_ q /\ query_id q1 = (query_id q + 1) mod 2 ^ 32) as [Hd Hi].
  { unfold new_query in Eq. injection Eq as <- <-. cbn. unfold Epoll.emplace_new. rewrite Hn.
    rewrite delete_insert_id by done. done. }
  unfold QueryResult, answer_of. rewrite Hl. destruct (status =? ARES_SUCCESS); cbn [negb].
  - cbn [name_address]. rewrite node_addresses_ok by done. eexists. split; [done|].
    eexists. rewrite (update_with_action _ id q1 _ _ Hl) by reflexivity. split; [done|]. by rewrite <- Hd, <- Hi.
  - eexists. split; [done|]. eexists. rewrite (update_with_action _ id q1 _ _ Hl) by reflexivity. split; [done|].
    by rewrite <- Hd, <- Hi.
Qed.

(** Every end of a query is followed by a write to the action that was erased with
    it. *)
Theorem resolve_writes_erased id q e q' w :
  update_query id q = (q', Some e, w) -> active_queries_ q' !! id = None /\ w = true.
Proof.
  unfold update_query. destruct (active_queries_ q !! id) as [c|]; [|done].
  destruct (resolve_update (resolve_action c)); [|done]. intros [= <- <- <-]. cbn. by rewrite lookup_delete_eq.
Qed.

(** The resolver of lwIP reports neither a result nor an error when the library
    refuses a query for another reason than its argument. *)
Theorem esp_refused_query_hangs name q :
  active_queries_ q !! query_id q = None ->
  exists q' id, esp_Query name ERR_OTHER q = Defined (q', id) /\ update_query id q' = (q', None, false) /\
    active_queries_ q' !! id = Some {| resolve_action := new_resolve; name_address := name |}.
Proof.
  intros Hn. pose proof (new_query_lookup name q Hn) as [Hl _]. unfold esp_Query.
  destruct (new_query name q) as [q1 id]. cbn [fst snd] in Hl. exists q1, id. split; [done|]. split; [|done].
  unfold update_query. by rewrite Hl.
Qed.

(** *** Sockets of c-ares and the epoll poller *)
Section Sockets.
Import PollerSpec.

Abbreviation Ares := (AresImpl Epoll.Worker).

(** A socket of c-ares that is closed stays in the poller: when the system gives its
    number to the socket of a transport, the events of the transport go to the
    resolver. *)
Theorem closed_socket_steals_events (s : Ares) sock w mask tcp :
  Epoll.callbacks_ (poller_ s) !! sock = None ->
  exists s1 s2,
    SocketState sock true w false true s = Defined s1 /\
    SocketState sock false false false true s1 = Defined s2 /\
    run [OClose sock; OAdd {| descriptor := sock; event_type := ANY |} (Client tcp) true;
         OWait (Epoll.Events [(sock, mask)]); OHandle] {| worker := poller_ s2; pending := [] |}
    = Defined ({| worker := poller_ s2; pending := [] |},
               [(Client (socket_function s),
                 {| descriptor := sock; event_type := Epoll.FromEpollEvent mask |})]).
Proof.
  intros Hn.
  assert (exists s1, SocketState sock true w false true s = Defined s1 /\
    Epoll.callbacks_ (poller_ s1) !! sock = Some (Client (socket_function s))) as (s1 & E1 & H1).
  { destruct w; cbn; unfold Epoll.emplace_new; rewrite Hn; eexists; (split; [done|]); cbn; by rewrite lookup_insert_eq. }
  exists s1. eexists. split; [done|]. split; [done|]. cbn [poller_].
  apply PollerProperties.closed_descriptor_keeps_function; [done|by right; right].
Qed.

(** The destructor fails an assertion when any socket was ever opened: c-ares closed
    them, and the system does not remove a descriptor that is closed. *)
Theorem destroy_with_sockets (s : Ares) sock :
  sock ∈ opened_sockets_ s -> destroy (fun _ => false) s = Undefined.
Proof.
  intros Hs%elem_of_elements. unfold destroy. by destruct (elements (opened_sockets_ s)) as [|x l]; [set_solver|].
Qed.

(** A change of the state of a socket that is watched already adds it again, which
    the system refuses. *)
Theorem second_state_undefined (s : Ares) sock r w :
  r || w = true -> SocketState sock r w false false s = Undefined.
Proof. by destruct r, w. Qed.

(** A socket that c-ares opens while it processes another one is added with the mutex
    of the poller held. *)
Theorem socket_in_poll_thread (s : Ares) sock r w ok :
  r || w = true -> SocketState sock r w true ok s = Undefined.
Proof. by destruct r, w. Qed.
End Sockets.

(** *** Witnesses *)
Definition sample_name : NameAddress := {| na_name := [97]; na_port := 80; na_protocol := kTcp |}.

Lemma query_answered_witness :
  exists q2, QueryResult 5 0 (Some [AF_INET [1; 2; 3; 4]; AF_INET [5; 6; 7; 8]])
      (new_query sample_name {| active_queries_ := ∅; query_id := 5 |}).1 = Defined q2 /\
  exists q3, update_query 5 q2 = (q3, Some (Result
     [{| ip := {| version := kIpV4; value := [1; 2; 3; 4] |}; port := 80; protocol := kTcp |};
      {| ip := {| version := kIpV4; value := [5; 6; 7; 8] |}; port := 80; protocol := kTcp |}]), true) /\
    active_queries_ q3 = ∅ /\ query_id q3 = 6.
Proof.
  apply (query_answered sample_name 0 [AF_INET [1; 2; 3; 4]; AF_INET [5; 6; 7; 8]] {| active_queries_ := ∅; query_id := 5 |}).
  - reflexivity.
  - repeat apply Forall_cons_2; [cbn; lia|cbn; lia|apply Forall_nil_2].
Defined.
End DnsProperties.
