(* ===== verification/Versions.v ===== *)
(** * Versions of a class ([obj/version_iterator.h])

    A class may have [Load] and [Save] for several versions.  [Domain::Save] stores a
    part of the object for each of them, from the newest, and [Domain::Load] loads
    them from the oldest; which versions there are is computed from the methods the
    class has ([HasVersionedLoad], [HasVersionedSave], here predicates).

    The methods of a class are the class [Versioned]; [versions_of] says which of its
    versions are used. *)

From stdpp Require Import gmap.
From S2P Require Import Prelude.

#[local] Set Warnings "-clear-no-such-hyp".

Module Versions.

Definition MAX_VERSION : nat := 24.

(** [VersionTrait]: whether the class has the method for a version. *)
Definition trait : Type := nat -> bool.

(** The loops of [CalcVersionBounds]: the position of the first [b], the length when
    there is none. *)
Fixpoint first_index (b : bool) (arr : list bool) : nat :=
  match arr with
  | [] => 0
  | x :: arr => if Bool.eqb x b then 0 else S (first_index b arr)
  end.

(** [VersionBounds]: the result in [std::uint8_t]. *)
Definition CalcVersionBounds (arr : list bool) : nat * nat :=
  let i := first_index true arr in
  let j := (i + first_index false (drop i arr))%nat in
  ((i mod 256)%nat, ((j - 1) mod 256)%nat).

Definition VersionBounds (t : trait) : nat * nat := CalcVersionBounds (map t (seq 0 (S MAX_VERSION))).

(** [make_range_sequence] ([type_traits.h]) *)
Definition reverse_sequence (l : list nat) : list nat := rev l.

Definition make_range_sequence (from to : nat) : list nat :=
  if (from <=? to)%nat then seq from (to - from + 1)
  else reverse_sequence (seq to (from - to + 1)).

(** [HasAnyVersionedLoad], [HasAnyVersionedSave] *)
Definition HasAnyVersioned (t : trait) : bool :=
  let '(min, max) := VersionBounds t in existsb t (make_range_sequence min max).

(** The versions [IterateVersions] calls the function for. *)
Definition IterateVersions (t : trait) (version_min version_max : nat) : list nat :=
  List.filter t (make_range_sequence version_min version_max).

(** *** Loading and saving the part of a class *)

(** The methods of a class: [Load] gets the data of a version, which is empty when
    nothing was stored. *)
Class Versioned (O : Type) := {
  load_version : nat -> bytes -> O -> O;
  save_version : nat -> O -> bytes;
}.

Section Domain.
Context {O : Type} `{Versioned O}.
Context (HasLoad HasSave : trait) (kCurrentVersion : nat).

(** [Domain::Load]: the versions in the order they are loaded. *)
Definition load_order : list nat :=
  if HasAnyVersioned HasLoad
  then let '(min, max) := VersionBounds HasLoad in IterateVersions HasLoad min max
  else [kCurrentVersion].

(** [Domain::Save] *)
Definition save_order : list nat :=
  if HasAnyVersioned HasSave
  then let '(min, max) := VersionBounds HasSave in IterateVersions HasSave max min
  else [kCurrentVersion].

(** [LoadVersion]: a version that was not stored leaves the data empty. *)
Definition LoadVersion (store : gmap nat bytes) (o : O) (v : nat) : O :=
  load_version v (default [] (store !! v)) o.

Definition Load (store : gmap nat bytes) (o : O) : O := fold_left (LoadVersion store) load_order o.

Definition SaveVersion (o : O) (store : gmap nat bytes) (v : nat) : gmap nat bytes :=
  <[v := save_version v o]> store.

Definition Save (o : O) (store : gmap nat bytes) : gmap nat bytes := fold_left (SaveVersion o) save_order store.
End Domain.

End Versions.

Module VersionsProperties.
Import Versions.

(** *** Which versions are used *)

Lemma first_index_skip (b : bool) (arr : list bool) (n : nat) :
  (forall i, (i < n)%nat -> arr !! i = Some (negb b)) ->
  first_index b arr = (n + first_index b (drop n arr))%nat.
Proof.
  revert arr. induction n as [|n IH]; intros arr Hn; [done|].
  pose proof (Hn 0%nat ltac:(lia)) as H0. destruct arr as [|x arr]; [done|]. injection H0 as ->.
  cbn [first_index drop]. destruct b; cbn; (rewrite IH; [lia|]);
    intros i Hi; apply (Hn (S i)); lia.
Qed.

Lemma first_index_here (b : bool) (arr : list bool) : arr !! 0%nat = Some b -> first_index b arr = 0%nat.
Proof. destruct arr as [|x arr]; [done|]. intros [= ->]. cbn. by rewrite Bool.eqb_reflx. Qed.

(** The versions a class has, [a] to [b], followed by none. *)
Definition versions_between (t : trait) (a b : nat) : Prop :=
  (a <= b)%nat /\ (b <= MAX_VERSION)%nat /\ (forall v, (v < a)%nat -> t v = false) /\
  (forall v, (a <= v <= b)%nat -> t v = true) /\ (b < MAX_VERSION -> t (S b) = false)%nat.

Lemma nth_trait (t : trait) v : (v <= MAX_VERSION)%nat -> map t (seq 0 (S MAX_VERSION)) !! v = Some (t v).
Proof. intros Hv. rewrite list_lookup_fmap, lookup_seq_lt by lia. done. Qed.

Lemma bounds_between t a b : versions_between t a b -> VersionBounds t = (a, b).
Proof.
  intros (Hab & Hb & Hlo & Hin & Hhi). unfold MAX_VERSION in Hb, Hhi.
  unfold VersionBounds, CalcVersionBounds. set (arr := map t (seq 0 (S MAX_VERSION))).
  assert (forall v, (v <= 24)%nat -> arr !! v = Some (t v)) as Hn by (intros; by apply nth_trait).
  assert (length arr = 25%nat) as Hlen by (unfold arr; by rewrite length_map, length_seq).
  assert (first_index true arr = a) as Ea.
  { rewrite (first_index_skip true arr a).
    - rewrite first_index_here; [lia|]. rewrite lookup_drop, Hn by lia. f_equal. apply Hin. lia.
    - intros i Hi. rewrite Hn by lia. by rewrite Hlo. }
  rewrite Ea. assert (first_index false (drop a arr) = S (b - a)) as ->.
  { rewrite (first_index_skip false (drop a arr) (S (b - a))).
    - rewrite drop_drop. destruct (Nat.eq_dec b 24) as [->|Hne].
      + rewrite drop_ge by lia. cbn. lia.
      + rewrite first_index_here; [lia|]. rewrite lookup_drop, Hn by lia.
        f_equal. replace (a + S (b - a) + 0)%nat with (S b) by lia. apply Hhi. lia.
    - intros i Hi. rewrite lookup_drop, Hn by lia. f_equal. apply Hin. lia. }
  rewrite !Nat.mod_small by lia. f_equal. lia.
Qed.

Lemma filter_all {A} (p : A -> bool) l : Forall (fun x => p x = true) l -> List.filter p l = l.
Proof. induction 1 as [|x l Hx _ IH]; cbn; [done|]. by rewrite Hx, IH. Qed.

Lemma seq_between t a b : versions_between t a b -> Forall (fun v => t v = true) (seq a (b - a + 1)).
Proof. intros (Hab & _ & _ & Hin & _). apply list.Forall_forall. intros v Hv%elem_of_seq. apply Hin. lia. Qed.

Lemma range_up a b : (a <= b)%nat -> make_range_sequence a b = seq a (b - a + 1).
Proof. intros Hab. unfold make_range_sequence. by rewrite (proj2 (Nat.leb_le _ _) Hab). Qed.

Lemma has_any_between t a b : versions_between t a b -> HasAnyVersioned t = true.
Proof.
  intros Ht. unfold HasAnyVersioned. rewrite (bounds_between t a b Ht), range_up by apply Ht.
  apply existsb_exists. exists a. destruct Ht as (Hab & _ & _ & Hin & _). split; [|apply Hin; lia].
  apply in_seq. lia.
Qed.

Lemma iterate_up t a b : versions_between t a b -> IterateVersions t a b = seq a (b - a + 1).
Proof.
  intros Ht. unfold IterateVersions. rewrite range_up by apply Ht. apply filter_all. by apply seq_between.
Qed.

Lemma iterate_down t a b : versions_between t a b -> IterateVersions t b a = rev (seq a (b - a + 1)).
Proof.
  intros Ht. pose proof (seq_between t a b Ht) as Hs. unfold IterateVersions, make_range_sequence.
  destruct (Nat.leb_spec b a) as [Hba|Hba].
  - assert (a = b) as <- by (destruct Ht as (? & _); lia).
    replace (a - a + 1)%nat with 1%nat in * by lia. by apply filter_all.
  - apply filter_all. by apply Forall_rev.
Qed.

Lemma load_order_between t k a b : versions_between t a b -> load_order t k = seq a (b - a + 1).
Proof.
  intros Ht. unfold load_order. rewrite (has_any_between t a b Ht), (bounds_between t a b Ht). by apply iterate_up.
Qed.

Lemma save_order_between t k a b : versions_between t a b -> save_order t k = rev (seq a (b - a + 1)).
Proof.
  intros Ht. unfold save_order. rewrite (has_any_between t a b Ht), (bounds_between t a b Ht). by apply iterate_down.
Qed.

Lemma elem_of_load_order t k a b v : versions_between t a b -> v ∈ load_order t k <-> (a <= v <= b)%nat.
Proof.
  intros Ht. rewrite (load_order_between t k a b Ht), elem_of_seq. destruct Ht as (Hab & _). lia.
Qed.

Lemma elem_of_save_order t k a b v : versions_between t a b -> v ∈ save_order t k <-> (a <= v <= b)%nat.
Proof.
  intros Ht. rewrite (save_order_between t k a b Ht), list_elem_of_In, <- in_rev, <- list_elem_of_In, elem_of_seq.
  destruct Ht as (Hab & _). lia.
Qed.

(** Versions behind a gap are neither loaded nor saved: [max] is the last version
    before the first one that is missing. *)
Theorem versions_after_gap_ignored t k a b c :
  versions_between t a b -> (b < c)%nat -> (c ∉ load_order t k) /\ (c ∉ save_order t k).
Proof.
  intros Ht Hc. rewrite (elem_of_load_order t k a b c Ht), (elem_of_save_order t k a b c Ht). lia.
Qed.

(** *** Programs with different versions *)
Section Interoperate.
Context {O V : Type} `{Versioned O} (part : nat -> O -> V).

(** What [Load] and [Save] of a class do to the part of the object of each version. *)
Record methods_ok : Prop := {
  load_saved : forall v o o', part v (load_version v (save_version v o) o') = part v o;
  load_frame : forall v w bs o, v <> w -> part w (load_version v bs o) = part w o;
  load_nothing : forall v o, part v (load_version v [] o) = part v o;
}.

Lemma save_lookup o l s v :
  fold_left (SaveVersion o) l s !! v = if decide (v ∈ l) then Some (save_version v o) else s !! v.
Proof.
  revert s. induction l as [|w l IH]; intros s; cbn [fold_left]; [done|].
  rewrite IH. unfold SaveVersion. destruct (decide (v ∈ l)) as [Hv|Hv].
  - by rewrite decide_True by (by right).
  - destruct (decide (v = w)) as [->|Hne].
    + by rewrite lookup_insert_eq, decide_True by (by left).
    + rewrite lookup_insert_ne, decide_False; [done|by intros [?|?]%elem_of_cons|done].
Qed.

Lemma load_sets store l o v x :
  methods_ok -> (forall o', part v (load_version v (default [] (store !! v)) o') = x) ->
  part v (fold_left (LoadVersion store) l o) = if decide (v ∈ l) then x else part v o.
Proof.
  intros Hm Hx. revert o. induction l as [|w l IH]; intros o; cbn [fold_left]; [done|].
  rewrite IH. unfold LoadVersion at 1. destruct (decide (v = w)) as [<-|Hne].
  - rewrite Hx. case_decide; by rewrite decide_True by (by left).
  - rewrite (load_frame Hm) by done. repeat case_decide; try done; set_solver.
Qed.

Lemma load_keeps store l o v :
  methods_ok -> (forall o', part v (load_version v (default [] (store !! v)) o') = part v o') ->
  part v (fold_left (LoadVersion store) l o) = part v o.
Proof.
  intros Hm Hx. revert o. induction l as [|w l IH]; intros o; cbn [fold_left]; [done|].
  rewrite IH. unfold LoadVersion. destruct (decide (v = w)) as [<-|Hne]; [by rewrite Hx|by rewrite (load_frame Hm)].
Qed.

(** When each method touches the part of its own version only, a program restores
    exactly the versions both know, and the rest of its object stays as it was made. *)
Theorem versions_restore_parts HasSave HasLoad k k' a n a' m o o0 :
  methods_ok -> versions_between HasSave a n -> versions_between HasLoad a' m ->
  forall v, part v (Load HasLoad k' (Save HasSave k o ∅) o0)
    = if decide (a <= v <= n /\ a' <= v <= m)%nat then part v o else part v o0.
Proof.
  intros Hm Hs Hl v. pose proof (elem_of_save_order HasSave k a n v Hs) as Es.
  pose proof (elem_of_load_order HasLoad k' a' m v Hl) as El.
  unfold Load, Save. destruct (decide (v ∈ save_order HasSave k)) as [Hv|Hv].
  - rewrite (load_sets _ _ _ _ (part v o)) by
      (done || (intros o'; rewrite save_lookup, decide_True by done; by apply load_saved)).
    repeat case_decide; try done; tauto.
  - rewrite load_keeps by (done || (intros o'; rewrite save_lookup, decide_False by done; by apply load_nothing)).
    rewrite decide_False; [done|]. tauto.
Qed.
End Interoperate.

(** A class with a number of four bytes for each version. *)
#[export] Instance numbers : Versioned (nat -> Z) := {
  load_version v bs o w := if decide (v = w) then match bs with [] => o w | _ => le_val bs end else o w;
  save_version v o := le_bytes 4 (o v);
}.

Definition number (v : nat) (o : nat -> Z) : Z := wrap 32 (o v).

Lemma numbers_ok : methods_ok number.
Proof.
  split.
  - intros v o o'. unfold number. cbn [load_version save_version numbers]. rewrite decide_True by done.
    destruct (le_bytes 4 (o v)) eqn:E; [by apply (f_equal length) in E|]. rewrite <- E, le_val_bytes.
    change (8 * Z.of_nat 4) with 32. unfold wrap. by rewrite Z.mod_mod.
  - intros v w bs o Hne. unfold number. cbn. by rewrite decide_False.
  - intros v o. unfold number. cbn. by case_decide; subst.
Qed.

Definition between (a b v : nat) : bool := (a <=? v)%nat && (v <=? b)%nat.

Lemma between_ok a b : (a <= b <= MAX_VERSION)%nat -> versions_between (between a b) a b.
Proof.
  intros Hab. unfold versions_between, between. repeat split; try lia; intros v; intros;
    try (apply andb_true_intro; split; apply Nat.leb_le; lia); apply andb_false_iff;
    rewrite !Nat.leb_gt; lia.
Qed.

Lemma versions_restore_parts_witness :
  map (fun v => number v (Load (between 0 2) 2 (Save (between 0 1) 1 (fun v => Z.of_nat v + 5) ∅) (fun _ => 9))) [0; 1; 2]%nat
  = [5; 6; 9].
Proof.
  pose proof (versions_restore_parts number (between 0 1) (between 0 2) 1 2 0 1 0 2 (fun v => Z.of_nat v + 5)
    (fun _ => 9) numbers_ok (between_ok 0 1 ltac:(unfold MAX_VERSION; lia))
    (between_ok 0 2 ltac:(unfold MAX_VERSION; lia))) as H.
  cbn [map]. rewrite (H 0%nat), (H 1%nat), (H 2%nat). reflexivity.
Defined.

(** *** Any versions and any methods *)

(** The versions from [v] on that follow each other, among [n]. *)
Fixpoint run_from (t : trait) (n v : nat) : list nat :=
  match n with
  | O => []
  | S n => if t v then v :: run_from t n (S v) else []
  end.

Fixpoint first_run (t : trait) (n v : nat) : list nat :=
  match n with
  | O => []
  | S m => if t v then run_from t n v else first_run t m (S v)
  end.

(** The versions of a class that are used, the oldest first: the first ones that
    follow each other; none of 0 to 24 leaves version 25, and a class without
    versions has its current one. *)
Definition versions_of (t : trait) (k : nat) : list nat :=
  match first_run t (S MAX_VERSION) 0 with
  | [] => if t (S MAX_VERSION) then [S MAX_VERSION] else [k]
  | l => l
  end.

Lemma run_from_spec t n v :
  exists m, (m <= n)%nat /\ run_from t n v = seq v m /\ (forall i, (v <= i < v + m)%nat -> t i = true) /\
    ((m < n)%nat -> t (v + m)%nat = false).
Proof.
  revert v. induction n as [|n IH]; intros v; cbn [run_from].
  - exists 0%nat. split_and!; [lia|done|lia|lia].
  - destruct (t v) eqn:Ev.
    + destruct (IH (S v)) as (m & Hm & -> & Ht & Hf). exists (S m). split_and!; [lia|done| |].
      * intros i Hi. destruct (Nat.eq_dec i v) as [->|]; [done|]. apply Ht. lia.
      * intros Hlt. replace (v + S m)%nat with (S v + m)%nat by lia. apply Hf. lia.
    + exists 0%nat. rewrite Nat.add_0_r. split_and!; [lia|done|lia|done].
Qed.

Lemma first_run_spec t n v :
  (first_run t n v = [] /\ forall i, (v <= i < v + n)%nat -> t i = false) \/
  exists a m, first_run t n v = seq a (S m) /\ (v <= a)%nat /\ (a + m < v + n)%nat /\
    (forall i, (v <= i < a)%nat -> t i = false) /\ (forall i, (a <= i <= a + m)%nat -> t i = true) /\
    ((S (a + m) < v + n)%nat -> t (S (a + m)) = false).
Proof.
  revert v. induction n as [|n IH]; intros v; cbn [first_run]; [left; split; [done|lia]|].
  destruct (t v) eqn:Ev.
  - right. destruct (run_from_spec t (S n) v) as (m & Hm & E & Ht & Hf).
    destruct m as [|m]; [exfalso; cbn in E; by rewrite Ev in E|].
    exists v, m. rewrite E. split_and!; try done; [lia|lia|intros i Hi; apply Ht; lia|].
    intros Hlt. replace (S (v + m)) with (v + S m)%nat by lia. apply Hf. lia.
  - destruct (IH (S v)) as [[E Hn]|(a & m & E & Ha & Hb & Hlo & Hin & Hhi)].
    + left. split; [done|]. intros i Hi. destruct (Nat.eq_dec i v) as [->|]; [done|]. apply Hn. lia.
    + right. exists a, m. split_and!; try done; [lia|lia| |].
      * intros i Hi. destruct (Nat.eq_dec i v) as [->|]; [done|]. apply Hlo. lia.
      * intros Hlt. apply Hhi. lia.
Qed.

Lemma bounds_none t : (forall i, (i <= MAX_VERSION)%nat -> t i = false) -> VersionBounds t = (25, 24)%nat.
Proof.
  intros Hn. unfold VersionBounds. replace (map t (seq 0 (S MAX_VERSION))) with (replicate 25 false).
  - reflexivity.
  - apply replicate_as_elem_of. split; [by rewrite length_map, length_seq|].
    intros x Hx%list_elem_of_In. apply in_map_iff in Hx as (i & <- & Hi%in_seq). apply Hn. lia.
Qed.

(** The orders in which a program loads and saves. *)
Lemma orders_versions_of t k : load_order t k = versions_of t k /\ save_order t k = rev (versions_of t k).
Proof.
  unfold versions_of. destruct (first_run_spec t (S MAX_VERSION) 0) as [[-> Hn]|(a & m & -> & _ & Hb & Hlo & Hin & Hhi)].
  - assert (VersionBounds t = (25, 24)%nat) as Eb by (apply bounds_none; intros i Hi; apply Hn; lia).
    assert (t 24%nat = false) as H24 by (apply Hn; unfold MAX_VERSION; lia).
    unfold load_order, save_order, HasAnyVersioned. rewrite Eb. unfold IterateVersions. cbn.
    rewrite H24. change (S MAX_VERSION) with 25%nat. by destruct (t 25%nat).
  - assert (versions_between t a (a + m)) as Ht.
    { split_and!; [lia|lia|intros v Hv; apply Hlo; lia|done|intros Hv; apply Hhi; lia]. }
    rewrite (load_order_between t k _ _ Ht), (save_order_between t k _ _ Ht).
    replace (a + m - a + 1)%nat with (S m) by lia. done.
Qed.

(** C22: programs that know different versions of a class read each other's objects,
    whatever the methods do: loading an object another program saved calls the
    methods of the versions the loader uses once each, from the oldest to the newest,
    each with exactly what the saver wrote for that version, or, if the saver does not
    use it, with what was stored before, nothing at first.  The versions used are the first that follow each other;
    what is behind a gap is ignored. *)
Theorem versions_interoperate {O} `{Versioned O} HasSave HasLoad k k' store (o o0 : O) :
  Load HasLoad k' (Save HasSave k o store) o0
  = fold_left (fun o' v => load_version v (if decide (v ∈ versions_of HasSave k) then save_version v o
                                           else default [] (store !! v)) o')
      (versions_of HasLoad k') o0.
Proof.
  unfold Load, Save. destruct (orders_versions_of HasLoad k') as [-> _]. destruct (orders_versions_of HasSave k) as [_ ->].
  generalize (versions_of HasLoad k'). intros l. revert o0. induction l as [|v l IH]; intros o0; cbn [fold_left]; [done|].
  rewrite IH. f_equal. unfold LoadVersion. f_equal. rewrite save_lookup.
  rewrite (decide_ext (v ∈ rev (versions_of HasSave k)) (v ∈ versions_of HasSave k))
    by (rewrite !list_elem_of_In; symmetry; apply in_rev).
  by case_decide.
Qed.

(** A newer version that overrides an older one: the object is a number that version
    1 holds in whole units and version 2 exactly, when it is there. *)
#[local] Instance overriding : Versioned Z := {
  load_version v bs o := match v, bs with
                         | 1%nat, [b] => 10 * b
                         | 2%nat, [u; d] => 10 * u + d
                         | _, _ => o
                         end;
  save_version v o := match v with 1%nat => [o / 10] | 2%nat => [o / 10; o mod 10] | _ => [] end;
}.

Lemma overriding_version :
  Load (between 0 2) 2 (Save (between 0 2) 2 57 ∅) 0 = 57 /\ Load (between 0 2) 2 (Save (between 0 1) 1 57 ∅) 0 = 50 /\
  Load (between 0 1) 1 (Save (between 0 2) 2 57 ∅) 0 = 50 /\
  (* version 2 is behind a gap *)
  Load (fun v => (v =? 2)%nat || (v =? 0)%nat) 2 (Save (between 0 2) 2 57 ∅) 0 = 0.
Proof. split_and!; vm_compute; reflexivity. Qed.

(** A class without versioned methods is loaded and saved once, as its current
    version. *)
Lemma plain_class_order k : load_order (fun _ => false) k = [k] /\ save_order (fun _ => false) k = [k].
Proof. split; reflexivity. Qed.
End VersionsProperties.
