(* ===== verification/TeleTraps.v ===== *)
(** * Formatting and the traps of telemetry

    [tele/ios.h]: [Format] and the printing of values, with the names of levels and
    modules ([levels.h], [modules.h]).  [tele/collectors.h], [tele/traps/]: what one
    telemetry call gives to a trap.  [Trap] is the interface the comment of
    [tele/sink.h] describes: log streams, metric streams and the environment;
    [StatisticsTrap], [IoStreamTrap] and [ProxyTrap], which passes everything to two
    traps, are its instances.

    A value printed by [Format] is given as its text; the text of a time point is a
    parameter.  Reading behind the end of a string is [Undefined]. *)

From Stdlib Require Import String.
From stdpp Require Import gmap.
From S2P Require Import Prelude Text Statistics.
Import Text.Text Statistics.Statistics.

#[local] Arguments lit s%_string.
#[local] Set Warnings "-clear-no-such-hyp,-notation-overridden".

Module Format.

Definition brace : Z := 123.

(** The loop of [FormatInternal]: what is in front of the first brace, and what is
    behind it. *)
Fixpoint split_brace (s : bytes) : option (bytes * bytes) :=
  match s with
  | [] => None
  | c :: s =>
      if c =? brace then Some ([], s)
      else match split_brace s with Some (a, b) => Some (c :: a, b) | None => None end
  end.

(** [FormatInternal]: the character behind a brace is skipped, whatever it is. *)
Fixpoint FormatInternal (s : bytes) (args : list bytes) : outcome bytes :=
  match args with
  | [] => Defined s
  | a :: args =>
      match split_brace s with
      | None => Defined s
      | Some (_, []) => Undefined
      | Some (pre, _ :: rest) => let* t := FormatInternal rest args in Defined (pre ++ a ++ t)
      end
  end.

Definition Format (format : bytes) (args : list bytes) : outcome bytes :=
  match args with [] => Defined format | _ => FormatInternal format args end.

(** *** Printing of values ([PrintToStream]) *)

(** A number with [std::hex] in the width [w], filled with zeros. *)
Fixpoint hex_digits (n : nat) (v : Z) (acc : bytes) : bytes :=
  match n with
  | O => acc
  | S n => let acc := hex_digit (v mod 16) :: acc in if v <? 16 then acc else hex_digits n (v / 16) acc
  end.

Definition hex (w : nat) (v : Z) : bytes :=
  let t := hex_digits 16 v [] in replicate (w - length t) 48 ++ t.

(** A container of unsigned integers: the width holds for the first one only. *)
Definition print_integers (l : list Z) : bytes :=
  lit "[" ++ match l with [] => [] | x :: l => hex 2 x ++ mjoin (map (hex 0) l) end ++ lit "]".

(** A container of other values, given as texts. *)
Definition print_container (l : list bytes) : bytes := lit "[" ++ mjoin l ++ lit "]".

(** An enumeration. *)
Definition print_enum (v : Z) : bytes := to_string v.

(** [Level::text] *)
Definition level_text (v : Z) : bytes :=
  if v =? 1 then lit "kInfo" else if v =? 2 then lit "kWarning"
  else if v =? 4 then lit "kError" else if v =? 8 then lit "kDebug" else [].

(** [Module::text]: the names of the bits. *)
Definition kAll : Z := 4294967295.

Definition module_names : list (Z * bytes) :=
  [(1, lit "kApp"); (2, lit "kObj"); (4, lit "kRegister"); (8, lit "kPull"); (2 ^ 30, lit "kSim"); (2 ^ 31, lit "kLog")].

Fixpoint module_bits (v : Z) (names : list (Z * bytes)) (first : bool) : bytes :=
  match names with
  | [] => []
  | (k, s) :: names =>
      if Z.land v k =? k then (if first then [] else lit " ") ++ s ++ module_bits v names false
      else module_bits v names first
  end.

Definition module_text (v : Z) : bytes :=
  if v =? 0 then lit "kNone" else if Z.land v kAll =? kAll then lit "kAll" else module_bits v module_names true.

End Format.

Module Traps.
Import Format.

(** ** What a call gives to a trap ([Tele]) *)

Inductive log_item :=
  | Index (index : Z)
  | StartTime (start : Z)
  | LogLevel (level : Z)
  | LogModule (module : Z)
  | File (file : bytes)
  | Line (line : Z)
  | Name (name : bytes)
  | Blob (text : bytes).

Definition items (c : TeleConfig) (e : event) : list log_item :=
  (if index_logs_ c then [Index (index_ e)] else []) ++
  (if start_time_logs_ c then [StartTime (start e)] else []) ++
  (if level_module_logs_ c then [LogLevel (level e); LogModule (module e)] else []) ++
  (if location_logs_ c then [File (file e); Line (wrap 32 (line e))] else []) ++
  (if name_logs_ c then [Name (name e)] else []) ++
  (match format e with Some b => if blob_logs_ c then [Blob b] else [] | None => [] end).

(** ** Traps *)

(** [L] and [M] are the streams of a trap [T]. *)
Class Trap (T L M : Type) := {
  trap_log_stream : T -> outcome (L * T);
  trap_log : log_item -> L -> T -> L * T;
  trap_close_log : L -> T -> outcome T;
  trap_metric_stream : Z -> T -> outcome (M * T);
  trap_add_count : Z -> M -> T -> T;
  trap_add_duration : Z -> M -> T -> T;
  trap_close_metric : M -> T -> outcome T;
}.

Section Collector.
Context {T L M : Type} `{Trap T L M}.

Fixpoint log_items (xs : list log_item) (l : L) (t : T) : L * T :=
  match xs with
  | [] => (l, t)
  | x :: xs => let '(l, t) := trap_log x l t in log_items xs l t
  end.

Definition collect_logs (c : TeleConfig) (e : event) (t : T) : outcome T :=
  if IsAnyLogs c then
    let* (l, t) := trap_log_stream t in
    let '(l, t) := log_items (items c e) l t in
    trap_close_log l t
  else Defined t.

(** The constructor of [Tele], with its metric stream, and the destructor. *)
Definition collect_new (c : TeleConfig) (e : event) (t : T) : outcome (option M * T) :=
  if IsAnyMetrics c then
    let* (m, t) := trap_metric_stream (index_ e) t in
    let t := if count_metrics_ c then trap_add_count 1 m t else t in
    let* t := collect_logs c e t in Defined (Some m, t)
  else let* t := collect_logs c e t in Defined (None, t).

Definition collect_delete (c : TeleConfig) (e : event) (m : option M) (t : T) : outcome T :=
  match m with
  | None => Defined t
  | Some m =>
      let t := if time_metrics_ c then trap_add_duration (wrap 32 (elapsed e)) m t else t in
      trap_close_metric m t
  end.

(** The objects of a program: [Some] makes one, [None] destroys the innermost. *)
Definition program : Type := list (option (TeleConfig * event)).

Fixpoint collect_all (xs : program) (sc : list (TeleConfig * event * option M)) (t : T)
  : outcome (list (TeleConfig * event * option M) * T) :=
  match xs with
  | [] => Defined (sc, t)
  | Some (c, e) :: xs => let* (m, t) := collect_new c e t in collect_all xs ((c, e, m) :: sc) t
  | None :: xs =>
      match sc with
      | [] => collect_all xs sc t
      | (c, e, m) :: sc => let* t := collect_delete c e m t in collect_all xs sc t
      end
  end.
End Collector.

(** *** [StatisticsTrap] *)

Definition log_bytes (x : log_item) : bytes :=
  match x with
  | Index i => PackedInt.PackedSize.packed_save i
  | StartTime t => le_bytes 8 (wrap 64 t)
  | LogLevel l => le_bytes 1 l
  | LogModule m => le_bytes 4 m
  | File f => log_string f
  | Line n => PackedInt.PackedSize.packed_save n
  | Name s => log_string s
  | Blob s => log_string s
  end.

#[export] Instance StatisticsTrap : Trap (StatisticsStore * World) LogStream MetricStream := {
  trap_log_stream t := let* (l, st, w) := log_stream t.1 t.2 in Defined (l, (st, w));
  trap_log x l t := (l, (t.1, log_write l (log_bytes x) t.2));
  trap_close_log l t := let* w := close_log l t.2 in Defined (t.1, w);
  trap_metric_stream i t := let* (m, st, w) := metric_stream i t.1 t.2 in Defined (m, (st, w));
  trap_add_count n m t := (t.1, with_metric (add_count n) m t.2);
  trap_add_duration d m t := (t.1, with_metric (add_duration d) m t.2);
  trap_close_metric m t := let* w := close_metric m t.2 in Defined (t.1, w);
}.

(** *** [IoStreamTrap] *)
Section IoStream.
Context (format_time : Z -> bytes).

(** The stream as the text written to it. *)
Record IoStreamTrap := { stream_ : bytes; io_metrics : gmap Z Metric }.

(** [LogStream::start_] *)
Record IoLogStream := { start_ : bool }.

Definition write (s : bytes) (t : IoStreamTrap) : IoStreamTrap :=
  {| stream_ := stream_ t ++ s; io_metrics := io_metrics t |}.

(** [LogStream::file]: behind the last separator. *)
Definition file_name (f : bytes) : bytes :=
  match rfind 47 f with
  | Some i => drop (S i) f
  | None => match rfind 92 f with Some i => drop (S i) f | None => lit "UNKOWN FILE" end
  end.

(** [std::setw(3)] and [std::left] *)
Definition pad3 (s : bytes) : bytes := s ++ replicate (3 - length s) 32.

Definition item_text (x : log_item) : bytes :=
  match x with
  | Index i => pad3 (to_string i)
  | StartTime t => format_time t
  | LogLevel l => level_text l
  | LogModule m => module_text m
  | File f => file_name f
  | Line n => to_string n
  | Name s => s
  | Blob s => s
  end.

(** [delimeter], and the text. *)
Definition io_log (x : log_item) (l : IoLogStream) (t : IoStreamTrap) : IoLogStream * IoStreamTrap :=
  ({| start_ := false |}, write ((if start_ l then [] else lit ":") ++ item_text x) t).

(** [MetricStream]: [max] is the initial minimum. *)
Definition new_io_metric : Metric :=
  {| invocations_count := 0; max_duration := 0; sum_duration := 0; min_duration := 2 ^ 32 - 1 |}.

Definition with_metrics (f : gmap Z Metric -> gmap Z Metric) (t : IoStreamTrap) : IoStreamTrap :=
  {| stream_ := stream_ t; io_metrics := f (io_metrics t) |}.

#[export] Instance IoStreamTrap_trap : Trap IoStreamTrap IoLogStream Z := {
  trap_log_stream t := Defined ({| start_ := true |}, t);
  trap_log := io_log;
  trap_close_log l t := Defined (write [newline] t);
  trap_metric_stream i t :=
    Defined (i, with_metrics (fun m => <[i := default new_io_metric (m !! i)]> m) t);
  trap_add_count n i t := with_metrics (alter (add_count n) i) t;
  trap_add_duration d i t := with_metrics (alter (add_duration d) i) t;
  trap_close_metric i t := Defined t;
}.

(** [~IoStreamTrap]: the metrics, in the order [l] the map is iterated. *)
Definition metric_text (x : Z * Metric) : bytes :=
  lit "	idx:" ++ to_string x.1 ++ [newline] ++
  lit "		inv count:" ++ to_string (invocations_count x.2) ++ [newline] ++
  lit "		max_duration:" ++ to_string (max_duration x.2) ++ [newline] ++
  lit "		sum_duration:" ++ to_string (sum_duration x.2) ++ [newline] ++
  lit "		min_duration:" ++ to_string (min_duration x.2) ++ [newline].

Definition io_end (l : list (Z * Metric)) (t : IoStreamTrap) : bytes :=
  stream_ t ++ lit "Metrics:" ++ [newline] ++ mjoin (map metric_text l) ++ [newline].

(** [EnvStream] *)
Definition env_text (little : Z) (option_name : Z -> bytes) (x : StatisticsCodec.env_record) : bytes :=
  match x with
  | StatisticsCodec.EPlatformType s => lit "Platform:" ++ s
  | StatisticsCodec.ECompiler s => lit "Compiler:" ++ s
  | StatisticsCodec.ECompilerVersion s => lit "Compiler version:" ++ s
  | StatisticsCodec.EOption i v => option_name i ++ lit ":" ++ to_string v
  | StatisticsCodec.ELibraryVersion s => lit "Library version: " ++ s
  | StatisticsCodec.EApiVersion s => lit "API version:" ++ s
  | StatisticsCodec.ECpuType s => lit "CPU type:" ++ s
  | StatisticsCodec.EEndianness e =>
      lit "Endianness:" ++ (if e =? little then lit "LittleEndian" else lit "BigEndian")
  end ++ [newline].
End IoStream.

(** *** [ProxyTrap] *)
Section Proxy.
Context {A LA MA B LB MB : Type} `{Trap A LA MA} `{Trap B LB MB}.

#[export] Instance ProxyTrap : Trap (A * B) (LA * LB) (MA * MB) := {
  trap_log_stream t :=
    let* (l1, a) := trap_log_stream t.1 in
    let* (l2, b) := trap_log_stream t.2 in Defined ((l1, l2), (a, b));
  trap_log x l t :=
    let '(l1, a) := trap_log x l.1 t.1 in
    let '(l2, b) := trap_log x l.2 t.2 in ((l1, l2), (a, b));
  trap_close_log l t :=
    let* b := trap_close_log l.2 t.2 in
    let* a := trap_close_log l.1 t.1 in Defined (a, b);
  trap_metric_stream i t :=
    let* (m1, a) := trap_metric_stream i t.1 in
    let* (m2, b) := trap_metric_stream i t.2 in Defined ((m1, m2), (a, b));
  trap_add_count n m t := (trap_add_count n m.1 t.1, trap_add_count n m.2 t.2);
  trap_add_duration d m t := (trap_add_duration d m.1 t.1, trap_add_duration d m.2 t.2);
  trap_close_metric m t :=
    let* b := trap_close_metric m.2 t.2 in
    let* a := trap_close_metric m.1 t.1 in Defined (a, b);
}.
End Proxy.

End Traps.

Module TeleTrapsProperties.
Import Format Traps.

(** *** Formatting *)

Definition plain (s : bytes) : Prop := Forall (fun c => c <> brace) s.

Lemma split_brace_plain p s :
  plain p -> split_brace (p ++ s) = option_map (fun '(a, b) => (p ++ a, b)) (split_brace s).
Proof.
  induction 1 as [|c p Hc _ IH]; cbn [app split_brace].
  - by destruct (split_brace s) as [[]|].
  - rewrite (proj2 (Z.eqb_neq _ _) Hc), IH. by destruct (split_brace s) as [[]|].
Qed.

Lemma split_brace_spec s a b : split_brace s = Some (a, b) -> plain a.
Proof.
  revert a b. induction s as [|c s IH]; intros a b; cbn [split_brace]; [done|].
  destruct (Z.eqb_spec c brace); [intros [= <- <-]; constructor|].
  destruct (split_brace s) as [[a' b']|]; [|done]. intros [= <- <-]. constructor; [done|by eapply IH].
Qed.

Lemma format_plain p s ys :
  plain p -> FormatInternal (p ++ s) ys = let* t := FormatInternal s ys in Defined (p ++ t).
Proof.
  intros Hp. destruct ys as [|y ys]; cbn [FormatInternal]; [done|]. rewrite split_brace_plain by done.
  destruct (split_brace s) as [[a [|c b]]|]; cbn; try done.
  destruct (FormatInternal b ys); [|done]. by rewrite <- !app_assoc.
Qed.

Lemma format_no_brace s ys : split_brace s = None -> FormatInternal s ys = Defined s.
Proof. intros Hs. by destruct ys; cbn; rewrite ?Hs. Qed.

(** A text can be formatted in stages, as the names of debug gates are: formatting
    with some values and the result with more gives the same as formatting once with
    all of them, when the text of no value of the first stage holds a brace. *)
Theorem format_staged s xs ys t :
  Forall plain xs -> FormatInternal s xs = Defined t -> FormatInternal t ys = FormatInternal s (xs ++ ys).
Proof.
  intros Hx. revert s t. induction Hx as [|x xs Hx _ IH]; intros s t; cbn [FormatInternal app]; [by intros [= ->]|].
  destruct (split_brace s) as [[a [|c b]]|] eqn:E; [done| |].
  - destruct (FormatInternal b xs) as [t'|] eqn:Eb; [|done]. intros [= <-].
    rewrite app_assoc, format_plain by (apply Forall_app_2; [by eapply split_brace_spec|done]).
    rewrite (IH b t' Eb). destruct (FormatInternal b (xs ++ ys)); [|done]. by rewrite <- app_assoc.
  - intros [= <-]. by apply format_no_brace.
Qed.

Lemma format_staged_witness :
  FormatInternal (lit "uid 7 write {}") [lit "[01]"] = Defined (lit "uid 7 write [01]").
Proof.
  rewrite (format_staged (lit "uid {} write {}") [lit "7"] [lit "[01]"] (lit "uid 7 write {}"));
    [reflexivity| |reflexivity].
  repeat constructor. discriminate.
Defined.

(** A brace at the end of a format reads behind the end of the string. *)
Lemma trailing_brace_undefined : Format (lit "size {") [lit "1"] = Undefined.
Proof. reflexivity. Qed.

(** Only the first byte of a container is printed with two digits, so different
    contents are printed alike. *)
Theorem bytes_printed_ambiguously :
  print_integers [1; 16] = print_integers [1; 1; 0] /\ print_integers [1; 16] = lit "[0110]".
Proof. split; reflexivity. Qed.

(** The transport module has no name. *)
Theorem transport_module_unnamed : module_text 16 = [].
Proof. reflexivity. Qed.

(** A path without a separator is not printed. *)
Theorem plain_file_unknown f : rfind 47 f = None -> rfind 92 f = None -> file_name f = lit "UNKOWN FILE".
Proof. intros H1 H2. unfold file_name. by rewrite H1, H2. Qed.

(** *** The proxy *)

(** The trap when the program has run. *)
Definition trap_after {S T} (r : outcome (S * T)) : outcome T := let* (_, t) := r in Defined t.

Definition both {A B} (x : outcome A) (y : outcome B) : outcome (A * B) :=
  let* a := x in let* b := y in Defined (a, b).

Section Proxy.
Context {A LA MA B LB MB : Type} `{Trap A LA MA} `{Trap B LB MB}.

Lemma log_items_proxy xs (l : LA * LB) (t : A * B) :
  log_items xs l t = let '(l1, a) := log_items xs l.1 t.1 in
                     let '(l2, b) := log_items xs l.2 t.2 in ((l1, l2), (a, b)).
Proof.
  revert l t. induction xs as [|x xs IH]; intros [l1 l2] [a b]; cbn [log_items fst snd]; [done|].
  cbn [trap_log ProxyTrap fst snd]. destruct (trap_log x l1 a) as [l1' a'], (trap_log x l2 b) as [l2' b']. by rewrite IH.
Qed.

Lemma collect_logs_proxy c e (t : A * B) :
  collect_logs c e t = both (collect_logs c e t.1) (collect_logs c e t.2).
Proof.
  destruct t as [a b]. unfold collect_logs, both. destruct (IsAnyLogs c); [|done].
  cbn [trap_log_stream trap_close_log ProxyTrap fst snd].
  destruct (trap_log_stream a) as [[l1 a1]|]; [|done]. destruct (trap_log_stream b) as [[l2 b2]|]; cbn [fst snd].
  - rewrite log_items_proxy. cbn [fst snd]. destruct (log_items _ l1 a1) as [l1' a'], (log_items _ l2 b2) as [l2' b'].
    cbn [fst snd]. destruct (trap_close_log l1' a'), (trap_close_log l2' b'); done.
  - by destruct (log_items _ l1 a1) as [l1' a'], (trap_close_log _ _).
Qed.

Lemma collect_new_proxy c e (t : A * B) :
  collect_new c e t
  = let* (x, y) := both (collect_new c e t.1) (collect_new c e t.2) in
    Defined (match x.1, y.1 with Some m1, Some m2 => Some (m1, m2) | _, _ => None end, (x.2, y.2)).
Proof.
  destruct t as [a b]. unfold collect_new. destruct (IsAnyMetrics c).
  - unfold both. cbn [trap_metric_stream trap_add_count ProxyTrap fst snd].
    destruct (trap_metric_stream _ a) as [[m1 a1]|]; [|done].
    destruct (trap_metric_stream _ b) as [[m2 b2]|]; cbn [fst snd].
    2: { by destruct (collect_logs c e _). }
    destruct (count_metrics_ c); rewrite collect_logs_proxy; unfold both; cbn [fst snd];
      (destruct (collect_logs c e _) as [a2|]; [|done]); by destruct (collect_logs c e _).
  - rewrite collect_logs_proxy. unfold both. cbn [fst snd].
    destruct (collect_logs c e a); [|done]. by destruct (collect_logs c e b).
Qed.

Lemma collect_delete_proxy c e (m : option (MA * MB)) (t : A * B) :
  collect_delete c e m t = both (collect_delete c e (fst <$> m) t.1) (collect_delete c e (snd <$> m) t.2).
Proof.
  destruct t as [a b], m as [[m1 m2]|]; [|done]. unfold collect_delete, both.
  cbn [fmap option_fmap option_map trap_add_duration trap_close_metric ProxyTrap fst snd].
  destruct (time_metrics_ c); cbn [fst snd]; repeat (destruct (trap_close_metric _ _)); done.
Qed.

(** The objects that are alive, as each of the two traps sees them. *)
Definition alive_in {M M' : Type} (f : M -> M') : list (TeleConfig * event * option M) -> list (TeleConfig * event * option M') :=
  map (fun '(c, e, m) => (c, e, f <$> m)).

Lemma collect_new_streams {T L M} `{Trap T L M} c e t m t' :
  collect_new c e t = Defined (m, t') -> is_Some m <-> IsAnyMetrics c = true.
Proof.
  unfold collect_new. destruct (IsAnyMetrics c).
  - destruct (trap_metric_stream _ _) as [[]|]; [|done]. destruct (collect_logs _ _ _); [|done].
    intros [= <- <-]. by split.
  - destruct (collect_logs _ _ _); [|done]. intros [= <- <-]. by split; [intros []|].
Qed.

Lemma collect_all_proxy xs sc (t : A * B) :
  trap_after (collect_all xs sc t)
  = both (trap_after (collect_all xs (alive_in fst sc) t.1)) (trap_after (collect_all xs (alive_in snd sc) t.2)).
Proof.
  revert sc t. induction xs as [|[[c e]|] xs IH]; intros sc [a b]; cbn [collect_all]; [done| |].
  - rewrite collect_new_proxy. unfold both. cbn [fst snd].
    destruct (collect_new c e a) as [[m1 a1]|] eqn:E1; [|done].
    destruct (collect_new c e b) as [[m2 b1]|] eqn:E2; cbn [fst snd].
    2: { unfold trap_after. by destruct (collect_all xs _ a1) as [[]|]. }
    rewrite IH. cbn [fst snd alive_in map]. apply collect_new_streams in E1, E2.
    assert (is_Some m1 <-> is_Some m2) as Hm by (by rewrite E1, E2).
    destruct m1, m2; try done; exfalso; [by destruct (proj1 Hm ltac:(eauto))|by destruct (proj2 Hm ltac:(eauto))].
  - destruct sc as [|[[c e] m] sc]; cbn [alive_in map]; [by rewrite IH|].
    rewrite collect_delete_proxy. unfold both. cbn [fst snd].
    destruct (collect_delete c e (fst <$> m) a) as [a1|]; [|done].
    destruct (collect_delete c e (snd <$> m) b) as [b1|]; [by rewrite IH|].
    unfold trap_after. by destruct (collect_all xs _ a1) as [[]|].
Qed.
End Proxy.

(** *** The statistics *)

Lemma log_items_bytes c e : map log_bytes (items c e) = pieces c e.
Proof.
  unfold items, pieces. rewrite !map_app. repeat f_equal; repeat case_match; done.
Qed.

Lemma log_items_statistics xs l st w :
  log_items xs l (st, w) = (l, (st, foldl (fun w bs => log_write l bs w) w (map log_bytes xs))).
Proof. revert w. induction xs as [|x xs IH]; intros w; cbn; [done|]. apply IH. Qed.

Lemma collect_logs_statistics c e st w : collect_logs c e (st, w) = tele_logs c e st w.
Proof.
  unfold collect_logs, tele_logs. destruct (IsAnyLogs c); [|done]. cbn [trap_log_stream trap_close_log StatisticsTrap fst snd].
  destruct (log_stream st w) as [[[l st'] w']|]; [|done]. by rewrite log_items_statistics, log_items_bytes.
Qed.

Lemma collect_new_statistics c e st w :
  collect_new c e (st, w)
  = let* (x, st, w) := Tele_new c e st w in Defined (tele_metric_stream x, (st, w)).
Proof.
  unfold collect_new, Tele_new. destruct (IsAnyMetrics c).
  - cbn [trap_metric_stream trap_add_count StatisticsTrap fst snd].
    destruct (metric_stream (index_ e) st w) as [[[m st'] w']|]; [|done].
    destruct (count_metrics_ c); rewrite collect_logs_statistics; by destruct (tele_logs c e _ _) as [[]|].
  - rewrite collect_logs_statistics. by destruct (tele_logs c e _ _) as [[]|].
Qed.

Lemma Tele_new_fields c e st w x st' w' :
  Tele_new c e st w = Defined (x, st', w') -> config x = c /\ given x = e.
Proof.
  unfold Tele_new. destruct (IsAnyMetrics c); [destruct (metric_stream _ _ _) as [[[]]|]; [|done]|];
    (destruct (tele_logs _ _ _ _) as [[]|]; [|done]); by intros [= <- <- <-].
Qed.

Definition tele_of (x : TeleConfig * event * option MetricStream) : Tele :=
  {| config := x.1.1; given := x.1.2; tele_metric_stream := x.2 |}.

Definition step_of (x : option (TeleConfig * event)) : step :=
  match x with Some (c, e) => SOpen c e | None => SClose end.

Lemma collect_all_statistics xs sc st w :
  trap_after (collect_all xs sc (st, w))
  = let* (_, st, w) := run (map step_of xs) (map tele_of sc) st w in Defined (st, w).
Proof.
  revert sc st w. induction xs as [|[[c e]|] xs IH]; intros sc st w; cbn [collect_all map run step_of exec]; [done| |].
  - rewrite collect_new_statistics. destruct (Tele_new c e st w) as [[[x st'] w']|] eqn:E; [|done].
    apply Tele_new_fields in E as [<- <-]. rewrite IH. by destruct x.
  - destruct sc as [|[[c e] m] sc]; cbn [map]; [by rewrite IH|].
    unfold collect_delete, Tele_delete. cbn [tele_of config given tele_metric_stream fst snd].
    destruct m as [m|]; [|by rewrite IH].
    cbn [trap_add_duration trap_close_metric StatisticsTrap].
    destruct (time_metrics_ c); cbn [fst snd]; (destruct (close_metric _ _); [by rewrite IH|done]).
Qed.

(** *** The text *)
Section Text.
Context (format_time : Z -> bytes).

#[local] Instance io_trap : Trap IoStreamTrap IoLogStream Z := IoStreamTrap_trap format_time.

(** The line of a call: the texts with colons between them. *)
Fixpoint joined (l : list bytes) : bytes :=
  match l with
  | [] => []
  | [x] => x
  | x :: l => x ++ lit ":" ++ joined l
  end.

Definition line_of (c : TeleConfig) (e : event) : bytes :=
  if IsAnyLogs c then joined (map (item_text format_time) (items c e)) ++ [newline] else [].

Lemma joined_cons x l : joined (x :: l) = x ++ match l with [] => [] | _ => lit ":" ++ joined l end.
Proof. destruct l; [by rewrite app_nil_r|done]. Qed.

Lemma log_items_io xs l t :
  (log_items xs l t).2 = write (match xs with [] => [] | _ => if start_ l then [] else lit ":" end
                                ++ joined (map (item_text format_time) xs)) t.
Proof.
  revert l t. induction xs as [|x xs IH]; intros l t; cbn [log_items map].
  - destruct t. unfold write. cbn. by rewrite app_nil_r.
  - cbn [trap_log io_trap IoStreamTrap_trap io_log]. rewrite IH, joined_cons. unfold write. cbn [stream_ io_metrics start_].
    f_equal. rewrite <- !app_assoc. destruct xs; cbn [map joined]; by rewrite ?app_nil_r, <- ?app_assoc.
Qed.

(** The metrics of the text trap when an object is made and when it is destroyed. *)
Definition metric_made (c : TeleConfig) (e : event) (m : gmap Z Metric) : gmap Z Metric :=
  if IsAnyMetrics c then
    let m := <[index_ e := default new_io_metric (m !! index_ e)]> m in
    if count_metrics_ c then alter (add_count 1) (index_ e) m else m
  else m.

Definition metric_ended (c : TeleConfig) (e : event) (m : gmap Z Metric) : gmap Z Metric :=
  if IsAnyMetrics c && time_metrics_ c then alter (add_duration (wrap 32 (elapsed e))) (index_ e) m else m.

Fixpoint metrics_after (xs : program) (sc : list (TeleConfig * event)) (m : gmap Z Metric) : gmap Z Metric :=
  match xs with
  | [] => m
  | Some (c, e) :: xs => metrics_after xs ((c, e) :: sc) (metric_made c e m)
  | None :: xs =>
      match sc with
      | [] => metrics_after xs sc m
      | (c, e) :: sc => metrics_after xs sc (metric_ended c e m)
      end
  end.

Lemma collect_logs_io c e t : collect_logs c e t = Defined (write (line_of c e) t).
Proof.
  unfold collect_logs, line_of. destruct (IsAnyLogs c).
  - cbn [trap_log_stream trap_close_log io_trap IoStreamTrap_trap].
    pose proof (log_items_io (items c e) {| start_ := true |} t) as E.
    destruct (log_items _ _ t) as [l' t']. cbn [snd] in E. rewrite E. unfold write. cbn [stream_ io_metrics start_].
    f_equal. f_equal. rewrite <- !app_assoc. by destruct (items c e).
  - destruct t. unfold write. cbn. by rewrite app_nil_r.
Qed.

Definition io_stream_of (c : TeleConfig) (e : event) : option Z := if IsAnyMetrics c then Some (index_ e) else None.

Lemma collect_new_io c e t :
  collect_new c e t = Defined (io_stream_of c e,
    {| stream_ := stream_ t ++ line_of c e; io_metrics := metric_made c e (io_metrics t) |}).
Proof.
  unfold collect_new, metric_made, io_stream_of. destruct (IsAnyMetrics c); [|by rewrite collect_logs_io].
  cbn [trap_metric_stream trap_add_count io_trap IoStreamTrap_trap].
  destruct (count_metrics_ c); by rewrite collect_logs_io.
Qed.

Lemma collect_delete_io c e t :
  collect_delete c e (io_stream_of c e) t
  = Defined {| stream_ := stream_ t; io_metrics := metric_ended c e (io_metrics t) |}.
Proof.
  unfold collect_delete, metric_ended, io_stream_of. destruct (IsAnyMetrics c); [|by destruct t].
  cbn [trap_add_duration trap_close_metric io_trap IoStreamTrap_trap andb].
  destruct (time_metrics_ c); by destruct t.
Qed.

Definition text_after (xs : program) (s : bytes) : bytes :=
  s ++ mjoin (map (fun x => match x with Some (c, e) => line_of c e | None => [] end) xs).

Lemma collect_all_io xs sc t :
  trap_after (collect_all xs (map (fun x => (x.1, x.2, io_stream_of x.1 x.2)) sc) t)
  = Defined {| stream_ := text_after xs (stream_ t); io_metrics := metrics_after xs sc (io_metrics t) |}.
Proof.
  unfold text_after. revert sc t. induction xs as [|[[c e]|] xs IH]; intros sc t; cbn [collect_all map metrics_after].
  - destruct t. cbn. by rewrite app_nil_r.
  - rewrite collect_new_io. rewrite (IH ((c, e) :: sc)). cbn [stream_ io_metrics]. cbn [mjoin list_join].
    by rewrite <- app_assoc.
  - destruct sc as [|[c e] sc]; cbn [map fst snd]; [by rewrite (IH [])|].
    rewrite collect_delete_io, IH. done.
Qed.

(** A program whose telemetry goes to the statistics and to a text stream through
    the proxy records in each what it would record in that trap alone, with objects
    nested in any way: the statistics are those of a run without the other trap, and
    the text holds one line for each object, its parts in order with colons between
    them. *)
Theorem proxy_records_both xs st w t :
  trap_after (collect_all xs [] ((st, w), t))
  = let* (_, st, w) := run (map step_of xs) [] st w in
    Defined ((st, w), {| stream_ := text_after xs (stream_ t); io_metrics := metrics_after xs [] (io_metrics t) |}).
Proof.
  rewrite collect_all_proxy. unfold both. cbn [fst snd alive_in map]. rewrite collect_all_statistics, (collect_all_io xs []).
  by destruct (run _ _ st w) as [[[] ?]|].
Qed.
End Text.
End TeleTrapsProperties.
