(* ===== verification/CryptoProviders.v ===== *)
(** * Encryption of both libraries and the keys of a client

    [crypto/key_gen.cpp], [crypto/sync_crypto_provider.cpp],
    [crypto/async_crypto_provider.cpp], [crypto/sodium/], [crypto/hydrogen/],
    [server_keys.*]: the derivation of the keys of a server, and the symmetric
    and asymmetric encryption with libsodium and with libhydrogen, chosen by the
    key of a provider in every configuration.

    The class [Libraries] has the functions of the two libraries, which are not
    part of the program; what one takes at random is an argument.  [LibrariesOk]
    is what their documentation promises.  A failed [assert], a size that wraps
    and a read past the end of a key are [Undefined]. *)

From S2P Require Import Prelude MStream PackedInt Crypto WireTypes.
Import Keys ServerKeys.

#[export] Instance CryptoKeyType_eq_dec : EqDecision CryptoKeyType.
Proof. solve_decision. Defined.

(** ** The libraries *)
Module Libraries.

Class Libraries := {
  (** [crypto_kdf_KEYBYTES] or [hydro_kdf_KEYBYTES]; [..._derive_from_key] with
      the length, the number of the subkey and the master key. *)
  KDF_KEYBYTES : nat;
  kdf_derive_from_key : nat -> Z -> bytes -> bytes;
  (** [crypto_aead_chacha20poly1305] *)
  NPUBBYTES : nat;
  ABYTES : nat;
  aead_encrypt : bytes -> bytes -> bytes -> bytes;
  aead_decrypt : bytes -> bytes -> bytes -> option bytes;
  (** [hydro_secretbox], with what is random, the key and the data. *)
  SECRETBOX_HEADERBYTES : nat;
  secretbox_encrypt : bytes -> bytes -> bytes -> bytes;
  secretbox_decrypt : bytes -> bytes -> option bytes;
  (** [crypto_box_seal], with what is random and the public key. *)
  SEALBYTES : nat;
  box_seal : bytes -> bytes -> bytes -> bytes;
  box_seal_open : bytes -> bytes -> bytes -> option bytes;
  (** [hydro_kx_n]: the packet and the key for sending, and the key for
      receiving; the other two session keys are not used. *)
  N_PACKET1BYTES : nat;
  kx_n_1 : bytes -> bytes -> bytes * bytes;
  kx_n_2 : bytes -> bytes -> bytes -> option bytes;
  (** The pairs of public and secret keys the libraries make. *)
  box_keypair : bytes -> bytes -> Prop;
  kx_keypair : bytes -> bytes -> Prop;
}.

Class LibrariesOk `{Libraries} := {
  derive_length : forall n id master, length (kdf_derive_from_key n id master) = n;
  derive_bytes : forall n id master, byte_list (kdf_derive_from_key n id master);
  aead_ok : Cipher.authentic NPUBBYTES ABYTES aead_encrypt aead_decrypt;
  aead_tag : (8 <= NPUBBYTES)%nat /\ (0 < ABYTES)%nat;
  secretbox_length : forall rnd key data,
    length (secretbox_encrypt rnd key data) = (length data + SECRETBOX_HEADERBYTES)%nat;
  secretbox_open : forall rnd key data,
    secretbox_decrypt key (secretbox_encrypt rnd key data) = Some data;
  seal_length : forall rnd pk data, length (box_seal rnd pk data) = (length data + SEALBYTES)%nat;
  seal_open : forall rnd pk sk data, box_keypair pk sk ->
    box_seal_open pk sk (box_seal rnd pk data) = Some data;
  packet1_length : forall rnd pk, length (kx_n_1 rnd pk).1 = N_PACKET1BYTES;
  session_agrees : forall rnd pk sk, kx_keypair pk sk ->
    kx_n_2 (kx_n_1 rnd pk).1 pk sk = Some (kx_n_1 rnd pk).2;
}.

End Libraries.
Export Libraries.

(** ** Providers of keys *)
Module KeyProviders.

(** [ISyncKeyProvider]: asking for a nonce changes the keys behind it. *)
Class ISyncKeyProvider `{Config} (P : Type) := {
  GetKey : P -> outcome Key;
  GetNonce : P -> outcome (P * bytes);
}.

(** [IAsyncKeyProvider] *)
Class IAsyncKeyProvider `{Config} (P : Type) := {
  PublicKey : P -> Key;
  SecretKey : P -> Key;
}.

(** [RegistrationAsyncKeyProvider] *)
Record RegistrationAsyncKeyProvider := { public_key_ : Key; secret_key_ : Key }.

#[export] Instance registration_async `{Config} : IAsyncKeyProvider RegistrationAsyncKeyProvider := {
  PublicKey := public_key_;
  SecretKey := secret_key_;
}.

(** [RegistrationSyncKeyProvider]; only the nonce of libsodium has bytes. *)
Record RegistrationSyncKeyProvider := { sync_key_ : Key; reg_nonce_ : bytes }.

Definition next_nonce `{Config} (n : bytes) : bytes :=
  match AE_CRYPTO_SYNC with Some AE_CHACHA20_POLY1305 => Nonce.Next n | _ => n end.

#[export] Instance registration_sync `{Config} : ISyncKeyProvider RegistrationSyncKeyProvider := {
  GetKey p := Defined (sync_key_ p);
  GetNonce p :=
    let p := {| sync_key_ := sync_key_ p; reg_nonce_ := next_nonce (reg_nonce_ p) |} in
    Defined (p, reg_nonce_ p);
}.

End KeyProviders.
Export KeyProviders.

(** ** Encryption *)
Module Providers.
Section Providers.
Context `{Config} `{Libraries}.

(** [assert(key.Index() == t)], then [key.Get] of that alternative. *)
Definition get (t : CryptoKeyType) (k : Key) : outcome bytes :=
  if OrderToIndex (key_order k) =? Z.of_nat (index_of t)
  then if decide (key_type k = Some t) then Defined (key k) else Undefined
  else Undefined.

(** [EncryptWithSymmetric] of libhydrogen.  The ciphertext is a vector of the
    size the library fills. *)
Definition hydro_encrypt (rnd secret_key raw_data : bytes) : bytes :=
  secretbox_encrypt rnd secret_key raw_data.

Definition hydro_decrypt (secret_key encrypted_data : bytes) : outcome bytes :=
  if (length encrypted_data <? SECRETBOX_HEADERBYTES)%nat then Undefined
  else match secretbox_decrypt secret_key encrypted_data with
       | Some decrypted_data => Defined decrypted_data
       | None => Undefined
       end.

(** *** Symmetric *)

(** The implementation a [SyncEncryptProvider] or [SyncDecryptProvider] has. *)
Inductive SyncImpl := SodiumSync | HydroSync.

(** [CreateEncryptImpl], and [CreateDecryptImpl] alike: the templates of the
    keys without one fail an [assert]. *)
Definition CreateSyncImpl (k : Key) : outcome SyncImpl :=
  match AE_CRYPTO_SYNC, key_type k with
  | Some AE_CHACHA20_POLY1305, Some kSodiumChacha => Defined SodiumSync
  | Some AE_HYDRO_CRYPTO_SK, Some kHydrogenSecretBox => Defined HydroSync
  | _, _ => Undefined
  end.

Definition new_sync {P} `{!ISyncKeyProvider P} (p : P) : outcome SyncImpl :=
  let* key := GetKey p in CreateSyncImpl key.

(** [SodiumSyncEncryptProvider::Encrypt], [HydroSyncEncryptProvider::Encrypt] *)
Definition SyncEncrypt {P} `{!ISyncKeyProvider P} (i : SyncImpl) (rnd : bytes) (p : P) (data : bytes)
  : outcome (P * bytes) :=
  let* key := GetKey p in
  match i with
  | SodiumSync =>
      let* sk := get kSodiumChacha key in
      let* (p, nonce) := GetNonce p in
      Defined (p, Cipher.EncryptWithSymmetric aead_encrypt sk nonce data)
  | HydroSync => let* sk := get kHydrogenSecretBox key in Defined (p, hydro_encrypt rnd sk data)
  end.

Definition SyncEncryptOverhead (i : SyncImpl) : Z :=
  match i with
  | SodiumSync => Cipher.EncryptOverhead NPUBBYTES ABYTES
  | HydroSync => Z.of_nat SECRETBOX_HEADERBYTES
  end.

Definition SyncDecrypt {P} `{!ISyncKeyProvider P} (i : SyncImpl) (p : P) (data : bytes) : outcome bytes :=
  let* key := GetKey p in
  match i with
  | SodiumSync => let* sk := get kSodiumChacha key in
                  Cipher.DecryptWithSymmetric NPUBBYTES ABYTES aead_decrypt sk data
  | HydroSync => let* sk := get kHydrogenSecretBox key in hydro_decrypt sk data
  end.

(** *** Asymmetric *)

Inductive AsyncImpl := SodiumAsync | HydroAsync.

(** The provider is made for the type of its public key. *)
Definition CreateAsyncImpl (k : Key) : outcome AsyncImpl :=
  match AE_CRYPTO_ASYNC, key_type k with
  | Some AE_SODIUM_BOX_SEAL, Some kSodiumCurvePublic => Defined SodiumAsync
  | Some AE_HYDRO_CRYPTO_PK, Some kHydrogenCurvePublic => Defined HydroAsync
  | _, _ => Undefined
  end.

Definition new_async {P} `{!IAsyncKeyProvider P} (p : P) : outcome AsyncImpl :=
  CreateAsyncImpl (PublicKey p).

(** [EncryptWithAsymmetric] of libhydrogen: a key for one packet is agreed on,
    and what the other side needs for it is in front of the ciphertext. *)
Definition hydro_seal (rnd1 rnd2 pk raw_data : bytes) : bytes :=
  let '(ephemeral_pk, tx) := kx_n_1 rnd1 pk in
  ephemeral_pk ++ secretbox_encrypt rnd2 tx raw_data.

Definition hydro_seal_open (pk secret_key encrypted_data : bytes) : outcome bytes :=
  if (N_PACKET1BYTES <? length encrypted_data)%nat
  then
    match kx_n_2 (take N_PACKET1BYTES encrypted_data) pk secret_key with
    | None => Undefined
    | Some rx =>
        let encrypted_data_size := (length encrypted_data - N_PACKET1BYTES)%nat in
        if (encrypted_data_size <? SECRETBOX_HEADERBYTES)%nat then Undefined
        else match secretbox_decrypt rx (drop N_PACKET1BYTES encrypted_data) with
             | Some decrypted_data => Defined decrypted_data
             | None => Undefined
             end
    end
  else Undefined.

(** [DecryptWithAsymmetric] of libsodium. *)
Definition sodium_seal_open (pk secret_key encrypted_data : bytes) : outcome bytes :=
  if (length encrypted_data <? SEALBYTES)%nat then Undefined
  else match box_seal_open pk secret_key encrypted_data with
       | Some decrypted_data => Defined decrypted_data
       | None => Undefined
       end.

Definition AsyncEncrypt {P} `{!IAsyncKeyProvider P} (i : AsyncImpl) (rnd1 rnd2 : bytes) (p : P)
  (data : bytes) : outcome bytes :=
  match i with
  | SodiumAsync => let* pk := get kSodiumCurvePublic (PublicKey p) in Defined (box_seal rnd1 pk data)
  | HydroAsync => let* pk := get kHydrogenCurvePublic (PublicKey p) in
                  Defined (hydro_seal rnd1 rnd2 pk data)
  end.

Definition AsyncEncryptOverhead (i : AsyncImpl) : nat :=
  match i with SodiumAsync => SEALBYTES | HydroAsync => N_PACKET1BYTES + SECRETBOX_HEADERBYTES end.

Definition AsyncDecrypt {P} `{!IAsyncKeyProvider P} (i : AsyncImpl) (p : P) (data : bytes) : outcome bytes :=
  match i with
  | SodiumAsync =>
      let* pk := get kSodiumCurvePublic (PublicKey p) in
      let* sk := get kSodiumCurveSecret (SecretKey p) in
      sodium_seal_open pk sk data
  | HydroAsync =>
      let* pk := get kHydrogenCurvePublic (PublicKey p) in
      let* sk := get kHydrogenCurveSecret (SecretKey p) in
      hydro_seal_open pk sk data
  end.

End Providers.
End Providers.

(** ** Keys of a server *)
Module Derivation.

(** [AE_KDF]; [None] is [AE_NONE]. *)
Inductive kdf := AE_SODIUM_KDF | AE_HYDRO_KDF.

Section Derivation.
Context `{Config} `{Libraries} (AE_KDF : option kdf).

(** The assignment of a key of type [t] to a [Key]. *)
Definition make_key (t : CryptoKeyType) (bs : bytes) : Key :=
  {| key_order := IndexToOrder (Z.of_nat (index_of t)); key := bs |}.

Definition subkey_id (server_id key_number : Z) : Z :=
  Z.lor (Z.shiftl server_id 32) key_number.

(** One buffer of twice the size of a key is derived and cut in two. *)
Definition derive_pair (t : CryptoKeyType) (master_key : Key) (id : Z) : outcome (Key * Key) :=
  let size := key_bytes t in
  if (KeySize master_key <? KDF_KEYBYTES)%nat then Undefined
  else
    let derived_key := kdf_derive_from_key (size + size) id (Data master_key) in
    Defined (make_key t (take size derived_key), make_key t (drop size derived_key)).

(** [CryptoSyncKeyDerive]: it answers true, whether or not it assigned the keys,
    which hold [old] before. *)
Definition CryptoSyncKeyDerive (master_key : Key) (server_id key_number : Z) (old : Key * Key)
  : outcome (Key * Key) :=
  match AE_CRYPTO_SYNC, AE_KDF with
  | Some AE_CHACHA20_POLY1305, Some AE_SODIUM_KDF =>
      derive_pair kSodiumChacha master_key (subkey_id server_id key_number)
  | Some AE_HYDRO_CRYPTO_SK, Some AE_HYDRO_KDF =>
      derive_pair kHydrogenSecretBox master_key (subkey_id server_id key_number)
  | _, _ => Defined old
  end.

(** As [ServerKeys] calls it, with its new keys. *)
Definition derive (master_key : Key) (server_id key_number : Z) : option (Key * Key) :=
  match CryptoSyncKeyDerive master_key server_id key_number (new_key, new_key) with
  | Defined ks => Some ks
  | Undefined => None
  end.

Definition new_server_keys (raw : bytes) (server_id : Z) (master_key : Key) : outcome (@ServerKeys Key) :=
  let* k := make derive raw server_id master_key in
  Defined match AE_CRYPTO_SYNC with
  | Some AE_CHACHA20_POLY1305 => k
  | _ => {| server_id_ := server_id_ k; master_key_ := master_key_ k; key_number_ := key_number_ k;
            nonce_ := []; client_to_server_key_ := client_to_server_key_ k;
            server_to_client_key_ := server_to_client_key_ k |}
  end.

(** [ServerKeys::Next] in every configuration. *)
Definition server_keys_next (k : @ServerKeys Key) : @ServerKeys Key :=
  {| server_id_ := server_id_ k; master_key_ := master_key_ k; key_number_ := key_number_ k;
     nonce_ := next_nonce (nonce_ k); client_to_server_key_ := client_to_server_key_ k;
     server_to_client_key_ := server_to_client_key_ k |}.

(** The size of [CryptoNonce]. *)
Definition kNonceSize : nat := match AE_CRYPTO_SYNC with Some AE_CHACHA20_POLY1305 => NPUBBYTES | _ => 0 end.

End Derivation.
End Derivation.

(** ** Streams of encrypted packets *)
Module Sessions.
Import Providers Derivation.
Section Sessions.
Context `{Config} `{Libraries}.

(** Packets encrypted one after the other, each with what is random for it. *)
Fixpoint encrypt_all {P} `{!ISyncKeyProvider P} (i : SyncImpl) (p : P) (ds : list (bytes * bytes))
  : outcome (list bytes) :=
  match ds with
  | [] => Defined []
  | (rnd, d) :: ds =>
      let* (p, c) := SyncEncrypt i rnd p d in
      let* cs := encrypt_all i p ds in Defined (c :: cs)
  end.

Fixpoint decrypt_all {P} `{!ISyncKeyProvider P} (i : SyncImpl) (p : P) (cs : list bytes)
  : outcome (list bytes) :=
  match cs with
  | [] => Defined []
  | c :: cs => let* d := SyncDecrypt i p c in let* ds := decrypt_all i p cs in Defined (d :: ds)
  end.

(** The type of the keys of the symmetric encryption. *)
Definition sync_key_type : option CryptoKeyType :=
  match AE_CRYPTO_SYNC with
  | Some AE_CHACHA20_POLY1305 => Some kSodiumChacha
  | Some AE_HYDRO_CRYPTO_SK => Some kHydrogenSecretBox
  | None => None
  end.

Definition sync_key (k : Key) : Prop := is_Some (key_type k) /\ key_type k = sync_key_type.

(** What the encryption expects of a provider: it keeps giving the key, and
    nonces of their size. *)
Class ISyncKeyProviderOk (P : Type) `{!ISyncKeyProvider P} := {
  provides : Key -> P -> Prop;
  provides_key : forall k p, provides k p -> GetKey p = Defined k;
  provides_nonce : forall k p, provides k p ->
    exists p' n, GetNonce p = Defined (p', n) /\ length n = kNonceSize /\ provides k p';
}.

Context `{!LibrariesOk}.

#[export] Program Instance registration_sync_ok : ISyncKeyProviderOk RegistrationSyncKeyProvider := {
  provides k p := sync_key_ p = k /\ length (reg_nonce_ p) = kNonceSize;
}.
Next Obligation. by intros k p [<- _]. Qed.
Next Obligation.
  intros k p [<- L]. eexists _, _. split; [done|]. cbn [reg_nonce_ sync_key_].
  assert (length (next_nonce (reg_nonce_ p)) = kNonceSize) as E; [|done].
  pose proof (proj1 aead_tag) as A. unfold kNonceSize, next_nonce in *.
  destruct AE_CRYPTO_SYNC as [[]|]; [|done|done]. by rewrite CryptoProperties.Next_length by lia.
Qed.

(** *** Lemmas *)

Lemma key_type_order t k : key_type k = Some t -> alternatives !! key_order k = Some (Some t).
Proof. unfold key_type. by destruct (alternatives !! key_order k) as [[]|]; intros E; simplify_eq/=. Qed.

Lemma get_ok t k : key_type k = Some t -> get t k = Defined (key k).
Proof.
  intros E. unfold get. rewrite (proj1 (orders_agree _ _ (key_type_order _ _ E))), Z.eqb_refl.
  by rewrite decide_True by done.
Qed.

Lemma make_key_type t bs : Some t ∈ alternatives -> key_type (make_key t bs) = Some t.
Proof.
  intros [o Ho]%list_elem_of_lookup_1. unfold key_type, make_key. cbn [key_order].
  by rewrite (proj2 (orders_agree _ _ Ho)), Ho.
Qed.

Lemma hydro_open rnd sk data : hydro_decrypt sk (hydro_encrypt rnd sk data) = Defined data.
Proof.
  unfold hydro_decrypt, hydro_encrypt. rewrite secretbox_length, secretbox_open.
  destruct (Nat.ltb_spec (length data + SECRETBOX_HEADERBYTES) SECRETBOX_HEADERBYTES); [lia|done].
Qed.

(** The key derivation of the library of the symmetric encryption is used. *)
Definition kdf_matches (AE_KDF : option kdf) : Prop :=
  match AE_CRYPTO_SYNC, AE_KDF with
  | Some AE_CHACHA20_POLY1305, Some AE_SODIUM_KDF | Some AE_HYDRO_CRYPTO_SK, Some AE_HYDRO_KDF => True
  | _, _ => False
  end.

Lemma sync_alternative t : sync_key_type = Some t -> Some t ∈ alternatives.
Proof.
  unfold sync_key_type, alternatives. destruct AE_CRYPTO_SYNC as [[]|]; intros E; simplify_eq;
    rewrite !elem_of_app, ?list_elem_of_singleton; tauto.
Qed.

Lemma derive_ok AE_KDF master sid kn :
  kdf_matches AE_KDF -> (KDF_KEYBYTES <= KeySize master)%nat ->
  exists c2s s2c t, derive AE_KDF master sid kn = Some (c2s, s2c) /\ sync_key_type = Some t /\
    derive_pair t master (subkey_id sid kn) = Defined (c2s, s2c).
Proof.
  intros K L. unfold derive, CryptoSyncKeyDerive, derive_pair, kdf_matches, sync_key_type in *.
  rewrite (proj2 (Nat.ltb_ge _ _) L).
  destruct AE_CRYPTO_SYNC as [[]|], AE_KDF as [[]|]; try done; by eexists _, _, _.
Qed.

Lemma derive_pair_keys t master id c2s s2c :
  derive_pair t master id = Defined (c2s, s2c) -> sync_key_type = Some t ->
  (sync_key c2s /\ key_ok c2s) /\ (sync_key s2c /\ key_ok s2c).
Proof.
  unfold derive_pair. destruct (_ <? _)%nat; [done|]. intros E T. simplify_eq.
  pose proof (sync_alternative _ T) as A.
  pose proof (derive_bytes (key_bytes t + key_bytes t) id (Data master)) as B.
  assert (forall bs, length bs = key_bytes t -> byte_list bs ->
            sync_key (make_key t bs) /\ key_ok (make_key t bs)) as M.
  { intros bs Lb Hb. pose proof (make_key_type t bs A) as Ht. split; [split; [by rewrite Ht|congruence]|].
    exists t. split; [by apply key_type_order|done]. }
  split; apply M; try (by apply Forall_take || by apply Forall_drop);
    rewrite ?length_take, ?length_drop, derive_length; lia.
Qed.

(** New keys of a server. *)
Lemma new_server_keys_ok AE_KDF raw sid master :
  kdf_matches AE_KDF -> (KDF_KEYBYTES <= KeySize master)%nat -> length raw = NPUBBYTES ->
  exists k, new_server_keys AE_KDF raw sid master = Defined k /\
    derive AE_KDF master sid 0 = Some (client_to_server_key_ k, server_to_client_key_ k) /\
    server_id_ k = sid /\ master_key_ k = master /\ key_number_ k = 0 /\
    length (nonce_ k) = kNonceSize /\ (byte_list raw -> byte_list (nonce_ k)) /\
    (sync_key (client_to_server_key_ k) /\ key_ok (client_to_server_key_ k)) /\
    (sync_key (server_to_client_key_ k) /\ key_ok (server_to_client_key_ k)).
Proof.
  intros K L R. destruct (derive_ok AE_KDF master sid 0 K L) as (c2s & s2c & t & D & T & P).
  pose proof (derive_pair_keys _ _ _ _ _ P T) as W. pose proof (proj1 aead_tag) as N8.
  unfold new_server_keys, make, kNonceSize. rewrite D.
  destruct AE_CRYPTO_SYNC as [[]|]; (eexists; split; [done|]); cbn [server_id_ master_key_ key_number_ nonce_
    client_to_server_key_ server_to_client_key_]; split_and!; try done; try apply W; try (by constructor).
  - by rewrite CryptoProperties.Next_length by lia.
  - intros B. apply Forall_app. split; [apply le_bytes_range|by apply Forall_drop].
Qed.

(** One packet. *)
Lemma sync_one {P Q} `{!ISyncKeyProvider P} `{!ISyncKeyProviderOk P} `{!ISyncKeyProvider Q}
  (k : Key) (p : P) (q : Q) rnd data :
  sync_key k -> provides k p -> GetKey q = Defined k ->
  exists i p' c, new_sync p = Defined i /\ new_sync q = Defined i /\
    SyncEncrypt i rnd p data = Defined (p', c) /\ provides k p' /\
    SyncDecrypt i q c = Defined data /\ zlen c = zlen data + SyncEncryptOverhead i.
Proof.
  intros [U T] Hp Hq. pose proof (provides_key _ _ Hp) as Kp.
  destruct (provides_nonce _ _ Hp) as (p' & n & Hn & L & Hp').
  unfold new_sync. rewrite Kp, Hq. unfold CreateSyncImpl. rewrite T.
  unfold sync_key_type, kNonceSize in *. destruct AE_CRYPTO_SYNC as [[]|] eqn:C.
  - exists SodiumSync. eexists p', _. unfold SyncEncrypt, SyncDecrypt, SyncEncryptOverhead.
    rewrite Kp, Hq, !get_ok, Hn by done.
    split_and!; [done..|apply CryptoProperties.Decrypt_Encrypt; [apply aead_ok|done|right; apply aead_tag]|].
    destruct (aead_ok (key k) n data L) as [E _].
    unfold Cipher.EncryptWithSymmetric, Cipher.EncryptOverhead. rewrite zlen_app. unfold zlen.
    rewrite E, L. lia.
  - exists HydroSync. eexists p, _. unfold SyncEncrypt, SyncDecrypt, SyncEncryptOverhead.
    rewrite Kp, Hq, !get_ok by done. split_and!; [done..|apply hydro_open|].
    unfold hydro_encrypt, zlen. rewrite secretbox_length. lia.
  - rewrite T in U. by destruct U.
Qed.

(** Any number of packets. *)
Lemma sync_all {P Q} `{!ISyncKeyProvider P} `{!ISyncKeyProviderOk P} `{!ISyncKeyProvider Q}
  (k : Key) (q : Q) i (ds : list (bytes * bytes)) : forall p : P,
  sync_key k -> provides k p -> GetKey q = Defined k -> new_sync q = Defined i ->
  exists cs, encrypt_all i p ds = Defined cs /\ decrypt_all i q cs = Defined (ds.*2) /\
    Forall2 (fun c d => zlen c = zlen d + SyncEncryptOverhead i) cs (ds.*2).
Proof.
  induction ds as [|[rnd d] ds IH]; intros p T Hp Hq Hi; [by exists []|].
  destruct (sync_one k p q rnd d T Hp Hq) as (i' & p' & c & _ & Hi' & E & Hp' & D & L).
  rewrite Hi in Hi'. simplify_eq. destruct (IH p' T Hp' Hq Hi) as (cs & E' & D' & L').
  exists (c :: cs). cbn [encrypt_all decrypt_all fmap list_fmap]. rewrite E, E', D, D'.
  split_and!; [done..|by constructor].
Qed.

End Sessions.
End Sessions.

(** ** Server keys as they are saved *)
Module SavedKeys.
Import Packed Derivation.
Section SavedKeys.
Context `{Config} `{Libraries}.

(** [Packed<std::uint32_t, std::uint8_t, 250>] *)
Definition packed32 : Type := Z.
#[local] Typeclasses Opaque packed32.

#[export] Instance serial_packed32 : Serial packed32 := {
  dflt := 0;
  save v := Serialize 0 250 2 (wrap 32 v);
  load old r := let '(_, v, r) := Deserialize 0 250 2 old r in (v, r);
}.

#[export] Program Instance serial_packed32_ok : SerialOk packed32 := {
  valid v := 0 <= v < kUpper (limit 0 250 2);
}.
Next Obligation.
  intros v pre post r Hv. cbv beta in Hv. change (kUpper (limit 0 250 2)) with 1049835 in Hv. cbn [load save dflt serial_packed32].
  rewrite wrap_small by (unfold in_width; lia).
  rewrite Deserialize_Serialize; [|apply PackedSize.config_packed_size; lia|].
  - unfold decoded. change (kUpper (limit 0 250 2)) with 1049835.
    by rewrite (proj2 (Z.ltb_lt _ _)) by lia.
  - change (capacity 0 250 2) with 1050091. lia.
Qed.

(** The operators of [CryptoNonce]: an array of libsodium, or nothing. *)
Definition nonce : Type := list Z.
#[local] Typeclasses Opaque nonce.

#[export] Instance serial_nonce : Serial nonce := {
  dflt := replicate kNonceSize 0;
  save n := match kNonceSize with O => [] | S m => save (n : array (S m)) end;
  load old r := match kNonceSize with O => (old, r) | S m => load (old : array (S m)) r end;
}.

#[export] Program Instance serial_nonce_ok : SerialOk nonce := { valid := array_ok kNonceSize }.
Next Obligation.
  intros n pre post r Hn. cbn [load save dflt serial_nonce]. destruct kNonceSize as [|m].
  - destruct Hn as [E _]. apply length_zero_iff_nil in E. subst. unfold at_pos, past. cbn.
    by rewrite Nat.add_0_r.
  - apply load_array_at; [done|by rewrite length_replicate|by left].
Qed.

Definition server_keys_fields (k : @ServerKeys Key) : uint 2 * Key * packed32 * nonce * Key * Key :=
  (server_id_ k, master_key_ k, key_number_ k, nonce_ k, client_to_server_key_ k, server_to_client_key_ k).

Definition make_server_keys (f : uint 2 * Key * packed32 * nonce * Key * Key) : @ServerKeys Key :=
  {| server_id_ := f.1.1.1.1.1; master_key_ := f.1.1.1.1.2; key_number_ := f.1.1.1.2;
     nonce_ := f.1.1.2; client_to_server_key_ := f.1.2; server_to_client_key_ := f.2 |}.

#[export] Instance serial_server_keys : Serial (@ServerKeys Key) :=
  serial_via server_keys_fields make_server_keys.

#[export] Instance serial_server_keys_ok : SerialOk (@ServerKeys Key) :=
  serial_via_ok server_keys_fields make_server_keys ltac:(by intros []) eq_refl.

End SavedKeys.
End SavedKeys.

(** ** Properties *)
Module ProviderProperties.
Import Providers Derivation Sessions.

(** The provider has a pair of keys of the configured library. *)
Definition async_keys `{Config} `{Libraries} (pk sk : Key) : Prop :=
  match AE_CRYPTO_ASYNC with
  | Some AE_SODIUM_BOX_SEAL =>
      key_type pk = Some kSodiumCurvePublic /\ key_type sk = Some kSodiumCurveSecret /\
      box_keypair (key pk) (key sk)
  | Some AE_HYDRO_CRYPTO_PK =>
      key_type pk = Some kHydrogenCurvePublic /\ key_type sk = Some kHydrogenCurveSecret /\
      kx_keypair (key pk) (key sk)
  | None => False
  end.

Section Lemmas.
Context `{Config} `{Libraries} `{!LibrariesOk}.

Lemma sodium_seal_opens rnd pk sk data :
  box_keypair pk sk -> sodium_seal_open pk sk (box_seal rnd pk data) = Defined data.
Proof.
  intros K. unfold sodium_seal_open. rewrite seal_length, seal_open by done.
  destruct (Nat.ltb_spec (length data + SEALBYTES) SEALBYTES); [lia|done].
Qed.

Lemma hydro_seal_length rnd1 rnd2 pk data :
  length (hydro_seal rnd1 rnd2 pk data) = (length data + (N_PACKET1BYTES + SECRETBOX_HEADERBYTES))%nat.
Proof.
  unfold hydro_seal. pose proof (packet1_length rnd1 pk) as L. destruct (kx_n_1 rnd1 pk) as [e tx].
  cbn [fst] in L. rewrite length_app, secretbox_length. lia.
Qed.

(** A header of libhydrogen or a byte of data follows the packet of the key
    exchange. *)
Lemma hydro_seal_opens rnd1 rnd2 pk sk data :
  kx_keypair pk sk -> (0 < SECRETBOX_HEADERBYTES)%nat ->
  hydro_seal_open pk sk (hydro_seal rnd1 rnd2 pk data) = Defined data.
Proof.
  intros K P. unfold hydro_seal_open. rewrite hydro_seal_length.
  destruct (Nat.ltb_spec N_PACKET1BYTES (length data + (N_PACKET1BYTES + SECRETBOX_HEADERBYTES))) as [_|]; [|lia].
  unfold hydro_seal. pose proof (packet1_length rnd1 pk) as L. pose proof (session_agrees rnd1 pk sk K) as A.
  destruct (kx_n_1 rnd1 pk) as [e tx]. cbn [fst snd] in *.
  rewrite <- L at 1. rewrite take_app_length, A. rewrite <- L at 3. rewrite drop_app_length, secretbox_open.
  destruct (Nat.ltb_spec (length data + (N_PACKET1BYTES + SECRETBOX_HEADERBYTES) - N_PACKET1BYTES)
              SECRETBOX_HEADERBYTES); [lia|done].
Qed.

End Lemmas.

Lemma land_shift s k : in_width 32 k -> Z.land (Z.shiftl s 32) k = 0.
Proof.
  intros Hk. rewrite <- (Z.mod_small k (2 ^ 32)), <- Z.land_ones by (done || lia).
  apply Z.bits_inj'. intros n Hn. rewrite !Z.land_spec, Z.bits_0.
  destruct (Z.lt_ge_cases n 32).
  - by rewrite Z.shiftl_spec_low by done.
  - by rewrite Z.ones_spec_high, !andb_false_r by lia.
Qed.

Lemma lor_shift s k : in_width 32 k -> Z.lor (Z.shiftl s 32) k = s * 2 ^ 32 + k.
Proof.
  intros Hk. pose proof (Z.add_lor_land (Z.shiftl s 32) k) as E.
  rewrite land_shift, Z.shiftl_mul_pow2 in * by (done || lia). lia.
Qed.

(** In every configuration, what is encrypted with the public key of a pair is
    decrypted by a provider with both keys, and is longer by the overhead. *)
Theorem async_roundtrip `{Config} `{Libraries} `{!LibrariesOk} {P Q} `{!IAsyncKeyProvider P}
  `{!IAsyncKeyProvider Q} (p : P) (q : Q) rnd1 rnd2 data :
  PublicKey p = PublicKey q -> async_keys (PublicKey q) (SecretKey q) -> (0 < SECRETBOX_HEADERBYTES)%nat ->
  exists i c, new_async p = Defined i /\ new_async q = Defined i /\
    AsyncEncrypt i rnd1 rnd2 p data = Defined c /\ AsyncDecrypt i q c = Defined data /\
    length c = (length data + AsyncEncryptOverhead i)%nat.
Proof.
  intros E K P0. unfold new_async. rewrite E. unfold CreateAsyncImpl, async_keys in *.
  destruct AE_CRYPTO_ASYNC as [[]|]; [..|done]; destruct K as (T1 & T2 & K); rewrite T1.
  - eexists SodiumAsync, _. unfold AsyncEncrypt, AsyncDecrypt. rewrite E, !get_ok by done.
    split_and!; [done..|by apply sodium_seal_opens|apply seal_length].
  - eexists HydroAsync, _. unfold AsyncEncrypt, AsyncDecrypt. rewrite E, !get_ok by done.
    split_and!; [done..|by apply hydro_seal_opens|apply hydro_seal_length].
Qed.

(** Different servers and key numbers use different subkeys of the master key. *)
Theorem subkeys_differ sid1 kn1 sid2 kn2 :
  in_width 32 kn1 -> in_width 32 kn2 -> subkey_id sid1 kn1 = subkey_id sid2 kn2 ->
  sid1 = sid2 /\ kn1 = kn2.
Proof.
  unfold subkey_id. intros H1 H2 E. rewrite !lor_shift in E by done. unfold in_width in *. lia.
Qed.

(** Data the cipher does not accept is not rejected: decrypting it is undefined
    (an [assert] fails, and without asserts the buffer of zeros is returned). *)
Theorem forged_packet_undefined `{Config} `{Libraries} {P} `{!ISyncKeyProvider P} (p : P) k data :
  GetKey p = Defined k -> key_type k = Some kSodiumChacha ->
  (forall nonce cipher, aead_decrypt (key k) nonce cipher = None) ->
  SyncDecrypt SodiumSync p data = Undefined.
Proof.
  intros Hk T F. unfold SyncDecrypt. rewrite Hk, get_ok by done. unfold Cipher.DecryptWithSymmetric.
  rewrite F. by repeat case_match.
Qed.

(** With libhydrogen for public keys and its key derivation, but the default
    ChaCha20, nothing is derived and the answer is true: the keys of every server
    are zeros, and packets are encrypted with them. *)
Theorem mismatched_kdf_zero_keys `{Config} `{Libraries} raw sid master :
  AE_CRYPTO_ASYNC = Some AE_HYDRO_CRYPTO_PK -> AE_CRYPTO_SYNC = Some AE_CHACHA20_POLY1305 ->
  exists k, new_server_keys (Some AE_HYDRO_KDF) raw sid master = Defined k /\
    client_to_server_key_ k = server_to_client_key_ k /\
    key (client_to_server_key_ k) = replicate (key_bytes kSodiumChacha) 0 /\
    CreateSyncImpl (client_to_server_key_ k) = Defined SodiumSync.
Proof.
  intros A S. unfold new_server_keys, make, derive, CryptoSyncKeyDerive. rewrite S. eexists. split; [done|].
  cbn [client_to_server_key_ server_to_client_key_]. split; [done|].
  unfold new_key, CreateSyncImpl, key_type, alternatives. rewrite A, S. done.
Qed.

End ProviderProperties.

(** ** A concrete build *)
Module Samples.
Import ProviderProperties.

(** libsodium with keys of two bytes. *)
Definition sodium_build : Config := {|
  AE_CRYPTO_ASYNC := Some AE_SODIUM_BOX_SEAL; AE_CRYPTO_SYNC := Some AE_CHACHA20_POLY1305;
  AE_SIGNATURE := Some AE_ED25519; key_bytes _ := 2%nat; sign_bytes := 2%nat |}.

Definition front (key : bytes) : Z := default 0 (head key).

Definition open_front (key cipher : bytes) : option bytes :=
  match cipher with
  | x :: data => if x =? front key then Some data else None
  | [] => None
  end.

Definition tag_decrypt (key nonce cipher : bytes) : option bytes :=
  CryptoProperties.toy_decrypt (front key) nonce cipher.

(** Ciphers that mark the data with a byte of the key. *)
Definition toy_libraries : Libraries := {|
  KDF_KEYBYTES := 2%nat; kdf_derive_from_key n id master := replicate n (wrap 8 (front master + id));
  NPUBBYTES := 8%nat; ABYTES := 1%nat;
  aead_encrypt key nonce data := CryptoProperties.toy_encrypt (front key) nonce data;
  aead_decrypt := tag_decrypt;
  SECRETBOX_HEADERBYTES := 1%nat; secretbox_encrypt rnd key data := front key :: data;
  secretbox_decrypt := open_front;
  SEALBYTES := 1%nat; box_seal rnd pk data := front pk :: data; box_seal_open pk sk := open_front pk;
  N_PACKET1BYTES := 1%nat; kx_n_1 rnd pk := ([front rnd], pk); kx_n_2 _ pk sk := Some pk;
  box_keypair pk sk := pk = sk; kx_keypair pk sk := pk = sk |}.

#[export] Instance toy_libraries_ok : LibrariesOk (H := toy_libraries).
Proof.
  split; cbn; try done; intros.
  - apply length_replicate.
  - by apply Forall_replicate, in_width_wrap.
  - intros key nonce data L. apply (CryptoProperties.toy_authentic 8 (front key) nonce data L).
  - lia.
  - lia.
  - by rewrite Z.eqb_refl.
  - lia.
  - by rewrite Z.eqb_refl.
Qed.

End Samples.
