(* ===== verification/ClientCore.v ===== *)
(** * The client and its keys ([client.*], [registration_cloud.*],
      [client_connections/client_to_server_stream.cpp])

    A registered client has a master key and the cloud of its servers;
    [SetConfig] makes a pair of keys for each of them.  A stream to a server takes
    its keys from the client through the providers [ClientEncryptKeyProvider] and
    [ClientDecryptKeyProvider].  The manager of the connections is the [World] of
    [ClientConnections].

    A null pointer and a failed [assert] are [Undefined].  The identifiers of
    clients are numbers, as in [ClientConnections]. *)

From stdpp Require Import gmap.
From S2P Require Import Prelude MStream Crypto WireTypes ServerList ClientConnections TcpTransports CryptoProviders.
Import Keys Cloud.

#[local] Set Warnings "-notation-overridden".

(** ** The client *)
Module Client.
Import Connections.

Record Client `{Config} := {
  uid_ : Z;
  ephemeral_uid_ : Z;
  master_key_ : Key;
  cloud_ : option Cloud;
  client_connection_manager_ : option World;
  client_connection_ : option nat;
  server_keys_ : gmap Z (@ServerKeys.ServerKeys Key);
}.

Section Client.
Context `{Config} `{Libraries} (AE_KDF : option Derivation.kdf).
(** What the uninitialised nonce of new keys holds, and the environment of the
    connections. *)
Context (raw : Z -> bytes) (initial : nat -> Tcp.ConnectionState) (load_root : Z -> option Server).

Definition new_client : Client :=
  {| uid_ := 0; ephemeral_uid_ := 0; master_key_ := new_key; cloud_ := None;
     client_connection_manager_ := None; client_connection_ := None; server_keys_ := ∅ |}.

Definition server_state (server_id : Z) (c : Client) : option (@ServerKeys.ServerKeys Key) :=
  server_keys_ c !! server_id.

(** [std::map::emplace]: a key that is there keeps its value. *)
Definition emplace_key {V} (k : Z) (v : V) (m : gmap Z V) : gmap Z V :=
  match m !! k with Some _ => m | None => <[k := v]> m end.

(** The loop of [SetConfig]; the pointers to the servers are dereferenced. *)
Fixpoint make_keys (master_key : Key) (ps : list server_ptr) (m : gmap Z (@ServerKeys.ServerKeys Key))
  : outcome (gmap Z (@ServerKeys.ServerKeys Key)) :=
  match ps with
  | [] => Defined m
  | Unloaded _ :: _ => Undefined
  | Loaded s :: ps =>
      let* k := Derivation.new_server_keys AE_KDF (raw (server_id s)) (server_id s) master_key in
      make_keys master_key ps (emplace_key (server_id s) k m)
  end.

(** [manager] is the new [World]: its constructor registers the cloud. *)
Definition SetConfig (uid ephemeral_uid : Z) (master_key : Key) (cloud : Cloud) (c : Client)
  : outcome Client :=
  let* m := make_keys master_key (servers_ cloud) (server_keys_ c) in
  let* w := RegisterCloud uid cloud new_world in
  Defined {| uid_ := uid; ephemeral_uid_ := ephemeral_uid; master_key_ := master_key;
             cloud_ := Some cloud; client_connection_manager_ := Some w;
             client_connection_ := client_connection_ c; server_keys_ := m |}.

Definition with_manager (w : World) (k : option nat) (c : Client) : Client :=
  {| uid_ := uid_ c; ephemeral_uid_ := ephemeral_uid_ c; master_key_ := master_key_ c;
     cloud_ := cloud_ c; client_connection_manager_ := Some w; client_connection_ := k;
     server_keys_ := server_keys_ c |}.

(** [client_connection], with [GetClientConnection] of the manager. *)
Definition client_connection (c : Client) : outcome (Client * nat) :=
  match client_connection_ c with
  | Some k => Defined (c, k)
  | None =>
      match client_connection_manager_ c with
      | None => Undefined
      | Some w =>
          let* (sel, w) := GetCloudServerConnectionSelector load_root (uid_ c) w in
          match sel with
          | None => Undefined
          | Some sel =>
              let* (k, w) := NewCloudConnection initial sel w in
              Defined (with_manager w (Some k) c, k)
          end
      end
  end.

End Client.

(** *** Providers of the keys of a server

    A [PtrView] of the client; it is empty when the client is gone. *)
Record ClientEncryptKeyProvider `{Config} := Encrypting { e_client : option Client; e_server_id : Z }.
Record ClientDecryptKeyProvider `{Config} := Decrypting { d_client : option Client; d_server_id : Z }.

Section Providers.
Context `{Config}.

Definition with_server_key (sid : Z) (k : @ServerKeys.ServerKeys Key) (c : Client) : Client :=
  {| uid_ := uid_ c; ephemeral_uid_ := ephemeral_uid_ c; master_key_ := master_key_ c;
     cloud_ := cloud_ c; client_connection_manager_ := client_connection_manager_ c;
     client_connection_ := client_connection_ c; server_keys_ := <[sid := k]> (server_keys_ c) |}.

(** [ClientKeyProvider::Nonce]: the keys in the client get their next nonce. *)
Definition ClientNonce (client : option Client) (sid : Z) : outcome (Client * bytes) :=
  match client with
  | None => Undefined
  | Some c =>
      match server_state sid c with
      | None => Undefined
      | Some k => let k := Derivation.server_keys_next k in
                  Defined (with_server_key sid k c, ServerKeys.nonce_ k)
      end
  end.

Definition client_key (f : @ServerKeys.ServerKeys Key -> Key) (client : option Client) (sid : Z)
  : outcome Key :=
  match client with
  | None => Undefined
  | Some c => match server_state sid c with Some k => Defined (f k) | None => Undefined end
  end.

#[export] Instance client_encrypt : ISyncKeyProvider ClientEncryptKeyProvider := {
  GetKey p := client_key ServerKeys.client_to_server_key_ (e_client p) (e_server_id p);
  GetNonce p := let* (c, n) := ClientNonce (e_client p) (e_server_id p) in
                Defined (Encrypting _ (Some c) (e_server_id p), n);
}.

#[export] Instance client_decrypt : ISyncKeyProvider ClientDecryptKeyProvider := {
  GetKey p := client_key ServerKeys.server_to_client_key_ (d_client p) (d_server_id p);
  GetNonce p := let* (c, n) := ClientNonce (d_client p) (d_server_id p) in
                Defined (Decrypting _ (Some c) (d_server_id p), n);
}.

(** The encryption [InitStreams] of a stream to a server makes. *)
Definition make_crypto (sid : Z) (c : Client) : outcome (Providers.SyncImpl * Providers.SyncImpl) :=
  let* e := Providers.new_sync (Encrypting _ (Some c) sid) in
  let* d := Providers.new_sync (Decrypting _ (Some c) sid) in
  Defined (e, d).

End Providers.
End Client.

(** ** The cloud of the registration servers *)
Module RegistrationCloud.

(** [AddServerSettings]: a server with one channel and the identifier 0; here the
    address is one with an IP. *)
Definition AddServerSettings (address : IpAddressPortProtocol) (c : Cloud) : Cloud :=
  AddServer (AddChannel address {| server_id := 0; channels := [] |}) c.

End RegistrationCloud.

(** ** Properties *)
Module ClientProperties.
Import ServerList.ServerList Connections Client Providers Derivation Sessions SavedKeys.

(** The servers of a cloud whose pointers are loaded. *)
Definition all_loaded (c : Cloud) : Prop := Forall (fun p => exists s, p = Loaded s) (servers_ c).

Section Lemmas.
Context `{Config} `{Libraries} `{!LibrariesOk} (AE_KDF : option kdf).
Context (raw : Z -> bytes).

(** What the loop of [SetConfig] makes: old keys stay, and new ones are made for
    the servers. *)
Lemma make_keys_lookup master ps sid : forall m m' k,
  make_keys AE_KDF raw master ps m = Defined m' -> m' !! sid = Some k ->
  m !! sid = Some k \/
  exists s, Loaded s ∈ ps /\ server_id s = sid /\ new_server_keys AE_KDF (raw sid) sid master = Defined k.
Proof.
  induction ps as [|[s|o] ps IH]; intros m m' k; cbn [make_keys]; [intros; simplify_eq; by left| |done].
  destruct (new_server_keys _ _ (server_id s) _) as [k0|] eqn:E; [|done]. intros Hm Hk.
  destruct (IH _ _ _ Hm Hk) as [Hl|(s' & Hs & Hr)]; [|right; exists s'; split; [by right|done]].
  unfold emplace_key in Hl. destruct (m !! server_id s) eqn:Hs; [by left|].
  destruct (decide (server_id s = sid)) as [<-|Hne]; [|rewrite lookup_insert_ne in Hl by done; by left].
  rewrite lookup_insert_eq in Hl. simplify_eq. right. exists s. split; [by left|done].
Qed.

Lemma make_keys_keeps master ps sid : forall m m' k,
  make_keys AE_KDF raw master ps m = Defined m' -> m !! sid = Some k -> m' !! sid = Some k.
Proof.
  induction ps as [|[s|o] ps IH]; intros m m' k; cbn [make_keys]; [intros; by simplify_eq| |done].
  destruct (new_server_keys _ _ _ _) as [k0|] eqn:E; [|done]. intros Hm Hk. apply (IH _ _ _ Hm).
  unfold emplace_key. destruct (m !! server_id s) eqn:Hs; [done|]. rewrite lookup_insert_ne; congruence.
Qed.

Lemma make_keys_total master ps : forall m,
  kdf_matches AE_KDF -> (KDF_KEYBYTES <= KeySize master)%nat -> (forall sid, length (raw sid) = NPUBBYTES) ->
  Forall (fun p => exists s, p = Loaded s) ps ->
  exists m', make_keys AE_KDF raw master ps m = Defined m' /\
    forall s, Loaded s ∈ ps -> is_Some (m' !! server_id s).
Proof.
  induction ps as [|p ps IH]; intros m K L R F; cbn [make_keys].
  { exists m. split; [done|]. intros s Hs. by apply elem_of_nil in Hs. }
  inversion F as [|? ? [s ->] F']; subst.
  destruct (new_server_keys_ok AE_KDF (raw (server_id s)) (server_id s) master K L (R _)) as (k & -> & _).
  destruct (IH (emplace_key (server_id s) k m) K L R F') as (m' & E & A). exists m'. split; [done|].
  intros s' [?|Hs]%elem_of_cons; [simplify_eq|by apply A].
  unfold emplace_key in E. destruct (m !! server_id s) as [k'|] eqn:Hm.
  - exists k'. by eapply make_keys_keeps.
  - exists k. eapply make_keys_keeps; [done|]. by rewrite lookup_insert_eq.
Qed.

Lemma cache_servers_total ps : forall m,
  Forall (fun p => exists s, p = Loaded s) ps -> exists m', cache_servers ps m = Defined m'.
Proof.
  induction ps as [|p ps IH]; intros m F; [by exists m|]. inversion F as [|? ? [s ->] F']; subst.
  by apply IH.
Qed.

Lemma SetConfig_total uid eph master cloud c :
  kdf_matches AE_KDF -> (KDF_KEYBYTES <= KeySize master)%nat -> (forall sid, length (raw sid) = NPUBBYTES) ->
  all_loaded cloud ->
  exists c', SetConfig AE_KDF raw uid eph master cloud c = Defined c' /\
    forall s, Loaded s ∈ servers_ cloud -> is_Some (server_state (server_id s) c').
Proof.
  intros K L R F. destruct (make_keys_total master (servers_ cloud) (server_keys_ c) K L R F) as (m & E & A).
  destruct (cache_servers_total (servers_ cloud) (client_servers_ new_world) F) as (w & W).
  unfold SetConfig, RegisterCloud. rewrite E, W. eexists. split; [done|]. intros s Hs. by apply A.
Qed.

Lemma SetConfig_keys uid eph master cloud c c' sid k :
  SetConfig AE_KDF raw uid eph master cloud c = Defined c' -> server_state sid c' = Some k ->
  server_state sid c = Some k \/
  exists s, Loaded s ∈ servers_ cloud /\ server_id s = sid /\
    new_server_keys AE_KDF (raw sid) sid master = Defined k.
Proof.
  unfold SetConfig. destruct (make_keys _ _ _ _ _) as [m|] eqn:E; [|done].
  destruct (RegisterCloud _ _ _); [|done]. intros ? Hk. simplify_eq. by eapply make_keys_lookup.
Qed.

End Lemmas.

(** *** The providers give the keys of the client *)
Section ProviderOk.
Context `{Config} `{Libraries} `{!LibrariesOk}.

Definition has_keys (k : @ServerKeys.ServerKeys Key) (client : option Client) (sid : Z) : Prop :=
  exists c, client = Some c /\ server_state sid c = Some k /\ length (ServerKeys.nonce_ k) = kNonceSize.

Lemma ClientNonce_ok k client sid :
  has_keys k client sid ->
  exists c' n k', ClientNonce client sid = Defined (c', n) /\ length n = kNonceSize /\
    has_keys k' (Some c') sid /\
    ServerKeys.client_to_server_key_ k' = ServerKeys.client_to_server_key_ k /\
    ServerKeys.server_to_client_key_ k' = ServerKeys.server_to_client_key_ k.
Proof.
  intros (c & -> & Hs & L). unfold ClientNonce. rewrite Hs.
  assert (length (next_nonce (ServerKeys.nonce_ k)) = kNonceSize) as L'.
  { pose proof (proj1 aead_tag). unfold next_nonce, kNonceSize in *.
    destruct AE_CRYPTO_SYNC as [[]|]; [|done|done]. by rewrite CryptoProperties.Next_length by lia. }
  exists (with_server_key sid (server_keys_next k) c), (ServerKeys.nonce_ (server_keys_next k)), (server_keys_next k).
  split_and!; [done|done| |done|done]. eexists. split; [done|]. split; [by apply lookup_insert_eq|done].
Qed.

#[export] Program Instance client_encrypt_ok : ISyncKeyProviderOk ClientEncryptKeyProvider := {
  provides key p := exists k, has_keys k (e_client p) (e_server_id p) /\ ServerKeys.client_to_server_key_ k = key;
}.
Next Obligation.
  intros key [cl sid] (k & (c & Hc & Hs & _) & <-). cbn in Hc, Hs |- *. subst. unfold client_key, server_state in *. by rewrite Hs.
Qed.
Next Obligation.
  intros key [cl sid] (k & Hk & <-). cbn in *. destruct (ClientNonce_ok k cl sid Hk) as (c' & n & k' & E & L & Hk' & E1 & _).
  rewrite E. eexists _, _. split; [done|]. split; [done|]. by exists k'.
Qed.

#[export] Program Instance client_decrypt_ok : ISyncKeyProviderOk ClientDecryptKeyProvider := {
  provides key p := exists k, has_keys k (d_client p) (d_server_id p) /\ ServerKeys.server_to_client_key_ k = key;
}.
Next Obligation.
  intros key [cl sid] (k & (c & Hc & Hs & _) & <-). cbn in Hc, Hs |- *. subst. unfold client_key, server_state in *. by rewrite Hs.
Qed.
Next Obligation.
  intros key [cl sid] (k & Hk & <-). cbn in *. destruct (ClientNonce_ok k cl sid Hk) as (c' & n & k' & E & L & Hk' & _ & E2).
  rewrite E. eexists _, _. split; [done|]. split; [done|]. by exists k'.
Qed.

Lemma client_keys_given c sid k :
  server_state sid c = Some k ->
  GetKey (Encrypting _ (Some c) sid) = Defined (ServerKeys.client_to_server_key_ k) /\
  GetKey (Decrypting _ (Some c) sid) = Defined (ServerKeys.server_to_client_key_ k).
Proof. unfold server_state. intros Hk. cbn. by rewrite Hk. Qed.

Lemma sync_impl k : sync_key k -> exists i, forall k', sync_key k' -> CreateSyncImpl k' = Defined i.
Proof.
  intros [U T]. unfold sync_key, CreateSyncImpl, sync_key_type in *. destruct AE_CRYPTO_SYNC as [[]|].
  - exists SodiumSync. by intros k' [_ ->].
  - exists HydroSync. by intros k' [_ ->].
  - rewrite T in U. by destruct U.
Qed.

End ProviderOk.
(** Every server of the cloud has keys of the right type. *)
Lemma sessions_ready `{Config} `{Libraries} `{!LibrariesOk} AE_KDF raw uid eph master cloud :
  kdf_matches AE_KDF -> (KDF_KEYBYTES <= KeySize master)%nat ->
  (forall sid, length (raw sid) = NPUBBYTES) -> all_loaded cloud ->
  exists c, SetConfig AE_KDF raw uid eph master cloud new_client = Defined c /\
  forall s, Loaded s ∈ servers_ cloud ->
  exists k i, server_state (server_id s) c = Some k /\
    derive AE_KDF master (server_id s) 0
    = Some (ServerKeys.client_to_server_key_ k, ServerKeys.server_to_client_key_ k) /\
    length (ServerKeys.nonce_ k) = kNonceSize /\
    sync_key (ServerKeys.client_to_server_key_ k) /\ sync_key (ServerKeys.server_to_client_key_ k) /\
    (forall k', sync_key k' -> CreateSyncImpl k' = Defined i) /\
    make_crypto (server_id s) c = Defined (i, i).
Proof.
  intros K L R F. destruct (SetConfig_total AE_KDF raw uid eph master cloud new_client K L R F) as (c & E & A).
  exists c. split; [done|]. intros s Hs. destruct (A s Hs) as [k Hk].
  destruct (SetConfig_keys AE_KDF raw _ _ _ _ _ _ _ _ E Hk) as [Hn|(s' & _ & _ & N)]; [done|].
  destruct (new_server_keys_ok AE_KDF (raw (server_id s)) (server_id s) master K L (R _))
    as (k' & N' & D & _ & _ & _ & Ln & _ & [Sc _] & [Ss _]).
  rewrite N in N'. simplify_eq. destruct (sync_impl _ Sc) as [i Hi].
  destruct (client_keys_given _ _ _ Hk) as [G1 G2].
  exists k', i. split_and!; try done. unfold make_crypto, new_sync. by rewrite G1, G2, (Hi _ Sc), (Hi _ Ss).
Qed.

(** C18: After [SetConfig] a client can talk to each server of its cloud, in every
    configuration whose key derivation fits its encryption.  The crypto gate of the
    stream to the server is made, and a server that derives its keys from the same
    master key decrypts whatever the client encrypts, in order, as the client
    decrypts whatever that server encrypts; a packet grows by the overhead of the
    gate. *)
Theorem client_server_packets `{Config} `{Libraries} `{!LibrariesOk} AE_KDF raw uid eph master cloud :
  kdf_matches AE_KDF -> (KDF_KEYBYTES <= KeySize master)%nat ->
  (forall sid, length (raw sid) = NPUBBYTES) -> all_loaded cloud ->
  exists c, SetConfig AE_KDF raw uid eph master cloud new_client = Defined c /\
  forall s, Loaded s ∈ servers_ cloud ->
  exists i c2s s2c, make_crypto (server_id s) c = Defined (i, i) /\
    derive AE_KDF master (server_id s) 0 = Some (c2s, s2c) /\
    (forall Q `(!ISyncKeyProvider Q) (q : Q) ds, GetKey q = Defined c2s ->
       exists cs, encrypt_all i (Encrypting _ (Some c) (server_id s)) ds = Defined cs /\
         decrypt_all i q cs = Defined ds.*2 /\
         Forall2 (fun c d => zlen c = zlen d + SyncEncryptOverhead i) cs ds.*2) /\
    (forall Q `(!ISyncKeyProvider Q) `(!ISyncKeyProviderOk Q) (q : Q) ds, provides s2c q ->
       exists cs, encrypt_all i q ds = Defined cs /\
         decrypt_all i (Decrypting _ (Some c) (server_id s)) cs = Defined ds.*2).
Proof.
  intros K L R F. destruct (sessions_ready AE_KDF raw uid eph master cloud K L R F) as (c & E & A).
  exists c. split; [done|]. intros s Hs. destruct (A s Hs) as (k & i & Hk & D & Ln & Sc & Ss & Hi & M).
  destruct (client_keys_given _ _ _ Hk) as [G1 G2].
  assert (has_keys k (Some c) (server_id s)) as HK by by exists c.
  exists i, (ServerKeys.client_to_server_key_ k), (ServerKeys.server_to_client_key_ k).
  split_and!; [done|done|..].
  - intros Q ? q ds Hq. apply (sync_all _ q i ds (Encrypting _ (Some c) (server_id s)) Sc); [by exists k|done|].
    unfold new_sync. by rewrite Hq, Hi.
  - intros Q ? ? q ds Hq.
    destruct (sync_all _ (Decrypting _ (Some c) (server_id s)) i ds q Ss Hq) as (cs & E1 & E2 & _);
      [done|unfold new_sync; by rewrite G2, Hi|by exists cs].
Qed.

Lemma all_loaded_list cloud : all_loaded cloud -> exists l, servers_ cloud = Loaded <$> l.
Proof.
  unfold all_loaded. induction (servers_ cloud) as [|p ps IH]; intros F; [by exists []|].
  inversion F as [|? ? [s ->] F']; subst. destruct (IH F') as [l ->]. by exists (s :: l).
Qed.

(** The client's own connection: it is made once, goes to a server of the
    cloud the client was configured with, through one live connection, and the
    client has the keys for it. *)
Theorem own_connection_ready `{Config} `{Libraries} `{!LibrariesOk} AE_KDF raw initial load_root uid eph master
  cloud :
  kdf_matches AE_KDF -> (KDF_KEYBYTES <= KeySize master)%nat ->
  (forall sid, length (raw sid) = NPUBBYTES) -> all_loaded cloud -> servers_ cloud <> [] ->
  exists c c' k w x n conn sv i,
    SetConfig AE_KDF raw uid eph master cloud new_client = Defined c /\
    client_connection initial load_root c = Defined (c', k) /\
    client_connection initial load_root c' = Defined (c', k) /\
    client_connection_manager_ c' = Some w /\ cloud_connections w !! k = Some x /\
    client_server_connection_ x = Some n /\ connections w !! n = Some conn /\
    conn_server_id conn = server_id sv /\ Loaded sv ∈ servers_ cloud /\
    make_crypto (server_id sv) c' = Defined (i, i).
Proof.
  intros K L R F Hne. destruct (sessions_ready AE_KDF raw uid eph master cloud K L R F) as (c & E & A).
  destruct (all_loaded_list _ F) as [l Hl].
  assert (exists w0, RegisterCloud uid cloud new_world = Defined w0 /\ uid_ c = uid /\
            client_connection_manager_ c = Some w0 /\ client_connection_ c = None) as (w0 & W & Eu & Em & En).
  { revert E. unfold SetConfig. destruct (make_keys _ _ _ _ _); [|done].
    destruct (RegisterCloud _ _ _) as [w0|] eqn:W; [|done]. intros ?. simplify_eq. by exists w0. }
  pose proof (ConnectionProperties.RegisterCloud_wf _ _ _ _ ConnectionProperties.new_world_wf W) as I.
  assert (client_clouds_ w0 !! uid = Some {| cloud := cloud; client_stream_selector := None |}) as Hc.
  { revert W. unfold RegisterCloud. destruct (cache_servers _ _); [|done]. intros ?. simplify_eq.
    cbn. by rewrite lookup_insert_eq. }
  assert (l <> []) as Hl' by (intros ->; done).
  destruct (ConnectionProperties.selector_spec load_root uid _ l w0 I Hc eq_refl Hl Hl') as (sel & w1 & S1 & I1 & Hs).
  destruct (ConnectionProperties.NewCloudConnection_spec initial sel _ w1 I1 Hs)
    as (k & w & x & sv & n & conn & N & _ & Hx & Hp & Hcn & Hconn & Hid).
  assert (Loaded sv ∈ servers_ cloud) as Hin.
  { destruct (ServerListProperties.connect_pick_spec (new_selector (sort l))) as (Ep & _);
      [unfold ServerListProperties.in_list; cbn; lia| |].
    - intros E0. cbn in E0. pose proof (ServerListProperties.sort_permutation l) as P. rewrite E0 in P.
      by apply Permutation_nil in P.
    - rewrite Hp in Ep. symmetry in Ep. apply list_elem_of_lookup_2 in Ep. cbn in Ep.
      rewrite (ServerListProperties.sort_permutation l) in Ep. rewrite Hl. by apply list_elem_of_fmap_2. }
  destruct (A sv Hin) as (k' & i & Hk & _ & _ & _ & _ & _ & M).
  exists c, (with_manager w (Some k) c), k, w, x, n, conn, sv, i. split_and!; try done.
  unfold client_connection. by rewrite En, Em, Eu, S1, N.
Qed.

(** The sample build, a master key and a cloud of two servers. *)
Import Samples.
#[local] Existing Instances sodium_build toy_libraries.

Definition sample_master : Key := {| key_order := 2; key := [7; 9] |}.
Definition sample_cloud : Cloud :=
  {| servers_ := [Loaded {| server_id := 3; channels := [] |}; Loaded {| server_id := 5; channels := [] |}];
     adapter_ := None |}.
Definition sample_raw (sid : Z) : bytes := replicate 8 sid.

Lemma client_server_packets_witness :
  exists c cs,
    SetConfig (Some AE_SODIUM_KDF) sample_raw 1 2 sample_master sample_cloud new_client = Defined c /\
    encrypt_all SodiumSync (Encrypting _ (Some c) 5) [([], [1; 2]); ([], [])] = Defined cs /\
    decrypt_all SodiumSync {| sync_key_ := make_key kSodiumChacha [7; 7]; reg_nonce_ := [] |} cs
    = Defined [[1; 2]; []].
Proof.
  destruct (client_server_packets (Some AE_SODIUM_KDF) sample_raw 1 2 sample_master sample_cloud)
    as (c & E & A); [done|cbn; lia|intros; apply length_replicate
                    |repeat (apply Forall_cons_2; [by eexists|]); apply Forall_nil_2|].
  destruct (A {| server_id := 5; channels := [] |}) as (i & c2s & s2c & M & D & P & _);
    [by right; left|].
  vm_compute in D. simplify_eq. exists c.
  destruct (P RegistrationSyncKeyProvider _ {| sync_key_ := make_key kSodiumChacha [7; 7]; reg_nonce_ := [] |}
              [([], [1; 2]); ([], [])]) as (cs & C1 & C2 & _); [reflexivity|].
  exists cs. vm_compute in E. injection E as <-. vm_compute in M. injection M as <-. done.
Defined.

(** A client has no keys for a server outside its own cloud, and a stream to
    such a server cannot be made.  The cloud of another client may have servers
    that are not in it. *)
Theorem foreign_server_has_no_key `{Config} `{Libraries} `{!LibrariesOk} AE_KDF raw uid eph master cloud c sid :
  SetConfig AE_KDF raw uid eph master cloud new_client = Defined c ->
  (forall s, Loaded s ∈ servers_ cloud -> server_id s <> sid) ->
  server_state sid c = None /\ make_crypto sid c = Undefined.
Proof.
  intros E N. destruct (server_state sid c) as [k|] eqn:Hk.
  - destruct (SetConfig_keys _ _ _ _ _ _ _ _ _ _ E Hk) as [?|(s & Hs & <- & _)]; [done|by destruct (N s)].
  - split; [done|]. unfold server_state in Hk. unfold make_crypto, new_sync. cbn. by rewrite Hk.
Qed.

Lemma foreign_server_has_no_key_witness :
  exists c, SetConfig (Some AE_SODIUM_KDF) sample_raw 1 2 sample_master sample_cloud new_client = Defined c /\
    server_state 3 c <> None /\ server_state 4 c = None /\ make_crypto 4 c = Undefined.
Proof.
  eexists. split; [vm_compute; reflexivity|]. split; [vm_compute; discriminate|].
  apply (foreign_server_has_no_key (H1 := Samples.toy_libraries_ok) (Some AE_SODIUM_KDF) sample_raw 1 2
           sample_master sample_cloud); [vm_compute; reflexivity|].
  intros s [E|[E|E%elem_of_nil]%elem_of_cons]%elem_of_cons; simplify_eq; cbn; lia.
Defined.

(** A second [SetConfig] keeps the keys of the servers it knows, though they come
    from the old master key. *)
Theorem old_keys_stay `{Config} `{Libraries} AE_KDF raw uid eph master cloud c c' sid k :
  SetConfig AE_KDF raw uid eph master cloud c = Defined c' -> server_state sid c = Some k ->
  master_key_ c' = master /\ server_state sid c' = Some k.
Proof.
  unfold SetConfig. destruct (make_keys _ _ _ _ _) as [m|] eqn:E; [|done].
  destruct (RegisterCloud _ _ _); [|done]. intros ? Hk. simplify_eq. split; [done|].
  by eapply make_keys_keeps.
Qed.

(** The keys [SetConfig] makes are read back after they were saved. *)
Theorem new_keys_roundtrip `{Config} `{Libraries} `{!LibrariesOk} AE_KDF raw sid master pre post r :
  kdf_matches AE_KDF -> (KDF_KEYBYTES <= KeySize master)%nat -> length raw = NPUBBYTES -> byte_list raw ->
  in_width 16 sid -> key_ok master ->
  exists k, new_server_keys AE_KDF raw sid master = Defined k /\
    load dflt (at_pos pre (save k) post r) = (k, past pre (save k) post r).
Proof.
  intros K L R B W M. destruct (new_server_keys_ok AE_KDF raw sid master K L R)
    as (k & N & _ & Es & Em & En & Ln & Bn & [_ Kc] & [_ Ks]).
  exists k. split; [done|]. apply (load_save (SerialOk := SavedKeys.serial_server_keys_ok)).
  cbn. rewrite Es, Em, En. split_and!; first [done | split; [done|by apply Bn]].
Qed.

End ClientProperties.
