(* ===== verification/LiteralArray.v ===== *)
(** * Bytes from hexadecimal text ([literal_array.h])

    [MakeLiteralArray] reads a string literal when the program is compiled,
    [MakeArray] a view of a string when it runs.  Text is a list of characters; a
    literal has a final 0, and a view has whatever is in the memory behind it.
    Reading past that memory is [Undefined]. *)

From S2P Require Import Prelude Text.

Module LiteralArray.

(** One turn of the loop of [HexToDec]: characters that are not digits are
    skipped. *)
Definition add_digit (c result : Z) : Z :=
  let result := if (48 <=? c) && (c <=? 57) then wrap 64 (result * 16 + (c - 48)) else result in
  let result := if (97 <=? c) && (c <=? 102) then wrap 64 (result * 16 + (c - 97 + 10)) else result in
  if (65 <=? c) && (c <=? 70) then wrap 64 (result * 16 + (c - 65 + 10)) else result.

Fixpoint hex_loop (str : bytes) (size : nat) (result : Z) {struct size} : outcome Z :=
  match size with
  | O => Defined result
  | S size =>
      match str with
      | [] => Undefined
      | c :: str => if c =? 0 then Defined result else hex_loop str size (add_digit c result)
      end
  end.

Definition HexToDec (str : bytes) (size : nat) : outcome Z := hex_loop str size 0.

(** [StringIterator]: two characters of a literal. *)
Definition StringIterator (str : bytes) (Index : nat) : outcome Z :=
  let* v := HexToDec (drop (Index * 2) str) 2 in Defined (wrap 8 v).

Fixpoint FillArray (str : bytes) (Is : list nat) : outcome bytes :=
  match Is with
  | [] => Defined []
  | i :: Is => let* v := StringIterator str i in let* vs := FillArray str Is in Defined (v :: vs)
  end.

(** A literal with its 0; its [Size] counts it.  The size of the array, a
    [float] rounded up, is exact for all literals below 2^24 characters. *)
Definition MakeLiteralArray (text : bytes) : outcome bytes :=
  let str := text ++ [0] in
  let Size := length str in
  FillArray str (seq 0 (Size / 2)).

(** The loop of [MakeArray] over the positions of the view [text]; [behind] is
    the memory after it.  [substr] gives at least one character, and two are
    read. *)
Fixpoint array_loop (fuel : nat) (text behind : bytes) (i : nat) : outcome bytes :=
  match fuel with
  | O => Defined []
  | S fuel =>
      if (i <? length text)%nat
      then
        let* value := HexToDec (drop i (text ++ behind)) 2 in
        let* result := array_loop fuel text behind (i + 2) in
        Defined (wrap 8 value :: result)
      else Defined []
  end.

Definition MakeArray (text behind : bytes) : outcome bytes := array_loop (length text) text behind 0.

End LiteralArray.

Module LiteralArrayProperties.
Import LiteralArray Text.

(** ** Lemmas *)

(** Both digits of a byte, whatever follows them. *)
Lemma hex2_read_all :
  forallb (fun n => match HexToDec (hex2 (Z.of_nat n)) 2 with
                    | Defined v => v =? Z.of_nat n
                    | Undefined => false
                    end) (seq 0 256) = true.
Proof. vm_compute. reflexivity. Qed.

Lemma hex_loop_app size : forall str behind result v,
  hex_loop str size result = Defined v -> hex_loop (str ++ behind) size result = Defined v.
Proof.
  induction size as [|size IH]; intros [|c str] behind result v; cbn [hex_loop app]; try done.
  destruct (c =? 0); [done|]. apply IH.
Qed.

Lemma hex2_read b behind : in_width 8 b -> HexToDec (hex2 b ++ behind) 2 = Defined b.
Proof.
  intros Hb. apply hex_loop_app.
  pose proof (proj1 (forallb_forall _ _) hex2_read_all (Z.to_nat b)) as A.
  unfold in_width in Hb. fold (HexToDec (hex2 b) 2).
  assert (List.In (Z.to_nat b) (seq 0 256)) as I by (apply in_seq; lia). specialize (A I). cbv beta in A.
  rewrite Z2Nat.id in A by lia.
  destruct (HexToDec (hex2 b) 2); [|done]. by apply Z.eqb_eq in A as ->.
Qed.

Definition hex_text (bs : bytes) : bytes := bs ≫= hex2.

Lemma length_hex_text bs : length (hex_text bs) = (2 * length bs)%nat.
Proof. unfold hex_text. induction bs as [|b bs IH]; [done|]. cbn [mbind list_bind length]. rewrite length_app, IH. cbn. lia. Qed.

(** The bytes at a position of the text. *)
Lemma hex_at bs j b behind :
  byte_list bs -> bs !! j = Some b -> HexToDec (drop (j * 2) (hex_text bs ++ behind)) 2 = Defined b.
Proof.
  intros B H. rewrite <- (take_drop_middle _ _ _ H) at 1. unfold hex_text. rewrite bind_app.
  cbn [mbind list_bind]. rewrite <- app_assoc. rewrite drop_app_length'.
  - rewrite <- app_assoc. apply hex2_read. by eapply list.Forall_lookup_1.
  - fold (hex_text (take j bs)). rewrite length_hex_text, length_take_le; [lia|].
    apply lookup_lt_Some in H. lia.
Qed.

Lemma FillArray_text bs : forall n k,
  byte_list bs -> (k + n <= length bs)%nat -> FillArray (hex_text bs ++ [0]) (seq k n) = Defined (take n (drop k bs)).
Proof.
  induction n as [|n IH]; intros k B L; [done|]. cbn [seq FillArray].
  destruct (lookup_lt_is_Some_2 bs k ltac:(lia)) as [b Hb].
  unfold StringIterator. rewrite (hex_at bs k b [0] B Hb), (IH (S k) B ltac:(lia)).
  rewrite (drop_S bs b k Hb). cbn [take]. do 2 f_equal. apply wrap_small. by eapply list.Forall_lookup_1.
Qed.

Lemma array_loop_text bs behind : forall fuel k,
  byte_list bs -> (k <= length bs)%nat -> (length bs - k <= fuel)%nat ->
  array_loop fuel (hex_text bs) behind (k * 2) = Defined (drop k bs).
Proof.
  induction fuel as [|fuel IH]; intros k B L F; cbn [array_loop].
  { by rewrite drop_ge by lia. }
  rewrite length_hex_text. destruct (Nat.ltb_spec (k * 2) (2 * length bs)); [|by rewrite drop_ge by lia].
  destruct (lookup_lt_is_Some_2 bs k ltac:(lia)) as [b Hb].
  rewrite (hex_at bs k b behind B Hb). replace (k * 2 + 2)%nat with (S k * 2)%nat by lia.
  rewrite (IH (S k) B ltac:(lia) ltac:(lia)), (drop_S bs b k Hb). do 2 f_equal.
  apply wrap_small. by eapply list.Forall_lookup_1.
Qed.

(** ** Theorems *)

(** The two hexadecimal digits of each byte are read back to the bytes, when
    the program is compiled and when it runs, whatever is behind the text. *)
Theorem hex_roundtrip bs behind :
  byte_list bs ->
  MakeLiteralArray (hex_text bs) = Defined bs /\ MakeArray (hex_text bs) behind = Defined bs.
Proof.
  intros B. split.
  - unfold MakeLiteralArray. rewrite length_app, length_hex_text. cbn [length].
    replace ((2 * length bs + 1) / 2)%nat with (length bs).
    + rewrite FillArray_text by (done || lia). by rewrite drop_0, take_ge by lia.
    + rewrite Nat.mul_comm, Nat.div_add_l by lia. cbn. lia.
  - unfold MakeArray. rewrite (array_loop_text bs behind _ 0); [done|done|lia|].
    rewrite length_hex_text. lia.
Qed.

(** A literal is never read past its 0. *)
Lemma hex_read_literal str k :
  (k < length str)%nat -> exists v, HexToDec (drop k str ++ [0]) 2 = Defined v.
Proof.
  intros L. unfold HexToDec. destruct (drop k str) as [|c [|d rest]] eqn:E.
  - apply (f_equal length) in E. rewrite length_drop in E. cbn in E. lia.
  - cbn [app hex_loop]. destruct (c =? 0); eexists; reflexivity.
  - cbn [app hex_loop]. destruct (c =? 0); [|destruct (d =? 0)]; eexists; reflexivity.
Qed.

Theorem literal_always_read text : exists bs, MakeLiteralArray text = Defined bs /\
  length bs = (S (length text) / 2)%nat.
Proof.
  unfold MakeLiteralArray. rewrite length_app, Nat.add_1_r.
  assert (S (length text) / 2 * 2 <= S (length text))%nat as B
    by (rewrite Nat.mul_comm; apply Nat.Div0.mul_div_le).
  revert B. generalize (S (length text) / 2)%nat. intros n B.
  assert (forall n k, ((k + n) * 2 <= S (length text))%nat ->
            exists bs, FillArray (text ++ [0]) (seq k n) = Defined bs /\ length bs = n) as A.
  { clear n B. induction n as [|n IH]; intros k B; [by exists []|]. cbn [seq FillArray].
    unfold StringIterator. rewrite drop_app_le by lia.
    destruct (hex_read_literal text (k * 2) ltac:(lia)) as [v ->].
    destruct (IH (S k) ltac:(lia)) as (bs & -> & <-). by eexists. }
  by apply (A n 0%nat).
Qed.

(** A text with an odd number of digits: the literal ends at its 0, but a view in
    the middle of a string takes in the character behind it, and a view at the
    end of its memory is read past the end. *)
Theorem odd_view_reads_past :
  MakeLiteralArray [49; 50; 51] = Defined [18; 3] /\
  MakeArray [49; 50; 51] [0] = Defined [18; 3] /\
  MakeArray [49; 50; 51] [52] = Defined [18; 52] /\
  MakeArray [49; 50; 51] [] = Undefined.
Proof. repeat split. Qed.

(** Characters that are not digits are not reported: a byte may have one digit or
    none. *)
Theorem not_hex_is_zero :
  MakeArray [122; 122; 49; 120] [0] = Defined [0; 1].
Proof. reflexivity. Qed.
End LiteralArrayProperties.
