(* ===== verification/ActionLists.v ===== *)
(** * Lists of actions and views ([actions/action_list.h], [actions/action_view.h])

    An [ActionList] makes actions and keeps them until they finish; an
    [ActionStore] takes actions that were made elsewhere.  An [ActionView] is a
    handle to the entry of an action in the registry of [Actions], which tells
    whether the action is still there.

    The indices of the stored actions and of the views are slots of a
    [Registry.Program]; creating, copying, moving and destroying them are its
    operations.  An action is numbered when it is made. *)

From S2P Require Import Prelude Actions.
Import Registry.

Module ActionList.

(** [actions_]: the actions, each with the slot of its [index_].  [views]: the
    slots of the views, each with the action it was made for, or moved from. *)
Record World := {
  prog : Program;
  next_action : nat;
  actions_ : list (nat * nat);
  views : list (nat * option nat);
}.

Definition new_world : World :=
  {| prog := new_program; next_action := 0; actions_ := []; views := [] |}.

(** [ActionView(T const&)] from [index()], which asserts that the entry has an
    action. *)
Definition view_of (k : nat) (p : Program) : outcome Program :=
  let* a := get (default None (slots p !! k)) (registry p) in
  match a with Some _ => run_op (OCopy k) p | None => Undefined end.

(** [ActionList::Emplace]: the constructor of the action registers it. *)
Definition Emplace (w : World) : outcome World :=
  let a := next_action w in
  let k := length (slots (prog w)) in
  let* p := run_op (ORegister a) (prog w) in
  let* p := view_of k p in
  Defined {| prog := p; next_action := S a; actions_ := actions_ w ++ [(a, k)];
             views := views w ++ [(S k, Some a)] |}.

(** [ActionStore::Add] of a new action: it is moved into the list, and the one
    it was moved from is destroyed.  The new address is the number of the
    action; the old one does not matter. *)
Definition Add (temporary : nat) (w : World) : outcome World :=
  let a := next_action w in
  let k := length (slots (prog w)) in
  let* p := run_ops [ORegister temporary; OMove k; ORetarget (S k) a] (prog w) in
  let* p := view_of (S k) p in
  let* p := run_ops [OErase k; ODestroy k] p in
  Defined {| prog := p; next_action := S a; actions_ := actions_ w ++ [(a, S k)];
             views := views w ++ [(S (S k), Some a)] |}.

(** [FinishedEvent] of the [i]-th action: [erase], with the destructor of
    [Action] and that of its index. *)
Definition Finish (i : nat) (w : World) : outcome World :=
  match actions_ w !! i with
  | None => Defined w
  | Some (a, k) =>
      let* p := run_ops [OErase k; ODestroy k] (prog w) in
      Defined {| prog := p; next_action := next_action w; actions_ := delete i (actions_ w);
                 views := views w |}
  end.

(** *** Views: the [i]-th view *)

Definition put_views (p : Program) (vs : list (nat * option nat)) (w : World) : World :=
  {| prog := p; next_action := next_action w; actions_ := actions_ w; views := vs |}.

Definition CopyView (i : nat) (w : World) : outcome World :=
  match views w !! i with
  | None => Defined w
  | Some (s, o) =>
      let* p := run_op (OCopy s) (prog w) in
      Defined (put_views p (views w ++ [(length (slots (prog w)), o)]) w)
  end.

Definition MoveView (i : nat) (w : World) : outcome World :=
  match views w !! i with
  | None => Defined w
  | Some (s, o) =>
      let* p := run_op (OMove s) (prog w) in
      Defined (put_views p (<[i := (s, None)]> (views w) ++ [(length (slots (prog w)), o)]) w)
  end.

(** [operator=]: nothing when a view is assigned to itself. *)
Definition AssignView (i j : nat) (w : World) : outcome World :=
  match views w !! i, views w !! j with
  | Some (s, _), Some (t, o) =>
      if decide (i = j) then Defined w
      else let* p := run_op (OAssignCopy s t) (prog w) in
           Defined (put_views p (<[i := (s, o)]> (views w)) w)
  | _, _ => Defined w
  end.

(** Move assignment: the other view is empty afterwards. *)
Definition MoveAssignView (i j : nat) (w : World) : outcome World :=
  match views w !! i, views w !! j with
  | Some (s, _), Some (t, o) =>
      if decide (i = j) then Defined w
      else let* p := run_op (OAssignMove s t) (prog w) in
           Defined (put_views p (<[i := (s, o)]> (<[j := (t, None)]> (views w))) w)
  | _, _ => Defined w
  end.

Definition DropView (i : nat) (w : World) : outcome World :=
  match views w !! i with
  | None => Defined w
  | Some (s, _) =>
      let* p := run_op (ODestroy s) (prog w) in
      Defined (put_views p (delete i (views w)) w)
  end.

(** [operator->]; [operator bool] is whether it gives an action. *)
Definition view_get (s : nat) (w : World) : outcome (option nat) :=
  get (default None (slots (prog w) !! s)) (registry (prog w)).

Inductive op :=
  | OEmplace
  | OAdd (temporary : nat)
  | OFinish (i : nat)
  | OCopyView (i : nat)
  | OMoveView (i : nat)
  | OAssignView (i j : nat)
  | OMoveAssignView (i j : nat)
  | ODropView (i : nat).

Definition step (o : op) (w : World) : outcome World :=
  match o with
  | OEmplace => Emplace w
  | OAdd t => Add t w
  | OFinish i => Finish i w
  | OCopyView i => CopyView i w
  | OMoveView i => MoveView i w
  | OAssignView i j => AssignView i j w
  | OMoveAssignView i j => MoveAssignView i j w
  | ODropView i => DropView i w
  end.

Fixpoint steps (os : list op) (w : World) : outcome World :=
  match os with
  | [] => Defined w
  | o :: os => let* w := step o w in steps os w
  end.

End ActionList.

Module ActionListProperties.
Import ActionList.

Definition stored (a : nat) (l : list (nat * nat)) : Prop := a ∈ l.*1.

#[local] Instance stored_dec a l : Decision (stored a l).
Proof. unfold stored. apply _. Defined.

(** Entries keep their actions, but for those [f] changes. *)
Definition entries (f : nat -> option nat -> option nat) (p p' : Program) : Prop :=
  forall e', e' ∈ action_list_ (registry p') ->
  exists e, e ∈ action_list_ (registry p) /\ node e' = node e /\ action e' = f (node e) (action e).

Definition same (_ : nat) (o : option nat) : option nat := o.

Lemma modify_entries n f h p g :
  (forall i, node (f i) = node i) -> (forall i, action (f i) = h (action i)) ->
  modify n f (registry p) = Defined g ->
  next_node g = next_node (registry p) /\
  forall ss, entries (fun m o => if decide (m = n) then h o else o) p {| registry := g; slots := ss |}.
Proof.
  intros Hn Ha. unfold modify. destruct (find_node _ _); [|done]. intros E. simplify_eq. split; [done|].
  intros ss e' He'. cbn in He'. apply list_elem_of_fmap in He' as (e & -> & He). exists e. split; [done|].
  destruct (Nat.eqb_spec (node e) n) as [En|En]; [|by rewrite decide_False].
  rewrite Hn, Ha. by rewrite decide_True.
Qed.

Lemma entries_weaken f f' p p' :
  (forall m o, f m o = f' m o) -> entries f p p' -> entries f' p p'.
Proof. intros E H e' He'. destruct (H e' He') as (e & ? & ? & ->). by exists e. Qed.

(** What the operations do to the slots and to the actions of the entries. *)
Lemma copy_effect k p p' :
  run_op (OCopy k) p = Defined p' ->
  slots p' = slots p ++ [default None (slots p !! k)] /\
  next_node (registry p') = next_node (registry p) /\ entries same p p'.
Proof.
  cbn [run_op]. unfold share_copy. destruct (default None (slots p !! k)) as [n|].
  - destruct (modify n incr (registry p)) as [g|] eqn:E; [|done]. intros ?. simplify_eq.
    destruct (modify_entries n incr (fun o => o) p g) as [En H]; [done..|]. split_and!; [done|done|].
    eapply entries_weaken; [|apply H]. intros m o. cbv beta. by destruct (decide (m = n)).
  - intros. simplify_eq. split_and!; [done..|]. intros e He. by exists e.
Qed.

Lemma destroy_effect k p p' :
  run_op (ODestroy k) p = Defined p' ->
  slots p' = <[k := None]> (slots p) /\
  next_node (registry p') = next_node (registry p) /\ entries same p p'.
Proof.
  cbn [run_op]. unfold share_destroy. destruct (default None (slots p !! k)) as [n|].
  - destruct (find_node n _); [|done]. destruct (_ =? 0); [done|]. destruct (_ =? 0).
    + intros. simplify_eq. split_and!; [done..|]. intros e He. cbn in He.
      apply list_elem_of_In, filter_In in He as [He%list_elem_of_In _]. by exists e.
    + destruct (modify n decr (registry p)) as [g|] eqn:E; [|done]. intros ?. simplify_eq.
      destruct (modify_entries n decr (fun o => o) p g) as [En H]; [done..|]. split_and!; [done|done|].
      eapply entries_weaken; [|apply H]. intros m o. cbv beta. by destruct (decide (m = n)).
  - intros. simplify_eq. split_and!; [done..|]. intros e He. by exists e.
Qed.

Lemma assign_effect k j p p' :
  k <> j -> (k < length (slots p))%nat -> run_op (OAssignCopy k j) p = Defined p' ->
  slots p' = <[k := default None (slots p !! j)]> (slots p) /\
  next_node (registry p') = next_node (registry p) /\ entries same p p'.
Proof.
  intros Hkj Hk. cbn [run_op]. rewrite decide_False by done. rewrite decide_True by done. unfold assign_copy.
  destruct (default None (slots p !! j)) as [n|].
  - destruct (modify n incr (registry p)) as [g|] eqn:E; [|done]. intros ?. simplify_eq.
    destruct (modify_entries n incr (fun o => o) p g) as [En H]; [done..|]. split_and!; [done|done|].
    eapply entries_weaken; [|apply H]. intros m o. cbv beta. by destruct (decide (m = n)).
  - intros. simplify_eq. split_and!; [done..|]. intros e He. by exists e.
Qed.

Lemma set_effect (o : option nat) k n p p' :
  slots p !! k = Some (Some n) ->
  run_op (match o with Some a => ORetarget k a | None => OErase k end) p = Defined p' ->
  slots p' = slots p /\ next_node (registry p') = next_node (registry p) /\
  entries (fun m old => if decide (m = n) then o else old) p p'.
Proof.
  intros Hk H.
  assert (exists g, modify n (set_action o) (registry p) = Defined g /\
            p' = {| registry := g; slots := slots p |}) as (g & E & ->).
  { destruct o; cbn [run_op] in H; unfold retarget, Erase in H; rewrite Hk in H; cbn in H;
      (destruct (modify n _ _) as [g|] eqn:E; [|discriminate H]); injection H as <-; by exists g. }
  destruct (modify_entries n (set_action o) (fun _ => o) p g) as [En He]; [done..|]. by split_and!.
Qed.

Lemma register_effect a p p' :
  run_op (ORegister a) p = Defined p' ->
  slots p' = slots p ++ [Some (next_node (registry p))] /\
  next_node (registry p') = S (next_node (registry p)) /\
  forall e', e' ∈ action_list_ (registry p') ->
    (exists e, e ∈ action_list_ (registry p) /\ node e' = node e /\ action e' = action e) \/
    node e' = next_node (registry p) /\ action e' = Some a.
Proof.
  cbn [run_op]. unfold Register, share_new.
  set (g0 := {| action_list_ := action_list_ (registry p) ++ _; next_node := _ |}).
  destruct (modify _ incr g0) as [g|] eqn:E; [|done]. intros [= <-].
  destruct (modify_entries _ incr (fun o => o) {| registry := g0; slots := [] |} g
              ltac:(done) ltac:(done) E) as [En H].
  split_and!; [done|by cbn; rewrite En|]. intros e' He'. destruct (H [] e' He') as (e & He & N & A).
  assert (action e' = action e) as A' by (rewrite A; by destruct (decide (node e = next_node (registry p)))).
  cbn in He. apply elem_of_app in He as [He|He%list_elem_of_singleton]; [left; by exists e|right].
  subst e. done.
Qed.
(** ** The invariant *)

Definition alive_action (a : nat) (w : World) : option nat :=
  if decide (stored a (actions_ w)) then Some a else None.

Record wf (w : World) : Prop := {
  wf_prog : program_ok (prog w);
  wf_next : next_node (registry (prog w)) = next_action w;
  wf_stored : forall a k, (a, k) ∈ actions_ w -> slots (prog w) !! k = Some (Some a);
  wf_views : forall s o, (s, o) ∈ views w -> slots (prog w) !! s = Some o;
  wf_entries : forall e, e ∈ action_list_ (registry (prog w)) -> action e = alive_action (node e) w;
  wf_unique : NoDup (actions_ w).*1;
  wf_slots : NoDup ((actions_ w).*2 ++ (views w).*1);
}.

Lemma insert_cons_Permutation {A} (l : list A) i x y :
  l !! i = Some x -> <[i := y]> l ≡ₚ y :: delete i l.
Proof.
  revert i. induction l as [|z l IH]; intros [|i] E; cbn in *; [done..|].
  rewrite (IH i E). by rewrite Permutation_swap.
Qed.

Lemma elem_of_delete_other {A} (l : list A) i j y : l !! j = Some y -> i <> j -> y ∈ delete i l.
Proof.
  revert i j. induction l as [|z l IH]; intros [|i] [|j] E Hne; cbn in *; try done; simplify_eq.
  - by eapply list_elem_of_lookup_2.
  - by left.
  - right. apply (IH i j); [done|lia].
Qed.

(** The entry a live slot leads to. *)
Lemma slot_entry p k n :
  program_ok p -> slots p !! k = Some (Some n) ->
  exists e, find_node n (action_list_ (registry p)) = Some e /\
    e ∈ action_list_ (registry p) /\ node e = n /\ (n < next_node (registry p))%nat.
Proof.
  intros Hp Hk. pose proof (handles p Hp) as Hh. rewrite list.Forall_lookup in Hh.
  destruct (Hh _ _ Hk n eq_refl) as (e & He & Hn). exists e.
  split; [by apply find_node_elem; [apply Hp| |]|]. split_and!; [done..|].
  pose proof (nodes_old p Hp) as Ho. rewrite list.Forall_forall in Ho. rewrite <- Hn. by apply Ho.
Qed.

Lemma view_get_spec w s o :
  wf w -> (s, o) ∈ views w ->
  view_get s w = Defined match o with Some a => alive_action a w | None => None end.
Proof.
  intros W Hs. pose proof (wf_views w W _ _ Hs) as Hl. unfold view_get. rewrite Hl. cbn [default from_option id].
  destruct o as [a|]; [|done]. cbn.
  destruct (slot_entry _ _ _ (wf_prog w W) Hl) as (e & -> & He & <- & _). by rewrite (wf_entries w W e He).
Qed.

Lemma slot_bound w k :
  wf w -> k ∈ (actions_ w).*2 ++ (views w).*1 -> (k < length (slots (prog w)))%nat.
Proof.
  intros W [H|H]%elem_of_app; apply list_elem_of_fmap in H as ([x y] & -> & H).
  - by eapply lookup_lt_Some, (wf_stored w W).
  - by eapply lookup_lt_Some, (wf_views w W).
Qed.

(** Operations on views leave the actions alone. *)
Lemma wf_put_views w p vs :
  wf w -> program_ok p -> next_node (registry p) = next_node (registry (prog w)) -> entries same (prog w) p ->
  (forall a k, (a, k) ∈ actions_ w -> slots p !! k = Some (Some a)) ->
  (forall s o, (s, o) ∈ vs -> slots p !! s = Some o) ->
  NoDup ((actions_ w).*2 ++ vs.*1) -> wf (put_views p vs w).
Proof.
  intros W Hp Hn He Ha Hv Hd. split; cbn; try done; [by rewrite Hn, (wf_next w W)| |apply W].
  intros e' He'. destruct (He e' He') as (e & Hin & -> & ->). by rewrite (wf_entries w W e Hin).
Qed.

(** The slots of a view, apart from all others. *)
Lemma view_apart w i s o :
  wf w -> views w !! i = Some (s, o) ->
  (forall a k, (a, k) ∈ actions_ w -> k <> s) /\
  (forall t o', (t, o') ∈ delete i (views w) -> t <> s /\ (t, o') ∈ views w) /\
  NoDup ((actions_ w).*2 ++ s :: (delete i (views w)).*1).
Proof.
  intros W Hi. pose proof (delete_Permutation _ _ _ Hi) as P. pose proof (wf_slots w W) as D.
  rewrite P in D. cbn [fmap list_fmap fst] in D. split_and!; [..|done].
  - intros a k Hk ->. apply list.NoDup_app in D as (_ & D & _). apply (D s).
    + apply list_elem_of_fmap. by exists (a, s).
    + by left.
  - intros t o' Ht. split; [|rewrite P; by right]. intros ->.
    apply list.NoDup_app in D as (_ & _ & D). apply list.NoDup_cons in D as [D _]. apply D.
    apply list_elem_of_fmap. by exists (s, o').
Qed.

(** A new view at the end of the slots. *)
Lemma new_slot_fresh w vs o :
  wf w -> vs.*1 ≡ₚ (views w).*1 -> NoDup ((actions_ w).*2 ++ (vs ++ [(length (slots (prog w)), o : option nat)]).*1).
Proof.
  intros W P. rewrite fmap_app, app_assoc, P. cbn [fmap list_fmap fst]. apply list.NoDup_app.
  split_and!; [apply W| |apply NoDup_singleton].
  intros k Hk ->%list_elem_of_singleton. pose proof (slot_bound w _ W Hk). lia.
Qed.

(** An operation of the registry gives a program that is well formed. *)
Lemma op_ok o p : program_ok p -> exists p', run_op o p = Defined p' /\ program_ok p'.
Proof. intros Hp. destruct (run_op_spec o p Hp) as (p' & E & S). exists p'. split; [done|apply S]. Qed.

Lemma CopyView_wf i w : wf w -> exists w', CopyView i w = Defined w' /\ wf w'.
Proof.
  intros W. unfold CopyView. destruct (views w !! i) as [[s o]|] eqn:Hi; [|by exists w].
  destruct (op_ok (OCopy s) (prog w) (wf_prog w W)) as (p & E & Hp). rewrite E.
  eexists. split; [done|]. destruct (copy_effect _ _ _ E) as (Hs & Hn & He).
  pose proof (wf_views w W _ _ (list_elem_of_lookup_2 _ _ _ Hi)) as Hv. rewrite Hv in Hs. cbn in Hs.
  apply wf_put_views; try done.
  - intros a k Hk. rewrite Hs. by apply lookup_app_l_Some, (wf_stored w W).
  - intros t o' [Ht|Ht%list_elem_of_singleton]%elem_of_app; rewrite Hs.
    + by apply lookup_app_l_Some, (wf_views w W).
    + simplify_eq. by rewrite lookup_app_r, Nat.sub_diag by lia.
  - by apply new_slot_fresh.
Qed.

Lemma MoveView_wf i w : wf w -> exists w', MoveView i w = Defined w' /\ wf w'.
Proof.
  intros W. unfold MoveView. destruct (views w !! i) as [[s o]|] eqn:Hi; [|by exists w].
  destruct (op_ok (OMove s) (prog w) (wf_prog w W)) as (p & E & Hp). rewrite E.
  eexists. split; [done|]. destruct (view_apart w i s o W Hi) as (A1 & A2 & _).
  pose proof (wf_views w W _ _ (list_elem_of_lookup_2 _ _ _ Hi)) as Hv.
  pose proof (lookup_lt_Some _ _ _ Hv) as Hlt.
  cbn in E. rewrite Hv in E. injection E as <-.
  pose proof (insert_cons_Permutation _ _ _ (s, None) Hi) as P.
  assert (length (<[s := None]> (slots (prog w))) = length (slots (prog w))) as L by apply length_insert.
  apply wf_put_views; cbn; try done.
  - intros e He. by exists e.
  - intros a k Hk. apply lookup_app_l_Some. rewrite list_lookup_insert_ne by (by apply not_eq_sym, (A1 a)).
    by apply (wf_stored w W).
  - intros t o' [Ht|Ht%list_elem_of_singleton]%elem_of_app.
    + rewrite P in Ht. apply elem_of_cons in Ht as [Ht|Ht].
      * simplify_eq. by apply lookup_app_l_Some, list_lookup_insert_eq.
      * destruct (A2 _ _ Ht) as [Hne Hin]. apply lookup_app_l_Some.
        rewrite list_lookup_insert_ne by done. by apply (wf_views w W).
    + simplify_eq. by rewrite lookup_app_r, L, Nat.sub_diag by lia.
  - apply new_slot_fresh; [done|]. rewrite P. rewrite (delete_Permutation _ _ _ Hi) at 2. done.
Qed.

Lemma AssignView_wf i j w : wf w -> exists w', AssignView i j w = Defined w' /\ wf w'.
Proof.
  intros W. unfold AssignView. destruct (views w !! i) as [[s o0]|] eqn:Hi; [|by exists w].
  destruct (views w !! j) as [[t o]|] eqn:Hj; [|by exists w].
  destruct (decide (i = j)) as [|Hij]; [by exists w|].
  destruct (op_ok (OAssignCopy s t) (prog w) (wf_prog w W)) as (p & E & Hp). rewrite E.
  eexists. split; [done|]. destruct (view_apart w i s o0 W Hi) as (A1 & A2 & D).
  pose proof (wf_views w W _ _ (list_elem_of_lookup_2 _ _ _ Hj)) as Hvt.
  pose proof (wf_views w W _ _ (list_elem_of_lookup_2 _ _ _ Hi)) as Hv.
  assert (t <> s) as Hts.
  { assert ((t, o) ∈ delete i (views w)) as Hd by (by eapply elem_of_delete_other).
    by destruct (A2 _ _ Hd). }
  destruct (assign_effect s t _ _ (not_eq_sym Hts) (lookup_lt_Some _ _ _ Hv) E) as (Hs & Hn & He).
  rewrite Hvt in Hs. cbn in Hs.
  pose proof (insert_cons_Permutation _ _ _ (s, o) Hi) as P.
  apply wf_put_views; try done.
  - intros a k Hk. rewrite Hs, list_lookup_insert_ne by (by apply not_eq_sym, (A1 a)).
    by apply (wf_stored w W).
  - intros u o' Hu. rewrite P in Hu. rewrite Hs. apply elem_of_cons in Hu as [Hu|Hu].
    + simplify_eq. by eapply list_lookup_insert_eq, lookup_lt_Some.
    + destruct (A2 _ _ Hu) as [Hne Hin]. rewrite list_lookup_insert_ne by done. by apply (wf_views w W).
  - by rewrite P.
Qed.

(** Putting a view into its own slot keeps the slots. *)
Lemma fst_insert (l : list (nat * option nat)) i s o o' :
  l !! i = Some (s, o) -> (<[i := (s, o')]> l).*1 = l.*1.
Proof. intros H. rewrite list_fmap_insert. apply list_insert_id. by rewrite list_lookup_fmap, H. Qed.

Lemma MoveAssignView_wf i j w : wf w -> exists w', MoveAssignView i j w = Defined w' /\ wf w'.
Proof.
  intros W. unfold MoveAssignView. destruct (views w !! i) as [[s o0]|] eqn:Hi; [|by exists w].
  destruct (views w !! j) as [[t o]|] eqn:Hj; [|by exists w].
  destruct (decide (i = j)) as [|Hij]; [by exists w|].
  destruct (op_ok (OAssignMove s t) (prog w) (wf_prog w W)) as (p & E & Hp). rewrite E.
  eexists. split; [done|].
  destruct (view_apart w i s o0 W Hi) as (A1 & A2 & _). destruct (view_apart w j t o W Hj) as (B1 & B2 & _).
  pose proof (wf_views w W _ _ (list_elem_of_lookup_2 _ _ _ Hj)) as Hvt.
  pose proof (wf_views w W _ _ (list_elem_of_lookup_2 _ _ _ Hi)) as Hv.
  assert (t <> s) as Hts by (apply (A2 t o); by eapply elem_of_delete_other).
  cbn [run_op] in E. rewrite decide_False, decide_True in E by (eauto using lookup_lt_Some).
  rewrite Hvt in E. cbn in E. injection E as <-.
  apply wf_put_views; cbn; try done.
  - intros e He. by exists e.
  - intros a k Hk. rewrite !list_lookup_insert_ne by (by apply not_eq_sym, (A1 a) || apply not_eq_sym, (B1 a)).
    by apply (wf_stored w W).
  - intros u o' (n & Hn)%list_elem_of_lookup.
    apply list_lookup_insert_Some in Hn as [(<- & [= <- <-] & _)|[Hni Hn]].
    { apply list_lookup_insert_eq. rewrite length_insert. by eapply lookup_lt_Some. }
    apply list_lookup_insert_Some in Hn as [(<- & [= <- <-] & _)|[Hnj Hn]].
    { rewrite list_lookup_insert_ne by done. by eapply list_lookup_insert_eq, lookup_lt_Some. }
    destruct (A2 u o') as [? _]; [by eapply elem_of_delete_other|].
    destruct (B2 u o') as [? Hin]; [by eapply elem_of_delete_other|].
    rewrite !list_lookup_insert_ne by done. by apply (wf_views w W).
  - rewrite (fst_insert _ i s o0) by (by rewrite list_lookup_insert_ne).
    rewrite (fst_insert _ j t o) by done. apply W.
Qed.

Lemma DropView_wf i w : wf w -> exists w', DropView i w = Defined w' /\ wf w'.
Proof.
  intros W. unfold DropView. destruct (views w !! i) as [[s o]|] eqn:Hi; [|by exists w].
  destruct (op_ok (ODestroy s) (prog w) (wf_prog w W)) as (p & E & Hp). rewrite E.
  eexists. split; [done|]. destruct (view_apart w i s o W Hi) as (A1 & A2 & D).
  destruct (destroy_effect _ _ _ E) as (Hs & Hn & He).
  apply wf_put_views; try done.
  - intros a k Hk. rewrite Hs, list_lookup_insert_ne by (by apply not_eq_sym, (A1 a)).
    by apply (wf_stored w W).
  - intros t o' Ht. destruct (A2 _ _ Ht) as [Hne Hin]. rewrite Hs, list_lookup_insert_ne by done.
    by apply (wf_views w W).
  - apply list.NoDup_app in D as (D1 & D2 & D3). apply list.NoDup_cons in D3 as [_ D3].
    apply list.NoDup_app. split_and!; [done| |done]. intros k Hk Hk'. apply (D2 k Hk). by right.
Qed.

(** The destructor of a stored action. *)
Lemma erase_effect k n p :
  program_ok p -> slots p !! k = Some (Some n) ->
  exists p', run_ops [OErase k; ODestroy k] p = Defined p' /\ program_ok p' /\
    slots p' = <[k := None]> (slots p) /\ next_node (registry p') = next_node (registry p) /\
    entries (fun m old => if decide (m = n) then None else old) p p'.
Proof.
  intros Hp Hk. cbn [run_ops]. destruct (op_ok (OErase k) p Hp) as (p1 & E1 & Hp1). rewrite E1.
  destruct (op_ok (ODestroy k) p1 Hp1) as (p2 & E2 & Hp2). rewrite E2.
  destruct (set_effect None k n p p1 Hk E1) as (S1 & N1 & A1).
  destruct (destroy_effect k p1 p2 E2) as (S2 & N2 & A2).
  exists p2. split_and!; [done|done|by rewrite S2, S1|by rewrite N2|].
  intros e2 H2. destruct (A2 e2 H2) as (e1 & H1 & -> & ->). destruct (A1 e1 H1) as (e & He & -> & ->).
  by exists e.
Qed.

Lemma Finish_wf i w : wf w -> exists w', Finish i w = Defined w' /\ wf w'.
Proof.
  intros W. unfold Finish. destruct (actions_ w !! i) as [[a k]|] eqn:Hi; [|by exists w].
  pose proof (wf_stored w W _ _ (list_elem_of_lookup_2 _ _ _ Hi)) as Hk.
  destruct (erase_effect k a (prog w) (wf_prog w W) Hk) as (p & E & Hp & Hs & Hn & He). rewrite E.
  eexists. split; [done|].
  pose proof (delete_Permutation _ _ _ Hi) as P.
  assert (forall b, b ∈ (actions_ w).*1 <-> b = a \/ b ∈ (delete i (actions_ w)).*1) as Q.
  { intros b. rewrite P at 1. cbn. by rewrite elem_of_cons. }
  pose proof (wf_unique w W) as U. rewrite P in U. cbn in U. apply list.NoDup_cons in U as [Ua U].
  pose proof (wf_slots w W) as D. rewrite P in D. cbn in D. apply list.NoDup_cons in D as [Dk D].
  split; cbn; try done.
  - by rewrite Hn, (wf_next w W).
  - intros b l Hb. rewrite Hs, list_lookup_insert_ne.
    + apply (wf_stored w W). rewrite P. by right.
    + intros ->. apply Dk, elem_of_app. left. apply list_elem_of_fmap. by exists (b, l).
  - intros t o Ht. rewrite Hs, list_lookup_insert_ne; [by apply (wf_views w W)|].
    intros ->. apply Dk, elem_of_app. right. apply list_elem_of_fmap. by exists (t, o).
  - intros e' He'. destruct (He e' He') as (e & Hin & -> & ->). unfold alive_action, stored. cbn.
    destruct (decide (node e = a)) as [->|Hne]; [by rewrite decide_False|].
    rewrite (wf_entries w W e Hin). unfold alive_action, stored.
    apply decide_ext. rewrite Q. split; [by intros [?|?]|by right].
Qed.

(** A new action with a view of it. *)
Definition grows (a : nat) (p p' : Program) : Prop :=
  forall e', e' ∈ action_list_ (registry p') ->
    (exists e, e ∈ action_list_ (registry p) /\ node e' = node e /\ action e' = action e) \/
    node e' = next_node (registry p) /\ action e' = Some a.

Lemma wf_new_action w p ss k v :
  let a := next_action w in
  wf w -> program_ok p -> slots p = slots (prog w) ++ ss -> next_node (registry p) = S a ->
  grows a (prog w) p -> (length (slots (prog w)) <= k)%nat -> (length (slots (prog w)) <= v)%nat -> k <> v ->
  slots p !! k = Some (Some a) -> slots p !! v = Some (Some a) ->
  wf {| prog := p; next_action := S a; actions_ := actions_ w ++ [(a, k)]; views := views w ++ [(v, Some a)] |}.
Proof.
  intros a W Hp Hs Hn Hg Lk Lv Hkv Hk Hv.
  assert (forall b, stored b (actions_ w) -> (b < a)%nat) as Hold.
  { intros b Hb. unfold stored in Hb. apply list_elem_of_fmap in Hb as ([b' l] & -> & Hb).
    destruct (slot_entry _ _ _ (wf_prog w W) (wf_stored w W _ _ Hb)) as (_ & _ & _ & _ & L).
    rewrite (wf_next w W) in L. done. }
  assert (forall b, b ∈ (actions_ w ++ [(a, k)]).*1 <-> b ∈ (actions_ w).*1 \/ b = a) as Q.
  { intros b. rewrite fmap_app, elem_of_app. cbn. by rewrite list_elem_of_singleton. }
  split; cbn; try done.
  - intros b l [Hb|Hb%list_elem_of_singleton]%elem_of_app; [|by simplify_eq].
    rewrite Hs. by apply lookup_app_l_Some, (wf_stored w W).
  - intros t o [Ht|Ht%list_elem_of_singleton]%elem_of_app; [|by simplify_eq].
    rewrite Hs. by apply lookup_app_l_Some, (wf_views w W).
  - intros e' He'. unfold alive_action, stored. cbn [actions_].
    destruct (Hg e' He') as [(e & Hin & -> & ->)|[-> ->]].
    + rewrite (wf_entries w W e Hin). unfold alive_action, stored. apply decide_ext.
      pose proof (nodes_old _ (wf_prog w W)) as Ho. rewrite list.Forall_forall in Ho. specialize (Ho e Hin).
      rewrite (wf_next w W) in Ho. fold a in Ho. rewrite Q. split; [by left|intros [?|?]; [done|lia]].
    + rewrite (wf_next w W). fold a. rewrite decide_True; [done|]. apply Q. by right.
  - rewrite fmap_app. apply list.NoDup_app. split_and!; [apply W| |apply NoDup_singleton].
    intros b Hb Hb2%list_elem_of_singleton. cbn in Hb2. specialize (Hold b Hb). lia.
  - rewrite !fmap_app. cbn [fmap list_fmap fst snd].
    assert (forall x, x ∈ (actions_ w).*2 ++ (views w).*1 -> x <> k /\ x <> v) as F.
    { intros x Hx. pose proof (slot_bound w x W Hx). lia. }
    rewrite <- app_assoc, (Permutation_app_comm [k]), <- app_assoc, app_assoc. cbn [app].
    apply list.NoDup_app. split_and!; [apply W| |].
    + intros x Hx Hx'. destruct (F x Hx).
      by apply elem_of_cons in Hx' as [?|?%list_elem_of_singleton].
    + apply list.NoDup_cons. split; [by intros ?%list_elem_of_singleton|apply NoDup_singleton].
Qed.

Lemma view_of_ok k n a p :
  program_ok p -> slots p !! k = Some (Some n) ->
  (forall e, e ∈ action_list_ (registry p) -> node e = n -> action e = Some a) ->
  exists p', view_of k p = Defined p' /\ program_ok p' /\ slots p' = slots p ++ [Some n] /\
    next_node (registry p') = next_node (registry p) /\ entries same p p'.
Proof.
  intros Hp Hk Ha. unfold view_of. destruct (slot_entry p k n Hp Hk) as (e & Hf & He & Hn & _).
  rewrite Hk. cbn [default from_option id get]. rewrite Hf, (Ha e He Hn).
  destruct (op_ok (OCopy k) p Hp) as (p' & E & Hp'). exists p'.
  destruct (copy_effect k p p' E) as (Hs & Hnx & Hent). rewrite Hk in Hs. by split_and!.
Qed.

Lemma grows_same a p p1 p2 : grows a p p1 -> entries same p1 p2 -> grows a p p2.
Proof. intros G E e He. destruct (E e He) as (e1 & H1 & -> & ->). by apply G. Qed.

Lemma grows_retarget a t p p1 p2 :
  program_ok p -> next_node (registry p) = a -> grows t p p1 ->
  entries (fun m old => if decide (m = a) then Some a else old) p1 p2 -> grows a p p2.
Proof.
  intros Hp Ha G E e He. destruct (E e He) as (e1 & H1 & -> & ->).
  destruct (G e1 H1) as [(e0 & H0 & -> & ->)|[-> _]]; [left|right].
  - exists e0. split_and!; [done..|]. rewrite decide_False; [done|].
    pose proof (nodes_old p Hp) as Ho. rewrite list.Forall_forall in Ho. specialize (Ho e0 H0). lia.
  - by rewrite Ha, decide_True.
Qed.

Lemma grows_action a p p' e :
  program_ok p -> grows a p p' -> e ∈ action_list_ (registry p') -> node e = next_node (registry p) ->
  action e = Some a.
Proof.
  intros Hp G He Hn. destruct (G e He) as [(e0 & H0 & N & _)|[_ A]]; [|done].
  pose proof (nodes_old p Hp) as Ho. rewrite list.Forall_forall in Ho. specialize (Ho e0 H0). lia.
Qed.

Lemma Emplace_wf w : wf w -> exists w', Emplace w = Defined w' /\ wf w'.
Proof.
  intros W. unfold Emplace. set (a := next_action w). set (k := length (slots (prog w))).
  destruct (op_ok (ORegister a) _ (wf_prog w W)) as (p1 & E1 & Hp1). rewrite E1.
  destruct (register_effect _ _ _ E1) as (S1 & N1 & G1). rewrite (wf_next w W) in S1, N1. fold a in S1, N1.
  assert (slots p1 !! k = Some (Some a)) as K1 by (rewrite S1, lookup_app_r, Nat.sub_diag by lia; done).
  destruct (view_of_ok k a a p1 Hp1 K1) as (p2 & E2 & Hp2 & S2 & N2 & A2).
  { intros e He Hn. eapply grows_action; [apply W|exact G1|done|by rewrite (wf_next w W)]. }
  rewrite E2. eexists. split; [done|].
  apply (wf_new_action w p2 [Some a; Some a] k (S k)); try done; try lia.
  - by rewrite S2, S1, <- app_assoc.
  - by eapply grows_same.
  - rewrite S2. by apply lookup_app_l_Some.
  - rewrite S2, lookup_app_r; rewrite S1, length_app; cbn; fold k; [|lia].
    by replace (S k - (k + 1))%nat with O by lia.
Qed.

(** The handle of an action that was moved from does nothing. *)
Lemma moved_from_gone k p :
  slots p !! k = Some None -> run_ops [OErase k; ODestroy k] p = Defined p.
Proof.
  intros Hk. cbn. rewrite Hk. cbn. rewrite Hk. cbn. rewrite list_insert_id by done. by destruct p.
Qed.

Lemma Add_wf t w : wf w -> exists w', Add t w = Defined w' /\ wf w'.
Proof.
  intros W. unfold Add. set (a := next_action w). set (k := length (slots (prog w))). cbn [run_ops].
  destruct (op_ok (ORegister t) _ (wf_prog w W)) as (p1 & E1 & Hp1). rewrite E1.
  destruct (register_effect _ _ _ E1) as (S1 & N1 & G1). rewrite (wf_next w W) in S1, N1. fold a in S1, N1.
  destruct (op_ok (OMove k) _ Hp1) as (p2 & E2 & Hp2). rewrite E2.
  assert (slots p2 = slots (prog w) ++ [None; Some a] /\ registry p2 = registry p1) as [S2 R2].
  { cbn in E2. rewrite S1, lookup_app_r, Nat.sub_diag in E2 by lia. injection E2 as <-. split; [|done].
    cbn. rewrite insert_app_r_alt, Nat.sub_diag by lia. by rewrite <- app_assoc. }
  assert (slots p2 !! S k = Some (Some a)) as K2
    by (rewrite S2, lookup_app_r by lia; fold k; by replace (S k - k)%nat with 1%nat by lia).
  destruct (op_ok (ORetarget (S k) a) _ Hp2) as (p3 & E3 & Hp3). rewrite E3.
  destruct (set_effect (Some a) (S k) a p2 p3 K2 E3) as (S3 & N3 & A3).
  assert (grows a (prog w) p3) as G3.
  { eapply grows_retarget; [apply W|by apply (wf_next w W)| |exact A3]. intros e He. rewrite R2 in He. by apply G1. }
  destruct (view_of_ok (S k) a a p3 Hp3) as (p4 & E4 & Hp4 & S4 & N4 & A4); [by rewrite S3| |].
  { intros e He Hn. eapply grows_action; [apply W|exact G3|done|by rewrite (wf_next w W)]. }
  rewrite E4. assert (slots p4 = slots (prog w) ++ [None; Some a; Some a]) as S4'
    by (by rewrite S4, S3, S2, <- app_assoc).
  pose proof (moved_from_gone k p4) as M. cbn [run_ops] in M. rewrite M; clear M.
  2: { by rewrite S4', lookup_app_r, Nat.sub_diag by lia. }
  eexists. split; [done|].
  apply (wf_new_action w p4 [None; Some a; Some a] (S k) (S (S k))); try done; try lia.
  - by rewrite N4, N3, R2.
  - by eapply grows_same.
  - rewrite S4', lookup_app_r by lia. fold k. by replace (S k - k)%nat with 1%nat by lia.
  - rewrite S4', lookup_app_r by lia. fold k. by replace (S (S k) - k)%nat with 2%nat by lia.
Qed.

Lemma steps_wf os : forall w, wf w -> exists w', steps os w = Defined w' /\ wf w'.
Proof.
  induction os as [|o os IH]; intros w W; [by exists w|]. cbn [steps].
  assert (exists w1, step o w = Defined w1 /\ wf w1) as (w1 & -> & W1)
    by (destruct o; eauto using Emplace_wf, Add_wf, Finish_wf, CopyView_wf, MoveView_wf, AssignView_wf,
      MoveAssignView_wf, DropView_wf).
  by apply IH.
Qed.

Lemma new_list_wf : wf new_world.
Proof.
  split; [apply new_program_ok|done|..]; cbn; first
    [by constructor | intros e H; by apply elem_of_nil in H | intros x y H; by apply elem_of_nil in H].
Qed.

(** C24: Whatever is done with a list of actions, the views of its actions and the
    actions themselves, nothing dangles, and a view gives its action as long as the
    action is stored and nothing once it is finished, however often the view was
    copied, moved or assigned. *)
Theorem view_follows_action os :
  exists w, steps os new_world = Defined w /\
  forall s o, (s, o) ∈ views w ->
    view_get s w = Defined match o with
                           | Some a => if decide (stored a (actions_ w)) then Some a else None
                           | None => None
                           end.
Proof.
  destruct (steps_wf os _ new_list_wf) as (w & E & W). exists w. split; [done|].
  intros s o Hs. by rewrite (view_get_spec w s o W Hs).
Qed.

End ActionListProperties.
