(* ===== verification/P2pStream.v ===== *)
(** * The stream to another client ([client_messages/p2p_message_stream.*])

    A [P2pStream] reads from the stream of its destination in the client's own
    cloud connection and writes through one in the cloud of the destination, which
    is looked up first.  What is written until then waits in its buffer gate.  The
    gates of both directions are joined in a [ParallelGate], which answers for the
    write gate, and is told of updates by both.

    The cloud connections are those of [ClientConnections], the buffer gate is that
    of [BufferGate]; the gate of the destination to write to is a parameter of the
    operations: its [stream_info] is an argument, what is written to it is an
    output.  Only actions and events in between are operations; writing through a
    gate without an out gate is [Undefined]. *)

From stdpp Require Import gmap.
From S2P Require Import Prelude StateMachine BufferGate ServerList ClientConnections TcpTransports.
Import Connections.

#[local] Set Warnings "-notation-overridden".

Module P2pStream.
Import StreamWrite.

(** The gate the stream is tied to is that of its destination in a cloud
    connection; [send_info_] is what the one to write to answers now. *)
Record P2pStream := {
  destination_ : Z;
  stream_id_ : Z;
  receive_client_connection_ : option nat;
  send_client_connection_ : option nat;
  buffer_gate_ : Gate.BufferGate;
  receive_stream_ : bool;
  send_stream_ : option nat;
  send_info_ : StreamInfo;
}.

(** What leaves the stream: to the gate behind it, with its cloud connection, and
    to the user. *)
Inductive output :=
  | SendWrite (connection : nat) (data : bytes) (current_time : TimePoint)
  | Received (data : bytes)
  | Local (e : Gate.effect).

(** [ParallelGate::stream_info]: that of the write gate, which has none before it
    is linked. *)
Definition parallel_info (s : P2pStream) : StreamInfo :=
  match send_stream_ s with Some _ => send_info_ s | None => no_info end.

(** [ParallelGate::Write] of the writes of the buffer gate. *)
Fixpoint parallel_writes (s : P2pStream) (es : list Gate.effect) : outcome (list output) :=
  match es with
  | [] => Defined []
  | Gate.OutWrite data t :: es =>
      match send_stream_ s with
      | Some k => let* os := parallel_writes s es in Defined (SendWrite k data t :: os)
      | None => Undefined
      end
  | e :: es => let* os := parallel_writes s es in Defined (Local e :: os)
  end.

Definition with_gate (g : Gate.BufferGate) (s : P2pStream) : P2pStream :=
  {| destination_ := destination_ s; stream_id_ := stream_id_ s;
     receive_client_connection_ := receive_client_connection_ s;
     send_client_connection_ := send_client_connection_ s; buffer_gate_ := g;
     receive_stream_ := receive_stream_ s; send_stream_ := send_stream_ s; send_info_ := send_info_ s |}.

(** An operation of the buffer gate. *)
Definition gate_step (o : Gate.operation) (s : P2pStream) : outcome (P2pStream * list output) :=
  let* (g, es) := Gate.exec o (buffer_gate_ s) in
  let* os := parallel_writes s es in
  Defined (with_gate g s, os).

(** The update event of the parallel gate, from either of its gates. *)
Definition parallel_update (s : P2pStream) : outcome (P2pStream * list output) :=
  gate_step (Gate.OpUpdateGate (parallel_info s)) s.

(** *** Constructors *)

Definition members (destination stream_id : Z) (k : nat) (buffer_max : Z) : P2pStream :=
  {| destination_ := destination; stream_id_ := stream_id; receive_client_connection_ := Some k;
     send_client_connection_ := None;
     buffer_gate_ := (Gate.LinkOut (Gate.buffer_gate buffer_max)).1;
     receive_stream_ := false; send_stream_ := None; send_info_ := no_info |}.

(** The read gate is linked to its stream, and tells of it. *)
Definition tie_receive (s : P2pStream) : outcome (P2pStream * list output) :=
  parallel_update
    {| destination_ := destination_ s; stream_id_ := stream_id_ s;
       receive_client_connection_ := receive_client_connection_ s;
       send_client_connection_ := send_client_connection_ s; buffer_gate_ := buffer_gate_ s;
       receive_stream_ := true; send_stream_ := send_stream_ s; send_info_ := send_info_ s |}.

(** The first constructor, with [ConnectReceive]; [k] is the client's own cloud
    connection.  [ConnectSend] asks for the cloud of the destination. *)
Definition new_stream (k : nat) (destination stream_id : Z) (w : World)
  : outcome (P2pStream * list output * World) :=
  let* w := CreateStream k destination stream_id w in
  let* (s, os) := tie_receive (members destination stream_id k (20 * 1024)) in
  Defined (s, os, w).

(** The second one gets the stream to read from. *)
Definition received_stream (k : nat) (destination stream_id : Z) : outcome (P2pStream * list output) :=
  tie_receive (members destination stream_id k 100).

(** The result of [ConnectSend], with [TieSendStream]: [k] is the connection to
    the cloud of the destination, [info] what the gate of the destination
    answers. *)
Definition OnSendConnection (k : nat) (info : StreamInfo) (s : P2pStream) (w : World)
  : outcome (P2pStream * list output * World) :=
  let* w := CreateStream k (destination_ s) (stream_id_ s) w in
  let* (s, os) := parallel_update
    {| destination_ := destination_ s; stream_id_ := stream_id_ s;
       receive_client_connection_ := receive_client_connection_ s;
       send_client_connection_ := Some k; buffer_gate_ := buffer_gate_ s;
       receive_stream_ := receive_stream_ s; send_stream_ := Some k; send_info_ := info |} in
  Defined (s, os, w).

(** The destructor: the stream is closed in both connections. *)
Definition close_in (k : option nat) (s : P2pStream) (w : World) : outcome World :=
  match k with Some k => CloseStream k (destination_ s) (stream_id_ s) w | None => Defined w end.

Definition destroy (s : P2pStream) (w : World) : outcome World :=
  let* w := close_in (receive_client_connection_ s) s w in
  close_in (send_client_connection_ s) s w.

(** *** Operations: [OpGate] are writes and what happens to them. *)
Inductive op :=
  | OpGate (o : Gate.operation)
  | OpSendUpdate (info : StreamInfo)
  | OpReceiveUpdate
  | OpReceive (data : bytes)
  | OpConnected (k : nat) (info : StreamInfo).

(** Updates of the gates behind the stream are their own operations, and the
    gate is linked once. *)
Definition user_op (o : Gate.operation) : bool :=
  match o with Gate.OpLinkOut | Gate.OpUpdateGate _ => false | _ => true end.

Definition step (o : op) (s : P2pStream) (w : World) : outcome (P2pStream * list output * World) :=
  match o with
  | OpGate o => if user_op o then let* (s, os) := gate_step o s in Defined (s, os, w) else Defined (s, [], w)
  | OpSendUpdate info =>
      match send_stream_ s with
      | None => Defined (s, [], w)
      | Some _ =>
          let* (s, os) := parallel_update
            {| destination_ := destination_ s; stream_id_ := stream_id_ s;
               receive_client_connection_ := receive_client_connection_ s;
               send_client_connection_ := send_client_connection_ s; buffer_gate_ := buffer_gate_ s;
               receive_stream_ := receive_stream_ s; send_stream_ := send_stream_ s; send_info_ := info |} in
          Defined (s, os, w)
      end
  | OpReceiveUpdate => let* (s, os) := parallel_update s in Defined (s, os, w)
  | OpReceive data => Defined (s, if receive_stream_ s then [Received data] else [], w)
  | OpConnected k info =>
      (* the action answers once *)
      match send_client_connection_ s with
      | Some _ => Defined (s, [], w)
      | None => OnSendConnection k info s w
      end
  end.

Fixpoint steps (ops : list op) (s : P2pStream) (w : World) : outcome (P2pStream * list output * World) :=
  match ops with
  | [] => Defined (s, [], w)
  | o :: ops =>
      let* (s, os, w) := step o s w in
      let* (s, os', w) := steps ops s w in
      Defined (s, os ++ os', w)
  end.

End P2pStream.

Module P2pStreamProperties.
Import StreamWrite BufferGateProperties P2pStream.

(** ** The buffer gate behind a linked gate *)

Lemma SetSoftWriteable_keeps b g :
  Gate.out_ (Gate.SetSoftWriteable b g).1 = Gate.out_ g /\
  Gate.last_out_stream_info_ (Gate.SetSoftWriteable b g).1 = Gate.last_out_stream_info_ g /\
  out_writes (Gate.SetSoftWriteable b g).2 = [].
Proof. unfold Gate.SetSoftWriteable. by destruct (eqb _ b). Qed.

Lemma DrainBuffer_keeps g :
  Gate.out_ (Gate.DrainBuffer g).1 = Gate.out_ g /\
  Gate.last_out_stream_info_ (Gate.DrainBuffer g).1 = Gate.last_out_stream_info_ g /\
  (is_writeble (Gate.last_out_stream_info_ g) = false -> out_writes (Gate.DrainBuffer g).2 = []).
Proof.
  unfold Gate.DrainBuffer. destruct (Gate.drain _ _) as [l es] eqn:E. split_and!; [done|done|].
  intros W. rewrite W, drain_false in E. by simplify_eq.
Qed.

(** What an operation of a linked gate gives. *)
Record linked_spec (g g' : Gate.BufferGate) (es : list Gate.effect) : Prop := {
  ls_out : Gate.out_ g' = true;
  ls_info : Gate.last_out_stream_info_ g' = Gate.last_out_stream_info_ g;
  ls_quiet : is_writeble (Gate.last_out_stream_info_ g) = false -> out_writes es = [];
}.

Lemma finish_linked n e g :
  Gate.out_ g = true -> exists g' es, Gate.finish n e g = Defined (g', es) /\ linked_spec g g' es.
Proof.
  intros O. unfold Gate.finish, Gate.remove_action.
  set (g0 := Gate.with_buffer _ g). pose proof (SetSoftWriteable_keeps true g0) as (S1 & S2 & S3).
  destruct (Gate.SetSoftWriteable true g0) as [g1 es1]. cbn [fst snd] in *.
  change (Gate.out_ g0) with (Gate.out_ g) in S1. rewrite S1, O.
  pose proof (DrainBuffer_keeps g1) as (D1 & D2 & D3). destruct (Gate.DrainBuffer g1) as [g2 es2].
  cbn [fst snd] in *. eexists _, _. split; [done|]. split.
  - by rewrite D1, S1.
  - by rewrite D2, S2.
  - intros W. rewrite S2 in D3. cbn. by rewrite out_writes_app, S3, D3.
Qed.

Lemma linked_keeps g g' es :
  Gate.out_ g = true -> Gate.out_ g' = Gate.out_ g ->
  Gate.last_out_stream_info_ g' = Gate.last_out_stream_info_ g -> out_writes es = [] -> linked_spec g g' es.
Proof. intros O E1 E2 E3. by split; [congruence|..]. Qed.

Lemma Write_linked data t g :
  Gate.out_ g = true -> exists g' es v, Gate.Write data t g = Defined (g', es, v) /\ linked_spec g g' es.
Proof.
  intros O. unfold Gate.Write. rewrite O.
  destruct ((negb _ || negb _) || _) eqn:B.
  - destruct (negb (is_soft_writable _)); [eexists _, _, _; split; [done|by apply linked_keeps]|].
    set (g0 := {| Gate.out_ := true; Gate.buffer_max_ := _; Gate.stream_info_ := _;
                  Gate.last_out_stream_info_ := _; Gate.write_in_buffer_ := _; Gate.next_node := _ |}).
    pose proof (SetSoftWriteable_keeps false g0) as (S1 & S2 & S3).
    destruct (zlen (Gate.write_in_buffer_ g0) =? Gate.buffer_max_ g0);
      [|exists g0, [], (Gate.BufferedWrite (Gate.next_node g)); split; [done|by apply linked_keeps]].
    destruct (Gate.SetSoftWriteable false g0) as [g1 es1]. cbn [fst snd] in *.
    exists g1, es1, (Gate.BufferedWrite (Gate.next_node g)). split; [done|].
    apply linked_keeps; [done|by rewrite S1|done|done].
  - eexists _, _, _. split; [done|]. split; [done|done|]. intros W. rewrite W in B. done.
Qed.

Lemma exec_linked o g :
  Gate.out_ g = true -> user_op o = true ->
  exists g' es, Gate.exec o g = Defined (g', es) /\ linked_spec g g' es.
Proof.
  intros O U. destruct o as [data t| |i|n|n|n s|n e]; try done; cbn [Gate.exec].
  - destruct (Write_linked data t g O) as (g' & es & v & -> & S). by eexists _, _.
  - destruct (Gate.find_action n g) as [a|]; [|eexists _, _; split; [done|by apply linked_keeps]].
    unfold Gate.action_stop. destruct (Gate.write_action_ a); eexists _, _; (split; [done|by apply linked_keeps]).
  - destruct (Gate.find_action n g) as [a|]; [|eexists _, _; split; [done|by apply linked_keeps]].
    destruct (Gate.action_update a) as [a' [e|]]; [|eexists _, _; split; [done|by apply linked_keeps]].
    destruct (finish_linked n e (Gate.put_action a' g) O) as (g' & es & -> & [S1 S2 S3]).
    eexists _, _. split; [done|]. by split.
  - destruct (Gate.find_action n g) as [a|]; [|eexists _, _; split; [done|by apply linked_keeps]].
    destruct (Gate.is_sent_ a); eexists _, _; (split; [done|by apply linked_keeps]).
  - destruct (Gate.find_action n g) as [a|]; [|eexists _, _; split; [done|by apply linked_keeps]].
    destruct (Gate.is_sent_ a); [|eexists _, _; split; [done|by apply linked_keeps]].
    destruct (finish_linked n e (Gate.put_action (Gate.set_state (SM.Acquire (Gate.state_ a)).2 a) g) O)
      as (g' & es & -> & [S1 S2 S3]).
    eexists _, _. split; [done|]. by split.
Qed.

Lemma info_eqb_eq i j : info_eqb i j = true -> i = j.
Proof.
  unfold info_eqb. rewrite !andb_true_iff, Z.eqb_eq. intros (((E1 & E2) & E3) & E4).
  apply eqb_prop in E2, E3, E4. destruct i, j. cbn in *. by subst.
Qed.

Lemma update_linked i g :
  Gate.out_ g = true ->
  exists g' es, Gate.exec (Gate.OpUpdateGate i) g = Defined (g', es) /\ Gate.out_ g' = true /\
    Gate.last_out_stream_info_ g' = i /\ (is_writeble i = false -> out_writes es = []).
Proof.
  intros O. cbn [Gate.exec]. unfold Gate.UpdateGate. rewrite O.
  match goal with |- context [if negb ?b then ?x else ?y] =>
    assert (exists g1 es1, (if negb b then x else y) = (g1, es1) /\ Gate.out_ g1 = true /\
              Gate.last_out_stream_info_ g1 = i /\ out_writes es1 = []) as (g1 & es1 & -> & O1 & L1 & W1)
  end.
  { destruct (info_eqb _ i) eqn:E; cbn [negb].
    - apply info_eqb_eq in E. by eexists _, _.
    - by eexists _, _. }
  destruct (is_linked _); [|by eexists _, _].
  pose proof (DrainBuffer_keeps g1) as (D1 & D2 & D3). destruct (Gate.DrainBuffer g1) as [g2 es2].
  cbn [fst snd] in *. eexists _, _. split; [done|]. split_and!; [congruence|congruence|].
  intros W. rewrite L1 in D3. by rewrite out_writes_app, W1, D3.
Qed.

(** An update to a gate that can be written to leaves nothing waiting. *)
Lemma update_drains i g g' es :
  Gate.out_ g = true -> Gate.last_out_stream_info_ g = no_info ->
  is_linked i = true -> is_writeble i = true ->
  Gate.exec (Gate.OpUpdateGate i) g = Defined (g', es) -> waiting (Gate.write_in_buffer_ g') = [].
Proof.
  intros O N L W. cbn [Gate.exec]. unfold Gate.UpdateGate. rewrite O, N.
  assert (info_eqb no_info i = false) as E by (unfold info_eqb; rewrite L; by destruct (max_element_size no_info =? max_element_size i)).
  rewrite E. cbn [negb Gate.stream_info_ is_linked]. rewrite L.
  set (g1 := {| Gate.out_ := _; Gate.buffer_max_ := _; Gate.stream_info_ := _; Gate.last_out_stream_info_ := i;
                Gate.write_in_buffer_ := _; Gate.next_node := _ |}).
  destruct (Gate.DrainBuffer g1) as [g2 es2] eqn:D. intros ?. simplify_eq.
  destruct (DrainBuffer_spec _ _ _ D) as (_ & X & _). by apply X.
Qed.

(** ** The stream *)

(** What was written behind the stream, and through which connection. *)
Definition sent (os : list output) : list (bytes * TimePoint) :=
  omap (fun o => match o with SendWrite _ d t => Some (d, t) | _ => None end) os.

Definition sent_through (os : list output) : list nat :=
  omap (fun o => match o with SendWrite k _ _ => Some k | _ => None end) os.

Definition inv (s : P2pStream) : Prop :=
  Gate.out_ (buffer_gate_ s) = true /\
  (send_stream_ s = None -> Gate.last_out_stream_info_ (buffer_gate_ s) = no_info) /\
  send_stream_ s = send_client_connection_ s.

Lemma parallel_writes_spec s es :
  (send_stream_ s = None -> out_writes es = []) ->
  exists os, parallel_writes s es = Defined os /\ sent os = out_writes es /\
    Forall (fun k => send_stream_ s = Some k) (sent_through os).
Proof.
  induction es as [|e es IH]; intros Q; [by exists []|].
  destruct IH as (os & E & S & F).
  { intros N. specialize (Q N). unfold out_writes in *. cbn in Q. by apply app_nil in Q as [_ Q]. }
  destruct e as [d t| | | |]; cbn [parallel_writes]; [|rewrite E; by eexists..].
  destruct (send_stream_ s) as [k|] eqn:Hk; [|by specialize (Q eq_refl)].
  rewrite E. eexists. split; [done|]. split; [|by constructor].
  unfold sent, out_writes in *. cbn. by rewrite S.
Qed.

(** What the operation adds to the accepted writes. *)
Definition accepted_by (o : op) (s : P2pStream) : list (bytes * TimePoint) :=
  match o with
  | OpGate o => if user_op o then accepts o (buffer_gate_ s) else []
  | _ => []
  end.

Definition no_stop (o : op) : bool := match o with OpGate o => negb (is_stop o) | _ => true end.

(** The stream makes the steps of its buffer gate. *)
Record sim (acc : list (bytes * TimePoint)) (quiet : bool) (s s' : P2pStream) (os : list output) : Prop := {
  sim_inv : inv s';
  sim_run : exists gops, (forall a wr,
    run gops {| gate := buffer_gate_ s; accepted := a; written := wr |}
    = Defined {| gate := buffer_gate_ s'; accepted := a ++ acc; written := wr ++ sent os |}) /\
    (quiet = true -> forallb (fun o => negb (is_stop o)) gops = true);
  sim_through : Forall (fun k => send_stream_ s' = Some k) (sent_through os);
  sim_stays : forall k, send_stream_ s = Some k -> send_stream_ s' = Some k;
}.

Lemma sim_idle s os : inv s -> sent os = [] -> sent_through os = [] -> sim [] true s s os.
Proof.
  intros I E1 E2. split; [done| |by rewrite E2|done]. exists []. split; [|done]. intros a wr. cbn.
  by rewrite E1, !app_nil_r.
Qed.

(** A step of the gate, with what is written passed on. *)
Lemma gate_sim o s g es :
  Gate.exec o (buffer_gate_ s) = Defined (g, es) -> Gate.out_ g = true ->
  (send_stream_ s = None -> Gate.last_out_stream_info_ g = no_info /\ out_writes es = []) ->
  send_stream_ s = send_client_connection_ s ->
  exists os, gate_step o s = Defined (with_gate g s, os) /\
    sim (accepts o (buffer_gate_ s)) (negb (is_stop o)) s (with_gate g s) os.
Proof.
  intros E O N C. unfold gate_step. rewrite E.
  destruct (parallel_writes_spec s es) as (os & -> & S & F); [intros; by apply N|].
  exists os. split; [done|]. split; [|..|done|done].
  - split; [done|]. split; [|done]. intros H. by apply N.
  - exists [o]. split.
    + intros a wr. cbn [run gate accepted written]. rewrite E. by rewrite S.
    + cbn. by intros ->.
Qed.

Lemma user_sim o s :
  inv s -> user_op o = true ->
  exists s' os, gate_step o s = Defined (s', os) /\ sim (accepts o (buffer_gate_ s)) (negb (is_stop o)) s s' os.
Proof.
  intros (O & N & C) U. destruct (exec_linked o _ O U) as (g & es & E & [L1 L2 L3]).
  destruct (gate_sim o s g es E L1) as (os & G & S); [|done|by eexists _, _].
  intros H. rewrite L2, (N H) in *. split; [done|by apply L3].
Qed.

(** An update of the parallel gate after the send stream changed to [k]. *)
Lemma update_sim s s1 :
  inv s -> buffer_gate_ s1 = buffer_gate_ s -> send_stream_ s1 = send_client_connection_ s1 ->
  (forall k, send_stream_ s = Some k -> send_stream_ s1 = Some k) ->
  exists s' os, parallel_update s1 = Defined (s', os) /\ sim [] true s s' os /\
    send_stream_ s' = send_stream_ s1 /\ Gate.last_out_stream_info_ (buffer_gate_ s') = parallel_info s1.
Proof.
  intros (O & _ & _) B C K. rewrite <- B in O.
  destruct (update_linked (parallel_info s1) _ O) as (g & es & E & O' & L & W).
  destruct (gate_sim _ s1 g es E O') as (os & G & [S1 S2 S3 S4]); [|done|].
  { unfold parallel_info in *. intros H. rewrite H in *. split; [done|by apply W]. }
  exists (with_gate g s1), os. split; [done|]. split; [|done]. split; [done| |done|].
  - destruct S2 as (gops & R & Q). exists gops. rewrite B in R. split; [|done]. exact R.
  - intros k Hk. by apply S4, K.
Qed.

Lemma step_sim o s w :
  inv s ->
  match step o s w with
  | Defined (s', os, w') => sim (accepted_by o s) (no_stop o) s s' os
  | Undefined => exists k info, o = OpConnected k info /\ send_client_connection_ s = None /\
      CreateStream k (destination_ s) (stream_id_ s) w = Undefined
  end.
Proof.
  intros I. pose proof I as (O & N & C). destruct o as [o|info| |data|k info]; cbn [step accepted_by no_stop].
  - destruct (user_op o) eqn:U.
    + by destruct (user_sim o s I U) as (s' & os & -> & S).
    + pose proof (sim_idle s [] I eq_refl eq_refl) as [S1 (gops & R & Q) S3 S4].
      split; try done. exists gops. split; [done|by intros; apply Q].
  - destruct (send_stream_ s) as [k|] eqn:K; [|by apply sim_idle].
    destruct (update_sim s {| destination_ := destination_ s; stream_id_ := stream_id_ s;
       receive_client_connection_ := receive_client_connection_ s;
       send_client_connection_ := send_client_connection_ s; buffer_gate_ := buffer_gate_ s;
       receive_stream_ := receive_stream_ s; send_stream_ := Some k; send_info_ := info |})
      as (s' & os & -> & S & _); [done|done|done|by intros ? <-|done].
  - by destruct (update_sim s s) as (s' & os & -> & S & _).
  - apply sim_idle; [done|by destruct (receive_stream_ s)..].
  - destruct (send_client_connection_ s) as [k0|] eqn:K; [by apply sim_idle|].
    unfold OnSendConnection. destruct (CreateStream _ _ _ _) as [w1|] eqn:E; [|by eexists _, _].
    match goal with |- context [parallel_update ?s1] =>
      destruct (update_sim s s1) as (s' & os & -> & S & _) end; [done|done|done| |done].
    intros k' Hk. congruence.
Qed.

(** The writes accepted along a run. *)
Fixpoint accepted_along (ops : list op) (s : P2pStream) (w : World) : list (bytes * TimePoint) :=
  match ops with
  | [] => []
  | o :: ops =>
      accepted_by o s ++
      match step o s w with Defined (s', _, w') => accepted_along ops s' w' | Undefined => [] end
  end.

Lemma gate_run_app gops1 gops2 h :
  run (gops1 ++ gops2) h = let* h := run gops1 h in run gops2 h.
Proof.
  revert h. induction gops1 as [|o gops1 IH]; intros h; [done|]. cbn [run app].
  destruct (Gate.exec o (gate h)) as [[g es]|]; [apply IH|done].
Qed.

Lemma sim_trans acc1 acc2 q1 q2 s1 s2 s3 os1 os2 :
  sim acc1 q1 s1 s2 os1 -> sim acc2 q2 s2 s3 os2 -> sim (acc1 ++ acc2) (q1 && q2) s1 s3 (os1 ++ os2).
Proof.
  intros [I1 (g1 & R1 & Q1) T1 K1] [I2 (g2 & R2 & Q2) T2 K2]. split; [done| | |by eauto].
  - exists (g1 ++ g2). split.
    + intros a wr. rewrite gate_run_app, R1, R2. unfold sent. by rewrite omap_app, !app_assoc.
    + intros [Ha Hb]%andb_true_iff. rewrite forallb_app, Q1, Q2; done.
  - unfold sent_through. rewrite omap_app. apply Forall_app. split; [|done].
    eapply list.Forall_impl; [exact T1|]. cbn. intros k Hk. by apply K2.
Qed.

Lemma steps_sim ops : forall s w s' os w',
  inv s -> steps ops s w = Defined (s', os, w') ->
  sim (accepted_along ops s w) (forallb no_stop ops) s s' os.
Proof.
  induction ops as [|o ops IH]; intros s w s' os w' I; cbn [steps accepted_along forallb].
  { intros ?. simplify_eq. by apply sim_idle. }
  pose proof (step_sim o s w I) as S. destruct (step o s w) as [[[s1 os1] w1]|]; [|done].
  destruct (steps ops s1 w1) as [[[s2 os2] w2]|] eqn:E; [|done]. intros ?. simplify_eq.
  eapply sim_trans; [done|]. eapply IH; [apply S|done].
Qed.

(** ** New streams *)

(** The stream after one of the constructors. *)
Definition created (buffer_max : Z) (s : P2pStream) : Prop :=
  exists destination stream_id k os,
    tie_receive (members destination stream_id k buffer_max) = Defined (s, os).

Lemma new_stream_created k destination stream_id w s os w' :
  new_stream k destination stream_id w = Defined (s, os, w') -> created (20 * 1024) s.
Proof.
  unfold new_stream. destruct (CreateStream _ _ _ _); [|done].
  destruct (tie_receive _) as [[s1 os1]|] eqn:E; [|done]. intros ?. simplify_eq. by eexists _, _, _, _.
Qed.

Lemma received_stream_created k destination stream_id s os :
  received_stream k destination stream_id = Defined (s, os) -> created 100 s.
Proof. intros E. by eexists _, _, _, _. Qed.

Lemma sent_nil os : sent_through os = [] -> sent os = [].
Proof.
  unfold sent, sent_through. induction os as [|[k d t|d|e] os IH]; cbn; [done|done|exact IH|exact IH].
Qed.

Lemma through_nil os : Forall (fun k => None = Some k) (sent_through os) -> sent os = [].
Proof.
  intros F. apply sent_nil. destruct (sent_through os) as [|k l]; [done|]. by inversion F.
Qed.

(** The buffer gate of a stream, from its start. *)
Lemma created_run buffer_max s0 ops w s os w' :
  created buffer_max s0 -> steps ops s0 w = Defined (s, os, w') ->
  sim (accepted_along ops s0 w) (forallb no_stop ops) s0 s os /\
  exists gops h, run gops (start buffer_max) = Defined h /\ gate h = buffer_gate_ s /\
    accepted h = accepted_along ops s0 w /\ written h = sent os /\
    (forallb no_stop ops = true -> forallb (fun o => negb (is_stop o)) gops = true).
Proof.
  intros (destination & stream_id & k & os0 & E0) E.
  set (m := members destination stream_id k buffer_max) in *.
  assert (inv m) as Im by done.
  unfold tie_receive in E0. match type of E0 with parallel_update ?m1 = _ =>
    destruct (update_sim m m1 Im eq_refl eq_refl ltac:(done)) as (s0' & os0' & E0' & S0 & N0 & _) end.
  rewrite E0 in E0'. simplify_eq.
  pose proof (steps_sim ops s0' w s os w' (sim_inv _ _ _ _ _ S0) E) as S. split; [done|].
  destruct (sim_run _ _ _ _ _ S0) as (g0 & R0 & Q0). destruct (sim_run _ _ _ _ _ S) as (g1 & R1 & Q1).
  assert (sent os0' = []) as Z by (apply through_nil; pose proof (sim_through _ _ _ _ _ S0) as T; by rewrite N0 in T).
  exists (Gate.OpLinkOut :: g0 ++ g1). eexists. cbn [run]. split.
  - cbn [Gate.exec gate start Gate.LinkOut]. rewrite gate_run_app.
    change {| gate := _; accepted := accepted _ ++ _; written := _ |}
      with {| gate := buffer_gate_ m; accepted := []; written := [] |}.
    rewrite R0, Z. apply R1.
  - split_and!; [done|done|done|]. intros Q. cbn. rewrite forallb_app, Q0, Q1 by done. done.
Qed.

(** C19: A stream to another client, whichever way it was made and whatever happens
    to its gates and writes: nothing it does is undefined unless the connection it
    is given cannot make the stream, nothing is sent before the destination is
    connected, everything sent goes through that connection, and what was sent
    and what still waits are the accepted writes in their order, all of them if no
    write was stopped. *)
Theorem p2p_writes_in_order buffer_max s0 ops w s os w' :
  created buffer_max s0 -> steps ops s0 w = Defined (s, os, w') ->
  (forall o, step o s w' = Undefined ->
     exists k info, o = OpConnected k info /\ CreateStream k (destination_ s) (stream_id_ s) w' = Undefined) /\
  (send_client_connection_ s = None -> sent os = []) /\
  Forall (fun k => send_client_connection_ s = Some k) (sent_through os) /\
  sublist (sent os ++ waiting (Gate.write_in_buffer_ (buffer_gate_ s))) (accepted_along ops s0 w) /\
  (forallb no_stop ops = true ->
   sent os ++ waiting (Gate.write_in_buffer_ (buffer_gate_ s)) = accepted_along ops s0 w).
Proof.
  intros C E. destruct (created_run _ _ _ _ _ _ _ C E) as (S & gops & h & R & G & A & W & Q).
  pose proof (sim_inv _ _ _ _ _ S) as I. pose proof (sim_through _ _ _ _ _ S) as T.
  assert (send_stream_ s = send_client_connection_ s) as K by apply I. rewrite K in T.
  destruct (run_start buffer_max gops h R) as (_ & U & V). rewrite G, A, W in *.
  split_and!; [|..|done|done|by intros; apply V, Q].
  - intros o H. pose proof (step_sim o s w' I) as X. rewrite H in X.
    destruct X as (k & info & Ho & _ & Hc). by eexists _, _.
  - intros N. rewrite N in T. by apply through_nil.
Qed.

(** Writes before and after the destination is connected, on the connections of
    [two_clouds_world]. *)
Definition ready : StreamInfo :=
  {| max_element_size := 100; is_linked := true; is_writeble := true; is_soft_writable := true |}.

Definition sample_ops : list op :=
  [OpGate (Gate.OpWrite [1] 10); OpReceiveUpdate; OpGate (Gate.OpWrite [2] 11); OpReceive [7];
   OpConnected 4 ready; OpGate (Gate.OpWrite [3] 12); OpGate (Gate.OpEnd 0 Result)].

Lemma p2p_writes_in_order_witness :
  exists s0 os0 w0 s os w,
    new_stream 2 33 1 ConnectionProperties.two_clouds_world = Defined (s0, os0, w0) /\
    steps sample_ops s0 w0 = Defined (s, os, w) /\
    sent os ++ waiting (Gate.write_in_buffer_ (buffer_gate_ s)) = [([1], 10); ([2], 11); ([3], 12)].
Proof.
  destruct (new_stream 2 33 1 ConnectionProperties.two_clouds_world) as [[[s0 os0] w0]|] eqn:E0;
    [|vm_compute in E0; discriminate].
  destruct (steps sample_ops s0 w0) as [[[s os] w]|] eqn:E.
  - exists s0, os0, w0, s, os, w. split; [done|]. split; [done|].
    destruct (p2p_writes_in_order (20 * 1024) s0 sample_ops w0 s os w) as (_ & _ & _ & _ & A);
      [by eapply new_stream_created|done|].
    rewrite A by reflexivity. vm_compute in E0. simplify_eq. reflexivity.
  - exfalso. revert E. vm_compute in E0. injection E0 as <- <- <-. vm_compute. discriminate.
Defined.

(** C25: What waited for the destination is sent when it is connected: if the
    connection makes the stream and its gate can be written to, all writes
    accepted so far have been sent through it, in their order. *)
Theorem p2p_sends_when_connected buffer_max s0 ops w s os w1 k info w2 :
  created buffer_max s0 -> steps ops s0 w = Defined (s, os, w1) ->
  forallb no_stop ops = true -> send_client_connection_ s = None ->
  CreateStream k (destination_ s) (stream_id_ s) w1 = Defined w2 ->
  is_linked info = true -> is_writeble info = true ->
  exists s' os', step (OpConnected k info) s w1 = Defined (s', os', w2) /\
    send_client_connection_ s' = Some k /\ sent os' = accepted_along ops s0 w /\
    Forall (fun k' => k' = k) (sent_through os').
Proof.
  intros C E Q N Ec L W. destruct (created_run _ _ _ _ _ _ _ C E) as (S & gops & h & R & G & A & Wr & Qg).
  pose proof (sim_inv _ _ _ _ _ S) as (O & Nl & K).
  assert (sent os = []) as Z.
  { apply through_nil. pose proof (sim_through _ _ _ _ _ S) as T. by rewrite K, N in T. }
  pose proof (step_sim (OpConnected k info) s w1 (sim_inv _ _ _ _ _ S)) as X. revert X.
  cbn [step]. rewrite N. unfold OnSendConnection. rewrite Ec. unfold parallel_update, gate_step.
  cbn [buffer_gate_ parallel_info send_stream_ send_info_].
  destruct (update_linked info _ O) as (g & es & Eg & _).
  rewrite Eg. match goal with |- context [parallel_writes ?s1 es] =>
    destruct (parallel_writes_spec s1 es) as (os' & -> & So & T) end; [done|].
  intros X. eexists _, _. split; [done|]. split; [done|].
  pose proof (update_drains _ _ _ _ O (Nl (eq_trans K N)) L W Eg) as Wt.
  split; [|eapply list.Forall_impl; [exact T|cbn; congruence]].
  rewrite So.
  assert (run (gops ++ [Gate.OpUpdateGate info]) (start buffer_max)
          = Defined {| gate := g; accepted := accepted h ++ []; written := written h ++ out_writes es |}) as R2.
  { rewrite gate_run_app, R. cbn [run]. rewrite G, Eg. done. }
  destruct (run_start buffer_max _ _ R2) as (_ & _ & V2).
  cbn [gate accepted written] in V2. rewrite Wr, Z, A, app_nil_r, Wt, app_nil_r in V2. cbn [app] in V2.
  apply V2. rewrite forallb_app, (Qg Q). done.
Qed.

Lemma p2p_sends_when_connected_witness :
  exists s0 os0 w0 s os w1 s' os' w2,
    new_stream 2 33 1 ConnectionProperties.two_clouds_world = Defined (s0, os0, w0) /\
    steps (take 4 sample_ops) s0 w0 = Defined (s, os, w1) /\
    step (OpConnected 4 ready) s w1 = Defined (s', os', w2) /\ sent os' = [([1], 10); ([2], 11)].
Proof.
  destruct (new_stream 2 33 1 ConnectionProperties.two_clouds_world) as [[[s0 os0] w0]|] eqn:E0;
    [|vm_compute in E0; discriminate].
  destruct (steps (take 4 sample_ops) s0 w0) as [[[s os] w1]|] eqn:E;
    [|exfalso; revert E; vm_compute in E0; injection E0 as <- <- <-; vm_compute; discriminate].
  destruct (CreateStream 4 (destination_ s) (stream_id_ s) w1) as [w2|] eqn:Ec;
    [|exfalso; revert Ec; vm_compute in E0; injection E0 as <- <- <-; vm_compute in E; injection E as <- <- <-;
      vm_compute; discriminate].
  destruct (p2p_sends_when_connected (20 * 1024) s0 (take 4 sample_ops) w0 s os w1 4 ready w2)
    as (s' & os' & A & _ & B & _); [by eapply new_stream_created|done|done| |done|done|done|].
  - vm_compute in E0. injection E0 as <- <- <-. vm_compute in E. injection E as <- <- <-. reflexivity.
  - exists s0, os0, w0, s, os, w1, s', os', w2. split; [done|]. split; [done|]. split; [done|].
    rewrite B. vm_compute in E0. simplify_eq. reflexivity.
Defined.

End P2pStreamProperties.
