(* ===== verification/Adapters.v ===== *)
(** * Adapters ([aether/adapters/])

    An adapter makes transports: [CreateTransport] answers with an action that
    emits the transport, or an error, when it is updated.  [EthernetAdapter] makes
    them at once, [RegisterWifiAdapter] has an [EthernetAdapter] make them, and
    [Esp32WifiAdapter] makes them when the network is up; what the network reports
    is a sequence of events.

    An action is numbered when it is put in the [ActionList] of its adapter, which
    keeps it until it ends; a transport is numbered when it is made.  A failed
    [assert] and a failed [ESP_ERROR_CHECK], which ends the program, is
    [Undefined]. *)

From stdpp Require Import gmap.
From S2P Require Import Prelude ServerList.
Import Cloud.

#[local] Set Warnings "-clear-no-such-hyp".

Module Adapters.

(** ** Transports and the cache *)

Inductive TransportClass := UnixTcpTransport | WinTcpTransport | LwipTcpTransport.

Record Transport := {
  t_class : TransportClass;
  t_address : IpAddressPortProtocol;
  t_id : nat;
}.

(** The base of the adapters; [made] counts the transports. *)
Record Adapter := {
  transports_cache_ : list (IpAddressPortProtocol * nat);
  made : nat;
}.

Definition new_adapter : Adapter := {| transports_cache_ := []; made := 0 |}.

(** The preprocessor leaves the bodies of these three out. *)
Definition CleanDeadTransports (b : Adapter) : Adapter := b.

Definition FindInCache (address : IpAddressPortProtocol) (b : Adapter) : option Transport := None.

Definition AddToCache (address : IpAddressPortProtocol) (t : Transport) (b : Adapter) : Adapter := b.

(** The constructor of a transport behind the assertion on the protocol. *)
Definition make_transport (c : TransportClass) (address : IpAddressPortProtocol) (b : Adapter)
  : outcome (Transport * Adapter) :=
  match protocol address with
  | kTcp =>
      Defined ({| t_class := c; t_address := address; t_id := made b |},
               {| transports_cache_ := transports_cache_ b; made := S (made b) |})
  | OtherProtocol _ => Undefined
  end.

(** What the update of an action emits; the action is finished then. *)
Inductive create_event := Result (t : Transport) | Error.

(** ** The interface

    [CreateTransport] answers with the number of the action, or an empty view;
    [update_action] is the update of an action by the processor, with what it emits
    and whether it goes on to write to the action, which its end erased. *)
Class IAdapter (A : Type) := {
  CreateTransport : IpAddressPortProtocol -> A -> outcome (A * option nat);
  update_action : nat -> A -> A * option (create_event * bool);
}.

(** [Adapter] itself *)
#[export] Instance base_adapter : IAdapter Adapter := {
  CreateTransport _ b := Defined (b, None);
  update_action _ b := (b, None);
}.

(** ** Ethernet *)
Section Ethernet.

(** The transport the build has, if any. *)
Context (tcp_transport : option TransportClass).

Record EthernetCreateTransportAction := { transport_ : option Transport; once_ : bool }.

Definition new_ethernet_action (t : Transport) : EthernetCreateTransportAction :=
  {| transport_ := Some t; once_ := true |}.

Definition ethernet_action_update (a : EthernetCreateTransportAction)
  : EthernetCreateTransportAction * option create_event :=
  match transport_ a with
  | Some t => if once_ a then ({| transport_ := transport_ a; once_ := false |}, Some (Result t))
              else (a, None)
  | None => (a, None)
  end.

(** [create_transport_actions_]: the list is made by the first request. *)
Record EthernetAdapter := {
  e_base : Adapter;
  e_actions : option (gmap nat EthernetCreateTransportAction);
  e_next : nat;
}.

Definition new_ethernet : EthernetAdapter := {| e_base := new_adapter; e_actions := None; e_next := 0 |}.

Definition ethernet_CreateTransport (address : IpAddressPortProtocol) (ad : EthernetAdapter)
  : outcome (EthernetAdapter * option nat) :=
  let l := default ∅ (e_actions ad) in
  let b := CleanDeadTransports (e_base ad) in
  let emplace t b :=
    Defined ({| e_base := b; e_actions := Some (<[e_next ad := new_ethernet_action t]> l);
                e_next := S (e_next ad) |}, Some (e_next ad)) in
  match FindInCache address b with
  | Some t => emplace t b
  | None =>
      match tcp_transport with
      | None => Defined ({| e_base := b; e_actions := Some l; e_next := e_next ad |}, None)
      | Some c => let* (t, b) := make_transport c address b in emplace t (AddToCache address t b)
      end
  end.

(** The end of the action erases it from the list. *)
Definition ethernet_update (id : nat) (ad : EthernetAdapter) : EthernetAdapter * option (create_event * bool) :=
  match default ∅ (e_actions ad) !! id with
  | None => (ad, None)
  | Some a =>
      let '(a, e) := ethernet_action_update a in
      let l := default ∅ (e_actions ad) in
      let l := match e with Some _ => delete id l | None => <[id := a]> l end in
      ({| e_base := e_base ad; e_actions := Some l; e_next := e_next ad |}, (., false) <$> e)
  end.

#[export] Instance ethernet_adapter : IAdapter EthernetAdapter := {
  CreateTransport := ethernet_CreateTransport;
  update_action := ethernet_update;
}.

(** ** [RegisterWifiAdapter] *)
Record RegisterWifiAdapter := { ssid : bytes; pass : bytes; ethernet_adapter_ : EthernetAdapter }.

Definition register_CreateTransport (address : IpAddressPortProtocol) (ad : RegisterWifiAdapter)
  : outcome (RegisterWifiAdapter * option nat) :=
  let* (e, v) := CreateTransport address (ethernet_adapter_ ad) in
  Defined ({| ssid := ssid ad; pass := pass ad; ethernet_adapter_ := e |}, v).

#[export] Instance register_adapter : IAdapter RegisterWifiAdapter := {
  CreateTransport := register_CreateTransport;
  update_action id ad :=
    let '(e, ev) := update_action id (ethernet_adapter_ ad) in
    ({| ssid := ssid ad; pass := pass ad; ethernet_adapter_ := e |}, ev);
}.
End Ethernet.

(** ** The wireless network of an ESP32 *)

Definition WIFI_CONNECTED_BIT : Z := 1.
Definition WIFI_FAIL_BIT : Z := 2.
Definition kMaxRetry : Z := 10.

Inductive wifi_event := WIFI_EVENT_STA_START | WIFI_EVENT_STA_DISCONNECTED | IP_EVENT_STA_GOT_IP | OTHER_EVENT.

(** The static variables, and the calls of [esp_wifi_connect] so far. *)
Record WifiState := { s_retry_num : Z; s_wifi_event_group : Z; connects : nat }.

Definition EventHandler (e : wifi_event) (s : WifiState) : WifiState :=
  match e with
  | WIFI_EVENT_STA_START =>
      {| s_retry_num := s_retry_num s; s_wifi_event_group := s_wifi_event_group s; connects := S (connects s) |}
  | WIFI_EVENT_STA_DISCONNECTED =>
      if s_retry_num s <? kMaxRetry
      then {| s_retry_num := s_retry_num s + 1; s_wifi_event_group := s_wifi_event_group s;
              connects := S (connects s) |}
      else {| s_retry_num := s_retry_num s;
              s_wifi_event_group := Z.lor (s_wifi_event_group s) WIFI_FAIL_BIT; connects := connects s |}
  | IP_EVENT_STA_GOT_IP =>
      {| s_retry_num := 0; s_wifi_event_group := Z.lor (s_wifi_event_group s) WIFI_CONNECTED_BIT;
         connects := connects s |}
  | OTHER_EVENT => s
  end.

(** [xEventGroupWaitBits] without a timeout: the task goes on when one of the bits
    is set; [None]: the events end before. *)
Fixpoint wait_bits (es : list wifi_event) (s : WifiState) : option (Z * WifiState) :=
  if negb (Z.land (s_wifi_event_group s) (Z.lor WIFI_CONNECTED_BIT WIFI_FAIL_BIT) =? 0)
  then Some (s_wifi_event_group s, s)
  else match es with [] => None | e :: es => wait_bits es (EventHandler e s) end.

(** A field of [n] bytes of the configuration, filled with zeros. *)
Definition copy_field (n : nat) (s : bytes) : bytes :=
  let string_size := if (length s <? n)%nat then length s else n in
  take string_size s ++ replicate (n - string_size) 0.

Record wifi_config := { sta_ssid : bytes; sta_password : bytes }.

Definition make_config (ssid_ pass_ : bytes) : wifi_config :=
  {| sta_ssid := copy_field 32 ssid_; sta_password := copy_field 64 pass_ |}.

(** What the system answers: to [nvs_flash_init], to the erasure of the flash and
    the second attempt, to the calls of [WifiInitSta] before and after the wait; the
    events before the task waits and those after. *)
Inductive nvs_answer := ESP_OK | ESP_ERR_NVS_NO_FREE_PAGES | ESP_ERR_NVS_NEW_VERSION_FOUND | ESP_ERR_OTHER.

Record Answers := {
  nvs_init : nvs_answer;
  nvs_erase_ok : bool;
  nvs_init_again : nvs_answer;
  calls_before : list bool;
  events_before : list wifi_event;
  events_waiting : list wifi_event;
  calls_after : list bool;
}.

Definition ESP_ERROR_CHECK (ok : bool) : outcome unit := if ok then Defined tt else Undefined.

Definition is_ok (r : nvs_answer) : bool := match r with ESP_OK => true | _ => false end.

Definition WifiInitNvs (r : Answers) : outcome unit :=
  match nvs_init r with
  | ESP_ERR_NVS_NO_FREE_PAGES | ESP_ERR_NVS_NEW_VERSION_FOUND =>
      let* _ := ESP_ERROR_CHECK (nvs_erase_ok r) in ESP_ERROR_CHECK (is_ok (nvs_init_again r))
  | ret => ESP_ERROR_CHECK (is_ok ret)
  end.

(** ** The adapter of the ESP32 *)

(** [waits]: the action is subscribed to the event of the network. *)
Record EspAction := {
  address_port_protocol_ : IpAddressPortProtocol;
  c_once : bool;
  failed_ : bool;
  waits : bool;
  c_transport : option Transport;
}.

Record Esp32WifiAdapter := {
  c_base : Adapter;
  ssid_ : bytes;
  pass_ : bytes;
  esp_netif_ : bool;
  connected_ : bool;
  c_actions : gmap nat EspAction;
  c_next : nat;
}.

Definition new_esp32 (ssid pass : bytes) : Esp32WifiAdapter :=
  {| c_base := new_adapter; ssid_ := ssid; pass_ := pass; esp_netif_ := false; connected_ := false;
     c_actions := ∅; c_next := 0 |}.

(** [CreateTransport] of the action *)
Definition action_CreateTransport (a : EspAction) (b : Adapter) : outcome (EspAction * Adapter) :=
  let b := CleanDeadTransports b in
  let address := address_port_protocol_ a in
  let* (t, b) := match FindInCache address b with
                 | Some t => Defined (t, b)
                 | None => make_transport LwipTcpTransport address b
                 end in
  Defined ({| address_port_protocol_ := address; c_once := c_once a; failed_ := failed_ a;
              waits := waits a; c_transport := Some t |}, AddToCache address t b).

(** The handler of the event of the network *)
Definition on_wifi_connected (result : bool) (a : EspAction) (b : Adapter) : outcome (EspAction * Adapter) :=
  if result then action_CreateTransport a b
  else Defined ({| address_port_protocol_ := address_port_protocol_ a; c_once := c_once a; failed_ := true;
                   waits := waits a; c_transport := c_transport a |}, b).

(** [Update] of the action; the flag tells that it goes on to write [once_] after
    its end erased it from the list. *)
Definition esp_action_update (a : EspAction) : option (create_event * bool) :=
  match c_transport a with
  | Some t => if c_once a then Some (Result t, true) else None
  | None => if failed_ a && c_once a then Some (Error, true) else None
  end.

Definition with_actions (l : gmap nat EspAction) (b : Adapter) (ad : Esp32WifiAdapter) : Esp32WifiAdapter :=
  {| c_base := b; ssid_ := ssid_ ad; pass_ := pass_ ad; esp_netif_ := esp_netif_ ad;
     connected_ := connected_ ad; c_actions := l; c_next := c_next ad |}.

(** The two constructors of the action. *)
Definition immediate_action (address : IpAddressPortProtocol) (b : Adapter) : outcome (EspAction * Adapter) :=
  action_CreateTransport {| address_port_protocol_ := address; c_once := true; failed_ := false;
                            waits := false; c_transport := None |} b.

Definition waiting_action (address : IpAddressPortProtocol) : EspAction :=
  {| address_port_protocol_ := address; c_once := true; failed_ := false; waits := true; c_transport := None |}.

Definition esp_CreateTransport (address : IpAddressPortProtocol) (ad : Esp32WifiAdapter)
  : outcome (Esp32WifiAdapter * option nat) :=
  let* (a, b) := if connected_ ad then immediate_action address (c_base ad)
                 else Defined (waiting_action address, c_base ad) in
  Defined ({| c_base := b; ssid_ := ssid_ ad; pass_ := pass_ ad; esp_netif_ := esp_netif_ ad;
              connected_ := connected_ ad; c_actions := <[c_next ad := a]> (c_actions ad);
              c_next := S (c_next ad) |}, Some (c_next ad)).

Definition esp_update (id : nat) (ad : Esp32WifiAdapter) : Esp32WifiAdapter * option (create_event * bool) :=
  match c_actions ad !! id with
  | None => (ad, None)
  | Some a =>
      match esp_action_update a with
      | None => (ad, None)
      | Some e => (with_actions (delete id (c_actions ad)) (c_base ad) ad, Some e)
      end
  end.

#[export] Instance esp_adapter : IAdapter Esp32WifiAdapter := {
  CreateTransport := esp_CreateTransport;
  update_action := esp_update;
}.

(** [wifi_connected_event_.Emit]: the actions that wait, from the first. *)
Fixpoint emit_from (result : bool) (ids : list nat) (ad : Esp32WifiAdapter) : outcome Esp32WifiAdapter :=
  match ids with
  | [] => Defined ad
  | id :: ids =>
      match c_actions ad !! id with
      | Some a =>
          if waits a
          then let* (a, b) := on_wifi_connected result a (c_base ad) in
               emit_from result ids (with_actions (<[id := a]> (c_actions ad)) b ad)
          else emit_from result ids ad
      | None => emit_from result ids ad
      end
  end.

Definition emit (result : bool) (ad : Esp32WifiAdapter) : outcome Esp32WifiAdapter :=
  emit_from result (seq 0 (c_next ad)) ad.

(** [WifiInitSta]: [None] when the task still waits for the network. *)
Definition WifiInitSta (r : Answers) (s : WifiState) (ad : Esp32WifiAdapter)
  : outcome (option (Esp32WifiAdapter * WifiState * wifi_config)) :=
  let* _ := ESP_ERROR_CHECK (forallb id (calls_before r)) in
  let ad := {| c_base := c_base ad; ssid_ := ssid_ ad; pass_ := pass_ ad; esp_netif_ := true;
               connected_ := connected_ ad; c_actions := c_actions ad; c_next := c_next ad |} in
  let s := {| s_retry_num := s_retry_num s; s_wifi_event_group := 0; connects := connects s |} in
  match wait_bits (events_waiting r) (foldl (flip EventHandler) s (events_before r)) with
  | None => Defined None
  | Some (bits, s) =>
      let* ad :=
        if negb (Z.land bits WIFI_CONNECTED_BIT =? 0) then emit true ad
        else if negb (Z.land bits WIFI_FAIL_BIT =? 0) then emit false ad
        else Defined ad in
      let* _ := ESP_ERROR_CHECK (forallb id (calls_after r)) in
      Defined (Some (ad, s, make_config (ssid_ ad) (pass_ ad)))
  end.

Definition Connect (r : Answers) (s : WifiState) (ad : Esp32WifiAdapter)
  : outcome (option (Esp32WifiAdapter * WifiState)) :=
  if esp_netif_ ad then Defined (Some (ad, s))
  else
    let* _ := WifiInitNvs r in
    let* x := WifiInitSta r s ad in
    Defined (fst <$> x).

Definition esp_Update (r : Answers) (s : WifiState) (ad : Esp32WifiAdapter)
  : outcome (option (Esp32WifiAdapter * WifiState)) :=
  if connected_ ad then Defined (Some (ad, s))
  else
    Connect r s {| c_base := c_base ad; ssid_ := ssid_ ad; pass_ := pass_ ad; esp_netif_ := esp_netif_ ad;
                   connected_ := true; c_actions := c_actions ad; c_next := c_next ad |}.

(** The destructor calls the system when there is a network. *)
Inductive wifi_call := esp_wifi_disconnect | esp_wifi_stop | esp_wifi_deinit | esp_netif_destroy_default_wifi.

Definition DisConnect (ad : Esp32WifiAdapter) : list wifi_call :=
  if esp_netif_ ad
  then [esp_wifi_disconnect; esp_wifi_stop; esp_wifi_deinit; esp_netif_destroy_default_wifi] else [].

Definition esp_destroy (ad : Esp32WifiAdapter) : list wifi_call :=
  if connected_ ad then DisConnect ad else [].

End Adapters.

Module AdapterProperties.
Import Adapters.

(** ** What an adapter promises

    [requests]: the requests that are not answered yet, with the transport each is
    going to get.  [writes_erased]: an update that ends an action writes to it
    afterwards. *)
Class IAdapterOk (A : Type) `{IAdapter A} := {
  ready : A -> Prop;
  requests : A -> gmap nat Transport;
  transports : A -> nat;
  writes_erased : bool;
  create_ok ad address : ready ad -> protocol address = kTcp ->
    exists ad' id t, CreateTransport address ad = Defined (ad', Some id) /\ ready ad' /\
      t_address t = address /\ t_id t = transports ad /\ transports ad' = S (transports ad) /\
      requests ad !! id = None /\ requests ad' = <[id := t]> (requests ad);
  update_ok ad id t : ready ad -> requests ad !! id = Some t ->
    exists ad', update_action id ad = (ad', Some (Result t, writes_erased)) /\ ready ad' /\
      transports ad' = transports ad /\ requests ad' = delete id (requests ad);
  update_nothing ad id : ready ad -> requests ad !! id = None -> update_action id ad = (ad, None);
}.

(** Requests and updates one after the other; an empty view ends the list. *)
Fixpoint create_all {A} `{IAdapter A} (l : list IpAddressPortProtocol) (ad : A) : outcome (A * list nat) :=
  match l with
  | [] => Defined (ad, [])
  | address :: l =>
      let* (ad, v) := CreateTransport address ad in
      match v with
      | None => Defined (ad, [])
      | Some id => let* (ad, ids) := create_all l ad in Defined (ad, id :: ids)
      end
  end.

Fixpoint update_all {A} `{IAdapter A} (ids : list nat) (ad : A) : A * list (nat * option (create_event * bool)) :=
  match ids with
  | [] => (ad, [])
  | id :: ids =>
      let '(ad, e) := update_action id ad in
      let '(ad, es) := update_all ids ad in (ad, (id, e) :: es)
  end.

Section Client.
Context {A : Type} `{IAdapterOk A}.

Lemma create_all_ok l ad :
  ready ad -> Forall (fun a => protocol a = kTcp) l ->
  exists ad' ids ts, create_all l ad = Defined (ad', ids) /\ ready ad' /\ length ids = length l /\
    Forall2 (fun i t => requests ad' !! i = Some t) ids ts /\
    Forall2 (fun a t => t_address t = a) l ts /\ map t_id ts = seq (transports ad) (length l) /\
    NoDup ids /\ Forall (fun i => requests ad !! i = None) ids /\
    (forall i, i ∉ ids -> requests ad' !! i = requests ad !! i).
Proof.
  intros Hr Hl. revert ad Hr. induction Hl as [|a l Ha _ IH]; intros ad Hr.
  { exists ad, [], []. split_and!; try done; constructor. }
  destruct (create_ok ad a Hr Ha) as (ad1 & id & t & E & Hr1 & Ta & Ti & Tn & Hn & Q).
  destruct (IH ad1 Hr1) as (ad' & ids & ts & E' & Hr' & L & F1 & F2 & M & D & N & K).
  assert (id ∉ ids) as Hid.
  { intros Hi. eapply list.Forall_forall in N; [|exact Hi]. rewrite Q, lookup_insert_eq in N. done. }
  exists ad', (id :: ids), (t :: ts). cbn [create_all]. rewrite E, E'. split_and!; try done.
  - cbn. by f_equal.
  - constructor; [|done]. by rewrite K, Q, lookup_insert_eq.
  - by constructor.
  - cbn. by rewrite Ti, M, Tn.
  - by constructor.
  - constructor; [done|]. eapply Forall_impl; [|exact N]. intros i Hi. rewrite Q in Hi.
    by apply lookup_insert_None in Hi as [? _].
  - intros i Hi. apply not_elem_of_cons in Hi as [Hi1 Hi2]. rewrite K, Q by done. by rewrite lookup_insert_ne.
Qed.

Lemma update_all_ok ids ad :
  ready ad -> NoDup ids -> Forall (fun i => is_Some (requests ad !! i)) ids ->
  exists ad', update_all ids ad = (ad', map (fun i => (i, (fun t => (Result t, writes_erased)) <$> requests ad !! i)) ids) /\
    ready ad' /\ Forall (fun i => requests ad' !! i = None) ids /\
    (forall i, i ∉ ids -> requests ad' !! i = requests ad !! i).
Proof.
  intros Hr D F. revert ad Hr F. induction D as [|i ids Hi _ IH]; intros ad Hr F; [by exists ad|].
  inversion F as [|? ? [t Ht] F']; subst. destruct (update_ok ad i t Hr Ht) as (ad1 & E & Hr1 & _ & Q).
  assert (forall j, j <> i -> requests ad1 !! j = requests ad !! j) as K
    by (intros j Hj; by rewrite Q, lookup_delete_ne).
  assert (forall j, j ∈ ids -> j <> i) as Hne by congruence.
  destruct (IH ad1 Hr1) as (ad' & E' & Hr' & N & K').
  { apply list.Forall_forall. intros j Hj. rewrite K by auto. by eapply list.Forall_forall in F'. }
  exists ad'. cbn [update_all map]. rewrite E, E', Ht. cbn. split_and!; [|done| |].
  - do 2 f_equal. apply map_ext_in. intros j Hj. by rewrite K by by apply Hne, list_elem_of_In.
  - constructor; [|done]. by rewrite K', Q, lookup_delete_eq.
  - intros j Hj. apply not_elem_of_cons in Hj as [Hj1 Hj2]. by rewrite K', K.
Qed.

Lemma update_all_nothing ids ad :
  ready ad -> Forall (fun i => requests ad !! i = None) ids ->
  update_all ids ad = (ad, map (fun i => (i, None)) ids).
Proof.
  intros Hr. induction 1 as [|i ids Hi _ IH]; [done|]. cbn [update_all map].
  by rewrite update_nothing, IH.
Qed.

(** Every request is answered, once: the transports asked for are made one each,
    also for equal addresses, and in whatever order the actions are updated every
    one emits the transport to its address and nothing afterwards. *)
Theorem requests_answered l ad :
  ready ad -> Forall (fun a => protocol a = kTcp) l ->
  exists ad1 ids ts, create_all l ad = Defined (ad1, ids) /\ NoDup ids /\
    Forall2 (fun a t => t_address t = a) l ts /\ NoDup (map t_id ts) /\
    forall order, order ≡ₚ ids ->
    exists ad2 es, update_all order ad1 = (ad2, es) /\ es ≡ₚ zip ids (map (fun t => Some (Result t, writes_erased)) ts) /\
      update_all order ad2 = (ad2, map (fun i => (i, None)) order).
Proof.
  intros Hr Hl. destruct (create_all_ok l ad Hr Hl) as (ad1 & ids & ts & E & Hr1 & L & F1 & F2 & M & D & N & K).
  exists ad1, ids, ts. split_and!; try done; [rewrite M; apply NoDup_seq|]. intros order P.
  assert (NoDup order) as Do by by rewrite P.
  assert (Forall (fun i => is_Some (requests ad1 !! i)) order) as Fo.
  { rewrite P. clear -F1. induction F1; constructor; eauto. }
  destruct (update_all_ok order ad1 Hr1 Do Fo) as (ad2 & E2 & Hr2 & N2 & _). exists ad2. eexists. split; [exact E2|].
  split; [|by apply update_all_nothing]. rewrite P. clear -F1.
  induction F1 as [|i t ids ts Hi _ IH]; cbn; [done|]. by rewrite Hi, IH.
Qed.
End Client.

(** *** The adapters keep the promise *)

#[local] Arguments omap : simpl never.

Section EthernetOk.
Context (c : TransportClass).

Definition ethernet_ready (ad : EthernetAdapter) : Prop :=
  map_Forall (fun i a => (i < e_next ad)%nat /\ is_Some (transport_ a) /\ once_ a = true) (default ∅ (e_actions ad)).

#[export] Program Instance ethernet_ok : @IAdapterOk EthernetAdapter (ethernet_adapter (Some c)) := {
  ready := ethernet_ready;
  requests ad := omap transport_ (default ∅ (e_actions ad));
  transports ad := made (e_base ad);
  writes_erased := false;
}.
Next Obligation.
  intros ad a Hr Ha. cbn. unfold ethernet_CreateTransport, make_transport, FindInCache. rewrite Ha.
  eexists _, _, {| t_class := c; t_address := a; t_id := made (e_base ad) |}. split; [done|]. cbn.
  split_and!; try done.
  - apply map_Forall_insert_2; [cbn; split_and!; [lia|eauto|done]|].
    intros i x Hx. destruct (Hr i x Hx) as (? & ? & ?). cbn. split_and!; try done. lia.
  - rewrite lookup_omap. destruct (default ∅ (e_actions ad) !! e_next ad) as [x|] eqn:Ex; [|done].
    destruct (Hr _ _ Ex). lia.
  - by erewrite omap_insert_Some.
Qed.
Next Obligation.
  intros ad i t Hr Ht. cbn in *. rewrite lookup_omap in Ht. unfold ethernet_update.
  destruct (default ∅ (e_actions ad) !! i) as [x|] eqn:Ex; [|done]. destruct (Hr _ _ Ex) as (_ & _ & Ho).
  cbn in Ht. unfold ethernet_action_update. rewrite Ht, Ho. eexists. split; [done|]. cbn. split_and!; [|done|].
  - by apply map_Forall_delete.
  - by rewrite omap_delete.
Qed.
Next Obligation.
  intros ad i Hr Hn. cbn in *. rewrite lookup_omap in Hn. unfold ethernet_update.
  destruct (default ∅ (e_actions ad) !! i) as [x|] eqn:Ex; [|done].
  destruct (Hr _ _ Ex) as (_ & [t Ht] & _). cbn in Hn. congruence.
Qed.

(** What the [EthernetAdapter] promises, [RegisterWifiAdapter] passes on. *)
#[export] Program Instance register_ok : @IAdapterOk RegisterWifiAdapter (register_adapter (Some c)) := {
  ready ad := @ready _ _ ethernet_ok (ethernet_adapter_ ad);
  requests ad := @requests _ _ ethernet_ok (ethernet_adapter_ ad);
  transports ad := @transports _ _ ethernet_ok (ethernet_adapter_ ad);
  writes_erased := false;
}.
Next Obligation.
  intros ad a Hr Ha. destruct (create_ok _ a Hr Ha) as (e & i & t & E & H). cbn [CreateTransport register_adapter].
  unfold register_CreateTransport. rewrite E. by eexists _, i, t.
Qed.
Next Obligation.
  intros ad i t Hr Ht. destruct (update_ok _ i t Hr Ht) as (e & E & H). cbn [update_action register_adapter].
  rewrite E. by eexists.
Qed.
Next Obligation.
  intros [s p e] i Hr Hn. cbn [update_action register_adapter ethernet_adapter_] in *.
  by rewrite (update_nothing e i Hr Hn).
Qed.
End EthernetOk.

(** The adapter of the ESP32 is ready once it was updated and the requests made
    before were answered. *)
Definition esp_ready (ad : Esp32WifiAdapter) : Prop :=
  connected_ ad = true /\
  map_Forall (fun i a => (i < c_next ad)%nat /\ is_Some (c_transport a) /\ c_once a = true) (c_actions ad).

#[export] Program Instance esp_ok : IAdapterOk Esp32WifiAdapter := {
  ready := esp_ready;
  requests ad := omap c_transport (c_actions ad);
  transports ad := made (c_base ad);
  writes_erased := true;
}.
Next Obligation.
  intros ad a [Hc Hr] Ha. cbn. unfold esp_CreateTransport, immediate_action, action_CreateTransport, make_transport.
  rewrite Hc. cbn. rewrite Ha. eexists _, _, {| t_class := LwipTcpTransport; t_address := a; t_id := made (c_base ad) |}.
  split; [done|]. cbn. split_and!; try done.
  - split; [done|]. apply map_Forall_insert_2; [cbn; split_and!; [lia|eauto|done]|].
    intros i x Hx. destruct (Hr i x Hx) as (? & ? & ?). cbn. split_and!; try done. lia.
  - rewrite lookup_omap. destruct (c_actions ad !! c_next ad) as [x|] eqn:Ex; [|done].
    destruct (Hr _ _ Ex). lia.
  - by erewrite omap_insert_Some.
Qed.
Next Obligation.
  intros ad i t [Hc Hr] Ht. cbn in *. rewrite lookup_omap in Ht. unfold esp_update.
  destruct (c_actions ad !! i) as [x|] eqn:Ex; [|done]. destruct (Hr _ _ Ex) as (_ & _ & Ho).
  cbn in Ht. unfold esp_action_update. rewrite Ht, Ho. eexists. split; [done|]. cbn. split_and!; [|done|].
  - split; [done|]. by apply map_Forall_delete.
  - by rewrite omap_delete.
Qed.
Next Obligation.
  intros ad i [Hc Hr] Hn. cbn in *. rewrite lookup_omap in Hn. unfold esp_update.
  destruct (c_actions ad !! i) as [x|] eqn:Ex; [|done].
  destruct (Hr _ _ Ex) as (_ & [t Ht] & _). cbn in Hn. congruence.
Qed.

(** ** The attempts to connect to the network *)

(** The answer to a sequence of events when [left] disconnections are forgiven. *)
Fixpoint attempt (left : nat) (es : list wifi_event) : option bool :=
  match es with
  | [] => None
  | IP_EVENT_STA_GOT_IP :: _ => Some true
  | WIFI_EVENT_STA_DISCONNECTED :: es => match left with O => Some false | S n => attempt n es end
  | _ :: es => attempt left es
  end.

Definition retries_left (s : WifiState) : nat := Z.to_nat (kMaxRetry - s_retry_num s).

Definition retry_ok (s : WifiState) : Prop := 0 <= s_retry_num s <= kMaxRetry.

Definition bits_of (b : bool) : Z := if b then WIFI_CONNECTED_BIT else WIFI_FAIL_BIT.

Lemma handler_retry e s : retry_ok s -> retry_ok (EventHandler e s).
Proof.
  unfold retry_ok, EventHandler, kMaxRetry. destruct e; cbn; try lia.
  destruct (Z.ltb_spec (s_retry_num s) 10); cbn; lia.
Qed.

(** The connection is given up after eleven disconnections, and a new address makes
    the handler forget them. *)
Lemma wait_attempt es s :
  retry_ok s -> s_wifi_event_group s = 0 ->
  match attempt (retries_left s) es with
  | None => wait_bits es s = None
  | Some b => exists s', wait_bits es s = Some (bits_of b, s') /\ retry_ok s' /\
                (b = false -> s_retry_num s' = kMaxRetry)
  end.
Proof.
  revert s. induction es as [|e es IH]; intros s Hr Hg; cbn [wait_bits]; rewrite Hg; [done|].
  change (negb (Z.land 0 _ =? 0)) with false. cbv iota. destruct e; cbn [attempt].
  - by apply (IH (EventHandler WIFI_EVENT_STA_START s)).
  - specialize (IH (EventHandler WIFI_EVENT_STA_DISCONNECTED s) (handler_retry _ _ Hr)). revert IH.
    unfold EventHandler, retries_left, retry_ok, kMaxRetry in *. destruct (Z.ltb_spec (s_retry_num s) 10).
    + replace (Z.to_nat (10 - s_retry_num s)) with (S (Z.to_nat (10 - (s_retry_num s + 1)))) by lia.
      intros IH. by apply IH.
    + intros _. replace (Z.to_nat (10 - s_retry_num s)) with O by lia. rewrite Hg.
      eexists. destruct es; (split; [done|]); cbn; split; (done || lia).
  - unfold EventHandler. rewrite Hg. eexists. by destruct es.
  - by apply IH.
Qed.

#[export] Instance wifi_event_eq_dec : EqDecision wifi_event.
Proof. solve_decision. Defined.

(** Events that are handled before the task waits: an address wins then. *)
Definition network (before waiting : list wifi_event) (s : WifiState) : option bool :=
  if decide (IP_EVENT_STA_GOT_IP ∈ before) then Some true else attempt (retries_left s) (before ++ waiting).

Definition handle_all (es : list wifi_event) (s : WifiState) : WifiState := foldl (flip EventHandler) s es.

Lemma handle_all_retry es s : retry_ok s -> retry_ok (handle_all es s).
Proof. revert s. induction es as [|e es IH]; intros s Hr; [done|]. by apply IH, handler_retry. Qed.

Lemma lor_connected g b : Z.testbit (Z.lor g b) 0 = Z.testbit g 0 || Z.testbit b 0.
Proof. apply Z.lor_spec. Qed.

Lemma handler_connected e s :
  Z.testbit (s_wifi_event_group (EventHandler e s)) 0
  = Z.testbit (s_wifi_event_group s) 0 || bool_decide (e = IP_EVENT_STA_GOT_IP).
Proof.
  unfold EventHandler. destruct e; cbn [s_wifi_event_group]; try (by rewrite orb_false_r).
  - destruct (s_retry_num s <? kMaxRetry); cbn [s_wifi_event_group];
      [by rewrite orb_false_r|by rewrite lor_connected].
  - by rewrite lor_connected.
Qed.

Lemma handle_all_connected es s :
  Z.testbit (s_wifi_event_group (handle_all es s)) 0
  = Z.testbit (s_wifi_event_group s) 0 || bool_decide (IP_EVENT_STA_GOT_IP ∈ es).
Proof.
  revert s. induction es as [|e es IH]; intros s; cbn [handle_all foldl flip]; [by rewrite orb_false_r|].
  fold (handle_all es (EventHandler e s)). rewrite IH, handler_connected, <- orb_assoc. f_equal.
  destruct (decide (e = IP_EVENT_STA_GOT_IP)) as [->|He].
  - by rewrite (bool_decide_true (_ ∈ IP_EVENT_STA_GOT_IP :: es)) by set_solver.
  - rewrite (bool_decide_false (e = _)) by done. cbn. apply bool_decide_ext. set_solver.
Qed.

Lemma land_connected g : (Z.land g WIFI_CONNECTED_BIT =? 0) = negb (Z.testbit g 0).
Proof.
  change WIFI_CONNECTED_BIT with (Z.ones 1). rewrite Z.land_ones by lia. rewrite Z.bit0_odd.
  change (2 ^ 1) with 2. rewrite Zmod_odd. by destruct (Z.odd g).
Qed.

(** Without an address the fail bit is all that may be set. *)
Lemma handle_all_attempt es es' s :
  retry_ok s -> s_wifi_event_group s = 0 -> IP_EVENT_STA_GOT_IP ∉ es ->
  (s_wifi_event_group (handle_all es s) = 0 /\
   attempt (retries_left s) (es ++ es') = attempt (retries_left (handle_all es s)) es') \/
  (s_wifi_event_group (handle_all es s) = WIFI_FAIL_BIT /\ s_retry_num (handle_all es s) = kMaxRetry /\
   attempt (retries_left s) (es ++ es') = Some false).
Proof.
  assert (forall es s, s_wifi_event_group s = WIFI_FAIL_BIT -> s_retry_num s = kMaxRetry -> IP_EVENT_STA_GOT_IP ∉ es ->
    s_wifi_event_group (handle_all es s) = WIFI_FAIL_BIT /\ s_retry_num (handle_all es s) = kMaxRetry) as K.
  { clear. induction es as [|e es IH]; intros s Hg Hr Hn; [done|]. apply not_elem_of_cons in Hn as [He Hn].
    apply (IH (EventHandler e s)); [| |done]; unfold EventHandler; rewrite ?Hr, ?Z.ltb_irrefl; destruct e; cbn;
      rewrite ?Hg; done. }
  revert s. induction es as [|e es IH]; intros s Hr Hg Hn; [by left|]. apply not_elem_of_cons in Hn as [He Hn].
  pose proof (handler_retry e s Hr) as Hr'. change (handle_all (e :: es) s) with (handle_all es (EventHandler e s)).
  destruct e; try done; [by apply (IH (EventHandler WIFI_EVENT_STA_START s))| |by apply IH].
  cbn [app attempt]. unfold retry_ok, kMaxRetry in Hr. destruct (Z.ltb_spec (s_retry_num s) kMaxRetry) as [Hl|Hl].
  - unfold retries_left at 1 3. unfold kMaxRetry in Hl |- *.
    replace (Z.to_nat (10 - s_retry_num s)) with (S (Z.to_nat (10 - (s_retry_num s + 1)))) by lia.
    specialize (IH (EventHandler WIFI_EVENT_STA_DISCONNECTED s) Hr'). revert IH. unfold EventHandler, kMaxRetry.
    rewrite (proj2 (Z.ltb_lt _ _) Hl). intros IH. by apply IH.
  - right. unfold retries_left, kMaxRetry in *. replace (Z.to_nat (10 - s_retry_num s)) with O by lia.
    destruct (K es (EventHandler WIFI_EVENT_STA_DISCONNECTED s)) as [K1 K2]; [| |done|done];
      unfold EventHandler, kMaxRetry; rewrite (proj2 (Z.ltb_ge _ _) Hl); cbn; [by rewrite Hg|lia].
Qed.

Lemma wait_now es s :
  s_wifi_event_group s = WIFI_FAIL_BIT \/ Z.testbit (s_wifi_event_group s) 0 = true ->
  wait_bits es s = Some (s_wifi_event_group s, s).
Proof.
  intros H. assert (Z.land (s_wifi_event_group s) (Z.lor WIFI_CONNECTED_BIT WIFI_FAIL_BIT) <> 0) as Hz.
  { intros E. destruct H as [H|H]; [by rewrite H in E|].
    assert (Z.testbit (Z.land (s_wifi_event_group s) 3) 0 = true) as T by by rewrite Z.land_spec, H.
    change (Z.lor _ _) with 3 in E. by rewrite E in T. }
  apply Z.eqb_neq in Hz. destruct es; cbn [wait_bits]; by rewrite Hz.
Qed.

(** What the task learns from the bits when it goes on. *)
Definition learned (bits : Z) : option bool :=
  if negb (Z.land bits WIFI_CONNECTED_BIT =? 0) then Some true
  else if negb (Z.land bits WIFI_FAIL_BIT =? 0) then Some false else None.

Lemma wait_network before waiting s :
  retry_ok s -> s_wifi_event_group s = 0 ->
  match network before waiting s with
  | None => wait_bits waiting (handle_all before s) = None
  | Some b => exists bits s', wait_bits waiting (handle_all before s) = Some (bits, s') /\
                learned bits = Some b /\ retry_ok s' /\ (b = false -> s_retry_num s' = kMaxRetry)
  end.
Proof.
  intros Hr Hg. pose proof (handle_all_connected before s) as Hc. pose proof (handle_all_retry before s Hr) as Hr'.
  rewrite Hg in Hc. unfold network. destruct (decide _) as [Hb|Hb].
  - rewrite bool_decide_true in Hc by done. rewrite wait_now by by right. eexists _, _. split; [done|].
    unfold learned. by rewrite land_connected, Hc.
  - destruct (handle_all_attempt before waiting s Hr Hg Hb) as [[G ->]|(G & R & ->)].
    + pose proof (wait_attempt waiting _ Hr' G) as W. destruct (attempt _ waiting) as [b|]; [|done].
      destruct W as (s' & E & W). eexists _, s'. split; [exact E|]. by destruct b.
    + rewrite wait_now by by left. eexists _, _. split; [done|]. by rewrite G.
Qed.

(** ** Requests that wait for the network *)

(** An action that waited, after the event. *)
Definition told (b : bool) (n : nat) (address : IpAddressPortProtocol) : EspAction :=
  {| address_port_protocol_ := address; c_once := true; failed_ := negb b; waits := true;
     c_transport := if b then Some {| t_class := LwipTcpTransport; t_address := address; t_id := n |} else None |}.

Definition same_network (ad ad' : Esp32WifiAdapter) : Prop :=
  ssid_ ad' = ssid_ ad /\ pass_ ad' = pass_ ad /\ esp_netif_ ad' = esp_netif_ ad /\
  connected_ ad' = connected_ ad /\ c_next ad' = c_next ad.

Lemma emit_from_told b l j ad :
  Forall (fun a => protocol a = kTcp) l ->
  (forall k a, l !! k = Some a -> c_actions ad !! (j + k)%nat = Some (waiting_action a)) ->
  exists ad', emit_from b (seq j (length l)) ad = Defined ad' /\ same_network ad ad' /\
    (forall k a, l !! k = Some a -> c_actions ad' !! (j + k)%nat = Some (told b (made (c_base ad) + k)%nat a)) /\
    (forall i, (i < j \/ j + length l <= i)%nat -> c_actions ad' !! i = c_actions ad !! i).
Proof.
  intros Hl. revert j ad. induction Hl as [|a l Ha Hl IH]; intros j ad Hw; [by exists ad|].
  pose proof (Hw 0%nat a eq_refl) as H0. rewrite Nat.add_0_r in H0.
  assert (exists b', on_wifi_connected b (waiting_action a) (c_base ad) = Defined (told b (made (c_base ad)) a, b') /\
    made b' = (if b then S (made (c_base ad)) else made (c_base ad))) as (b' & E & M).
  { unfold on_wifi_connected, action_CreateTransport, make_transport. cbn. rewrite Ha. destruct b; by eexists. }
  destruct (IH (S j) (with_actions (<[j := told b (made (c_base ad)) a]> (c_actions ad)) b' ad))
    as (ad' & E' & S' & T & O).
  { intros k x Hx. cbn. rewrite lookup_insert_ne by lia. rewrite <- (Hw (S k) x Hx). f_equal. lia. }
  exists ad'. cbn [length seq emit_from]. rewrite H0. cbn [waits waiting_action]. rewrite E. split; [exact E'|].
  split; [exact S'|]. split.
  - intros [|k] x Hx; [injection Hx as <-|].
    + rewrite !Nat.add_0_r, O by lia. cbn. by rewrite lookup_insert_eq.
    + replace (j + S k)%nat with (S j + k)%nat by lia. rewrite (T k x Hx). cbn. rewrite M.
      destruct b; [|done]. do 2 f_equal. lia.
  - intros i Hi. cbn in Hi |- *. rewrite O by lia. cbn. by rewrite lookup_insert_ne by lia.
Qed.

(** The requests before the first update. *)
Lemma create_waiting l ad :
  connected_ ad = false ->
  exists ad', create_all l ad = Defined (ad', seq (c_next ad) (length l)) /\
    c_next ad' = (c_next ad + length l)%nat /\ connected_ ad' = false /\ esp_netif_ ad' = esp_netif_ ad /\
    c_base ad' = c_base ad /\
    (forall k a, l !! k = Some a -> c_actions ad' !! (c_next ad + k)%nat = Some (waiting_action a)) /\
    (forall i, (i < c_next ad \/ c_next ad + length l <= i)%nat -> c_actions ad' !! i = c_actions ad !! i).
Proof.
  revert ad. induction l as [|a l IH]; intros ad Hc.
  { exists ad. cbn. rewrite Nat.add_0_r. by split_and!. }
  cbn [create_all CreateTransport esp_adapter]. unfold esp_CreateTransport. rewrite Hc.
  edestruct IH as (ad' & E & N & C & Ne & B & W & K); [|rewrite E; exists ad'; cbn in *]; [done|].
  split_and!; try done; [lia| |].
  - intros [|k] x Hx; [injection Hx as <-|].
    + rewrite Nat.add_0_r, K by lia. by rewrite lookup_insert_eq.
    + rewrite <- (W k x Hx). f_equal. lia.
  - intros i Hi. rewrite K by lia. by rewrite lookup_insert_ne by lia.
Qed.

(** Every call of the system succeeds, the flash may have to be erased. *)
Definition system_ok (r : Answers) : Prop :=
  WifiInitNvs r = Defined tt /\ forallb id (calls_before r) = true /\ forallb id (calls_after r) = true.

(** What the update of the [i]-th request does: it ends, and writes to the erased
    action. *)
Definition wifi_answer (b : bool) (l : list IpAddressPortProtocol) (i : nat) : option (create_event * bool) :=
  a ← l !! i;
  Some (if b then Result {| t_class := LwipTcpTransport; t_address := a; t_id := i |} else Error, true).

Lemma esp_update_all ids e ad :
  NoDup ids ->
  Forall (fun i => exists a, c_actions ad !! i = Some a /\ esp_action_update a = e i) ids ->
  Forall (fun i => is_Some (e i)) ids ->
  exists ad', update_all ids ad = (ad', map (fun i => (i, e i)) ids) /\ same_network ad ad' /\
    Forall (fun i => c_actions ad' !! i = None) ids /\
    (forall i, i ∉ ids -> c_actions ad' !! i = c_actions ad !! i).
Proof.
  intros D. revert ad. induction D as [|i ids Hi _ IH]; intros ad F G; [by exists ad|].
  inversion F as [|? ? (a & Ha & He) F']; subst. inversion G as [|? ? [x Hx] G']; subst.
  destruct (IH (with_actions (delete i (c_actions ad)) (c_base ad) ad)) as (ad' & E & S & N & K); [|done|].
  { apply list.Forall_forall. intros j Hj. cbn. rewrite lookup_delete_ne by congruence.
    by eapply list.Forall_forall in F'. }
  exists ad'. cbn [update_all map update_action esp_adapter]. unfold esp_update. rewrite Ha.
  rewrite He, Hx. cbn. rewrite E, <- Hx.
  split_and!; [done|exact S| |].
  - constructor; [|done]. rewrite K by done. cbn. by rewrite lookup_delete_eq.
  - intros j Hj. apply not_elem_of_cons in Hj as [Hj1 Hj2]. rewrite K by done. cbn. by rewrite lookup_delete_ne.
Qed.

(** The first update, with the requests [l] waiting. *)
Lemma first_update l r s ad :
  Forall (fun a => protocol a = kTcp) l -> system_ok r -> retry_ok s ->
  connected_ ad = false -> esp_netif_ ad = false -> c_next ad = length l ->
  (forall k a, l !! k = Some a -> c_actions ad !! k = Some (waiting_action a)) ->
  match network (events_before r) (events_waiting r) s with
  | None => esp_Update r s ad = Defined None
  | Some b =>
      exists ad' s', esp_Update r s ad = Defined (Some (ad', s')) /\ retry_ok s' /\
        (b = false -> s_retry_num s' = kMaxRetry) /\
        connected_ ad' = true /\ esp_netif_ ad' = true /\ c_next ad' = length l /\
        (forall k a, l !! k = Some a -> c_actions ad' !! k = Some (told b (made (c_base ad) + k)%nat a)) /\
        (forall i, (length l <= i)%nat -> c_actions ad' !! i = c_actions ad !! i)
  end.
Proof.
  intros Hl (Hv & Hb & Ha) Hr Hc Hn Hx Hw. unfold esp_Update, Connect. rewrite Hc. cbn [esp_netif_]. rewrite Hn, Hv.
  unfold WifiInitSta. rewrite Hb. cbn [ESP_ERROR_CHECK].
  set (s0 := {| s_retry_num := s_retry_num s; s_wifi_event_group := 0; connects := connects s |}).
  pose proof (wait_network (events_before r) (events_waiting r) s0 Hr eq_refl) as W.
  change (network _ _ s0) with (network (events_before r) (events_waiting r) s) in W.
  change (foldl (flip EventHandler) s0 (events_before r)) with (handle_all (events_before r) s0).
  destruct (network _ _ s) as [b|]; [|by rewrite W]. destruct W as (bits & s' & -> & L & Hr' & Hf).
  set (ad0 := {| c_base := _ |}).
  destruct (emit_from_told b l 0 ad0 Hl Hw) as (ad' & E & (S1 & S2 & S3 & S4 & S5) & T & K).
  assert (emit b ad0 = Defined ad') as Em by (unfold emit; cbn [c_next ad0]; by rewrite Hx).
  exists ad', s'. split.
  - unfold learned in L. destruct (negb _); [injection L as <-; by rewrite Em, Ha|].
    destruct (negb _); [injection L as <-; by rewrite Em, Ha|done].
  - rewrite S3, S4, S5. split_and!; try done. intros i Hi. rewrite K by lia. done.
Qed.

(** C31: requests made before the network is up wait for it and are answered, once, when
    it is: with a transport to the address of each if the network gave an address
    ([network]: before the task began to wait, or before the disconnection that found
    no retry left of the ten of the static counter), with errors otherwise.  Nothing
    is emitted before, and if the network does neither, the update goes on waiting.
    Every answer is followed by a write to the action, which was erased. *)
Theorem wifi_requests_answered ssid pass l r s :
  Forall (fun a => protocol a = kTcp) l -> system_ok r -> retry_ok s ->
  exists ad1, create_all l (new_esp32 ssid pass) = Defined (ad1, seq 0 (length l)) /\
  (forall i, update_action i ad1 = (ad1, None)) /\
  match network (events_before r) (events_waiting r) s with
  | None => esp_Update r s ad1 = Defined None
  | Some b =>
      exists ad2 s', esp_Update r s ad1 = Defined (Some (ad2, s')) /\ retry_ok s' /\
      forall order, order ≡ₚ seq 0 (length l) ->
      exists ad3, update_all order ad2 = (ad3, map (fun i => (i, wifi_answer b l i)) order) /\ ready ad3
  end.
Proof.
  intros Hl Hs Hr. destruct (create_waiting l (new_esp32 ssid pass) eq_refl) as (ad1 & E & N & C & Ne & B & W & K).
  exists ad1. split; [done|]. cbn [c_next new_esp32 Nat.add c_actions c_base] in *.
  assert (forall i, (length l <= i)%nat -> c_actions ad1 !! i = None) as O by (intros i Hi; rewrite K by lia; done).
  split.
  { intros i. cbn. unfold esp_update. destruct (decide (i < length l)%nat) as [Hi|Hi]; [|by rewrite O by lia].
    apply lookup_lt_is_Some in Hi as [a Ha]. by rewrite (W i a Ha). }
  pose proof (first_update l r s ad1 Hl Hs Hr C Ne N W) as U. destruct (network _ _ s) as [b|]; [|exact U].
  destruct U as (ad2 & s' & Eu & Hr' & _ & C2 & _ & N2 & T & O2). rewrite B in T. exists ad2, s'.
  split_and!; [done|done|]. intros order P.
  assert (forall i, i ∈ order <-> (i < length l)%nat) as Ho by (intros i; rewrite P, elem_of_seq; lia).
  assert (forall i, (i < length l)%nat -> exists a, c_actions ad2 !! i = Some a /\
    esp_action_update a = wifi_answer b l i /\ is_Some (wifi_answer b l i)) as Ht.
  { intros i Hi. apply lookup_lt_is_Some in Hi as [a Ha]. exists (told b i a). rewrite (T i a Ha).
    unfold wifi_answer. rewrite Ha. by destruct b. }
  destruct (esp_update_all order (wifi_answer b l) ad2) as (ad3 & E3 & (_ & _ & _ & C3 & _) & N3 & K3).
  - rewrite P. apply NoDup_seq.
  - apply list.Forall_forall. intros i Hi. apply Ho, Ht in Hi as (a & ? & ? & _). by exists a.
  - apply list.Forall_forall. intros i Hi. by apply Ho, Ht in Hi as (a & ? & ? & ?).
  - exists ad3. split; [done|]. split; [by rewrite C3|]. intros i a Hi. exfalso.
    destruct (decide (i ∈ order)) as [Hin|Hin]; [eapply list.Forall_forall in N3; [|exact Hin]; congruence|].
    rewrite K3, O2, O in Hi; [done|..|done]; rewrite Ho in Hin; lia.
Qed.

(** A network that failed is forgotten: further updates try nothing, every request
    gets a transport as if there were a network, and the retries stay spent, so that
    another adapter gives up at the first disconnection. *)
Theorem wifi_failure_forgotten ssid pass r s a :
  system_ok r -> retry_ok s -> network (events_before r) (events_waiting r) s = Some false -> protocol a = kTcp ->
  exists ad s', esp_Update r s (new_esp32 ssid pass) = Defined (Some (ad, s')) /\
    (forall r', esp_Update r' s' ad = Defined (Some (ad, s'))) /\
    (exists ad' i t, CreateTransport a ad = Defined (ad', Some i) /\
       (update_action i ad').2 = Some (Result t, true) /\ t_address t = a) /\
    (forall es, network [] (WIFI_EVENT_STA_DISCONNECTED :: es) s' = Some false).
Proof.
  intros Hs Hr N Ha. pose proof (first_update [] r s (new_esp32 ssid pass) (Forall_nil_2 _) Hs Hr eq_refl eq_refl eq_refl) as U.
  rewrite N in U. destruct U as (ad & s' & E & _ & Hf & C & _ & _ & _ & O); [done|]. exists ad, s'. split; [done|].
  assert (ready ad) as Hy by (split; [done|]; intros i x Hx; rewrite O in Hx by (cbn; lia); done).
  split_and!.
  - intros r'. unfold esp_Update. by rewrite C.
  - destruct (create_ok ad a Hy Ha) as (ad' & i & t & Ec & Hy' & Ta & _ & _ & _ & Q).
    destruct (update_ok ad' i t Hy') as (ad'' & Eu & _); [by rewrite Q, lookup_insert_eq|].
    exists ad', i, t. by rewrite Eu.
  - intros es. unfold network. cbn. unfold retries_left. by rewrite (Hf eq_refl).
Qed.

(** Every end of an action of the adapter of the ESP32 is followed by a write to the
    action, which is erased then. *)
Theorem esp_action_writes_erased id ad ad' e w :
  esp_update id ad = (ad', Some (e, w)) -> c_actions ad' !! id = None /\ w = true.
Proof.
  unfold esp_update, esp_action_update. destruct (c_actions ad !! id) as [a|]; [|done].
  destruct (c_transport a), (c_once a), (failed_ a); intros [= <- <- <-]; cbn; by rewrite lookup_delete_eq.
Qed.

(** The fields of the configuration have the sizes of the system; names that fit
    are copied, longer ones cut. *)
Theorem config_fields ssid pass :
  length (sta_ssid (make_config ssid pass)) = 32%nat /\ length (sta_password (make_config ssid pass)) = 64%nat /\
  (forall k, (k < 32)%nat -> sta_ssid (make_config ssid pass) !! k = Some (default 0 (ssid !! k))) /\
  (forall k, (k < 64)%nat -> sta_password (make_config ssid pass) !! k = Some (default 0 (pass !! k))).
Proof.
  assert (forall n s, length (copy_field n s) = n) as L.
  { intros n s. unfold copy_field. destruct (Nat.ltb_spec (length s) n); rewrite length_app, length_take, length_replicate; lia. }
  assert (forall n s k, (k < n)%nat -> copy_field n s !! k = Some (default 0 (s !! k))) as C.
  { intros n s k Hk. unfold copy_field. destruct (Nat.ltb_spec (length s) n) as [H|H].
    - rewrite take_ge by lia. destruct (s !! k) eqn:E; [by apply lookup_app_l_Some|].
      apply lookup_ge_None in E. rewrite lookup_app_r by lia. apply lookup_replicate. cbn. split; [done|lia].
    - rewrite Nat.sub_diag, app_nil_r, lookup_take, decide_True by done.
      by destruct (lookup_lt_is_Some_2 s k ltac:(lia)) as [x ->]. }
  split_and!; cbn [sta_ssid sta_password make_config]; auto.
Qed.

(** *** Examples *)

Definition sample_address : IpAddressPortProtocol :=
  {| ip := {| version := kIpV4; value := [1; 2; 3; 4] |}; port := 80; protocol := kTcp |}.

Definition sample_answers (es : list wifi_event) : Answers :=
  {| nvs_init := ESP_ERR_NVS_NO_FREE_PAGES; nvs_erase_ok := true; nvs_init_again := ESP_OK;
     calls_before := replicate 8 true; events_before := [WIFI_EVENT_STA_START]; events_waiting := es;
     calls_after := [true; true] |}.

Definition sample_state : WifiState := {| s_retry_num := 0; s_wifi_event_group := 0; connects := 0 |}.

Lemma wifi_requests_answered_witness :
  exists ad1 ad2 s' ad3,
    create_all [sample_address; sample_address] (new_esp32 [65] [66]) = Defined (ad1, [0; 1]%nat) /\
    esp_Update (sample_answers (replicate 10 WIFI_EVENT_STA_DISCONNECTED ++ [IP_EVENT_STA_GOT_IP])) sample_state ad1
      = Defined (Some (ad2, s')) /\
    update_all [1; 0]%nat ad2 =
      (ad3, [(1%nat, Some (Result {| t_class := LwipTcpTransport; t_address := sample_address; t_id := 1 |}, true));
             (0%nat, Some (Result {| t_class := LwipTcpTransport; t_address := sample_address; t_id := 0 |}, true))]).
Proof.
  destruct (wifi_requests_answered [65] [66] [sample_address; sample_address]
    (sample_answers (replicate 10 WIFI_EVENT_STA_DISCONNECTED ++ [IP_EVENT_STA_GOT_IP])) sample_state)
    as (ad1 & E1 & _ & U).
  - by repeat constructor.
  - by split_and!.
  - by split.
  - destruct U as (ad2 & s' & E2 & _ & H). destruct (H [1; 0]%nat) as (ad3 & E3 & _); [apply perm_swap|].
    exists ad1, ad2, s', ad3. split; [exact E1|]. split; [exact E2|]. exact E3.
Defined.

Lemma failed_network_connected :
  exists ad s', esp_Update (sample_answers (replicate 11 WIFI_EVENT_STA_DISCONNECTED)) sample_state (new_esp32 [65] [66])
      = Defined (Some (ad, s')) /\ connected_ ad = true.
Proof. vm_compute. by eexists _, _. Qed.

End AdapterProperties.
